(* ===== verification/_CoqProject ===== *)
-Q . S2P
Prelude.v
Prog.v
Posix.v
Signals.v
Table.v
Cstd.v
Stdio.v
StdioTools.v
MyCpy.v
Mytbf.v
TokenBucket.v
SlowCat.v
Token.v
SigMask.v
Cat.v
Dup.v
AnyTimer.v
Relay.v
Select.v
Poll.v
Epoll.v
ThreadPool.v
Threads.v
Counter.v
SharedMem.v
Ipc.v
SysV.v
Inet.v
UdpEcho.v
Calendar.v
Listing.v
StdioMisc.v
Procs.v
Daemon.v
SigExit.v
FileCounter.v
Options.v
Ps.v
Primes.v
PoolClose.v
FsTools.v
Du.v
HttpClient.v
SocketMsg.v
