(* ===== verification/Prelude.v ===== *)
(** * Verification of the apue-pratice programs

    The repository is a collection of C programs on the Unix programming
    interface, one or two per topic, and two small libraries (a token bucket and
    a timer) that some of them use.  Every program that has logic of its own is
    translated into definitions of this library and proved to do what it is for,
    or proved not to.

    ** Layout

    The ground on which the programs stand:
    - [Prelude] (this file): bytes, machine integers, searches in lists, tactics;
    - [Prog]: the monad the C code is translated into, with its program logic;
    - [Posix]: files, descriptors, [open], [close], [read] and [write];
    - [Signals]: what a process does on a signal;
    - [Table]: a heap of objects and a table of pointers to them, the data
      structure both libraries keep;
    - [Cstd]: decimal numbers, [atoi], network byte order, [getopt];
    - [Inet]: internet addresses, [inet_pton] and [inet_ntop];
    - [Stdio]: the streams of the C library.

    The programs:
    - [Mytbf] (src/signal/mytbf.c, mytbf.h): the token bucket; [TokenBucket] is
      its interface, a class that [Mytbf] implements; [SlowCat]
      (src/signal/slow_cat.c) is proved against that class only;
    - [AnyTimer] (src/signal/anytimer.c, anytimer.h), with the program
      src/signal/at_test.c in its Module [AtTest];
    - [Relay], [Select], [Poll], [Epoll] (src/adio/select.c, poll.c, epoll.c):
      three copiers of several files at once; [Relay] holds what they share;
    - [ThreadPool] (src/thread/thread_pool.c);
    - [Counter] (src/ipc/sem_arr.c in Module [SemArr], src/thread/mutex.c in
      Module [Mutex]): one machine over the class of locks, two instances;
    - [FileCounter] (src/adio/flock.c): processes that increment a number in a
      file under a lock;
    - [Primes] (src/ps/prime.c in Module [Ps], src/thread/prime.c in Module
      [Thr]): trial division, and one machine of workers;
    - [MyCpy] (src/fileio/mycpy.c);
    - [StdioTools], a Module for each of src/stdio/mycpy.c, mycpy1.c,
      char_count.c, flen.c, print_file.c, line_char_count.c and of
      src/fileio/trunc_ln_10.c;
    - [Du] (src/fs/du.c);
    - [HttpClient] (src/socket/http_client.c);
    - [SocketMsg] (src/socket/socket_tcp.c in Module [Tcp], socket_udp.c in
      Module [Udp]);
    - [Token] (src/signal/token.c) and [Cat] (src/signal/cat.c), two earlier forms
      of [slow_cat];
    - [SigMask]: signal masks, with the Modules [Int], [Sig], [Suspend],
      [Suspend1], [Alarm] and [Pause] for the programs of these names in
      src/signal;
    - [PoolClose]: [tp_close] and [routine] of src/thread/thread_pool.c;
    - [Threads]: cancel.c, clean.c and create.c of src/thread;
    - [SharedMem]: src/adio/mmap_share.c and the loops of src/ipc/shm.c, one
      machine; [Ipc]: src/ipc/pipe.c in Module [Pipe], the rounds of
      src/ipc/msg.c in Module [Msg]; [SysV]: shm.c (Module [ShmProg]) and msg.c
      (Module [MsgProg]) from their first call on, with the keys and objects of
      the system, on top of the two;
    - [UdpEcho]: src/socket/udp_echo.c;
    - [Calendar]: time.c and print_100day.c of src/fs, with the Gregorian
      calendar;
    - [Listing]: print_args.c, readdir.c, glob.c, username.c, groupname.c and
      stat.c of src/fs, env.c of src/ps; [StdioMisc]: fgets.c and errno.c of
      src/stdio;
    - [Procs]: src/ps/exec_test.c (Module [ExecTest]), src/ps/zombie.c
      ([Zombie]), pgid.c and sid.c of src/terminal ([Groups]); [Daemon]:
      src/ps/daemonize.c;
    - [SigExit]: sigaction.c and timeout.c of src/signal;
    - [Dup]: dup.c, dup1.c, dup2.c and ab.c of src/fileio;
    - [FsTools]: ftype.c, validate_passwd.c and hole.c of src/fs and
      src/adio/mmap.c;
    - [Options]: opt.c and opt_long.c of src/ps; [Ps]: fork.c, fork_exec.c,
      exec.c, test_fd.c, hook.c and setjmp.c of src/ps.

    A definition has the name of the function it translates; loop bodies and
    other parts of a function have names of their own.

    ** How C is modelled

    A function is a value of [M St A], a map from a state to a result: a return
    value, [exit] with its status, undefined behaviour with its cause, or an
    exhausted loop.  Local variables are variables, loops are [iter] with fuel.
    [wp] is total correctness: a statement with [wp] says that the program
    neither has undefined behaviour nor runs out of the given fuel, and every
    such theorem asks only for fuel above a bound on the size of the input (the
    length of a file, the depth of a tree, the number of messages), so fuel is
    never what makes it true.  A program that loops for ever by design is stated
    to exhaust every fuel.

    Machine integers are integers of [Z]: signed arithmetic that leaves its
    range is undefined behaviour, unsigned arithmetic is taken modulo a power of
    two.  Memory is modelled where it matters: objects that are freed
    ([Table]), buffers that are read past their end, bytes that were never
    written.

    What the system may do freely is an explicit list of answers in the state: a
    call may transfer fewer bytes than asked for, or fail.  A theorem for every
    list is a theorem for every behaviour with finitely many disturbances.
    [alarm] sets one signal: its delivery leaves none set, so a handler has to set
    the next.  In [Mytbf], [AnyTimer], [SlowCat] and [Token] the ticks of the clock
    are events that come between calls, during them, in [pause], and between a test
    and the [pause] behind it (the arguments [late] and [mid]); in [SigMask] a list
    says which signals arrive before or during each call.  A call that waits for
    ever ends a run as an exhausted loop does.  Threads are step functions under an arbitrary
    schedule, one step for each access to shared memory or call that can block.

    ** What is proved

    - The libraries implement abstract specifications (maps from descriptors to
      buckets and to pending jobs) for every sequence of calls and ticks that these
      allow (live identifiers, no overflow, no wait without end).  They follow the
      code, also where mytbf.h says that [burst] is a bound and the code has none:
      [mytbf_refines], [at_refines], [at_deadlines]; a fetch makes progress:
      [mytbf_fetch_progress]; the documented bound of a bucket does not hold:
      [mytbf_ticks_pass_burst].
    - The copiers copy: [mycpy_copies], [stdio_mycpy1_copies], and, if no transfer
      is cut short, [slow_cat_prints_at_rate] (at its rate after every call) and
      [select_copies]; or do not, and in which cases:
      [stdio_mycpy_copies_to_ff], [slow_cat_short_write_overruns],
      [select_short_write_never_ends], [select_read_error_overruns],
      [poll_overruns_array], [epoll_never_writes].
    - The pool executes every task once and, with two workers or more, is free
      of deadlock: [tp_executes_once], [tp_deadlock_free], [tp_main_runs_all];
      with one it is not: [tp_lost_wakeup].  The counters count:
      [sem_arr_counts], [mutex_counts], [flock_counts];
      [mutex_create_unchecked].  The prime
      programs print the primes: [ps_prime_prints], [thread_prime_prints].
    - The file tools: [trunc_ln_10_deletes_line], [char_count_flen_agree],
      [print_file_prints], [line_char_count_reads_uninit]; [du_both_sum] (the
      variant with [glob] only for names that mean nothing to it, [du_glob_brackets]
      shows one that does), [du_unit_bounds].
    - The network programs: [http_saves_body], [http_blank_line_loses_byte],
      [tcp_end_to_end], [udp_end_to_end], [tcp_server_prints],
      [udp_server_prints], [tcp_short_read_uninit].
    - Signals: [suspend1_no_lost_wakeup], and the race it avoids,
      [suspend_loses_wakeup]; [int_prints_rows], [sig_prints], [alarm_prints],
      [pause_never_prints]; [token_prints_at_rate], [cat_never_ends];
      [sigaction_ends_on_int], [timeout_counts].
    - Processes and threads: [tp_close_in_use], [routine_terminates],
      [cancel_never_joins], [clean_prints], [create_prints]; [fork_prints],
      [test_fd_writes]; [exec_test_waits], [zombie_makes], [groups_move],
      [daemonize_detaches].
    - Communication: the processes of shm.c and msg.c meet at one object whatever
      their order, [shm_refines] (a refinement of the machine of [SharedMem]) and
      [msg_delivers] (or the read past its literal faults,
      [msg_reads_past_literal]); [shared_memory_safe], [shm_torn_read], [pipe_fifo],
      [msg_prints_by_accident], [msgrcv_overflows_buffer], [udp_echo_prints],
      [udp_echo_faults].
    - The clock and the system: [time_prints] and [print_100day_prints], in zones
      with any offset and summer time at every instant, on a calendar in which every day has exactly one date ([date_of_valid],
      [days_of_inj]); [listings_print], [names_print], [stat_reads_back];
      [fgets_counts], [errno_prints].
    - Files and options: [dups_redirect], [dup1_closed_stdout_loses], [ab_prints],
      [ftype_letter], [validate_passwd_cases], [hole_makes_zeros], [mmap_prints],
      [opt_roundtrip], [opt_long_roundtrip].

    ** What is not modelled

    Messages on the standard error stream, debugging output and, in the older
    files, the text around printed values; links between paths (except in
    [FsTools.Ftype], whose [stat] follows symbolic links); the formatting of
    floating-point numbers (the number [du] prints is kept as an integer and a
    unit); the buffering of output streams (except in [Dup], [Ps] and [Threads],
    whose programs are about it).  In [SharedMem] [snprintf] is taken to store its
    bytes from the first to the last.  What a program that [exec] starts prints, and
    when it ends, are events of the schedule in [Procs].  There are no leap seconds
    in [Calendar].  [tp_close] is modelled up to its first destroy, where the mutex
    is locked for ever or still to be used.  The pipe state and its initialisation are
    modelled once, in [Relay], for the three copiers that each have a copy of them.
    Functions that no program calls (try_close in src/stdio/mycpy.c, my_action in
    src/signal/sigaction.c) and calls that are never reached are left out.

    Possible next: fairness of the schedules, so that the liveness theorems that
    now say "some step brings the end nearer" become statements on infinite runs;
    the buffers of [stdout] in [Procs]. *)

From stdpp Require Export base gmap list strings fin_maps relations.
From Stdlib Require Export ZArith Lia Strings.Byte.

#[export] Set Default Goal Selector "!".

Open Scope Z_scope.

(** ** Bytes *)

(** A C [char] object holds one of 256 bytes; the program reads it as an
    [unsigned char] (what [fgetc] returns) or, on the x86-64 target of the
    repository, as a signed [char]. *)

#[export] Instance byte_eq_dec : EqDecision byte := Byte.byte_eq_dec.
#[export] Instance byte_countable : Countable byte := inj_countable Byte.to_N Byte.of_N Byte.of_to_N.

Definition uchar (b : byte) : Z := Z.of_N (Byte.to_N b).

Definition schar (b : byte) : Z := if uchar b <? 128 then uchar b else uchar b - 256.

(** The byte of an integer, modulo 256: the conversion [(unsigned char) z]. *)
Definition byte_of_Z (z : Z) : byte :=
  match Byte.of_N (Z.to_N (z mod 256)) with Some b => b | None => x00 end.

Lemma uchar_range b : 0 <= uchar b < 256.
Proof. unfold uchar. pose proof (Byte.to_N_bounded b). lia. Qed.

Lemma byte_of_Z_uchar b : byte_of_Z (uchar b) = b.
Proof.
  unfold byte_of_Z. rewrite Z.mod_small by apply uchar_range.
  unfold uchar. by rewrite N2Z.id, Byte.of_to_N.
Qed.

Lemma uchar_byte_of_Z z : uchar (byte_of_Z z) = z mod 256.
Proof.
  unfold byte_of_Z. pose proof (Z.mod_pos_bound z 256 eq_refl).
  destruct (Byte.of_N _) as [b|] eqn:E.
  - apply Byte.to_of_N in E. unfold uchar. rewrite E. lia.
  - apply Byte.of_N_None_iff in E. lia.
Qed.

Lemma uchar_inj b c : uchar b = uchar c -> b = c.
Proof. intros E. by rewrite <-(byte_of_Z_uchar b), E, byte_of_Z_uchar. Qed.

Lemma schar_uchar b : schar b mod 256 = uchar b.
Proof.
  unfold schar. pose proof (uchar_range b). case_match; Z.div_mod_to_equations; lia.
Qed.

(** The bytes of a C string literal. *)
Definition bytes (s : string) : list byte := String.list_byte_of_string s.

(** ** Machine integers *)

Definition INT_MAX : Z := 2147483647.
Definition INT_MIN : Z := -2147483648.

Definition in_int (z : Z) : bool := (INT_MIN <=? z) && (z <=? INT_MAX).

Definition wrap_u32 (z : Z) : Z := z mod 2 ^ 32.
Definition wrap_u64 (z : Z) : Z := z mod 2 ^ 64.

Lemma in_int_spec z : in_int z = true <-> INT_MIN <= z <= INT_MAX.
Proof. unfold in_int. rewrite andb_true_iff, !Z.leb_le. done. Qed.

(** A count is never negative. *)
Lemma of_nat_ltb_0 n : (Z.of_nat n <? 0) = false.
Proof. apply Z.ltb_ge. lia. Qed.

(** ** Tactics *)

(** Case analysis on the boolean comparisons of a goal or hypothesis, leaving
    linear facts for [lia]. *)
Ltac bool_cases :=
  repeat match goal with
  | |- context [Z.ltb ?a ?b] => destruct (Z.ltb_spec a b)
  | |- context [Z.leb ?a ?b] => destruct (Z.leb_spec a b)
  | |- context [Z.eqb ?a ?b] => destruct (Z.eqb_spec a b)
  | H : context [Z.ltb ?a ?b] |- _ => destruct (Z.ltb_spec a b)
  | H : context [Z.leb ?a ?b] |- _ => destruct (Z.leb_spec a b)
  | H : context [Z.eqb ?a ?b] |- _ => destruct (Z.eqb_spec a b)
  end.

(** ** Lists *)

Section lists.
Context {A : Type}.
Implicit Types l k : list A.

(** [list_find_idx p l]: the first index whose element satisfies [p], which is
    what the table-scanning loops of the repository compute. *)
Fixpoint find_idx (p : A -> bool) (l : list A) : option nat :=
  match l with
  | [] => None
  | x :: l' => if p x then Some 0%nat else S <$> find_idx p l'
  end.

Lemma find_idx_Some p l i :
  find_idx p l = Some i <->
  (exists x, l !! i = Some x /\ p x = true) /\
  (forall j x, (j < i)%nat -> l !! j = Some x -> p x = false).
Proof.
  revert i. induction l as [|a l IH]; intros i; simpl.
  - split; [done|]. intros [(x & Hx & _) _]. by rewrite lookup_nil in Hx.
  - destruct (p a) eqn:Ea.
    + split.
      * intros [= <-]. split; [by exists a|]. intros; lia.
      * intros [(x & Hx & Px) Hmin]. destruct i as [|i]; [done|].
        exfalso. assert (p a = false) by (apply (Hmin 0%nat); [lia|done]). congruence.
    + rewrite fmap_Some. split.
      * intros (j & Hj & ->). apply IH in Hj as [(x & Hx & Px) Hmin].
        split; [by exists x|]. intros [|j'] y ? ?; simplify_eq/=; [done|].
        apply (Hmin j'); [lia|done].
      * intros [(x & Hx & Px) Hmin]. destruct i as [|i]; simplify_eq/=; [congruence|].
        exists i. split; [|done]. apply IH. split; [by exists x|].
        intros j y ? ?. apply (Hmin (S j)); [lia|done].
Qed.

Lemma find_idx_None p l :
  find_idx p l = None <-> forall j x, l !! j = Some x -> p x = false.
Proof.
  induction l as [|a l IH]; simpl.
  - split; [|done]. intros _ j x Hx. by rewrite lookup_nil in Hx.
  - destruct (p a) eqn:Ea.
    + split; [done|]. intros H. specialize (H 0%nat a eq_refl). congruence.
    + rewrite fmap_None, IH. split.
      * intros H [|j] x ?; simplify_eq/=; [done|]. by apply (H j).
      * intros H j x ?. by apply (H (S j)).
Qed.

Lemma find_idx_lt p l i : find_idx p l = Some i -> (i < length l)%nat.
Proof. intros [(x & Hx & _) _]%find_idx_Some. by eapply lookup_lt_Some. Qed.

(** How many elements satisfy a test, after one element has changed. *)
Lemma count_insert (f : A -> bool) l i x y : l !! i = Some x ->
  (length (filter (fun t => f t = true) (<[i := y]> l)) + Nat.b2n (f x) =
   length (filter (fun t => f t = true) l) + Nat.b2n (f y))%nat.
Proof.
  revert i. induction l as [|t l IH]; intros [|i] Hi; simplify_eq/=.
  - rewrite !filter_cons. destruct (f x), (f y); repeat case_decide; simplify_eq/=; lia.
  - specialize (IH i Hi). rewrite !filter_cons. case_decide; simpl; lia.
Qed.

(** All elements satisfy a test exactly when as many do as there are. *)
Lemma count_full (f : A -> bool) l :
  (length l <= length (filter (fun t => f t = true) l))%nat <-> Forall (fun t => f t = true) l.
Proof.
  induction l as [|w l IH]; simpl; [split; [constructor|lia]|].
  rewrite filter_cons, Forall_cons, <-IH. pose proof (length_filter (fun t => f t = true) l).
  case_decide; simpl; split; intros; try lia; naive_solver lia.
Qed.

End lists.

Lemma find_idx_ext {A B} (p : A -> bool) (q : B -> bool) (l : list A) (k : list B) :
  length l = length k ->
  (forall i x y, l !! i = Some x -> k !! i = Some y -> p x = q y) ->
  find_idx p l = find_idx q k.
Proof.
  revert k. induction l as [|x l IH]; intros [|y k] Hlen H; simplify_eq/=; [done|].
  rewrite (H 0%nat x y eq_refl eq_refl). destruct (q y); [done|]. f_equal. apply IH; [done|].
  intros i. apply (H (S i)).
Qed.
