(* ===== verification/Prog.v ===== *)
(** * Prog: the effect monad the C programs are translated into

    A C function that reads and writes a state of type [St] is a value of
    [M St A]: it maps a state to a result.  A result is a return value, a call
    of [exit], undefined behaviour (a [Fault], with the cause), or running out
    of the fuel a loop was given.  [wp] is the total-correctness weakest
    precondition over these results: a fault and an exhausted loop satisfy no
    postcondition, so every [wp] statement says that the program terminates
    without undefined behaviour. *)

From S2P Require Import Prelude.

(** The causes of undefined behaviour the models detect. *)
Inductive fault :=
| NullDeref
| UseAfterFree
| SignedOverflow
| OutOfBounds
| UninitRead
| MissingReturn.

Inductive res (St A : Type) :=
| Ok (a : A) (w : St)
| Exit (code : Z) (w : St)
| Fault (f : fault) (w : St)
| OutOfFuel (w : St).
Arguments Ok {St A}.
Arguments Exit {St A}.
Arguments Fault {St A}.
Arguments OutOfFuel {St A}.

Definition M (St A : Type) : Type := St -> res St A.

#[export] Instance M_ret St : MRet (M St) := fun A a w => Ok a w.

#[export] Instance M_bind St : MBind (M St) := fun A B k m w =>
  match m w with
  | Ok a w' => k a w'
  | Exit c w' => Exit c w'
  | Fault f w' => Fault f w'
  | OutOfFuel w' => OutOfFuel w'
  end.

Section primitives.
Context {St : Type}.

Definition get : M St St := fun w => Ok w w.
Definition gets {A} (f : St -> A) : M St A := fun w => Ok (f w) w.
Definition put (w : St) : M St unit := fun _ => Ok tt w.
Definition modify (f : St -> St) : M St unit := fun w => Ok tt (f w).
Definition exit_ {A} (code : Z) : M St A := fun w => Exit code w.
Definition fail {A} (f : fault) : M St A := fun w => Fault f w.

(** [unwrap f o] is the value of [o], or the fault [f]. *)
Definition unwrap {A} (f : fault) (o : option A) : M St A :=
  match o with Some a => mret a | None => fail f end.

(** A signed [int] result: undefined when it does not fit. *)
Definition int_ (z : Z) : M St Z := if in_int z then mret z else fail SignedOverflow.

(** [while]/[for(;;)] loops.  The body maps the loop's local variables to new
    ones ([inl], the next iteration) or to the loop's result ([inr]). *)
Fixpoint iter {L R} (fuel : nat) (body : L -> M St (L + R)) (l : L) : M St R :=
  match fuel with
  | O => fun w => OutOfFuel w
  | S n => fun w =>
      match body l w with
      | Ok (inl l') w' => iter n body l' w'
      | Ok (inr r) w' => Ok r w'
      | Exit c w' => Exit c w'
      | Fault f w' => Fault f w'
      | OutOfFuel w' => OutOfFuel w'
      end
  end.

(** [for (int i = lo; i < lo + n; i++) body(i)]. *)
Fixpoint for_ (n : nat) (lo : nat) (body : nat -> M St unit) : M St unit :=
  match n with
  | O => mret tt
  | S n' => body lo ;; for_ n' (S lo) body
  end.

(** ** Weakest preconditions *)

Definition wp {A} (m : M St A) (Q : A -> St -> Prop) (E : Z -> St -> Prop) (w : St) : Prop :=
  match m w with
  | Ok a w' => Q a w'
  | Exit c w' => E c w'
  | Fault _ _ | OutOfFuel _ => False
  end.

Implicit Types (w : St) (E : Z -> St -> Prop).

Lemma wp_ret {A} (a : A) (Q : A -> St -> Prop) E w : Q a w -> wp (mret a) Q E w.
Proof. done. Qed.

Lemma wp_bind {A B} (m : M St A) (k : A -> M St B) Q E w :
  wp m (fun a w' => wp (k a) Q E w') E w -> wp (m ≫= k) Q E w.
Proof. unfold wp, mbind, M_bind. by destruct (m w). Qed.

Lemma wp_bind_inv {A B} (m : M St A) (k : A -> M St B) Q E w :
  wp (m ≫= k) Q E w -> wp m (fun a w' => wp (k a) Q E w') E w.
Proof. unfold wp, mbind, M_bind. by destruct (m w). Qed.

Lemma wp_mono {A} (m : M St A) (Q Q' : A -> St -> Prop) (E E' : Z -> St -> Prop) w :
  (forall a w', Q a w' -> Q' a w') -> (forall c w', E c w' -> E' c w') ->
  wp m Q E w -> wp m Q' E' w.
Proof. unfold wp. destruct (m w); eauto. Qed.

Lemma wp_get Q E w : Q w w -> wp get Q E w.
Proof. done. Qed.
Lemma wp_gets {A} (f : St -> A) Q E w : Q (f w) w -> wp (gets f) Q E w.
Proof. done. Qed.
Lemma wp_put w' (Q : unit -> St -> Prop) E w : Q tt w' -> wp (put w') Q E w.
Proof. done. Qed.
Lemma wp_modify f (Q : unit -> St -> Prop) E w : Q tt (f w) -> wp (modify f) Q E w.
Proof. done. Qed.
Lemma wp_exit {A} c (Q : A -> St -> Prop) E w : E c w -> wp (exit_ c) Q E w.
Proof. done. Qed.

Lemma wp_unwrap {A} f (o : option A) a Q E w :
  o = Some a -> Q a w -> wp (unwrap f o) Q E w.
Proof. by intros ->. Qed.

Lemma wp_int z Q E w : INT_MIN <= z <= INT_MAX -> Q z w -> wp (int_ z) Q E w.
Proof. intros Hz ?. unfold int_. by rewrite (proj2 (in_int_spec z) Hz). Qed.

(** A computation that satisfies a [wp] and does not exit returns. *)
Lemma wp_Ok {A} (m : M St A) (Q : A -> St -> Prop) w :
  wp m Q (fun _ _ => False) w -> exists a w', m w = Ok a w' /\ Q a w'.
Proof. unfold wp. destruct (m w) as [a w'| | |]; try done. intros HQ. by exists a, w'. Qed.

(** A loop whose body always asks for another round never ends. *)
Lemma iter_forever {L R} (I : nat -> L -> St -> Prop) (body : L -> M St (L + R)) :
  (forall k l w, I k l w ->
     wp (body l) (fun x w' => exists l', x = inl l' /\ I (S k) l' w') (fun _ _ => False) w) ->
  forall n k l w, I k l w -> exists l' w', iter n body l w = OutOfFuel w' /\ I (k + n)%nat l' w'.
Proof.
  intros Hb n. induction n as [|n IH]; intros k l w HI; simpl.
  - exists l, w. by rewrite Nat.add_0_r.
  - destruct (wp_Ok _ _ _ (Hb k l w HI)) as (x & w1 & -> & l1 & -> & H1).
    rewrite Nat.add_succ_r. by apply (IH (S k)).
Qed.

(** The loop rule: an invariant [I] on locals and state, and a measure that
    decreases at every further iteration and starts below the fuel. *)
Lemma wp_iter {L R} (I : L -> St -> Prop) (m : L -> St -> nat)
    (body : L -> M St (L + R)) (Q : R -> St -> Prop) E :
  (forall l w, I l w ->
     wp (body l) (fun x w' => match x with
                              | inl l' => I l' w' /\ (m l' w' < m l w)%nat
                              | inr r => Q r w'
                              end) E w) ->
  forall fuel l w, I l w -> (m l w < fuel)%nat -> wp (iter fuel body l) Q E w.
Proof.
  intros Hbody fuel. induction fuel as [|fuel IH]; intros l w HI Hm; [lia|].
  specialize (Hbody l w HI). unfold wp in *. simpl.
  destruct (body l w) as [[l'|r] w'| | |]; try done.
  destruct Hbody as [HI' Hlt]. apply IH; [done|lia].
Qed.

(** Unrolling one iteration. *)
Lemma wp_iter_S {L R} n (body : L -> M St (L + R)) (l : L) (Q : R -> St -> Prop) E w :
  wp (body l) (fun x w' => match x with
                           | inl l' => wp (iter n body l') Q E w'
                           | inr r => Q r w'
                           end) E w ->
  wp (iter (S n) body l) Q E w.
Proof. unfold wp. simpl. by destruct (body l w) as [[?|?] ?| | |]. Qed.

(** The rule for a counted loop: [I i] holds before iteration [i]. *)
Lemma wp_for (I : nat -> St -> Prop) E (body : nat -> M St unit) n lo w :
  (forall i w, (lo <= i < lo + n)%nat -> I i w -> wp (body i) (fun _ w' => I (S i) w') E w) ->
  I lo w -> wp (for_ n lo body) (fun _ w' => I (lo + n)%nat w') E w.
Proof.
  revert lo w. induction n as [|n IH]; intros lo w Hb HI; simpl.
  - apply wp_ret. by rewrite Nat.add_0_r.
  - apply wp_bind. eapply wp_mono; [|done|apply Hb; [lia|done]].
    intros [] w' HI'. rewrite Nat.add_succ_r. apply IH; [|done].
    intros i w'' ?. apply Hb. lia.
Qed.

End primitives.

#[export] Typeclasses Opaque M.

(** Running a computation on one component of a larger state. *)
Definition on {St T A} (proj : T -> St) (upd : St -> T -> T) (m : M St A) : M T A :=
  fun t => match m (proj t) with
           | Ok a s => Ok a (upd s t)
           | Exit c s => Exit c (upd s t)
           | Fault f s => Fault f (upd s t)
           | OutOfFuel s => OutOfFuel (upd s t)
           end.

Lemma wp_on {St T A} proj upd (m : M St A) (Q : A -> T -> Prop) (E : Z -> T -> Prop) t :
  wp m (fun a s => Q a (upd s t)) (fun c s => E c (upd s t)) (proj t) ->
  wp (on proj upd m) Q E t.
Proof. unfold wp, on. by destruct (m (proj t)). Qed.

(** ** Invariants of every outcome *)

(** [safe P m Q]: [m] keeps [P] however it ends (by returning, exiting, faulting
    or blocking), and a returned value satisfies [Q]. *)
Definition safe {St A} (P : St -> Prop) (m : M St A) (Q : A -> Prop) : Prop :=
  forall w, P w -> match m w with
                   | Ok a w' => P w' /\ Q a
                   | Exit _ w' | Fault _ w' | OutOfFuel w' => P w'
                   end.

(** The state in which a computation ends. *)
Definition final {St A} (r : res St A) : St :=
  match r with Ok _ w | Exit _ w | Fault _ w | OutOfFuel w => w end.

Lemma safe_final {St A} (P : St -> Prop) (m : M St A) Q w : safe P m Q -> P w -> P (final (m w)).
Proof. intros Hm Hw. specialize (Hm w Hw). destruct (m w); try done. by destruct Hm. Qed.

Section safety.
Context {St : Type} (P : St -> Prop).

Lemma safe_ret {A} (a : A) (Q : A -> Prop) : Q a -> safe P (mret a) Q.
Proof. by intros ? w. Qed.

Lemma safe_bind {A B} (m : M St A) (k : A -> M St B) Q Q' :
  safe P m Q -> (forall a, Q a -> safe P (k a) Q') -> safe P (m ≫= k) Q'.
Proof.
  intros Hm Hk w Hw. specialize (Hm w Hw). unfold mbind, M_bind.
  destruct (m w) as [a w'| | |]; try done. destruct Hm. by apply Hk.
Qed.

Lemma safe_mono {A} (m : M St A) (Q Q' : A -> Prop) :
  safe P m Q -> (forall a, Q a -> Q' a) -> safe P m Q'.
Proof. intros Hm HQ w Hw. specialize (Hm w Hw). destruct (m w); naive_solver. Qed.

Lemma safe_get Q : (forall w, P w -> Q w) -> safe P get Q.
Proof. intros HQ w Hw. split; auto. Qed.

Lemma safe_put w' (Q : unit -> Prop) : P w' -> Q tt -> safe P (put w') Q.
Proof. by intros ? ? w. Qed.

Lemma safe_modify f (Q : unit -> Prop) : (forall w, P w -> P (f w)) -> Q tt -> safe P (modify f) Q.
Proof. intros Hf HQ w Hw. split; [by apply Hf|done]. Qed.

Lemma safe_exit {A} c (Q : A -> Prop) : safe P (exit_ c) Q.
Proof. by intros w. Qed.

Lemma safe_fail {A} f (Q : A -> Prop) : safe P (fail f) Q.
Proof. by intros w. Qed.

Lemma safe_iter {L R} (body : L -> M St (L + R)) (I : L -> Prop) (Q : R -> Prop) n l :
  (forall l, I l -> safe P (body l) (fun x => match x with inl l' => I l' | inr r => Q r end)) ->
  I l -> safe P (iter n body l) Q.
Proof.
  intros Hb. revert l. induction n as [|n IH]; intros l Hl w Hw; simpl; [done|].
  specialize (Hb l Hl w Hw). destruct (body l w) as [[l'|r] w'| | |]; try done.
  destruct Hb. by apply IH.
Qed.
End safety.

Lemma safe_on {St T A} (P : T -> Prop) (PS : St -> Prop) proj upd (m : M St A) Q :
  (forall t, P t -> PS (proj t)) -> (forall t s, P t -> PS s -> P (upd s t)) ->
  safe PS m Q -> safe P (on proj upd m) Q.
Proof.
  intros H1 H2 Hm t Ht. specialize (Hm (proj t) (H1 t Ht)). unfold on.
  destruct (m (proj t)) as [a s| | |]; try (by apply H2). destruct Hm. split; [by apply H2|done].
Qed.

Create HintDb wp.
#[export] Hint Resolve wp_ret wp_gets wp_get wp_put wp_modify wp_exit : wp.

(** One symbolic-execution step: reduce a [wp] goal by its head operation. *)
Ltac wp_step :=
  lazymatch goal with
  | |- wp (_ ≫= _) _ _ _ => apply wp_bind
  | |- wp (mret _) _ _ _ => apply wp_ret
  | |- wp (gets _) _ _ _ => apply wp_gets
  | |- wp get _ _ _ => apply wp_get
  | |- wp (put _) _ _ _ => apply wp_put
  | |- wp (modify _) _ _ _ => apply wp_modify
  | |- wp (exit_ _) _ _ _ => apply wp_exit
  | |- wp (on _ _ _) _ _ _ => apply wp_on
  end.
Ltac wp_steps := cbn beta iota; repeat (wp_step; cbn beta iota).
