(* ===== verification/Posix.v ===== *)
(** * Posix: the operating-system calls the programs make

    The files, the open-file descriptions and the descriptor table of one
    process, with the calls [open], [close], [read], [write] and [lseek] as
    POSIX documents them.  What a call may do freely (transfer fewer bytes than
    asked for, be interrupted, fail) is decided by an explicit list of answers
    [orc], one for each call: a statement for every [orc] is a statement for
    every behaviour of the system with finitely many disturbances.  After the
    list is used up every call succeeds in full.

    A path names a file directly: links between paths are not modelled. *)

From S2P Require Import Prelude Prog.

(** ** State *)

Inductive sysans :=
| AFull                  (* the call succeeds, and transfers all it can *)
| ALen (k : nat)         (* the call transfers at most [k] bytes, and at least one *)
| AErr (e : positive).   (* the call fails with [errno = e] *)

(** An open file description: the file, the offset, and the access mode. *)
Record ofd := Ofd { of_path : string; of_off : nat; of_rd : bool; of_wr : bool }.

Record os := Os {
  fs : gmap string (list byte);
  ofds : list ofd;
  fdt : gmap nat nat;      (* descriptor -> index in [ofds] *)
  errno : Z;
  orc : list sysans }.

Definition with_fs (f : gmap string (list byte)) (w : os) : os :=
  {| fs := f; ofds := ofds w; fdt := fdt w; errno := errno w; orc := orc w |}.
Definition with_ofds (f : list ofd) (w : os) : os :=
  {| fs := fs w; ofds := f; fdt := fdt w; errno := errno w; orc := orc w |}.
Definition with_fdt (f : gmap nat nat) (w : os) : os :=
  {| fs := fs w; ofds := ofds w; fdt := f; errno := errno w; orc := orc w |}.
Definition with_errno (e : Z) (w : os) : os :=
  {| fs := fs w; ofds := ofds w; fdt := fdt w; errno := e; orc := orc w |}.
Definition with_orc (o : list sysans) (w : os) : os :=
  {| fs := fs w; ofds := ofds w; fdt := fdt w; errno := errno w; orc := o |}.

(** Linux error numbers and [open] flags. *)
Definition ENOENT : Z := 2.
Definition EINTR : Z := 4.
Definition EBADF : Z := 9.
Definition EAGAIN : Z := 11.
Definition O_RDONLY : Z := 0.
Definition O_WRONLY : Z := 1.
Definition O_RDWR : Z := 2.
Definition O_CREAT : Z := 64.
Definition O_TRUNC : Z := 512.
Definition O_APPEND : Z := 1024.
Definition O_NONBLOCK : Z := 2048.

Definition has_flag (flags f : Z) : bool := negb (Z.land flags f =? 0).
Definition acc_mode (flags : Z) : Z := Z.land flags 3.

(** ** Calls *)

Definition next_ans : M os sysans := fun w =>
  match orc w with
  | [] => Ok AFull w
  | a :: o => Ok a (with_orc o w)
  end.

(** A failed call: [errno] is set and the result is -1. *)
Definition fail_with {A} (e : Z) (r : A) : M os A := modify (with_errno e) ;; mret r.

(** The smallest descriptor that is not in use. *)
Fixpoint lowest_free_from (n fuel : nat) (m : gmap nat nat) : nat :=
  match fuel with
  | O => n
  | S f => match m !! n with Some _ => lowest_free_from (S n) f m | None => n end
  end.
Definition lowest_free (m : gmap nat nat) : nat := lowest_free_from 0 (size m) m.

(** The state after [path] is opened as descriptor [fd]. *)
Definition opened (path : string) (flags : Z) (fd : nat) (w : os) : os :=
  {| fs := <[path := if has_flag flags O_TRUNC then [] else default [] (fs w !! path)]> (fs w);
     ofds := ofds w ++ [Ofd path 0 (negb (acc_mode flags =? O_WRONLY))
                                   (negb (acc_mode flags =? O_RDONLY))];
     fdt := <[fd := length (ofds w)]> (fdt w);
     errno := errno w; orc := orc w |}.

Definition sys_open (path : string) (flags : Z) : M os Z :=
  a ← next_ans;
  match a with
  | AErr e => fail_with (Zpos e) (-1)
  | _ =>
      w ← get;
      if decide (fs w !! path = None /\ has_flag flags O_CREAT = false)
      then fail_with ENOENT (-1)
      else
        let fd := lowest_free (fdt w) in
        put (opened path flags fd w) ;; mret (Z.of_nat fd)
  end.

(** The description a descriptor refers to, with its index. *)
Definition lookup_fd (fd : Z) (w : os) : option (nat * ofd) :=
  if fd <? 0 then None
  else i ← fdt w !! Z.to_nat fd; d ← ofds w !! i; Some (i, d).

Definition sys_close (fd : Z) : M os Z :=
  w ← get;
  match lookup_fd fd w with
  | None => fail_with EBADF (-1)
  | Some _ => put (with_fdt (delete (Z.to_nat fd) (fdt w)) w) ;; mret 0
  end.

(** How many of [n] possible bytes a call transfers. *)
Definition transfer (a : sysans) (n : nat) : nat :=
  match a with
  | ALen k => if decide (n = 0)%nat then 0 else Nat.max 1 (Nat.min k n)
  | _ => n
  end.

Definition set_off (i : nat) (d : ofd) (off : nat) (w : os) : os :=
  with_ofds (<[i := Ofd (of_path d) off (of_rd d) (of_wr d)]> (ofds w)) w.

(** [read(fd, buf, count)]: the result and the new contents of [buf], of which
    only the first bytes are overwritten. *)
Definition sys_read (fd : Z) (buf : list byte) (count : nat) : M os (Z * list byte) :=
  if decide (length buf < count)%nat then fail OutOfBounds else
  a ← next_ans;
  match a with
  | AErr e => fail_with (Zpos e) (-1, buf)
  | _ =>
      w ← get;
      match lookup_fd fd w with
      | Some (i, d) =>
          if of_rd d then
            let avail := drop (of_off d) (default [] (fs w !! of_path d)) in
            let n := transfer a (Nat.min count (length avail)) in
            put (set_off i d (of_off d + n) w) ;;
            mret (Z.of_nat n, take n avail ++ drop n buf)
          else fail_with EBADF (-1, buf)
      | None => fail_with EBADF (-1, buf)
      end
  end.

(** [data] written over [c] at offset [off]; a gap is filled with zero bytes. *)
Definition splice (c : list byte) (off : nat) (data : list byte) : list byte :=
  take off (c ++ replicate (off - length c) x00) ++ data ++ drop (off + length data) c.

(** [write(fd, data, length data)]. *)
Definition sys_write (fd : Z) (data : list byte) : M os Z :=
  a ← next_ans;
  match a with
  | AErr e => fail_with (Zpos e) (-1)
  | _ =>
      w ← get;
      match lookup_fd fd w with
      | Some (i, d) =>
          if of_wr d then
            let n := transfer a (length data) in
            let c := default [] (fs w !! of_path d) in
            put (set_off i d (of_off d + n)
                  (with_fs (<[of_path d := splice c (of_off d) (take n data)]> (fs w)) w)) ;;
            mret (Z.of_nat n)
          else fail_with EBADF (-1)
      | None => fail_with EBADF (-1)
      end
  end.

(** [buf[off .. off+n)], the bytes a call reads from a C array. *)
Definition slice {St} (buf : list byte) (off n : nat) : M St (list byte) :=
  if decide (off + n <= length buf)%nat then mret (take n (drop off buf)) else fail OutOfBounds.

(** A C string in a block of memory: up to its zero, which must be there. *)
Fixpoint mem_string {St} (mem : list byte) : M St (list byte) :=
  match mem with
  | [] => fail OutOfBounds
  | b :: mem' => if decide (b = x00) then mret [] else r ← mem_string mem'; mret (b :: r)
  end.

(** ** Rules *)

Lemma mem_string_ok {St} l rest (w : St) : x00 ∉ l -> mem_string (l ++ x00 :: rest) w = Ok l w.
Proof.
  induction l as [|b l IH]; intros Hn; cbn; [done|]. apply not_elem_of_cons in Hn as [? ?].
  rewrite decide_False by done. unfold mbind, M_bind. by rewrite IH.
Qed.

Lemma mem_string_unterminated {St} l (w : St) : x00 ∉ l -> mem_string l w = Fault OutOfBounds w.
Proof.
  induction l as [|b l IH]; intros Hn; cbn; [done|]. apply not_elem_of_cons in Hn as [? ?].
  rewrite decide_False by done. unfold mbind, M_bind. by rewrite IH.
Qed.

Lemma lowest_free_from_fresh m n fuel :
  (forall j, (j < n)%nat -> is_Some (m !! j)) -> (size m <= n + fuel)%nat ->
  (m : gmap nat nat) !! lowest_free_from n fuel m = None.
Proof.
  revert n. induction fuel as [|fuel IH]; intros n Hocc Hsz; simpl.
  - apply eq_None_not_Some. intros Hn.
    assert (Hsub : set_seq 0 (S n) ⊆@{gset nat} dom m).
    { intros j Hj%elem_of_set_seq. apply elem_of_dom.
      destruct (decide (j = n)) as [->|]; [done|]. apply Hocc. lia. }
    apply subseteq_size in Hsub. rewrite size_set_seq, size_dom in Hsub. lia.
  - destruct (m !! n) eqn:En; [|done]. apply IH; [|lia].
    intros j ?. destruct (decide (j = n)) as [->|]; [by eauto|]. apply Hocc. lia.
Qed.

Lemma lowest_free_fresh (m : gmap nat nat) : m !! lowest_free m = None.
Proof. apply lowest_free_from_fresh; [intros; lia|lia]. Qed.

(** [lowest_free] is the smallest unused descriptor, as POSIX requires. *)
Lemma lowest_free_from_least (m : gmap nat nat) n fuel j :
  (n <= j < lowest_free_from n fuel m)%nat -> is_Some (m !! j).
Proof.
  revert n. induction fuel as [|fuel IH]; intros n Hj; simpl in *; [lia|].
  destruct (m !! n) eqn:En; [|lia].
  destruct (decide (j = n)) as [->|]; [by eauto|]. apply (IH (S n)). lia.
Qed.

Lemma lowest_free_least (m : gmap nat nat) j : (j < lowest_free m)%nat -> is_Some (m !! j).
Proof. intros. apply (lowest_free_from_least m 0 (size m)). split; [lia|done]. Qed.

(** With the descriptors below [n] in use and [n] free, [n] is next. *)
Lemma lowest_free_eq (m : gmap nat nat) n :
  (forall j, (j < n)%nat -> is_Some (m !! j)) -> m !! n = None -> lowest_free m = n.
Proof.
  intros Hocc Hn. pose proof (lowest_free_fresh m) as Hf. destruct (Nat.lt_trichotomy (lowest_free m) n) as [Hlt|[?|Hgt]]; [|done|].
  - destruct (Hocc _ Hlt). congruence.
  - apply lowest_free_least in Hgt as [x Hx]. congruence.
Qed.

Lemma lowest_free_from_le m n fuel : (lowest_free_from n fuel m <= n + fuel)%nat.
Proof.
  revert n. induction fuel as [|fuel IH]; intros n; simpl; [lia|].
  destruct (m !! n); [|lia]. pose proof (IH (S n)). lia.
Qed.

Lemma lowest_free_le (m : gmap nat nat) : (lowest_free m <= size m)%nat.
Proof. apply lowest_free_from_le. Qed.

(** An answer that does not cut a transfer short. *)
Definition whole (a : sysans) : bool := match a with ALen _ => false | _ => true end.

Lemma whole_suffix o o' : o `suffix_of` o' -> Forall whole o' -> Forall whole o.
Proof. intros [pre ->] H. by apply Forall_app in H as [_ ?]. Qed.

Lemma transfer_whole a n : whole a -> transfer a n = n.
Proof. by destruct a. Qed.

Section rules.
Implicit Types (w : os) (E : Z -> os -> Prop) (o : list sysans).

Lemma wp_fail_with {A} e (r : A) (Q : A -> os -> Prop) E w :
  Q r (with_errno e w) -> wp (fail_with e r) Q E w.
Proof. done. Qed.

Lemma transfer_le a n : (transfer a n <= n)%nat.
Proof. destruct a; simpl; [done| |done]. case_decide; lia. Qed.

Lemma transfer_pos a n : (0 < n)%nat -> (0 < transfer a n)%nat.
Proof. destruct a; simpl; [done| |done]. case_decide; lia. Qed.

Lemma transfer_zero a n : transfer a n = 0%nat -> n = 0%nat.
Proof. intros H. destruct n as [|n]; [done|]. pose proof (transfer_pos a (S n)). lia. Qed.

Lemma transfer_full n : transfer AFull n = n.
Proof. done. Qed.

(** Every call takes its answer from the front of the list. *)
Lemma wp_next_ans (Q : sysans -> os -> Prop) E w :
  (forall a o, o `suffix_of` orc w -> (forall e, a = AErr e -> orc w = a :: o) ->
               (Forall whole (orc w) -> whole a) ->
               Q a (with_orc o w)) ->
  wp next_ans Q E w.
Proof.
  intros H. unfold wp, next_ans. destruct w as [f ds t er [|a o]]; simpl in *.
  - by apply (H AFull []).
  - apply (H a o); [by exists [a]|done|]. by intros [? _]%Forall_cons.
Qed.

Lemma lookup_fd_Some (fd : nat) i d w :
  fdt w !! fd = Some i -> ofds w !! i = Some d -> lookup_fd (Z.of_nat fd) w = Some (i, d).
Proof.
  intros H1 H2. unfold lookup_fd. destruct (Z.ltb_spec (Z.of_nat fd) 0); [lia|].
  rewrite Nat2Z.id, H1. simpl. by rewrite H2.
Qed.

Lemma lookup_fd_closed w (fd : nat) : fdt w !! fd = None -> lookup_fd (Z.of_nat fd) w = None.
Proof. intros Hfd. unfold lookup_fd. by rewrite of_nat_ltb_0, Nat2Z.id, Hfd. Qed.

Lemma wp_open path flags (Q : Z -> os -> Prop) E w :
  (forall e o, orc w = AErr e :: o -> Q (-1) (with_errno (Zpos e) (with_orc o w))) ->
  (forall o, o `suffix_of` orc w -> fs w !! path = None -> has_flag flags O_CREAT = false ->
     Q (-1) (with_errno ENOENT (with_orc o w))) ->
  (forall o fd, o `suffix_of` orc w -> fdt w !! fd = None -> fd = lowest_free (fdt w) ->
     Q (Z.of_nat fd) (opened path flags fd (with_orc o w))) ->
  wp (sys_open path flags) Q E w.
Proof.
  intros Herr Hno Hok. unfold sys_open. apply wp_bind, wp_next_ans.
  intros a o Ho Ha Hw.
  assert (wp (w ← get; if decide (fs w !! path = None /\ has_flag flags O_CREAT = false)
     then fail_with ENOENT (-1)
     else put (opened path flags (lowest_free (fdt w)) w) ;; mret (Z.of_nat (lowest_free (fdt w))))
     Q E (with_orc o w)).
  { wp_steps. simpl. case_decide as Hd.
    - apply wp_fail_with. destruct Hd. by apply Hno.
    - wp_steps. apply Hok; [done| |done]. apply lowest_free_fresh. }
  destruct a as [| |e]; [done|done|]. apply wp_fail_with, Herr. by rewrite (Ha e).
Qed.

Lemma wp_close (fd : nat) i d (Q : Z -> os -> Prop) E w :
  fdt w !! fd = Some i -> ofds w !! i = Some d ->
  Q 0 (with_fdt (delete fd (fdt w)) w) -> wp (sys_close (Z.of_nat fd)) Q E w.
Proof.
  intros H1 H2 HQ. unfold sys_close. wp_steps. erewrite lookup_fd_Some; [|done..].
  wp_steps. by rewrite Nat2Z.id.
Qed.

Lemma wp_read (fd i : nat) d buf count (Q : Z * list byte -> os -> Prop) E w :
  fdt w !! fd = Some i -> ofds w !! i = Some d -> of_rd d = true -> (count <= length buf)%nat ->
  (forall e o, orc w = AErr e :: o -> Q (-1, buf) (with_errno (Zpos e) (with_orc o w))) ->
  (forall n o, let avail := drop (of_off d) (default [] (fs w !! of_path d)) in
     o `suffix_of` orc w -> (n <= Nat.min count (length avail))%nat ->
     (n = 0%nat -> count = 0%nat \/ avail = []) ->
     (Forall whole (orc w) -> n = Nat.min count (length avail)) ->
     Q (Z.of_nat n, take n avail ++ drop n buf) (set_off i d (of_off d + n) (with_orc o w))) ->
  wp (sys_read (Z.of_nat fd) buf count) Q E w.
Proof.
  intros H1 H2 Hrd Hlen Herr Hok. unfold sys_read.
  rewrite decide_False by lia. apply wp_bind, wp_next_ans. intros a o Ho Ha Hw.
  destruct a as [|k|e]; [| |by apply wp_fail_with, Herr; rewrite (Ha e)].
  all: wp_steps; rewrite (lookup_fd_Some fd i d (with_orc o w)) by done; rewrite Hrd; wp_steps;
    (apply Hok; [done|apply transfer_le| |intros ?; by apply transfer_whole, Hw]);
    intros Hz; apply transfer_zero in Hz;
    destruct count as [|count]; [by left|right; apply nil_length_inv; cbn [fs with_orc] in Hz; lia].
Qed.

Lemma wp_write (fd i : nat) d data (Q : Z -> os -> Prop) E w :
  fdt w !! fd = Some i -> ofds w !! i = Some d -> of_wr d = true ->
  (forall e o, orc w = AErr e :: o -> Q (-1) (with_errno (Zpos e) (with_orc o w))) ->
  (forall n o, let c := default [] (fs w !! of_path d) in
     o `suffix_of` orc w -> (n <= length data)%nat -> (0 < length data -> 0 < n)%nat ->
     (Forall whole (orc w) -> n = length data) ->
     Q (Z.of_nat n) (set_off i d (of_off d + n)
        (with_fs (<[of_path d := splice c (of_off d) (take n data)]> (fs w)) (with_orc o w)))) ->
  wp (sys_write (Z.of_nat fd) data) Q E w.
Proof.
  intros H1 H2 Hwr Herr Hok. unfold sys_write.
  apply wp_bind, wp_next_ans. intros a o Ho Ha Hw.
  destruct a as [|k|e]; [| |by apply wp_fail_with, Herr; rewrite (Ha e)].
  all: wp_steps; rewrite (lookup_fd_Some fd i d (with_orc o w)) by done; rewrite Hwr;
    wp_steps; apply Hok; [done|apply transfer_le|apply transfer_pos|intros ?; by apply transfer_whole, Hw].
Qed.

Lemma wp_slice {St} buf off n (Q : list byte -> St -> Prop) (X : Z -> St -> Prop) (s : St) :
  (off + n <= length buf)%nat -> Q (take n (drop off buf)) s -> wp (slice buf off n) Q X s.
Proof. intros. unfold slice. by rewrite decide_True. Qed.

(** Closing any descriptor leaves the files alone. *)
Lemma wp_close_any fd (Q : Z -> os -> Prop) E w :
  (forall r w', fs w' = fs w -> orc w' = orc w -> Q r w') -> wp (sys_close fd) Q E w.
Proof.
  intros HQ. unfold sys_close. wp_steps. destruct (lookup_fd fd w); [|by apply wp_fail_with, HQ].
  wp_steps. by apply HQ.
Qed.

(** Closing two fresh descriptors, in either order, restores the table. *)
Lemma delete_two_fresh (m : gmap nat nat) a b x y :
  m !! a = None -> m !! b = None -> delete b (delete a (<[b := y]> (<[a := x]> m))) = m.
Proof.
  intros Ha Hb. apply map_eq. intros j.
  rewrite !lookup_delete, !lookup_insert. repeat case_decide; congruence.
Qed.

(** What is left of a chunk when [j] of its [n] bytes are out. *)
Lemma chunk_rest {A} (buf l : list A) n j :
  take n buf = take n l -> take (n - j) (drop j buf) = take (n - j) (drop j l).
Proof. intros H. by rewrite <-!skipn_firstn_comm, H. Qed.

(** Writing at the end of a file appends. *)
Lemma splice_end c data : splice c (length c) data = c ++ data.
Proof.
  unfold splice. rewrite Nat.sub_diag. simpl. rewrite app_nil_r, firstn_all.
  rewrite drop_ge by lia. by rewrite app_nil_r.
Qed.
End rules.
