(* ===== verification/Signals.v ===== *)
(** * Signals: dispositions shared by the programs that install handlers *)

From S2P Require Import Prelude.

(** A signal disposition; [SIG_DFL] is the null pointer. *)
Inductive sig_handler :=
| SIG_DFL
| H_handle
| H_other (n : nat).

#[export] Instance sig_handler_eq_dec : EqDecision sig_handler.
Proof. solve_decision. Defined.
