(* ===== verification/Table.v ===== *)
(** * Table: fixed arrays of pointers to allocated structs

    Both libraries of src/signal (mytbf.c and anytimer.c) keep their objects in
    an array [T *tab[N]] of pointers into the heap, [NULL] marking a free slot,
    and every object records its own index.  This file models such a table, the
    accesses the libraries make to it, and what they preserve. *)

From S2P Require Import Prelude Prog.

Record table (V : Type) := Table {
  slots : list (option nat);    (* the array of pointers *)
  objs : gmap nat V }.          (* the allocated objects, by address *)
Arguments Table {V}.
Arguments slots {V}.
Arguments objs {V}.

Section table.
Context {V : Type}.

(** ** Accesses *)

(** [tab[id]] *)
Definition slot_at (id : Z) : M (table V) (option nat) :=
  if id <? 0 then fail OutOfBounds else
  t ← get; unwrap OutOfBounds (slots t !! Z.to_nat id).

(** [tab[id] = p] *)
Definition set_slot (id : Z) (p : option nat) : M (table V) unit :=
  _ ← slot_at id;
  modify (fun t => Table (<[Z.to_nat id := p]> (slots t)) (objs t)).

(** [*p] *)
Definition deref (p : option nat) : M (table V) V :=
  l ← unwrap NullDeref p; t ← get; unwrap UseAfterFree (objs t !! l).

(** [*p = v] *)
Definition store (p : option nat) (v : V) : M (table V) unit :=
  l ← unwrap NullDeref p;
  t ← get; _ ← unwrap UseAfterFree (objs t !! l);
  put (Table (slots t) (<[l := v]> (objs t))).

(** [malloc]; [ok] says whether memory is available.  The contents of the new
    object are indeterminate. *)
Definition malloc (ok : bool) (garbage : V) : M (table V) (option nat) :=
  if ok then
    t ← get;
    let l := fresh (dom (objs t)) in
    put (Table (slots t) (<[l := garbage]> (objs t))) ;; mret (Some l)
  else mret None.

(** [free(p)] *)
Definition free (p : option nat) : M (table V) unit :=
  match p with
  | None => mret tt
  | Some l =>
      t ← get; _ ← unwrap UseAfterFree (objs t !! l);
      put (Table (slots t) (delete l (objs t)))
  end.

(** [for (i = 0; i < n; i++) if (tab[i] == NULL) return i; return -1;] *)
Definition first_free (n : nat) : M (table V) Z :=
  t ← get;
  match find_idx (fun p : option nat => bool_decide (p = None)) (take n (slots t)) with
  | Some i => mret (Z.of_nat i)
  | None => mret (-1)
  end.

(** ** Views and well-formed tables *)

(** The object slot [i] refers to. *)
Definition view (t : table V) (i : nat) : option V :=
  p ← slots t !! i; l ← p; objs t !! l.

Definition empty_table (n : nat) : table V := Table (replicate n None) ∅.

Context (n : nat) (pos : V -> Z).

(** Every pointer of the array is valid and its object knows its index, so no
    two slots share an object. *)
Record twf (t : table V) : Prop := {
  twf_len : length (slots t) = n;
  twf_live : forall i l, slots t !! i = Some (Some l) ->
               exists v, objs t !! l = Some v /\ pos v = Z.of_nat i }.

Implicit Types t : table V.

Lemma twf_empty : twf (empty_table n).
Proof.
  split; [apply length_replicate|]. intros i l H. by apply lookup_replicate in H as [? _].
Qed.

Lemma view_empty i : view (empty_table n) i = None.
Proof.
  unfold view, empty_table. cbn [slots objs].
  destruct (replicate n (@None nat) !! i) as [p|] eqn:E; [|done].
  by apply lookup_replicate in E as [-> _].
Qed.

Lemma view_Some t i v : view t i = Some v ->
  exists l, slots t !! i = Some (Some l) /\ objs t !! l = Some v.
Proof. unfold view. intros ([l|] & ? & (l' & ? & ?)%bind_Some)%bind_Some; simplify_eq. by eauto. Qed.

Lemma view_at t i l v : slots t !! i = Some (Some l) -> objs t !! l = Some v -> view t i = Some v.
Proof. intros H1 H2. unfold view. rewrite H1. simpl. by rewrite H2. Qed.

Lemma view_free t i : slots t !! i = Some None -> view t i = None.
Proof. intros H. unfold view. by rewrite H. Qed.

Lemma view_pos t i v : twf t -> view t i = Some v -> pos v = Z.of_nat i.
Proof.
  intros Hwf (l & Hj & Hh)%view_Some. destruct (twf_live t Hwf i l Hj) as (v' & ? & ?). congruence.
Qed.

Lemma view_bound t i v : twf t -> view t i = Some v -> (i < n)%nat.
Proof. intros Hwf (l & Hj & _)%view_Some. rewrite <-(twf_len t Hwf). by eapply lookup_lt_Some. Qed.

(** Two slots never point to the same object. *)
Lemma twf_inj t i j l :
  twf t -> slots t !! i = Some (Some l) -> slots t !! j = Some (Some l) -> i = j.
Proof.
  intros Hwf Hi Hj.
  destruct (twf_live t Hwf i l Hi) as (v1 & ? & ?), (twf_live t Hwf j l Hj) as (v2 & ? & ?).
  simplify_eq. lia.
Qed.

(** Writing through slot [i] changes what slot [i] sees, and only that. *)
Lemma twf_store t i l v' :
  twf t -> slots t !! i = Some (Some l) -> pos v' = Z.of_nat i ->
  let t' := Table (slots t) (<[l := v']> (objs t)) in
  twf t' /\ forall j, view t' j = if decide (j = i) then Some v' else view t j.
Proof.
  intros Hwf Hi Hp t'. split.
  - split; [apply Hwf|]. cbn [t' slots objs]. intros j l' Hj.
    destruct (decide (l' = l)) as [->|Hne].
    + rewrite lookup_insert_eq. exists v'. split; [done|]. by rewrite <-(twf_inj t i j l).
    + rewrite lookup_insert_ne by done. by apply Hwf.
  - intros j. unfold view, t'. cbn [slots objs]. case_decide as Hji.
    + subst j. rewrite Hi. simpl. by rewrite lookup_insert_eq.
    + destruct (slots t !! j) as [[l'|]|] eqn:Ej; simpl; try done.
      rewrite lookup_insert_ne; [done|]. intros <-. by apply Hji, (twf_inj t j i l).
Qed.

(** Putting an object no slot refers to into slot [i]. *)
Lemma twf_add t i l v :
  twf t -> (i < n)%nat -> (forall j, slots t !! j <> Some (Some l)) -> pos v = Z.of_nat i ->
  let t' := Table (<[i := Some l]> (slots t)) (<[l := v]> (objs t)) in
  twf t' /\ forall j, view t' j = if decide (j = i) then Some v else view t j.
Proof.
  intros Hwf Hi Hl Hp t'.
  assert (Hs : forall j, slots t' !! j = if decide (j = i) then Some (Some l) else slots t !! j).
  { intros j. cbn [t' slots]. case_decide; subst.
    - apply list_lookup_insert_eq. by rewrite twf_len.
    - by apply list_lookup_insert_ne. }
  split.
  - split; [cbn [t' slots]; rewrite length_insert; apply Hwf|].
    intros j l' Hj. rewrite Hs in Hj. case_decide; simplify_eq.
    + exists v. split; [apply lookup_insert_eq|done].
    + cbn [t' objs]. rewrite lookup_insert_ne by (intros ->; by eapply Hl). by apply Hwf.
  - intros j. unfold view. rewrite Hs. case_decide; cbn [mbind option_bind t' objs].
    + by rewrite lookup_insert_eq.
    + destruct (slots t !! j) as [[l'|]|] eqn:Ej; simpl; try done.
      rewrite lookup_insert_ne; [done|]. intros ->. by eapply Hl.
Qed.

(** Clearing slot [i] and freeing its object. *)
Lemma twf_remove t i l :
  twf t -> slots t !! i = Some (Some l) ->
  let t' := Table (<[i := None]> (slots t)) (delete l (objs t)) in
  twf t' /\ forall j, view t' j = if decide (j = i) then None else view t j.
Proof.
  intros Hwf Hi t'.
  assert (Hs : forall j, slots t' !! j = if decide (j = i) then Some None else slots t !! j).
  { intros j. cbn [t' slots]. case_decide; subst.
    - apply list_lookup_insert_eq. by eapply lookup_lt_Some.
    - by apply list_lookup_insert_ne. }
  split.
  - split; [cbn [t' slots]; rewrite length_insert; apply Hwf|].
    intros j l' Hj. rewrite Hs in Hj. case_decide as Hji; simplify_eq.
    cbn [t' objs]. rewrite lookup_delete_ne; [by apply Hwf|].
    intros <-. by apply Hji, (twf_inj t j i l).
  - intros j. unfold view. rewrite Hs. case_decide as Hji; cbn [mbind option_bind t' objs]; [done|].
    destruct (slots t !! j) as [[l'|]|] eqn:Ej; simpl; try done.
    rewrite lookup_delete_ne; [done|]. intros <-. by apply Hji, (twf_inj t j i l).
Qed.

(** ** Rules *)

Implicit Types (E : Z -> table V -> Prop).

Lemma wp_slot_at i (Q : option nat -> table V -> Prop) E t :
  twf t -> (i < n)%nat ->
  (forall p, slots t !! i = Some p -> Q p t) -> wp (slot_at (Z.of_nat i)) Q E t.
Proof.
  intros Hwf Hi HQ. unfold slot_at. destruct (Z.ltb_spec (Z.of_nat i) 0); [lia|].
  wp_steps. rewrite Nat2Z.id.
  destruct (lookup_lt_is_Some_2 (slots t) i) as [p Hp]; [by rewrite twf_len|].
  eapply wp_unwrap; [done|]. by apply HQ.
Qed.

Lemma wp_set_slot i p q (Q : unit -> table V -> Prop) E t :
  slots t !! i = Some q -> Q tt (Table (<[i := p]> (slots t)) (objs t)) ->
  wp (set_slot (Z.of_nat i) p) Q E t.
Proof.
  intros Hi HQ. unfold set_slot, slot_at. destruct (Z.ltb_spec (Z.of_nat i) 0); [lia|].
  wp_steps. rewrite Nat2Z.id. eapply wp_unwrap; [done|]. by wp_steps.
Qed.

Lemma wp_deref l v (Q : V -> table V -> Prop) E t :
  objs t !! l = Some v -> Q v t -> wp (deref (Some l)) Q E t.
Proof.
  intros. unfold deref. apply wp_bind. eapply wp_unwrap; [done|]. wp_steps. by eapply wp_unwrap.
Qed.

Lemma wp_store l v v' (Q : unit -> table V -> Prop) E t :
  objs t !! l = Some v -> Q tt (Table (slots t) (<[l := v']> (objs t))) ->
  wp (store (Some l) v') Q E t.
Proof.
  intros. unfold store. apply wp_bind. eapply wp_unwrap; [done|]. wp_steps.
  eapply wp_unwrap; [done|]. by wp_steps.
Qed.

Lemma wp_free l v (Q : unit -> table V -> Prop) E t :
  objs t !! l = Some v -> Q tt (Table (slots t) (delete l (objs t))) -> wp (free (Some l)) Q E t.
Proof. intros. unfold free. wp_steps. eapply wp_unwrap; [done|]. by wp_steps. Qed.

(** A successful allocation is at an address no slot refers to. *)
Lemma wp_malloc garbage (Q : option nat -> table V -> Prop) E t :
  twf t ->
  (forall l t', t' = Table (slots t) (<[l := garbage]> (objs t)) -> twf t' ->
     (forall j, view t' j = view t j) -> (forall j, slots t' !! j <> Some (Some l)) ->
     Q (Some l) t') ->
  wp (malloc true garbage) Q E t.
Proof.
  intros Hwf HQ. unfold malloc. wp_steps.
  set (l := fresh (dom (objs t))).
  assert (Hl : objs t !! l = None) by (apply not_elem_of_dom, is_fresh).
  assert (Hold : forall i l', slots t !! i = Some (Some l') -> l' <> l).
  { intros i l' Hi ->. destruct (twf_live t Hwf i l Hi) as (? & ? & ?). congruence. }
  apply HQ; [done| | |].
  - split; [apply Hwf|]. cbn [slots objs]. intros i l' Hi.
    rewrite lookup_insert_ne by (symmetry; by eapply Hold). by apply Hwf.
  - intros j. unfold view. cbn [slots objs].
    destruct (slots t !! j) as [[l'|]|] eqn:Ej; simpl; try done.
    by rewrite lookup_insert_ne by (symmetry; by eapply Hold).
  - cbn [slots]. intros j Hj. by apply (Hold j l).
Qed.

(** The scan for a free slot, in terms of any map the table represents. *)
Lemma wp_first_free {B} (m : gmap nat B) (f : V -> B) (Q : Z -> table V -> Prop) E t :
  twf t -> (forall i, m !! i = f <$> view t i) ->
  Q (match find_idx (fun i => bool_decide (m !! i = None)) (seq 0 n) with
     | Some i => Z.of_nat i | None => -1 end) t ->
  wp (first_free n) Q E t.
Proof.
  intros Hwf Ha HQ. unfold first_free. wp_steps.
  rewrite firstn_all2 by (rewrite twf_len; done).
  replace (find_idx _ (slots t)) with
    (find_idx (fun i => bool_decide (m !! i = None)) (seq 0 n)); [by case_match; wp_steps|].
  symmetry. apply find_idx_ext; [by rewrite length_seq, twf_len|].
  intros i p k Hp Hk. apply lookup_seq in Hk as [-> _].
  apply bool_decide_ext. rewrite Nat.add_0_l, (Ha i), fmap_None. unfold view. rewrite Hp. simpl.
  destruct p as [l|]; simpl; [|done].
  destruct (twf_live t Hwf i l Hp) as (v & -> & _). done.
Qed.

(** The slot a view comes from. *)
Lemma twf_view t i v : twf t -> view t i = Some v ->
  exists l, slots t !! i = Some (Some l) /\ objs t !! l = Some v /\ pos v = Z.of_nat i /\ (i < n)%nat.
Proof.
  intros Hwf Hv. destruct (view_Some t i v Hv) as (l & Hs & Ho). exists l.
  split_and!; [done|done|by eapply view_pos|by eapply view_bound].
Qed.

Lemma twf_slot t i l : twf t -> slots t !! i = Some (Some l) ->
  exists v, objs t !! l = Some v /\ view t i = Some v /\ pos v = Z.of_nat i.
Proof.
  intros Hwf Hs. destruct (twf_live t Hwf i l Hs) as (v & Ho & Hp). exists v.
  split_and!; [done|by eapply view_at|done].
Qed.
End table.
