(* ===== verification/Cstd.v ===== *)
(** * Cstd: functions of the C library the programs call on strings and numbers

    C strings are lists of bytes without their terminating zero. *)

From S2P Require Import Prelude.

(** ** Numbers in decimal *)

Definition digit (d : Z) : byte := byte_of_Z (48 + d).

Definition digit_val (c : byte) : option Z :=
  let v := uchar c - 48 in if (0 <=? v) && (v <=? 9) then Some v else None.

Lemma digit_val_digit d : 0 <= d <= 9 -> digit_val (digit d) = Some d.
Proof.
  intros Hd. unfold digit_val, digit. rewrite uchar_byte_of_Z, Z.mod_small by lia.
  replace (48 + d - 48) with d by lia. bool_cases; try lia; done.
Qed.

(** The decimal digits of a number that is not negative; [fuel] bounds their
    count. *)
Fixpoint digits (fuel : nat) (n : Z) (acc : list byte) : list byte :=
  match fuel with
  | O => acc
  | S f => if n <? 10 then digit n :: acc else digits f (n / 10) (digit (n mod 10) :: acc)
  end.

(** What [printf("%d", z)] prints for an [int]: at most ten digits. *)
Definition dec (z : Z) : list byte :=
  if z <? 0 then x2d :: digits 10 (- z) [] else digits 10 z [].

(** The value of the longest prefix of digits. *)
Fixpoint num (acc : Z) (s : list byte) : Z :=
  match s with
  | [] => acc
  | c :: s' => match digit_val c with Some d => num (acc * 10 + d) s' | None => acc end
  end.

Definition is_space (c : byte) : bool := (uchar c =? 32) || ((9 <=? uchar c) && (uchar c <=? 13)).

Fixpoint skip_space (s : list byte) : list byte :=
  match s with
  | c :: s' => if is_space c then skip_space s' else s
  | [] => []
  end.

(** [atoi] (for values that fit into an [int]). *)
Definition atoi (s : list byte) : Z :=
  match skip_space s with
  | x2d :: s' => - num 0 s'
  | x2b :: s' => num 0 s'
  | s' => num 0 s'
  end.

(** The string ends where the digits do. *)
Definition stops (s : list byte) : Prop := match s with [] => True | c :: _ => digit_val c = None end.

Lemma num_stops acc s : stops s -> num acc s = acc.
Proof. destruct s as [|c s]; simpl; [done|]. by intros ->. Qed.

Lemma num_digits fuel n acc a s :
  0 <= n < 10 ^ Z.of_nat fuel -> (0 < fuel)%nat ->
  exists k, num a (digits fuel n acc ++ s) = num (a * 10 ^ k + n) (acc ++ s) /\ 0 <= k.
Proof.
  revert n acc a. induction fuel as [|f IH]; intros n acc a Hn Hf; [lia|]. cbn [digits].
  destruct (Z.ltb_spec n 10).
  - exists 1. cbn [app num]. rewrite digit_val_digit by lia. by rewrite Z.pow_1_r.
  - assert (0 < f)%nat by (destruct f; [simpl in Hn; lia|lia]).
    assert (Hlt : 10 <= n < 10 * 10 ^ Z.of_nat f) by (rewrite Nat2Z.inj_succ, Z.pow_succ_r in Hn; lia).
    destruct (IH (n / 10) (digit (n mod 10) :: acc) a) as (k & Hk & ?); [|done|].
    { split; [apply Z.div_pos; lia|apply Z.div_lt_upper_bound; lia]. }
    exists (k + 1). rewrite Hk. cbn [app num]. rewrite digit_val_digit by (pose proof (Z.mod_pos_bound n 10); lia).
    split; [|lia]. f_equal. rewrite Z.pow_add_r, Z.pow_1_r by lia. pose proof (Z.div_mod n 10). lia.
Qed.

Lemma digits_head fuel n acc :
  0 <= n -> (0 < fuel)%nat -> exists d s, digits fuel n acc = digit d :: s /\ 0 <= d <= 9.
Proof.
  revert n acc. induction fuel as [|f IH]; intros n acc Hn Hf; [lia|]. cbn [digits].
  destruct (Z.ltb_spec n 10); [exists n, acc; split; [done|lia]|].
  destruct f as [|f]; [|apply IH; [apply Z.div_pos; lia|lia]].
  cbn [digits]. exists (n mod 10), acc. pose proof (Z.mod_pos_bound n 10). split; [done|lia].
Qed.

Lemma digit_uchar d : 0 <= d <= 9 -> uchar (digit d) = 48 + d.
Proof. intros. unfold digit. rewrite uchar_byte_of_Z. apply Z.mod_small. lia. Qed.

(** Reading a number back from its decimal form, whatever follows it. *)
Lemma atoi_dec n s : 0 <= n <= INT_MAX -> stops s -> atoi (dec n ++ s) = n.
Proof.
  intros Hn Hs. unfold dec. destruct (Z.ltb_spec n 0); [lia|].
  destruct (digits_head 10 n []) as (d & r & Hd & Hr); [lia|lia|].
  assert (Hatoi : atoi (digits 10 n [] ++ s) = num 0 (digits 10 n [] ++ s)).
  { rewrite Hd. unfold atoi. cbn [app skip_space]. unfold is_space. rewrite digit_uchar by done.
    destruct (Z.eqb_spec (48 + d) 32); [lia|]. destruct (Z.leb_spec 9 (48 + d)), (Z.leb_spec (48 + d) 13); try lia.
    cbn [orb andb]. pose proof (digit_uchar d Hr) as Hu.
    assert (digit d <> x2d) by (intros E; rewrite E in Hu; change (uchar x2d) with 45 in Hu; lia).
    assert (digit d <> x2b) by (intros E; rewrite E in Hu; change (uchar x2b) with 43 in Hu; lia).
    by destruct (digit d). }
  rewrite Hatoi. destruct (num_digits 10 n [] 0 s) as (k & Hk & _); [unfold INT_MAX in *; simpl; lia|lia|].
  rewrite Hk. simpl. by apply num_stops.
Qed.

Lemma digits_length fuel n acc : (length (digits fuel n acc) <= length acc + fuel)%nat.
Proof.
  revert n acc. induction fuel as [|f IH]; intros n acc; cbn [digits]; [lia|].
  destruct (n <? 10); [simpl; lia|]. specialize (IH (n / 10) (digit (n mod 10) :: acc)). simpl in IH. lia.
Qed.

Lemma digits_grow fuel n acc : (0 < fuel)%nat -> (length acc < length (digits fuel n acc))%nat.
Proof.
  revert n acc. induction fuel as [|f IH]; intros n acc Hf; cbn [digits]; [lia|].
  destruct (n <? 10); [simpl; lia|]. destruct f as [|f]; [simpl; lia|].
  specialize (IH (n / 10) (digit (n mod 10) :: acc) ltac:(lia)). simpl in *. lia.
Qed.

(** A larger number is not shorter. *)
Lemma digits_mono fuel m n acc acc' : 0 <= m <= n -> length acc = length acc' ->
  (length (digits fuel m acc) <= length (digits fuel n acc'))%nat.
Proof.
  revert m n acc acc'. induction fuel as [|f IH]; intros m n acc acc' Hmn Hl; cbn [digits]; [lia|].
  destruct (Z.ltb_spec n 10), (Z.ltb_spec m 10); try lia; [simpl; lia| |].
  - destruct f as [|f]; [simpl; lia|]. pose proof (digits_grow (S f) (n / 10) (digit (n mod 10) :: acc') ltac:(lia)).
    simpl in *. lia.
  - apply IH; [|simpl; lia]. split; [apply Z.div_pos; lia|apply Z.div_le_mono; lia].
Qed.

Lemma dec_mono m n : 0 <= m <= n -> (length (dec m) <= length (dec n))%nat.
Proof. intros Hmn. unfold dec. bool_cases; try lia. by apply digits_mono. Qed.

Lemma dec_length n : 0 <= n -> (length (dec n) <= 10)%nat.
Proof. intros Hn. unfold dec. bool_cases; try lia. apply (digits_length 10 n []). Qed.

(** A string without digits is read as zero. *)
Lemma atoi_no_digits s : Forall (fun c => digit_val c = None) s -> atoi s = 0.
Proof.
  intros Hs. assert (Hnum : forall l, Forall (fun c => digit_val c = None) l -> num 0 l = 0).
  { intros l Hl. apply num_stops. destruct l; [done|]. by apply Forall_cons in Hl as [? _]. }
  assert (Hsk : Forall (fun c => digit_val c = None) (skip_space s)).
  { clear Hnum. induction s as [|c s IH]; simpl; [done|]. apply Forall_cons in Hs as [Hc Hs].
    destruct (is_space c); [by apply IH|by constructor]. }
  unfold atoi. destruct (skip_space s) as [|c r]; [done|]. apply Forall_cons in Hsk as [Hc Hr].
  pose proof (Hnum (c :: r) ltac:(by constructor)) as Hall. pose proof (Hnum r Hr) as Hrest.
  destruct c; try done; by rewrite Hrest.
Qed.

(** ** Network byte order *)

(** Four bytes, most significant first; and back. *)
Definition be32 (z : Z) : list byte :=
  map (fun i => byte_of_Z (Z.shiftr z (8 * i))) [3; 2; 1; 0].

Definition of_be32 (l : list byte) : Z := foldl (fun a c => a * 256 + uchar c) 0 l.

Lemma of_be32_be32 z : of_be32 (be32 z) = wrap_u32 z.
Proof.
  unfold of_be32, be32, wrap_u32. cbn [map foldl]. rewrite !uchar_byte_of_Z, !Z.shiftr_div_pow2 by lia.
  change (2 ^ (8 * 3)) with 16777216. change (2 ^ (8 * 2)) with 65536. change (2 ^ (8 * 1)) with 256.
  change (2 ^ (8 * 0)) with 1. change (2 ^ 32) with 4294967296. Z.div_mod_to_equations. lia.
Qed.

(** The port number a 16-bit field holds. *)
Definition wrap_u16 (z : Z) : Z := z mod 2 ^ 16.

(** ** Options *)

(** Whether [c] is an option of [getopt]'s string, and takes an argument. *)
Fixpoint opt_kind (optstring : list byte) (c : byte) : option bool :=
  match optstring with
  | [] => None
  | x :: os =>
      if bool_decide (x = c) && negb (bool_decide (c = x3a))
      then Some (match os with x3a :: _ => true | _ => false end)
      else opt_kind os c
  end.

(** The options of one argument, and whether the next argument was used up. *)
Fixpoint opt_letters (optstring l : list byte) (rest : list (list byte)) : list (byte * list byte) * bool :=
  match l with
  | [] => ([], false)
  | c :: l' =>
      match opt_kind optstring c with
      | Some true =>
          match l' with
          | [] => match rest with a :: _ => ([(c, a)], true) | [] => ([(x3f, [])], false) end
          | _ => ([(c, l')], false)
          end
      | Some false => let '(r, used) := opt_letters optstring l' rest in ((c, []) :: r, used)
      | None => let '(r, used) := opt_letters optstring l' rest in ((x3f, []) :: r, used)
      end
  end.

(** What [getopt] returns until it returns -1: the options in order with their
    arguments, unknown ones as '?'.  Arguments that are no options are passed
    over; "--" ends the options; an option that lacks its argument is '?'. *)
Fixpoint getopt_from (optstring : list byte) (fuel : nat) (args : list (list byte)) : list (byte * list byte) :=
  match fuel, args with
  | S f, a :: args' =>
      match a with
      | [x2d; x2d] => []
      | x2d :: c :: l =>
          let '(r, used) := opt_letters optstring (c :: l) args' in
          r ++ getopt_from optstring f (if used then tail args' else args')
      | _ => getopt_from optstring f args'
      end
  | _, _ => []
  end.

Definition getopt (optstring : list byte) (argv : list (list byte)) : list (byte * list byte) :=
  getopt_from optstring (length argv) (tail argv).
