(* ===== verification/Stdio.v ===== *)
(** * Stdio: the [FILE] streams of the C library

    A stream is a path of [Posix] and a position.  That output is buffered does
    not show in the programs modelled here, which close their streams; a call
    that fails transfers nothing.  Which calls fail is decided by the answers of
    the system, as for the calls of [Posix]. *)

From S2P Require Import Prelude Prog Posix.

Definition EOF : Z := -1.

Record stream := Stream { s_path : string; s_pos : nat }.

(** [fopen(path, "r")] and [fopen(path, "w")]; [None] is [NULL]. *)
Definition fopen_r (path : string) : M os (option stream) :=
  a ← next_ans;
  match a with
  | AErr e => fail_with (Zpos e) None
  | _ => w ← get;
         match fs w !! path with
         | Some _ => mret (Some (Stream path 0))
         | None => fail_with ENOENT None
         end
  end.

Definition fopen_w (path : string) : M os (option stream) :=
  a ← next_ans;
  match a with
  | AErr e => fail_with (Zpos e) None
  | _ => modify (fun w => with_fs (<[path := []]> (fs w)) w) ;; mret (Some (Stream path 0))
  end.

Definition content (path : string) (w : os) : list byte := default [] (fs w !! path).

(** [getc_at data pos]: the next byte of a stream over [data] as an [unsigned
    char] with the new position, or [EOF] at the end or when reading fails. *)
Definition getc_at (data : list byte) (pos : nat) : M os (Z * nat) :=
  a ← next_ans;
  match a with
  | AErr e => fail_with (Zpos e) (EOF, pos)
  | _ => match data !! pos with
         | Some b => mret (uchar b, S pos)
         | None => mret (EOF, pos)
         end
  end.

Definition fgetc (f : stream) : M os (Z * stream) :=
  w ← get;
  '(r, pos) ← getc_at (content (s_path f) w) (s_pos f);
  mret (r, Stream (s_path f) pos).

(** [fwrite(data, 1, length data, f)]: the number of bytes written. *)
Definition fwrite (f : stream) (data : list byte) : M os (nat * stream) :=
  a ← next_ans;
  match a with
  | AErr e => fail_with (Zpos e) (0%nat, f)
  | _ =>
      modify (fun w => with_fs (<[s_path f := splice (content (s_path f) w) (s_pos f) data]> (fs w)) w) ;;
      mret (length data, Stream (s_path f) (s_pos f + length data))
  end.

(** [fputc(c, f)]: the byte, or [EOF]. *)
Definition fputc (c : Z) (f : stream) : M os (Z * stream) :=
  '(n, f) ← fwrite f [byte_of_Z c];
  mret (if decide (n = 0%nat) then EOF else uchar (byte_of_Z c), f).

(** [fread(buf, 1, n, f)]: what was read, at most [n] bytes. *)
Definition fread (f : stream) (n : nat) : M os (list byte * stream) :=
  a ← next_ans;
  match a with
  | AErr e => fail_with (Zpos e) ([], f)
  | _ =>
      w ← get;
      let data := take n (drop (s_pos f) (content (s_path f) w)) in
      mret (data, Stream (s_path f) (s_pos f + length data))
  end.

(** [char c = z;] *)
Definition to_char (z : Z) : Z := schar (byte_of_Z z).

(** A byte read into a [char] looks like [EOF] exactly when it is 0xff. *)
Lemma to_char_eof b : to_char (uchar b) = EOF <-> b = xff.
Proof.
  unfold to_char. rewrite byte_of_Z_uchar. split; [|by intros ->].
  unfold schar, EOF. pose proof (uchar_range b). intros E.
  apply uchar_inj. change (uchar xff) with 255. destruct (Z.ltb_spec (uchar b) 128); lia.
Qed.

Lemma byte_of_schar b : byte_of_Z (to_char (uchar b)) = b.
Proof.
  unfold to_char. rewrite byte_of_Z_uchar. apply uchar_inj.
  by rewrite uchar_byte_of_Z, schar_uchar.
Qed.

(** The bytes before the first 0xff. *)
Fixpoint upto_ff (l : list byte) : list byte :=
  match l with
  | [] => []
  | b :: l' => if decide (b = xff) then [] else b :: upto_ff l'
  end.

Lemma upto_ff_id l : xff ∉ l -> upto_ff l = l.
Proof.
  induction l as [|b l IH]; simpl; [done|]. intros [? ?]%not_elem_of_cons.
  rewrite decide_False by congruence. by rewrite IH.
Qed.

Lemma upto_ff_id_iff l : upto_ff l = l <-> xff ∉ l.
Proof.
  split; [|apply upto_ff_id]. induction l as [|b l IH]; simpl; [intros _; apply not_elem_of_nil|].
  case_decide; [done|]. intros [= Heq]. apply not_elem_of_cons. auto.
Qed.

Lemma upto_ff_at l k : upto_ff l = l -> upto_ff (l ++ xff :: k) = l.
Proof.
  induction l as [|b l IH]; cbn [upto_ff app]; [by rewrite decide_True|].
  case_decide; intros; simplify_eq. f_equal. by apply IH.
Qed.

Lemma upto_ff_snoc l b : b <> xff -> upto_ff l = l -> upto_ff (l ++ [b]) = l ++ [b].
Proof.
  intros Hb. induction l as [|x l IH]; cbn [upto_ff app]; [by rewrite decide_False|].
  case_decide; intros; simplify_eq. f_equal. by apply IH.
Qed.

(** ** Rules *)

(** No call of the list fails. *)
Definition no_err (o : list sysans) : Prop := Forall (fun a => forall e, a <> AErr e) o.

Lemma no_err_suffix o o' : o `suffix_of` o' -> no_err o' -> no_err o.
Proof. intros [pre ->] H. by apply Forall_app in H as [_ ?]. Qed.

Lemma no_err_head e o o' : AErr e :: o `suffix_of` o' -> no_err o' -> False.
Proof. intros Hs Ho. apply (no_err_suffix _ _ Hs) in Ho. inversion Ho as [|? ? H]. by eapply H. Qed.

Section rules.
Implicit Types (w : os) (E : Z -> os -> Prop).

Lemma wp_fopen_r path (Q : option stream -> os -> Prop) E w :
  (forall e o, orc w = AErr e :: o -> Q None (with_errno (Zpos e) (with_orc o w))) ->
  (forall o, o `suffix_of` orc w -> fs w !! path = None -> Q None (with_errno ENOENT (with_orc o w))) ->
  (forall o, o `suffix_of` orc w -> is_Some (fs w !! path) -> Q (Some (Stream path 0)) (with_orc o w)) ->
  wp (fopen_r path) Q E w.
Proof.
  intros He Hn Ho. unfold fopen_r. apply wp_bind, wp_next_ans. intros a o Hs Ha _.
  destruct a as [|k|e]; [| |apply wp_fail_with, He; by rewrite (Ha e)]; wp_steps; cbn [fs with_orc];
    destruct (fs w !! path) eqn:Ef; wp_steps; try (by apply wp_fail_with, Hn); by apply Ho.
Qed.

Lemma wp_fopen_w path (Q : option stream -> os -> Prop) E w :
  (forall e o, orc w = AErr e :: o -> Q None (with_errno (Zpos e) (with_orc o w))) ->
  (forall o, o `suffix_of` orc w ->
     Q (Some (Stream path 0)) (with_fs (<[path := []]> (fs w)) (with_orc o w))) ->
  wp (fopen_w path) Q E w.
Proof.
  intros He Ho. unfold fopen_w. apply wp_bind, wp_next_ans. intros a o Hs Ha _.
  destruct a as [|k|e]; [| |apply wp_fail_with, He; by rewrite (Ha e)]; wp_steps; by apply Ho.
Qed.

Lemma wp_getc_at data pos (Q : Z * nat -> os -> Prop) E w :
  (forall e o, orc w = AErr e :: o -> Q (EOF, pos) (with_errno (Zpos e) (with_orc o w))) ->
  (forall o b, o `suffix_of` orc w -> data !! pos = Some b -> Q (uchar b, S pos) (with_orc o w)) ->
  (forall o, o `suffix_of` orc w -> (length data <= pos)%nat -> Q (EOF, pos) (with_orc o w)) ->
  wp (getc_at data pos) Q E w.
Proof.
  intros He Hb Hn. unfold getc_at. apply wp_bind, wp_next_ans. intros a o Hs Ha _.
  destruct a as [|k|e]; [| |apply wp_fail_with, He; by rewrite (Ha e)];
    (destruct (data !! pos) as [b|] eqn:Eb; wp_steps; [by apply Hb|apply Hn; [done|by apply lookup_ge_None]]).
Qed.

Lemma wp_fgetc f c (Q : Z * stream -> os -> Prop) E w :
  fs w !! s_path f = Some c ->
  (forall e o, orc w = AErr e :: o -> Q (EOF, f) (with_errno (Zpos e) (with_orc o w))) ->
  (forall o b, o `suffix_of` orc w -> c !! s_pos f = Some b ->
     Q (uchar b, Stream (s_path f) (S (s_pos f))) (with_orc o w)) ->
  (forall o, o `suffix_of` orc w -> (length c <= s_pos f)%nat -> Q (EOF, f) (with_orc o w)) ->
  wp (fgetc f) Q E w.
Proof.
  intros Hc He Hb Hn. destruct f as [p k]. unfold fgetc, content. wp_steps. cbn [s_path s_pos] in *.
  rewrite Hc. cbn [default from_option id]. apply wp_getc_at; intros; wp_steps; eauto.
Qed.

Lemma wp_fread f c n (Q : list byte * stream -> os -> Prop) E w :
  fs w !! s_path f = Some c ->
  (forall e o, orc w = AErr e :: o -> Q ([], f) (with_errno (Zpos e) (with_orc o w))) ->
  (forall o, o `suffix_of` orc w -> let data := take n (drop (s_pos f) c) in
     Q (data, Stream (s_path f) (s_pos f + length data)) (with_orc o w)) ->
  wp (fread f n) Q E w.
Proof.
  intros Hc He Hb. unfold fread, content. apply wp_bind, wp_next_ans. intros a o Hs Ha _.
  destruct a as [|k|e]; [| |apply wp_fail_with, He; by rewrite (Ha e)]; wp_steps; cbn [fs with_orc];
    rewrite Hc; by apply Hb.
Qed.

(** Writing at the end of a file appends, unless it fails. *)
Lemma wp_fwrite path l data (Q : nat * stream -> os -> Prop) E w :
  fs w !! path = Some l ->
  (forall e o, orc w = AErr e :: o ->
     Q (0%nat, Stream path (length l)) (with_errno (Zpos e) (with_orc o w))) ->
  (forall o, o `suffix_of` orc w ->
     Q (length data, Stream path (length (l ++ data)))
       (with_fs (<[path := l ++ data]> (fs w)) (with_orc o w))) ->
  wp (fwrite (Stream path (length l)) data) Q E w.
Proof.
  intros Hl He Ho. unfold fwrite, content. apply wp_bind, wp_next_ans. intros a o Hs Ha _.
  destruct a as [|k|e]; [| |apply wp_fail_with, He; by rewrite (Ha e)]; wp_steps; cbn [s_path s_pos fs with_orc];
    rewrite Hl; cbn [default from_option id]; rewrite splice_end, <-length_app; by apply Ho.
Qed.

Lemma wp_fputc path l b (Q : Z * stream -> os -> Prop) E w :
  fs w !! path = Some l ->
  (forall e o, orc w = AErr e :: o ->
     Q (EOF, Stream path (length l)) (with_errno (Zpos e) (with_orc o w))) ->
  (forall o, o `suffix_of` orc w ->
     Q (uchar b, Stream path (length (l ++ [b]))) (with_fs (<[path := l ++ [b]]> (fs w)) (with_orc o w))) ->
  wp (fputc (to_char (uchar b)) (Stream path (length l))) Q E w.
Proof.
  intros Hl He Ho. unfold fputc. rewrite byte_of_schar. apply wp_bind, wp_fwrite with (l := l); [done|..];
    intros; wp_steps; eauto.
Qed.
End rules.
