(* ===== verification/StdioTools.v ===== *)
(** * StdioTools: the programs on [FILE] streams

    src/stdio/mycpy.c and mycpy1.c (two copiers), src/fileio/trunc_ln_10.c
    (delete the tenth line), src/stdio/char_count.c and flen.c (two ways of
    measuring a file), src/stdio/print_file.c and src/stdio/line_char_count.c.
    What is printed is a list in the state, next to the system; error messages
    are not modelled. *)

From S2P Require Import Prelude Prog Posix Stdio.

(** ** Lines *)

Definition LF : byte := x0a.

(** The lines of a text, each with the newline that ends it, if any. *)
Fixpoint lines (l : list byte) : list (list byte) :=
  match l with
  | [] => []
  | b :: l' =>
      if decide (b = LF) then [b] :: lines l'
      else match lines l' with [] => [[b]] | x :: xs => (b :: x) :: xs end
  end.

Lemma concat_lines l : concat (lines l) = l.
Proof.
  induction l as [|b l IH]; simpl; [done|]. case_decide; simpl; [by rewrite IH|].
  destruct (lines l); simpl in *; congruence.
Qed.

(** The first line of a text, at most [n] bytes of it. *)
Fixpoint take_line (n : nat) (l : list byte) : list byte :=
  match n, l with
  | S n', b :: l' => if decide (b = LF) then [b] else b :: take_line n' l'
  | _, _ => []
  end.

Lemma take_line_prefix n l : take (length (take_line n l)) l = take_line n l.
Proof.
  revert l. induction n as [|n IH]; intros [|b l]; simpl; try done.
  case_decide; simpl; [done|]. by rewrite IH.
Qed.

Lemma take_line_split n l : take_line n l ++ drop (length (take_line n l)) l = l.
Proof. rewrite <-(take_line_prefix n l) at 1. apply take_drop. Qed.

Lemma take_line_nil n l : (0 < n)%nat -> take_line n l = [] -> l = [].
Proof. destruct n, l as [|b l]; simpl; try done; [lia|]. by case_decide. Qed.

Lemma take_line_length n l : (length (take_line n l) <= n)%nat.
Proof.
  revert l. induction n as [|n IH]; intros [|b l]; simpl; try lia.
  case_decide; simpl; [lia|]. specialize (IH l). lia.
Qed.

(** A newline can only come last. *)
Lemma take_line_inner n l : LF ∉ take (length (take_line n l) - 1) (take_line n l).
Proof.
  revert l. induction n as [|n IH]; intros [|b l]; cbn [take_line]; try apply not_elem_of_nil.
  case_decide; [apply not_elem_of_nil|]. specialize (IH l). cbn [length]. rewrite Nat.sub_1_r. cbn [Nat.pred].
  destruct (take_line n l) as [|x t]; [apply not_elem_of_nil|]. cbn [length] in *. rewrite Nat.sub_1_r in IH.
  cbn [Nat.pred] in IH. cbn [take]. by apply not_elem_of_cons.
Qed.

Lemma lines_take_line n b l : (length (b :: l) <= n)%nat ->
  lines (b :: l) = take_line n (b :: l) :: lines (drop (length (take_line n (b :: l))) (b :: l)).
Proof.
  revert n b. induction l as [|x l IH]; intros n b Hn; (destruct n as [|n]; [simpl in Hn; lia|]).
  - simpl. case_decide; simpl; [done|]. by rewrite firstn_nil || by destruct n.
  - cbn [lines take_line]. case_decide; [done|]. simpl in Hn.
    specialize (IH n x ltac:(simpl; lia)). cbn [lines] in IH. rewrite IH. done.
Qed.

(** A C string in a buffer ends before the first zero byte. *)
Fixpoint cstr (l : list byte) : list byte :=
  match l with
  | [] => []
  | b :: l' => if decide (b = x00) then [] else b :: cstr l'
  end.

Lemma cstr_id l : x00 ∉ l -> cstr l = l.
Proof.
  induction l as [|b l IH]; simpl; [done|]. intros [? ?]%not_elem_of_cons.
  rewrite decide_False by congruence. by rewrite IH.
Qed.

(** ** The copiers *)

(** The state of a copy of [c]: [k] bytes were read, [l] were written. *)
Record fcopy (w0 : os) (pd : string) (c : list byte) (k : nat) (l : list byte) (w : os) : Prop := {
  fc_fs : fs w = <[pd := l]> (fs w0);
  fc_k : (k <= length c)%nat;
  fc_orc : orc w `suffix_of` orc w0;
  fc_l : no_err (orc w0) -> l = take k c }.

Lemma fcopy_orc w0 pd c k l o e w :
  fcopy w0 pd c k l w -> o `suffix_of` orc w -> fcopy w0 pd c k l (with_errno e (with_orc o w)).
Proof. intros [] Ho. split; try done. by trans (orc w). Qed.

Lemma suffix_err e (o : list sysans) (w : os) : orc w = AErr e :: o -> o `suffix_of` orc w.
Proof. intros ->. by exists [AErr e]. Qed.

(** What both copiers do before their loop. *)
Lemma wp_fopen_both {A} (k : stream -> stream -> M os A) ps pd c (Q : A -> os -> Prop) (E : Z -> os -> Prop) w :
  ps <> pd -> fs w !! ps = Some c ->
  (forall w', fs w' = fs w -> (exists e, AErr e ∈ orc w) -> E 0 w') ->
  (forall w', fcopy w pd c 0 [] w' -> wp (k (Stream ps 0) (Stream pd 0)) Q E w') ->
  wp (src ← fopen_r ps;
      match src with
      | None => exit_ 0
      | Some src => dst ← fopen_w pd; match dst with None => exit_ 0 | Some dst => k src dst end
      end) Q E w.
Proof.
  intros Hne Hc He Hk. apply wp_bind, wp_fopen_r; [| |intros o Ho _].
  - intros e o Ho. wp_steps. apply He; [done|]. exists e. rewrite Ho. left.
  - intros o _ Hno. congruence.
  - apply wp_bind, wp_fopen_w; [intros e o' Ho'|intros o' Ho'].
    + wp_steps. apply He; [done|]. exists e. cbn [orc with_orc] in Ho'. subst o.
      destruct Ho as [pre ->]. rewrite elem_of_app. right. left.
    + apply Hk. split; cbn [fs with_fs with_orc orc]; [done|lia|by trans o|done].
Qed.

Module Mycpy.
(** [while(TRUE) { c = fgetc(src); if(c == EOF) break; fputc(c, dst); }] *)
Definition loop (fuel : nat) (src dst : stream) : M os unit :=
  iter fuel (fun '(src, dst) =>
    '(r, src) ← fgetc src;
    let c := to_char r in
    if c =? EOF then mret (inr tt) else
    '(_, dst) ← fputc c dst;
    mret (inl (src, dst))) (src, dst).

Definition main (fuel : nat) (argv : list string) : M os Z :=
  if decide (length argv < 3)%nat then exit_ 0 else
  src ← fopen_r (nth 1 argv EmptyString);
  match src with
  | None => exit_ 0
  | Some src =>
      dst ← fopen_w (nth 2 argv EmptyString);
      match dst with
      | None => exit_ 0
      | Some dst => loop fuel src dst ;; mret 0
      end
  end.

Lemma wp_char_loop w0 fuel ps pd c (E : Z -> os -> Prop) w :
  ps <> pd -> fs w0 !! ps = Some c -> fcopy w0 pd c 0 [] w -> (length c < fuel)%nat ->
  wp (loop fuel (Stream ps 0) (Stream pd 0))
     (fun _ w' => exists l, fs w' = <[pd := l]> (fs w0) /\ (no_err (orc w0) -> l = upto_ff c)) E w.
Proof.
  intros Hne Hc Hw Hf. unfold loop.
  apply (wp_iter (fun '(src, dst) w => exists k l, src = Stream ps k /\ dst = Stream pd (length l) /\
           fcopy w0 pd c k l w /\ (no_err (orc w0) -> upto_ff (take k c) = take k c))
         (fun '(src, _) _ => length c - s_pos src)%nat).
  2: { by exists 0%nat, []. }
  2: { cbn [s_pos]. lia. }
  intros [src dst] w1 (k & l & -> & -> & H1 & Hff).
  assert (Hps : fs w1 !! ps = Some c) by (rewrite (fc_fs _ _ _ _ _ _ H1); by simplify_map_eq).
  apply wp_bind, wp_fgetc with (c := c); [done| | |]; cbn [s_path s_pos].
  - intros e o Ho. cbn beta iota. change (to_char EOF =? EOF) with true. wp_steps. exists l.
    split; [apply H1|]. intros Hn. destruct (no_err_head e o (orc w0)); [|done]. rewrite <-Ho. apply H1.
  - intros o b Ho Hb. cbn beta iota. destruct (Z.eqb_spec (to_char (uchar b)) EOF) as [Heof|Heof].
    + apply to_char_eof in Heof as ->. wp_steps. exists l. split; [apply H1|]. intros Hn.
      rewrite (fc_l _ _ _ _ _ _ H1 Hn). rewrite <-(take_drop_middle c k xff Hb) at 2.
      symmetry. by apply upto_ff_at, Hff.
    + assert (Hlt : (k < length c)%nat) by (by eapply lookup_lt_Some).
      assert (Hb' : b <> xff) by (intros ->; by destruct Heof).
      apply wp_bind, wp_fputc; cbn [fs orc with_orc].
      * rewrite (fc_fs _ _ _ _ _ _ H1). by simplify_map_eq.
      * intros e o' ->. cbn beta iota. wp_steps. split; [|cbn [s_pos]; lia].
        exists (S k), l. split_and!; [done|done| |].
        -- destruct H1. split; cbn; [done|lia| |].
           ++ trans (AErr e :: o'); [by exists [AErr e]|]. by trans (orc w1).
           ++ intros Hn. destruct (no_err_head e o' (orc w0)); [|done]. by trans (orc w1).
        -- intros Hn. destruct (no_err_head e o' (orc w0)); [|done]. by trans (orc w1); [|apply H1].
      * intros o' Ho'. cbn beta iota. wp_steps. split; [|cbn [s_pos]; lia].
        exists (S k), (l ++ [b]). split_and!; [done|done| |].
        -- destruct H1. split; cbn; [|lia|by trans o; [|trans (orc w1)]|].
           ++ by rewrite fc_fs0, insert_insert_eq.
           ++ intros Hn. by rewrite (fc_l0 Hn), (take_S_r c k b).
        -- intros Hn. rewrite (take_S_r c k b) by done. by apply upto_ff_snoc, Hff.
  - intros o Ho Hge. cbn beta iota. change (to_char EOF =? EOF) with true. wp_steps. exists l.
    split; [apply H1|]. intros Hn. rewrite (fc_l _ _ _ _ _ _ H1 Hn). specialize (Hff Hn).
    rewrite (firstn_all2 c) in * by done. done.
Qed.

(** The copier of src/stdio/mycpy.c, which reads bytes into a [char], ends
    with status 0 whatever happens and changes no file but the destination; if no
    call fails the destination holds the source up to its first byte 0xff, which
    it takes for the end of the file: the whole source exactly when that byte
    does not occur. *)
Theorem stdio_mycpy_copies_to_ff fuel prog ps pd rest w c :
  ps <> pd -> fs w !! ps = Some c -> (length c < fuel)%nat ->
  wp (main fuel (prog :: ps :: pd :: rest))
     (fun r w' => r = 0 /\ exists l, fs w' = <[pd := l]> (fs w) /\
        (no_err (orc w) -> l = upto_ff c /\ (l = c <-> xff ∉ c)))
     (fun code w' => code = 0 /\ fs w' = fs w /\ exists e, AErr e ∈ orc w) w.
Proof.
  intros Hne Hc Hf. unfold main. rewrite decide_False by (simpl; lia). cbn [nth].
  apply (wp_fopen_both (fun src dst => loop fuel src dst ;; mret 0) ps pd c); [done..|].
  intros w' H0. apply wp_bind. eapply wp_mono; [|intros ? ? H; exact H|by apply (wp_char_loop w _ ps pd c)].
  intros [] w1 (l & Hl & Hff). wp_steps. split; [done|]. exists l. split; [done|]. intros Hn.
  rewrite (Hff Hn). split; [done|]. apply upto_ff_id_iff.
Qed.
End Mycpy.

Module Mycpy1.
Definition BUF_SIZE : nat := 32.

Definition safe_fread (fd : stream) (count : nat) : M os (list byte * stream) := fread fd count.
Definition safe_fwrite (fd : stream) (buf : list byte) : M os (nat * stream) := fwrite fd buf.

Definition loop (fuel : nat) (src dst : stream) : M os unit :=
  iter fuel (fun '(src, dst) =>
    '(buf, src) ← safe_fread src BUF_SIZE;
    if decide (length buf <= 0)%nat then mret (inr tt) else
    '(_, dst) ← safe_fwrite dst buf;
    mret (inl (src, dst))) (src, dst).

Definition main (fuel : nat) (argv : list string) : M os Z :=
  if decide (length argv < 3)%nat then exit_ 0 else
  src ← fopen_r (nth 1 argv EmptyString);
  match src with
  | None => exit_ 0
  | Some src =>
      dst ← fopen_w (nth 2 argv EmptyString);
      match dst with
      | None => exit_ 0
      | Some dst => loop fuel src dst ;; mret 0
      end
  end.

Lemma wp_block_loop w0 fuel ps pd c (E : Z -> os -> Prop) w :
  ps <> pd -> fs w0 !! ps = Some c -> fcopy w0 pd c 0 [] w -> (length c < fuel)%nat ->
  wp (loop fuel (Stream ps 0) (Stream pd 0))
     (fun _ w' => exists l, fs w' = <[pd := l]> (fs w0) /\ (no_err (orc w0) -> l = c)) E w.
Proof.
  intros Hne Hc Hw Hf. unfold loop, safe_fread, safe_fwrite.
  apply (wp_iter (fun '(src, dst) w => exists k l, src = Stream ps k /\ dst = Stream pd (length l) /\
           fcopy w0 pd c k l w)
         (fun '(src, _) _ => length c - s_pos src)%nat).
  2: { by exists 0%nat, []. }
  2: { cbn [s_pos]. lia. }
  intros [src dst] w1 (k & l & -> & -> & H1).
  assert (Hps : fs w1 !! ps = Some c) by (rewrite (fc_fs _ _ _ _ _ _ H1); by simplify_map_eq).
  apply wp_bind, wp_fread with (c := c); [done| |]; cbn [s_path s_pos].
  - intros e o Ho. cbn beta iota. rewrite decide_True by (simpl; lia). wp_steps. exists l.
    split; [apply H1|]. intros Hn. destruct (no_err_head e o (orc w0)); [|done]. rewrite <-Ho. apply H1.
  - intros o Ho. cbn beta iota. set (buf := take BUF_SIZE (drop k c)).
    assert (Hlen : length buf = Nat.min BUF_SIZE (length c - k)) by (unfold buf; by rewrite length_take, length_drop).
    pose proof (fc_k _ _ _ _ _ _ H1) as Hk. case_decide as Hz.
    + wp_steps. exists l. split; [apply H1|]. intros Hn. rewrite (fc_l _ _ _ _ _ _ H1 Hn).
      apply firstn_all2. unfold BUF_SIZE in *. lia.
    + assert (Hbuf : take k c ++ buf = take (k + length buf) c).
      { rewrite Hlen. unfold buf. rewrite take_take_drop. destruct (decide (k + BUF_SIZE <= length c))%nat.
        - f_equal. lia.
        - rewrite (firstn_all2 c), (firstn_all2 c); [done|lia|lia]. }
      apply wp_bind, wp_fwrite with (l := l); cbn [fs orc with_orc].
      * rewrite (fc_fs _ _ _ _ _ _ H1). by simplify_map_eq.
      * intros e o' ->. cbn beta iota. wp_steps. split; [|cbn [s_pos]; unfold BUF_SIZE in *; lia].
        exists (k + length buf)%nat, l. split_and!; [done|done|].
        destruct H1. split; cbn [fs orc with_fs with_orc with_errno]; [done|lia| |].
        -- trans (AErr e :: o'); [by exists [AErr e]|]. by trans (orc w1).
        -- intros Hn. destruct (no_err_head e o' (orc w0)); [|done]. by trans (orc w1).
      * intros o' Ho'. cbn beta iota. wp_steps. split; [|cbn [s_pos]; unfold BUF_SIZE in *; lia].
        exists (k + length buf)%nat, (l ++ buf). split_and!; [done|done|].
        destruct H1. split; cbn [fs orc with_fs with_orc with_errno]; [|lia|by trans o; [|trans (orc w1)]|].
        -- by rewrite fc_fs0, insert_insert_eq.
        -- intros Hn. by rewrite (fc_l0 Hn), Hbuf.
Qed.

(** C37: The copier of src/stdio/mycpy1.c, which moves blocks of 32 bytes, ends
    with status 0 whatever happens and changes no file but the destination; if no
    call fails the destination holds exactly the source, whatever its bytes are. *)
Theorem stdio_mycpy1_copies fuel prog ps pd rest w c :
  ps <> pd -> fs w !! ps = Some c -> (length c < fuel)%nat ->
  wp (main fuel (prog :: ps :: pd :: rest))
     (fun r w' => r = 0 /\ exists l, fs w' = <[pd := l]> (fs w) /\ (no_err (orc w) -> l = c))
     (fun code w' => code = 0 /\ fs w' = fs w /\ exists e, AErr e ∈ orc w) w.
Proof.
  intros Hne Hc Hf. unfold main. rewrite decide_False by (simpl; lia). cbn [nth].
  apply (wp_fopen_both (fun src dst => loop fuel src dst ;; mret 0) ps pd c); [done..|].
  intros w' H0. apply wp_bind. eapply wp_mono; [|intros ? ? H; exact H|by apply (wp_block_loop w _ ps pd c)].
  intros [] w1 Hl. wp_steps. by split.
Qed.
End Mycpy1.

Module TruncLn10.
Definition BUF_SIZE : nat := 256.

(** [tmpfile()]: an anonymous file, here its contents; [None] is [NULL]. *)
Definition tmpfile : M os (option (list byte)) :=
  a ← next_ans;
  match a with AErr e => fail_with (Zpos e) None | _ => mret (Some []) end.

(** [fputc(c, tmp)], whose result is ignored. *)
Definition put_tmp (c : byte) (tmp : option (list byte)) : M os (option (list byte)) :=
  t ← unwrap NullDeref tmp;
  a ← next_ans;
  match a with AErr e => fail_with (Zpos e) (Some t) | _ => mret (Some (t ++ [c])) end.

(** [for(ssize_t p = 0; p < n; p++)] over the bytes read. *)
Fixpoint scan (chunk : list byte) (line : Z) (tmp : option (list byte)) : M os (Z * option (list byte)) :=
  match chunk with
  | [] => mret (line, tmp)
  | b :: rest =>
      tmp ← (if line =? 10 then mret tmp else put_tmp b tmp);
      line ← (if decide (b = LF) then int_ (line + 1) else mret line);
      scan rest line tmp
  end.

Definition read_loop (fuel : nat) (fd : Z) (buf0 : list byte) (tmp : option (list byte)) :
    M os (option (list byte)) :=
  iter fuel (fun '(buf, line, tmp) =>
    '(n, buf) ← sys_read fd buf BUF_SIZE;
    if n =? 0 then mret (inr tmp) else
    if n <? 0 then sys_close fd ;; exit_ 1 else
    '(line, tmp) ← scan (take (Z.to_nat n) buf) line tmp;
    mret (inl (buf, line, tmp))) (buf0, 1, tmp).

(** The second [while(1)]: the temporary file, from its start, over the file. *)
Definition write_back (fuel : nat) (tmp : list byte) (f : stream) : M os unit :=
  iter fuel (fun '(pos, f) =>
    '(r, pos) ← getc_at tmp pos;
    let c := to_char r in
    if c =? EOF then mret (inr tt) else
    '(x, f) ← fputc c f;
    if x =? EOF then exit_ 1 else mret (inl (pos, f))) (0%nat, f).

(** [buf0] is what the uninitialised array holds. *)
Definition main (fuel : nat) (argv : list string) (buf0 : list byte) : M os Z :=
  if decide (length argv < 2)%nat then exit_ 1 else
  fd ← sys_open (nth 1 argv EmptyString) O_RDONLY;
  tmp ← tmpfile;
  if fd <? 0 then exit_ 1 else
  tmp ← read_loop fuel fd buf0 tmp;
  sys_close fd ;;
  t ← unwrap NullDeref tmp;
  f ← fopen_w (nth 1 argv EmptyString);
  match f with
  | None => exit_ 1
  | Some f => write_back fuel t f ;; mret 0
  end.

(** What the scan keeps of a text that starts at line [line]. *)
Fixpoint kept (line : Z) (l : list byte) : list byte :=
  match l with
  | [] => []
  | b :: l' => (if line =? 10 then [] else [b]) ++ kept (if decide (b = LF) then line + 1 else line) l'
  end.

Lemma kept_after line l : 10 < line -> kept line l = l.
Proof.
  revert line. induction l as [|b l IH]; intros line Hl; simpl; [done|].
  destruct (Z.eqb_spec line 10); [lia|]. simpl. f_equal. apply IH. case_decide; lia.
Qed.

Lemma kept_length line l : (length (kept line l) <= length l)%nat.
Proof.
  revert line. induction l as [|b l IH]; intros line; simpl; [done|].
  rewrite length_app. specialize (IH (if decide (b = LF) then line + 1 else line)).
  destruct (line =? 10); simpl; lia.
Qed.

(** It keeps all lines but the tenth. *)
Lemma kept_lines line l : line <= 10 ->
  kept line l = concat (delete (Z.to_nat (10 - line)) (lines l)).
Proof.
  revert line. induction l as [|b l IH]; intros line Hl; cbn [kept lines]; [by destruct (Z.to_nat _)|].
  destruct (Z.eqb_spec line 10) as [->|Hne]; simpl app.
  - case_decide; [rewrite kept_after by lia; simpl; by rewrite concat_lines|].
    rewrite IH by lia. by destruct (lines l).
  - destruct (Z.to_nat (10 - line)) as [|n] eqn:En; [lia|]. case_decide as Hb.
    + cbn [delete list_delete concat]. rewrite IH by lia. replace (Z.to_nat (10 - (line + 1))) with n by lia. done.
    + rewrite IH by lia. rewrite En. destruct (lines l) as [|x xs]; [by destruct n|]. done.
Qed.

Section proofs.
Implicit Types (w : os) (E : Z -> os -> Prop).

Lemma wp_put_tmp c t (Q : option (list byte) -> os -> Prop) E w :
  no_err (orc w) -> (forall o, o `suffix_of` orc w -> Q (Some (t ++ [c])) (with_orc o w)) ->
  wp (put_tmp c (Some t)) Q E w.
Proof.
  intros Hn HQ. unfold put_tmp. apply wp_bind, (wp_unwrap _ _ t); [done|].
  apply wp_bind, wp_next_ans. intros [|k|e] o Ho Ha _; [wp_steps; by apply HQ..|].
  destruct (no_err_head e o (orc w)); [|done]. by rewrite (Ha e).
Qed.

Lemma wp_scan_chunk chunk line t (Q : Z * option (list byte) -> os -> Prop) E w :
  no_err (orc w) -> 1 <= line -> line + Z.of_nat (length chunk) <= INT_MAX ->
  (forall line' t' o, o `suffix_of` orc w -> line <= line' <= line + Z.of_nat (length chunk) ->
     (forall rest, t ++ kept line (chunk ++ rest) = t' ++ kept line' rest) ->
     Q (line', Some t') (with_orc o w)) ->
  wp (scan chunk line (Some t)) Q E w.
Proof.
  revert line t w. induction chunk as [|b chunk IH]; intros line t w Hn Hl Hb HQ; cbn [scan length] in *.
  - wp_steps. destruct w. apply (HQ line t orc); [done|lia|done].
  - apply wp_bind.
    assert (Hk : forall t' w', no_err (orc w') -> orc w' `suffix_of` orc w ->
              (forall o, with_orc o w' = with_orc o w) -> t' = t ++ (if line =? 10 then [] else [b]) ->
              wp (line ← (if decide (b = LF) then int_ (line + 1) else mret line); scan chunk line (Some t')) Q E w').
    { intros t' w' Hn' Ho Hw ->. apply wp_bind.
      assert (Hnext : wp (scan chunk (if decide (b = LF) then line + 1 else line)
                            (Some (t ++ (if line =? 10 then [] else [b])))) Q E w').
      { apply IH; [done|case_decide; lia|case_decide; lia|]. intros line' t' o Ho' Hr Heq. rewrite Hw.
        apply HQ; [by trans (orc w')|case_decide; lia|]. intros rest. rewrite <-Heq.
        cbn [app kept]. by rewrite <-(assoc_L (++)). }
      case_decide; [apply wp_int; [unfold INT_MIN; lia|done]|by wp_steps]. }
    destruct (line =? 10) eqn:E10.
    + apply wp_ret. apply Hk; [done..|]. by rewrite app_nil_r.
    + apply wp_put_tmp; [done|]. intros o Ho. apply Hk; [by eapply no_err_suffix|done..].
Qed.

Lemma wp_read_loop fuel p c (fd i : nat) w0 w buf0 E :
  no_err (orc w0) -> fs w0 !! p = Some c -> fs w = fs w0 -> orc w `suffix_of` orc w0 ->
  fdt w !! fd = Some i -> ofds w !! i = Some (Ofd p 0 true false) ->
  length buf0 = BUF_SIZE -> Z.of_nat (length c) < INT_MAX -> (length c < fuel)%nat ->
  wp (read_loop fuel (Z.of_nat fd) buf0 (Some []))
     (fun r w' => r = Some (kept 1 c) /\ fs w' = fs w0 /\ orc w' `suffix_of` orc w0 /\ fdt w' = fdt w /\
        is_Some (ofds w' !! i)) E w.
Proof.
  intros Hn Hc Hfs0 Ho0 Hfd Hof Hbuf Hmax Hf. unfold read_loop.
  apply (wp_iter (fun '(buf, line, tmp) w1 => exists off t, length buf = BUF_SIZE /\ tmp = Some t /\
           (off <= length c)%nat /\ 1 <= line <= 1 + Z.of_nat off /\ t ++ kept line (drop off c) = kept 1 c /\
           fs w1 = fs w0 /\ orc w1 `suffix_of` orc w0 /\ fdt w1 = fdt w /\
           ofds w1 !! i = Some (Ofd p off true false))
         (fun _ w1 => length c - from_option of_off 0 (ofds w1 !! i))%nat).
  2: { exists 0%nat, []. split_and!; try done; lia. }
  2: { rewrite Hof. simpl. lia. }
  intros [[buf line] tmp] w1 (off & t & Hl & -> & Hoff & Hline & Hkept & Hfs & Ho & Hft & Hd).
  apply wp_bind. eapply wp_read; [by rewrite Hft|exact Hd|done|lia| |].
  { intros e o He. destruct (no_err_head e o (orc w0)); [|done]. by rewrite <-He. }
  cbv zeta. cbn [of_off of_path]. rewrite Hfs, Hc. cbn [default from_option id].
  intros n o Hs Hle Hz _. rewrite length_drop in Hle.
  assert (Hio : (i < length (ofds w1))%nat) by (by eapply lookup_lt_Some).
  destruct (Z.eqb_spec (Z.of_nat n) 0) as [H0|H0].
  - wp_steps. assert (n = 0)%nat as -> by lia. destruct Hz as [?|Hnil]; [done|done|].
    rewrite Hnil in Hkept. cbn [kept] in Hkept. rewrite app_nil_r in Hkept. subst t.
    split_and!; [done|done|by trans (orc w1)|done|]. cbn [set_off ofds with_ofds with_orc].
    by rewrite list_lookup_insert_eq.
  - destruct (Z.ltb_spec (Z.of_nat n) 0); [lia|]. rewrite Nat2Z.id.
    assert (Hch : take n (take n (drop off c) ++ drop n buf) = take n (drop off c)).
    { rewrite take_app_le, firstn_firstn, Nat.min_id; [done|]. rewrite length_take, length_drop. lia. }
    rewrite Hch. apply wp_bind, wp_scan_chunk; cbn [orc set_off with_ofds with_orc].
    + apply (no_err_suffix _ (orc w0)); [by trans (orc w1)|done].
    + lia.
    + rewrite length_take, length_drop. lia.
    + rewrite length_take, length_drop. intros line' t' o' Ho' Hr Heq. wp_steps.
      split; [|rewrite Hd; cbn [ofds set_off with_ofds with_orc]; rewrite list_lookup_insert_eq by done; simpl; lia].
      exists (off + n)%nat, t'. split_and!; try done; try lia.
      * rewrite length_app, length_take, !length_drop. lia.
      * rewrite <-Hkept, <-drop_drop, <-Heq, take_drop. done.
      * trans o; [done|by trans (orc w1)].
      * cbn [ofds set_off with_ofds with_orc]. by rewrite list_lookup_insert_eq.
Qed.

Lemma wp_write_back fuel t p f0 E w :
  no_err (orc w) -> fs w = <[p := []]> f0 -> (length t < fuel)%nat ->
  wp (write_back fuel t (Stream p 0)) (fun _ w' => fs w' = <[p := upto_ff t]> f0 /\ fdt w' = fdt w) E w.
Proof.
  intros Hn Hfs Hf. unfold write_back.
  apply (wp_iter (fun '(pos, f) w1 => f = Stream p (length (take pos t)) /\ (pos <= length t)%nat /\
           fs w1 = <[p := take pos t]> f0 /\ orc w1 `suffix_of` orc w /\ fdt w1 = fdt w /\
           upto_ff (take pos t) = take pos t) (fun '(pos, _) _ => length t - pos)%nat); [|by split_and!; try lia|lia].
  intros [pos f] w1 (-> & Hp & Hfs1 & Ho & Hft & Hff).
  apply wp_bind, wp_getc_at.
  - intros e o He. destruct (no_err_head e o (orc w)); [|done]. by rewrite <-He.
  - intros o b Hs Hb. cbn beta iota. destruct (Z.eqb_spec (to_char (uchar b)) EOF) as [Heof|Heof].
    + apply to_char_eof in Heof as ->. wp_steps. cbn [fs fdt with_orc]. split; [|done]. rewrite Hfs1. f_equal.
      rewrite <-(take_drop_middle t pos xff Hb) at 2. symmetry. by apply upto_ff_at.
    + assert (Hb' : b <> xff) by (intros ->; by destruct Heof).
      apply wp_bind, wp_fputc; cbn [fs orc with_orc].
      * rewrite Hfs1. by simplify_map_eq.
      * intros e o' ->. destruct (no_err_head e o' (orc w)); [|done]. by trans (orc w1).
      * intros o' Ho'. cbn beta iota. pose proof (uchar_range b). destruct (Z.eqb_spec (uchar b) EOF); [unfold EOF in *; lia|].
        wp_steps. apply lookup_lt_Some in Hb as Hlt. rewrite <-(take_S_r t pos b) by done.
        split; [|lia]. split_and!; cbn [fs orc fdt with_fs with_orc]; try done; [| |].
        -- by rewrite Hfs1, insert_insert_eq.
        -- trans o; [done|by trans (orc w1)].
        -- rewrite (take_S_r t pos b) by done. by apply upto_ff_snoc.
  - intros o Hs Hge. cbn beta iota. change (to_char EOF =? EOF) with true. wp_steps. cbn [fs fdt with_orc].
    rewrite (firstn_all2 t) in * by done. by rewrite Hff.
Qed.
End proofs.

(** C21: If no call fails, trunc_ln_10 ends with status 0 and its file holds what
    it held before without the tenth line, cut at the first byte 0xff (so exactly
    the other lines, for a text); short reads do not matter, no other file
    changes and no descriptor leaks. *)
Theorem trunc_ln_10_deletes_line fuel prog p rest buf0 w c :
  no_err (orc w) -> fs w !! p = Some c -> length buf0 = BUF_SIZE ->
  Z.of_nat (length c) < INT_MAX -> (length c < fuel)%nat ->
  wp (main fuel (prog :: p :: rest) buf0)
     (fun r w' => r = 0 /\ fs w' = <[p := upto_ff (concat (delete 9%nat (lines c)))]> (fs w) /\ fdt w' = fdt w)
     (fun _ _ => False) w.
Proof.
  intros Hn Hc Hbuf Hmax Hf. unfold main. rewrite decide_False by (simpl; lia). cbn [nth].
  apply wp_bind, wp_open; [intros e o He; destruct (no_err_head e o (orc w)); [by rewrite He|done]|congruence|].
  intros o fd Ho Hfd _. apply wp_bind. unfold tmpfile. apply wp_bind, wp_next_ans. cbn [orc opened with_orc].
  set (w1 := opened p O_RDONLY fd (with_orc o w)).
  assert (Hfs1 : fs w1 = fs w) by (simpl; rewrite Hc; simpl; by rewrite insert_id).
  intros a o1 Ho1 Ha _.
  assert (Hcont : wp (if Z.of_nat fd <? 0 then exit_ 1 else
    tmp ← read_loop fuel (Z.of_nat fd) buf0 (Some []);
    sys_close (Z.of_nat fd) ;; t ← unwrap NullDeref tmp; f ← fopen_w p;
    match f with None => exit_ 1 | Some f => write_back fuel t f ;; mret 0 end)
    (fun r w' => r = 0 /\ fs w' = <[p := upto_ff (concat (delete 9%nat (lines c)))]> (fs w) /\ fdt w' = fdt w)
    (fun _ _ => False) (with_orc o1 w1)).
  { destruct (Z.ltb_spec (Z.of_nat fd) 0); [lia|]. apply wp_bind.
    eapply wp_mono; [|intros ? ? HE; exact HE|apply (wp_read_loop _ p c fd (length (ofds w)) w)]; try done.
    2: by trans o.
    2: cbn; by rewrite lookup_insert_eq.
    2: cbn; by rewrite lookup_app_r, Nat.sub_diag by done.
    intros r w2 (-> & Hfs2 & Ho2 & Hft2 & [d Hd]). apply wp_bind.
    eapply wp_close; [rewrite Hft2; cbn; by rewrite lookup_insert_eq|exact Hd|].
    apply wp_bind, (wp_unwrap _ _ (kept 1 c)); [done|]. apply wp_bind, wp_fopen_w; cbn [orc with_fdt].
    { intros e o2 He. destruct (no_err_head e o2 (orc w)); [by rewrite <-He|done]. }
    intros o2 Hs2. apply wp_bind. eapply wp_mono; [|intros ? ? HE; exact HE|].
    2: apply (wp_write_back fuel (kept 1 c) p (fs w));
         [eapply no_err_suffix; [|exact Hn]; cbn; by trans (orc w2)|cbn; by rewrite Hfs2|].
    2: apply Nat.le_lt_trans with (2 := Hf), kept_length.
    intros [] w3 [Hfs3 Hft3]. wp_steps. split_and!; [done|by rewrite Hfs3, kept_lines by lia|].
    rewrite Hft3. cbn. rewrite Hft2. cbn. by apply delete_insert_id. }
  destruct a as [|k|e]; [wp_steps; exact Hcont..|].
  destruct (no_err_head e o1 (orc w)); [|done]. rewrite <-(Ha e); done.
Qed.
End TruncLn10.

(** ** Programs that print *)

(** The system and what was printed. *)
Definition sys {X A} (m : M os A) : M (os * list X) A := on fst (fun s t => (s, t.2)) m.
Definition print {X} (x : X) : M (os * list X) unit := modify (fun t => (t.1, t.2 ++ [x])).

(** [fgets(buf, n, f)]: a line, or the first [n - 1] bytes of one; [None] is
    [NULL].  [getline] has no bound. *)
Definition fgets (n : nat) (f : stream) : M os (option (list byte) * stream) :=
  a ← next_ans;
  match a with
  | AErr e => fail_with (Zpos e) (None, f)
  | _ =>
      w ← get;
      match take_line (n - 1) (drop (s_pos f) (content (s_path f) w)) with
      | [] => mret (None, f)
      | l => mret (Some l, Stream (s_path f) (s_pos f + length l))
      end
  end.

Definition getline (f : stream) : M os (option (list byte) * stream) :=
  w ← get; fgets (S (length (content (s_path f) w))) f.

Section rules.
Implicit Types (w : os) (E : Z -> os -> Prop).

Lemma wp_fgets n path k c (Q : option (list byte) * stream -> os -> Prop) E w :
  no_err (orc w) -> fs w !! path = Some c ->
  (forall o, o `suffix_of` orc w -> let l := take_line (n - 1) (drop k c) in
     Q (match l with [] => None | _ => Some l end, Stream path (k + length l)) (with_orc o w)) ->
  wp (fgets n (Stream path k)) Q E w.
Proof.
  intros Hn Hc HQ. unfold fgets, content. apply wp_bind, wp_next_ans. intros a o Ho Ha _.
  assert (Hok : wp (w ← get;
     match take_line (n - 1) (drop k (default [] (fs w !! path))) with
     | [] => mret (None, Stream path k)
     | l => mret (Some l, Stream path (k + length l))
     end) Q E (with_orc o w)).
  { wp_steps. cbn [fs with_orc]. rewrite Hc. cbn [default from_option id]. specialize (HQ o Ho). cbv zeta in HQ.
    destruct (take_line (n - 1) (drop k c)) as [|b l]; wp_steps; [by rewrite Nat.add_0_r in HQ|done]. }
  destruct a as [|j|e]; [exact Hok..|]. destruct (no_err_head e o (orc w)); [by rewrite (Ha e)|done].
Qed.

(** Opening a file that is there, when no call fails. *)
Lemma wp_fopen_ok path c (Q : option stream -> os -> Prop) E w :
  no_err (orc w) -> fs w !! path = Some c ->
  (forall o, o `suffix_of` orc w -> Q (Some (Stream path 0)) (with_orc o w)) ->
  wp (fopen_r path) Q E w.
Proof.
  intros Hn Hc HQ. apply wp_fopen_r; [|congruence|auto].
  intros e o Ho. destruct (no_err_head e o (orc w)); [by rewrite Ho|done].
Qed.
End rules.

Module CharCount.
Definition loop (fuel : nat) (file : stream) : M os Z :=
  iter fuel (fun '(count, file) =>
    '(c, file) ← fgetc file;
    if c =? EOF then mret (inr count) else
    count ← int_ (count + 1);
    mret (inl (count, file))) (0, file).

Definition main (fuel : nat) (argv : list string) : M (os * list Z) Z :=
  if decide (length argv < 2)%nat then exit_ 0 else
  file ← sys (fopen_r (nth 1 argv EmptyString));
  match file with
  | None => mret 0
  | Some file => count ← sys (loop fuel file); print count ;; mret 0
  end.

Lemma wp_count_loop fuel path c (Q : Z -> os -> Prop) E w :
  no_err (orc w) -> fs w !! path = Some c -> Z.of_nat (length c) <= INT_MAX -> (length c < fuel)%nat ->
  (forall o, Q (Z.of_nat (length c)) (with_orc o w)) -> wp (loop fuel (Stream path 0)) Q E w.
Proof.
  intros Hn Hc Hmax Hf HQ. unfold loop.
  apply (wp_iter (fun '(count, file) w1 => exists k, (k <= length c)%nat /\ count = Z.of_nat k /\
           file = Stream path k /\ exists o, o `suffix_of` orc w /\ w1 = with_orc o w)
         (fun '(_, file) _ => length c - s_pos file)%nat); [|exists 0%nat; split_and!; [lia|done|done|]|cbn; lia].
  2: { exists (orc w). split; [done|by destruct w]. }
  intros [count file] w1 (k & Hk & -> & -> & o & Ho & ->).
  apply wp_bind, wp_fgetc with (c := c); cbn [s_path s_pos orc with_orc]; [done|..].
  - intros e o1 He. destruct (no_err_head e o1 (orc w)); [by rewrite <-He|done].
  - intros o1 b Ho1 Hb. cbn beta iota. pose proof (uchar_range b). apply lookup_lt_Some in Hb.
    destruct (Z.eqb_spec (uchar b) EOF); [unfold EOF in *; lia|].
    apply wp_bind, wp_int; [unfold INT_MIN; lia|]. wp_steps. split; [|cbn [s_pos]; lia].
    exists (S k). split_and!; [lia|lia|done|]. exists o1. split; [by trans o|by destruct w].
  - intros o1 Ho1 Hge. cbn beta iota. change (EOF =? EOF) with true. wp_steps.
    assert (k = length c) as -> by lia. apply (HQ o1).
Qed.
End CharCount.

Module Flen.
(** [fseek(fp, 0, SEEK_END)], then [ftell]. *)
Definition fseek_end (f : stream) : M os (Z * stream) :=
  a ← next_ans;
  match a with
  | AErr e => fail_with (Zpos e) (-1, f)
  | _ => w ← get; mret (0, Stream (s_path f) (length (content (s_path f) w)))
  end.

Definition ftell (f : stream) : Z := Z.of_nat (s_pos f).

Definition main (argv : list string) : M (os * list Z) Z :=
  if decide (length argv < 2)%nat then exit_ 0 else
  fp ← sys (fopen_r (nth 1 argv EmptyString));
  match fp with
  | None => exit_ 0
  | Some fp =>
      '(r, fp) ← sys (fseek_end fp);
      if r <? 0 then exit_ 0 else print (ftell fp) ;; mret 0
  end.

Lemma wp_fseek_end path k c (Q : Z * stream -> os -> Prop) E w :
  no_err (orc w) -> fs w !! path = Some c ->
  (forall o, Q (0, Stream path (length c)) (with_orc o w)) -> wp (fseek_end (Stream path k)) Q E w.
Proof.
  intros Hn Hc HQ. unfold fseek_end, content. apply wp_bind, wp_next_ans. intros a o Ho Ha _.
  destruct a as [|j|e]; [wp_steps; cbn [s_path fs with_orc]; rewrite Hc; apply HQ..|].
  destruct (no_err_head e o (orc w)); [by rewrite (Ha e)|done].
Qed.
End Flen.

(** Char_count, which counts the bytes of a file one by one, and flen, which
    asks for the offset of its end, print the same number, the length of the file,
    for every file of at most [INT_MAX] bytes, if no call fails. *)
Theorem char_count_flen_agree fuel prog p rest w out c :
  no_err (orc w) -> fs w !! p = Some c -> Z.of_nat (length c) <= INT_MAX -> (length c < fuel)%nat ->
  let post := fun r t => r = 0 /\ fs t.1 = fs w /\ t.2 = out ++ [Z.of_nat (length c)] in
  wp (CharCount.main fuel (prog :: p :: rest)) post (fun _ _ => False) (w, out) /\
  wp (Flen.main (prog :: p :: rest)) post (fun _ _ => False) (w, out).
Proof.
  intros Hn Hc Hmax Hf post. unfold CharCount.main, Flen.main, sys, print.
  rewrite !decide_False by (simpl; lia). cbn [nth].
  split; wp_steps; cbn [fst]; (apply (wp_fopen_ok p c); [done..|]); intros o Ho; cbn beta iota; wp_steps; cbn [fst snd].
  - apply (CharCount.wp_count_loop _ p c); [by eapply no_err_suffix|done..|]. intros o1. by wp_steps.
  - apply (Flen.wp_fseek_end p 0 c); [by eapply no_err_suffix|done|]. intros o1. cbn beta iota.
    change (0 <? 0) with false. by wp_steps.
Qed.

Module PrintFile.
Definition BUF_SIZE : nat := 32.

(** [fputs] prints the string in the buffer, up to its first zero byte. *)
Definition loop (fuel : nat) (file : stream) : M (os * list (list byte)) unit :=
  iter fuel (fun file =>
    '(buf, file) ← sys (fgets BUF_SIZE file);
    match buf with
    | None => mret (inr tt)
    | Some buf => print (cstr buf) ;; mret (inl file)
    end) file.

Definition main (fuel : nat) (argv : list string) : M (os * list (list byte)) Z :=
  if decide (length argv < 2)%nat then exit_ 0 else
  file ← sys (fopen_r (nth 1 argv EmptyString));
  match file with
  | None => exit_ 0
  | Some file => loop fuel file ;; mret 0
  end.

(** Print_file prints a file without zero bytes exactly, in pieces of at most
    31 bytes none of which goes past the end of a line, and ends with status 0, if
    no call fails. *)
Theorem print_file_prints fuel prog p rest w c :
  no_err (orc w) -> fs w !! p = Some c -> x00 ∉ c -> (length c < fuel)%nat ->
  wp (main fuel (prog :: p :: rest))
     (fun r t => r = 0 /\ fs t.1 = fs w /\ concat t.2 = c /\
        Forall (fun l => (0 < length l < BUF_SIZE)%nat /\ LF ∉ take (length l - 1) l) t.2)
     (fun _ _ => False) (w, []).
Proof.
  intros Hn Hc Hz Hf. unfold main. rewrite decide_False by (simpl; lia). cbn [nth]. unfold sys at 1. wp_steps.
  cbn [fst]. apply (wp_fopen_ok p c); [done..|]. intros o Ho. cbn beta iota. wp_steps. cbn [snd]. unfold loop, sys, print.
  eapply wp_mono; [| |apply (wp_iter (fun file t => exists k o, file = Stream p k /\ (k <= length c)%nat /\
      o `suffix_of` orc w /\ t.1 = with_orc o w /\ concat t.2 = take k c /\
      Forall (fun l => (0 < length l < BUF_SIZE)%nat /\ LF ∉ take (length l - 1) l) t.2)
    (fun file _ => length c - s_pos file)%nat _
    (fun _ t => fs t.1 = fs w /\ concat t.2 = c /\
      Forall (fun l => (0 < length l < BUF_SIZE)%nat /\ LF ∉ take (length l - 1) l) t.2) (fun _ _ => False))].
  - intros [] t Ht. wp_steps. by split.
  - done.
  - intros file [w1 out] (k & o1 & -> & Hk & Ho1 & Hw & Hcat & Hout). cbn [fst snd] in *. subst w1.
    wp_steps. cbn [fst snd]. apply (wp_fgets BUF_SIZE p k c); [by eapply no_err_suffix|done|]. cbv zeta.
    intros o2 Ho2. set (l := take_line (BUF_SIZE - 1) (drop k c)). cbn [orc with_orc] in Ho2.
    destruct (decide (l = [])) as [Hl|Hl].
    + rewrite Hl. wp_steps. cbn [fst snd fs with_orc]. split_and!; [done| |done]. rewrite Hcat.
      apply firstn_all2. apply take_line_nil in Hl; [|cbn; lia]. apply (f_equal length) in Hl.
      rewrite length_drop in Hl. simpl in Hl. lia.
    + assert (Hsome : match l with [] => None | _ => Some l end = Some l) by (by destruct l). rewrite Hsome.
      wp_steps. cbn [fst snd]. pose proof (take_line_split (BUF_SIZE - 1) (drop k c)) as Hsplit. fold l in Hsplit.
      assert (Hc' : cstr l = l).
      { apply cstr_id. intros Hin. apply Hz. rewrite <-(take_drop k c), <-Hsplit. rewrite !elem_of_app. auto. }
      assert (Hlen : (length l <= length c - k)%nat).
      { rewrite <-length_drop, <-Hsplit, length_app. lia. }
      assert (0 < length l)%nat by (destruct l; simpl; [done|lia]).
      split; [|cbn [s_pos]; lia]. exists (k + length l)%nat, o2. rewrite Hc'.
      split_and!; [done|lia|by trans o1|done| |].
      * rewrite concat_app, Hcat. cbn [concat]. rewrite app_nil_r, <-take_take_drop. f_equal.
        symmetry. apply take_line_prefix.
      * apply Forall_app. split; [done|]. apply Forall_singleton. split; [split; [done|]|apply take_line_inner].
        apply Nat.le_lt_trans with (BUF_SIZE - 1)%nat; [apply take_line_length|unfold BUF_SIZE; lia].
  - exists 0%nat, o. cbn [fst snd]. split_and!; [done|lia|done|done|done|by constructor].
  - cbn [s_pos]. lia.
Qed.
End PrintFile.

Module LineCharCount.
(** After a failed [getline] the buffer it allocated holds nothing the program may
    read; [strlen] reads it all the same. *)
Definition step (s : Z * Z * stream) : M (os * list (Z * nat)) (Z * Z * stream + unit) :=
  let '(r, line, f) := s in
  if negb (0 <=? r) then mret (inr tt) else
  '(buf, f) ← sys (getline f);
  let r := match buf with Some l => Z.of_nat (length l) | None => -1 end in
  s ← unwrap UninitRead buf;
  print (line, length (cstr s)) ;;
  line ← int_ (line + 1);
  mret (inl (r, line, f)).

Definition loop (fuel : nat) (f : stream) : M (os * list (Z * nat)) unit := iter fuel step (0, 1, f).

Definition main (fuel : nat) (argv : list string) : M (os * list (Z * nat)) Z :=
  if decide (length argv < 2)%nat then exit_ 0 else
  f ← sys (fopen_r (nth 1 argv EmptyString));
  match f with
  | None => exit_ 0
  | Some f => loop fuel f ;; mret 0
  end.

(** The numbers printed for some lines, from [line] on. *)
Definition counts (line : Z) (ls : list (list byte)) : list (Z * nat) :=
  imap (fun i l => (line + Z.of_nat i, length (cstr l))) ls.

Lemma counts_cons line l ls : counts line (l :: ls) = (line, length (cstr l)) :: counts (line + 1) ls.
Proof.
  unfold counts. rewrite imap_cons. f_equal; [f_equal; lia|]. apply imap_ext. intros i x _. simpl. f_equal. lia.
Qed.

(** From any line on, the loop prints the counts of the remaining lines and then
    reads the buffer of the failed [getline]. *)
Lemma loop_runs fuel p c k r line w out :
  no_err (orc w) -> fs w !! p = Some c -> 0 <= r -> (k <= length c)%nat -> (length c - k < fuel)%nat ->
  1 <= line -> line + Z.of_nat (length (lines (drop k c))) <= INT_MAX ->
  exists w', iter fuel step (r, line, Stream p k) (w, out) =
  @Fault _ unit UninitRead (w', out ++ counts line (lines (drop k c))).
Proof.
  revert k r line w out. induction fuel as [|fuel IH]; intros k r line w out Hn Hc Hr Hk Hf Hl Hmax; [lia|].
  cbn [iter]. unfold step at 1. destruct (Z.leb_spec 0 r); [|lia]. cbn [negb].
  destruct (wp_Ok (getline (Stream p k))
      (fun x w1 => exists o, o `suffix_of` orc w /\ w1 = with_orc o w /\
         let l := take_line (length c) (drop k c) in
         x = (match l with [] => None | _ => Some l end, Stream p (k + length l))) w) as (x & w1 & Hx & o & Ho & -> & ->).
  { unfold getline, content. wp_steps. cbn [s_path]. rewrite Hc. cbn [default from_option id].
    apply (wp_fgets _ p k c); [done..|]. cbn [Nat.sub]. rewrite Nat.sub_0_r. intros o Ho. by exists o. }
  unfold sys, on, mbind, M_bind. cbn [fst snd]. rewrite Hx. cbn beta iota zeta.
  destruct (drop k c) as [|b rest] eqn:Ed.
  - destruct (length c); cbn [take_line unwrap fail lines]; eexists; by rewrite app_nil_r.
  - assert (Hlen : (length (b :: rest) <= length c)%nat) by (rewrite <-Ed, length_drop; lia).
    rewrite (lines_take_line _ _ _ Hlen) in Hmax |- *. set (l := take_line (length c) (b :: rest)) in *.
    assert (Hl0 : (0 < length l)%nat).
    { apply Nat.neq_0_lt_0. intros El%nil_length_inv. apply take_line_nil in El; [done|cbn [length] in Hlen; lia]. }
    assert (Hsome : match l with [] => None | _ => Some l end = Some l) by (clearbody l; destruct l; [simpl in Hl0; lia|done]). rewrite Hsome.
    cbn [unwrap mret M_ret print modify fst snd]. unfold int_. cbn [length] in Hmax.
    rewrite (proj2 (in_int_spec _)) by (unfold INT_MIN; lia). cbn [mret M_ret].
    assert (Hll : (length l <= length (b :: rest))%nat).
    { rewrite <-(take_line_split (length c) (b :: rest)). fold l. rewrite length_app. lia. }
    rewrite <-Ed, length_drop in Hll. rewrite <-Ed, drop_drop in Hmax |- *.
    destruct (IH (k + length l)%nat (Z.of_nat (length l)) (line + 1) (with_orc o w) (out ++ [(line, length (cstr l))]))
      as [w' Hw']; [by eapply no_err_suffix|done|lia|lia|lia|lia|lia|].
    exists w'. rewrite counts_cons. rewrite <-(assoc_L (++)) in Hw'. exact Hw'.
Qed.

(** Line_char_count prints, for every line of its file in order, its number
    and its length up to the first zero byte; but it never ends properly: after
    the last line it takes the length of the buffer of a [getline] that failed. *)
Theorem line_char_count_reads_uninit fuel prog p rest w c :
  no_err (orc w) -> fs w !! p = Some c -> (length c < fuel)%nat ->
  Z.of_nat (length (lines c)) < INT_MAX ->
  exists w', main fuel (prog :: p :: rest) (w, []) =
    Fault UninitRead (w', imap (fun i l => (1 + Z.of_nat i, length (cstr l))) (lines c)).
Proof.
  intros Hn Hc Hf Hmax. unfold main. rewrite decide_False by (simpl; lia). cbn [nth].
  destruct (wp_Ok (fopen_r p) (fun x w1 => x = Some (Stream p 0) /\ exists o, o `suffix_of` orc w /\ w1 = with_orc o w) w)
    as (x & w1 & Hx & -> & o & Ho & ->).
  { apply (wp_fopen_ok p c); [done..|]. intros o Ho. split; [done|]. by exists o. }
  unfold sys, on, mbind, M_bind. cbn [fst snd]. rewrite Hx. cbn beta iota.
  destruct (loop_runs fuel p c 0 0 1 (with_orc o w) []) as [w' Hw'];
    [by eapply no_err_suffix|done|lia|lia|lia|lia|rewrite drop_0; lia|].
  exists w'. unfold loop. rewrite Hw'. done.
Qed.
End LineCharCount.

(** ** Witnesses *)

(** A small text, a file with a byte 0xff, and a list of answers with short reads. *)
Definition demo_text : list byte :=
  concat (map (fun i => bytes "ab" ++ [byte_of_Z (48 + i); LF]) [0; 1; 2; 3; 4; 5; 6; 7; 8; 9; 10]).

Definition demo_os : os :=
  {| fs := {[ "a"%string := demo_text; "f"%string := [x61; xff; x62] ]};
     ofds := []; fdt := ∅; errno := 0; orc := [AFull; AFull; ALen 3; AFull; ALen 1] |}.

Lemma demo_no_err : no_err (orc demo_os).
Proof. repeat constructor; done. Qed.

Lemma stdio_mycpy_copies_to_ff_witness :
  wp (Mycpy.main 100 ["mycpy"; "f"; "b"]%string)
     (fun r w' => r = 0 /\ exists l, fs w' = <["b"%string := l]> (fs demo_os) /\
        (no_err (orc demo_os) -> l = upto_ff [x61; xff; x62] /\
           (l = [x61; xff; x62] <-> xff ∉ [x61; xff; x62])))
     (fun code w' => code = 0 /\ fs w' = fs demo_os /\ exists e, AErr e ∈ orc demo_os) demo_os.
Proof.
  apply (Mycpy.stdio_mycpy_copies_to_ff 100 "mycpy"%string "f"%string "b"%string []); [done|reflexivity|simpl; lia].
Defined.

Lemma stdio_mycpy1_copies_witness :
  wp (Mycpy1.main 100 ["mycpy1"; "a"; "b"]%string)
     (fun r w' => r = 0 /\ exists l, fs w' = <["b"%string := l]> (fs demo_os) /\
        (no_err (orc demo_os) -> l = demo_text))
     (fun code w' => code = 0 /\ fs w' = fs demo_os /\ exists e, AErr e ∈ orc demo_os) demo_os.
Proof.
  apply (Mycpy1.stdio_mycpy1_copies 100 "mycpy1"%string "a"%string "b"%string []); [done|reflexivity|].
  vm_compute. lia.
Defined.

Lemma trunc_ln_10_deletes_line_witness :
  wp (TruncLn10.main 100 ["trunc_ln_10"; "a"]%string (replicate TruncLn10.BUF_SIZE x00))
     (fun r w' => r = 0 /\
        fs w' = <["a"%string := upto_ff (concat (delete 9%nat (lines demo_text)))]> (fs demo_os) /\
        fdt w' = fdt demo_os)
     (fun _ _ => False) demo_os.
Proof.
  apply (TruncLn10.trunc_ln_10_deletes_line 100 "trunc_ln_10"%string "a"%string []);
    [exact demo_no_err|reflexivity|apply length_replicate|vm_compute; done|vm_compute; lia].
Defined.

Lemma char_count_flen_agree_witness :
  let post := fun r t => r = 0 /\ fs t.1 = fs demo_os /\ t.2 = [] ++ [Z.of_nat (length demo_text)] in
  wp (CharCount.main 100 ["count"; "a"]%string) post (fun _ _ => False) (demo_os, []) /\
  wp (Flen.main ["count"; "a"]%string) post (fun _ _ => False) (demo_os, []).
Proof.
  apply (char_count_flen_agree 100 "count"%string "a"%string [] demo_os [] demo_text);
    [exact demo_no_err|reflexivity|vm_compute; done|vm_compute; lia].
Defined.

Lemma print_file_prints_witness :
  wp (PrintFile.main 100 ["print_file"; "a"]%string)
     (fun r t => r = 0 /\ fs t.1 = fs demo_os /\ concat t.2 = demo_text /\
        Forall (fun l => (0 < length l < PrintFile.BUF_SIZE)%nat /\ LF ∉ take (length l - 1) l) t.2)
     (fun _ _ => False) (demo_os, []).
Proof.
  apply (PrintFile.print_file_prints 100 "print_file"%string "a"%string []);
    [exact demo_no_err|reflexivity| |vm_compute; lia].
  apply (bool_decide_unpack (x00 ∉ demo_text)). vm_compute. exact I.
Defined.

Lemma line_char_count_reads_uninit_witness :
  exists w', LineCharCount.main 100 ["count"; "a"]%string (demo_os, []) =
    Fault UninitRead (w', imap (fun i l => (1 + Z.of_nat i, length (cstr l))) (lines demo_text)).
Proof.
  apply (LineCharCount.line_char_count_reads_uninit 100 "count"%string "a"%string []);
    [exact demo_no_err|reflexivity|vm_compute; lia|vm_compute; done].
Defined.

(** The lines end up as one expects. *)
Example trunc_demo :
  upto_ff (concat (delete 9%nat (lines demo_text))) =
  concat (map (fun i => bytes "ab" ++ [byte_of_Z (48 + i); LF]) [0; 1; 2; 3; 4; 5; 6; 7; 8; 10]).
Proof. by vm_compute. Qed.

(** If [tmpfile] fails the first byte is written to a null stream. *)
Example trunc_tmpfile_unchecked :
  exists w, TruncLn10.main 100 ["trunc_ln_10"; "a"]%string (replicate TruncLn10.BUF_SIZE x00)
              (with_orc [AFull; AErr 24] demo_os) = Fault NullDeref w.
Proof. eexists. vm_compute. reflexivity. Qed.
