(* ===== verification/MyCpy.v ===== *)
(** * MyCpy: src/fileio/mycpy.c

    [mycpy src dst] copies a file with [read] and [write] through a 2048-byte
    buffer.  The inner loop re-issues [write] until the whole chunk is out, so
    the copy is right whatever short reads and short writes the system makes:
    [mycpy_copies]. *)

From S2P Require Import Prelude Prog Posix.

Definition BUF_SIZE : nat := 2048.

(** ** The program *)

(** [while(remain != 0) { ... }] over the chunk of [sz] bytes just read. *)
Definition write_chunk (fuel : nat) (src dst : Z) (buf : list byte) (sz : Z) : M os unit :=
  iter fuel (fun remain : Z =>
    if remain =? 0 then mret (inr tt) else
    data ← slice buf (Z.to_nat (sz - remain)) (Z.to_nat remain);
    written ← sys_write dst data;
    if written <? 0 then
      sys_close src ;; sys_close dst ;; exit_ 0
    else mret (inl (remain - written))) sz.

(** One iteration of [while(1)]: [buf] is the local array. *)
Definition copy_step (fuel : nat) (src dst : Z) (buf : list byte) : M os (list byte + unit) :=
  '(sz, buf) ← sys_read src buf BUF_SIZE;
  if sz <? 0 then
    sys_close src ;; sys_close dst ;; exit_ 0
  else if sz =? 0 then mret (inr tt)
  else write_chunk fuel src dst buf sz ;; mret (inl buf).

(** [buf0] is what the uninitialised array holds. *)
Definition main (fuel : nat) (argv : list string) (buf0 : list byte) : M os Z :=
  if decide (length argv < 3)%nat then exit_ 0 else
  src ← sys_open (nth 1 argv EmptyString) O_RDONLY;
  if src <? 0 then exit_ 0 else
  dst ← sys_open (nth 2 argv EmptyString) (Z.lor O_WRONLY (Z.lor O_CREAT O_TRUNC));
  if dst <? 0 then sys_close src ;; exit_ 0 else
  iter fuel (copy_step fuel src dst) buf0 ;;
  sys_close src ;; sys_close dst ;; mret 0.

(** ** Correctness *)

(** The state while [k] bytes of [c] are in [pd], with [off] the read offset. *)
Record copying (w0 : os) (ps pd : string) (c : list byte) (fs_ fd_ is_ id_ : nat)
    (off k : nat) (w : os) : Prop := {
  cp_fs : fs w = <[pd := take k c]> (fs w0);
  cp_fdt : fdt w = <[fd_ := id_]> (<[fs_ := is_]> (fdt w0));
  cp_src : ofds w !! is_ = Some (Ofd ps off true false);
  cp_dst : ofds w !! id_ = Some (Ofd pd k false true);
  cp_orc : orc w `suffix_of` orc w0;
  cp_k : (k <= length c)%nat }.

Section copy.
Context (w0 : os) (ps pd : string) (c : list byte) (fs_ fd_ is_ id_ : nat).
Hypothesis Hsrc : fs w0 !! ps = Some c.
Hypothesis Hne : ps <> pd.
Hypothesis Hfd : fs_ <> fd_.
Hypothesis Hid : is_ <> id_.
Hypothesis Hfresh : fdt w0 !! fs_ = None /\ fdt w0 !! fd_ = None.

Local Abbreviation cp := (copying w0 ps pd c fs_ fd_ is_ id_).

(** What an [exit] on an I/O error leaves behind. *)
Definition partial (code : Z) (w : os) : Prop :=
  code = 0 /\ (exists e, AErr e ∈ orc w0) /\
  exists p, p `prefix_of` c /\ fs w = <[pd := p]> (fs w0).

Lemma err_in e o : AErr e :: o `suffix_of` orc w0 -> AErr e ∈ orc w0.
Proof. intros [pre ->]. rewrite elem_of_app. right. left. Qed.

Lemma cp_lookups off k w : cp off k w ->
  fdt w !! fs_ = Some is_ /\ fdt w !! fd_ = Some id_.
Proof. intros []. rewrite cp_fdt0. split; by simplify_map_eq. Qed.

(** Closing both descriptors gives back the initial table. *)
Lemma wp_close_both off k (Q : Z -> os -> Prop) E w :
  cp off k w ->
  (forall w', fs w' = fs w -> orc w' = orc w -> fdt w' = fdt w0 -> Q 0 w') ->
  wp (sys_close (Z.of_nat fs_) ;; sys_close (Z.of_nat fd_) ;; mret 0) Q E w.
Proof.
  intros Hcp HQ. destruct (cp_lookups _ _ _ Hcp) as [H1 H2]. destruct Hcp.
  apply wp_bind. eapply wp_close; [done..|].
  apply wp_bind. eapply wp_close; [simpl; by simplify_map_eq|done|].
  wp_steps. apply HQ; [done..|]. simpl. rewrite cp_fdt0.
  destruct Hfresh. by apply delete_two_fresh.
Qed.

Lemma wp_fail_exit {B} off k (Q : B -> os -> Prop) w :
  cp off k w -> (exists e, AErr e ∈ orc w0) ->
  wp (sys_close (Z.of_nat fs_) ;; sys_close (Z.of_nat fd_) ;; exit_ 0) Q partial w.
Proof.
  intros Hcp Herr. destruct (cp_lookups _ _ _ Hcp) as [H1 H2]. destruct Hcp.
  apply wp_bind. eapply wp_close; [done..|].
  apply wp_bind. eapply wp_close; [simpl; by simplify_map_eq|done|].
  wp_steps. split_and!; [done..|]. exists (take k c). split; [apply prefix_take|done].
Qed.

(** The inner loop writes the [n] bytes read at offset [k], in order. *)
Lemma wp_write_chunk n k buf fuel (Q : unit -> os -> Prop) w :
  cp (k + n) k w -> (k + n <= length c)%nat -> (n <= length buf)%nat ->
  take n buf = take n (drop k c) -> (n < fuel)%nat ->
  (forall w', cp (k + n) (k + n) w' -> Q tt w') ->
  wp (write_chunk fuel (Z.of_nat fs_) (Z.of_nat fd_) buf (Z.of_nat n)) Q partial w.
Proof.
  intros Hcp Hkn Hbuf Htake Hfuel HQ. unfold write_chunk.
  apply (wp_iter (fun r w' => 0 <= r <= Z.of_nat n /\ cp (k + n) (k + (n - Z.to_nat r)) w')
                 (fun r _ => Z.to_nat r)).
  2: { split; [lia|]. by rewrite Nat2Z.id, Nat.sub_diag, Nat.add_0_r. }
  2: { by rewrite Nat2Z.id. }
  intros r w' [Hr Hcp']. destruct (Z.eqb_spec r 0) as [->|Hr0].
  { wp_steps. apply HQ. by rewrite Nat.sub_0_r in Hcp'. }
  set (m := Z.to_nat r) in *. assert (Hm : r = Z.of_nat m) by lia. clearbody m. subst r.
  apply wp_bind, wp_slice; [lia|].
  replace (Z.to_nat (Z.of_nat n - Z.of_nat m)) with (n - m)%nat by lia.
  rewrite ?Nat2Z.id.
  assert (Hdata : take m (drop (n - m) buf) = take m (drop (k + (n - m)) c)).
  { replace (take m (drop (n - m) buf)) with (drop (n - m) (take n buf)).
    - rewrite Htake, skipn_firstn_comm, drop_drop. do 2 f_equal; lia.
    - rewrite skipn_firstn_comm. f_equal; lia. }
  rewrite Hdata. destruct (cp_lookups _ _ _ Hcp') as [H1 H2].
  apply wp_bind. eapply wp_write; [done|apply Hcp'|done| |].
  { intros e o Ho. apply (wp_fail_exit (k + n) (k + (n - m))).
    - destruct Hcp'. split; simpl; try done. etrans; [|done]. rewrite Ho. by exists [AErr e].
    - exists e. apply (err_in e o). rewrite <-Ho. apply Hcp'. }
  intros j o. cbv zeta. intros Ho Hj Hj0 _.
  rewrite length_take, length_drop in Hj, Hj0.
  destruct (Z.ltb_spec (Z.of_nat j) 0); [lia|]. wp_steps. split; [|lia].
  split; [lia|]. destruct Hcp'.
  replace (Z.to_nat (Z.of_nat m - Z.of_nat j)) with (m - j)%nat by lia.
  replace (n - (m - j))%nat with (n - m + j)%nat by lia. rewrite Nat.add_assoc.
  split; simpl; [|done| | |by trans (orc w')|lia].
  - rewrite cp_fs0, lookup_insert_eq, insert_insert_eq. simpl. f_equal.
    rewrite <-(take_take_drop c (k + (n - m)) j), firstn_firstn, Nat.min_l by lia.
    replace (k + (n - m))%nat with (length (take (k + (n - m)) c)) at 2
      by (rewrite length_take; lia).
    apply splice_end.
  - by rewrite list_lookup_insert_ne.
  - by apply list_lookup_insert_eq, (lookup_lt_Some _ _ _ cp_dst0).
Qed.

(** Bytes of [c] still to be read. *)
Definition to_read (w : os) : nat :=
  (length c - match ofds w !! is_ with Some d => of_off d | None => 0 end)%nat.

(** One pass of the outer loop moves a whole chunk, or stops at the end. *)
Lemma wp_copy_step fuel k buf w :
  (BUF_SIZE < fuel)%nat -> length buf = BUF_SIZE -> cp k k w ->
  wp (copy_step fuel (Z.of_nat fs_) (Z.of_nat fd_) buf)
     (fun x w' => match x with
        | inl buf' => length buf' = BUF_SIZE /\ (exists k', cp k' k' w') /\
                      (to_read w' < to_read w)%nat
        | inr _ => cp (length c) (length c) w'
        end) partial w.
Proof.
  intros Hfuel Hbuf Hcp. destruct (cp_lookups _ _ _ Hcp) as [H1 H2].
  unfold copy_step. apply wp_bind.
  eapply wp_read; [done|apply Hcp|done|lia| |].
  { intros e o Ho. simpl. apply (wp_fail_exit k k).
    - destruct Hcp. split; simpl; try done. etrans; [|done]. rewrite Ho. by exists [AErr e].
    - exists e. apply (err_in e o). rewrite <-Ho. apply Hcp. }
  intros n o. cbv zeta. cbn [of_off of_path]. intros Ho Hn Hn0 _.
  assert (Hc : default [] (fs w !! ps) = c).
  { destruct Hcp. by rewrite cp_fs0, lookup_insert_ne, Hsrc. }
  rewrite Hc in *. rewrite length_drop in Hn.
  pose proof (cp_k _ _ _ _ _ _ _ _ _ _ _ Hcp) as Hk.
  set (w1 := set_off _ _ _ _).
  assert (Hcp1 : cp (k + n) k w1).
  { destruct Hcp. split; simpl; try done.
    - by apply list_lookup_insert_eq, (lookup_lt_Some _ _ _ cp_src0).
    - by rewrite list_lookup_insert_ne.
    - by trans (orc w). }
  destruct (Z.ltb_spec (Z.of_nat n) 0); [lia|].
  destruct (Z.eqb_spec (Z.of_nat n) 0) as [Hz|Hz].
  - wp_steps. assert (n = 0)%nat as -> by lia. rewrite Nat.add_0_r in Hcp1.
    destruct Hn0 as [Hb|Hd]; [done|done|].
    apply (f_equal length) in Hd. rewrite length_drop in Hd. simpl in Hd.
    replace (length c) with k by lia. done.
  - apply wp_bind, (wp_write_chunk n k); [done|lia| | |lia|].
    { rewrite length_app, length_take, !length_drop, Hbuf. lia. }
    { rewrite take_app_le, firstn_firstn, Nat.min_id; [done|].
      rewrite length_take, length_drop. lia. }
    intros w' Hcp'. wp_steps. split_and!.
    + rewrite length_app, length_take, !length_drop, Hbuf. lia.
    + by exists (k + n)%nat.
    + unfold to_read. rewrite (cp_src _ _ _ _ _ _ _ _ _ _ _ Hcp').
      rewrite (cp_src _ _ _ _ _ _ _ _ _ _ _ Hcp). simpl. lia.
Qed.
End copy.

(** C7: [mycpy src dst] on two different paths ends, without undefined
    behaviour, and however reads and writes are cut short the destination holds
    exactly the source's bytes, no other file changes and no descriptor leaks;
    it exits early only when a call failed, with status 0, and then the
    destination is untouched or holds a prefix of the source. *)
Theorem mycpy_copies fuel prog ps pd rest buf0 w c :
  ps <> pd -> fs w !! ps = Some c -> length buf0 = BUF_SIZE ->
  (length c + BUF_SIZE < fuel)%nat ->
  wp (main fuel (prog :: ps :: pd :: rest) buf0)
     (fun r w' => r = 0 /\ fs w' = <[pd := c]> (fs w) /\ fdt w' = fdt w)
     (fun code w' => code = 0 /\ (exists e, AErr e ∈ orc w) /\
        (fs w' = fs w \/ exists p, p `prefix_of` c /\ fs w' = <[pd := p]> (fs w))) w.
Proof.
  intros Hne Hsrc Hbuf Hfuel. unfold main. rewrite decide_False by (simpl; lia). cbn [nth].
  apply wp_bind, wp_open; [| |intros o fd1 Ho Hfd1 _].
  { intros e o Ho. wp_steps. split_and!; [done| |by left]. exists e. rewrite Ho. left. }
  { intros o Ho Hno. congruence. }
  destruct (Z.ltb_spec (Z.of_nat fd1) 0); [lia|].
  set (w1 := opened _ _ _ _).
  assert (Hfs1 : fs w1 = fs w) by (simpl; rewrite Hsrc; simpl; by rewrite insert_id).
  apply wp_bind, wp_open; [| |intros o' fd2 Ho' Hfd2 _].
  { intros e o' Ho'. eapply wp_bind, wp_close.
    - simpl. by apply lookup_insert_eq.
    - simpl. by rewrite lookup_app_r, Nat.sub_diag by done.
    - wp_steps. split_and!; [done| |left; done].
      exists e. destruct Ho as [pre ->]. simpl in Ho'. rewrite Ho', elem_of_app. right. left. }
  { intros o' Ho' Hno Hcr. by vm_compute in Hcr. }
  destruct (Z.ltb_spec (Z.of_nat fd2) 0); [lia|].
  set (w2 := opened _ _ _ _).
  assert (Hfd12 : fd1 <> fd2) by (intros ->; simpl in Hfd2; by rewrite lookup_insert_eq in Hfd2).
  assert (Hfd2' : fdt w !! fd2 = None) by (simpl in Hfd2; by rewrite lookup_insert_ne in Hfd2).
  assert (Hcp : copying w ps pd c fd1 fd2 (length (ofds w)) (S (length (ofds w))) 0 0 w2).
  { split; simpl.
    - change (<[pd := []]> (fs w1) = <[pd := []]> (fs w)). by rewrite Hfs1.
    - by rewrite length_app, Nat.add_1_r.
    - rewrite lookup_app_l, lookup_app_r, Nat.sub_diag by (rewrite ?length_app; simpl; lia). done.
    - rewrite lookup_app_r, length_app; simpl; [|rewrite length_app; simpl; lia].
      replace (S (length (ofds w)) - (length (ofds w) + 1))%nat with 0%nat by lia. done.
    - by trans o.
    - lia. }
  assert (Hdiff : length (ofds w) <> S (length (ofds w))) by lia.
  apply wp_bind. eapply wp_mono;
    [| |apply (wp_iter (fun buf w' => length buf = BUF_SIZE /\
                 exists k, copying w ps pd c fd1 fd2 (length (ofds w)) (S (length (ofds w))) k k w')
                 (fun _ => to_read c (length (ofds w)))
                 _ (fun _ w' => copying w ps pd c fd1 fd2 (length (ofds w)) (S (length (ofds w)))
                                  (length c) (length c) w') (partial w pd c))].
  - intros [] w' Hend. eapply (wp_close_both w ps pd c); [done|done|exact Hend|].
    intros w'' Hfs _ Hft. split_and!; [done| |done].
    rewrite Hfs, (cp_fs _ _ _ _ _ _ _ _ _ _ _ Hend), firstn_all. done.
  - intros code w' (? & ? & ?). split_and!; [done..|]. by right.
  - intros buf w' [Hl [k Hk]]. eapply wp_mono; [| |eapply (wp_copy_step w ps pd c); eauto; lia].
    + intros [buf'|[]] w'' Hx; [|done]. destruct Hx as (? & ? & ?). done.
    + done.
  - split; [done|]. by exists 0%nat.
  - unfold to_read. rewrite (cp_src _ _ _ _ _ _ _ _ _ _ _ Hcp). simpl. lia.
Qed.

(** A run with a short read and short writes. *)
Definition demo_os : os :=
  {| fs := {[ "a"%string := bytes "copy me"; "c"%string := bytes "other" ]};
     ofds := []; fdt := ∅; errno := 0; orc := [AFull; AFull; ALen 3; ALen 1; ALen 1; AFull] |}.

Lemma mycpy_copies_witness :
  wp (main 2100 ["mycpy"; "a"; "b"]%string (replicate BUF_SIZE x00))
     (fun r w' => r = 0 /\ fs w' = <["b"%string := bytes "copy me"]> (fs demo_os) /\
                  fdt w' = fdt demo_os)
     (fun code w' => code = 0 /\ (exists e, AErr e ∈ orc demo_os) /\
        (fs w' = fs demo_os \/
         exists p, p `prefix_of` bytes "copy me" /\ fs w' = <["b"%string := p]> (fs demo_os)))
     demo_os.
Proof.
  apply mycpy_copies; [done|reflexivity|apply length_replicate|]. vm_compute. lia.
Defined.
