(* ===== verification/Mytbf.v ===== *)
(** * Mytbf: the token-bucket library, src/signal/mytbf.c and mytbf.h

    [tab] is the table [jobs] of pointers to the buckets with the allocated
    [struct mytbf_st] objects.  The [SIGALRM] handler [handle] adds [cps] tokens
    to every bucket and sets the next alarm; an alarm goes off once, so without
    that call no further signal comes.  Signals arrive between library calls
    ([OTick]), while [mytbf_fetchtoken] is blocked in [pause()], between its
    test of the bucket and that [pause()], and between the statement that
    computes its result and the one that takes the tokens; within a statement
    they do not (a signal between the load and the store of [p->token -= r]
    would lose its tokens where the compiler emits two instructions).  A signed
    overflow, a [NULL] or dangling pointer and an index outside the table are
    faults.

    The abstract specification ([spec_step]) is a finite map from bucket
    identifiers to buckets; it says what the code does, and so leaves out the
    limit [burst] at a tick, which mytbf.h:5 promises and the handler does not
    apply ([mytbf_ticks_pass_burst]).  [mytbf_refines] shows that the library
    implements it. *)

From S2P Require Import Prelude Prog Signals Table.

Definition MAX_TBF : nat := 1024.

(** ** State *)

Record mytbf_st := MkTbf { cps : Z; burst : Z; token : Z; pos : Z }.

Record tbf := Tbf {
  tab : table mytbf_st;          (* struct mytbf_st* jobs[MAX_TBF], and what it points to *)
  inited : bool;
  func : sig_handler;            (* the saved handler *)
  disposition : sig_handler;     (* of SIGALRM, held by the kernel *)
  armed : bool;                  (* an alarm(1) is outstanding *)
  ticks : Z }.                   (* history: how many SIGALRM were delivered *)

Definition with_tab (t : table mytbf_st) (w : tbf) : tbf :=
  Tbf t (inited w) (func w) (disposition w) (armed w) (ticks w).

(** An access to [jobs] or to what it points to. *)
Definition on_tab {A} (m : M (table mytbf_st) A) : M tbf A := on tab with_tab m.

(** The state at program start. *)
Definition initial (d : sig_handler) : tbf :=
  Tbf (empty_table MAX_TBF) false SIG_DFL d false 0.

Definition set_token (t : Z) (v : mytbf_st) : mytbf_st := MkTbf (cps v) (burst v) t (pos v).

(** ** The library *)

(** [p->token += d] *)
Definition add_token (p : option nat) (d : mytbf_st -> Z) : M (table mytbf_st) unit :=
  v ← deref p; t ← int_ (token v + d v); store p (set_token t v).

Definition alarm1 : M tbf unit :=
  modify (fun w => Tbf (tab w) (inited w) (func w) (disposition w) true (ticks w)).

Definition handle : M tbf unit :=
  alarm1 ;;
  on_tab (for_ MAX_TBF 0 (fun i =>
    p ← slot_at (Z.of_nat i);
    match p with
    | None => mret tt
    | Some _ => add_token p cps
    end)).

(** [signal(SIGALRM, h)] *)
Definition signal (h : sig_handler) : M tbf sig_handler :=
  w ← get;
  put (Tbf (tab w) (inited w) (func w) h (armed w) (ticks w)) ;; mret (disposition w).

Definition mytbf_load : M tbf unit :=
  w ← get;
  if inited w then mret tt else
  modify (fun w => Tbf (tab w) true (func w) (disposition w) (armed w) (ticks w)) ;;
  alarm1 ;;
  old ← signal H_handle;
  modify (fun w => Tbf (tab w) (inited w) old (disposition w) (armed w) (ticks w)).

Definition mytbf_unload : M tbf unit :=
  w ← get;
  if negb (inited w) then mret tt else
  modify (fun w => Tbf (tab w) false (func w) (disposition w) (armed w) (ticks w)) ;;
  (if decide (func w = SIG_DFL) then mret tt else _ ← signal (func w); mret tt) ;;
  modify (fun w => Tbf (tab w) (inited w) SIG_DFL (disposition w) (armed w) (ticks w)) ;;
  on_tab (for_ MAX_TBF 0 (fun i => p ← slot_at (Z.of_nat i); free p)).

(** [#define MIN(x, y) (x < y ? x : y)] *)
Definition MIN (x y : Z) : Z := if x <? y then x else y.

Definition get_pos : M (table mytbf_st) Z := first_free MAX_TBF.

Definition mytbf_init (malloc_ok : bool) (garbage : mytbf_st) (cps_ burst_ : Z) : M tbf Z :=
  mytbf_load ;;
  on_tab (
    m ← malloc malloc_ok garbage;
    match m with
    | None => mret (-1)
    | Some _ =>
        i ← get_pos;
        if i <? 0 then mret (-1) else
        store m (MkTbf cps_ burst_ 0 i) ;;
        set_slot i m ;;
        mret i
    end).

Definition mytbf_returntoken (id tok : Z) : M tbf Z :=
  on_tab (
    p ← slot_at id;
    add_token p (fun _ => tok) ;;
    v ← deref p;
    store p (set_token (MIN (token v) (burst v)) v) ;;
    mret tok).

(** The kernel delivers the [SIGALRM] of the outstanding alarm.  An alarm goes
    off once: it is spent before the handler runs. *)
Definition deliver : M tbf unit :=
  modify (fun w => Tbf (tab w) (inited w) (func w) (disposition w) false (ticks w + 1)) ;;
  handle.

(** The time until the outstanding alarm passes.  Without an alarm nothing
    happens; a signal that does not find the library's handler (it would end the
    process, or run code of the client's) has no result here. *)
Definition tick : M tbf unit :=
  w ← get;
  if armed w then
    if decide (disposition w = H_handle) then deliver else (fun w => OutOfFuel w)
  else mret tt.

Fixpoint tick_n (n : nat) : M tbf unit :=
  match n with O => mret tt | S n' => tick ;; tick_n n' end.

(** [pause()] returns after a caught signal: here, after the handler ran for
    the outstanding alarm.  With no alarm it does not return. *)
Definition pause : M tbf unit :=
  w ← get;
  if armed w then tick else (fun w => OutOfFuel w).

(** [while(p->token == 0) pause();], where [late] signals arrive between the
    test and the [pause]. *)
Definition wait_token (fuel late : nat) (p : option nat) : M tbf unit :=
  iter fuel (fun _ : unit =>
    v ← on_tab (deref p);
    if token v =? 0 then tick_n late ;; pause ;; mret (inl tt) else mret (inr tt)) tt.

(** [mid] signals arrive between [int r = ...] and [p->token -= r]. *)
Definition mytbf_fetchtoken (fuel late mid : nat) (id tok : Z) : M tbf Z :=
  p ← on_tab (slot_at id);
  wait_token fuel late p ;;
  v ← on_tab (deref p);
  let r := MIN (token v) tok in
  tick_n mid ;;
  on_tab (
    v ← deref p;
    t ← int_ (token v - r);
    store p (set_token t v) ;;
    mret r).

Definition mytbf_destroy (id : Z) : M tbf Z :=
  on_tab (
    p ← slot_at id;
    v ← deref p;
    set_slot (pos v) None ;;
    free p ;;
    mret 1).

(** ** Abstract specification *)

(** A bucket: its rate, its limit and its tokens.  The limit is applied when
    tokens are returned and not at a tick: the specification follows the code,
    where mytbf.h:5 calls [burst] the upper bound of the tokens. *)
Record bucket := Bkt { b_cps : Z; b_burst : Z; b_tok : Z }.

#[export] Instance bucket_eq_dec : EqDecision bucket.
Proof. solve_decision. Defined.

Lemma Bkt_tok_eq c b t t' : t = t' -> Bkt c b t = Bkt c b t'.
Proof. by intros ->. Qed.

Definition bk (v : mytbf_st) : bucket := Bkt (cps v) (burst v) (token v).
Definition b_add (d : Z) (b : bucket) : bucket := Bkt (b_cps b) (b_burst b) (b_tok b + d).
Definition b_tick (b : bucket) : bucket := b_add (b_cps b) b.

(** The operations of the library, and the tick of the clock. *)
Inductive op :=
| OInit (malloc_ok : bool) (c b : Z)
| OTick
| OReturn (id t : Z)
| OFetch (id t : Z) (late mid : nat)
| ODestroy (id : Z).

Definition b_at (id : Z) (m : gmap nat bucket) : option bucket :=
  if id <? 0 then None else m !! Z.to_nat id.

(** Every bucket gains its [cps]; undefined when one would overflow. *)
Definition spec_tick (m : gmap nat bucket) : option (gmap nat bucket) :=
  if bool_decide (map_Forall (fun _ b => in_int (b_tok b + b_cps b) = true) m)
  then Some (b_tick <$> m) else None.

Fixpoint spec_ticks (n : nat) (m : gmap nat bucket) : option (gmap nat bucket) :=
  match n with O => Some m | S n' => m' ← spec_tick m; spec_ticks n' m' end.

Definition free_id (m : gmap nat bucket) : option nat :=
  find_idx (fun i => bool_decide (m !! i = None)) (seq 0 MAX_TBF).

Definition spec_step (o : op) (m : gmap nat bucket) : option (Z * gmap nat bucket) :=
  match o with
  | OInit false _ _ => Some (-1, m)
  | OInit true c b =>
      match free_id m with
      | Some i => Some (Z.of_nat i, <[i := Bkt c b 0]> m)
      | None => Some (-1, m)
      end
  | OTick => m' ← spec_tick m; Some (0, m')
  | OReturn id t =>
      b ← b_at id m;
      if in_int (b_tok b + t)
      then Some (t, <[Z.to_nat id := Bkt (b_cps b) (b_burst b) (Z.min (b_tok b + t) (b_burst b))]> m)
      else None
  | OFetch id t late mid =>
      b ← b_at id m;
      m1 ← (if b_tok b =? 0 then if b_cps b =? 0 then None else spec_ticks (S late) m else Some m);
      b1 ← m1 !! Z.to_nat id;
      let r := Z.min (b_tok b1) t in
      m2 ← spec_ticks mid m1;
      b2 ← m2 !! Z.to_nat id;
      if in_int (b_tok b2 - r) then Some (r, <[Z.to_nat id := b_add (- r) b2]> m2) else None
  | ODestroy id => _ ← b_at id m; Some (1, delete (Z.to_nat id) m)
  end.

(** The library call of an operation.  [fuel] bounds the [pause] loop. *)
Definition impl_step (fuel : nat) (garbage : mytbf_st) (o : op) : M tbf Z :=
  match o with
  | OInit ok c b => mytbf_init ok garbage c b
  | OTick => tick ;; mret 0
  | OReturn id t => mytbf_returntoken id t
  | OFetch id t late mid => mytbf_fetchtoken fuel late mid id t
  | ODestroy id => mytbf_destroy id
  end.

(** Sequences of operations, with their results. *)
Fixpoint spec_run (os : list op) (m : gmap nat bucket) : option (list Z * gmap nat bucket) :=
  match os with
  | [] => Some ([], m)
  | o :: os' =>
      '(r, m1) ← spec_step o m; '(rs, m2) ← spec_run os' m1; Some (r :: rs, m2)
  end.

Fixpoint impl_run (fuel : nat) (garbage : mytbf_st) (os : list op) : M tbf (list Z) :=
  match os with
  | [] => mret []
  | o :: os' => r ← impl_step fuel garbage o; rs ← impl_run fuel garbage os'; mret (r :: rs)
  end.

(** ** Invariant and abstraction *)

(** The table is well formed; once the library is loaded the handler is
    installed and an alarm is set; before that it holds no bucket and has set no
    alarm. *)
Record wf (w : tbf) : Prop := {
  wf_tab : twf MAX_TBF pos (tab w);
  wf_sig : inited w = true -> disposition w = H_handle /\ armed w = true;
  wf_idle : inited w = false -> armed w = false;
  wf_load : inited w = false -> forall i, view (tab w) i = None }.

Definition absr (w : tbf) (m : gmap nat bucket) : Prop :=
  forall i, m !! i = bk <$> view (tab w) i.

Lemma wf_initial d : wf (initial d).
Proof. split; [apply twf_empty|done|done|]. intros _ i. apply view_empty. Qed.

Lemma absr_initial d : absr (initial d) ∅.
Proof. intros i. rewrite lookup_empty. cbn [initial tab]. by rewrite view_empty. Qed.

(** ** Each operation implements its specification *)

Section operations.
Implicit Types (w : tbf) (m : gmap nat bucket).

Definition v_tick (v : mytbf_st) : mytbf_st := set_token (token v + cps v) v.

Lemma wp_add_token l v d (Q : unit -> table mytbf_st -> Prop) E t :
  objs t !! l = Some v -> in_int (token v + d v) = true ->
  Q tt (Table (slots t) (<[l := set_token (token v + d v) v]> (objs t))) ->
  wp (add_token (Some l) d) Q E t.
Proof.
  intros Hl Hin HQ. unfold add_token. apply wp_bind. eapply wp_deref; [done|].
  apply wp_bind, wp_int; [by apply in_int_spec|]. by eapply wp_store.
Qed.

(** A well-formed table stays so under any change that keeps [inited]. *)
Lemma wf_with_tab w t : wf w -> inited w = true -> twf MAX_TBF pos t -> wf (with_tab t w).
Proof. intros Hwf Hi Ht. split; [done|apply Hwf|apply Hwf|]. simpl. congruence. Qed.

Lemma wf_live w i v : wf w -> view (tab w) i = Some v -> inited w = true.
Proof. intros Hwf Hv. destruct (inited w) eqn:Ei; [done|]. by rewrite (wf_load w Hwf Ei i) in Hv. Qed.

(** The scan of the handler ticks every bucket of the table. *)
Lemma wp_scan (E : Z -> table mytbf_st -> Prop) t :
  twf MAX_TBF pos t -> (forall i v, view t i = Some v -> in_int (token v + cps v) = true) ->
  wp (for_ MAX_TBF 0 (fun i =>
        p ← slot_at (Z.of_nat i);
        match p with None => mret tt | Some _ => add_token p cps end))
     (fun _ t' => twf MAX_TBF pos t' /\ slots t' = slots t /\
                  forall j, view t' j = v_tick <$> view t j) E t.
Proof.
  intros Hwf Hin. eapply wp_mono; [|intros ? ? H; exact H|
    apply (wp_for (fun i t' => twf MAX_TBF pos t' /\ slots t' = slots t /\
       forall j, view t' j = (if decide (j < i)%nat then v_tick else id) <$> view t j) E)].
  - intros [] t' (? & ? & Hv). split_and!; [done..|]. intros j.
    rewrite Hv. destruct (view t j) as [v|] eqn:Ej; [|done].
    eapply view_bound in Ej; [|done]. by rewrite decide_True.
  - intros i t' Hi (Hwf' & Hs & Hv).
    apply wp_bind. eapply wp_slot_at; [done|lia|]. intros [l|] Hp.
    + destruct (twf_slot _ _ t' i l Hwf' Hp) as (v & Hl & Hvi & Hpos).
      assert (Hvi' : view t i = Some v)
        by (rewrite Hv, decide_False in Hvi by lia; by destruct (view t i); simplify_eq/=).
      eapply wp_add_token; [done|by eapply Hin|].
      destruct (twf_store MAX_TBF pos t' i l (v_tick v)) as [Hwf2 Hv2]; [done..|].
      split_and!; [done..|]. intros j. rewrite Hv2. case_decide; subst.
      * rewrite decide_True by lia. by rewrite Hvi'.
      * rewrite Hv. by repeat case_decide; try lia.
    + wp_steps. split_and!; [done..|]. intros j. rewrite Hv.
      destruct (decide (j = i)) as [->|]; [|by repeat case_decide; try lia].
      rewrite Hs in Hp. by rewrite (view_free t i Hp).
  - split_and!; [done..|]. intros j. rewrite decide_False by lia. by destruct (view t j).
Qed.

(** A delivered signal ticks every bucket, and the handler sets the next alarm. *)
Lemma wp_deliver (Q : unit -> tbf -> Prop) E w :
  wf w -> inited w = true ->
  (forall i v, view (tab w) i = Some v -> in_int (token v + cps v) = true) ->
  (forall w', wf w' -> inited w' = true -> slots (tab w') = slots (tab w) ->
     ticks w' = ticks w + 1 ->
     (forall j, view (tab w') j = v_tick <$> view (tab w) j) -> Q tt w') ->
  wp deliver Q E w.
Proof.
  intros Hwf Hi Hin HQ. unfold deliver, handle, alarm1, on_tab. wp_steps. cbn [tab].
  eapply wp_mono; [|intros ? ? H; exact H|by apply wp_scan; [apply wf_tab|]].
  intros [] t' (Ht & Hs & Hv). apply HQ; [|done..]. destruct (wf_sig w Hwf Hi).
  split; [done|done|simpl; congruence..].
Qed.

Lemma absr_in_int w m i v :
  absr w m -> map_Forall (fun _ b => in_int (b_tok b + b_cps b) = true) m ->
  view (tab w) i = Some v -> in_int (token v + cps v) = true.
Proof. intros Ha Hf Hv. apply (Hf i (bk v)). by rewrite (Ha i), Hv. Qed.

Lemma spec_tick_Some m m' : spec_tick m = Some m' ->
  map_Forall (fun _ b => in_int (b_tok b + b_cps b) = true) m /\ m' = b_tick <$> m.
Proof. unfold spec_tick. case_bool_decide; intros; by simplify_eq. Qed.

Lemma spec_ticks_S_r n m : spec_ticks (S n) m = m' ← spec_ticks n m; spec_tick m'.
Proof.
  revert m. induction n as [|n IH]; intros m; cbn [spec_ticks mbind option_bind].
  - by destruct (spec_tick m).
  - destruct (spec_tick m) as [m1|]; [|done]. apply IH.
Qed.

Lemma spec_ticks_lookup n m m' i :
  spec_ticks n m = Some m' -> m' !! i = (fun b => b_add (Z.of_nat n * b_cps b) b) <$> m !! i.
Proof.
  revert m. induction n as [|n IH]; intros m Hs; cbn [spec_ticks] in Hs.
  - simplify_eq. destruct (m' !! i) as [[]|]; [|done]. unfold b_add; cbn; by rewrite Z.add_0_r.
  - apply bind_Some in Hs as (m1 & [_ ->]%spec_tick_Some & Hs). rewrite (IH _ Hs), lookup_fmap.
    destruct (m !! i) as [[c b t]|]; [|done]. unfold b_tick, b_add. cbn [fmap option_fmap option_map].
    cbn [b_cps b_burst b_tok]. f_equal. apply Bkt_tok_eq. lia.
Qed.

Lemma spec_ticks_add n k m : spec_ticks (n + k) m = m' ← spec_ticks n m; spec_ticks k m'.
Proof.
  revert m. induction n as [|n IH]; intros m; cbn [Nat.add spec_ticks mbind option_bind]; [done|].
  destruct (spec_tick m) as [m1|]; [apply IH|done].
Qed.

(** No tick that the specification defines overflows. *)
Lemma spec_ticks_bound n m m' i b :
  spec_ticks (S n) m = Some m' -> m !! i = Some b ->
  INT_MIN <= b_tok b + Z.of_nat (S n) * b_cps b <= INT_MAX.
Proof.
  rewrite spec_ticks_S_r. intros (m1 & H1 & [Hf _]%spec_tick_Some)%bind_Some Hb.
  pose proof (spec_ticks_lookup n m m1 i H1) as Hb1. rewrite Hb in Hb1.
  specialize (Hf i _ Hb1). apply in_int_spec in Hf. cbn [b_add b_tok b_cps] in Hf. lia.
Qed.

Lemma absr_tick w w' m : absr w m -> (forall j, view (tab w') j = v_tick <$> view (tab w) j) ->
  absr w' (b_tick <$> m).
Proof. intros Ha Hv i. rewrite lookup_fmap, Ha, Hv. by destruct (view (tab w) i). Qed.

(** [jobs[id]] for a live bucket. *)
Lemma b_at_view w m id b :
  wf w -> absr w m -> b_at id m = Some b ->
  exists i l v, id = Z.of_nat i /\ (i < MAX_TBF)%nat /\ slots (tab w) !! i = Some (Some l) /\
    objs (tab w) !! l = Some v /\ pos v = Z.of_nat i /\ view (tab w) i = Some v /\ bk v = b /\
    inited w = true.
Proof.
  intros Hwf Ha. unfold b_at. destruct (Z.ltb_spec id 0); [done|].
  rewrite (Ha (Z.to_nat id)). intros (v & Hv & ->)%fmap_Some.
  destruct (twf_view _ _ _ _ _ (wf_tab w Hwf) Hv) as (l & Hj & Hl & Hp & Hb).
  exists (Z.to_nat id), l, v. split_and!; try done; [lia|by eapply wf_live].
Qed.

Lemma absr_insert w w' m i v' :
  absr w m -> (forall j, view (tab w') j = if decide (j = i) then Some v' else view (tab w) j) ->
  absr w' (<[i := bk v']> m).
Proof.
  intros Ha Hv j. rewrite Hv. case_decide; subst; simplify_map_eq; [done|apply Ha].
Qed.

(** What a call has to establish: the specified result, and a well-formed
    state that represents the specified map, [n] ticks later. *)
Definition post (w0 : tbf) (n : Z) (r : Z) (m : gmap nat bucket) (r' : Z) (w : tbf) : Prop :=
  r' = r /\ wf w /\ absr w m /\ ticks w = ticks w0 + n.

Lemma wp_returntoken id t m r m' E w :
  wf w -> absr w m -> spec_step (OReturn id t) m = Some (r, m') ->
  wp (mytbf_returntoken id t) (post w 0 r m') E w.
Proof.
  intros Hwf Ha. simpl. intros (b & Hb & Hs)%bind_Some.
  destruct (in_int (b_tok b + t)) eqn:Hin; simplify_eq.
  destruct (b_at_view w m id b Hwf Ha Hb) as (i & l & v & -> & Hi & Hj & Hl & Hp & Hv & <- & Hini).
  unfold mytbf_returntoken, on_tab. wp_steps.
  eapply wp_slot_at; [apply wf_tab, Hwf|done|]. intros p ?; simplify_eq.
  apply wp_bind. eapply wp_add_token; [done|done|].
  destruct (twf_store MAX_TBF pos (tab w) i l (set_token (token v + r) v)) as [Hwf1 Hv1];
    [apply wf_tab, Hwf|done..|].
  apply wp_bind. eapply wp_deref; [apply lookup_insert_eq|].
  apply wp_bind. eapply wp_store; [apply lookup_insert_eq|]. wp_steps.
  destruct (twf_store MAX_TBF pos _ i l (set_token (MIN (token v + r) (burst v)) v) Hwf1)
    as [Hwf2 Hv2]; [done..|].
  split_and!; [done|by apply wf_with_tab| |simpl; lia]. rewrite Nat2Z.id.
  replace (Bkt _ _ _) with (bk (set_token (MIN (token v + r) (burst v)) v)).
  - apply (absr_insert w); [done|]. intros j. cbn [with_tab tab]. rewrite Hv2, Hv1. by case_decide.
  - unfold bk, MIN. simpl. f_equal. bool_cases; lia.
Qed.

Lemma wp_destroy id m r m' E w :
  wf w -> absr w m -> spec_step (ODestroy id) m = Some (r, m') ->
  wp (mytbf_destroy id) (post w 0 r m') E w.
Proof.
  intros Hwf Ha. simpl. intros (b & Hb & Hs)%bind_Some. simplify_eq.
  destruct (b_at_view w m id b Hwf Ha Hb) as (i & l & v & -> & Hi & Hj & Hl & Hp & Hv & <- & Hini).
  unfold mytbf_destroy, on_tab. wp_steps.
  eapply wp_slot_at; [apply wf_tab, Hwf|done|]. intros p ?; simplify_eq.
  apply wp_bind. eapply wp_deref; [done|]. apply wp_bind. rewrite Hp.
  eapply wp_set_slot; [done|]. apply wp_bind. eapply wp_free; [done|]. wp_steps.
  destruct (twf_remove MAX_TBF pos (tab w) i l (wf_tab w Hwf) Hj) as [Hwf' Hv'].
  split_and!; [done|by apply wf_with_tab| |simpl; lia].
  intros j. cbn [with_tab tab]. rewrite Hv', lookup_delete, Nat2Z.id, (Ha j).
  by repeat case_decide; try congruence.
Qed.

(** What [n] signals leave of a loaded library. *)
Record ticked (w : tbf) (n : nat) (m : gmap nat bucket) (w' : tbf) : Prop := {
  tk_wf : wf w';
  tk_inited : inited w' = true;
  tk_absr : absr w' m;
  tk_slots : slots (tab w') = slots (tab w);
  tk_ticks : ticks w' = ticks w + Z.of_nat n }.

Lemma ticked_0 w m : wf w -> inited w = true -> absr w m -> ticked w 0 m w.
Proof. intros. split; try done. lia. Qed.

Lemma ticked_trans w n m w1 n1 m1 w2 :
  ticked w n m w1 -> ticked w1 n1 m1 w2 -> ticked w (n + n1) m1 w2.
Proof. intros [] []. split; try done; [congruence|lia]. Qed.

Lemma wp_tick m m' E w :
  wf w -> inited w = true -> absr w m -> spec_tick m = Some m' ->
  wp tick (fun _ => ticked w 1 m') E w.
Proof.
  intros Hwf Hi Ha [Hf ->]%spec_tick_Some. destruct (wf_sig w Hwf Hi) as [Hd Har].
  unfold tick. wp_steps. rewrite Har, decide_True by done. apply wp_deliver; [done|done| |].
  - intros. by eapply absr_in_int.
  - intros w1 ? ? ? ? ?. split; try done. by eapply absr_tick.
Qed.

Lemma wp_tick_n n m m' E w :
  wf w -> inited w = true -> absr w m -> spec_ticks n m = Some m' ->
  wp (tick_n n) (fun _ => ticked w n m') E w.
Proof.
  revert m w. induction n as [|n IH]; intros m w Hwf Hi Ha Hs; cbn [spec_ticks tick_n] in *.
  - wp_steps. simplify_eq. by apply ticked_0.
  - apply bind_Some in Hs as (m1 & H1 & Hs). apply wp_bind.
    eapply wp_mono; [|intros ? ? H; exact H|by eapply wp_tick]. intros [] w1 Ht1.
    eapply wp_mono; [|intros ? ? H; exact H|eapply IH; [apply Ht1..|done]].
    intros [] w2 Ht2. by apply (ticked_trans w 1 m1 w1).
Qed.

(** The object of a live bucket after some signals. *)
Lemma ticked_obj w n m w' i l b :
  ticked w n m w' -> slots (tab w) !! i = Some (Some l) -> m !! i = Some b ->
  exists v, objs (tab w') !! l = Some v /\ bk v = b /\ pos v = Z.of_nat i.
Proof.
  intros [Hwf _ Ha Hs _] Hj Hb. rewrite (Ha i) in Hb. apply fmap_Some in Hb as (v & Hv & ->).
  destruct (twf_view _ _ _ _ _ (wf_tab w' Hwf) Hv) as (l1 & Hl & Ho & Hp & _).
  rewrite Hs in Hl. simplify_eq. by exists v.
Qed.

(** The waiting loop is over after one [pause], however many signals came
    before it. *)
Lemma wp_wait_token fuel late i l v m m1 E w :
  (2 <= fuel)%nat -> wf w -> inited w = true -> absr w m ->
  slots (tab w) !! i = Some (Some l) -> objs (tab w) !! l = Some v -> view (tab w) i = Some v ->
  (if token v =? 0 then if cps v =? 0 then None else spec_ticks (S late) m else Some m) = Some m1 ->
  wp (wait_token fuel late (Some l))
     (fun _ => ticked w (if token v =? 0 then S late else 0) m1) E w.
Proof.
  intros Hfuel Hwf Hi Ha Hj Hl Hv Hm1. unfold wait_token, on_tab.
  destruct fuel as [|[|fuel]]; [lia..|].
  apply wp_iter_S, wp_bind, wp_on. eapply wp_deref; [done|].
  replace (with_tab (tab w) w) with w by (by destruct w).
  destruct (Z.eqb_spec (token v) 0) as [H0|H0]; [|wp_steps; simplify_eq; by apply ticked_0].
  destruct (Z.eqb_spec (cps v) 0) as [|Hc]; [done|].
  pose proof (spec_ticks_lookup _ _ _ i Hm1) as Hb. rewrite (Ha i), Hv in Hb.
  rewrite spec_ticks_S_r in Hm1. apply bind_Some in Hm1 as (m2 & H2 & H1).
  apply wp_bind. eapply wp_mono; [|intros ? ? H; exact H|by eapply wp_tick_n]. intros [] w1 Ht1.
  unfold pause. wp_steps. rewrite (proj2 (wf_sig w1 (tk_wf _ _ _ _ Ht1) (tk_inited _ _ _ _ Ht1))).
  eapply wp_mono; [|intros ? ? H; exact H|eapply wp_tick; [apply Ht1..|done]]. intros [] w2 Ht2.
  pose proof (ticked_trans _ _ _ _ _ _ _ Ht1 Ht2) as Ht. rewrite Nat.add_1_r in Ht.
  destruct (ticked_obj _ _ _ _ i l _ Ht Hj Hb) as (v2 & Hl2 & Hbk & _).
  apply wp_ret, wp_iter_S, wp_bind, wp_on. eapply wp_deref; [done|].
  apply (f_equal b_tok) in Hbk. cbn [bk b_tok b_add b_cps] in Hbk.
  destruct (Z.eqb_spec (token v2) 0); [nia|]. wp_steps.
  by replace (with_tab (tab w2) w2) with w2 by (by destruct w2).
Qed.

(** How many signals arrive during a fetch. *)
Definition fetch_ticks (b : bucket) (late mid : nat) : nat :=
  (if b_tok b =? 0 then S late else 0) + mid.

Lemma wp_fetchtoken fuel id t late mid m b r m' E w :
  (2 <= fuel)%nat -> wf w -> absr w m -> b_at id m = Some b ->
  spec_step (OFetch id t late mid) m = Some (r, m') ->
  wp (mytbf_fetchtoken fuel late mid id t)
     (post w (Z.of_nat (fetch_ticks b late mid)) r m') E w.
Proof.
  intros Hfuel Hwf Ha Hb. cbn [spec_step]. rewrite Hb. cbn [mbind option_bind].
  intros (m1 & Hm1 & (b1 & Hb1 & (m2 & Hm2 & (b2 & Hb2 & Hs)%bind_Some)%bind_Some)%bind_Some)%bind_Some.
  destruct (in_int _) eqn:Hin; simplify_eq.
  destruct (b_at_view w m id b Hwf Ha Hb) as (i & l & v & -> & Hi & Hj & Hl & Hp & Hv & <- & Hini).
  rewrite Nat2Z.id in *.
  unfold mytbf_fetchtoken. apply wp_bind, wp_on. eapply wp_slot_at; [apply wf_tab, Hwf|done|].
  intros p ?; simplify_eq. replace (with_tab (tab w) w) with w by (by destruct w).
  apply wp_bind. eapply wp_mono; [|intros ? ? H; exact H|by eapply wp_wait_token].
  intros [] w1 Ht1. destruct (ticked_obj _ _ _ _ i l b1 Ht1 Hj Hb1) as (v1 & Hl1 & <- & _).
  apply wp_bind, wp_on. eapply wp_deref; [done|]. cbv zeta.
  replace (with_tab (tab w1) w1) with w1 by (by destruct w1).
  assert (HM : MIN (token v1) t = Z.min (b_tok (bk v1)) t) by (unfold MIN; simpl; bool_cases; lia).
  rewrite HM. apply wp_bind.
  eapply wp_mono; [|intros ? ? H; exact H|eapply wp_tick_n; [apply Ht1..|done]]. intros [] w2 Ht2.
  pose proof (ticked_trans _ _ _ _ _ _ _ Ht1 Ht2) as Ht.
  destruct (ticked_obj _ _ _ _ i l b2 Ht Hj Hb2) as (v2 & Hl2 & <- & Hp2).
  apply wp_on, wp_bind. eapply wp_deref; [done|]. apply wp_bind, wp_int; [by apply in_int_spec|].
  apply wp_bind. eapply wp_store; [done|]. wp_steps.
  set (v3 := set_token _ v2).
  destruct (twf_store MAX_TBF pos (tab w2) i l v3) as [Hwf3 Hv3];
    [apply wf_tab, Ht|by rewrite (tk_slots _ _ _ _ Ht)|done|].
  split_and!; [done|apply wf_with_tab; [apply Ht|apply Ht|done]| |
    cbn [with_tab ticks]; by rewrite (tk_ticks _ _ _ _ Ht)].
  replace (b_add _ _) with (bk v3) by done. apply (absr_insert w2); [apply Ht|done].
Qed.

Lemma wp_load (Q : unit -> tbf -> Prop) E w :
  wf w ->
  (forall w', wf w' -> inited w' = true -> tab w' = tab w -> ticks w' = ticks w -> Q tt w') ->
  wp mytbf_load Q E w.
Proof.
  intros Hwf HQ. unfold mytbf_load. wp_steps. destruct (inited w) eqn:Ei.
  - wp_steps. by apply HQ.
  - unfold alarm1, signal. wp_steps. apply HQ; [|done..].
    by split; [apply Hwf|..].
Qed.

Lemma wp_init fuel garbage ok c b m r m' E w :
  wf w -> absr w m -> spec_step (OInit ok c b) m = Some (r, m') ->
  wp (impl_step fuel garbage (OInit ok c b)) (post w 0 r m') E w.
Proof.
  intros Hwf Ha Hs. cbn [impl_step]. unfold mytbf_init, on_tab.
  apply wp_bind, wp_load; [done|]. intros w1 Hwf1 Hini Hj1 Ht1.
  assert (Ha1 : absr w1 m) by (intros i; by rewrite (Ha i), Hj1).
  cbn [spec_step] in Hs. apply wp_on, wp_bind. destruct ok.
  2: { simplify_eq. unfold malloc. wp_steps. split_and!; [done|by apply wf_with_tab, Hwf1|done|simpl; lia]. }
  eapply wp_malloc; [apply wf_tab, Hwf1|]. intros l t -> Hwf2 Hv2 Hl.
  apply wp_bind. unfold get_pos. eapply (wp_first_free _ _ m bk); [done|intros i; by rewrite Hv2|].
  fold (free_id m).
  destruct (free_id m) as [i|] eqn:Ei; simplify_eq.
  2: { wp_steps. split_and!; [done|by apply wf_with_tab| |simpl; lia].
       intros j. cbn [with_tab tab]. by rewrite Hv2. }
  destruct (Z.ltb_spec (Z.of_nat i) 0); [lia|].
  assert (Hi : (i < MAX_TBF)%nat) by (apply find_idx_lt in Ei; by rewrite length_seq in Ei).
  apply wp_bind. eapply wp_store; [apply lookup_insert_eq|]. cbn [objs slots].
  destruct (lookup_lt_is_Some_2 (slots (tab w1)) i) as [q Hq];
    [by rewrite (twf_len _ _ _ (wf_tab w1 Hwf1))|].
  apply wp_bind. eapply wp_set_slot; [done|]. wp_steps. cbn [objs slots].
  destruct (twf_add MAX_TBF pos _ i l (MkTbf c b 0 (Z.of_nat i)) Hwf2 Hi Hl eq_refl) as [Hwf3 Hv3].
  cbn [objs slots] in *. split_and!; [done|by apply wf_with_tab| |simpl; lia].
  change (Bkt c b 0) with (bk (MkTbf c b 0 (Z.of_nat i))). apply (absr_insert w); [done|].
  intros j. cbn [with_tab tab]. rewrite Hv3, Hv2, Hj1. done.
Qed.
End operations.

(** One call, and a sequence of calls. *)
Lemma impl_step_ok fuel garbage o m r m' E w :
  (2 <= fuel)%nat -> wf w -> absr w m -> spec_step o m = Some (r, m') ->
  wp (impl_step fuel garbage o) (fun r' w' => r' = r /\ wf w' /\ absr w' m') E w.
Proof.
  intros Hfuel Hwf Ha Hs. destruct o as [ok c b| |id t|id t late mid|id].
  2: { cbn [spec_step] in Hs. apply bind_Some in Hs as (m1 & Hs & ?). simplify_eq.
       cbn [impl_step]. apply wp_bind. destruct (inited w) eqn:Hi.
       - eapply wp_mono; [|intros ? ? H; exact H|by eapply wp_tick]. intros [] w1 []. by wp_steps.
       - unfold tick. wp_steps. rewrite (wf_idle w Hwf Hi). wp_steps.
         apply spec_tick_Some in Hs as [_ ->]. split_and!; [done..|].
         apply (absr_tick w); [done|]. intros j. by rewrite (wf_load w Hwf Hi). }
  all: assert (Hweak : forall n r' w', post w n r m' r' w' -> r' = r /\ wf w' /\ absr w' m')
    by (intros ? ? ? (? & ? & ? & _); done).
  - eapply wp_mono; [intros ? ?; apply Hweak|done|by eapply wp_init].
  - eapply wp_mono; [intros ? ?; apply Hweak|done|by eapply wp_returntoken].
  - assert (exists b, b_at id m = Some b) as [b Hb]
      by (cbn [spec_step] in Hs; apply bind_Some in Hs as (b & ? & _); by exists b).
    eapply wp_mono; [intros ? ?; apply Hweak|done|by eapply wp_fetchtoken].
  - eapply wp_mono; [intros ? ?; apply Hweak|done|by eapply wp_destroy].
Qed.

Lemma impl_run_ok fuel garbage os m rs m' E w :
  (2 <= fuel)%nat -> wf w -> absr w m -> spec_run os m = Some (rs, m') ->
  wp (impl_run fuel garbage os) (fun rs' w' => rs' = rs /\ wf w' /\ absr w' m') E w.
Proof.
  intros Hfuel. revert m rs w. induction os as [|o os IH]; intros m rs w Hwf Ha Hs; simpl in *.
  - wp_steps. by simplify_eq.
  - apply bind_Some in Hs as ([r m1] & Ho & ([rs1 m2] & Hos & Heq)%bind_Some). simplify_eq.
    apply wp_bind. eapply wp_mono; [|done|by eapply impl_step_ok].
    intros r' w1 (-> & Hwf1 & Ha1). apply wp_bind. eapply wp_mono; [|done|by eapply IH].
    intros rs' w2 (-> & ? & ?). by wp_steps.
Qed.

(** C1: The library implements its specification: from program start, for every
    sequence of calls and clock ticks the specification allows (live
    identifiers, no signed overflow, no wait on a bucket that never fills), with
    any number of signals between the test and the [pause] of a fetch and before
    it takes the tokens, the calls return what the specification says, nothing
    faults or blocks for ever, every table entry stays a valid bucket, the next
    alarm is always set, and the final table represents the specified map.  The
    specification follows the code: a tick adds [cps] and ignores [burst]. *)
Theorem mytbf_refines fuel garbage d ops rs m :
  (2 <= fuel)%nat -> spec_run ops ∅ = Some (rs, m) ->
  wp (impl_run fuel garbage ops) (fun rs' w => rs' = rs /\ wf w /\ absr w m)
     (fun _ _ => False) (initial d).
Proof.
  intros Hfuel Hs. eapply impl_run_ok; [done|apply wf_initial|apply absr_initial|done].
Qed.


(** ** Consequences *)

Lemma spec_tick_one (i : nat) c b t :
  in_int (t + c) = true -> spec_tick {[i := Bkt c b t]} = Some {[i := Bkt c b (t + c)]}.
Proof.
  intros Hin. unfold spec_tick. rewrite bool_decide_true.
  - by rewrite map_fmap_singleton.
  - by apply map_Forall_singleton.
Qed.

Lemma spec_run_app ops1 ops2 m rs1 m1 rs2 m2 :
  spec_run ops1 m = Some (rs1, m1) -> spec_run ops2 m1 = Some (rs2, m2) ->
  spec_run (ops1 ++ ops2) m = Some (rs1 ++ rs2, m2).
Proof.
  revert m rs1. induction ops1 as [|o ops1 IH]; intros m rs1 H1 H2; simplify_eq/=; [done|].
  apply bind_Some in H1 as ([r m3] & -> & ([rs3 m4] & H3 & H4)%bind_Some). simplify_eq/=.
  by rewrite (IH m3 rs3 H3 H2).
Qed.

Lemma spec_run_ticks n i c b t :
  0 <= c -> 0 <= t -> t + Z.of_nat n * c <= INT_MAX ->
  spec_run (replicate n OTick) {[i := Bkt c b t]} =
  Some (replicate n 0, {[i := Bkt c b (t + Z.of_nat n * c)]}).
Proof.
  revert t. induction n as [|n IH]; intros t Hc Ht Hmax; simpl.
  - by rewrite Z.add_0_r.
  - rewrite spec_tick_one by (apply in_int_spec; unfold INT_MIN, INT_MAX in *; nia). simpl.
    rewrite IH by nia. simpl. do 3 f_equal. apply Bkt_tok_eq. lia.
Qed.

(** The clock ignores [burst]: a bucket created with rate [c] and limit [b]
    that is left alone for [n] ticks holds [n * c] tokens, and when that is more
    than [b] a single fetch hands all of them out.  (The limit is applied only by
    [mytbf_returntoken].) *)
Theorem mytbf_ticks_pass_burst fuel garbage d c b n t :
  (2 <= fuel)%nat -> (0 < n)%nat -> 0 < c -> b < Z.of_nat n * c <= INT_MAX ->
  Z.of_nat n * c <= t ->
  wp (impl_run fuel garbage (OInit true c b :: replicate n OTick ++ [OFetch 0 t 0 0]))
     (fun rs _ => exists r, rs = 0 :: replicate n 0 ++ [r] /\ b < r) (fun _ _ => False) (initial d).
Proof.
  intros Hfuel Hn Hc Hb Ht.
  assert (Hs : spec_run (replicate n OTick ++ [OFetch 0 t 0 0]) {[0%nat := Bkt c b 0]} =
          Some (replicate n 0 ++ [Z.of_nat n * c], {[0%nat := Bkt c b 0]})).
  { eapply spec_run_app; [apply spec_run_ticks; lia|]. cbn [spec_run spec_step].
    unfold b_at. change (0 <? 0) with false. change (Z.to_nat 0) with 0%nat. cbn iota.
    rewrite lookup_singleton_eq. cbn [mbind option_bind b_tok b_cps].
    destruct (Z.eqb_spec (0 + Z.of_nat n * c) 0); [nia|]. cbn [mbind option_bind].
    rewrite lookup_singleton_eq. cbn [mbind option_bind b_tok b_add b_cps b_burst].
    cbn [spec_ticks mbind option_bind]. rewrite lookup_singleton_eq. cbn [mbind option_bind b_tok].
    rewrite Z.min_l, Z.sub_diag, insert_singleton_eq, Z.add_0_l by lia.
    cbn [in_int mbind option_bind].
    replace (b_add _ _) with (Bkt c b 0) by (apply Bkt_tok_eq; simpl; lia). done. }
  eapply wp_mono; [| |apply (impl_run_ok fuel garbage _ ∅ (0 :: replicate n 0 ++ [Z.of_nat n * c])
    {[0%nat := Bkt c b 0]}); [done|apply wf_initial|apply absr_initial|]].
  - intros rs w (-> & _ & _). exists (Z.of_nat n * c). split; [done|lia].
  - intros ? ? H. exact H.
  - cbn [spec_run spec_step]. change (free_id ∅) with (Some 0%nat). cbn [mbind option_bind].
    rewrite insert_empty. by rewrite Hs.
Qed.

(** What the specification says of a fetch that can make progress. *)
Lemma spec_fetch_progress id t late mid m b :
  b_at id m = Some b -> is_Some (spec_ticks (S late + mid) m) ->
  0 < b_cps b -> 0 <= b_tok b -> 0 < t ->
  exists r m' b', spec_step (OFetch id t late mid) m = Some (r, m') /\ 0 < r <= t /\
    m' !! Z.to_nat id = Some b' /\
    b_tok b' + r = b_tok b + Z.of_nat (fetch_ticks b late mid) * b_cps b.
Proof.
  intros Hb [mf Hf] Hc Htok Ht. cbn [spec_step]. rewrite Hb. cbn [mbind option_bind].
  assert (Hbi : m !! Z.to_nat id = Some b) by (unfold b_at in Hb; by destruct (id <? 0)).
  pose proof (spec_ticks_bound (late + mid) m mf _ b Hf Hbi) as Hbnd.
  unfold fetch_ticks. set (k := if b_tok b =? 0 then S late else 0%nat).
  assert (exists m1 m2, (if b_tok b =? 0 then if b_cps b =? 0 then None else spec_ticks (S late) m
                         else Some m) = Some m1 /\ spec_ticks k m = Some m1 /\ spec_ticks mid m1 = Some m2)
    as (m1 & m2 & -> & Hk & Hm2).
  { unfold k. destruct (Z.eqb_spec (b_tok b) 0).
    - rewrite spec_ticks_add in Hf. apply bind_Some in Hf as (m1 & H1 & H2).
      destruct (Z.eqb_spec (b_cps b) 0); [lia|]. by exists m1, mf.
    - rewrite Nat.add_comm, spec_ticks_add in Hf. apply bind_Some in Hf as (m1 & H1 & _).
      by exists m, m1. }
  pose proof (spec_ticks_lookup _ _ _ (Z.to_nat id) Hk) as H1. rewrite Hbi in H1.
  pose proof (spec_ticks_lookup _ _ _ (Z.to_nat id) Hm2) as H2. rewrite H1 in H2.
  cbn [mbind option_bind fmap option_fmap option_map] in *. rewrite H1. cbn [mbind option_bind].
  rewrite Hm2. cbn [mbind option_bind]. rewrite H2. cbn [mbind option_bind b_add b_tok b_cps].
  set (r := Z.min _ t).
  assert (Hr : 0 < r <= t /\ r <= b_tok b + Z.of_nat k * b_cps b)
    by (unfold r, k; destruct (Z.eqb_spec (b_tok b) 0); nia).
  rewrite (proj2 (in_int_spec _)).
  - eexists r, _, _. split_and!; [reflexivity|lia|lia|apply lookup_insert_eq|].
    cbn [b_add b_tok]. lia.
  - unfold INT_MIN in *. destruct (Nat.le_gt_cases k (S late)); [nia|].
    unfold k in *. destruct (b_tok b =? 0); lia.
Qed.

(** C31: Fetching makes progress.  From a state of the library that holds a
    bucket with a positive rate and no debt, when a positive number of tokens is
    asked for and no bucket overflows within the signals that arrive,
    [mytbf_fetchtoken] returns: it waits only while the bucket is empty, and then
    for the first signal that [pause] sees, the [late] signals that slip in
    between the test and the [pause] apart; it returns between 1 and the number
    asked for, and takes exactly that many from what the bucket held and gained
    meanwhile. *)
Theorem mytbf_fetch_progress fuel id t late mid m b w :
  (2 <= fuel)%nat -> wf w -> absr w m -> b_at id m = Some b ->
  is_Some (spec_ticks (S late + mid) m) ->
  0 < b_cps b -> 0 <= b_tok b -> 0 < t ->
  wp (mytbf_fetchtoken fuel late mid id t)
     (fun r w' => 0 < r <= t /\ wf w' /\
        ticks w' = ticks w + (if b_tok b =? 0 then Z.of_nat late + 1 else 0) + Z.of_nat mid /\
        exists v, view (tab w') (Z.to_nat id) = Some v /\
          token v + r = b_tok b + (ticks w' - ticks w) * b_cps b)
     (fun _ _ => False) w.
Proof.
  intros Hfuel Hwf Ha Hb Hf Hc Htok Ht.
  destruct (spec_fetch_progress id t late mid m b) as (r & m' & b' & Hs & Hr & Hb' & Heq); [done..|].
  eapply wp_mono; [|intros ? ? H; exact H|by eapply wp_fetchtoken].
  intros r' w' (-> & Hwf' & Ha' & Htk).
  rewrite (Ha' (Z.to_nat id)) in Hb'. apply fmap_Some in Hb' as (v & Hv & ->).
  split_and!; [lia|lia|done| |].
  - rewrite Htk. unfold fetch_ticks. destruct (b_tok b =? 0); lia.
  - exists v. split; [done|]. cbn [bk b_tok] in Heq. rewrite Heq, Htk. lia.
Qed.

(** ** Witnesses *)

Definition demo_ops : list op :=
  [OTick; OInit true 10 100; OInit true 3 5; OFetch 0 4 1 2; OTick; OReturn 1 4; ODestroy 0; OInit true 1 1].

Lemma mytbf_refines_witness :
  wp (impl_run 2 (MkTbf 7 7 7 7) demo_ops)
     (fun rs' w => rs' = [0; 0; 1; 4; 0; 4; 1; 0] /\ wf w /\
        absr w (<[0%nat := Bkt 1 1 0]> {[1%nat := Bkt 3 5 5]}))
     (fun _ _ => False) (initial SIG_DFL).
Proof. apply mytbf_refines; [lia|]. vm_compute. reflexivity. Defined.

Lemma mytbf_ticks_pass_burst_witness :
  wp (impl_run 2 (MkTbf 0 0 0 0) (OInit true 10 15 :: replicate 2 OTick ++ [OFetch 0 100 0 0]))
     (fun rs _ => exists r, rs = 0 :: replicate 2 0 ++ [r] /\ 15 < r) (fun _ _ => False)
     (initial SIG_DFL).
Proof. apply (mytbf_ticks_pass_burst 2 _ _ 10 15 2 100); [lia|lia|lia|unfold INT_MAX; lia|lia]. Defined.

(** The state after the creation of one bucket, which is empty. *)
Definition demo_tbf : tbf :=
  match impl_run 2 (MkTbf 0 0 0 0) [OTick; OInit true 10 100] (initial SIG_DFL) with
  | Ok _ w => w
  | _ => initial SIG_DFL
  end.

Lemma demo_tbf_ok : wf demo_tbf /\ absr demo_tbf {[0%nat := Bkt 10 100 0]}.
Proof.
  assert (H : wp (impl_run 2 (MkTbf 0 0 0 0) [OTick; OInit true 10 100])
    (fun rs w => rs = [0; 0] /\ wf w /\ absr w {[0%nat := Bkt 10 100 0]})
    (fun _ _ => False) (initial SIG_DFL)).
  { eapply impl_run_ok; [lia|apply wf_initial|apply absr_initial|by vm_compute]. }
  unfold wp in H. unfold demo_tbf. destruct (impl_run _ _ _ _); by destruct H.
Qed.

Lemma mytbf_fetch_progress_witness :
  wp (mytbf_fetchtoken 2 3 1 0 8)
     (fun r w' => 0 < r <= 8 /\ wf w' /\
        ticks w' = ticks demo_tbf + (if 0 =? 0 then Z.of_nat 3 + 1 else 0) + Z.of_nat 1 /\
        exists v, view (tab w') (Z.to_nat 0) = Some v /\
          token v + r = 0 + (ticks w' - ticks demo_tbf) * 10)
     (fun _ _ => False) demo_tbf.
Proof.
  apply (mytbf_fetch_progress 2 0 8 3 1 {[0%nat := Bkt 10 100 0]} (Bkt 10 100 0));
    [lia|apply demo_tbf_ok|apply demo_tbf_ok|reflexivity|by eexists; vm_compute|done..].
Defined.
