(* ===== verification/TokenBucket.v ===== *)
(** * TokenBucket: the interface of the token-bucket library

    What src/signal/mytbf.c provides under the names of mytbf.h, as a class of
    operations and a class of laws about a process that owns one bucket.  (The
    upper bound mytbf.h:5 promises at ticks is not among them.)  [slow_cat] is
    verified against this interface; [mytbf_bucket_laws] shows that the library
    keeps it. *)

From S2P Require Import Prelude Prog Signals Table Mytbf.

Class TokenBucket (St : Type) := {
  tb_init : Z -> Z -> M St Z;
  (* with the numbers of ticks that arrive before it blocks and before it ends *)
  tb_fetch : nat -> nat -> Z -> Z -> M St Z;
  tb_return : Z -> Z -> M St Z;
  tb_destroy : Z -> M St Z;
  tb_tick : M St unit;
  (* ticks delivered so far *)
  tb_count : St -> Z;
  (* creating a bucket may fail for lack of memory *)
  tb_oom : bool;
  (* no bucket exists *)
  tb_idle : St -> Prop;
  (* the only bucket: identifier, rate, limit, tokens *)
  tb_holds : Z -> Z -> Z -> Z -> St -> Prop }.

Class TokenBucketLaws (St : Type) {TB : TokenBucket St} : Prop := {
  tb_init_law c b E s :
    tb_idle s ->
    wp (tb_init c b) (fun id s' => tb_count s' = tb_count s /\
      (id < 0 /\ tb_oom = true \/ 0 <= id /\ tb_holds id c b 0 s')) E s;
  tb_tick_law id c b t E s :
    tb_holds id c b t s -> in_int (t + c) = true ->
    wp tb_tick (fun _ s' => tb_holds id c b (t + c) s' /\ tb_count s' = tb_count s + 1) E s;
  tb_fetch_law late mid id c b t n E s :
    tb_holds id c b t s -> 0 < c -> 0 <= t ->
    t + (1 + Z.of_nat late + Z.of_nat mid) * c <= INT_MAX -> 0 < n ->
    wp (tb_fetch late mid id n) (fun r s' => exists k, 0 <= k <= 1 + Z.of_nat late + Z.of_nat mid /\
      0 < r <= n /\ r <= t + k * c /\
      tb_holds id c b (t + k * c - r) s' /\ tb_count s' = tb_count s + k) E s;
  tb_return_law id c b t n E s :
    tb_holds id c b t s -> in_int (t + n) = true ->
    wp (tb_return id n) (fun _ s' => tb_holds id c b (Z.min (t + n) b) s' /\
      tb_count s' = tb_count s) E s;
  tb_destroy_law id c b t E s :
    tb_holds id c b t s ->
    wp (tb_destroy id) (fun _ s' => tb_idle s' /\ tb_count s' = tb_count s) E s }.

(** ** The implementation in mytbf.c *)

Section mytbf.
Context (malloc_ok : bool) (garbage : mytbf_st).

(** Two rounds of fuel: [wait_token] tests the bucket at most twice. *)
Definition mytbf_bucket : TokenBucket tbf := {|
  tb_init := mytbf_init malloc_ok garbage;
  tb_fetch := mytbf_fetchtoken 2;
  tb_return := mytbf_returntoken;
  tb_destroy := mytbf_destroy;
  tb_tick := tick;
  tb_count := ticks;
  tb_oom := negb malloc_ok;
  tb_idle := fun w => wf w /\ absr w ∅;
  tb_holds := fun id c b t w => 0 <= id /\ wf w /\ absr w {[Z.to_nat id := Bkt c b t]} |}.

Lemma b_at_singleton id (b : bucket) : 0 <= id -> b_at id {[Z.to_nat id := b]} = Some b.
Proof. intros. unfold b_at. destruct (Z.ltb_spec id 0); [lia|]. apply lookup_singleton_eq. Qed.

Local Abbreviation holds id c b t w :=
  (0 <= id /\ wf w /\ absr w {[Z.to_nat id := Bkt c b t]}).

Lemma init_law c b E s :
  wf s -> absr s ∅ ->
  wp (mytbf_init malloc_ok garbage c b) (fun id s' => ticks s' = ticks s /\
    (id < 0 /\ negb malloc_ok = true \/ 0 <= id /\ holds id c b 0 s')) E s.
Proof.
  intros Hwf Ha. destruct malloc_ok.
  - eapply wp_mono; [|done|apply (wp_init 0 garbage true c b ∅ 0 {[0%nat := Bkt c b 0]}); [done..|]].
    + intros id s' (-> & ? & ? & ?). split; [lia|]. right. by split_and!.
    + cbn [spec_step]. change (free_id ∅) with (Some 0%nat). cbn iota. by rewrite insert_empty.
  - eapply wp_mono; [|done|apply (wp_init 0 garbage false c b ∅ (-1) ∅); done].
    intros id s' (-> & ? & ? & ?). split; [lia|]. by left.
Qed.

Lemma holds_inited id c b t s : wf s -> absr s {[Z.to_nat id := Bkt c b t]} -> inited s = true.
Proof.
  intros Hwf Ha. specialize (Ha (Z.to_nat id)). rewrite lookup_singleton_eq in Ha.
  symmetry in Ha. apply fmap_Some in Ha as (v & Hv & _). by eapply wf_live.
Qed.

Lemma tick_law id c b t E s :
  holds id c b t s -> in_int (t + c) = true ->
  wp tick (fun _ s' => holds id c b (t + c) s' /\ ticks s' = ticks s + 1) E s.
Proof.
  intros (Hid & Hwf & Ha) Hin.
  eapply wp_mono; [|done|eapply wp_tick; [done|by eapply holds_inited|done|by apply spec_tick_one]].
  intros [] s' []. by split_and!.
Qed.

Lemma spec_ticks_one n (i : nat) c b t :
  0 <= c -> 0 <= t -> t + Z.of_nat n * c <= INT_MAX ->
  spec_ticks n {[i := Bkt c b t]} = Some {[i := Bkt c b (t + Z.of_nat n * c)]}.
Proof.
  revert t. induction n as [|n IH]; intros t Hc Ht Hmax; cbn [spec_ticks].
  - by rewrite Z.add_0_r.
  - rewrite spec_tick_one by (apply in_int_spec; unfold INT_MIN, INT_MAX in *; nia).
    cbn [mbind option_bind]. rewrite IH by nia. do 2 f_equal. apply Bkt_tok_eq. lia.
Qed.

(** What the specification says of a fetch from the only bucket. *)
Lemma fetch_one late mid id c b t n :
  0 <= id -> 0 < c -> 0 <= t -> t + (1 + Z.of_nat late + Z.of_nat mid) * c <= INT_MAX -> 0 < n ->
  let k := if t =? 0 then Z.of_nat (S late) else 0 in
  let r := Z.min (t + k * c) n in
  spec_step (OFetch id n late mid) {[Z.to_nat id := Bkt c b t]} =
  Some (r, {[Z.to_nat id := Bkt c b (t + (k + Z.of_nat mid) * c - r)]}).
Proof.
  intros Hid Hc Ht Hmax Hn k r.
  assert (Hk : 0 <= k <= 1 + Z.of_nat late) by (unfold k; destruct (t =? 0); lia).
  cbn [spec_step]. rewrite b_at_singleton by done. cbn [mbind option_bind b_tok b_cps].
  assert ((if t =? 0 then if c =? 0 then None else spec_ticks (S late) {[Z.to_nat id := Bkt c b t]}
           else Some {[Z.to_nat id := Bkt c b t]}) = Some {[Z.to_nat id := Bkt c b (t + k * c)]}) as ->.
  { unfold k. destruct (Z.eqb_spec t 0).
    - destruct (Z.eqb_spec c 0); [lia|]. apply spec_ticks_one; nia.
    - by rewrite Z.mul_0_l, Z.add_0_r. }
  cbn [mbind option_bind]. rewrite lookup_singleton_eq. cbn [mbind option_bind b_tok].
  rewrite spec_ticks_one by nia. cbn [mbind option_bind]. rewrite lookup_singleton_eq.
  cbn [mbind option_bind b_tok]. fold r. rewrite (proj2 (in_int_spec _)), insert_singleton_eq.
  - unfold b_add. cbn [b_cps b_burst b_tok]. do 3 f_equal. apply Bkt_tok_eq. lia.
  - unfold r, INT_MIN in *. nia.
Qed.

Lemma fetch_law late mid id c b t n E s :
  holds id c b t s -> 0 < c -> 0 <= t ->
  t + (1 + Z.of_nat late + Z.of_nat mid) * c <= INT_MAX -> 0 < n ->
  wp (mytbf_fetchtoken 2 late mid id n)
     (fun r s' => exists k, 0 <= k <= 1 + Z.of_nat late + Z.of_nat mid /\ 0 < r <= n /\
        r <= t + k * c /\ holds id c b (t + k * c - r) s' /\ ticks s' = ticks s + k) E s.
Proof.
  intros (Hid & Hwf & Ha) Hc Ht Hmax Hn.
  eapply wp_mono; [|done|eapply wp_fetchtoken; [done|done|exact Ha|by apply b_at_singleton|by apply fetch_one]].
  cbv zeta. intros r s' (-> & ? & ? & Htk). unfold fetch_ticks in Htk. cbn [b_tok] in Htk.
  exists ((if t =? 0 then Z.of_nat (S late) else 0) + Z.of_nat mid).
  split_and!; try done; destruct (Z.eqb_spec t 0); nia.
Qed.

Lemma return_law id c b t n E s :
  holds id c b t s -> in_int (t + n) = true ->
  wp (mytbf_returntoken id n) (fun _ s' => holds id c b (Z.min (t + n) b) s' /\
    ticks s' = ticks s) E s.
Proof.
  intros (Hid & Hwf & Ha) Hin. eapply wp_mono; [|done|eapply wp_returntoken; [done|exact Ha|]].
  2: { cbn [spec_step]. rewrite b_at_singleton by done. cbn [mbind option_bind b_tok b_cps b_burst].
       by rewrite Hin, insert_singleton_eq. }
  intros r s' (-> & ? & ? & ?). by split_and!; [..|lia].
Qed.

Lemma destroy_law id c b t E s :
  holds id c b t s ->
  wp (mytbf_destroy id) (fun _ s' => (wf s' /\ absr s' ∅) /\ ticks s' = ticks s) E s.
Proof.
  intros (Hid & Hwf & Ha). eapply wp_mono; [|done|eapply wp_destroy; [done|exact Ha|]].
  2: { cbn [spec_step]. rewrite b_at_singleton by done. cbn [mbind option_bind].
       by rewrite delete_singleton_eq. }
  intros r s' (-> & ? & ? & ?). by split_and!; [..|lia].
Qed.

(** The library keeps the interface. *)
Lemma mytbf_bucket_laws : @TokenBucketLaws tbf mytbf_bucket.
Proof.
  split; cbn [tb_init tb_fetch tb_return tb_destroy tb_tick tb_count tb_oom tb_idle
    tb_holds mytbf_bucket].
  - intros c b E s [? ?]. by apply init_law.
  - intros. by apply tick_law.
  - intros. by apply fetch_law.
  - intros. by apply return_law.
  - intros. by eapply destroy_law.
Qed.
End mytbf.
