(* ===== verification/SlowCat.v ===== *)
(** * SlowCat: src/signal/slow_cat.c

    [slow_cat file] prints a file at a limited rate: it fetches tokens from a
    bucket (10 per second), reads at most that many bytes, gives back the
    unused tokens and writes the bytes to the standard output.  The program is
    verified against the interface [TokenBucket], and then linked with mytbf.c.

    The state is the bucket library's state, the operating system, [sched]: how
    many clock ticks arrive during each of the following system calls and at the
    two points of a fetch where they can, and [hist]: what the files held and
    how many ticks were counted after each of the reads and writes so far. *)

From S2P Require Import Prelude Prog Signals Table Posix Mytbf TokenBucket.

Definition CPS : Z := 10.
Definition BURST : Z := 1024.
Definition BUF_SIZE : nat := 1024.

Record sys (St : Type) := Sys {
  tb : St;
  io : os;
  sched : list nat;
  hist : list (gmap string (list byte) * Z) }.
Arguments Sys {St}.
Arguments tb {St}.
Arguments io {St}.
Arguments sched {St}.
Arguments hist {St}.

Section program.
Context {St : Type} {TB : TokenBucket St}.

Definition on_tb {A} : M St A -> M (sys St) A :=
  on tb (fun s w => Sys s (io w) (sched w) (hist w)).
Definition on_io {A} : M os A -> M (sys St) A :=
  on io (fun s w => Sys (tb w) s (sched w) (hist w)).

(** [n] ticks. *)
Fixpoint tick_n (n : nat) : M St unit :=
  match n with O => mret tt | S n' => tb_tick ;; tick_n n' end.

(** The number of ticks that arrive at the next point where they can. *)
Definition arrivals : M (sys St) nat :=
  w ← get; put (Sys (tb w) (io w) (tl (sched w)) (hist w)) ;; mret (hd 0%nat (sched w)).

(** The files and the ticks counted are noted. *)
Definition note (w : sys St) : sys St :=
  Sys (tb w) (io w) (sched w) (hist w ++ [(fs (io w), tb_count (tb w))]).

(** A system call, during which the scheduled ticks arrive. *)
Definition call {A} (m : M os A) : M (sys St) A :=
  n ← arrivals;
  on_tb (tick_n n) ;;
  r ← on_io m;
  modify note ;;
  mret r.

(** [while (cur != sz) { ... }] *)
Definition write_out (fuel : nat) (buf : list byte) (sz : Z) : M (sys St) unit :=
  iter fuel (fun cur : Z =>
    if cur =? sz then mret (inr tt) else
    data ← slice buf (Z.to_nat cur) (Z.to_nat sz);
    writed ← call (sys_write 1 data);
    if writed <? 0 then
      w ← get;
      if errno (io w) =? EINTR then mret (inl cur) else exit_ 1
    else mret (inl (cur + writed))) 0.

(** One iteration of [while (1)]. *)
Definition cat_step (fuel : nat) (src p : Z) (buf : list byte) : M (sys St) (list byte + unit) :=
  late ← arrivals;
  mid ← arrivals;
  fetched ← on_tb (tb_fetch late mid p (Z.of_nat BUF_SIZE));
  if fetched =? 0 then mret (inl buf) else
  '(sz, buf) ← call (sys_read src buf (Z.to_nat fetched));
  if sz =? 0 then mret (inr tt) else
  if sz <? 0 then
    w ← get;
    if errno (io w) =? EINTR then mret (inl buf) else exit_ 1
  else
    on_tb (tb_return p (fetched - sz)) ;;
    write_out fuel buf sz ;;
    mret (inl buf).

(** [static char buf[BUF_SIZE]] is zero-initialised. *)
Definition main (fuel : nat) (argv : list string) : M (sys St) Z :=
  if decide (length argv < 2)%nat then exit_ 1 else
  src ← on_io (sys_open (nth 1 argv EmptyString) O_RDONLY);
  if src <? 0 then exit_ 1 else
  p ← on_tb (tb_init CPS BURST);
  if p <? 0 then exit_ 1 else
  iter fuel (cat_step fuel src p) (replicate BUF_SIZE x00) ;;
  on_tb (tb_destroy p) ;;
  mret 0.
End program.

(** ** Correctness against the interface *)

Section correctness.
Context {St : Type} {TB : TokenBucket St} {TBL : TokenBucketLaws St}.

(** The run: the initial system [w0] with [n0] ticks counted, the file [psrc]
    with contents [c], the standard output [pout] holding [o0], the descriptors
    with their descriptions, the bucket [p], and a bound [K] on the ticks. *)
Context (w0 : os) (n0 : Z) (psrc pout : string) (c o0 : list byte) (fdt0 : gmap nat nat)
  (src is_ io_ : nat) (rd : bool) (p K : Z).
Hypothesis Hpath : psrc <> pout.
Hypothesis Hsrc : fs w0 !! psrc = Some c.
Hypothesis Hfdsrc : fdt0 !! src = Some is_.
Hypothesis Hfdout : fdt0 !! 1%nat = Some io_.
Hypothesis Hdiff : is_ <> io_.
Hypothesis Hwhole : Forall whole (orc w0).
Hypothesis HK : CPS * (K - n0 + 1) <= INT_MAX.

(** What may be noted: [k] bytes of the file printed, at most ten per tick. *)
Definition snap_ok (x : gmap string (list byte) * Z) : Prop :=
  exists k, x.1 = <[pout := o0 ++ take k c]> (fs w0) /\ Z.of_nat k <= CPS * (x.2 - n0).

(** [k] bytes printed, [off] bytes read, [t] tokens in the bucket and [h] in
    the program's hands; [d] more ticks are budgeted. *)
Record running (k off : nat) (t h d : Z) (s : sys St) : Prop := {
  r_tb : tb_holds p CPS BURST t (tb s);
  r_t : 0 <= t /\ 0 <= h;
  r_fs : fs (io s) = <[pout := o0 ++ take k c]> (fs w0);
  r_fdt : fdt (io s) = fdt0;
  r_src : ofds (io s) !! is_ = Some (Ofd psrc off true false);
  r_out : ofds (io s) !! io_ = Some (Ofd pout (length o0 + k) rd true);
  r_orc : orc (io s) `suffix_of` orc w0;
  r_k : (k <= off <= length c)%nat;
  r_hist : Forall snap_ok (hist s);
  r_rate : Z.of_nat off + t + h <= CPS * (tb_count (tb s) - n0);
  r_budget : tb_count (tb s) + Z.of_nat (sum_list (sched s)) +
             Z.of_nat (length c - off) + Z.of_nat (length (orc (io s))) + d <= K }.

Lemma running_weaken k off t h h' d d' s :
  running k off t h d s -> 0 <= h' <= h -> d' <= d -> running k off t h' d' s.
Proof. intros [] ? ?. split; try done; lia. Qed.

Lemma running_snap k off t h d s : running k off t h d s -> snap_ok (fs (io s), tb_count (tb s)).
Proof. intros []. exists k. split; [done|simpl; lia]. Qed.

Lemma running_note k off t h d s : running k off t h d s -> running k off t h d (note s).
Proof.
  intros Hr. pose proof (running_snap _ _ _ _ _ _ Hr). destruct Hr. split; try done.
  cbn [hist note]. by apply Forall_app_2; [|constructor].
Qed.

(** How an early [exit] may look: only after a failed call other than an
    interruption, with a rate-limited prefix of the file printed. *)
Definition gave_up (code : Z) (s : sys St) : Prop :=
  code = 1 /\ (exists e, AErr e ∈ orc w0 /\ Zpos e <> EINTR) /\ Forall snap_ok (hist s) /\
  exists k, fs (io s) = <[pout := o0 ++ take k c]> (fs w0) /\
            Z.of_nat k <= CPS * (tb_count (tb s) - n0).

Lemma wp_tb_ticks n t s E :
  tb_holds p CPS BURST t s -> 0 <= t -> t + CPS * Z.of_nat n <= INT_MAX ->
  wp (tick_n n) (fun _ s' => tb_holds p CPS BURST (t + CPS * Z.of_nat n) s' /\
                             tb_count s' = tb_count s + Z.of_nat n) E s.
Proof.
  revert t s. induction n as [|n IH]; intros t s Hh Ht Hmax; cbn [tick_n].
  - apply wp_ret. by rewrite Z.mul_0_r, !Z.add_0_r.
  - unfold CPS in *. apply wp_bind. eapply wp_mono; [|done|eapply tb_tick_law; [done|]].
    + intros [] s1 [Hh1 Hc1]. eapply wp_mono; [|done|apply (IH (t + 10)); [done|lia|lia]].
      intros [] s2 [Hh2 Hc2]. split; [|lia].
      by replace (t + 10 * Z.of_nat (S n)) with (t + 10 + 10 * Z.of_nat n) by lia.
    + apply in_int_spec. unfold INT_MIN. lia.
Qed.

(** Ticks during a system call only add tokens. *)
Lemma wp_call {A} (m : M os A) k off t h d (Q : A -> sys St -> Prop) E s :
  0 <= d -> running k off t h d s ->
  (forall s1 t1, running k off t1 h d s1 -> io s1 = io s ->
     wp m (fun a o => Q a (note (Sys (tb s1) o (sched s1) (hist s1))))
          (fun e o => E e (Sys (tb s1) o (sched s1) (hist s1))) (io s)) ->
  wp (call m) Q E s.
Proof.
  intros Hd Hr Hm. destruct Hr. unfold call, arrivals. wp_steps. cbn [tb io sched hist].
  set (n := hd 0%nat (sched s)).
  assert (Hn : (sum_list (sched s) = n + sum_list (tl (sched s)))%nat)
    by (unfold n; by destruct (sched s)).
  unfold CPS in *. apply wp_on. eapply wp_mono;
    [|intros ? ? H; exact H|apply (wp_tb_ticks n t); [done|lia|unfold CPS; lia]].
  intros [] s1 [Hh1 Hc1]. unfold CPS in *. unfold on_io. wp_steps. cbn [tb io sched hist].
  eapply wp_mono; [| |eapply (Hm (Sys s1 (io s) (tl (sched s)) (hist s)) (t + 10 * Z.of_nat n)); [|done]].
  - intros a o HQ. by wp_steps.
  - done.
  - split; cbn [tb io sched hist] in *; unfold CPS; try done; lia.
Qed.

Lemma wp_errno_retry k off t h d {R} (x : R) (Q : R -> sys St -> Prop) e o s :
  running k off t h d s -> orc (io s) = AErr e :: o ->
  (forall s1, running k off t h (d + 1) s1 -> (length (orc (io s1)) < length (orc (io s)))%nat -> Q x s1) ->
  wp (w ← get; if errno (io w) =? EINTR then mret x else exit_ 1) Q gave_up
     (note (Sys (tb s) (with_errno (Zpos e) (with_orc o (io s))) (sched s) (hist s))).
Proof.
  intros Hr Ho HQ.
  pose proof (running_snap _ _ _ _ _ _ Hr) as Hsnap.
  wp_steps. cbn [note io errno with_errno with_orc].
  destruct (Z.eqb_spec (Zpos e) EINTR) as [He|He]; wp_steps.
  - apply HQ; [|simpl; rewrite Ho; simpl; lia].
    apply running_note. destruct Hr. split; simpl; try done.
    + etrans; [|done]. rewrite Ho. by exists [AErr e].
    + rewrite Ho in r_budget0. simpl in r_budget0. lia.
  - destruct Hr. split_and!; [done| | |].
    + exists e. split; [|done]. destruct r_orc0 as [pre Hpre]. rewrite Hpre, Ho, elem_of_app.
      right. left.
    + by apply Forall_app_2; [|constructor].
    + exists k. split; [done|]. simpl. lia.
Qed.

(** With whole transfers the inner loop prints the [n] bytes in one write,
    repeated while it is interrupted. *)
Lemma wp_write_out fuel n k t buf (Q : unit -> sys St -> Prop) s :
  running k (k + n) t 0 1 s -> (0 < n <= length buf)%nat -> take n buf = take n (drop k c) ->
  (n + length (orc (io s)) < fuel)%nat ->
  (forall s1 t1, running (k + n) (k + n) t1 0 1 s1 ->
     (length (orc (io s1)) <= length (orc (io s)))%nat -> Q tt s1) ->
  wp (write_out fuel buf (Z.of_nat n)) Q gave_up s.
Proof.
  intros Hr Hn Htake Hfuel HQ. unfold write_out.
  apply (wp_iter (fun cur s1 => exists j t1, cur = Z.of_nat j /\ (j = 0 \/ j = n)%nat /\
            running (k + j) (k + n) t1 0 1 s1 /\ (length (orc (io s1)) <= length (orc (io s)))%nat)
          (fun cur s1 => n - Z.to_nat cur + length (orc (io s1)))%nat).
  2: { exists 0%nat, t. rewrite Nat.add_0_r. split_and!; [done|by left|done|done]. }
  2: { simpl. lia. }
  intros cur s1 (j & t1 & -> & Hj & Hr1 & Hle).
  destruct (Z.eqb_spec (Z.of_nat j) (Z.of_nat n)) as [Hjn|Hjn]; wp_steps.
  { assert (j = n) as -> by lia. by apply (HQ s1 t1). }
  assert (j = 0%nat) as -> by lia. rewrite Nat.add_0_r in *.
  apply wp_slice; [lia|]. wp_steps. rewrite Nat2Z.id. change (drop (Z.to_nat (Z.of_nat 0)) buf) with buf.
  rewrite Htake. eapply wp_call; [|exact Hr1|]; [lia|]. intros s2 t2 Hr2 Hio. rewrite <-Hio in *.
  apply (wp_write 1 io_ (Ofd pout (length o0 + k) rd true)); [|apply Hr2|done| |].
  { rewrite (r_fdt _ _ _ _ _ _ Hr2). apply Hfdout. }
  { intros e o Ho. cbn iota. apply (wp_errno_retry k (k + n) t2 0 1 (inl (Z.of_nat 0)) _ e o s2); [done..|].
    intros s3 Hr3 Hlt. simpl. split; [|lia]. exists 0%nat, t2. rewrite Nat.add_0_r.
    split_and!; [done|by left|by eapply running_weaken|lia]. }
  intros m o. cbv zeta. cbn [of_path of_off]. intros Ho _ _ Hm.
  assert (m = n) as ->.
  { rewrite Hm, length_take, length_drop; [|eapply whole_suffix; [apply Hr2|done]].
    pose proof (r_k _ _ _ _ _ _ Hr2). lia. }
  destruct (Z.ltb_spec (Z.of_nat n) 0); [lia|]. wp_steps.
  pose proof (suffix_length _ _ Ho) as Hlo.
  split; [|simpl; lia]. exists n, t2. split_and!; [lia|by right| |simpl; lia].
  apply running_note. destruct Hr2. split; cbn [tb io sched hist fs fdt ofds orc set_off with_ofds with_fs with_orc]; try done.
  - rewrite r_fs0, lookup_insert_eq, insert_insert_eq. simpl. f_equal.
    rewrite firstn_firstn, Nat.min_id.
    replace (length o0 + k)%nat with (length (o0 ++ take k c)) by (rewrite length_app, length_take; lia).
    by rewrite splice_end, <-app_assoc, take_take_drop.
  - by rewrite list_lookup_insert_ne.
  - rewrite list_lookup_insert_eq by (by eapply lookup_lt_Some). by rewrite <-Nat.add_assoc.
  - by trans (orc (io s2)).
  - lia.
  - lia.
Qed.

(** The [n] bytes read are printed after the unused tokens are returned. *)
Lemma wp_give_print fuel n k t h buf (Q : list byte + unit -> sys St -> Prop) s :
  running k (k + n) t h (Z.of_nat n) s -> (0 < n <= length buf)%nat ->
  take n buf = take n (drop k c) -> (n + length (orc (io s)) < fuel)%nat ->
  (forall s1 t1, running (k + n) (k + n) t1 0 1 s1 ->
     (length (orc (io s1)) <= length (orc (io s)))%nat -> Q (inl buf) s1) ->
  wp (on_tb (tb_return p h) ;; write_out fuel buf (Z.of_nat n) ;; mret (inl buf)) Q gave_up s.
Proof.
  intros Hr Hn Htake Hfuel HQ. pose proof Hr as []. unfold CPS in *.
  apply wp_bind. unfold on_tb. apply wp_on.
  eapply wp_mono; [|intros ? ? H; exact H|eapply tb_return_law; [exact r_tb0|]].
  2: { apply in_int_spec. unfold INT_MIN. lia. }
  intros x s1 [Hh1 Hc1]. apply wp_bind, (wp_write_out fuel n k (Z.min (t + h) BURST));
    [|done|done|done|].
  - unfold BURST in *. split; cbn [tb io sched]; unfold CPS; try done; lia.
  - intros s2 t2 Hr2 Hle. wp_steps. by eapply HQ.
Qed.

(** One round: fetch, read, give back, print. *)
Lemma wp_cat_step fuel k t buf s :
  (BUF_SIZE + length (orc (io s)) < fuel)%nat ->
  running k k t 0 1 s -> length buf = BUF_SIZE ->
  wp (cat_step fuel (Z.of_nat src) p buf)
     (fun x s1 => match x with
        | inl buf' => length buf' = BUF_SIZE /\
            exists k' t', running k' k' t' 0 1 s1 /\
              (length (orc (io s1)) <= length (orc (io s)))%nat /\
              (length c - k' + length (orc (io s1)) < length c - k + length (orc (io s)))%nat
        | inr _ => exists t', running (length c) (length c) t' 0 0 s1
        end) gave_up s.
Proof.
  intros Hfuel Hr Hbuf. unfold cat_step, arrivals. wp_steps. cbn [tb io sched hist].
  unfold on_tb at 1. apply wp_on.
  pose proof Hr as []. unfold CPS in *.
  set (late := hd 0%nat (sched s)). set (mid := hd 0%nat (tl (sched s))).
  assert (Hsum : (sum_list (sched s) = late + (mid + sum_list (tl (tl (sched s)))))%nat)
    by (unfold late, mid; by destruct (sched s) as [|? [|? ?]]).
  eapply wp_mono; [|intros ? ? H; exact H|eapply tb_fetch_law; [exact r_tb0|unfold CPS, BUF_SIZE; lia..]].
  cbv beta. intros r s1 (i & Hi & Hr1 & Hri & Hh1 & Hc1). destruct (Z.eqb_spec r 0) as [|Hr0]; [lia|].
  assert (Hr2 : running k k (t + i * 10 - r) r 0 (Sys s1 (io s) (tl (tl (sched s))) (hist s)))
    by (split; cbn [tb io sched hist] in *; unfold CPS; try done; lia).
  apply wp_bind. eapply wp_call; [done|exact Hr2|]. intros s2 t2 Hr3 Hio. cbn [io] in *.
  rewrite <-Hio in *.
  apply (wp_read src is_ (Ofd psrc k true false)); [|apply Hr3|done|unfold BUF_SIZE in *; lia| |].
  { rewrite (r_fdt _ _ _ _ _ _ Hr3). apply Hfdsrc. }
  { intros e o Ho. cbn iota. eapply (wp_errno_retry k k t2 r 0 (inl buf) _ e o s2); [done..|].
    intros s3 Hr4 Hlt. split; [done|]. exists k, t2. split; [eapply running_weaken; [done|lia..]|]. lia. }
  intros n o. cbv zeta. cbn [of_off of_path]. intros Ho Hn Hn0 _.
  pose proof (suffix_length _ _ Ho) as Hlo.
  assert (Hc : default [] (fs (io s2) !! psrc) = c)
    by (destruct Hr3; by rewrite r_fs1, lookup_insert_ne, Hsrc).
  rewrite Hc in *. rewrite length_drop in Hn.
  set (s3 := note (Sys _ _ _ _)).
  assert (Hr4 : running k (k + n) t2 (r - Z.of_nat n) (Z.of_nat n) s3).
  { subst s3. apply running_note. destruct Hr3. split; cbn [tb io sched hist fs fdt ofds orc set_off with_ofds with_fs with_orc];
      unfold CPS in *; try done; try lia.
    - by apply list_lookup_insert_eq, (lookup_lt_Some _ _ _ r_src1).
    - by rewrite list_lookup_insert_ne.
    - by trans (orc (io s2)). }
  assert (Ho3 : orc (io s3) = o) by done.
  clearbody s3.
  destruct (Z.eqb_spec (Z.of_nat n) 0) as [Hz|Hz].
  { wp_steps. assert (n = 0)%nat as -> by lia. destruct Hn0 as [Hb|Hd]; [done|lia|].
    apply (f_equal length) in Hd. rewrite length_drop in Hd. simpl in Hd.
    rewrite Nat.add_0_r in Hr4. replace (length c) with k by lia.
    exists t2. eapply running_weaken; [done|lia..]. }
  destruct (Z.ltb_spec (Z.of_nat n) 0); [lia|].
  assert (Hl : length (take n (drop k c) ++ drop n buf) = BUF_SIZE).
  { rewrite length_app, length_take, !length_drop, Hbuf. unfold BUF_SIZE in *. lia. }
  apply (wp_give_print fuel n k t2).
  - done.
  - rewrite Hl. unfold BUF_SIZE in *. lia.
  - rewrite take_app_le, firstn_firstn, Nat.min_id; [done|]. rewrite length_take, length_drop. lia.
  - rewrite Ho3. unfold BUF_SIZE in *. lia.
  - intros s4 t4 Hr5 Hle. rewrite Ho3 in Hle. split; [done|]. exists (k + n)%nat, t4.
    split_and!; [done|lia|]. pose proof (r_k _ _ _ _ _ _ Hr5). lia.
Qed.

(** The whole loop. *)
Lemma wp_cat_loop fuel buf t s :
  (BUF_SIZE + length c + length (orc (io s)) < fuel)%nat ->
  running 0 0 t 0 1 s -> length buf = BUF_SIZE ->
  wp (iter fuel (cat_step fuel (Z.of_nat src) p) buf)
     (fun _ s1 => exists t', running (length c) (length c) t' 0 0 s1) gave_up s.
Proof.
  intros Hfuel Hr Hbuf.
  apply (wp_iter (fun buf s1 => length buf = BUF_SIZE /\
           (length (orc (io s1)) <= length (orc (io s)))%nat /\ exists k t, running k k t 0 1 s1)
         (fun _ s1 => length c - match ofds (io s1) !! is_ with Some d => of_off d | None => 0 end
                      + length (orc (io s1)))%nat).
  - intros buf' s1 (Hb & Hle & k & t1 & Hr1).
    eapply wp_mono; [|intros ? ? H; exact H|apply (wp_cat_step fuel k t1); [lia|done|done]].
    intros [buf2|[]] s2; [|done]. intros (? & k2 & t2 & Hr2 & Hle2 & Hlt).
    rewrite (r_src _ _ _ _ _ _ Hr1), (r_src _ _ _ _ _ _ Hr2). cbn [of_off].
    split; [|done]. split_and!; [done|lia|]. by exists k2, t2.
  - split_and!; [done|done|]. by exists 0%nat, t.
  - rewrite (r_src _ _ _ _ _ _ Hr). cbn [of_off]. lia.
Qed.
End correctness.

Section whole_program.
Context {St : Type} {TB : TokenBucket St} {TBL : TokenBucketLaws St}.

(** [slow_cat], for any library that keeps the interface. *)
Lemma slow_cat_ok fuel prog psrc pout rest c o0 rd io_ (s : sys St) :
  psrc <> pout -> fs (io s) !! psrc = Some c -> fs (io s) !! pout = Some o0 ->
  fdt (io s) !! 1%nat = Some io_ -> ofds (io s) !! io_ = Some (Ofd pout (length o0) rd true) ->
  Forall whole (orc (io s)) -> tb_idle (tb s) -> hist s = [] ->
  CPS * (Z.of_nat (sum_list (sched s) + length c + length (orc (io s))) + 2) <= INT_MAX ->
  (BUF_SIZE + length c + length (orc (io s)) < fuel)%nat ->
  wp (main fuel (prog :: psrc :: rest))
     (fun r s' => r = 0 /\ fs (io s') = <[pout := o0 ++ c]> (fs (io s)) /\
        Forall (snap_ok (io s) (tb_count (tb s)) pout c o0) (hist s') /\
        Z.of_nat (length c) <= CPS * (tb_count (tb s') - tb_count (tb s)))
     (fun code s' => code = 1 /\
        ((exists e, AErr e ∈ orc (io s) /\ Zpos e <> EINTR) \/
         AErr (Z.to_pos EINTR) ∈ take 1 (orc (io s)) \/ tb_oom = true) /\
        Forall (snap_ok (io s) (tb_count (tb s)) pout c o0) (hist s') /\
        exists k, fs (io s') = <[pout := o0 ++ take k c]> (fs (io s)) /\
          Z.of_nat k <= CPS * (tb_count (tb s') - tb_count (tb s))) s.
Proof.
  intros Hpath Hsrc Hout Hfd1 Hod Hw Hidle Hhist HK Hfuel. unfold main.
  rewrite decide_False by (simpl; lia). cbn [nth].
  assert (Hsame : fs (io s) = <[pout := o0 ++ take 0 c]> (fs (io s)))
    by (by rewrite firstn_O, app_nil_r, insert_id).
  apply wp_bind. unfold on_io. apply wp_on, wp_open; [| |intros o fd Ho Hfd _].
  { intros e o Ho. wp_steps. cbn [hist]. rewrite Hhist. split_and!; [done| |done|].
    - rewrite Ho. destruct (decide (Zpos e = EINTR)) as [He|He].
      + right. left. unfold EINTR in *. simplify_eq. apply list_elem_of_singleton. done.
      + left. exists e. split; [left|done].
    - exists 0%nat. split; [done|simpl; lia]. }
  { intros o Ho Hno. congruence. }
  destruct (Z.ltb_spec (Z.of_nat fd) 0); [lia|].
  apply wp_bind. unfold on_tb at 1. apply wp_on.
  eapply wp_mono; [|intros ? ? H'; exact H'|apply tb_init_law; exact Hidle].
  intros p s1 [Hc1 Hp]. cbn [tb io sched] in *.
  assert (Hfs1 : fs (opened psrc O_RDONLY fd (with_orc o (io s))) = fs (io s))
    by (simpl; rewrite Hsrc; simpl; by rewrite insert_id).
  destruct (Z.ltb_spec p 0).
  { wp_steps. cbn [hist]. rewrite Hhist. destruct Hp as [[_ Hoom]|[? _]]; [|lia].
    split_and!; [done|by do 2 right|done|].
    exists 0%nat. cbn [io tb]. rewrite Hfs1. split; [done|simpl; lia]. }
  destruct Hp as [[? _]|[_ Hh]]; [lia|].
  pose proof (suffix_length _ _ Ho) as Hlo.
  assert (Hio : io_ <> length (ofds (io s))) by (apply lookup_lt_Some in Hod; lia).
  set (s2 := Sys _ _ _ _).
  assert (Hr : running (io s) (tb_count (tb s)) psrc pout c o0
     (<[fd := length (ofds (io s))]> (fdt (io s))) (length (ofds (io s))) io_ rd p
     (tb_count (tb s) + (Z.of_nat (sum_list (sched s) + length c + length (orc (io s))) + 1))
     0 0 0 0 1 s2).
  { split; subst s2; cbn [tb io sched]; try done; try lia.
    - by rewrite Hfs1.
    - cbn [opened ofds with_orc]. by rewrite lookup_app_r, Nat.sub_diag.
    - cbn [opened ofds with_orc]. rewrite lookup_app_l, Nat.add_0_r; [done|]. by eapply lookup_lt_Some.
    - cbn [hist]. by rewrite Hhist.
    - cbn [opened orc with_orc]. lia. }
  assert (Hsrcfd : <[fd := length (ofds (io s))]> (fdt (io s)) !! fd = Some (length (ofds (io s))))
    by apply lookup_insert_eq.
  assert (Houtfd : <[fd := length (ofds (io s))]> (fdt (io s)) !! 1%nat = Some io_)
    by (rewrite lookup_insert_ne; [done|]; intros ->; congruence).
  assert (Hf : (BUF_SIZE + length c + length (orc (io s2)) < fuel)%nat)
    by (subst s2; cbn [io opened orc with_orc]; lia).
  apply wp_bind. eapply wp_mono; [| |eapply (wp_cat_loop (io s) (tb_count (tb s)) psrc pout c o0
      _ fd _ _ _ _ _ Hpath Hsrc Hsrcfd Houtfd (not_eq_sym Hio) Hw); [|exact Hf|exact Hr|apply length_replicate]].
  - intros [] s3 [t3 Hr3]. apply wp_bind. unfold on_tb. apply wp_on. destruct Hr3.
    eapply wp_mono; [|intros ? ? H'; exact H'|eapply tb_destroy_law; exact r_tb0].
    intros ? s4 [_ Hc4]. wp_steps. cbn [io tb]. rewrite firstn_all in r_fs0.
    split_and!; [done|done|done|]. lia.
  - intros code s3 (-> & He & Hh3 & k & Hk & Hrate). split_and!; [done|by left|done|]. by exists k.
  - lia.
Qed.
End whole_program.

(** ** The program linked with mytbf.c *)

(** The files hold what they held in [w], except for the standard output, which
    got the first [k] bytes of [c], and [k] is at most ten for each of [n] ticks. *)
Definition at_rate (w : os) (pout : string) (c o0 : list byte)
    (x : gmap string (list byte) * Z) : Prop :=
  exists k, x.1 = <[pout := o0 ++ take k c]> (fs w) /\ Z.of_nat k <= CPS * x.2.

(** C6: [slow_cat file], linked with the token-bucket library and started with
    the file and the standard output on different paths: as long as no read or
    write is cut short (a short write makes it overrun its buffer,
    [slow_cat_short_write_overruns]), it ends without undefined behaviour,
    whatever ticks arrive during its calls and however often they interrupt
    them; it prints exactly the file, and after each of its reads and writes it
    has printed a prefix of it of at most ten bytes per tick so far.  It exits
    early (status 1) only after a call failed other than by an interruption, the
    [open] was interrupted or no memory was left, having printed a prefix at no
    higher rate. *)
Theorem slow_cat_prints_at_rate malloc_ok garbage fuel prog psrc pout rest c o0 rd io_ d w sc :
  psrc <> pout -> fs w !! psrc = Some c -> fs w !! pout = Some o0 ->
  fdt w !! 1%nat = Some io_ -> ofds w !! io_ = Some (Ofd pout (length o0) rd true) ->
  Forall whole (orc w) ->
  CPS * (Z.of_nat (sum_list sc + length c + length (orc w)) + 2) <= INT_MAX ->
  (BUF_SIZE + length c + length (orc w) < fuel)%nat ->
  wp (main (TB := mytbf_bucket malloc_ok garbage) fuel (prog :: psrc :: rest))
     (fun r s' => r = 0 /\ fs (io s') = <[pout := o0 ++ c]> (fs w) /\
        Z.of_nat (length c) <= CPS * ticks (tb s') /\ Forall (at_rate w pout c o0) (hist s'))
     (fun code s' => code = 1 /\
        ((exists e, AErr e ∈ orc w /\ Zpos e <> EINTR) \/
         AErr (Z.to_pos EINTR) ∈ take 1 (orc w) \/ negb malloc_ok = true) /\
        at_rate w pout c o0 (fs (io s'), ticks (tb s')) /\ Forall (at_rate w pout c o0) (hist s'))
     (Sys (initial d) w sc []).
Proof.
  assert (Hrate : forall l, Forall (snap_ok w 0 pout c o0) l -> Forall (at_rate w pout c o0) l).
  { intros l Hl. eapply Forall_impl; [exact Hl|]. intros x (k & ? & ?). exists k. split; [done|lia]. }
  intros. eapply wp_mono; [| |eapply (slow_cat_ok (TB := mytbf_bucket malloc_ok garbage)
      (TBL := mytbf_bucket_laws malloc_ok garbage)); try done].
  - cbn [tb_count mytbf_bucket tb initial ticks io]. intros r s' (? & ? & ? & ?).
    split_and!; [done|done|lia|by apply Hrate].
  - cbn [tb_count tb_oom mytbf_bucket tb initial ticks io].
    intros code s' (? & ? & ? & k & ? & ?). split_and!; [done..| |by apply Hrate].
    exists k. split; [done|simpl; lia].
  - split; [apply wf_initial|apply absr_initial].
Qed.

(** ** A concrete run *)

Definition demo_os (file : list byte) (answers : list sysans) : os :=
  {| fs := {[ "in"%string := file; "out"%string := [] ]};
     ofds := [Ofd "out" 0 false true];
     fdt := {[ 1%nat := 0%nat ]};
     errno := 0; orc := answers |}.

Definition demo_input : list byte := bytes "hello token bucket".

Lemma slow_cat_prints_at_rate_witness :
  let w := demo_os demo_input [AFull; AErr 4] in
  wp (main (TB := mytbf_bucket true (MkTbf 0 0 0 0)) 2000 ["slow_cat"; "in"]%string)
     (fun r s' => r = 0 /\ fs (io s') = <["out"%string := [] ++ demo_input]> (fs w) /\
        Z.of_nat (length demo_input) <= CPS * ticks (tb s') /\
        Forall (at_rate w "out" demo_input []) (hist s'))
     (fun code s' => code = 1 /\
        ((exists e, AErr e ∈ orc w /\ Zpos e <> EINTR) \/
         AErr (Z.to_pos EINTR) ∈ take 1 (orc w) \/ negb true = true) /\
        at_rate w "out" demo_input [] (fs (io s'), ticks (tb s')) /\
        Forall (at_rate w "out" demo_input []) (hist s'))
     (Sys (initial SIG_DFL) w [1%nat; 0%nat; 2%nat] []).
Proof.
  apply (slow_cat_prints_at_rate true (MkTbf 0 0 0 0) 2000 "slow_cat" "in" "out" [] demo_input [] false 0);
    [done|reflexivity|reflexivity|reflexivity|reflexivity|repeat constructor|vm_compute; done|].
  vm_compute. lia.
Defined.

(** A short write breaks [slow_cat]: its inner loop asks for [sz] bytes again
    from the advanced pointer, so [cur] jumps over [sz] and the loop prints
    whatever follows in the buffer until it reads past the array's end.  Here a
    ten-byte file whose first write accepts four bytes ends in an out-of-bounds
    access after 1024 bytes were printed. *)
Theorem slow_cat_short_write_overruns :
  exists s', main (TB := mytbf_bucket true (MkTbf 0 0 0 0)) 200 ["slow_cat"; "in"]%string
       (Sys (initial SIG_DFL) (demo_os (bytes "0123456789") [AFull; AFull; ALen 4]) [] []) =
     Fault OutOfBounds s' /\
     exists out, fs (io s') !! "out"%string = Some out /\ length out = 1024%nat /\
       take 10 out = bytes "0123456789" /\ drop 10 out = replicate 1014 x00.
Proof. eexists. split; [vm_compute; reflexivity|]. eexists. by vm_compute. Qed.
