(* ===== verification/Token.v ===== *)
(** * Token: src/signal/token.c

    An earlier form of [slow_cat] without the library: the handler of [SIGALRM]
    sets the next alarm and adds a token, up to a bound, and every [read] of at
    most ten bytes costs one.  An alarm goes off once; [armed] says whether one is
    outstanding.  [sched] says how many alarms arrive during each of the
    following system calls, between the test of the counter and the [pause()],
    and while [token--] is between its load and its store, where an alarm is
    lost.  [hist] notes, after each read and write, what the files held and how
    many alarms there were. *)

From S2P Require Import Prelude Prog Signals Posix.

Definition TOKEN_MAX : Z := 1024.
Definition CPS : nat := 10.

(** The system, the counter, the alarms so far and to come, the disposition of
    [SIGALRM] and the outstanding alarm, and the history. *)
Record tk := Tk {
  io : os;
  token : Z;
  ticks : Z;
  sched : list nat;
  disposition : sig_handler;
  armed : bool;
  hist : list (gmap string (list byte) * Z) }.

Definition set_io (s : os) (w : tk) : tk :=
  Tk s (token w) (ticks w) (sched w) (disposition w) (armed w) (hist w).
Definition set_token (t : Z) (w : tk) : tk :=
  Tk (io w) t (ticks w) (sched w) (disposition w) (armed w) (hist w).
Definition set_sched (l : list nat) (w : tk) : tk :=
  Tk (io w) (token w) (ticks w) l (disposition w) (armed w) (hist w).

Definition on_io {A} : M os A -> M tk A := on io set_io.

(** The state at program start: no alarm is outstanding. *)
Definition start (o : os) (d : sig_handler) (sc : list nat) : tk := Tk o 0 0 sc d false [].

(** ** The program *)

(** [alarm(1)] *)
Definition alarm1 : M tk unit :=
  modify (fun w => Tk (io w) (token w) (ticks w) (sched w) (disposition w) true (hist w)).

(** [signal(SIGALRM, h)] *)
Definition signal (h : sig_handler) : M tk unit :=
  modify (fun w => Tk (io w) (token w) (ticks w) (sched w) h (armed w) (hist w)).

Definition on_alarm : M tk unit :=
  alarm1 ;;
  w ← get;
  if TOKEN_MAX <=? token w then mret tt else
  put (set_token (wrap_u32 (token w + 1)) w).

(** The outstanding alarm goes off, once: it is counted, spent, and the handler
    runs.  Without an alarm nothing happens; a signal that does not find the
    handler (it would end the process) has no result here. *)
Definition tick : M tk unit :=
  w ← get;
  if armed w then
    if decide (disposition w = H_handle) then
      put (Tk (io w) (token w) (ticks w + 1) (sched w) (disposition w) false (hist w)) ;;
      on_alarm
    else (fun w => OutOfFuel w)
  else mret tt.

Fixpoint alarms (n : nat) : M tk unit :=
  match n with O => mret tt | S n' => tick ;; alarms n' end.

(** [pause()] returns after the handler ran; with no alarm outstanding it does
    not return. *)
Definition pause : M tk unit :=
  w ← get;
  if armed w then tick else (fun w => OutOfFuel w).

(** The next entry of the schedule. *)
Definition interrupt : M tk unit :=
  n ← gets (fun w => hd 0%nat (sched w));
  modify (fun w => set_sched (tl (sched w)) w) ;;
  alarms n.

Definition note (w : tk) : tk :=
  Tk (io w) (token w) (ticks w) (sched w) (disposition w) (armed w)
     (hist w ++ [(fs (io w), ticks w)]).

Definition call {A} (m : M os A) : M tk A :=
  interrupt ;; r ← on_io m; modify note ;; mret r.

(** [while(token <= 0) pause();] on an [unsigned int]; alarms may arrive between
    the test and the [pause]. *)
Definition wait_token (fuel : nat) : M tk unit :=
  iter fuel (fun _ : unit =>
    t ← gets token;
    if t <=? 0 then interrupt ;; pause ;; mret (inl tt) else mret (inr tt)) tt.

(** [token--] *)
Definition take_token : M tk unit :=
  t ← gets token;
  interrupt ;;
  modify (set_token (wrap_u32 (t - 1))).

(** [while(sz > 0) { ... }] *)
Definition write_out (fuel : nat) (buf : list byte) (sz : Z) : M tk unit :=
  iter fuel (fun '(cur, sz) =>
    if 0 <? sz then
      data ← slice buf (Z.to_nat cur) (Z.to_nat sz);
      r ← call (sys_write 1 data);
      if r <? 0 then
        w ← get;
        if errno (io w) =? EINTR then mret (inl (cur, sz)) else exit_ 1
      else mret (inl (cur + r, sz - r))
    else mret (inr tt)) (0, sz).

(** One round of [while(1)]. *)
Definition cat_step (fuel : nat) (src : Z) (buf : list byte) : M tk (list byte + unit) :=
  wait_token fuel ;;
  '(sz, buf) ← call (sys_read src buf CPS);
  if sz <? 0 then
    w ← get;
    if errno (io w) =? EINTR then mret (inl buf) else exit_ 1
  else
    take_token ;;
    if sz =? 0 then mret (inr tt) else
    write_out fuel buf sz ;;
    mret (inl buf).

(** Without an argument the usage message prints [argv[1]], a null pointer. *)
Definition main (fuel : nat) (argv : list string) (buf0 : list byte) : M tk unit :=
  if decide (length argv < 2)%nat then fail NullDeref else
  src ← on_io (sys_open (nth 1 argv EmptyString) O_RDONLY);
  if src <? 0 then exit_ 1 else
  signal H_handle ;;
  alarm1 ;;
  iter fuel (cat_step fuel src) buf0 ;;
  on_io (sys_close src) ;;
  exit_ 0.

(** ** Correctness *)

Section correctness.
(** The file, the standard output [pout] that holds [o0], and the descriptors. *)
Context (w0 : os) (psrc pout : string) (c o0 : list byte) (fdt0 : gmap nat nat)
  (src is_ io_ : nat) (rd : bool).
Hypothesis Hpath : psrc <> pout.
Hypothesis Hsrc : fs w0 !! psrc = Some c.
Hypothesis Hfdsrc : fdt0 !! src = Some is_.
Hypothesis Hfdout : fdt0 !! 1%nat = Some io_.
Hypothesis Hdiff : is_ <> io_.

(** What may be noted: [k] bytes of the file printed, at most ten per alarm. *)
Definition at_rate (x : gmap string (list byte) * Z) : Prop :=
  exists k, x.1 = <[pout := o0 ++ take k c]> (fs w0) /\ Z.of_nat k <= 10 * x.2.

(** [k] bytes printed, [off] read; [h] tokens of the counter are already used. *)
Record printing (k off : nat) (h : Z) (s : tk) : Prop := {
  p_fs : fs (io s) = <[pout := o0 ++ take k c]> (fs w0);
  p_fdt : fdt (io s) = fdt0;
  p_src : ofds (io s) !! is_ = Some (Ofd psrc off true false);
  p_out : ofds (io s) !! io_ = Some (Ofd pout (length o0 + k) rd true);
  p_orc : orc (io s) `suffix_of` orc w0;
  p_k : (k <= off <= length c)%nat;
  p_tok : h <= token s <= TOKEN_MAX /\ 0 <= h;
  p_sig : disposition s = H_handle /\ armed s = true;
  p_hist : Forall at_rate (hist s);
  p_rate : Z.of_nat off + 10 * (token s - h) <= 10 * ticks s }.

Lemma printing_rate k off h s : printing k off h s -> at_rate (fs (io s), ticks s).
Proof. intros []. exists k. split; [done|]. simpl. lia. Qed.

Lemma printing_note k off h s : printing k off h s -> printing k off h (note s).
Proof.
  intros Hp. pose proof (printing_rate _ _ _ _ Hp). destruct Hp. split; try done.
  by apply Forall_app_2; [|constructor].
Qed.

(** What is said of an early [exit(1)]. *)
Definition token_gave_up (code : Z) (s : tk) : Prop :=
  code = 1 /\ (exists e, AErr e ∈ orc w0 /\ Zpos e <> EINTR) /\
  at_rate (fs (io s), ticks s) /\ Forall at_rate (hist s).

Lemma wp_alarm k off h (Q : unit -> tk -> Prop) E s :
  printing k off h s ->
  (forall s1, printing k off h s1 -> io s1 = io s -> ticks s1 = ticks s + 1 -> token s <= token s1 ->
     (token s < TOKEN_MAX -> token s1 = token s + 1) -> Q tt s1) ->
  wp tick Q E s.
Proof.
  intros [] HQ. destruct p_sig0 as [Hd Ha]. unfold tick, on_alarm, alarm1. wp_steps.
  rewrite Ha, decide_True by done. wp_steps. cbn [io token ticks sched disposition armed hist set_token].
  unfold TOKEN_MAX, wrap_u32 in *.
  destruct (Z.leb_spec 1024 (token s)); wp_steps; [|rewrite Z.mod_small by lia];
    (apply HQ; [|done|done|cbn [token set_token]; lia..]; split;
     cbn [io token ticks disposition armed hist set_token]; try done; unfold TOKEN_MAX; lia).
Qed.

Lemma wp_alarms n k off h (Q : unit -> tk -> Prop) E s :
  printing k off h s -> (forall s1, printing k off h s1 -> io s1 = io s -> ticks s <= ticks s1 -> token s <= token s1 -> Q tt s1) ->
  wp (alarms n) Q E s.
Proof.
  revert s. induction n as [|n IH]; intros s Hp HQ; cbn [alarms]; [wp_steps; apply HQ; [done|done|lia|lia]|].
  apply wp_bind. eapply wp_alarm; [done|]. intros s1 H1 Hio Hti Hto _. apply IH; [done|].
  intros s2 H2 Hio2 Hti2 Hto2. apply HQ; [done|congruence|lia|lia].
Qed.

Lemma wp_interrupt k off h (Q : unit -> tk -> Prop) E s :
  printing k off h s -> (forall s1, printing k off h s1 -> io s1 = io s -> ticks s <= ticks s1 -> token s <= token s1 -> Q tt s1) ->
  wp interrupt Q E s.
Proof.
  intros Hp HQ. unfold interrupt. wp_steps. apply (wp_alarms _ k off h); [|auto]. destruct Hp. by split.
Qed.

Lemma wp_tcall {A} (m : M os A) k off h (Q : A -> tk -> Prop) E s :
  printing k off h s ->
  (forall s1, printing k off h s1 -> io s1 = io s -> token s <= token s1 ->
     wp m (fun a o => Q a (note (set_io o s1))) (fun e o => E e (set_io o s1)) (io s)) ->
  wp (call m) Q E s.
Proof.
  intros Hp Hm. unfold call, on_io. apply wp_bind. eapply wp_interrupt; [done|]. intros s1 H1 Hio _ Hto.
  apply wp_bind, wp_on. rewrite Hio. eapply wp_mono; [| |by apply (Hm s1)].
  - intros a o HQ. by wp_steps.
  - done.
Qed.

(** A failed call is repeated, or ends the program. *)
Lemma wp_eintr k off h {R} (x : R) (Q : R -> tk -> Prop) e o s :
  printing k off h s -> 0 <= token s -> orc (io s) = AErr e :: o ->
  (forall s1, printing k off h s1 -> length (orc (io s)) = S (length (orc (io s1))) -> token s1 = token s -> Q x s1) ->
  wp (w ← get; if errno (io w) =? EINTR then mret x else exit_ 1) Q token_gave_up
     (note (set_io (with_errno (Zpos e) (with_orc o (io s))) s)).
Proof.
  intros Hp Ht Ho HQ. pose proof (printing_rate _ _ _ _ Hp).
  wp_steps. cbn [note set_io io errno with_errno with_orc].
  assert (Hs : o `suffix_of` orc (io s)) by (rewrite Ho; by exists [AErr e]).
  destruct (Z.eqb_spec (Zpos e) EINTR) as [He|He]; wp_steps.
  - apply HQ; [|by rewrite Ho|done]. apply printing_note. destruct Hp. split; cbn; try done.
    by trans (orc (io s)).
  - destruct Hp. split_and!; [done| |done|by apply Forall_app_2; [|constructor]].
    exists e. split; [|done]. destruct p_orc0 as [pre ->]. rewrite Ho, elem_of_app. right. left.
Qed.

Lemma wp_token_wait fuel k off (Q : unit -> tk -> Prop) E s :
  (1 < fuel)%nat -> printing k off 0 s ->
  (forall s1, printing k off 0 s1 -> io s1 = io s -> 1 <= token s1 -> Q tt s1) ->
  wp (wait_token fuel) Q E s.
Proof.
  intros Hf Hp HQ. destruct fuel as [|[|fuel]]; [lia|lia|]. unfold wait_token. apply wp_iter_S. wp_steps.
  destruct (Z.leb_spec (token s) 0) as [Hz|Hz]; [|wp_steps; apply HQ; [done|done|lia]].
  apply wp_bind. eapply wp_interrupt; [done|]. intros s0 H0 Hio0 _ Hto. unfold pause. wp_steps.
  rewrite (proj2 (p_sig _ _ _ _ H0)).
  eapply wp_alarm; [done|]. intros s1 H1 Hio _ Hto1 Ht. wp_steps. apply wp_iter_S. wp_steps.
  pose proof (p_tok _ _ _ _ Hp). pose proof (p_tok _ _ _ _ H0).
  assert (1 <= token s1).
  { destruct (Z_lt_le_dec (token s0) TOKEN_MAX) as [Hl|Hl]; [rewrite (Ht Hl); lia|unfold TOKEN_MAX in *; lia]. }
  destruct (Z.leb_spec (token s1) 0); [lia|]. wp_steps. apply HQ; [done|congruence|lia].
Qed.

Lemma wp_take_token k off (Q : unit -> tk -> Prop) E s :
  printing k off 1 s -> (forall s1, printing k off 0 s1 -> io s1 = io s -> Q tt s1) -> wp take_token Q E s.
Proof.
  intros Hp HQ. unfold take_token. wp_steps. pose proof (p_tok _ _ _ _ Hp). pose proof (p_rate _ _ _ _ Hp).
  eapply wp_interrupt; [done|]. intros s2 H2 Hio Hti _. wp_steps. apply HQ; [|done].
  destruct H2. unfold TOKEN_MAX, wrap_u32 in *. split; cbn [io token ticks disposition armed hist set_token]; try done;
    rewrite Z.mod_small; unfold TOKEN_MAX; lia.
Qed.

(** The inner loop prints the [n] bytes just read, in as many pieces as the
    system likes. *)
Lemma wp_token_write fuel n k buf (Q : unit -> tk -> Prop) s :
  printing k (k + n) 0 s -> (n <= length buf)%nat -> take n buf = take n (drop k c) ->
  (n + length (orc (io s)) < fuel)%nat ->
  (forall s1, printing (k + n) (k + n) 0 s1 -> (length (orc (io s1)) <= length (orc (io s)))%nat -> Q tt s1) ->
  wp (write_out fuel buf (Z.of_nat n)) Q token_gave_up s.
Proof.
  intros Hp Hn Htake Hf HQ. unfold write_out.
  apply (wp_iter (fun '(cur, sz) s1 => exists j, (j <= n)%nat /\ cur = Z.of_nat j /\ sz = Z.of_nat (n - j) /\
            printing (k + j) (k + n) 0 s1 /\ (length (orc (io s1)) <= length (orc (io s)))%nat)
          (fun '(_, sz) s1 => Z.to_nat sz + length (orc (io s1)))%nat).
  2: { exists 0%nat. rewrite Nat.add_0_r, Nat.sub_0_r. split_and!; [lia|done..]. }
  2: { by rewrite Nat2Z.id. }
  intros [cur sz] s1 (j & Hj & -> & -> & H1 & Hle).
  destruct (Z.ltb_spec 0 (Z.of_nat (n - j))) as [Hlt|Hge]; wp_steps.
  2: { assert (j = n) as -> by lia. by apply HQ. }
  rewrite !Nat2Z.id. apply wp_slice; [lia|].
  rewrite (chunk_rest buf (drop k c) n j Htake), drop_drop. apply wp_bind. eapply wp_tcall; [exact H1|].
  intros s2 H2 Hio _. rewrite <-Hio in *. pose proof (p_tok _ _ _ _ H2).
  eapply (wp_write 1 io_); [rewrite (p_fdt _ _ _ _ H2); exact Hfdout|exact (p_out _ _ _ _ H2)|done| |].
  { intros e o Ho. cbn iota. apply (wp_eintr (k + j) (k + n) 0 (inl (Z.of_nat j, Z.of_nat (n - j))) _ e o s2); [done|lia|done|].
    intros s3 H3 Hlen _. split; [|lia]. exists j. split_and!; [done..|lia]. }
  intros m o. cbv zeta. cbn [of_path of_off]. intros Ho Hm Hm0 _. rewrite length_take, length_drop in Hm, Hm0.
  pose proof (p_k _ _ _ _ H2). destruct (Z.ltb_spec (Z.of_nat m) 0); [lia|]. wp_steps. cbn [io].
  apply suffix_length in Ho as Hol. split; [|cbn; lia].
  exists (j + m)%nat. split_and!; [lia|lia|lia| |cbn; lia]. rewrite Nat.add_assoc.
  apply printing_note. destruct H2.
  split; cbn [set_io io token ticks disposition armed hist fs fdt ofds orc set_off with_ofds with_fs with_orc]; try done.
  - rewrite p_fs0, lookup_insert_eq, insert_insert_eq. cbn [default from_option id]. f_equal.
    rewrite firstn_firstn, Nat.min_l by lia.
    replace (length o0 + (k + j))%nat with (length (o0 ++ take (k + j) c)) by (rewrite length_app, length_take; lia).
    rewrite splice_end, <-(assoc_L (++)), take_take_drop. done.
  - by rewrite list_lookup_insert_ne.
  - rewrite list_lookup_insert_eq by (by eapply lookup_lt_Some). do 2 f_equal. lia.
  - by trans (orc (io s2)).
  - lia.
Qed.

(** One round moves a chunk, is interrupted, or stops at the end of the file. *)
Lemma wp_token_step fuel k buf s :
  (CPS + length (orc w0) < fuel)%nat -> length buf = CPS -> printing k k 0 s ->
  wp (cat_step fuel (Z.of_nat src) buf)
     (fun x s1 => match x with
        | inl buf' => exists k', length buf' = CPS /\ printing k' k' 0 s1 /\ (k <= k')%nat /\
            ((length c - k') + length (orc (io s1)) < (length c - k) + length (orc (io s)))%nat
        | inr _ => printing (length c) (length c) 0 s1
        end) token_gave_up s.
Proof.
  intros Hf Hbuf Hp. unfold cat_step. apply wp_bind, (wp_token_wait _ k k); [unfold CPS in *; lia|done|].
  intros s1 H1 Hio1 Ht1. rewrite <-Hio1. apply wp_bind.
  eapply wp_tcall; [exact H1|]. intros s2 H2 Hio2 Hto. rewrite <-Hio2 in *. pose proof (p_tok _ _ _ _ H2).
  eapply (wp_read src is_); [by rewrite (p_fdt _ _ _ _ H2)|exact (p_src _ _ _ _ H2)|done|lia| |].
  { intros e o Ho. cbn iota. apply (wp_eintr k k 0 (inl buf) _ e o s2); [done|lia|done|].
    intros s3 H3 Hlen _. exists k. split_and!; [done|done|done|lia]. }
  intros n o. cbv zeta. cbn [of_off of_path]. intros Ho Hn Hn0 _.
  assert (Hc : default [] (fs (io s2) !! psrc) = c).
  { rewrite (p_fs _ _ _ _ H2), lookup_insert_ne by done. by rewrite Hsrc. }
  rewrite Hc in *. rewrite length_drop in Hn. apply suffix_length in Ho as Hol.
  destruct (Z.ltb_spec (Z.of_nat n) 0); [lia|]. apply wp_bind.
  set (s3 := note _).
  assert (H3 : printing k (k + n) 1 s3).
  { apply printing_note. destruct H2. unfold CPS in *. split; cbn; try done; try lia.
    - by apply list_lookup_insert_eq, (lookup_lt_Some _ _ _ p_src0).
    - by rewrite list_lookup_insert_ne.
    - by trans (orc (io s2)). }
  apply (wp_take_token k (k + n)); [done|]. intros s4 H4 Hio4.
  assert (Hol4 : (length (orc (io s4)) <= length (orc (io s2)))%nat) by (rewrite Hio4; cbn; lia).
  destruct (Z.eqb_spec (Z.of_nat n) 0) as [Hz|Hz].
  - wp_steps. assert (n = 0)%nat as -> by lia. destruct Hn0 as [?|Hd]; [done|done|].
    apply (f_equal length) in Hd. rewrite length_drop in Hd. simpl in Hd. pose proof (p_k _ _ _ _ H2).
    rewrite Nat.add_0_r in H4. by replace (length c) with k by lia.
  - assert (Hlen : length (take n (drop k c)) = n) by (rewrite length_take, length_drop; lia).
    apply wp_bind, (wp_token_write _ n k); [done| | | |].
    + rewrite length_app, Hlen, length_drop. lia.
    + by rewrite take_app_length' by done.
    + pose proof (suffix_length _ _ (p_orc _ _ _ _ H2)). unfold CPS in *. lia.
    + intros s5 H5 Hol5. wp_steps. exists (k + n)%nat. split_and!; [|done|lia|lia].
      rewrite length_app, Hlen, length_drop. lia.
Qed.
End correctness.

(** C15: [token file], started with no alarm outstanding and with the file and
    the standard output on different paths, ends without blocking for ever,
    whatever short reads, short writes and interruptions happen and however the
    alarms fall (during the calls, between a test and its [pause], within
    [token--]): it prints exactly the file and ends with status 0, or it ends
    with status 1 and a prefix printed, and that only after a [read], [write] or
    [open] failed for another reason than an interruption, or its first call,
    the [open], was interrupted.  After each of its reads and writes, and at the
    end, it has printed at most ten bytes for every alarm so far. *)
Theorem token_prints_at_rate fuel prog psrc pout rest buf0 c o0 rd io_ w d sc :
  psrc <> pout -> fs w !! psrc = Some c -> fs w !! pout = Some o0 ->
  fdt w !! 1%nat = Some io_ -> ofds w !! io_ = Some (Ofd pout (length o0) rd true) ->
  length buf0 = CPS -> (length c + length (orc w) + CPS < fuel)%nat ->
  wp (main fuel (prog :: psrc :: rest) buf0) (fun _ _ => False)
     (fun code s => at_rate w pout c o0 (fs (io s), ticks s) /\
        Forall (at_rate w pout c o0) (hist s) /\
        (code = 0 /\ fs (io s) = <[pout := o0 ++ c]> (fs w) \/
         code = 1 /\ ((exists e, AErr e ∈ orc w /\ Zpos e <> EINTR) \/
                      AErr (Z.to_pos EINTR) ∈ take 1 (orc w))))
     (start w d sc).
Proof.
  intros Hne Hsrc Hout Hfd Hofd Hbuf Hf. unfold main. rewrite decide_False by (simpl; lia). cbn [nth].
  apply wp_bind, wp_on, wp_open; [|cbn; congruence|].
  { cbn [start io]. intros e o Ho. cbn iota. wp_steps. split_and!; [|done|right; split; [done|]].
    - exists 0%nat. cbn [io fs set_io start with_errno with_orc ticks fst snd]. rewrite app_nil_r.
      rewrite insert_id by done. by split.
    - rewrite Ho. destruct (decide (Zpos e = EINTR)) as [He|He].
      + right. unfold EINTR in *. simplify_eq. by apply list_elem_of_singleton.
      + left. exists e. split; [left|done]. }
  cbn [start io].
  intros o fd Ho Hnew _. destruct (Z.ltb_spec (Z.of_nat fd) 0); [lia|].
  unfold signal, alarm1. wp_steps.
  set (s0 := Tk _ _ _ _ _ _ _). set (w1 := opened psrc O_RDONLY fd (with_orc o w)).
  assert (Hfd1 : fd <> 1%nat) by (intros ->; cbn in Hnew; congruence).
  assert (Hp0 : printing w psrc pout c o0 (fdt w1) (length (ofds w)) io_ rd 0 0 0 s0).
  { split; cbn [io token ticks s0]; try done; try lia.
    - cbn. rewrite Hsrc. cbn. rewrite app_nil_r, !insert_id by done. done.
    - cbn. by rewrite lookup_app_r, Nat.sub_diag by done.
    - cbn. rewrite Nat.add_0_r. by apply lookup_app_l_Some. }
  eapply wp_mono;
    [| |apply (wp_iter (fun buf s => exists k, length buf = CPS /\
          printing w psrc pout c o0 (fdt w1) (length (ofds w)) io_ rd k k 0 s)
        (fun _ s => length c - from_option of_off 0 (ofds (io s) !! length (ofds w)) + length (orc (io s)))%nat _
        (fun _ s => printing w psrc pout c o0 (fdt w1) (length (ofds w)) io_ rd
                      (length c) (length c) 0 s)
        (token_gave_up w pout c o0))].
  - intros [] s Hp. apply wp_bind. unfold on_io. apply wp_on, wp_close_any. intros r w' Hfs _. wp_steps.
    cbn [set_io io ticks hist]. rewrite Hfs. split_and!.
    + destruct Hp. exists (length c). split; [done|simpl; lia].
    + by eapply p_hist.
    + left. split; [done|]. rewrite (p_fs _ _ _ _ _ _ _ _ _ _ _ _ _ Hp). by rewrite firstn_all.
  - intros code s (-> & He & Hr & Hh). split_and!; [done|done|right]. split; [done|]. by left.
  - intros buf s (k & Hl & Hp). pose proof (p_src _ _ _ _ _ _ _ _ _ _ _ _ _ Hp) as Hd.
    eapply wp_mono; [| |apply (wp_token_step w psrc pout c o0 (fdt w1) fd
                                (length (ofds w)) io_ rd) with (k := k); try done].
    + intros [buf'|[]] s1 Hx; [|done]. destruct Hx as (k' & ? & Hp' & ? & ?). split; [by exists k'|].
      rewrite Hd, (p_src _ _ _ _ _ _ _ _ _ _ _ _ _ Hp'). simpl. lia.
    + done.
    + cbn. by rewrite lookup_insert_eq.
    + cbn. by rewrite lookup_insert_ne.
    + apply lookup_lt_Some in Hofd. lia.
    + lia.
  - exists 0%nat. done.
  - rewrite (p_src _ _ _ _ _ _ _ _ _ _ _ _ _ Hp0). cbn. apply suffix_length in Ho. lia.
Qed.

(** A file of twelve bytes; the second answer interrupts a call, the fourth
    cuts a write short. *)
Definition token_demo : os :=
  {| fs := <["in" := bytes "twelve bytes"]> {["out" := []]}; ofds := [Ofd "out" 0 false true];
     fdt := {[1%nat := 0%nat]}; errno := 0; orc := [AFull; AErr 4; AFull; ALen 3] |}%string.

Lemma token_prints_at_rate_witness :
  wp (main 100 ["token"; "in"]%string (replicate CPS x00)) (fun _ _ => False)
     (fun code s => at_rate token_demo "out" (bytes "twelve bytes") [] (fs (io s), ticks s) /\
        Forall (at_rate token_demo "out" (bytes "twelve bytes") []) (hist s) /\
        (code = 0 /\ fs (io s) = <["out"%string := [] ++ bytes "twelve bytes"]> (fs token_demo) \/
         code = 1 /\ ((exists e, AErr e ∈ orc token_demo /\ Zpos e <> EINTR) \/
                      AErr (Z.to_pos EINTR) ∈ take 1 (orc token_demo))))
     (start token_demo SIG_DFL [1%nat; 0%nat; 2%nat]).
Proof.
  apply (token_prints_at_rate 100 "token" "in" "out" [] (replicate CPS x00) (bytes "twelve bytes") [] false 0);
    try reflexivity; [done|]. vm_compute. lia.
Defined.
