(* ===== verification/SigMask.v ===== *)
(** * SigMask: signal masks, and the programs that wait for a signal

    A process with its mask, its pending signals and its dispositions, and the
    calls [signal], [sigprocmask], [sleep], [pause] and [sigsuspend].  When
    signals arrive is an explicit list: one batch before each system call, and
    one for each time a waiting call looks again.  A call that waits when no
    more signals arrive never returns ([OutOfFuel]).

    src/signal/int.c is the Module [Int], sig.c [Sig], suspend.c [Suspend],
    suspend1.c [Suspend1], alarm.c [Alarm], pause.c [Pause]. *)

From S2P Require Import Prelude Prog.

(** ** The process *)

Definition SIGINT : Z := 2.
Definition SIGALRM : Z := 14.
Definition SIGTSTP : Z := 20.

(** The default action is to end the process, except for the signals that are
    ignored (SIGCHLD, SIGCONT, SIGURG, SIGWINCH) or stop the process until it is
    continued (SIGSTOP, SIGTSTP, SIGTTIN, SIGTTOU), which runs no code of it. *)
Definition terminates (s : Z) : bool :=
  negb (existsb (Z.eqb s) [17; 18; 19; 20; 21; 22; 23; 28]).

(** [H] names the handlers of a program. *)
Inductive action (H : Type) :=
| A_default
| A_ignore
| A_call (h : H).
Arguments A_default {H}.
Arguments A_ignore {H}.
Arguments A_call {H} h.

(** What has happened: a signal was generated, a handler was called, a waiting
    call returned. *)
Inductive event := EGen (s : Z) | EHandle (s : Z) | EWake.

Record proc (H : Type) := Proc {
  mask : gset Z; pend : gset Z; disp : gmap Z (action H);
  arr : list (list Z); out : list byte; trace : list event }.
Arguments Proc {H}.
Arguments mask {H}.
Arguments pend {H}.
Arguments disp {H}.
Arguments arr {H}.
Arguments out {H}.
Arguments trace {H}.

Inductive sig_how := SIG_BLOCK | SIG_UNBLOCK | SIG_SETMASK.

Section calls.
Context {H : Type} (code : H -> M (proc H) unit).
Implicit Types (w : proc H) (s : Z).

Definition set_mask (m : gset Z) : M (proc H) unit :=
  modify (fun w => Proc m (pend w) (disp w) (arr w) (out w) (trace w)).
Definition set_pend (m : gset Z) : M (proc H) unit :=
  modify (fun w => Proc (mask w) m (disp w) (arr w) (out w) (trace w)).
Definition set_arr (a : list (list Z)) : M (proc H) unit :=
  modify (fun w => Proc (mask w) (pend w) (disp w) a (out w) (trace w)).
Definition log (e : event) : M (proc H) unit :=
  modify (fun w => Proc (mask w) (pend w) (disp w) (arr w) (out w) (e :: trace w)).

(** Output that the standard output accepts. *)
Definition emit (data : list byte) : M (proc H) unit :=
  modify (fun w => Proc (mask w) (pend w) (disp w) (arr w) (out w ++ data) (trace w)).

(** The action of a signal that is not blocked; the result says whether a
    handler ran.  The signal itself is blocked while it does. *)
Definition act (s : Z) : M (proc H) bool :=
  a ← gets (fun w => default A_default (disp w !! s));
  match a with
  | A_ignore => mret false
  | A_default => if terminates s then exit_ (128 + s) else mret false
  | A_call h =>
      m ← gets mask;
      set_mask (m ∪ {[s]}) ;; log (EHandle s) ;; code h ;; set_mask m ;; mret true
  end.

(** A signal is generated: a blocked one stays pending, once. *)
Definition generate (s : Z) : M (proc H) bool :=
  log (EGen s) ;;
  w ← get;
  if decide (s ∈ mask w) then set_pend (pend w ∪ {[s]}) ;; mret false else act s.

Fixpoint each (f : Z -> M (proc H) bool) (l : list Z) : M (proc H) bool :=
  match l with
  | [] => mret false
  | s :: l' => b ← f s; b' ← each f l'; mret (b || b')
  end.

(** The next batch arrives. *)
Definition interrupt : M (proc H) bool :=
  w ← get;
  set_arr (tl (arr w)) ;; each generate (hd [] (arr w)).

(** The pending signals that the mask lets through. *)
Definition deliver : M (proc H) bool :=
  w ← get;
  set_pend (pend w ∩ mask w) ;; each act (elements (pend w ∖ mask w)).

Definition call {A} (m : M (proc H) A) : M (proc H) A := interrupt ;; m.

Definition sig_write (data : list byte) : M (proc H) unit := call (emit data).
Definition sleep : M (proc H) unit := call (mret tt).

Definition signal (s : Z) (a : action H) : M (proc H) (action H) :=
  call (
    w ← get;
    put (Proc (mask w) (pend w) (<[s := a]> (disp w)) (arr w) (out w) (trace w)) ;;
    mret (default A_default (disp w !! s))).

(** The result is the old mask. *)
Definition sigprocmask (how : sig_how) (set : gset Z) : M (proc H) (gset Z) :=
  call (
    m ← gets mask;
    set_mask (match how with SIG_BLOCK => m ∪ set | SIG_UNBLOCK => m ∖ set | SIG_SETMASK => set end) ;;
    deliver ;;
    mret m).

(** No signal will ever arrive again. *)
Definition block {A} : M (proc H) A := fun w => OutOfFuel w.

(** Sleep until a handler has run. *)
Definition await : M (proc H) unit := fun w =>
  iter (S (length (arr w))) (fun _ : unit =>
    l ← gets arr;
    match l with
    | [] => block
    | _ => b ← interrupt; if (b : bool) then mret (inr tt) else mret (inl tt)
    end) tt w.

Definition pause : M (proc H) unit := call (await ;; log EWake).

(** The mask is replaced and the pending signals are looked at in one step. *)
Definition sigsuspend (set : gset Z) : M (proc H) unit :=
  call (
    m ← gets mask;
    set_mask set ;;
    b ← deliver;
    (if (b : bool) then mret tt else await) ;;
    set_mask m ;;
    deliver ;;
    log EWake).

End calls.

(** ** The programs *)

(** The row that three of the programs print. *)
Definition stars {H} (code : H -> M (proc H) unit) : M (proc H) unit :=
  for_ 5 0 (fun _ => sig_write code (bytes "*") ;; sleep code).

Definition newline : list byte := [x0a].

(** *** src/signal/int.c *)
Module Int.

Inductive handlers := handler.

Definition code (h : handlers) : M (proc handlers) unit := emit (bytes "!").

Definition round : M (proc handlers) unit :=
  sigprocmask code SIG_BLOCK {[SIGINT]} ;;
  stars code ;;
  sigprocmask code SIG_UNBLOCK {[SIGINT]} ;;
  sig_write code newline.

Definition main : M (proc handlers) Z :=
  p ← signal code SIGINT (A_call handler);
  old ← sigprocmask code SIG_BLOCK ∅;
  for_ 1000 0 (fun _ => round) ;;
  sigprocmask code SIG_SETMASK old ;;
  signal code SIGINT p ;;
  mret 0.

End Int.

(** *** src/signal/sig.c *)
Module Sig.

Inductive handlers := int_handler.

Definition code (h : handlers) : M (proc handlers) unit := emit (bytes "SIG_INT!" ++ newline).

Definition main : M (proc handlers) Z :=
  signal code SIGINT A_ignore ;;
  signal code SIGINT (A_call int_handler) ;;
  for_ 10 0 (fun _ => sig_write code (bytes "*") ;; sleep code) ;;
  mret 0.

End Sig.

(** The handlers of the two following programs. *)
Inductive susp_handlers := suspend_handler | int_handler.

Definition susp_code (h : susp_handlers) : M (proc susp_handlers) unit :=
  match h with suspend_handler => exit_ 0 | int_handler => mret tt end.

(** *** src/signal/suspend.c *)
Module Suspend.

Definition round : M (proc susp_handlers) unit :=
  sigprocmask susp_code SIG_BLOCK {[SIGINT]} ;;
  stars susp_code ;;
  sig_write susp_code newline ;;
  sigprocmask susp_code SIG_UNBLOCK {[SIGINT]} ;;
  pause susp_code.

Definition main : M (proc susp_handlers) Z :=
  signal susp_code SIGTSTP (A_call suspend_handler) ;;
  func ← signal susp_code SIGINT (A_call int_handler);
  old ← sigprocmask susp_code SIG_BLOCK ∅;
  for_ 1000 0 (fun _ => round) ;;
  sigprocmask susp_code SIG_SETMASK old ;;
  signal susp_code SIGINT func ;;
  mret 0.

End Suspend.

(** *** src/signal/suspend1.c *)
Module Suspend1.

Definition round (oldset : gset Z) : M (proc susp_handlers) unit :=
  sigprocmask susp_code SIG_BLOCK {[SIGINT]} ;;
  stars susp_code ;;
  sig_write susp_code newline ;;
  sigsuspend susp_code oldset.

(** Up to the call that blocks SIGINT: the handler of SIGINT before, the mask at
    the start, and the mask in which SIGINT is not blocked. *)
Definition setup : M (proc susp_handlers) (action susp_handlers * gset Z * gset Z) :=
  signal susp_code SIGTSTP (A_call suspend_handler) ;;
  func ← signal susp_code SIGINT (A_call int_handler);
  old ← sigprocmask susp_code SIG_BLOCK ∅;
  sigprocmask susp_code SIG_UNBLOCK {[SIGINT]} ;;
  oldset ← sigprocmask susp_code SIG_BLOCK {[SIGINT]};
  mret (func, old, oldset).

(** The loop, and what follows it. *)
Definition loop (x : action susp_handlers * gset Z * gset Z) : M (proc susp_handlers) Z :=
  let '(func, old, oldset) := x in
  for_ 1000 0 (fun _ => round oldset) ;;
  sigprocmask susp_code SIG_SETMASK old ;;
  signal susp_code SIGINT func ;;
  mret 0.

Definition main : M (proc susp_handlers) Z := setup ≫= loop.

End Suspend1.

(** *** src/signal/alarm.c

    [alarm(5)] makes one SIGALRM arrive later, which the list of arrivals says. *)
Module Alarm.

Inductive handlers := alarm_handler.

Definition code (h : handlers) : M (proc handlers) unit := emit (bytes "alarm" ++ newline).

Definition main : M (proc handlers) unit :=
  signal code SIGALRM (A_call alarm_handler) ;;
  call code (mret tt) ;;
  sleep code ;;
  exit_ 0.

End Alarm.

(** *** src/signal/pause.c: no handler is installed *)
Module Pause.

Inductive handlers :=.

Definition code (h : handlers) : M (proc handlers) unit := match h with end.

Definition main : M (proc handlers) Z :=
  call code (mret tt) ;;
  pause code ;;
  emit (bytes "hello world" ++ newline) ;;
  mret 0.

End Pause.

(** ** Outcomes: like [wp], for programs that may wait for ever *)

Definition outcome {St A} (m : M St A) (Q : A -> St -> Prop) (E : Z -> St -> Prop) (B : St -> Prop) (w : St) : Prop :=
  match m w with
  | Ok a w' => Q a w'
  | Exit c w' => E c w'
  | OutOfFuel w' => B w'
  | Fault _ _ => False
  end.

Section outcomes.
Context {St : Type}.
Implicit Types (E : Z -> St -> Prop) (B : St -> Prop).

Lemma o_bind {A C} (m : M St A) (k : A -> M St C) Q E B w :
  outcome m (fun a w' => outcome (k a) Q E B w') E B w -> outcome (m ≫= k) Q E B w.
Proof. unfold outcome, mbind, M_bind. by destruct (m w). Qed.

Lemma wp_outcome {A} (m : M St A) (Q : A -> St -> Prop) E B w : wp m Q E w -> outcome m Q E B w.
Proof. unfold wp, outcome. by destruct (m w). Qed.

Lemma o_mono {A} (m : M St A) (Q Q' : A -> St -> Prop) E B w :
  outcome m Q E B w -> (forall a w', Q a w' -> Q' a w') -> outcome m Q' E B w.
Proof. unfold outcome. destruct (m w); auto. Qed.

(** [m] first, then the rest. *)
Lemma o_seq {A C} (m : M St A) (k : A -> M St C) (Q1 : A -> St -> Prop) Q E B w :
  outcome m Q1 E B w -> (forall a w', Q1 a w' -> outcome (k a) Q E B w') ->
  outcome (m ≫= k) Q E B w.
Proof. intros Hm Hk. apply o_bind. by apply (o_mono _ Q1). Qed.

Lemma o_for (I : nat -> St -> Prop) E B (body : nat -> M St unit) n lo w :
  (forall i w, (lo <= i < lo + n)%nat -> I i w -> outcome (body i) (fun _ w' => I (S i) w') E B w) ->
  I lo w -> outcome (for_ n lo body) (fun _ w' => I (lo + n)%nat w') E B w.
Proof.
  revert lo w. induction n as [|n IH]; intros lo w Hb HI; simpl.
  - by rewrite Nat.add_0_r.
  - eapply o_seq; [apply Hb; [lia|done]|]. intros [] w' HI'. rewrite Nat.add_succ_r.
    apply IH; [|done]. intros i w'' ?. apply Hb. lia.
Qed.

(** A loop that is given enough fuel, or waits. *)
Lemma o_iter {L R} (I : L -> St -> Prop) (m : L -> St -> nat) (body : L -> M St (L + R)) (Q : R -> St -> Prop) E B :
  (forall l w, I l w ->
     outcome (body l) (fun x w' => match x with
                                   | inl l' => I l' w' /\ (m l' w' < m l w)%nat
                                   | inr r => Q r w'
                                   end) E B w) ->
  forall fuel l w, I l w -> (m l w < fuel)%nat -> outcome (iter fuel body l) Q E B w.
Proof.
  intros Hbody fuel. induction fuel as [|fuel IH]; intros l w HI Hm; [lia|].
  specialize (Hbody l w HI). unfold outcome in *. simpl.
  destruct (body l w) as [[l'|r] w'| | |]; try done.
  destruct Hbody as [HI' Hlt]. apply IH; [done|lia].
Qed.
End outcomes.

(** Has a SIGINT been generated since the last waiting call returned?  The trace
    has the newest event first. *)
Fixpoint fresh_int (tr : list event) : bool :=
  match tr with
  | [] => false
  | EWake :: _ => false
  | EGen s :: tr' => (s =? SIGINT) || fresh_int tr'
  | EHandle _ :: tr' => fresh_int tr'
  end.

Definition star_row : list byte := bytes "*****" ++ newline.
Definition rows (n : nat) : list byte := concat (replicate n star_row).

Lemma rows_S n : rows (S n) = rows n ++ star_row.
Proof. unfold rows. by rewrite replicate_S_end, concat_app, concat_cons, app_nil_r. Qed.

Lemma rows_prefix n m j : (n < m)%nat -> rows n ++ take j star_row `prefix_of` rows m.
Proof.
  intros Hlt. trans (rows (S n)).
  - rewrite rows_S. apply prefix_app. exists (drop j star_row). by rewrite take_drop.
  - unfold rows. replace m with (S n + (m - S n))%nat by lia. rewrite replicate_add, concat_app. by eexists.
Qed.

(** ** suspend1.c *)
Section suspend1.
Context (o0 : list byte).

(** The handlers of the program, and no others, are installed. *)
Definition installed (d : gmap Z (action susp_handlers)) : Prop :=
  d !! SIGINT = Some (A_call int_handler) /\
  forall s h, d !! s = Some (A_call h) -> s = SIGINT /\ h = int_handler \/ s = SIGTSTP /\ h = suspend_handler.

(** The program is in a state in which [t] is printed. *)
Record printed (t : list byte) (m : gset Z) (w : proc susp_handlers) : Prop := {
  pr_disp : installed (disp w);
  pr_out : out w = o0 ++ t;
  pr_prefix : t `prefix_of` rows 1000;
  pr_mask : mask w = m }.

(** The process ended early: by the handler of SIGTSTP or by the default action
    of some other signal. *)
Definition ended (c : Z) (w : proc susp_handlers) : Prop :=
  (exists t, out w = o0 ++ t /\ t `prefix_of` rows 1000) /\
  (c = 0 /\ EHandle SIGTSTP ∈ trace w \/ exists s, c = 128 + s /\ s <> SIGINT /\ terminates s).

Lemma o_act s t m B w : printed t m w ->
  outcome (act susp_code s)
    (fun b w1 => printed t m w1 /\ arr w1 = arr w /\ pend w1 = pend w /\
                 fresh_int (trace w1) = fresh_int (trace w) /\ (s = SIGINT -> b = true)) ended B w.
Proof.
  intros [[Hint Hd] Ho Hp Hm]. unfold outcome, act, gets, mbind, M_bind. cbn beta iota.
  destruct (disp w !! s) as [[| |h]|] eqn:Es; cbn [default from_option id].
  - assert (s <> SIGINT) by congruence. destruct (terminates s) eqn:Et; cbn; [|done].
    split; [by exists t|]. right. exists s. by rewrite Et.
  - assert (s <> SIGINT) by congruence. done.
  - destruct (Hd s h Es) as [[-> ->]|[-> ->]]; cbn; [done|]. split; [by exists t|]. left. split; [done|left].
  - assert (s <> SIGINT) by congruence. destruct (terminates s) eqn:Et; cbn; [|done].
    split; [by exists t|]. right. exists s. by rewrite Et.
Qed.

(** While SIGINT is blocked, a fresh one is pending. *)
Definition kept (w : proc susp_handlers) : Prop := fresh_int (trace w) = true -> SIGINT ∈ pend w.

Lemma o_generate s t m B w : printed t m w ->
  outcome (generate susp_code s)
    (fun b w1 => printed t m w1 /\ arr w1 = arr w /\
       (SIGINT ∈ m -> kept w -> kept w1) /\
       (SIGINT ∉ m -> fresh_int (trace w) = false -> b = true \/ fresh_int (trace w1) = false)) ended B w.
Proof.
  intros Hp. pose proof (pr_mask _ _ _ Hp) as Hm. unfold generate. apply o_bind. cbn.
  apply o_bind. cbn. case_decide as Hs; rewrite Hm in Hs.
  - cbn. destruct Hp. split_and!; [by split|done| |].
    + intros _ Hk. unfold kept. cbn. intros [->%Z.eqb_eq|?]%orb_true_iff; [set_solver|]. apply elem_of_union_l. auto.
    + intros Hn Hf. right. cbn. rewrite Hf, orb_false_r. apply Z.eqb_neq. congruence.
  - eapply o_mono; [apply (o_act s t m); destruct Hp; by split|]. cbn.
    intros b w1 (Hp1 & Ha & Hpe & Hf1 & Hb). split_and!; [done|done| |].
    + intros Hi Hk. unfold kept. rewrite Hf1, Hpe. cbn. intros [->%Z.eqb_eq|?]%orb_true_iff; [done|auto].
    + intros _ Hf. rewrite Hf1, Hf. cbn. rewrite orb_false_r.
      destruct (Z.eqb_spec s SIGINT); [left; auto|by right].
Qed.

Lemma o_each_generate l t m B w : printed t m w ->
  outcome (each (generate susp_code) l)
    (fun b w1 => printed t m w1 /\ arr w1 = arr w /\
       (SIGINT ∈ m -> kept w -> kept w1) /\
       (SIGINT ∉ m -> fresh_int (trace w) = false -> b = true \/ fresh_int (trace w1) = false)) ended B w.
Proof.
  revert w. induction l as [|s l IH]; intros w Hp; cbn [each]; [cbn; auto|].
  eapply o_seq; [by apply (o_generate s t m)|]. intros b w1 (H1 & Ha1 & Hk1 & Hf1).
  eapply o_seq; [by apply IH|]. intros b' w2 (H2 & Ha2 & Hk2 & Hf2). cbn. split_and!; [done|congruence|auto|].
  intros Hm Hf. destruct (Hf1 Hm Hf) as [->|Hf']; [by left|]. destruct (Hf2 Hm Hf') as [->|]; [left; apply orb_true_r|by right].
Qed.

Lemma o_interrupt t m B w : printed t m w ->
  outcome (interrupt susp_code)
    (fun b w1 => printed t m w1 /\ arr w1 = tl (arr w) /\
       (SIGINT ∈ m -> kept w -> kept w1) /\
       (SIGINT ∉ m -> fresh_int (trace w) = false -> b = true \/ fresh_int (trace w1) = false)) ended B w.
Proof.
  intros Hp. unfold interrupt. apply o_bind. cbn. apply o_bind. cbn.
  eapply o_mono; [apply (o_each_generate _ t m); destruct Hp; by split|]. intros b w1 ?. done.
Qed.

Lemma o_each_act l t m B w : printed t m w ->
  outcome (each (act susp_code) l)
    (fun b w1 => printed t m w1 /\ arr w1 = arr w /\ pend w1 = pend w /\
       fresh_int (trace w1) = fresh_int (trace w) /\ (SIGINT ∈ l -> b = true)) ended B w.
Proof.
  revert w. induction l as [|s l IH]; intros w Hp; cbn [each]; [cbn; split_and!; try done; set_solver|].
  eapply o_seq; [by apply (o_act s t m)|]. intros b w1 (H1 & Ha1 & Hp1 & Hf1 & Hb1).
  eapply o_seq; [by apply IH|]. intros b' w2 (H2 & Ha2 & Hp2 & Hf2 & Hb2). cbn. split_and!; [done|congruence..|].
  intros [<-|Hl]%elem_of_cons; [by rewrite Hb1|]. rewrite (Hb2 Hl). apply orb_true_r.
Qed.

Lemma o_deliver t m B w : printed t m w ->
  outcome (deliver susp_code)
    (fun b w1 => printed t m w1 /\ arr w1 = arr w /\ pend w1 = pend w ∩ m /\
       fresh_int (trace w1) = fresh_int (trace w) /\ (SIGINT ∈ pend w -> SIGINT ∉ m -> b = true)) ended B w.
Proof.
  intros Hp. pose proof (pr_mask _ _ _ Hp) as Hm. unfold deliver. apply o_bind. cbn. apply o_bind. cbn.
  eapply o_mono; [apply (o_each_act _ t m); destruct Hp; by split|]. cbn. rewrite Hm.
  intros b w1 (? & ? & ? & ? & Hb). split_and!; try done. intros. apply Hb. set_solver.
Qed.

Lemma o_call {A} (k : M (proc susp_handlers) A) t m Q B w :
  SIGINT ∈ m -> printed t m w -> kept w ->
  (forall w1, printed t m w1 -> kept w1 -> outcome k Q ended B w1) ->
  outcome (call susp_code k) Q ended B w.
Proof.
  intros Hm Hp Hk Hc. unfold call. eapply o_seq; [by apply (o_interrupt t m)|].
  intros b w1 (H1 & _ & Hk1 & _). auto.
Qed.

Lemma o_write b t m B w :
  SIGINT ∈ m -> printed t m w -> kept w -> t ++ b `prefix_of` rows 1000 ->
  outcome (sig_write susp_code b) (fun _ w1 => printed (t ++ b) m w1 /\ kept w1) ended B w.
Proof.
  intros Hm Hp Hk Hpre. apply (o_call _ t m); [done..|]. intros w1 [] Hk1. cbn. split; [|done].
  split; cbn; [done| |done|done]. by rewrite pr_out0, (assoc_L (++)).
Qed.

Lemma o_block m B t w :
  SIGINT ∈ m -> printed t m w -> kept w ->
  outcome (sigprocmask susp_code SIG_BLOCK {[SIGINT]}) (fun _ w1 => printed t m w1 /\ kept w1) ended B w.
Proof.
  intros Hm Hp Hk. apply (o_call _ t m); [done..|]. intros w1 H1 Hk1. apply o_bind. cbn. apply o_bind. cbn.
  eapply o_seq; [apply (o_deliver t m)|].
  { destruct H1. split; cbn; try done. rewrite pr_mask0. set_solver. }
  cbn. intros b w2 (H2 & _ & Hp2 & Hf2 & _). split; [done|]. unfold kept in *. rewrite Hp2, Hf2. set_solver.
Qed.

(** The five stars and the line feed, with SIGINT blocked. *)
Lemma o_row {A} i m (k : M (proc susp_handlers) A) Q B w :
  (i < 1000)%nat -> SIGINT ∈ m -> printed (rows i) m w -> kept w ->
  (forall w1, printed (rows (S i)) m w1 -> kept w1 -> outcome k Q ended B w1) ->
  outcome (stars susp_code ;; sig_write susp_code newline ;; k) Q ended B w.
Proof.
  intros Hi Hm Hp Hk HQ. eapply o_seq.
  - apply (o_for (fun j w1 => printed (rows i ++ take j star_row) m w1 /\ kept w1)); [|by rewrite app_nil_r].
    intros j w1 Hj [H1 Hk1].
    assert (Hj1 : rows i ++ take (S j) star_row = (rows i ++ take j star_row) ++ bytes "*").
    { rewrite <-(assoc_L (++)). f_equal. destruct j as [|[|[|[|[|j]]]]]; [done..|lia]. }
    eapply o_seq; [apply (o_write _ (rows i ++ take j star_row) m); [done..|]; rewrite <-Hj1; by apply rows_prefix|].
    intros [] w2 [H2 Hk2]. unfold sleep. rewrite Hj1. by eapply o_call.
  - intros [] w1 [H1 Hk1]. assert (Hrow : rows (S i) = (rows i ++ take 5 star_row) ++ newline).
    { by rewrite rows_S, <-(assoc_L (++)). }
    eapply o_seq; [apply (o_write newline (rows i ++ take 5 star_row) m); [done..|]|].
    + rewrite <-(assoc_L (++)). by apply (rows_prefix i 1000 6).
    + rewrite <-Hrow. intros [] w2 []. auto.
Qed.

(** A waiting call blocks only when no SIGINT has come. *)
Lemma o_await t m w :
  SIGINT ∉ m -> printed t m w -> fresh_int (trace w) = false ->
  outcome (await susp_code) (fun _ w1 => printed t m w1) ended
    (fun w1 => printed t m w1 /\ fresh_int (trace w1) = false) w.
Proof.
  intros Hm Hp Hf. unfold await. unfold outcome.
  apply (o_iter (fun _ w1 => printed t m w1 /\ fresh_int (trace w1) = false) (fun _ w1 => length (arr w1)));
    [|done|lia].
  intros [] w1 [H1 Hf1]. apply o_bind. cbn. destruct (arr w1) as [|x l] eqn:Ea; [done|].
  eapply o_seq; [by apply (o_interrupt t m)|]. intros b w2 (H2 & Ha2 & _ & Hb). rewrite Ea in Ha2.
  destruct b; cbn; [done|]. split_and!; [done| |rewrite Ha2; simpl; lia]. by destruct (Hb Hm Hf1).
Qed.

Lemma o_sigsuspend t m os w :
  SIGINT ∈ m -> SIGINT ∉ os -> printed t m w -> kept w ->
  outcome (sigsuspend susp_code os) (fun _ w1 => printed t m w1 /\ kept w1) ended
    (fun w1 => printed t os w1 /\ fresh_int (trace w1) = false) w.
Proof.
  intros Hm Hos Hp Hk. apply (o_call _ t m); [done..|]. clear w Hp Hk. intros w Hp Hk.
  apply o_bind. cbn. apply o_bind. cbn. rewrite (pr_mask _ _ _ Hp).
  eapply o_seq; [apply (o_deliver t os); destruct Hp; by split|]. cbn.
  intros b w1 (H1 & _ & _ & Hf1 & Hb). apply (o_seq _ _ (fun _ w2 => printed t os w2)).
  - destruct b; [done|]. apply o_await; [done..|]. rewrite Hf1.
    destruct (fresh_int (trace w)) eqn:Ef; [|done]. exfalso. by opose proof (Hb (Hk Ef) Hos).
  - intros [] w2 H2. apply o_bind. cbn. eapply o_seq; [apply (o_deliver t m); destruct H2; by split|].
    cbn. intros _ w3 ([] & _). by split.
Qed.

(** One round of the loop. *)
Lemma o_round1 i m os w :
  (i < 1000)%nat -> SIGINT ∈ m -> SIGINT ∉ os -> printed (rows i) m w -> kept w ->
  outcome (Suspend1.round os) (fun _ w1 => printed (rows (S i)) m w1 /\ kept w1) ended
    (fun w1 => exists k, (k < 1000)%nat /\ printed (rows (S k)) os w1 /\ fresh_int (trace w1) = false) w.
Proof.
  intros Hi Hm Hos Hp Hk. unfold Suspend1.round.
  eapply o_seq; [by apply (o_block m)|]. intros ? w1 [H1 Hk1].
  apply (o_row i m); [done..|]. intros w2 H2 Hk2. unfold outcome.
  opose proof (o_sigsuspend (rows (S i)) m os w2 _ _ _ _) as Hs; [done..|]. unfold outcome in Hs.
  destruct (sigsuspend susp_code os w2); try done. by exists i.
Qed.
End suspend1.

(** A process that has just been started: nothing pending, no handlers, and no
    signals while the program installs its handlers ([n] calls). *)
Definition started {H} (m : gset Z) (d : gmap Z (action H)) (n : nat) (later : list (list Z)) (o : list byte) : proc H :=
  Proc m ∅ d (replicate n [] ++ later) o [].

(** A call before which no signal arrives. *)
Lemma o_call_quiet {H A} (code : H -> M (proc H) unit) (k : M (proc H) A) m d n later o Q E B :
  outcome k Q E B (started m d n later o) -> outcome (call code k) Q E B (started m d (S n) later o).
Proof. done. Qed.

Lemma o_deliver_none {H} (code : H -> M (proc H) unit) m d n later o (Q : bool -> proc H -> Prop) E B :
  Q false (started m d n later o) -> outcome (deliver code) Q E B (started m d n later o).
Proof.
  intros HQ. unfold deliver. apply o_bind. cbn. apply o_bind. cbn.
  replace (∅ ∖ m) with (∅ : gset Z) by set_solver. replace (∅ ∩ m) with (∅ : gset Z) by set_solver. done.
Qed.

Lemma o_procmask_quiet {H} (code : H -> M (proc H) unit) how set m d n later o (Q : gset Z -> proc H -> Prop) E B :
  Q m (started (match how with SIG_BLOCK => m ∪ set | SIG_UNBLOCK => m ∖ set | SIG_SETMASK => set end) d n later o) ->
  outcome (sigprocmask code how set) Q E B (started m d (S n) later o).
Proof.
  intros HQ. unfold sigprocmask. apply o_call_quiet. apply o_bind. cbn. apply o_bind. cbn.
  apply o_bind. by apply (o_deliver_none code _ d n later o).
Qed.

Lemma o_signal_quiet {H} (code : H -> M (proc H) unit) s a m d n later o (Q : action H -> proc H -> Prop) E B :
  Q (default A_default (d !! s)) (started m (<[s := a]> d) n later o) ->
  outcome (signal code s a) Q E B (started m d (S n) later o).
Proof. intros HQ. unfold signal. by apply o_call_quiet. Qed.

(** *** The set-up of suspend1.c, during which signals may arrive too *)
Section setup.
Context (o0 : list byte).
Implicit Types (w : proc susp_handlers).

(** Only the program's handlers are installed, if any. *)
Definition allowed (d : gmap Z (action susp_handlers)) : Prop :=
  forall s h, d !! s = Some (A_call h) -> s = SIGINT /\ h = int_handler \/ s = SIGTSTP /\ h = suspend_handler.

Record early (d : gmap Z (action susp_handlers)) (m : gset Z) w : Prop := {
  ea_disp : disp w = d;
  ea_out : out w = o0;
  ea_mask : mask w = m }.

(** A signal ended the process before its first row. *)
Definition died (c : Z) w : Prop :=
  out w = o0 /\ (c = 0 /\ EHandle SIGTSTP ∈ trace w \/ exists s, c = 128 + s /\ terminates s).

Context (d : gmap Z (action susp_handlers)) (Hd : allowed d) (m : gset Z).

Lemma e_act s B w : early d m w -> outcome (act susp_code s) (fun _ => early d m) died B w.
Proof.
  intros [Hdisp Ho Hm]. unfold outcome, act, gets, mbind, M_bind. cbn beta iota. rewrite Hdisp.
  destruct (d !! s) as [[| |h]|] eqn:Es; cbn [default from_option id].
  - destruct (terminates s) eqn:Et; [|done]. split; [done|]. right. exists s. by rewrite Et.
  - done.
  - destruct (Hd s h Es) as [[-> ->]|[-> ->]]; cbn; [done|]. split; [done|]. left. split; [done|left].
  - destruct (terminates s) eqn:Et; [|done]. split; [done|]. right. exists s. by rewrite Et.
Qed.

Lemma e_generate s B w : early d m w -> outcome (generate susp_code s) (fun _ => early d m) died B w.
Proof.
  intros []. unfold generate. apply o_bind. cbn. apply o_bind. cbn. case_decide; [done|].
  apply e_act. by split.
Qed.

Lemma e_each (f : Z -> M (proc susp_handlers) bool) l B w :
  (forall s w, early d m w -> outcome (f s) (fun _ => early d m) died B w) ->
  early d m w -> outcome (each f l) (fun _ => early d m) died B w.
Proof.
  intros Hf. revert w. induction l as [|s l IH]; intros w Hw; cbn [each]; [done|].
  eapply o_seq; [by apply Hf|]. intros b w1 H1. eapply o_seq; [by apply IH|]. by intros b' w2 H2.
Qed.

Lemma e_call {A} (k : M (proc susp_handlers) A) Q B w :
  early d m w -> (forall w1, early d m w1 -> outcome k Q died B w1) ->
  outcome (call susp_code k) Q died B w.
Proof.
  intros [] Hk. unfold call, interrupt. eapply o_seq; [|intros b; exact Hk].
  apply o_bind. cbn. apply o_bind. cbn. apply e_each; [intros; by apply e_generate|]. by split.
Qed.

Lemma e_deliver B w : early d m w -> outcome (deliver susp_code) (fun _ => early d m) died B w.
Proof.
  intros []. unfold deliver. apply o_bind. cbn. apply o_bind. cbn.
  apply e_each; [intros; by apply e_act|]. by split.
Qed.
End setup.

Lemma e_signal o d m s a B w :
  allowed d -> early o d m w ->
  outcome (signal susp_code s a) (fun _ => early o (<[s := a]> d) m) (died o) B w.
Proof. intros Hd Hw. eapply e_call; [done|exact Hw|]. intros w1 []. cbn. split; simpl; congruence. Qed.

Lemma e_procmask o d m how set B w :
  allowed d -> early o d m w ->
  outcome (sigprocmask susp_code how set)
    (fun x w1 => x = m /\ early o d (match how with SIG_BLOCK => m ∪ set | SIG_UNBLOCK => m ∖ set | SIG_SETMASK => set end) w1)
    (died o) B w.
Proof.
  intros Hd Hw. eapply e_call; [done|exact Hw|]. intros w1 [? ? Hm]. apply o_bind. cbn. apply o_bind. cbn.
  rewrite Hm. eapply o_seq; [eapply (e_deliver o d Hd); by split|]. by intros b w2 H2.
Qed.

(** The set-up ends with both handlers installed and SIGINT blocked. *)
Lemma o_setup o d m B w :
  (forall s h, d !! s <> Some (A_call h)) -> early o d m w ->
  outcome Suspend1.setup
    (fun x w0 => installed (disp w0) /\ out w0 = o /\ mask w0 = m ∖ {[SIGINT]} ∪ {[SIGINT]} /\
       exists f, x = (f, m, m ∖ {[SIGINT]})) (died o) B w.
Proof.
  intros Hd Hw. unfold Suspend1.setup.
  assert (H0 : allowed d) by (intros s h Hs; by destruct (Hd s h)).
  assert (H1 : allowed (<[SIGTSTP := A_call suspend_handler]> d)).
  { intros s h. rewrite lookup_insert. case_decide; naive_solver. }
  set (d1 := <[SIGINT := A_call int_handler]> (<[SIGTSTP := A_call suspend_handler]> d)).
  assert (H2 : allowed d1).
  { intros s h. unfold d1. rewrite !lookup_insert. repeat case_decide; naive_solver. }
  eapply o_seq; [by apply (e_signal o d m)|]. intros f0 w1 Hw1.
  eapply o_seq; [by apply (e_signal o (<[SIGTSTP := A_call suspend_handler]> d) m)|]. fold d1. intros f w2 Hw2.
  eapply o_seq; [by apply (e_procmask o d1 m)|]. intros old w3 [-> Hw3]. rewrite union_empty_r_L in Hw3.
  eapply o_seq; [by apply (e_procmask o d1 m)|]. intros x4 w4 [_ Hw4].
  eapply o_seq; [by eapply (e_procmask o d1)|]. intros oldset w5 [-> Hw5]. destruct Hw5 as [E1 E2 E3].
  unfold outcome, mret, M_ret. split_and!; [|done|done|by exists f]. rewrite E1.
  split; [apply lookup_insert_eq|done].
Qed.

(** The same state with an empty history. *)
Definition forget {H} (w : proc H) : proc H := Proc (mask w) (pend w) (disp w) (arr w) (out w) [].

(** C8: suspend1.c loses no SIGINT, whatever signals arrive and when, from its
    first call on.  During the set-up a signal may end the process (with status 0
    for SIGTSTP once its handler is installed).  The set-up ends when SIGINT is
    blocked; with the history counted from there, the rest of the program prints
    its thousand rows and returns 0, or is ended by a signal other than SIGINT
    (SIGTSTP gives status 0) with some of the rows printed, or waits for ever;
    and it waits only if no SIGINT was generated since the last waiting call
    returned or, before the first one, since SIGINT was blocked.  (A SIGINT that
    comes earlier in the set-up is handled there, and wakes nobody.) *)
Theorem suspend1_no_lost_wakeup m d arrivals o :
  (forall s h, d !! s <> Some (A_call h)) ->
  Suspend1.main = Suspend1.setup ≫= Suspend1.loop /\
  match Suspend1.setup (Proc m ∅ d arrivals o []) with
  | Exit c w =>
      out w = o /\ (c = 0 /\ EHandle SIGTSTP ∈ trace w \/ exists s, c = 128 + s /\ terminates s)
  | Ok x w0 =>
      match Suspend1.loop x (forget w0) with
      | Ok r w => r = 0 /\ out w = o ++ rows 1000
      | Exit c w =>
          (exists t, out w = o ++ t /\ t `prefix_of` rows 1000) /\
          (c = 0 /\ EHandle SIGTSTP ∈ trace w \/ exists s, c = 128 + s /\ s <> SIGINT /\ terminates s)
      | OutOfFuel w =>
          exists k, (k < 1000)%nat /\ out w = o ++ rows (S k) /\ fresh_int (trace w) = false
      | Fault _ _ => False
      end
  | _ => False
  end.
Proof.
  intros Hd. split; [done|].
  opose proof (o_setup o d m (fun _ => False) (Proc m ∅ d arrivals o []) Hd _) as Hs; [by split|].
  unfold outcome in Hs. destruct (Suspend1.setup _) as [x w0| | |]; [|done..].
  destruct Hs as (Hinst & Hout & Hmask & f & ->).
  set (os := m ∖ {[SIGINT]}) in *. set (m1 := os ∪ {[SIGINT]}) in *.
  enough (outcome (Suspend1.loop (f, m, os)) (fun r w => r = 0 /\ out w = o ++ rows 1000) (ended o)
    (fun w => exists k, (k < 1000)%nat /\ printed o (rows (S k)) os w /\ fresh_int (trace w) = false)
    (forget w0)) as Hmain.
  { unfold outcome, ended in Hmain. destruct (Suspend1.loop _ _); [done..|].
    destruct Hmain as (k & ? & [] & ?). by exists k. }
  assert (Hin : SIGINT ∈ m1) by (unfold m1; set_solver).
  assert (Hni : SIGINT ∉ os) by (unfold os; set_solver).
  unfold Suspend1.loop. apply (o_seq _ _ (fun _ w => printed o (rows 1000) m1 w /\ kept w)).
  { apply (o_for (fun i w => printed o (rows i) m1 w /\ kept w)).
    - intros i w Hi [Hp Hk]. by apply o_round1; [lia|..].
    - split; [|done]. split; [done|by rewrite app_nil_r|apply prefix_nil|done]. }
  intros [] w [Hp _]. apply (o_seq _ _ (fun _ w => printed o (rows 1000) m w)).
  - unfold sigprocmask, call. eapply o_seq; [by apply (o_interrupt o (rows 1000) m1)|].
    intros _ w1 [H1 _]. apply o_bind. cbn. apply o_bind. cbn.
    eapply o_seq; [apply (o_deliver o (rows 1000) m); destruct H1; by split|]. by intros _ w2 [H2 _].
  - intros _ w1 H1. apply (o_seq _ _ (fun _ w => out w = o ++ rows 1000)); [|done].
    unfold signal, call. eapply o_seq; [by apply (o_interrupt o (rows 1000) m)|]. intros _ w2 [[] _]. done.
Qed.

Lemma suspend1_no_lost_wakeup_witness :
  Suspend1.main = Suspend1.setup ≫= Suspend1.loop /\
  match Suspend1.setup (Proc {[SIGINT]} ∅ ∅ [[]; []; []; [SIGINT]; []; []; [SIGINT]] [] []) with
  | Exit c w =>
      out w = [] /\ (c = 0 /\ EHandle SIGTSTP ∈ trace w \/ exists s, c = 128 + s /\ terminates s)
  | Ok x w0 =>
      match Suspend1.loop x (forget w0) with
      | Ok r w => r = 0 /\ out w = [] ++ rows 1000
      | Exit c w =>
          (exists t, out w = [] ++ t /\ t `prefix_of` rows 1000) /\
          (c = 0 /\ EHandle SIGTSTP ∈ trace w \/ exists s, c = 128 + s /\ s <> SIGINT /\ terminates s)
      | OutOfFuel w =>
          exists k, (k < 1000)%nat /\ out w = [] ++ rows (S k) /\ fresh_int (trace w) = false
      | Fault _ _ => False
      end
  | _ => False
  end.
Proof.
  apply (suspend1_no_lost_wakeup {[SIGINT]} ∅ [[]; []; []; [SIGINT]; []; []; [SIGINT]] []).
  intros s h. by rewrite lookup_empty.
Defined.

(** In contrast: a SIGINT between the two last calls of the set-up is handled
    there, and the program waits after its first row. *)
Example suspend1_early_int :
  exists w, Suspend1.main (Proc ∅ ∅ ∅ [[]; []; []; []; [SIGINT]] [] []) = OutOfFuel w /\
    out w = rows 1 /\ fresh_int (trace w) = true.
Proof. eexists. by vm_compute. Qed.

(** ** suspend.c *)

(** suspend.c can lose a SIGINT: if the only one comes at any moment between
    the first [SIG_BLOCK] and the entry of [pause], its handler has run when
    [pause] begins, and the program waits for ever after its first row. *)
Theorem suspend_loses_wakeup p :
  (4 <= p <= 16)%nat ->
  exists w, Suspend.main (Proc ∅ ∅ ∅ (replicate p [] ++ [[SIGINT]]) [] []) = OutOfFuel w /\
    out w = rows 1 /\ fresh_int (trace w) = true /\ EHandle SIGINT ∈ trace w.
Proof.
  intros Hp. do 17 (destruct p as [|p]; [try lia; eexists; vm_compute; repeat split; left|]). lia.
Qed.

Lemma suspend_loses_wakeup_witness :
  (4 <= 10 <= 16)%nat /\
  exists w, Suspend.main (Proc ∅ ∅ ∅ (replicate 10 [] ++ [[SIGINT]]) [] []) = OutOfFuel w /\
    out w = rows 1 /\ fresh_int (trace w) = true /\ EHandle SIGINT ∈ trace w.
Proof. split; [lia|]. apply (suspend_loses_wakeup 10). lia. Defined.

(** ** Programs whose only handler prints a message *)

(** Was a signal [sg] generated for which the handler has not run since? *)
Fixpoint owed (sg : Z) (tr : list event) : bool :=
  match tr with
  | [] => false
  | EWake :: tr' => owed sg tr'
  | EGen s :: tr' => (s =? sg) || owed sg tr'
  | EHandle s :: tr' => negb (s =? sg) && owed sg tr'
  end.

(** The message, [n] times. *)
Definition msgs (msg : list byte) (n : nat) : list byte := concat (replicate n msg).

Lemma msgs_add msg n m : msgs msg (n + m) = msgs msg n ++ msgs msg m.
Proof. unfold msgs. by rewrite replicate_add, concat_app. Qed.

Section printing.
Context {H : Type} (code : H -> M (proc H) unit) (h0 : H) (sg : Z) (msg : list byte).
Hypothesis Hcode : code h0 = emit msg.
Implicit Types (w : proc H) (s : Z) (m : gset Z).

(** An owed signal is pending. *)
Definition held w : Prop := owed sg (trace w) = true -> sg ∈ pend w.

Record armed m (o : list byte) w : Prop := {
  ar_int : disp w !! sg = Some (A_call h0);
  ar_only : forall s h, disp w !! s = Some (A_call h) -> s = sg /\ h = h0;
  ar_mask : mask w = m;
  ar_held : held w /\ (owed sg (trace w) = true -> sg ∈ m);
  ar_out : out w = o }.

Definition killed (c : Z) w : Prop := exists s, c = 128 + s /\ s <> sg /\ terminates s.

(** The action of a signal, once it is no longer pending: [sg] is answered. *)
Lemma wp_act s w :
  disp w !! sg = Some (A_call h0) -> (forall s h, disp w !! s = Some (A_call h) -> s = sg /\ h = h0) ->
  wp (act code s)
    (fun _ w1 => mask w1 = mask w /\ pend w1 = pend w /\ disp w1 = disp w /\
       (s = sg /\ out w1 = out w ++ msgs msg 1 /\ owed sg (trace w1) = false \/
        s <> sg /\ out w1 = out w /\ trace w1 = trace w)) killed w.
Proof.
  intros Hint Honly. unfold wp, act, gets, mbind, M_bind. cbn beta iota.
  destruct (disp w !! s) as [[| |h]|] eqn:Es; cbn [default from_option id].
  - assert (s <> sg) by congruence. destruct (terminates s) eqn:Et; cbn; [exists s; by rewrite Et|auto 10].
  - assert (s <> sg) by congruence. cbn. auto 10.
  - destruct (Honly s h Es) as [-> ->]. cbn. rewrite Hcode. cbn. rewrite Z.eqb_refl, app_nil_r. auto 10.
  - assert (s <> sg) by congruence. destruct (terminates s) eqn:Et; cbn; [exists s; by rewrite Et|auto 10].
Qed.

Lemma wp_generate s m o w : armed m o w ->
  wp (generate code s)
    (fun _ w1 => exists n, armed m (o ++ msgs msg n) w1 /\ (sg ∈ m -> n = 0%nat)) killed w.
Proof.
  intros [Hi Ho Hm [Hh Hhm] Hout]. unfold generate. wp_step. apply wp_modify. wp_step. apply wp_get.
  cbn [mask]. case_decide as Hs; rewrite Hm in Hs.
  - wp_steps. exists 0%nat. split; [|done]. split; cbn; [done|done|done| |by rewrite app_nil_r].
    split; [|intros [->%Z.eqb_eq|]%orb_true_iff; auto]. unfold held. cbn.
    intros [->%Z.eqb_eq|]%orb_true_iff; [set_solver|]. apply elem_of_union_l. auto.
  - eapply wp_mono; [|done|by apply wp_act]. cbn [mask pend disp out trace].
    intros _ w1 (Hm1 & Hp1 & Hd1 & [(-> & Ho1 & Hf)|(Hne & Ho1 & Ht)]).
    + exists 1%nat. split; [|done]. split; [by rewrite Hd1|by rewrite Hd1|congruence| |congruence].
      unfold held. rewrite Hf. done.
    + exists 0%nat. split; [|done]. split; [by rewrite Hd1|by rewrite Hd1|congruence| |by rewrite app_nil_r, Ho1].
      unfold held. rewrite Ht, Hp1. cbn. rewrite (proj2 (Z.eqb_neq _ _) Hne). done.
Qed.

Lemma wp_each_generate l m o w : armed m o w ->
  wp (each (generate code) l)
    (fun _ w1 => exists n, armed m (o ++ msgs msg n) w1 /\ (sg ∈ m -> n = 0%nat)) killed w.
Proof.
  revert w o. induction l as [|s l IH]; intros w o Hp; cbn [each].
  - wp_steps. exists 0%nat. by rewrite app_nil_r.
  - apply wp_bind. eapply wp_mono; [|done|by apply wp_generate]. intros b w1 (n & H1 & Hn).
    apply wp_bind. eapply wp_mono; [|done|by apply IH]. intros b' w2 (n' & H2 & Hn'). wp_steps.
    exists (n + n')%nat. rewrite msgs_add, (assoc_L (++)). split; [done|].
    intros Hm. rewrite (Hn Hm), (Hn' Hm). done.
Qed.

Lemma wp_msg_interrupt m o w : armed m o w ->
  wp (interrupt code)
    (fun _ w1 => exists n, armed m (o ++ msgs msg n) w1 /\ (sg ∈ m -> n = 0%nat)) killed w.
Proof. intros Hp. unfold interrupt. wp_steps. apply wp_each_generate. by destruct Hp. Qed.

Lemma wp_each_act l w :
  disp w !! sg = Some (A_call h0) -> (forall s h, disp w !! s = Some (A_call h) -> s = sg /\ h = h0) ->
  wp (each (act code) l)
    (fun _ w1 => mask w1 = mask w /\ pend w1 = pend w /\ disp w1 = disp w /\
       exists n, out w1 = out w ++ msgs msg n /\ (sg ∉ l -> n = 0%nat) /\
         (owed sg (trace w1) = true -> owed sg (trace w) = true /\ sg ∉ l)) killed w.
Proof.
  revert w. induction l as [|s l IH]; intros w Hi Ho; cbn [each].
  - wp_steps. split_and!; [done..|]. exists 0%nat. rewrite app_nil_r. split_and!; [done..|]. intros ?. split; [done|set_solver].
  - apply wp_bind. eapply wp_mono; [|done|by apply wp_act]. intros b w1 (Hm1 & Hp1 & Hd1 & Hs).
    apply wp_bind. eapply wp_mono; [|done|apply IH; by rewrite Hd1].
    intros b' w2 (Hm2 & Hp2 & Hd2 & n & Ho2 & Hn & Ht). wp_steps. split_and!; [congruence..|].
    destruct Hs as [(-> & Ho1 & Hf)|(Hne & Ho1 & Hf)].
    + exists (1 + n)%nat. rewrite Ho2, Ho1, msgs_add, (assoc_L (++)). rewrite not_elem_of_cons. split_and!; [done|by intros [[] _]|].
      intros Hw2. destruct (Ht Hw2). congruence.
    + exists n. rewrite Ho2, Ho1, not_elem_of_cons, <-Hf. split_and!; [done|intros [_ ?]; auto|].
      intros Hw2. destruct (Ht Hw2). by split_and!.
Qed.

(** The pending signals are delivered: an owed [sg] is answered or stays. *)
Lemma wp_msg_deliver m o w :
  disp w !! sg = Some (A_call h0) -> (forall s h, disp w !! s = Some (A_call h) -> s = sg /\ h = h0) ->
  mask w = m -> held w -> out w = o ->
  wp (deliver code)
    (fun _ w1 => exists n, armed m (o ++ msgs msg n) w1 /\ (sg ∈ m -> n = 0%nat)) killed w.
Proof.
  intros Hi Ho Hm Hh Hout. unfold deliver. wp_steps. rewrite Hm.
  apply wp_modify. cbn beta. eapply wp_mono; [|done|by apply wp_each_act]. cbn [mask pend disp out trace].
  intros _ w1 (Hm1 & Hp1 & Hd1 & n & Ho1 & Hn & Ht). exists n. rewrite elem_of_elements in Hn, Ht. split.
  - split; [by rewrite Hd1|by rewrite Hd1|congruence| |congruence]. unfold held. rewrite Hp1.
    assert (owed sg (trace w1) = true -> sg ∈ m).
    { intros [Hw Hnl]%Ht. destruct (decide (sg ∈ m)); [done|]. destruct Hnl. apply elem_of_difference. auto. }
    split; [|done]. intros Ho2. apply elem_of_intersection. destruct (Ht Ho2). auto.
  - intros HS. apply Hn. by intros []%elem_of_difference.
Qed.

Lemma wp_msg_call {A} (k : M (proc H) A) m o Q w : armed m o w ->
  (forall n w1, armed m (o ++ msgs msg n) w1 -> (sg ∈ m -> n = 0%nat) -> wp k Q killed w1) ->
  wp (call code k) Q killed w.
Proof.
  intros Hp Hk. unfold call. apply wp_bind. eapply wp_mono; [|done|by apply wp_msg_interrupt].
  intros _ w1 (n & H1 & Hn). by apply (Hk n).
Qed.

Lemma wp_msg_procmask how set m m' o w : armed m o w ->
  m' = match how with SIG_BLOCK => m ∪ set | SIG_UNBLOCK => m ∖ set | SIG_SETMASK => set end ->
  wp (sigprocmask code how set)
    (fun r w1 => r = m /\ exists n, armed m' (o ++ msgs msg n) w1 /\ (sg ∈ m -> sg ∈ m' -> n = 0%nat)) killed w.
Proof.
  intros Hp Hm'. eapply wp_msg_call; [done|]. intros n w1 [? ? Hm [? _] ?] Hn. wp_steps. rewrite Hm, <-Hm'. apply wp_modify. wp_steps.
  eapply wp_mono; [|done|by apply (wp_msg_deliver m' (o ++ msgs msg n))].
  intros _ w2 (n' & H2 & Hn'). wp_steps. split; [done|]. exists (n + n')%nat.
  rewrite msgs_add, (assoc_L (++)). split; [done|]. intros Hi1 Hi2. by rewrite Hn, Hn'.
Qed.

Lemma wp_msg_write data m o w : armed m o w ->
  wp (sig_write code data)
    (fun _ w1 => exists n, armed m (o ++ msgs msg n ++ data) w1 /\ (sg ∈ m -> n = 0%nat)) killed w.
Proof.
  intros Hp. eapply wp_msg_call; [done|]. intros n w1 [] Hn. wp_steps. exists n. split; [|done].
  split; cbn; try done. by rewrite ar_out0, (assoc_L (++)).
Qed.

End printing.

(** ** int.c *)

Definition bangs (n : nat) : list byte := msgs (bytes "!") n.

(** Rows of five stars, with exclamation marks between the rows and before a
    line feed only. *)
Inductive int_rows : nat -> list byte -> Prop :=
| ir_0 n : int_rows 0 (bangs n)
| ir_S k l a b : int_rows k l -> int_rows (S k) (l ++ bytes "*****" ++ bangs a ++ newline ++ bangs b).

Lemma int_rows_bangs k l n : int_rows k l -> int_rows k (l ++ bangs n).
Proof.
  intros [m|k' l' a b Hl]; unfold bangs.
  - rewrite <-msgs_add. apply ir_0.
  - rewrite <-!(assoc_L (++)), <-msgs_add. by apply ir_S.
Qed.

Section int.
Notation armed := (armed Int.handler SIGINT).
Notation killed := (killed SIGINT).

(** With SIGINT blocked the stars are contiguous. *)
Lemma wp_int_stars m o w : SIGINT ∈ m -> armed m o w ->
  wp (stars Int.code) (fun _ w1 => armed m (o ++ bytes "*****") w1) killed w.
Proof.
  intros Hm Hp. apply (wp_for (fun j w1 => armed m (o ++ take j (bytes "*****")) w1)); [|by rewrite app_nil_r].
  intros j w1 Hj H1. apply wp_bind.
  eapply wp_mono; [|done|by eapply (wp_msg_write Int.code Int.handler SIGINT (bytes "!"))].
  intros [] w2 (n & H2 & Hn). rewrite (Hn Hm) in H2.
  eapply (wp_msg_call Int.code Int.handler SIGINT (bytes "!")); [done..|].
  intros n' w3 H3 Hn'. rewrite (Hn' Hm), app_nil_r in H3. wp_steps.
  rewrite <-(assoc_L (++)) in H3. destruct j as [|[|[|[|[|j]]]]]; [done..|lia].
Qed.

(** A round that starts with any number of exclamation marks. *)
Lemma wp_int_round i m o l w : int_rows i l -> armed m (o ++ l) w ->
  wp Int.round (fun _ w1 => exists l', int_rows (S i) l' /\ armed (m ∖ {[SIGINT]}) (o ++ l') w1) killed w.
Proof.
  intros Hl Hp. unfold Int.round. apply wp_bind.
  assert (Hin : SIGINT ∈ m ∪ {[SIGINT]}) by (clear; set_solver).
  assert (Hun : m ∖ {[SIGINT]} = (m ∪ {[SIGINT]}) ∖ {[SIGINT]}) by (clear; set_solver).
  eapply wp_mono; [|done|by eapply (wp_msg_procmask Int.code Int.handler SIGINT (bytes "!"))].
  intros _ w1 (_ & a & H1 & _). apply wp_bind.
  eapply wp_mono; [|done|by apply (wp_int_stars _ _ _ Hin H1)]. intros [] w2 H2. apply wp_bind.
  eapply wp_mono; [|done|by eapply (wp_msg_procmask Int.code Int.handler SIGINT (bytes "!"))].
  intros _ w3 (_ & b & H3 & _).
  eapply wp_mono; [|done|by eapply (wp_msg_write Int.code Int.handler SIGINT (bytes "!"))].
  intros [] w4 (c & H4 & _). rewrite <-!(assoc_L (++)) in H4.
  exists ((l ++ bangs a) ++ bytes "*****" ++ bangs (b + c) ++ newline ++ bangs 0). split.
  - apply ir_S. by apply int_rows_bangs.
  - unfold bangs. rewrite msgs_add. change (msgs _ 0) with (@nil byte). rewrite app_nil_r, <-!(assoc_L (++)). done.
Qed.
End int.

Lemma wp_signal_quiet {H} (code : H -> M (proc H) unit) s a m d n later o (Q : action H -> proc H -> Prop) E :
  Q (default A_default (d !! s)) (started m (<[s := a]> d) n later o) ->
  wp (signal code s a) Q E (started m d (S n) later o).
Proof. done. Qed.

(** An owed signal has been answered when it is not blocked. *)
Lemma armed_answered {H} (h : H) sg m o w : armed h sg m o w -> sg ∉ m -> owed sg (trace w) = false.
Proof. intros [? ? ? [_ Hh] ?] Hm. destruct (owed sg (trace w)); [by destruct Hm; apply Hh|done]. Qed.

(** A freshly installed handler. *)
Lemma armed_started {H} (h : H) sg m d later o :
  (forall s h, d !! s <> Some (A_call h)) -> (forall h', h' = h) ->
  armed h sg m o (started m (<[sg := A_call h]> d) 0 later o).
Proof.
  intros Hd Hh. split; cbn; [apply lookup_insert_eq| |done|done|done].
  intros s h'. rewrite lookup_insert. case_decide; [done|]. intros Hs. by destruct (Hd s h').
Qed.

(** C23: int.c ends for every list of arriving signals.  If no signal with a
    default action that ends the process arrives, it prints its thousand rows of
    five stars, never with the handler's exclamation mark inside a row, and no
    SIGINT is lost: each one is answered by a later call of the handler (unless
    the process was started with SIGINT blocked). *)
Theorem int_prints_rows m d later o :
  (forall s h, d !! s <> Some (A_call h)) ->
  wp Int.main
    (fun r w => r = 0 /\ (exists l, out w = o ++ l /\ int_rows 1000 l) /\ (SIGINT ∉ m -> owed SIGINT (trace w) = false))
    (fun c _ => exists s, c = 128 + s /\ s <> SIGINT /\ terminates s) (started m d 1 later o).
Proof.
  intros Hd. lazymatch goal with |- wp ?m ?Q _ ?w => change (wp m Q (killed SIGINT) w) end. unfold Int.main. apply wp_bind.
  apply wp_signal_quiet, wp_bind. pose proof (armed_started Int.handler SIGINT m d later o Hd ltac:(by intros [])) as H1.
  eapply wp_mono; [|done|by eapply (wp_msg_procmask Int.code Int.handler SIGINT (bytes "!"))].
  intros ? w2 (-> & n & H2 & _). apply wp_bind.
  eapply wp_mono; [|done|apply (wp_for (fun i w => exists m1 l, int_rows i l /\ armed Int.handler SIGINT m1 (o ++ l) w))].
  2: { intros i w _ (m1 & l & Hl & Hp). eapply wp_mono; [|done|by eapply wp_int_round]. naive_solver. }
  2: { exists (m ∪ ∅), (bangs n). split; [constructor|]. done. }
  intros [] w3 (m1 & l & Hl & H3). apply wp_bind.
  eapply wp_mono; [|done|by eapply (wp_msg_procmask Int.code Int.handler SIGINT (bytes "!"))].
  intros _ w4 (_ & n4 & H4 & _). apply wp_bind. eapply (wp_msg_call Int.code Int.handler SIGINT (bytes "!")); [done..|]. intros n5 w5 [] _. wp_steps.
  split_and!; [done| |].
  - exists ((l ++ bangs n4) ++ bangs n5). split; [by rewrite ar_out0, !(assoc_L (++))|]. by do 2 apply int_rows_bangs.
  - intros Hm. cbn. destruct ar_held0 as [_ Hh]. destruct (owed SIGINT (trace w5)); [|done]. by destruct Hm; apply Hh.
Qed.

Lemma int_prints_rows_witness :
  wp Int.main
    (fun r w => r = 0 /\ (exists l, out w = [] ++ l /\ int_rows 1000 l) /\ (SIGINT ∉ (∅ : gset Z) -> owed SIGINT (trace w) = false))
    (fun c _ => exists s, c = 128 + s /\ s <> SIGINT /\ terminates s) (started ∅ ∅ 1 [[]; []; [SIGINT]; [SIGINT]] []).
Proof. apply (int_prints_rows ∅ ∅ [[]; []; [SIGINT]; [SIGINT]] []). intros s h. by rewrite lookup_empty. Defined.

(** ** sig.c, alarm.c, pause.c *)

(** Stars, with messages anywhere between them. *)
Inductive star_msgs (msg : list byte) : nat -> list byte -> Prop :=
| sm_0 n : star_msgs msg 0 (msgs msg n)
| sm_S k l n : star_msgs msg k l -> star_msgs msg (S k) (l ++ bytes "*" ++ msgs msg n).

Lemma star_msgs_more msg k l n : star_msgs msg k l -> star_msgs msg k (l ++ msgs msg n).
Proof.
  intros [m|k' l' m Hl]; [rewrite <-msgs_add; constructor|].
  rewrite <-!(assoc_L (++)), <-msgs_add. by constructor.
Qed.

(** sig.c prints its ten stars and one message for each SIGINT it can tell apart. *)
Lemma sig_prints m d later o :
  (forall s h, d !! s <> Some (A_call h)) ->
  wp Sig.main
    (fun r w => r = 0 /\ (exists l, out w = o ++ l /\ star_msgs (bytes "SIG_INT!" ++ newline) 10 l) /\
       (SIGINT ∉ m -> owed SIGINT (trace w) = false))
    (killed SIGINT) (started m d 2 later o).
Proof.
  intros Hd. unfold Sig.main. apply wp_bind, wp_signal_quiet, wp_bind, wp_signal_quiet. rewrite insert_insert_eq.
  apply wp_bind.
  eapply wp_mono; [| |apply (wp_for (fun i w => exists l, armed Sig.int_handler SIGINT m (o ++ l) w /\
    star_msgs (bytes "SIG_INT!" ++ newline) i l) (killed SIGINT))].
  - intros [] w1 (l & Hp & Hl). wp_steps. split_and!; [done|exists l|by eapply armed_answered].
    split; [by destruct Hp|done].
  - done.
  - intros i w1 _ (l & Hp & Hl). apply wp_bind.
    eapply wp_mono; [| |by eapply (wp_msg_write Sig.code Sig.int_handler SIGINT (bytes "SIG_INT!" ++ newline))]; [|done].
    intros [] w2 (n & H2 & _). eapply (wp_msg_call Sig.code Sig.int_handler SIGINT (bytes "SIG_INT!" ++ newline)); [done..|].
    intros n' w3 H3 _. wp_steps. exists ((l ++ msgs (bytes "SIG_INT!" ++ newline) n) ++ bytes "*" ++ msgs (bytes "SIG_INT!" ++ newline) n').
    split; [by rewrite <-!(assoc_L (++)) in *|]. apply sm_S. by apply star_msgs_more.
  - exists (msgs (bytes "SIG_INT!" ++ newline) 0). split; [|constructor]. rewrite app_nil_r.
    apply armed_started; [done|by intros []].
Qed.

(** alarm.c ends with status 0 and has printed its message for the alarm, or is
    ended by another signal. *)
Lemma alarm_prints m d later o :
  (forall s h, d !! s <> Some (A_call h)) ->
  wp Alarm.main (fun _ _ => False)
    (fun c w => c = 0 /\ (exists n, out w = o ++ msgs (bytes "alarm" ++ newline) n) /\
       (SIGALRM ∉ m -> owed SIGALRM (trace w) = false) \/ killed SIGALRM c w) (started m d 1 later o).
Proof.
  intros Hd. unfold Alarm.main. apply wp_bind, wp_signal_quiet.
  assert (Hcall : forall o w, armed Alarm.alarm_handler SIGALRM m o w ->
    wp (call Alarm.code (mret tt)) (fun _ w1 => exists n,
      armed Alarm.alarm_handler SIGALRM m (o ++ msgs (bytes "alarm" ++ newline) n) w1) (killed SIGALRM) w).
  { intros o' w Hw. eapply (wp_msg_call Alarm.code Alarm.alarm_handler SIGALRM (bytes "alarm" ++ newline)); [done..|].
    intros n w1 H1 _. by exists n. }
  apply wp_bind. eapply wp_mono; [| |apply (Hcall o), armed_started; [done|by intros []]]; [|by right].
  intros [] w1 (n & H1). apply wp_bind. eapply wp_mono; [| |apply (Hcall _ _ H1)]; [|by right].
  intros [] w2 (n' & H2). wp_steps. left. split_and!; [done| |by eapply armed_answered].
  exists (n + n')%nat. rewrite msgs_add, (assoc_L (++)). by destruct H2.
Qed.

(** Without a handler no signal makes [pause] return. *)
Lemma o_no_handler s w (E : Z -> proc Pause.handlers -> Prop) B :
  (forall c, E c w) ->
  outcome (act Pause.code s) (fun b w1 => b = false /\ w1 = w) E B w.
Proof.
  intros HE. unfold outcome, act, gets, mbind, M_bind.
  destruct (disp w !! s) as [[| |[]]|]; cbn; [|done|]; destruct (terminates s); cbn; auto.
Qed.

Lemma o_pause_interrupt o (B : proc Pause.handlers -> Prop) w :
  out w = o ->
  outcome (interrupt Pause.code) (fun b w1 => b = false /\ out w1 = o /\ arr w1 = tl (arr w))
    (fun _ w1 => out w1 = o) B w.
Proof.
  intros Ho. unfold interrupt. apply o_bind. cbn. apply o_bind. cbn.
  assert (Heach : forall l w, out w = o -> outcome (each (generate Pause.code) l)
    (fun b w1 => b = false /\ out w1 = o /\ arr w1 = arr w) (fun _ w1 => out w1 = o) B w).
  { clear. induction l as [|s l IH]; intros w Ho; cbn [each]; [done|].
    apply (o_seq _ _ (fun b w1 => b = false /\ out w1 = o /\ arr w1 = arr w)).
    - unfold generate. apply o_bind. cbn. apply o_bind. cbn. case_decide; [done|].
      eapply o_mono; [by apply o_no_handler|]. by intros b w1 [-> ->].
    - intros b w1 (-> & H1 & Ha). eapply o_seq; [by apply IH|]. intros b w2 (-> & H2 & Ha2). cbn. by rewrite Ha2. }
  eapply o_mono; [by apply Heach|]. done.
Qed.

(** pause.c never prints its message: no handler is installed, so a signal
    ends the process or leaves [pause] waiting. *)
Theorem pause_never_prints w :
  match Pause.main w with
  | Ok _ _ | Fault _ _ => False
  | Exit _ w' | OutOfFuel w' => out w' = out w
  end.
Proof.
  enough (outcome Pause.main (fun _ _ => False) (fun _ w' => out w' = out w) (fun w' => out w' = out w) w) as Hm
    by (unfold outcome in Hm; by destruct (Pause.main w)).
  unfold Pause.main, call. apply o_bind. eapply o_seq; [by apply o_pause_interrupt|]. intros _ w1 (_ & H1 & _). cbn.
  apply o_bind. unfold pause, call. eapply o_seq; [by apply o_pause_interrupt|]. intros _ w2 (_ & H2 & _).
  apply o_bind. unfold await. unfold outcome.
  apply (o_iter (fun _ w' => out w' = out w) (fun _ w' => length (arr w'))); [|done|lia].
  intros [] w3 H3. apply o_bind. cbn. destruct (arr w3) as [|x l] eqn:Ea; [done|].
  eapply o_seq; [by apply o_pause_interrupt|]. intros b w4 (-> & H4 & Ha). rewrite Ea in Ha. cbn.
  split; [done|]. rewrite Ha. simpl. lia.
Qed.
