(* ===== verification/Cat.v ===== *)
(** * Cat: src/signal/cat.c

    The first form of [slow_cat]: the handler of [SIGALRM] prints at most ten
    bytes of the file, and the main program sets the next alarm for ever.  A
    round of the model is one alarm; the fuel of [main] is the number of alarms.
    The standard output accepts every byte. *)

From S2P Require Import Prelude Prog Posix SigMask.

Definition CPS : nat := 10.

(** The system, the descriptor [src], and what [stdout] was given. *)
Record ck := Ck { io : os; src : Z; printed : list byte }.

Definition on_io {A} : M os A -> M ck A := on io (fun s w => Ck s (src w) (printed w)).

(** [fputc(c, stdout)] *)
Definition put_char (c : byte) : M ck unit :=
  modify (fun w => Ck (io w) (src w) (printed w ++ [c])).

Definition handle (buf : list byte) : M ck unit :=
  fd ← gets src;
  '(eof, buf) ← on_io (sys_read fd buf CPS);
  if eof <? 0 then
    w ← get;
    if errno (io w) =? EINTR then mret tt
    else on_io (sys_close fd) ;; exit_ 0
  else
    for_ (Z.to_nat eof) 0 (fun i => c ← unwrap OutOfBounds (buf !! i); put_char c).

(** [pause(); alarm(1);] where the alarm comes *)
Definition pause_step (buf : list byte) (_ : unit) : M ck (unit + unit) :=
  handle buf ;; mret (inl tt).

Definition main (fuel : nat) (argv : list string) (buf : list byte) : M ck unit :=
  if decide (length argv < 2)%nat then exit_ 1 else
  fd ← on_io (sys_open (nth 1 argv EmptyString) O_RDONLY);
  modify (fun w => Ck (io w) fd (printed w)) ;;
  if fd <? 0 then exit_ 1 else
  iter fuel (pause_step buf) tt.

(** ** Correctness *)

Section correctness.
Context (psrc : string) (c p0 : list byte) (fd i : nat) (w0 : os) (buf : list byte).
Hypothesis Hsrc : fs w0 !! psrc = Some c.
Hypothesis Hbuf : length buf = CPS.

(** After [n] alarms [k] bytes are printed: as many as can be, if every read is
    whole and none fails. *)
Record shown (n k : nat) (w : ck) : Prop := {
  sh_fs : fs (io w) = fs w0;
  sh_fd : src w = Z.of_nat fd;
  sh_fdt : fdt (io w) !! fd = Some i;
  sh_ofd : ofds (io w) !! i = Some (Ofd psrc k true false);
  sh_out : printed w = p0 ++ take k c;
  sh_orc : orc (io w) `suffix_of` orc w0;
  sh_le : (k <= 10 * n)%nat /\ (k <= length c)%nat;
  sh_all : Forall whole (orc w0) -> (forall e, AErr e ∉ orc w0) -> k = Nat.min (10 * n) (length c) }.

(** The loop over the bytes just read. *)
Lemma wp_print_bytes l w E (Q : unit -> ck -> Prop) buf' :
  take (length l) buf' = l -> Q tt (Ck (io w) (src w) (printed w ++ l)) ->
  wp (for_ (length l) 0 (fun i => c ← unwrap OutOfBounds (buf' !! i); put_char c)) Q E w.
Proof.
  intros Hl HQ. eapply wp_mono; [|done|apply (wp_for (fun i w1 => w1 = Ck (io w) (src w) (printed w ++ take i l)))].
  - intros [] w' ->. by rewrite Nat.add_0_l, firstn_all.
  - intros j w' Hj ->. destruct (lookup_lt_is_Some_2 l j) as [b Hb]; [lia|].
    apply wp_bind, (wp_unwrap _ _ b).
    { rewrite <-Hl in Hb. rewrite lookup_take_lt in Hb by lia. done. }
    apply wp_modify. cbn. by rewrite (take_S_r _ _ b), (assoc_L (++)).
  - rewrite app_nil_r. by destruct w.
Qed.

Lemma o_handle n k w B : shown n k w ->
  outcome (handle buf) (fun _ w1 => exists k', (k <= k')%nat /\ shown (S n) k' w1)
    (fun code w1 => code = 0 /\ (exists e, AErr e ∈ orc w0) /\ printed w1 = p0 ++ take k c) B w.
Proof.
  intros []. set (E := fun (code : Z) w1 => code = 0 /\ (exists e, AErr e ∈ orc w0) /\ printed w1 = p0 ++ take k c).
  apply wp_outcome. unfold handle. wp_steps. unfold on_io. rewrite sh_fd0. wp_steps.
  eapply (wp_read fd i); [done|done|done|by rewrite Hbuf| |].
  - intros e o Ho. assert (He : AErr e ∈ orc w0).
    { destruct sh_orc0 as [pre ->]. rewrite Ho, elem_of_app. right. left. }
    change (-1 <? 0) with true. wp_steps. cbn [io errno with_errno with_orc]. destruct (Z.eqb_spec (Zpos e) EINTR).
    + wp_steps. exists k. split; [done|]. split; cbn [io src printed fs fdt ofds orc with_errno with_orc]; try done.
      * trans (orc (io w)); [|done]. rewrite Ho. by exists [AErr e].
      * lia.
      * intros _ Hno. by destruct (Hno e).
    + wp_steps. apply wp_close_any. intros r w' _ _. wp_steps. split_and!; [done|by exists e|done].
  - intros m o. cbv zeta. cbn [of_off of_path]. rewrite sh_fs0, Hsrc. cbn [default from_option id].
    rewrite length_drop. intros Ho Hm Hm0 Hall. destruct (Z.ltb_spec (Z.of_nat m) 0); [lia|]. rewrite Nat2Z.id.
    assert (Hlen : length (take m (drop k c)) = m) by (rewrite length_take, length_drop; lia).
    rewrite <-Hlen at 1. apply wp_print_bytes; [by rewrite take_app_length|].
    exists (k + m)%nat. split; [lia|]. unfold CPS in *.
    split; cbn [io src printed fs fdt ofds orc set_off with_ofds with_orc]; try done.
    + by apply list_lookup_insert_eq, (lookup_lt_Some _ _ _ sh_ofd0).
    + by rewrite sh_out0, <-(assoc_L (++)), take_take_drop.
    + by trans (orc (io w)).
    + lia.
    + intros Hw Hno. rewrite (sh_all0 Hw Hno) in *. rewrite Hall by (by eapply whole_suffix). lia.
Qed.

(** [j] more alarms. *)
Lemma o_alarms j n k w : shown n k w ->
  outcome (iter j (pause_step buf) tt) (fun _ _ => False)
    (fun code w1 => code = 0 /\ (exists e, AErr e ∈ orc w0) /\ exists k', printed w1 = p0 ++ take k' c)
    (fun w1 => exists k', shown (n + j) k' w1) w.
Proof.
  revert n k w. induction j as [|j IH]; intros n k w Hs; [exists k; by rewrite Nat.add_0_r|].
  opose proof (o_handle n k w (fun _ => False) Hs) as Hh. unfold outcome, pause_step, mbind, M_bind in *. cbn [iter].
  destruct (handle buf w) as [[] w1|code w1| |]; cbn; [|naive_solver|done|done].
  destruct Hh as (k' & _ & H1). rewrite Nat.add_succ_r. by apply (IH (S n) k').
Qed.
End correctness.

(** cat.c never ends: after [n] alarms it is still waiting for the next one,
    with a prefix of the file printed, at most ten bytes per alarm, and exactly
    as many as it can if no call fails and no read is short; the end of the file
    does not stop it.  Only a failed call ends it, with status 1 if the file
    cannot be opened and with status 0 if it cannot be read. *)
Theorem cat_never_ends n prog psrc rest buf c w :
  fs (io w) !! psrc = Some c -> length buf = CPS ->
  match main n (prog :: psrc :: rest) buf w with
  | OutOfFuel w' => exists k, printed w' = printed w ++ take k c /\ (k <= 10 * n)%nat /\
      (Forall whole (orc (io w)) -> (forall e, AErr e ∉ orc (io w)) -> k = Nat.min (10 * n) (length c))
  | Exit code w' => (code = 0 \/ code = 1) /\ (exists e, AErr e ∈ orc (io w)) /\
      exists k, printed w' = printed w ++ take k c
  | _ => False
  end.
Proof.
  intros Hsrc Hbuf.
  set (E := fun (code : Z) w' => (code = 0 \/ code = 1) /\ (exists e, AErr e ∈ orc (io w)) /\
      exists k, printed w' = printed w ++ take k c).
  set (B := fun w' => exists k, printed w' = printed w ++ take k c /\ (k <= 10 * n)%nat /\
      (Forall whole (orc (io w)) -> (forall e, AErr e ∉ orc (io w)) -> k = Nat.min (10 * n) (length c))).
  enough (outcome (main n (prog :: psrc :: rest) buf) (fun _ _ => False) E B w) as Hm
    by (unfold outcome in Hm; by destruct (main _ _ _ w)).
  unfold main. rewrite decide_False by (simpl; lia). cbn [nth]. apply o_bind, wp_outcome. unfold on_io.
  apply wp_on, wp_open; [|congruence|].
  - intros e o Ho. cbn. split; [by right|]. rewrite Ho. split; [exists e; left|]. exists 0%nat. by rewrite app_nil_r.
  - intros o fd Ho Hnew _. apply o_bind. cbn -[opened]. rewrite of_nat_ltb_0. set (w1 := Ck _ _ _).
    assert (shown psrc c (printed w) fd (length (ofds (io w))) (io w) 0 0 w1) as Hs.
    { split; cbn; try done; [by rewrite Hsrc, insert_id|by rewrite lookup_insert_eq| |by rewrite app_nil_r|lia].
      by rewrite lookup_app_r, Nat.sub_diag. }
    pose proof (o_alarms psrc c (printed w) fd _ (io w) buf Hsrc Hbuf n 0 0 w1 Hs) as Ha.
    unfold outcome in *. destruct (iter _ _ _ w1); try done.
    + destruct Ha as (-> & He & k & ?). split_and!; [by left|done|by exists k].
    + destruct Ha as (k & []). exists k. split_and!; [done|lia|done].
Qed.

Lemma cat_never_ends_witness :
  exists k, printed (final (main 5 ["cat"; "in"]%string (replicate CPS x00)
                       (Ck (Os {["in"%string := bytes "twelve bytes"]} [] ∅ 0 []) (-1) []))) =
            [] ++ take k (bytes "twelve bytes").
Proof.
  pose proof (cat_never_ends 5 "cat" "in" [] (replicate CPS x00) (bytes "twelve bytes")
    (Ck (Os {["in"%string := bytes "twelve bytes"]} [] ∅ 0 []) (-1) []) eq_refl eq_refl) as Hc.
  vm_compute in Hc. destruct Hc as (k & Hk & _). exists k. vm_compute. exact Hk.
Defined.
