(* ===== verification/Dup.v ===== *)
(** * Dup: src/fileio/dup.c, dup1.c, dup2.c, ab.c

    Three ways to redirect the standard output to the file [log], and the
    buffer of [stdout].  The stream is a buffer that is written to descriptor 1
    when the program ends, wherever that descriptor points by then. *)

From S2P Require Import Prelude Prog Posix Stdio.

(** The system and the bytes [stdout] holds back. *)
Record st := St { io : os; buffer : list byte }.

Definition on_io {A} : M os A -> M st A := on io (fun s w => St s (buffer w)).

(** ** Calls *)

(** [dup]: the lowest free descriptor refers to the same open file. *)
Definition sys_dup (fd : Z) : M os Z :=
  w ← get;
  match lookup_fd fd w with
  | None => fail_with EBADF (-1)
  | Some (i, _) =>
      let n := lowest_free (fdt w) in
      put (with_fdt (<[n := i]> (fdt w)) w) ;; mret (Z.of_nat n)
  end.

(** [dup2]: descriptor [n] refers to it, whatever it was before; nothing happens
    if they are the same. *)
Definition sys_dup2 (fd : Z) (n : nat) : M os Z :=
  w ← get;
  match lookup_fd fd w with
  | None => fail_with EBADF (-1)
  | Some (i, _) => put (with_fdt (<[n := i]> (fdt w)) w) ;; mret (Z.of_nat n)
  end.

(** A string without a line feed stays in the buffer, and so does every string
    when descriptor 1 is not a terminal. *)
Definition put_bytes (s : list byte) : M st unit := modify (fun w => St (io w) (buffer w ++ s)).
Definition puts (s : list byte) : M st unit := put_bytes (s ++ [x0a]).

(** At the end of the program the buffer is written, in as many pieces as the
    system likes; an error loses the rest. *)
Definition flush : M st unit :=
  w ← get;
  on_io (iter (S (length (buffer w))) (fun data : list byte =>
    if decide (data = []) then mret (inr tt) else
    r ← sys_write 1 data;
    if r <? 0 then mret (inr tt) else mret (inl (drop (Z.to_nat r) data))) (buffer w)).

(** [exit]: flush, then end. *)
Definition finish (code : Z) : M st unit := flush ;; exit_ code.

Definition LOG_FLAGS : Z := Z.lor O_WRONLY (Z.lor O_CREAT O_TRUNC).

(** ** The programs *)

Module Dup.
Definition main : M st unit :=
  on_io (sys_close 1) ;;
  fd ← on_io (sys_open "log" LOG_FLAGS);
  if fd <? 0 then finish 1 else
  puts (bytes "hello" ++ [x0a]) ;;
  finish 0.
End Dup.

Module Dup1.
Definition main : M st unit :=
  fd ← on_io (sys_open "log" LOG_FLAGS);
  on_io (sys_close 1) ;;
  if fd <? 0 then finish 1 else
  on_io (sys_dup fd) ;;
  on_io (sys_close fd) ;;
  puts (bytes "hello" ++ [x0a]) ;;
  finish 0.
End Dup1.

Module Dup2.
Definition main : M st unit :=
  fd ← on_io (sys_open "log" LOG_FLAGS);
  if fd <? 0 then finish 1 else
  on_io (sys_dup2 fd 1) ;;
  (if fd =? 1 then mret tt else on_io (sys_close fd) ;; mret tt) ;;
  puts (bytes "hello" ++ [x0a]) ;;
  finish 0.
End Dup2.

Module Ab.
(** [putchar('a'); write(1, "b", 1);] *)
Definition ab : M st unit :=
  put_bytes (bytes "a") ;;
  on_io (sys_write 1 (bytes "b")) ;;
  mret tt.

Definition main : M st unit := ab ;; ab ;; ab ;; finish 0.
End Ab.

(** ** Correctness *)

(** Descriptor 1 refers to the end of a file, and no call fails. *)
Record out_at (p : string) (c : list byte) (w : os) : Prop := {
  oa_fd : exists i rd, fdt w !! 1%nat = Some i /\ ofds w !! i = Some (Ofd p (length c) rd true);
  oa_fs : fs w !! p = Some c;
  oa_orc : no_err (orc w) }.

Lemma wp_append p c data (Q : Z -> os -> Prop) E w :
  out_at p c w -> data <> [] ->
  (forall n w', (0 < n <= length data)%nat -> out_at p (c ++ take n data) w' ->
     fs w' = <[p := c ++ take n data]> (fs w) -> fdt w' = fdt w -> Q (Z.of_nat n) w') ->
  wp (sys_write 1 data) Q E w.
Proof.
  intros [(i & rd & Hfd & Hof) Hfs Hno] Hne HQ. eapply (wp_write 1 i); [done|done|done| |].
  { intros e o Ho. exfalso. rewrite Ho in Hno. by eapply (no_err_head e o), Hno. }
  intros n o. cbv zeta. cbn [of_path of_off]. rewrite Hfs. cbn [default from_option id]. rewrite splice_end.
  intros Ho Hle Hpos _. assert (0 < length data)%nat by (destruct data; [done|simpl; lia]).
  apply HQ; [lia| |done|done]. split; cbn.
  - exists i, rd. split; [done|]. rewrite list_lookup_insert_eq by (by eapply lookup_lt_Some).
    rewrite length_app, length_take. do 2 f_equal. lia.
  - by rewrite lookup_insert_eq.
  - by eapply no_err_suffix.
Qed.

(** A write that is not cut short. *)
Lemma wp_append_whole p c data (Q : Z -> os -> Prop) E w :
  out_at p c w -> Forall whole (orc w) ->
  (forall w', out_at p (c ++ data) w' -> fs w' = <[p := c ++ data]> (fs w) -> Q (Z.of_nat (length data)) w') ->
  wp (sys_write 1 data) Q E w.
Proof.
  intros [(i & rd & Hfd & Hof) Hfs Hno] Hwh HQ. eapply (wp_write 1 i); [done|done|done| |].
  { intros e o Ho. exfalso. rewrite Ho in Hno. by eapply (no_err_head e o), Hno. }
  intros n o. cbv zeta. cbn [of_path of_off]. rewrite Hfs. cbn [default from_option id]. rewrite splice_end.
  intros Ho _ _ Hn. rewrite (Hn Hwh), firstn_all. apply HQ; [|done]. split; cbn.
  - exists i, rd. split; [done|]. rewrite list_lookup_insert_eq by (by eapply lookup_lt_Some).
    by rewrite length_app.
  - by rewrite lookup_insert_eq.
  - by eapply no_err_suffix.
Qed.

(** Everything that was held back is appended to the file. *)
Lemma wp_finish p c code w (E : Z -> st -> Prop) :
  out_at p c (io w) ->
  (forall w', fs (io w') = <[p := c ++ buffer w]> (fs (io w)) -> E code w') ->
  wp (finish code) (fun _ _ => False) E w.
Proof.
  intros Ho HE. unfold finish, flush. apply wp_bind. wp_steps. unfold on_io. apply wp_on.
  eapply wp_mono; [| |apply (wp_iter (fun data w1 => exists k, data = drop k (buffer w) /\
      out_at p (c ++ take k (buffer w)) w1 /\ fs w1 = <[p := c ++ take k (buffer w)]> (fs (io w)))
    (fun data _ => length data) _
    (fun _ w1 => fs w1 = <[p := c ++ buffer w]> (fs (io w))) (fun _ _ => False))].
  - intros [] w1 Hw1. wp_steps. by apply HE.
  - done.
  - intros data w1 (k & -> & Hoa & Hfs). case_decide as Hd.
    + wp_steps. rewrite Hfs. rewrite <-(take_drop k (buffer w)) at 2. by rewrite Hd, app_nil_r.
    + apply wp_bind. eapply wp_append; [done|done|]. intros n w2 Hn Hoa2 Hfs2 _.
      rewrite <-(assoc_L (++)), take_take_drop in *. rewrite of_nat_ltb_0. wp_steps. rewrite Nat2Z.id, drop_drop.
      split; [|rewrite !length_drop in *; lia]. exists (k + n)%nat. split_and!; [done|done|].
      by rewrite Hfs2, Hfs, insert_insert_eq.
  - exists 0%nat. cbn. rewrite app_nil_r. split_and!; [done|done|]. symmetry. apply insert_id. by destruct Ho.
  - lia.
Qed.

(** With descriptor 1 closed the output is lost. *)
Lemma wp_finish_closed code w (E : Z -> st -> Prop) :
  fdt (io w) !! 1%nat = None -> (forall w', fs (io w') = fs (io w) -> E code w') ->
  wp (finish code) (fun _ _ => False) E w.
Proof.
  intros Hfd HE. unfold finish, flush. apply wp_bind. wp_steps. unfold on_io. apply wp_on, wp_iter_S.
  case_decide; [wp_steps; by apply HE|]. wp_steps. unfold sys_write. wp_steps. apply wp_next_ans. intros a o _ _ _.
  assert (Hl : lookup_fd 1 (with_orc o (io w)) = None) by (by apply (lookup_fd_closed _ 1)).
  destruct a; wp_steps; rewrite ?Hl; apply wp_fail_with; cbn iota; wp_steps; by apply HE.
Qed.

(** The state after [open] of [log]. *)
Lemma wp_open_log (Q : Z -> st -> Prop) E w :
  no_err (orc (io w)) ->
  (forall o fd, no_err o -> fd = lowest_free (fdt (io w)) -> fdt (io w) !! fd = None ->
     Q (Z.of_nat fd) (St (Os (<["log"%string := []]> (fs (io w))) (ofds (io w) ++ [Ofd "log" 0 false true])
                            (<[fd := length (ofds (io w))]> (fdt (io w))) (errno (io w)) o) (buffer w))) ->
  wp (on_io (sys_open "log" LOG_FLAGS)) Q E w.
Proof.
  intros Hno HQ. unfold on_io. apply wp_on, wp_open.
  - intros e o Ho. exfalso. rewrite Ho in Hno. by eapply (no_err_head e o), Hno.
  - intros o _ _. by vm_compute.
  - intros o fd Ho Hnew Hlow. by apply HQ; [eapply no_err_suffix|..].
Qed.

Definition hello : list byte := bytes "hello" ++ [x0a; x0a].

(** With descriptor 1 on the new file, [puts] and the end of the program write it. *)
Lemma wp_hello fs0 ofds0 t er o b :
  t !! 1%nat = Some (length ofds0) -> no_err o ->
  wp (puts (bytes "hello" ++ [x0a]) ;; finish 0) (fun _ _ => False)
     (fun code w' => code = 0 /\ fs (io w') = <["log"%string := b ++ hello]> fs0)
     (St (Os (<["log"%string := []]> fs0) (ofds0 ++ [Ofd "log" 0 false true]) t er o) b).
Proof.
  intros Ht Ho. apply wp_bind. unfold puts, put_bytes. wp_steps. apply (wp_finish "log" []).
  - split; cbn; [|by rewrite lookup_insert_eq|done]. exists (length ofds0), false. split; [done|].
    by rewrite lookup_app_r, Nat.sub_diag.
  - intros w' ->. cbn. split; [done|]. by rewrite insert_insert_eq.
Qed.

(** Every descriptor refers to an open file. *)
Definition wf_fds (w : os) : Prop := forall fd i, fdt w !! fd = Some i -> (i < length (ofds w))%nat.

Lemma lookup_fd_valid w (fd i : nat) :
  wf_fds w -> fdt w !! fd = Some i -> exists d, lookup_fd (Z.of_nat fd) w = Some (i, d).
Proof.
  intros Hwf Hfd. destruct (lookup_lt_is_Some_2 (ofds w) i) as [d Hd]; [by eapply Hwf|].
  exists d. by apply lookup_fd_Some.
Qed.

(** With descriptor 0 in use and 1 free, 1 is next. *)
Lemma lowest_free_1 (t : gmap nat nat) : is_Some (t !! 0%nat) -> t !! 1%nat = None -> lowest_free t = 1%nat.
Proof.
  intros H0 H1. apply lowest_free_eq; [|done]. intros j Hj. by assert (j = 0)%nat as -> by lia.
Qed.

Lemma wp_close_fd (fd : nat) (Q : Z -> st -> Prop) E w :
  wf_fds (io w) ->
  (forall r, Q r (St (match fdt (io w) !! fd with
                      | Some _ => with_fdt (delete fd (fdt (io w))) (io w)
                      | None => with_errno EBADF (io w) end) (buffer w))) ->
  wp (on_io (sys_close (Z.of_nat fd))) Q E w.
Proof.
  intros Hwf HQ. unfold on_io. apply wp_on. unfold sys_close. wp_steps.
  destruct (fdt (io w) !! fd) as [i|] eqn:Hfd.
  - destruct (lookup_fd_valid (io w) fd i Hwf Hfd) as [d ->]. wp_steps. rewrite Nat2Z.id. apply HQ.
  - rewrite lookup_fd_closed by done. apply wp_fail_with, HQ.
Qed.

(** dup2.c redirects in every case. *)
Lemma dup2_redirects w :
  no_err (orc (io w)) -> buffer w = [] ->
  wp Dup2.main (fun _ _ => False)
     (fun code w' => code = 0 /\ fs (io w') = <["log"%string := hello]> (fs (io w))) w.
Proof.
  intros Hno Hb. unfold Dup2.main. apply wp_bind, wp_open_log; [done|].
  intros o fd Ho Hlow Hnew. rewrite of_nat_ltb_0. apply wp_bind. unfold on_io. apply wp_on. cbn [io].
  unfold sys_dup2. wp_steps. rewrite (lookup_fd_Some fd (length (ofds (io w))) (Ofd "log" 0 false true)).
  2: { cbn. by rewrite lookup_insert_eq. }
  2: { cbn. by rewrite lookup_app_r, Nat.sub_diag. }
  wp_steps. cbn [io buffer]. rewrite Hb. destruct (Z.eqb_spec (Z.of_nat fd) 1) as [Hfd|Hfd]; wp_steps; cbn [io].
  - apply wp_hello; [by rewrite lookup_insert_eq|done].
  - eapply (wp_close fd (length (ofds (io w))) (Ofd "log" 0 false true)).
    + cbn. rewrite lookup_insert_ne by lia. by rewrite lookup_insert_eq.
    + cbn. by rewrite lookup_app_r, Nat.sub_diag.
    + wp_steps. apply wp_hello; [|done]. rewrite lookup_delete_ne by lia. cbn. by rewrite lookup_insert_eq.
Qed.

Lemma dup_redirects w :
  no_err (orc (io w)) -> buffer w = [] -> wf_fds (io w) -> is_Some (fdt (io w) !! 0%nat) ->
  wp Dup.main (fun _ _ => False)
     (fun code w' => code = 0 /\ fs (io w') = <["log"%string := hello]> (fs (io w))) w.
Proof.
  intros Hno Hb Hwf H0. unfold Dup.main. apply wp_bind, (wp_close_fd 1); [done|]. intros r.
  set (t := delete 1%nat (fdt (io w))).
  assert (Ht : is_Some (t !! 0%nat) /\ t !! 1%nat = None).
  { unfold t. by rewrite lookup_delete_eq, lookup_delete_ne. }
  apply wp_bind. replace (match fdt (io w) !! 1%nat with Some _ => _ | None => _ end)
    with (Os (fs (io w)) (ofds (io w)) t (if fdt (io w) !! 1%nat then errno (io w) else EBADF) (orc (io w))).
  2: { unfold t. destruct (fdt (io w) !! 1%nat) eqn:E1; [done|]. by rewrite delete_id. }
  apply wp_open_log; [done|]. cbn [io fdt buffer ofds fs]. intros o fd Ho Hlow Hnew.
  rewrite lowest_free_1 in Hlow by apply Ht. subst fd. rewrite of_nat_ltb_0, Hb.
  apply wp_hello; [by rewrite lookup_insert_eq|done].
Qed.

Lemma dup1_redirects w :
  no_err (orc (io w)) -> buffer w = [] -> wf_fds (io w) -> is_Some (fdt (io w) !! 0%nat) -> is_Some (fdt (io w) !! 1%nat) ->
  wp Dup1.main (fun _ _ => False)
     (fun code w' => code = 0 /\ fs (io w') = <["log"%string := hello]> (fs (io w))) w.
Proof.
  intros Hno Hb Hwf [i0 H0] [i1 H1]. unfold Dup1.main. apply wp_bind, wp_open_log; [done|].
  intros o fd Ho Hlow Hnew. assert (Hfd : fd <> 0%nat /\ fd <> 1%nat) by (split; congruence).
  set (n := length (ofds (io w))). set (D := Ofd "log" 0 false true).
  apply wp_bind. unfold on_io at 1. apply wp_on. cbn [io].
  destruct (lookup_lt_is_Some_2 (ofds (io w)) i1) as [d1 Hd1]; [by eapply Hwf|].
  eapply (wp_close 1 i1 d1); [cbn; by rewrite lookup_insert_ne by lia|cbn; by apply lookup_app_l_Some|].
  rewrite of_nat_ltb_0. cbn [io buffer with_fdt fdt ofds fs errno orc].
  set (t := delete 1%nat _). assert (Ht : t !! 0%nat = Some i0 /\ t !! 1%nat = None /\ t !! fd = Some n).
  { unfold t. rewrite lookup_delete_eq, !lookup_delete_ne, lookup_insert_eq, lookup_insert_ne by lia. done. }
  destruct Ht as (Ht0 & Ht1 & Htfd). apply wp_bind. unfold on_io at 1. apply wp_on. cbn [io].
  unfold sys_dup. wp_steps. rewrite (lookup_fd_Some fd n D); [|done|cbn; by rewrite lookup_app_r, Nat.sub_diag].
  wp_steps. cbn [fdt]. rewrite lowest_free_1 by eauto. unfold on_io. apply wp_on. cbn [io buffer]. rewrite Hb.
  eapply (wp_close fd n D); [cbn; by rewrite lookup_insert_ne by lia|cbn; by rewrite lookup_app_r, Nat.sub_diag|].
  apply wp_hello; [|done]. cbn. rewrite lookup_delete_ne by lia. by rewrite lookup_insert_eq.
Qed.

(** C28: The three redirections agree: with descriptors 0 and 1 in use, dup.c,
    dup1.c and dup2.c all end with status 0 and leave what they print, and
    nothing else, in the file log; dup2.c does so for every table of descriptors. *)
Theorem dups_redirect w :
  no_err (orc (io w)) -> buffer w = [] -> wf_fds (io w) ->
  let redirected m := wp m (fun _ _ => False)
     (fun code w' => code = 0 /\ fs (io w') = <["log"%string := bytes "hello" ++ [x0a; x0a]]> (fs (io w))) w in
  redirected Dup2.main /\
  (is_Some (fdt (io w) !! 0%nat) -> redirected Dup.main /\ (is_Some (fdt (io w) !! 1%nat) -> redirected Dup1.main)).
Proof.
  intros Hno Hb Hwf. cbv zeta. split; [by apply dup2_redirects|]. intros H0. split; [by apply dup_redirects|].
  intros H1. by apply dup1_redirects.
Qed.

Definition dup_demo : st :=
  {| io := Os ∅ [Ofd "tty" 0 true true] {[0%nat := 0%nat; 1%nat := 0%nat; 2%nat := 0%nat]} 0 [AFull; ALen 3]; buffer := [] |}.

Lemma dups_redirect_witness :
  wp Dup1.main (fun _ _ => False)
     (fun code w' => code = 0 /\ fs (io w') = <["log"%string := bytes "hello" ++ [x0a; x0a]]> ∅) dup_demo.
Proof.
  destruct (dups_redirect dup_demo) as [_ H].
  - by repeat constructor.
  - done.
  - intros fd i. cbn. intros Hl. assert (Hx : (fd, i) ∈ map_to_list (fdt (io dup_demo))) by (by apply elem_of_map_to_list).
    vm_compute in Hx. set_solver by lia.
  - destruct (H ltac:(by eexists)) as [_ H1]. apply H1. by eexists.
Defined.

(** If descriptor 1 is closed when dup1.c starts, [open] returns it and
    [close(1)] closes the new file: the program ends with status 0 and an empty
    log (dup2.c tests for this case). *)
Theorem dup1_closed_stdout_loses w :
  no_err (orc (io w)) -> buffer w = [] -> is_Some (fdt (io w) !! 0%nat) -> fdt (io w) !! 1%nat = None ->
  wp Dup1.main (fun _ _ => False)
     (fun code w' => code = 0 /\ fs (io w') = <["log"%string := []]> (fs (io w))) w.
Proof.
  intros Hno Hb H0 H1. unfold Dup1.main. apply wp_bind, wp_open_log; [done|].
  intros o fd Ho Hlow _. rewrite lowest_free_1 in Hlow by done. subst fd. rewrite of_nat_ltb_0.
  set (n := length (ofds (io w))). apply wp_bind. unfold on_io at 1. apply wp_on. cbn [io].
  eapply (wp_close 1 n (Ofd "log" 0 false true)); [cbn; by rewrite lookup_insert_eq|cbn; by rewrite lookup_app_r, Nat.sub_diag|].
  cbn [io buffer with_fdt fdt ofds fs errno orc]. rewrite delete_insert_id by done.
  apply wp_bind. unfold on_io at 1, sys_dup. wp_steps. rewrite (lookup_fd_closed _ 1) by done. apply wp_fail_with.
  unfold on_io at 1, sys_close. wp_steps. rewrite (lookup_fd_closed _ 1) by done. apply wp_fail_with.
  unfold puts, put_bytes. wp_steps. by apply wp_finish_closed.
Qed.

Lemma dup1_closed_stdout_loses_witness :
  wp Dup1.main (fun _ _ => False)
     (fun code w' => code = 0 /\ fs (io w') = <["log"%string := []]> ∅)
     (St (Os ∅ [Ofd "tty" 0 true true] {[0%nat := 0%nat]} 0 []) []).
Proof.
  apply (dup1_closed_stdout_loses (St (Os ∅ [Ofd "tty" 0 true true] {[0%nat := 0%nat]} 0 []) []));
    [constructor|reflexivity|by eexists|reflexivity].
Defined.

(** ab.c: the bytes given to [write] come first, those held back by [stdout] at
    the end. *)
Lemma wp_ab p c (Q : unit -> st -> Prop) E w :
  out_at p c (io w) ->
  (forall w', out_at p (c ++ bytes "b") (io w') -> fs (io w') = <[p := c ++ bytes "b"]> (fs (io w)) ->
     buffer w' = buffer w ++ bytes "a" -> Q tt w') ->
  wp Ab.ab Q E w.
Proof.
  intros Ho HQ. unfold Ab.ab, put_bytes, on_io. wp_steps. eapply wp_append; [done|done|].
  intros n w' Hn Hoa Hfs _. wp_steps. simpl in Hn. assert (n = 1)%nat as -> by lia. by apply HQ.
Qed.

Lemma ab_prints p c w :
  out_at p c (io w) -> buffer w = [] ->
  wp Ab.main (fun _ _ => False)
     (fun code w' => code = 0 /\ fs (io w') = <[p := c ++ bytes "bbbaaa"]> (fs (io w))) w.
Proof.
  intros Ho Hb. unfold Ab.main. apply wp_bind. eapply wp_ab; [done|]. intros w1 Ho1 Hf1 Hb1.
  apply wp_bind. eapply wp_ab; [done|]. intros w2 Ho2 Hf2 Hb2.
  apply wp_bind. eapply wp_ab; [done|]. intros w3 Ho3 Hf3 Hb3.
  eapply wp_finish; [done|]. intros w' ->. split; [done|].
  rewrite Hf3, Hf2, Hf1, Hb3, Hb2, Hb1, Hb, !insert_insert_eq, <-!(assoc_L (++)). done.
Qed.
