(* ===== verification/AnyTimer.v ===== *)
(** * AnyTimer: the timer library, src/signal/anytimer.c, and at_test.c

    [tab] is the table [tasks] of pointers to the allocated [struct task]
    objects; the [SIGALRM] handler [handle] sets the next alarm, counts every
    task down, and runs and frees those that reach zero.  An alarm goes off once.
    Signals arrive between library calls, while [at_wait] is blocked in [pause()]
    and between its test and that [pause()].  The functions the library
    calls back are a parameter: [exec f a] is the effect of [f(a)] on an
    environment of the client's (callbacks do not call the library).

    [spec_step] describes the library as a finite map from identifiers to
    pending jobs; [at_refines] shows that the code implements it, and
    [at_deadlines] says in closed form which jobs [n] ticks run. *)

From S2P Require Import Prelude Prog Signals Table.

Definition MAX_TASKS : nat := 1024.

Section anytimer.
(** Function pointers, their arguments, the environment they change. *)
Context {F A Env : Type} (exec : F -> A -> Env -> Env).

(** ** State *)

Record task := Task { sec : Z; func : F; arg : A; pos : Z }.

Record anytimer := AnyTimer {
  tab : table task;              (* struct task *tasks[MAX_TASKS] *)
  inited : bool;
  disposition : sig_handler;     (* of SIGALRM *)
  armed : bool;                  (* an alarm(1) is outstanding *)
  env : Env;
  ticks : Z }.                   (* history: SIGALRM deliveries *)

Definition with_tab (t : table task) (w : anytimer) : anytimer :=
  AnyTimer t (inited w) (disposition w) (armed w) (env w) (ticks w).
Definition on_tab {B} (m : M (table task) B) : M anytimer B := on tab with_tab m.

Definition initial (d : sig_handler) (e : Env) : anytimer :=
  AnyTimer (empty_table MAX_TASKS) false d false e 0.

Definition alarm1 : M anytimer unit :=
  modify (fun w => AnyTimer (tab w) (inited w) (disposition w) true (env w) (ticks w)).

Definition set_sec (s : Z) (t : task) : task := Task s (func t) (arg t) (pos t).

(** [t->func(t->arg)] *)
Definition call (t : task) : M anytimer unit :=
  modify (fun w => AnyTimer (tab w) (inited w) (disposition w) (armed w)
                            (exec (func t) (arg t) (env w)) (ticks w)).

(** ** The library *)

(** One round of the handler's loop. *)
Definition handle_slot (i : nat) : M anytimer unit :=
  p ← on_tab (slot_at (Z.of_nat i));
  match p with
  | None => mret tt
  | Some _ =>
      t ← on_tab (deref p);
      s ← int_ (sec t - 1);
      on_tab (store p (set_sec s t)) ;;
      t' ← on_tab (deref p);
      if sec t' =? 0 then
        call t' ;;
        on_tab (free p) ;;
        on_tab (set_slot (Z.of_nat i) None)
      else mret tt
  end.

Definition handle : M anytimer unit :=
  alarm1 ;;
  for_ MAX_TASKS 0 handle_slot.

Definition getf_free_pos : M (table task) Z := first_free MAX_TASKS.

(** [malloc_ok] says whether memory is available; the result of [malloc] is
    used unchecked. *)
Definition at_add_job (malloc_ok : bool) (garbage : task) (s : Z) (job : F) (a : A)
    : M anytimer Z :=
  w ← get;
  (if inited w then mret tt else
     put (AnyTimer (tab w) true H_handle (armed w) (env w) (ticks w)) ;; alarm1) ;;
  on_tab (
    id ← getf_free_pos;
    if id <? 0 then mret id else
    t ← malloc malloc_ok garbage;
    store t (Task s job a id) ;;
    set_slot id t ;;
    mret id).

(** The result is [Some r] for [return r], and [None], an indeterminate value,
    where control reaches the end of the function without a [return]. *)
Definition at_cancel_job (id : Z) : M anytimer (option Z) :=
  on_tab (
    t ← slot_at id;
    match t with
    | None => mret (Some 0)
    | Some _ => free t ;; set_slot id None ;; mret None
    end).

(** The kernel delivers the [SIGALRM] of the outstanding alarm.  An alarm goes
    off once: it is spent before the handler runs. *)
Definition deliver : M anytimer unit :=
  modify (fun w => AnyTimer (tab w) (inited w) (disposition w) false (env w) (ticks w + 1)) ;;
  handle.

(** The time until the outstanding alarm passes.  Without an alarm nothing
    happens; a signal that does not find the library's handler has no result
    here. *)
Definition tick : M anytimer unit :=
  w ← get;
  if armed w then
    if decide (disposition w = H_handle) then deliver else (fun w => OutOfFuel w)
  else mret tt.

Fixpoint tick_n (n : nat) : M anytimer unit :=
  match n with O => mret tt | S n' => tick ;; tick_n n' end.

(** [pause()] returns after the handler ran for the outstanding alarm; with no
    alarm it does not return. *)
Definition pause : M anytimer unit :=
  w ← get;
  if armed w then tick else (fun w => OutOfFuel w).

(** [while (tasks[id] != NULL) pause();], where [late] lists how many signals
    arrive between the test and the [pause] of each round. *)
Definition at_wait (fuel : nat) (late : list nat) (id : Z) : M anytimer unit :=
  iter fuel (fun late : list nat =>
    t ← on_tab (slot_at id);
    match t with
    | Some _ => tick_n (hd 0%nat late) ;; pause ;; mret (inl (tl late))
    | None => mret (inr tt)
    end) late.

(** ** Abstract specification *)

Record job := Job { j_sec : Z; j_func : F; j_arg : A }.

Definition jb (t : task) : job := Job (sec t) (func t) (arg t).

(** A job whose time is not up yet, [n] ticks later; jobs with no positive
    delay are never run. *)
Definition due_in (n : Z) (j : job) : bool := (1 <=? j_sec j) && (j_sec j <=? n).
Definition later (n : Z) (j : job) : option job :=
  if due_in n j then None else Some (Job (j_sec j - n) (j_func j) (j_arg j)).

(** The jobs whose time is up at tick [t] from now, in the order of their slots. *)
Definition due_at (k : nat) (m : gmap nat job) (t : Z) : list (F * A) :=
  omap (fun i => j ← m !! i; if j_sec j =? t then Some (j_func j, j_arg j) else None) (seq 0 k).

Definition run_job (e : Env) (j : F * A) : Env := exec j.1 j.2 e.

(** One tick: defined unless a delay would pass below [INT_MIN]. *)
Definition spec_tick (s : gmap nat job * Env) : option (gmap nat job * Env) :=
  let '(m, e) := s in
  if bool_decide (map_Forall (fun _ j => in_int (j_sec j - 1) = true) m)
  then Some (omap (later 1) m, foldl run_job e (due_at MAX_TASKS m 1)) else None.

Fixpoint spec_ticks (n : nat) (s : gmap nat job * Env) : option (gmap nat job * Env) :=
  match n with
  | O => Some s
  | S n' => s' ← spec_tick s; spec_ticks n' s'
  end.

Inductive op :=
| AAdd (s : Z) (f : F) (a : A)
| ATick
| ACancel (id : Z)
| AWait (id : Z) (late : list nat).

(** How many ticks a wait for a job with delay [n] lasts: a signal between the
    test and the [pause] costs a further one when it is the job's last. *)
Fixpoint wait_ticks (late : list nat) (n : nat) : nat :=
  match n, late with
  | O, _ => O
  | S _, [] => n
  | S _, k :: late' => S k + wait_ticks late' (n - S k)
  end.

Definition free_id (m : gmap nat job) : option nat :=
  find_idx (fun i => bool_decide (m !! i = None)) (seq 0 MAX_TASKS).

Definition in_table (id : Z) : bool := (0 <=? id) && (id <? Z.of_nat MAX_TASKS).

Definition spec_step (o : op) (s : gmap nat job * Env) : option (option Z * (gmap nat job * Env)) :=
  let '(m, e) := s in
  match o with
  | AAdd n f a =>
      match free_id m with
      | Some i => Some (Some (Z.of_nat i), (<[i := Job n f a]> m, e))
      | None => Some (Some (-1), (m, e))
      end
  | ATick => s' ← spec_tick (m, e); Some (Some 0, s')
  | ACancel id =>
      if in_table id then
        match m !! Z.to_nat id with
        | Some _ => Some (None, (delete (Z.to_nat id) m, e))
        | None => Some (Some 0, (m, e))
        end
      else None
  | AWait id late =>
      if in_table id then
        match m !! Z.to_nat id with
        | Some j => if j_sec j <? 1 then None else
                    s' ← spec_ticks (wait_ticks late (Z.to_nat (j_sec j))) (m, e); Some (Some 0, s')
        | None => Some (Some 0, (m, e))
        end
      else None
  end.

Definition impl_step (fuel : nat) (garbage : task) (o : op) : M anytimer (option Z) :=
  match o with
  | AAdd n f a => id ← at_add_job true garbage n f a; mret (Some id)
  | ATick => tick ;; mret (Some 0)
  | ACancel id => at_cancel_job id
  | AWait id late => at_wait fuel late id ;; mret (Some 0)
  end.

Fixpoint spec_run (os : list op) (s : gmap nat job * Env)
    : option (list (option Z) * (gmap nat job * Env)) :=
  match os with
  | [] => Some ([], s)
  | o :: os' =>
      '(r, s1) ← spec_step o s; '(rs, s2) ← spec_run os' s1; Some (r :: rs, s2)
  end.

Fixpoint impl_run (fuel : nat) (garbage : task) (os : list op) : M anytimer (list (option Z)) :=
  match os with
  | [] => mret []
  | o :: os' => r ← impl_step fuel garbage o; rs ← impl_run fuel garbage os'; mret (r :: rs)
  end.

(** [n] delivered signals in a row. *)
Definition run_ticks (n : nat) : M anytimer unit := for_ n 0 (fun _ => deliver).

(** The jobs [n] ticks run: those due after one tick, after two, and so on. *)
Definition fired (n : nat) (m : gmap nat job) : list (F * A) :=
  concat (map (fun t => due_at MAX_TASKS m (Z.of_nat t)) (seq 1 n)).

(** ** Invariant and abstraction *)

Record wf (w : anytimer) : Prop := {
  wf_tab : twf MAX_TASKS pos (tab w);
  wf_sig : inited w = true -> disposition w = H_handle /\ armed w = true;
  wf_load : inited w = false -> forall i, view (tab w) i = None }.

Definition absr (w : anytimer) (m : gmap nat job) : Prop :=
  forall i, m !! i = jb <$> view (tab w) i.

Lemma at_wf_initial d e : wf (initial d e).
Proof. split; [apply twf_empty|done|]. intros _ i. apply view_empty. Qed.

Lemma at_absr_initial d e : absr (initial d e) ∅.
Proof. intros i. rewrite lookup_empty. cbn [initial tab]. by rewrite view_empty. Qed.

(** What a call must establish. *)
Definition rel (w : anytimer) (s : gmap nat job * Env) : Prop :=
  wf w /\ absr w s.1 /\ env w = s.2.

Section operations.
Implicit Types (w : anytimer) (m : gmap nat job) (t : task).

Lemma with_tab_id w : with_tab (tab w) w = w.
Proof. by destruct w. Qed.

Lemma at_wf_live w i t : wf w -> view (tab w) i = Some t -> inited w = true.
Proof. intros Hwf Hv. destruct (inited w) eqn:Ei; [done|]. by rewrite (wf_load w Hwf Ei i) in Hv. Qed.

(** A pending task after one tick of the clock. *)
Definition v_later t : option task := if sec t =? 1 then None else Some (set_sec (sec t - 1) t).

Lemma jb_later t : jb <$> v_later t = later 1 (jb t).
Proof.
  unfold v_later, later, due_in. cbn [jb j_sec]. bool_cases; try lia; done.
Qed.

Lemma due_at_S k m n :
  due_at (S k) m n =
  due_at k m n ++ (match m !! k with
                      | Some j => if j_sec j =? n then [(j_func j, j_arg j)] else []
                      | None => [] end).
Proof.
  unfold due_at. rewrite seq_S, omap_app. f_equal. simpl.
  destruct (m !! k) as [j|]; [|done]. simpl. by destruct (j_sec j =? n).
Qed.

(** A round of the handler on a pending task: count down, and at zero run the
    callback and release the slot. *)
Lemma wp_handle_slot i l t (Q : unit -> anytimer -> Prop) E w :
  twf MAX_TASKS pos (tab w) -> (i < MAX_TASKS)%nat ->
  slots (tab w) !! i = Some (Some l) -> view (tab w) i = Some t -> in_int (sec t - 1) = true ->
  (forall tb, twf MAX_TASKS pos tb ->
     (forall j, view tb j = if decide (j = i) then v_later t else view (tab w) j) ->
     Q tt (AnyTimer tb (inited w) (disposition w) (armed w)
             (if sec t =? 1 then exec (func t) (arg t) (env w) else env w) (ticks w))) ->
  wp (handle_slot i) Q E w.
Proof.
  intros Hwf Hi Hs Hv Hin HQ.
  destruct (twf_view _ _ _ _ _ Hwf Hv) as (l' & ? & Ho & Hp & _). simplify_eq.
  unfold handle_slot, on_tab. apply wp_bind, wp_on. eapply wp_slot_at; [done..|].
  intros p ?; simplify_eq. rewrite with_tab_id.
  apply wp_bind, wp_on. eapply wp_deref; [done|]. rewrite with_tab_id.
  apply wp_bind, wp_int; [by apply in_int_spec|].
  apply wp_bind, wp_on. eapply wp_store; [done|].
  destruct (twf_store MAX_TASKS pos (tab w) i l (set_sec (sec t - 1) t)) as [Hwf1 Hv1]; [done..|].
  set (tb1 := Table _ _) in *.
  apply wp_bind, wp_on. eapply wp_deref; [apply lookup_insert_eq|]. cbn [sec set_sec].
  unfold v_later in HQ. destruct (Z.eqb_spec (sec t - 1) 0), (Z.eqb_spec (sec t) 1); try lia.
  - unfold call. apply wp_bind, wp_modify. apply wp_bind, wp_on. cbn [with_tab tab func arg].
    eapply wp_free; [apply lookup_insert_eq|]. apply wp_on. cbn [with_tab tab].
    eapply wp_set_slot; [done|]. cbn [slots objs].
    destruct (twf_remove MAX_TASKS pos tb1 i l Hwf1 Hs) as [Hwf2 Hv2]. apply HQ; [done|].
    intros j. rewrite Hv2, Hv1. by case_decide.
  - wp_steps. by apply HQ.
Qed.

(** The handler's loop after the first [i] slots. *)
Record scanned w m (i : nat) (w' : anytimer) : Prop := {
  sc_tab : twf MAX_TASKS pos (tab w');
  sc_inited : inited w' = inited w;
  sc_disp : disposition w' = disposition w;
  sc_armed : armed w' = true;
  sc_ticks : ticks w' = ticks w;
  sc_env : env w' = foldl run_job (env w) (due_at i m 1);
  sc_view : forall j, view (tab w') j =
    if decide (j < i)%nat then t ← view (tab w) j; v_later t else view (tab w) j }.

Lemma wp_scan_slot w m i (E : Z -> anytimer -> Prop) w' :
  absr w m -> map_Forall (fun _ j => in_int (j_sec j - 1) = true) m ->
  (i < MAX_TASKS)%nat -> scanned w m i w' ->
  wp (handle_slot i) (fun _ => scanned w m (S i)) E w'.
Proof.
  intros Ha Hin Hi [Ht Hini Hd Har Htk He Hv].
  destruct (lookup_lt_is_Some_2 (slots (tab w')) i) as [[l|] Hs];
    [by rewrite (twf_len _ _ _ Ht)|..].
  - destruct (twf_slot _ _ _ i l Ht Hs) as (t & Ho & Hvi & Hp).
    assert (Hvi0 : view (tab w) i = Some t) by (by rewrite Hv, decide_False in Hvi by lia).
    assert (Hm : m !! i = Some (jb t)) by (by rewrite (Ha i), Hvi0).
    eapply wp_handle_slot; [done|done|done|done|apply (Hin i _ Hm)|].
    intros tb Htb Hvb. split; try done; cbn [tab env].
    + rewrite due_at_S, Hm, foldl_app, <-He. cbn [jb j_sec]. by destruct (sec t =? 1).
    + intros j. rewrite Hvb, Hv. repeat case_decide; subst; try lia; try done. by rewrite Hvi0.
  - unfold handle_slot, on_tab. apply wp_bind, wp_on. eapply wp_slot_at; [done|lia|].
    intros p ?; simplify_eq. rewrite with_tab_id. wp_steps.
    pose proof (view_free _ i Hs) as Hvi. rewrite Hv, decide_False in Hvi by lia.
    split; try done.
    + rewrite due_at_S, (Ha i), Hvi. simpl. by rewrite app_nil_r.
    + intros j. rewrite Hv. repeat case_decide; try lia; try done.
      assert (j = i) as -> by lia. by rewrite Hvi.
Qed.

(** The handler ticks every task, and runs those that are due in slot order. *)
Lemma wp_handle m E w :
  twf MAX_TASKS pos (tab w) -> (inited w = true -> disposition w = H_handle) ->
  (inited w = false -> forall i, view (tab w) i = None) ->
  absr w m -> map_Forall (fun _ j => in_int (j_sec j - 1) = true) m ->
  wp handle (fun _ w' => rel w' (omap (later 1) m, foldl run_job (env w) (due_at MAX_TASKS m 1)) /\
                         ticks w' = ticks w /\ inited w' = inited w) E w.
Proof.
  intros Hwt Hdisp Hload Ha Hin. unfold handle, alarm1. wp_steps.
  eapply wp_mono; [|intros ? ? H; exact H|apply (wp_for (scanned w m) E)].
  - intros [] w' [Ht Hi Hd Har Htk He Hv]. split; [|done].
    assert (Hv' : forall j, view (tab w') j = t ← view (tab w) j; v_later t).
    { intros j. rewrite Hv. case_decide as Hj; [done|].
      destruct (view (tab w) j) eqn:Ej; [|done]. by eapply view_bound in Ej. }
    split_and!; [split|..]; cbn [fst snd]; try done.
    + rewrite Hi, Hd. intros Hini. split; [by apply Hdisp|done].
    + rewrite Hi. intros Hini j. by rewrite Hv', (Hload Hini).
    + intros j. rewrite lookup_omap, (Ha j), Hv'. destruct (view (tab w) j) as [t|]; [|done].
      simpl. by rewrite jb_later.
  - intros i w' Hi Hsc. eapply wp_scan_slot; [done|done|lia|done].
  - by split.
Qed.

Lemma at_spec_tick_Some s s' : spec_tick s = Some s' ->
  map_Forall (fun _ j => in_int (j_sec j - 1) = true) s.1 /\
  s' = (omap (later 1) s.1, foldl run_job s.2 (due_at MAX_TASKS s.1 1)).
Proof. destruct s as [m e]. unfold spec_tick. case_bool_decide; intros; by simplify_eq. Qed.

Lemma at_wp_deliver s s' E w :
  rel w s -> spec_tick s = Some s' ->
  wp deliver (fun _ w' => rel w' s' /\ ticks w' = ticks w + 1 /\ inited w' = inited w) E w.
Proof.
  intros (Hwf & Ha & He) [Hin ->]%at_spec_tick_Some. unfold deliver. wp_steps.
  set (w1 := AnyTimer _ _ _ _ _ _). rewrite <-He.
  apply (wp_handle (s.1) E w1); try done; [apply Hwf| |apply Hwf].
  intros Hi. by destruct (wf_sig w Hwf Hi).
Qed.

Lemma at_wp_tick s s' E w :
  rel w s -> inited w = true -> spec_tick s = Some s' ->
  wp tick (fun _ w' => rel w' s' /\ ticks w' = ticks w + 1 /\ inited w' = true) E w.
Proof.
  intros Hr Hi Hs. destruct (wf_sig w (proj1 Hr) Hi) as [Hd Har].
  unfold tick. wp_steps. rewrite Har, decide_True, <-Hi by done. by eapply at_wp_deliver.
Qed.

Lemma at_wp_tick_n n s s' E w :
  rel w s -> inited w = true -> spec_ticks n s = Some s' ->
  wp (tick_n n) (fun _ w' => rel w' s' /\ ticks w' = ticks w + Z.of_nat n /\ inited w' = true) E w.
Proof.
  revert s w. induction n as [|n IH]; intros s w Hr Hi Hs; cbn [spec_ticks tick_n] in *.
  - wp_steps. simplify_eq. split_and!; [done|lia|done].
  - apply bind_Some in Hs as (s1 & H1 & Hs). apply wp_bind.
    eapply wp_mono; [|intros ? ? H; exact H|by eapply at_wp_tick]. intros [] w1 (Hr1 & Ht1 & Hi1).
    eapply wp_mono; [|intros ? ? H; exact H|by eapply IH]. intros [] w2 (? & ? & ?).
    split_and!; [done|lia|done].
Qed.

(** [n] ticks of the specification on the pending jobs. *)
Lemma later_0 m : omap (later 0) m = m.
Proof.
  apply map_eq. intros i. rewrite lookup_omap. destruct (m !! i) as [[n f a]|]; [|done].
  cbn [mbind option_bind]. unfold later, due_in. cbn [j_sec j_func j_arg].
  bool_cases; try lia; simpl; do 2 f_equal; lia.
Qed.

Lemma later_later n (m : gmap nat job) : 0 <= n ->
  omap (later n) (omap (later 1) m) = omap (later (n + 1)) m.
Proof.
  intros Hn. apply map_eq. intros i. rewrite !lookup_omap. destruct (m !! i) as [j|]; [|done].
  cbn [mbind option_bind]. unfold later at 2 3, due_in. bool_cases; cbn [andb mbind option_bind]; try lia; try done.
  all: unfold later, due_in; cbn [j_sec j_func j_arg]; bool_cases; cbn [andb]; try lia; try done; do 2 f_equal; lia.
Qed.

Lemma spec_ticks_jobs n s s' : spec_ticks n s = Some s' -> s'.1 = omap (later (Z.of_nat n)) s.1.
Proof.
  revert s. induction n as [|n IH]; intros s Hs; cbn [spec_ticks] in Hs.
  - simplify_eq. by rewrite later_0.
  - apply bind_Some in Hs as (s1 & [_ ->]%at_spec_tick_Some & Hs). rewrite (IH _ Hs). cbn [fst].
    rewrite later_later by lia. do 2 f_equal. lia.
Qed.

Lemma at_spec_ticks_add n k s : spec_ticks (n + k) s = s' ← spec_ticks n s; spec_ticks k s'.
Proof.
  revert s. induction n as [|n IH]; intros s; cbn [Nat.add spec_ticks mbind option_bind]; [done|].
  destruct (spec_tick s) as [s1|]; [apply IH|done].
Qed.

Lemma wait_ticks_eq late n :
  (0 < n)%nat ->
  wait_ticks late n = ((hd 0 late + 1) + wait_ticks (tl late) (n - S (hd 0 late)))%nat.
Proof.
  intros Hn. destruct n as [|n]; [lia|]. destruct late as [|k late]; [|simpl; lia].
  simpl. rewrite Nat.sub_0_r. destruct n; simpl; lia.
Qed.

(** The slot of an identifier, and whether it is empty. *)
Lemma wp_slot_rel i (Q : option nat -> anytimer -> Prop) E w s :
  rel w s -> (i < MAX_TASKS)%nat ->
  (forall p, slots (tab w) !! i = Some p -> (p = None <-> s.1 !! i = None) -> Q p w) ->
  wp (on_tab (slot_at (Z.of_nat i))) Q E w.
Proof.
  intros (Hwf & Ha & He) Hi HQ. apply wp_on. eapply wp_slot_at; [apply wf_tab, Hwf|done|].
  intros p Hp. rewrite with_tab_id. apply HQ; [done|]. rewrite (Ha i), fmap_None.
  destruct p as [l|]; [|by rewrite view_free].
  destruct (twf_slot _ _ _ i l (wf_tab w Hwf) Hp) as (t & _ & -> & _). done.
Qed.

(** Waiting for a job: every round takes the signals before the [pause] and the
    one that ends it. *)
Lemma wp_at_wait n fuel late i s s' E w :
  (n < fuel)%nat -> (i < MAX_TASKS)%nat -> rel w s ->
  (n = 0%nat /\ s.1 !! i = None \/
   (0 < n)%nat /\ exists j, s.1 !! i = Some j /\ j_sec j = Z.of_nat n) ->
  spec_ticks (wait_ticks late n) s = Some s' ->
  wp (at_wait fuel late (Z.of_nat i))
     (fun _ w' => rel w' s' /\ ticks w' = ticks w + Z.of_nat (wait_ticks late n)) E w.
Proof.
  revert n late s w. unfold at_wait.
  induction fuel as [|fuel IH]; intros n late s w Hf Hi Hr Hn Hs; [lia|].
  apply wp_iter_S, wp_bind. eapply wp_slot_rel; [done..|]. intros p Hp Hnone.
  destruct Hn as [[-> Hm]|(Hn & j & Hj & Hsec)].
  - apply Hnone in Hm as ->. replace (wait_ticks late 0) with 0%nat in * by (by destruct late). wp_steps. simplify_eq/=. split; [done|lia].
  - destruct p as [l|]; [|by rewrite (proj1 Hnone) in Hj].
    assert (Hini : inited w = true).
    { destruct Hr as (Hwf & _). destruct (twf_slot _ _ _ i l (wf_tab w Hwf) Hp) as (t & _ & Hv & _).
      by eapply at_wf_live. }
    rewrite (wait_ticks_eq late n Hn) in Hs |- *. set (k := hd 0%nat late) in *.
    rewrite !at_spec_ticks_add in Hs. apply bind_Some in Hs as (s2 & Hs2 & Hs).
    pose proof (spec_ticks_jobs (k + 1) s s2) as Hjobs. rewrite at_spec_ticks_add in Hjobs.
    specialize (Hjobs Hs2). apply bind_Some in Hs2 as (s1 & Hs1 & Hs2).
    cbn [spec_ticks] in Hs2. apply bind_Some in Hs2 as (? & Ht & ?). simplify_eq.
    apply wp_bind. eapply wp_mono; [|intros ? ? H; exact H|by eapply at_wp_tick_n].
    intros [] w1 (Hr1 & Ht1 & Hi1). unfold pause. wp_steps.
    rewrite (proj2 (wf_sig w1 (proj1 Hr1) Hi1)).
    eapply wp_mono; [|intros ? ? H; exact H|by eapply at_wp_tick].
    intros [] w2 (Hr2 & Ht2 & _). wp_steps.
    eapply wp_mono; [|intros ? ? H; exact H|apply (IH (n - S k)%nat (tl late) s2); [lia|done|done| |done]].
    + intros [] w3 [? ?]. split; [done|lia].
    + rewrite Hjobs, lookup_omap, Hj. cbn [mbind option_bind].
      unfold later, due_in. bool_cases; try lia; simpl; [left|right].
      * split; [lia|done].
      * split; [lia|]. eexists. split; [done|simpl; lia].
Qed.

Lemma wp_at_cancel i s E w r s' :
  rel w s -> spec_step (ACancel (Z.of_nat i)) s = Some (r, s') ->
  wp (at_cancel_job (Z.of_nat i)) (fun r' w' => r' = r /\ rel w' s') E w.
Proof.
  destruct s as [m e]. intros Hr. cbn [spec_step]. unfold in_table.
  destruct (Z.ltb_spec (Z.of_nat i) (Z.of_nat MAX_TASKS)); [|by rewrite andb_false_r].
  destruct (Z.leb_spec 0 (Z.of_nat i)); [simpl|lia]. rewrite Nat2Z.id. intros Hs.
  destruct Hr as (Hwf & Ha & He). cbn [fst snd] in *.
  unfold at_cancel_job, on_tab. apply wp_on, wp_bind.
  eapply wp_slot_at; [apply wf_tab, Hwf|lia|]. intros [l|] Hp.
  - destruct (twf_slot _ _ _ i l (wf_tab w Hwf) Hp) as (t & Ho & Hv & _).
    rewrite (Ha i), Hv in Hs. simplify_eq/=.
    apply wp_bind. eapply wp_free; [done|]. apply wp_bind. eapply wp_set_slot; [done|]. wp_steps.
    destruct (twf_remove MAX_TASKS pos (tab w) i l (wf_tab w Hwf) Hp) as [Hwf' Hv'].
    split; [done|]. split_and!; [split; [done|apply Hwf|]| |done].
    + intros Hi. exfalso. by rewrite (wf_load w Hwf Hi) in Hv.
    + intros j. cbn [fst with_tab tab]. rewrite Hv', lookup_delete, (Ha j).
      by repeat case_decide; try congruence.
  - rewrite (Ha i), (view_free _ i Hp) in Hs. simplify_eq/=. wp_steps. by rewrite with_tab_id.
Qed.

Lemma wp_at_add g n f a s E w r s' :
  rel w s -> spec_step (AAdd n f a) s = Some (r, s') ->
  wp (at_add_job true g n f a) (fun id w' => Some id = r /\ rel w' s') E w.
Proof.
  destruct s as [m e]. intros (Hwf & Ha & He) Hs. cbn [fst snd spec_step] in *.
  assert (exists w1, wf w1 /\ inited w1 = true /\ tab w1 = tab w /\ env w1 = env w /\
     (if inited w then mret tt else
        put (AnyTimer (tab w) true H_handle (armed w) (env w) (ticks w)) ;; alarm1) w = Ok tt w1)
    as (w1 & Hwf1 & Hini & Htab & He1 & Hrun).
  { destruct (inited w) eqn:Ei; [by exists w|]. eexists. split_and!; [|..|reflexivity]; try done.
    split; [apply Hwf|done|done]. }
  unfold at_add_job, on_tab. wp_steps. unfold wp at 1. rewrite Hrun.
  assert (Ha1 : forall i, m !! i = jb <$> view (tab w1) i) by (intros i; by rewrite (Ha i), Htab).
  apply wp_on, wp_bind. unfold getf_free_pos.
  eapply (wp_first_free _ _ m jb); [apply wf_tab, Hwf1|done|]. fold (free_id m).
  destruct (free_id m) as [i|] eqn:Ei; simplify_eq.
  2: { change (-1 <? 0) with true. wp_steps. rewrite with_tab_id. split; [done|]. split_and!; [done..|by rewrite He1]. }
  assert (Hi : (i < MAX_TASKS)%nat) by (apply find_idx_lt in Ei; by rewrite length_seq in Ei).
  destruct (Z.ltb_spec (Z.of_nat i) 0); [lia|].
  apply wp_bind. eapply wp_malloc; [apply wf_tab, Hwf1|]. intros l t -> Hwf2 Hv2 Hl.
  apply wp_bind. eapply wp_store; [apply lookup_insert_eq|]. cbn [objs slots].
  destruct (lookup_lt_is_Some_2 (slots (tab w1)) i) as [q Hq];
    [by rewrite (twf_len _ _ _ (wf_tab w1 Hwf1))|].
  apply wp_bind. eapply wp_set_slot; [done|]. wp_steps. cbn [objs slots].
  destruct (twf_add MAX_TASKS pos _ i l (Task n f a (Z.of_nat i)) Hwf2 Hi Hl eq_refl) as [Hwf3 Hv3].
  cbn [objs slots] in *.
  split; [done|]. split_and!; [split; [done|apply Hwf1|simpl; congruence]| |simpl; by rewrite He1].
  intros j. cbn [fst with_tab tab]. rewrite Hv3, Hv2. case_decide; subst; simplify_map_eq; [done|apply Ha1].
Qed.
End operations.

(** ** Sequences of calls *)

(** Every pending delay is below [b]. *)
Definition below (b : nat) (m : gmap nat job) : Prop :=
  map_Forall (fun _ j => j_sec j < Z.of_nat b) m.

(** Every delay a call asks for is below [b]. *)
Definition op_below (b : nat) (o : op) : Prop :=
  match o with AAdd n _ _ => n < Z.of_nat b | _ => True end.

Lemma below_later b n m : 0 <= n -> below b m -> below b (omap (later n) m).
Proof.
  intros Hn Hb i j. rewrite lookup_omap. intros (j0 & Hj0 & Hl)%bind_Some.
  specialize (Hb i j0 Hj0). unfold later in Hl. case_match; simplify_eq. simpl in *. lia.
Qed.

Lemma below_ticks b n s s' : below b s.1 -> spec_ticks n s = Some s' -> below b s'.1.
Proof.
  revert s. induction n as [|n IH]; intros s Hb Hs; simplify_eq/=; [done|].
  apply bind_Some in Hs as (s1 & [_ ->]%at_spec_tick_Some & Hs). eapply IH; [|done].
  by apply below_later.
Qed.

Lemma below_step b o s r s' :
  below b s.1 -> op_below b o -> spec_step o s = Some (r, s') -> below b s'.1.
Proof.
  destruct s as [m e]. intros Hb Ho. destruct o as [n f a| |id|id late]; cbn [spec_step].
  - case_match; intros; simplify_eq/=; [|done]. by apply map_Forall_insert_2.
  - intros (s1 & [_ ->]%at_spec_tick_Some & ?)%bind_Some. simplify_eq. by apply below_later.
  - repeat case_match; intros; simplify_eq/=; try done. by apply map_Forall_delete.
  - repeat case_match; try done; [|by intros; simplify_eq].
    intros (s1 & Hs & ?)%bind_Some. simplify_eq. by eapply (below_ticks b _ (m, e)).
Qed.

(** Before the library is loaded it has set no alarm. *)
Definition calm (w : anytimer) : Prop := inited w = true \/ armed w = false.

Lemma wp_safe {B} (P : anytimer -> Prop) (m : M anytimer B) (Q : B -> anytimer -> Prop) R E w :
  safe P m R -> P w -> wp m Q E w -> wp m (fun b w' => Q b w' /\ P w') E w.
Proof. intros Hs Hw Hm. specialize (Hs w Hw). unfold wp in *. destruct (m w); naive_solver. Qed.

Lemma calm_on_tab {B} (P : anytimer -> Prop) (m : M (table task) B) :
  (forall t w, P w -> P (with_tab t w)) -> safe P (on_tab m) (fun _ => True).
Proof. intros HP w Hw. unfold on_tab, on. destruct (m (tab w)); auto. Qed.

(** The handler keeps the library loaded. *)
Lemma loaded_deliver : safe (fun w => inited w = true) deliver (fun _ => True).
Proof.
  assert (Hslot : forall i, safe (fun w => inited w = true) (handle_slot i) (fun _ => True)).
  { intros i. unfold handle_slot.
    eapply safe_bind; [by apply calm_on_tab|]. intros [l|] _; [|by apply safe_ret].
    eapply safe_bind; [by apply calm_on_tab|]. intros t _.
    eapply (safe_bind _ _ _ (fun _ => True)); [intros w Hw; unfold int_; by destruct (in_int _)|].
    intros z _. eapply safe_bind; [by apply calm_on_tab|]. intros _ _.
    eapply safe_bind; [by apply calm_on_tab|]. intros t' _. case_match; [|by apply safe_ret].
    eapply safe_bind; [by apply (safe_modify _ _ (fun _ => True))|]. intros _ _.
    eapply safe_bind; [by apply calm_on_tab|]. intros _ _. by apply calm_on_tab. }
  assert (Hfor : forall n lo, safe (fun w => inited w = true) (for_ n lo handle_slot) (fun _ => True)).
  { induction n as [|n IH]; intros lo; cbn [for_]; [by apply safe_ret|].
    eapply safe_bind; [apply Hslot|]. intros _ _. apply IH. }
  unfold deliver, handle, alarm1.
  do 2 (eapply safe_bind; [by apply (safe_modify _ _ (fun _ => True))|]; intros _ _). apply Hfor.
Qed.

Lemma calm_tick : safe calm tick (fun _ => True).
Proof.
  intros w Hw. unfold tick, get, mbind, M_bind. destruct (armed w) eqn:Ha; [|done].
  destruct Hw as [Hi|]; [|congruence]. case_decide; [|by left].
  pose proof (loaded_deliver w Hi) as Hd.
  destruct (deliver w); unfold calm; naive_solver.
Qed.

Lemma calm_tick_n n : safe calm (tick_n n) (fun _ => True).
Proof.
  induction n as [|n IH]; cbn [tick_n]; [by apply safe_ret|].
  eapply safe_bind; [apply calm_tick|]. intros _ _. apply IH.
Qed.

Lemma calm_step fuel g o : safe calm (impl_step fuel g o) (fun _ => True).
Proof.
  destruct o as [n f a| |id|id late]; cbn [impl_step].
  - eapply safe_bind; [|intros; by apply safe_ret]. unfold at_add_job.
    intros w Hw. unfold get, mbind at 1, M_bind at 1.
    assert (exists w1, calm w1 /\ (if inited w then mret tt else
       put (AnyTimer (tab w) true H_handle (armed w) (env w) (ticks w)) ;; alarm1) w = Ok tt w1)
      as (w1 & Hw1 & Hrun)
      by (destruct (inited w); [by exists w|]; eexists; split; [|reflexivity]; by left).
    unfold mbind at 1, M_bind at 1. rewrite Hrun. by apply calm_on_tab.
  - eapply safe_bind; [apply calm_tick|]. intros. by apply safe_ret.
  - by apply calm_on_tab.
  - eapply (safe_bind _ _ _ (fun _ => True)); [|intros; by apply safe_ret]. unfold at_wait.
    apply (safe_iter _ _ (fun _ => True) (fun _ => True)); [|done]. intros l _.
    eapply safe_bind; [by apply calm_on_tab|]. intros [p|] _; [|by apply safe_ret].
    eapply safe_bind; [apply calm_tick_n|]. intros _ _.
    eapply (safe_bind _ _ _ (fun _ => True)); [|intros; by apply safe_ret].
    intros w Hw. unfold pause, get, mbind, M_bind. destruct (armed w); [by apply calm_tick|done].
Qed.

Lemma at_impl_step_ok fuel g o s r s' E w :
  (0 < fuel)%nat -> rel w s -> calm w -> below fuel s.1 -> spec_step o s = Some (r, s') ->
  wp (impl_step fuel g o) (fun r' w' => r' = r /\ rel w' s') E w.
Proof.
  intros Hf Hr Hcalm Hb Hs. destruct o as [n f a| |id|id late]; cbn [impl_step].
  - apply wp_bind. eapply wp_mono; [|intros ? ? H; exact H|by eapply wp_at_add].
    intros id w' [<- ?]. by wp_steps.
  - destruct s as [m e]. cbn [spec_step] in Hs. apply bind_Some in Hs as (s1 & Ht & ?). simplify_eq.
    apply wp_bind. destruct (inited w) eqn:Hi.
    + eapply wp_mono; [|intros ? ? H; exact H|by eapply at_wp_tick]. intros [] w' [? _]. by wp_steps.
    + destruct Hcalm as [|Har]; [congruence|]. unfold tick. wp_steps. rewrite Har. wp_steps.
      split; [done|]. destruct Hr as (Hwf & Ha & He). cbn [fst snd] in *.
      assert (m = ∅) as ->
        by (apply map_eq; intros i; by rewrite lookup_empty, (Ha i), (wf_load w Hwf Hi)).
      vm_compute in Ht. simplify_eq. done.
  - destruct (Z_lt_le_dec id 0).
    + destruct s. cbn [spec_step] in Hs. unfold in_table in Hs. destruct (Z.leb_spec 0 id); [lia|done].
    + rewrite <-(Z2Nat.id id) in Hs |- * by done. by eapply wp_at_cancel.
  - destruct s as [m e]. cbn [spec_step] in Hs. unfold in_table in Hs.
    destruct (Z.leb_spec 0 id), (Z.ltb_spec id (Z.of_nat MAX_TASKS)); try done. cbn [andb] in Hs.
    apply wp_bind. rewrite <-(Z2Nat.id id) at 1 by done.
    destruct (m !! Z.to_nat id) as [j|] eqn:Ej.
    + destruct (Z.ltb_spec (j_sec j) 1); [done|]. apply bind_Some in Hs as (s1 & Ht & ?). simplify_eq.
      pose proof (Hb _ _ Ej). simpl in *.
      eapply wp_mono; [|intros ? ? Hx; exact Hx|eapply (wp_at_wait (Z.to_nat (j_sec j))); [lia|lia|done| |done]].
      * intros [] w' [? _]. by wp_steps.
      * right. split; [lia|]. exists j. split; [done|lia].
    + simplify_eq.
      eapply wp_mono; [|intros ? ? Hx; exact Hx|eapply (wp_at_wait 0 _ late); [lia|lia|done|by left|by destruct late]].
      intros [] w' [? _]. by wp_steps.
Qed.

Lemma at_impl_run_ok fuel g os s rs s' E w :
  (0 < fuel)%nat -> rel w s -> calm w -> below fuel s.1 -> Forall (op_below fuel) os ->
  spec_run os s = Some (rs, s') ->
  wp (impl_run fuel g os) (fun rs' w' => rs' = rs /\ rel w' s') E w.
Proof.
  intros Hf. revert s rs w. induction os as [|o os IH]; intros s rs w Hr Hc Hb Hos Hs; simpl in *.
  - wp_steps. by simplify_eq.
  - apply Forall_cons in Hos as [Ho Hos].
    apply bind_Some in Hs as ([r s1] & Hs1 & ([rs1 s2] & Hs2 & Heq)%bind_Some). simplify_eq.
    apply wp_bind. eapply wp_mono; [|intros ? ? H; exact H|
      eapply wp_safe; [apply calm_step|exact Hc|by eapply at_impl_step_ok]].
    intros r' w1 [(-> & Hr1) Hc1]. apply wp_bind.
    eapply wp_mono; [|intros ? ? H; exact H|eapply IH; [done|done|by eapply below_step|done|done]].
    intros rs' w2 (-> & ?). by wp_steps.
Qed.

(** C4: The timer library implements its specification: from program start, for
    every sequence of calls and clock ticks the specification allows
    (identifiers within the table, no wait for a job that never runs, no delay
    counted below [INT_MIN]), with any number of signals between the tests and
    the [pause]s of a wait, and as long as memory is available, the calls return
    what the specification says (slots are reused lowest first, a full table
    answers -1, cancelling a pending job yields no defined value), no call faults
    or blocks for ever, and the table and the callbacks' environment are the
    specified ones.  [fuel] bounds the rounds of [at_wait] by the longest delay. *)
Theorem at_refines fuel g d e ops rs m e' :
  (0 < fuel)%nat -> Forall (op_below fuel) ops ->
  spec_run ops (∅, e) = Some (rs, (m, e')) ->
  wp (impl_run fuel g ops) (fun rs' w => rs' = rs /\ wf w /\ absr w m /\ env w = e')
     (fun _ _ => False) (initial d e).
Proof.
  intros Hf Ho Hs. eapply wp_mono; [|intros ? ? H; exact H|eapply (at_impl_run_ok fuel g ops (∅, e));
    [done| |by right|by apply map_Forall_empty|done|done]].
  - intros rs' w (-> & ?). done.
  - split_and!; [apply at_wf_initial|apply at_absr_initial|done].
Qed.

(** ** Deadlines *)

Lemma due_at_later k m t : 1 <= t -> due_at k (omap (later 1) m) t = due_at k m (t + 1).
Proof.
  intros Ht. unfold due_at. apply list_omap_ext, Forall_Forall2_diag, Forall_forall.
  intros i _. rewrite lookup_omap.
  destruct (m !! i) as [j|]; [|done]. simpl. unfold later, due_in.
  bool_cases; cbn [andb mbind option_bind j_sec j_func j_arg]; bool_cases; try lia; try done.
Qed.

(** [n] ticks of the specification in closed form. *)
Lemma spec_ticks_closed n m e :
  map_Forall (fun _ j => INT_MIN + Z.of_nat n <= j_sec j <= INT_MAX) m ->
  spec_ticks n (m, e) = Some (omap (later (Z.of_nat n)) m, foldl run_job e (fired n m)).
Proof.
  revert m e. induction n as [|n IH]; intros m e Hm; cbn [spec_ticks].
  - by rewrite later_0.
  - unfold spec_tick. rewrite bool_decide_true.
    2: { intros i j Hj. specialize (Hm i j Hj). apply in_int_spec. simpl in *. lia. }
    cbn [mbind option_bind]. rewrite IH.
    2: { intros i j. rewrite lookup_omap. intros (j0 & Hj0 & Hl)%bind_Some. specialize (Hm i j0 Hj0).
         unfold later in Hl. case_match; simplify_eq. unfold INT_MIN, INT_MAX in *. simpl in *. lia. }
    do 2 f_equal.
    + rewrite later_later by lia. f_equal. f_equal. lia.
    + unfold fired. cbn [seq map concat]. rewrite foldl_app. f_equal.
      rewrite <-(fmap_S_seq 1 n). change (S <$> seq 1 n) with (map S (seq 1 n)). rewrite map_map. f_equal. apply map_ext_in. intros t Ht%in_seq.
      rewrite due_at_later by lia. by replace (Z.of_nat t + 1) with (Z.of_nat (S t)) by lia.
Qed.

Lemma wp_run_ticks n lo s s' E w :
  rel w s -> spec_ticks n s = Some s' ->
  wp (for_ n lo (fun _ => deliver)) (fun _ w' => rel w' s' /\ ticks w' = ticks w + Z.of_nat n) E w.
Proof.
  revert lo s w. induction n as [|n IH]; intros lo s w Hr Hs; simplify_eq/=.
  - wp_steps. split; [done|lia].
  - apply bind_Some in Hs as (s1 & H1 & Hs).
    apply wp_bind. eapply wp_mono; [|intros ? ? H; exact H|by eapply at_wp_deliver].
    intros [] w1 (Hr1 & Ht1 & _). eapply wp_mono; [|intros ? ? H; exact H|by eapply IH].
    intros [] w2 [? ?]. split; [done|lia].
Qed.

(** C30: Jobs run exactly when they are due: from any state that holds the pending
    jobs [m], [n] ticks run the jobs whose delay is 1, then those whose delay is
    2, and so on up to [n], jobs with the same delay in the order of their
    slots, each once; the jobs left are those with a longer delay, which is [n]
    shorter, and those that were added with a delay of zero or less, which never
    run. *)
Theorem at_deadlines n m w :
  wf w -> absr w m -> map_Forall (fun _ j => INT_MIN + Z.of_nat n <= j_sec j <= INT_MAX) m ->
  wp (run_ticks n) (fun _ w' => wf w' /\ absr w' (omap (later (Z.of_nat n)) m) /\
        env w' = foldl run_job (env w) (fired n m) /\ ticks w' = ticks w + Z.of_nat n)
     (fun _ _ => False) w.
Proof.
  intros Hwf Ha Hm. eapply wp_mono; [|intros ? ? H; exact H|eapply (wp_run_ticks n 0 (m, env w));
    [done|by apply spec_ticks_closed]].
  intros [] w' [(? & ? & ?) ?]. done.
Qed.
End anytimer.

(** ** at_test.c *)

Module AtTest.

(** The only callback is [print_str], which writes its argument and a newline
    to the standard output. *)
Inductive fn := print_str.

Definition exec (f : fn) (s : string) (out : list byte) : list byte :=
  match f with print_str => out ++ bytes s ++ [x0a] end.

(** [l1], [l2] and [l3] list the signals before the [pause]s of the three waits. *)
Definition main (fuel : nat) (l1 l2 l3 : list nat) (malloc_ok : bool) (garbage : task) : M anytimer Z :=
  id1 ← at_add_job malloc_ok garbage 2 print_str "hello world2"%string;
  id2 ← at_add_job malloc_ok garbage 5 print_str "hello world5"%string;
  id3 ← at_add_job malloc_ok garbage 7 print_str "hello world7"%string;
  at_wait exec fuel l1 id1 ;;
  at_wait exec fuel l2 id2 ;;
  at_wait exec fuel l3 id3 ;;
  mret 0.

Definition garbage : task := Task 0 print_str ""%string 0.

(** [at_test] prints its three lines in the order of their delays, ends
    after exactly seven ticks with status 0, and frees every task. *)
Theorem at_test_prints d out :
  exists w, main 8 [] [] [] true garbage (initial d out) = Ok 0 w /\
    env w = ((out ++ bytes "hello world2" ++ [x0a]) ++ bytes "hello world5" ++ [x0a]) ++
            bytes "hello world7" ++ [x0a] /\
    ticks w = 7 /\ objs (tab w) = ∅.
Proof. eexists. split; [vm_compute; reflexivity|]. by vm_compute. Qed.

(** The result of [malloc] is used unchecked. *)
Example at_test_oom d out : exists w, main 8 [] [] [] false garbage (initial d out) = Fault NullDeref w.
Proof. eexists. vm_compute. reflexivity. Qed.

(** ** Witnesses *)

Definition demo_ops : list op :=
  [ATick; AAdd 3 print_str "a"%string; AAdd 1 print_str "b"%string; AAdd 3 print_str "c"%string; ATick;
   AAdd 1 print_str "d"%string; ACancel 2; ACancel 2; AWait 0 [2%nat]; AAdd 0 print_str "e"%string].

Lemma at_refines_witness :
  wp (impl_run exec 5 garbage demo_ops)
     (fun rs' w => rs' = [Some 0; Some 0; Some 1; Some 2; Some 0; Some 1; None; Some 0; Some 0; Some 0] /\
        wf w /\ absr w {[0%nat := Job 0 print_str "e"%string]} /\
        env w = bytes "b" ++ [x0a] ++ bytes "d" ++ [x0a] ++ bytes "a" ++ [x0a])
     (fun _ _ => False) (initial SIG_DFL []).
Proof.
  apply at_refines; [lia|repeat constructor; simpl; lia|]. vm_compute. reflexivity.
Defined.

(** The state after three jobs were added. *)
Definition three_jobs : anytimer (F := fn) (A := string) (Env := list byte) :=
  match impl_run exec 4 garbage (take 4 demo_ops) (initial SIG_DFL []) with
  | Ok _ w => w
  | _ => initial SIG_DFL []
  end.

Definition three_jobs_map : gmap nat (job (F := fn) (A := string)) :=
  <[0%nat := Job 3 print_str "a"%string]> (<[1%nat := Job 1 print_str "b"%string]>
    {[2%nat := Job 3 print_str "c"%string]}).

Lemma three_jobs_ok : rel three_jobs (three_jobs_map, []).
Proof.
  assert (H : wp (impl_run exec 4 garbage (take 4 demo_ops))
    (fun rs w => rs = [Some 0; Some 0; Some 1; Some 2] /\ rel w (three_jobs_map, []))
    (fun _ _ => False) (initial SIG_DFL [])).
  { eapply (at_impl_run_ok exec 4 garbage _ (∅, [])); [lia|by split_and!; [apply at_wf_initial|apply at_absr_initial|]|by right|
      by apply map_Forall_empty|repeat constructor; simpl; lia|by vm_compute]. }
  unfold three_jobs. unfold wp in H.
  destruct (impl_run exec 4 _ _ _); by destruct H.
Qed.

Lemma at_deadlines_witness :
  wp (run_ticks exec 2) (fun _ w' => wf w' /\ absr w' (omap (later (Z.of_nat 2)) three_jobs_map) /\
        env w' = foldl (run_job exec) (env three_jobs) [(print_str, "b"%string)] /\
        ticks w' = ticks three_jobs + Z.of_nat 2)
     (fun _ _ => False) three_jobs.
Proof.
  apply (at_deadlines exec 2 three_jobs_map three_jobs);
    [apply three_jobs_ok|apply three_jobs_ok|].
  unfold three_jobs_map, INT_MIN, INT_MAX.
  by do 3 (apply map_Forall_insert_2; [done|]).
Defined.
End AtTest.
