(* ===== verification/Relay.v ===== *)
(** * Relay: what src/adio/select.c, poll.c and epoll.c share

    The three programs copy files [src dst src dst ...] with the same state
    machine per pair of files ([struct pipe_st]) and differ in the call that
    waits for descriptors.  This file holds the pipe, the world they run in, the
    parts of [main] they have in common and the invariant of a pipe. *)

From S2P Require Import Prelude Prog Posix.

Definition BUF_SIZE : nat := 4096.

(** ** Data *)

Inductive pipe_state := STATE_READ | STATE_WRITE | STATE_ERR | STATE_EOF.

#[export] Instance pipe_state_eq_dec : EqDecision pipe_state.
Proof. solve_decision. Defined.

Record pipe_st := Pipe {
  src : Z; dst : Z; state : pipe_state; buf : list byte; off : Z; len : Z; err : Z }.

Definition pipe_init (p : pipe_st) (s d : Z) : pipe_st :=
  Pipe s d STATE_READ (buf p) 0 0 0.

Definition with_state (st : pipe_state) (p : pipe_st) : pipe_st :=
  Pipe (src p) (dst p) st (buf p) (off p) (len p) (err p).

(** An answer of the call that waits: an error, or the descriptors that are
    readable, writable and in an exceptional condition. *)
Inductive waitans :=
| WErr (e : positive)
| WReady (r w x : gset Z).

(** The operating system, and the answers of the waiting call.  When the list
    is used up, every descriptor is ready and none is exceptional, which is how
    regular files behave. *)
Record world := World { io : os; waits : list waitans }.

Definition with_io (o : os) (w : world) : world := World o (waits w).
Definition on_io {A} (m : M os A) : M world A := on io with_io m.

(** ** The parts of [main] the programs share *)

(** Opening the files of every pipe.  [garbage] is what the allocated array
    holds; [argv] the remaining arguments. *)
Fixpoint open_pipes (dflags : Z) (garbage : pipe_st) (argv : list string) : M world (list pipe_st) :=
  match argv with
  | s :: d :: argv' =>
      fs ← on_io (sys_open s (Z.lor O_RDONLY O_NONBLOCK));
      if fs <? 0 then exit_ 1 else
      fd ← on_io (sys_open d dflags);
      if fd <? 0 then exit_ 1 else
      ps ← open_pipes dflags garbage argv';
      mret (pipe_init garbage fs fd :: ps)
  | _ => mret []
  end.

(** How select.c and poll.c open the target files. *)
Definition DST_FLAGS : Z := Z.lor O_WRONLY (Z.lor O_CREAT (Z.lor O_NONBLOCK O_TRUNC)).

(** [ps[i].state != STATE_EOF && ps[i].state != STATE_ERR] for some [i]. *)
Definition active (p : pipe_st) : bool :=
  match state p with STATE_EOF | STATE_ERR => false | _ => true end.

Definition finished (ps : list pipe_st) : bool := forallb (fun p => negb (active p)) ps.

(** The descriptors are closed from the last pipe to the first. *)
Fixpoint close_pipes (ps : list pipe_st) : M world unit :=
  match ps with
  | [] => mret tt
  | p :: ps' =>
      close_pipes ps' ;;
      _ ← on_io (sys_close (dst p));
      _ ← on_io (sys_close (src p));
      mret tt
  end.

(** [read(p->src, p->buf, BUF_SIZE)] *)
Definition read_pipe (p : pipe_st) : M world (Z * pipe_st) :=
  '(sz, b) ← on_io (sys_read (src p) (buf p) BUF_SIZE);
  mret (sz, Pipe (src p) (dst p) (state p) b (off p) (len p) (err p)).

(** [write(p->dst, p->buf, p->len)]: the length is converted to [size_t], so a
    negative one asks for more than the buffer. *)
Definition write_pipe (p : pipe_st) : M world Z :=
  if len p <? 0 then fail OutOfBounds else
  data ← slice (buf p) 0 (Z.to_nat (len p));
  on_io (sys_write (dst p) data).

(** ** The invariant of a pipe *)

(** What never changes: the paths, the content to copy, and where the kernel
    keeps the two descriptions. *)
Record plan := Plan {
  p_src : string; p_dst : string; p_data : list byte;
  p_sfd : nat; p_dfd : nat; p_si : nat; p_di : nat }.

(** Descriptors and descriptions of the plan are those of the process, the
    source is read up to [ks] and [kd] bytes of it have reached the target. *)
Record placed (pl : plan) (ks kd : nat) (w : os) : Prop := {
  pl_sfd : fdt w !! p_sfd pl = Some (p_si pl);
  pl_dfd : fdt w !! p_dfd pl = Some (p_di pl);
  pl_src : ofds w !! p_si pl = Some (Ofd (p_src pl) ks true false);
  pl_dst : ofds w !! p_di pl = Some (Ofd (p_dst pl) kd false true);
  pl_sfs : fs w !! p_src pl = Some (p_data pl);
  pl_dfs : fs w !! p_dst pl = Some (take kd (p_data pl));
  pl_le : (kd <= ks <= length (p_data pl))%nat }.

(** The state of a pipe that has copied [k] bytes. *)
Definition pipe_at (pl : plan) (k : nat) (p : pipe_st) (w : os) : Prop :=
  src p = Z.of_nat (p_sfd pl) /\ dst p = Z.of_nat (p_dfd pl) /\ length (buf p) = BUF_SIZE /\
  match state p with
  | STATE_READ => placed pl k k w
  | STATE_WRITE => exists n, (0 < n)%nat /\ len p = Z.of_nat n /\ off p = 0 /\
                     take n (buf p) = take n (drop k (p_data pl)) /\ placed pl (k + n) k w
  | STATE_EOF => k = length (p_data pl) /\ placed pl k k w
  | STATE_ERR => exists ks, placed pl ks k w
  end.

(** How much a pipe still has to do. *)
Definition remaining (pl : plan) (k : nat) (p : pipe_st) : nat :=
  match state p with
  | STATE_READ => 2 * (length (p_data pl) - k) + 1
  | STATE_WRITE => 2 * (length (p_data pl) - k)
  | _ => 0
  end.

(** A change of the system that touches only what belongs to some plans. *)
Record only (pls : list plan) (w w' : os) : Prop := {
  on_fdt : fdt w' = fdt w;
  on_orc : orc w' = orc w;
  on_ofds : forall i, Forall (fun pl => i <> p_si pl /\ i <> p_di pl) pls -> ofds w' !! i = ofds w !! i;
  on_fs : forall path, Forall (fun pl => path <> p_dst pl) pls -> fs w' !! path = fs w !! path }.

(** Changing what belongs to [a] leaves [b] alone. *)
Definition apart (b a : plan) : Prop :=
  p_dst b <> p_dst a /\ p_src b <> p_dst a /\
  (p_si b <> p_si a /\ p_si b <> p_di a) /\ (p_di b <> p_si a /\ p_di b <> p_di a).

Fixpoint all_apart (pls : list plan) : Prop :=
  match pls with
  | [] => True
  | pl :: pls' => Forall (apart pl) pls' /\ Forall (fun b => apart b pl) pls' /\ all_apart pls'
  end.

(** All pipes are in order, with [R] the work that is left. *)
Fixpoint all_at (pls : list plan) (ps : list pipe_st) (R : nat) (w : os) : Prop :=
  match pls, ps with
  | [], [] => R = 0%nat
  | pl :: pls', p :: ps' =>
      exists k R', pipe_at pl k p w /\ all_at pls' ps' R' w /\ R = (remaining pl k p + R')%nat
  | _, _ => False
  end.

(** ** Framing *)

Section framing.
Implicit Types (w : os) (pl : plan) (pls : list plan) (p : pipe_st) (ps : list pipe_st).

Lemma only_refl pls w : only pls w w.
Proof. by split. Qed.

Lemma only_cons pl pls w w1 w2 : only [pl] w w1 -> only pls w1 w2 -> only (pl :: pls) w w2.
Proof.
  intros [F1 O1 D1 S1] [F2 O2 D2 S2]. split; [congruence|congruence| |].
  - intros i [? ?]%Forall_cons. rewrite D2 by done. apply D1. by apply Forall_singleton.
  - intros path [? ?]%Forall_cons. rewrite S2 by done. apply S1. by apply Forall_singleton.
Qed.

Lemma only_trans pls w w1 w2 : only pls w w1 -> only pls w1 w2 -> only pls w w2.
Proof.
  intros [F1 O1 D1 S1] [F2 O2 D2 S2]. split; [congruence|congruence| |].
  - intros i ?. by rewrite D2, D1.
  - intros path ?. by rewrite S2, S1.
Qed.

Lemma only_nil pls w w1 w2 : only [] w w1 -> only pls w1 w2 -> only pls w w2.
Proof.
  intros [F1 O1 D1 S1] [F2 O2 D2 S2]. split; [congruence|congruence| |].
  - intros i ?. by rewrite D2, D1.
  - intros path ?. by rewrite S2, S1.
Qed.

Lemma placed_only pl pls ks kd w w' :
  placed pl ks kd w -> only pls w w' -> Forall (apart pl) pls -> placed pl ks kd w'.
Proof.
  intros [] [] Hap. split; try done; try congruence.
  - rewrite on_ofds0; [done|]. eapply Forall_impl; [done|]. by intros a (? & ? & ? & ?).
  - rewrite on_ofds0; [done|]. eapply Forall_impl; [done|]. by intros a (? & ? & ? & ?).
  - rewrite on_fs0; [done|]. eapply Forall_impl; [done|]. by intros a (? & ? & ? & ?).
  - rewrite on_fs0; [done|]. eapply Forall_impl; [done|]. by intros a (? & ? & ? & ?).
Qed.

Lemma pipe_at_only pl pls k p w w' :
  pipe_at pl k p w -> only pls w w' -> Forall (apart pl) pls -> pipe_at pl k p w'.
Proof.
  intros (? & ? & ? & Hst) Ho Hap. split_and!; [done..|]. destruct (state p).
  - by eapply placed_only.
  - destruct Hst as (n & ? & ? & ? & ? & ?). exists n. split_and!; [done..|]. by eapply placed_only.
  - destruct Hst as (ks & ?). exists ks. by eapply placed_only.
  - destruct Hst as [? ?]. split; [done|]. by eapply placed_only.
Qed.

Lemma all_at_only pls qls ps R w w' :
  all_at pls ps R w -> only qls w w' -> Forall (fun pl => Forall (apart pl) qls) pls ->
  all_at pls ps R w'.
Proof.
  revert ps R. induction pls as [|pl pls IH]; intros [|p ps] R; simpl; try done.
  intros (k & R' & ? & ? & ?) Ho [? ?]%Forall_cons. exists k, R'.
  split_and!; [by eapply pipe_at_only|by apply IH|done].
Qed.

(** Reading a pipe: the next bytes of the source, none only at its end. *)
Lemma wp_read_pipe pl k p (Q : Z * pipe_st -> world -> Prop) E (w : world) :
  pipe_at pl k p (io w) -> state p = STATE_READ -> orc (io w) = [] ->
  (forall n b (w' : world), only [pl] (io w) (io w') -> waits w' = waits w -> placed pl (k + n) k (io w') ->
     length b = BUF_SIZE -> take n b = take n (drop k (p_data pl)) ->
     (n = 0%nat -> k = length (p_data pl)) ->
     Q (Z.of_nat n, Pipe (src p) (dst p) (state p) b (off p) (len p) (err p)) w') ->
  wp (read_pipe p) Q E w.
Proof.
  intros (Hs & Hd & Hb & Hst) Hstate Horc HQ. rewrite Hstate in Hst.
  destruct Hst as [Hsfd Hdfd Hsrc Hdst Hsfs Hdfs Hle]. unfold read_pipe, on_io.
  apply wp_bind, wp_on. rewrite Hs. eapply wp_read; [done|done|done|by rewrite Hb| |].
  { intros e o He. by rewrite Horc in He. }
  cbn [of_path of_off]. rewrite Hsfs. cbn [default from_option id]. intros n o Ho Hn Hz _. wp_steps.
  rewrite length_drop in Hn. rewrite Horc in Ho. apply suffix_nil_inv in Ho as ->.
  assert (Hne : p_si pl <> p_di pl) by congruence.
  rewrite <-Hs. apply HQ.
  - split; try done. simpl. intros i [[Hi _] _]%Forall_cons. by apply list_lookup_insert_ne.
  - done.
  - split; simpl; try done; [|rewrite list_lookup_insert_ne; done|lia].
    apply list_lookup_insert_eq. by eapply lookup_lt_Some.
  - rewrite length_app, length_take, !length_drop. lia.
  - rewrite take_app_le, firstn_firstn, Nat.min_id; [done|]. rewrite length_take, length_drop. lia.
  - intros ->. destruct (Hz eq_refl) as [?|Hnil]; [done|]. apply (f_equal length) in Hnil.
    rewrite length_drop in Hnil. simpl in Hnil. lia.
Qed.

(** Writing a pipe: everything that was read. *)
Lemma wp_write_pipe pl k n p (Q : Z -> world -> Prop) E (w : world) :
  dst p = Z.of_nat (p_dfd pl) -> len p = Z.of_nat n -> (n <= length (buf p))%nat ->
  take n (buf p) = take n (drop k (p_data pl)) ->
  placed pl (k + n) k (io w) -> p_src pl <> p_dst pl -> orc (io w) = [] ->
  (forall (w' : world), only [pl] (io w) (io w') -> waits w' = waits w -> placed pl (k + n) (k + n) (io w') ->
     Q (Z.of_nat n) w') ->
  wp (write_pipe p) Q E w.
Proof.
  intros Hd Hlen Hb Hdata [Hsfd Hdfd Hsrc Hdst Hsfs Hdfs Hle] Hpath Horc HQ.
  unfold write_pipe, on_io. rewrite Hlen. destruct (Z.ltb_spec (Z.of_nat n) 0); [lia|].
  rewrite Nat2Z.id. apply wp_bind, wp_slice; [lia|]. rewrite drop_0, Hdata, Hd.
  assert (Hl : length (take n (drop k (p_data pl))) = n) by (rewrite length_take, length_drop; lia).
  apply wp_on. eapply wp_write; [done|done|done| |].
  { intros e o He. by rewrite Horc in He. }
  cbn [of_path of_off]. rewrite Hdfs. cbn [default from_option id]. intros m o Ho Hm Hpos Hfull.
  rewrite Horc in Ho. apply suffix_nil_inv in Ho as ->.
  rewrite Hfull by (by rewrite Horc). rewrite Hl. rewrite (firstn_all2 (take n _)) by lia.
  assert (Hne : p_si pl <> p_di pl) by congruence.
  replace (splice _ _ _) with (take (k + n) (p_data pl)).
  2: { replace k with (length (take k (p_data pl))) at 3 by (rewrite length_take; lia).
       rewrite splice_end. symmetry. apply take_take_drop. }
  apply HQ.
  - split; simpl; try done.
    + intros i [[_ Hi] _]%Forall_cons. by apply list_lookup_insert_ne.
    + intros path [Hp _]%Forall_cons. by apply lookup_insert_ne.
  - done.
  - split; simpl; try done; try lia.
    + by rewrite list_lookup_insert_ne.
    + apply list_lookup_insert_eq. by eapply lookup_lt_Some.
    + by rewrite lookup_insert_ne.
    + by rewrite lookup_insert_eq.
Qed.
End framing.

(** ** Opening the files *)

Record job := Job { j_src : string; j_dst : string; j_data : list byte }.

Definition job_of (pl : plan) : job := Job (p_src pl) (p_dst pl) (p_data pl).

(** The arguments that ask for some jobs. *)
Definition argv_of (js : list job) : list string := concat (map (fun j => [j_src j; j_dst j]) js).

Lemma argv_of_length js : length (argv_of js) = (2 * length js)%nat.
Proof. unfold argv_of. induction js as [|j js IH]; simpl in *; lia. Qed.

(** The sources exist, and no target is the source or the target of another job. *)
Definition jobs_ok (js : list job) (w : os) : Prop :=
  Forall (fun j => fs w !! j_src j = Some (j_data j)) js /\ NoDup (map j_dst js) /\
  forall d, d ∈ map j_dst js -> d ∉ map j_src js.

(** All the work of some jobs. *)
Definition job_work (js : list job) : nat := sum_list (map (fun j => 2 * length (j_data j) + 1)%nat js).

Section opening.
Context (garbage : pipe_st) (Hgarbage : length (buf garbage) = BUF_SIZE).

(** What the process gained by opening the files of [js]. *)
Record opened_all (js : list job) (pls : list plan) (w w' : os) : Prop := {
  oa_jobs : map job_of pls = js;
  oa_apart : all_apart pls;
  oa_orc : orc w' = orc w;
  oa_fds : Forall (fun pl => p_sfd pl < size (fdt w) + 2 * length js /\
                             p_dfd pl < size (fdt w) + 2 * length js)%nat pls;
  oa_new : Forall (fun pl => length (ofds w) <= p_si pl /\ length (ofds w) <= p_di pl)%nat pls;
  oa_ofds : ofds w `prefix_of` ofds w';
  oa_fdt : fdt w ⊆ fdt w';
  oa_fs : forall path, path ∉ map j_dst js -> fs w' !! path = fs w !! path }.

(** The two files of one pipe. *)
Lemma wp_open_pair s d c (Q : list pipe_st -> world -> Prop) E argv (w : world) :
  orc (io w) = [] -> fs (io w) !! s = Some c -> s <> d ->
  (forall pl (w' : os), job_of pl = Job s d c ->
     (p_sfd pl <= size (fdt (io w)))%nat -> (p_dfd pl <= size (fdt (io w)) + 1)%nat ->
     p_si pl = length (ofds (io w)) -> p_di pl = S (length (ofds (io w))) ->
     length (ofds w') = (length (ofds (io w)) + 2)%nat -> ofds (io w) `prefix_of` ofds w' ->
     fdt (io w) ⊆ fdt w' -> size (fdt w') = (size (fdt (io w)) + 2)%nat -> orc w' = [] ->
     (forall path, path <> d -> fs w' !! path = fs (io w) !! path) -> placed pl 0 0 w' ->
     wp (ps ← open_pipes DST_FLAGS garbage argv;
         mret (pipe_init garbage (Z.of_nat (p_sfd pl)) (Z.of_nat (p_dfd pl)) :: ps)) Q E (with_io w' w)) ->
  wp (open_pipes DST_FLAGS garbage (s :: d :: argv)) Q E w.
Proof.
  intros Horc Hs Hsd HQ. cbn [open_pipes]. unfold on_io.
  apply wp_bind, wp_on, wp_open; [by rewrite Horc|intros; congruence|].
  intros o f1 Ho Hf1 E1. rewrite Horc in Ho. apply suffix_nil_inv in Ho as ->.
  destruct (Z.ltb_spec (Z.of_nat f1) 0); [lia|].
  apply wp_bind, wp_on, wp_open; [done|done|].
  intros o f2 Ho Hf2 E2. apply suffix_nil_inv in Ho as ->. destruct (Z.ltb_spec (Z.of_nat f2) 0); [lia|].
  cbn [io with_io opened fdt ofds with_orc] in Hf2, E2.
  assert (f1 <> f2) by (intros ->; by rewrite lookup_insert_eq in Hf2).
  rewrite lookup_insert_ne in Hf2 by done.
  assert (L1 := lowest_free_le (fdt (io w))). rewrite <-E1 in L1.
  assert (L2 := lowest_free_le (<[f1 := length (ofds (io w))]> (fdt (io w)))).
  rewrite <-E2, map_size_insert_None in L2 by done.
  apply (HQ (Plan s d c f1 f2 (length (ofds (io w))) (S (length (ofds (io w))))));
    cbn [p_sfd p_dfd p_si p_di io with_io opened fdt ofds fs orc with_orc]; try done; try lia.
  - rewrite !length_app. simpl. lia.
  - rewrite <-app_assoc. by apply prefix_app_r.
  - rewrite length_app, Nat.add_1_r. etrans; [by apply (insert_subseteq _ f1 (length (ofds (io w))))|].
    apply insert_subseteq. by rewrite lookup_insert_ne.
  - rewrite !map_size_insert_None; [lia|done|]. by rewrite lookup_insert_ne.
  - intros path Hp. rewrite lookup_insert_ne by done. change (has_flag (Z.lor O_RDONLY O_NONBLOCK) O_TRUNC) with false.
    rewrite Hs. simpl. destruct (decide (path = s)) as [->|]; simplify_map_eq; done.
  - assert (Hlen : length (ofds (io w) ++ [Ofd s 0 true false]) = S (length (ofds (io w))))
      by (rewrite length_app; simpl; lia).
    split; cbn [p_sfd p_dfd p_si p_di p_src p_dst p_data opened with_orc fdt ofds fs]; try (simpl; lia).
    + rewrite lookup_insert_ne by done. apply lookup_insert_eq.
    + rewrite lookup_insert_eq. f_equal. apply Hlen.
    + rewrite lookup_app_l by (rewrite length_app; simpl; lia). by rewrite lookup_app_r, Nat.sub_diag.
    + rewrite lookup_app_r by (by rewrite length_app; simpl; lia). rewrite length_app. simpl.
      by replace (S _ - _)%nat with 0%nat by lia.
    + rewrite lookup_insert_ne by done. by rewrite Hs, lookup_insert_eq.
    + by rewrite lookup_insert_eq.
Qed.

(** What later openings do not touch. *)
Lemma placed_opened js pls pl ks kd w w' :
  placed pl ks kd w -> opened_all js pls w w' -> p_src pl ∉ map j_dst js -> p_dst pl ∉ map j_dst js ->
  placed pl ks kd w'.
Proof.
  intros [] [] Hs Hd. split; try done.
  - by eapply lookup_weaken.
  - by eapply lookup_weaken.
  - by eapply prefix_lookup_Some.
  - by eapply prefix_lookup_Some.
  - by rewrite oa_fs0.
  - by rewrite oa_fs0.
Qed.

(** The first pipe and the later ones have nothing in common. *)
Lemma apart_new pl js pls w w' :
  opened_all js pls w w' -> (p_si pl < length (ofds w))%nat -> (p_di pl < length (ofds w))%nat ->
  p_src pl ∉ map j_dst js -> p_dst pl ∉ map j_dst js -> p_dst pl ∉ map j_src js ->
  Forall (apart pl) pls /\ Forall (fun b => apart b pl) pls.
Proof.
  intros [Hj _ _ _ Hnew _ _ _] Hsi Hdi H1 H2 H3.
  assert (Hin : forall b, b ∈ pls -> p_dst b ∈ map j_dst js /\ p_src b ∈ map j_src js).
  { intros b Hb. rewrite <-Hj, !map_map. split; apply list_elem_of_fmap; by exists b. }
  split; apply Forall_forall; intros b Hb; destruct (Hin b Hb) as [Hbd Hbs];
    eapply Forall_forall in Hnew; try done; unfold apart; destruct Hnew; split_and!; try lia;
    intros Heq; by rewrite Heq in *.
Qed.

Lemma wp_open_pipes js E (w : world) :
  orc (io w) = [] -> jobs_ok js (io w) ->
  wp (open_pipes DST_FLAGS garbage (argv_of js))
     (fun ps w' => waits w' = waits w /\ exists pls,
        opened_all js pls (io w) (io w') /\ all_at pls ps (job_work js) (io w') /\
        Forall (fun p => state p = STATE_READ) ps) E w.
Proof.
  revert w. induction js as [|[s d c] js IH]; intros w Horc (Hsrc & Hnd & Hdisj).
  { cbn [argv_of map concat open_pipes]. wp_steps. split; [done|]. exists []. split; [|done].
    by split. }
  cbn [map] in Hnd. apply NoDup_cons in Hnd as [Hd Hnd]. apply Forall_cons in Hsrc as [Hs Hsrc].
  cbn [j_src j_dst j_data] in *.
  assert (Hsd : forall x, x = d \/ x ∈ map j_dst js -> x <> s /\ x ∉ map j_src js).
  { intros x Hx. cbn [map j_src j_dst] in Hdisj. specialize (Hdisj x).
    rewrite !elem_of_cons in Hdisj. tauto. }
  change (argv_of (Job s d c :: js)) with (s :: d :: argv_of js).
  eapply wp_open_pair; [done|done|by intros <-; destruct (Hsd s (or_introl eq_refl))|].
  intros pl w' Hjob Hf1 Hf2 Hsi Hdi Hlen Hpre Hfdt Hsz Horc' Hfs Hpl.
  injection Hjob as Hps Hpd Hpc.
  apply wp_bind. eapply wp_mono; [|intros ? ? H; exact H|apply (IH (with_io w' w)); [done|]].
  2: { split_and!; [|done|].
       - apply Forall_forall. intros j Hj. cbn [io with_io]. rewrite Hfs.
         + by eapply Forall_forall in Hsrc.
         + intros Heq. apply (Hsd d (or_introl eq_refl)). rewrite <-Heq.
           apply list_elem_of_fmap. by exists j.
       - intros x Hx. apply Hsd. by right. }
  intros ps w2 (Hw2 & pls & Hoa & Hat & Hst). cbn [io with_io] in *. wp_steps. split; [done|].
  destruct (apart_new pl js pls w' (io w2) Hoa) as [Ha1 Ha2]; rewrite ?Hps, ?Hpd; try done; try lia.
  { intros Hin. by destruct (Hsd s (or_intror Hin)). }
  { by apply Hsd; left. }
  exists (pl :: pls). split_and!; [| |by constructor].
  - destruct Hoa as [Hoj Hoap Hoo Hof Hon Hop Hofd Hofs]. split; try (etrans; done).
    + cbn [map]. unfold job_of at 1. by rewrite Hps, Hpd, Hpc, Hoj.
    + done.
    + congruence.
    + constructor; [simpl; lia|]. eapply Forall_impl; [exact Hof|]. simpl. lia.
    + constructor; [lia|]. eapply Forall_impl; [exact Hon|]. simpl. lia.
    + intros path. cbn [map j_dst]. intros [? ?]%not_elem_of_cons. by rewrite Hofs, Hfs.
  - exists 0%nat, (job_work js). split_and!; [|done|].
    + split_and!; [done|done|done|]. cbn [state pipe_init].
      eapply placed_opened; [done|done|rewrite Hps|by rewrite Hpd].
      intros Hin. by destruct (Hsd s (or_intror Hin)).
    + unfold remaining, job_work. cbn [state pipe_init map j_data]. rewrite Hpc.
      simpl. lia.
Qed.
End opening.

(** ** Consequences of the invariant *)

Lemma all_at_length pls ps R w : all_at pls ps R w -> length ps = length pls.
Proof.
  revert ps R. induction pls as [|pl pls IH]; intros [|p ps] R; try done.
  intros (k & R' & _ & Hps & _). simpl. by rewrite (IH ps R').
Qed.

Lemma all_at_work_le pls ps R w : all_at pls ps R w -> (R <= job_work (map job_of pls))%nat.
Proof.
  revert ps R. induction pls as [|pl pls IH]; intros [|p ps] R; try done; [by intros ->|].
  intros (k & R' & _ & Hps & ->). specialize (IH ps R' Hps). unfold job_work, remaining in *. simpl in *.
  destruct (state p); lia.
Qed.

(** While all the work is still to be done, the targets are empty. *)
Lemma all_at_fresh pls ps w :
  all_at pls ps (job_work (map job_of pls)) w -> Forall (fun p => state p = STATE_READ) ps ->
  Forall (fun j => fs w !! j_dst j = Some []) (map job_of pls).
Proof.
  revert ps. induction pls as [|pl pls IH]; intros [|p ps] Hat Hst; try done.
  apply Forall_cons in Hst as [Hs Hst]. destruct Hat as (k & R' & (_ & _ & _ & Hp) & Hps & HR).
  rewrite Hs in Hp. destruct Hp as [_ _ _ _ _ Hdfs Hle].
  pose proof (all_at_work_le _ _ _ _ Hps) as Hb.
  assert (R' = job_work (map job_of pls) /\ (length (p_data pl) - k = length (p_data pl))%nat) as [-> Hk].
  { unfold remaining, job_work in *. rewrite Hs in HR. simpl in *. lia. }
  constructor; [|by eapply IH]. simpl. rewrite Hdfs. f_equal. apply nil_length_inv.
  rewrite length_take. lia.
Qed.
