(* ===== verification/Select.v ===== *)
(** * Select: the file copier of src/adio/select.c *)

From S2P Require Import Prelude Prog Posix Relay.

Definition FD_SETSIZE : Z := 1024.

(** ** [select] *)

(** [FD_SET(fd, s)] writes bit [fd] of a bitmap of [FD_SETSIZE] bits. *)
Definition FD_SET (fd : Z) (s : gset Z) : M world (gset Z) :=
  if (0 <=? fd) && (fd <? FD_SETSIZE) then mret ({[fd]} ∪ s) else fail OutOfBounds.

Definition FD_ISSET (fd : Z) (s : gset Z) : bool := bool_decide (fd ∈ s).

Record fd_sets := Sets { reads : gset Z; writes : gset Z; excepts : gset Z }.

(** The descriptors of a set that [select(nfds, ...)] looks at. *)
Definition seen (nfds : Z) (s : gset Z) : gset Z := filter (fun fd => fd < nfds) s.

(** [select(nfds, &reads, &writes, &excepts, NULL)]: the result is negative on
    an error, which leaves the sets alone; otherwise the sets hold the requested
    descriptors that are ready.  It blocks for ever when it is asked to wait for
    nothing. *)
Definition sys_select (nfds : Z) (s : fd_sets) : M world (Z * fd_sets) :=
  let r := seen nfds (reads s) in
  let w := seen nfds (writes s) in
  let x := seen nfds (excepts s) in
  if decide (r ∪ w ∪ x = ∅) then (fun wd => OutOfFuel wd) else
  wd ← get;
  match waits wd with
  | [] => mret (Z.of_nat (size r + size w), Sets r w ∅)
  | WErr e :: l =>
      put (World (with_errno (Zpos e) (io wd)) l) ;; mret (-1, s)
  | WReady ar aw ax :: l =>
      put (World (io wd) l) ;;
      let s' := Sets (r ∩ ar) (w ∩ aw) (x ∩ ax) in
      mret (Z.of_nat (size (reads s') + size (writes s') + size (excepts s')), s')
  end.

(** ** The program *)

(** The loop that fills the sets and computes [nfds]. *)
Fixpoint register (ps : list pipe_st) (nfds : Z) (s : fd_sets) : M world (Z * fd_sets) :=
  match ps with
  | [] => mret (nfds, s)
  | p :: ps' =>
      let nfds := if nfds <? src p then src p else nfds in
      let nfds := if nfds <? dst p then dst p else nfds in
      s ← (if decide (state p = STATE_READ) then
             r ← FD_SET (src p) (reads s);
             x ← FD_SET (src p) (excepts s);
             mret (Sets r (writes s) x)
           else mret s);
      s ← (if decide (state p = STATE_WRITE) then
             w ← FD_SET (dst p) (writes s);
             x ← FD_SET (dst p) (excepts s);
             mret (Sets (reads s) w x)
           else mret s);
      register ps' nfds s
  end.

(** The loop around [select]: [inl] is the error the function returns. *)
Definition wait_ready (fuel : nat) (nfds : Z) (s : fd_sets) : M world (Z + fd_sets) :=
  iter fuel (fun s : fd_sets =>
    '(fds, s') ← sys_select (nfds + 1) s;
    if fds <? 0 then
      w ← get;
      if errno (io w) =? EINTR then mret (inl s') else mret (inr (inl (- errno (io w))))
    else mret (inr (inr s'))) s.

(** One pipe after [select]. *)
Definition push_one (s : fd_sets) (p : pipe_st) : M world pipe_st :=
  match state p with
  | STATE_READ =>
      if FD_ISSET (src p) (excepts s) then mret (with_state STATE_ERR p) else
      if negb (FD_ISSET (src p) (reads s)) then mret p else
      '(sz, p) ← read_pipe p;
      if sz =? 0 then mret (with_state STATE_EOF p) else
      mret (Pipe (src p) (dst p) STATE_WRITE (buf p) 0 sz (err p))
  | STATE_WRITE =>
      if FD_ISSET (dst p) (excepts s) then mret (with_state STATE_ERR p) else
      if negb (FD_ISSET (dst p) (writes s)) then mret p else
      sz ← write_pipe p;
      let p := Pipe (src p) (dst p) (state p) (buf p) (off p + sz) (len p) (err p) in
      if off p =? len p then mret (with_state STATE_READ p) else mret p
  | _ => mret p
  end.

Definition pipe_push (fuel : nat) (ps : list pipe_st) : M world (Z * list pipe_st) :=
  '(nfds, s) ← register ps 0 (Sets ∅ ∅ ∅);
  r ← wait_ready fuel nfds s;
  match r with
  | inl e => mret (e, ps)
  | inr s => ps' ← mapM (push_one s) ps; mret (0, ps')
  end.

(** One round of the copying loop, and the loop. *)
Definition copy_round (fuel : nat) (ps : list pipe_st) : M world (list pipe_st + list pipe_st) :=
  '(e, ps) ← pipe_push fuel ps;
  if negb (e =? 0) then exit_ 1 else
  if finished ps then mret (inr ps) else mret (inl ps).

Definition copy_loop (fuel : nat) (ps : list pipe_st) : M world (list pipe_st) :=
  iter fuel (copy_round fuel) ps.

Definition main (fuel : nat) (malloc_ok : bool) (garbage : pipe_st) (argv : list string) : M world Z :=
  let argc := Z.of_nat (length argv) in
  if (argc <? 3) || negb ((argc - 1) mod 2 =? 0) then exit_ 1 else
  if negb malloc_ok then exit_ 1 else
  ps ← open_pipes DST_FLAGS garbage (tail argv);
  ps ← copy_loop fuel ps;
  close_pipes ps ;;
  exit_ 0.

(** ** Proofs *)


(** [select] found what the pipe waits for. *)
Definition ready (s : fd_sets) (p : pipe_st) : Prop :=
  match state p with
  | STATE_READ => src p ∈ reads s
  | STATE_WRITE => dst p ∈ writes s
  | _ => True
  end.

(** The descriptor of an active pipe fits into the sets. *)
Definition fits (p : pipe_st) : Prop := 0 <= src p < FD_SETSIZE /\ 0 <= dst p < FD_SETSIZE.

(** An answer that reports nothing exceptional. *)
Definition no_except (a : waitans) : Prop :=
  match a with WErr _ => True | WReady _ _ x => x = ∅ end.

Section proofs.
Implicit Types (w : world) (ps : list pipe_st) (pls : list plan).

Lemma wp_FD_SET fd s (Q : gset Z -> world -> Prop) E w :
  0 <= fd < FD_SETSIZE -> Q ({[fd]} ∪ s) w -> wp (FD_SET fd s) Q E w.
Proof.
  intros ? ?. unfold FD_SET. destruct (Z.leb_spec 0 fd), (Z.ltb_spec fd FD_SETSIZE); try lia.
  by apply wp_ret.
Qed.

(** The sets of the first loop hold what every pipe waits for, and [nfds] is not
    below any descriptor. *)
Lemma wp_register ps n s E w :
  Forall fits ps ->
  wp (register ps n s) (fun '(n', s') w' => w' = w /\ n <= n' /\
        reads s ⊆ reads s' /\ writes s ⊆ writes s' /\
        Forall (fun p => ready s' p /\ src p <= n' /\ dst p <= n') ps) E w.
Proof.
  revert n s. induction ps as [|p ps IH]; intros n s Hfit; cbn [register]; [by wp_steps|].
  apply Forall_cons in Hfit as [[Hs Hd] Hfit]. cbv zeta.
  set (n1 := if (if n <? src p then src p else n) <? dst p then dst p else _).
  assert (Hn1 : n <= n1 /\ src p <= n1 /\ dst p <= n1) by (unfold n1; destruct (Z.ltb_spec n (src p)), (Z.ltb_spec (if n <? src p then src p else n) (dst p)); bool_cases; lia).
  assert (Hreg : forall s1, reads s ⊆ reads s1 -> writes s ⊆ writes s1 -> ready s1 p ->
    wp (register ps n1 s1) (fun '(n', s') w' => w' = w /\ n <= n' /\
        reads s ⊆ reads s' /\ writes s ⊆ writes s' /\
        Forall (fun p => ready s' p /\ src p <= n' /\ dst p <= n') (p :: ps)) E w).
  { intros s1 H1 H2 H3. eapply wp_mono; [|intros ? ? H; exact H|by apply (IH n1 s1)].
    intros [n2 s2] w' (-> & ? & ? & ? & ?). split_and!; [done|lia|set_solver|set_solver|].
    constructor; [|done]. split_and!; [|lia|lia]. unfold ready in *. destruct (state p); set_solver. }
  destruct (state p) eqn:Est; cbn [decide]; wp_steps.
  - rewrite decide_True by done. apply wp_bind, wp_FD_SET; [done|]. apply wp_bind, wp_FD_SET; [done|].
    wp_steps. rewrite decide_False by done. wp_steps.
    apply Hreg; cbn [reads writes]; [set_solver|done|]. unfold ready. rewrite Est. set_solver.
  - rewrite decide_False by done. wp_steps. rewrite decide_True by done.
    apply wp_bind, wp_FD_SET; [done|]. apply wp_bind, wp_FD_SET; [done|]. wp_steps.
    apply Hreg; cbn [reads writes]; [done|set_solver|]. unfold ready. rewrite Est. set_solver.
  - rewrite decide_False by done. wp_steps. rewrite decide_False by done. wp_steps.
    apply Hreg; [done|done|]. unfold ready. by rewrite Est.
  - rewrite decide_False by done. wp_steps. rewrite decide_False by done. wp_steps.
    apply Hreg; [done|done|]. unfold ready. by rewrite Est.
Qed.

(** What [select] answered: an error other than an interruption, or sets.  As
    long as its behaviour is free an answer is used up; then everything that was
    asked for is ready. *)
Lemma wp_wait_ready fuel nfds s fd E w :
  fd ∈ reads s ∪ writes s -> fd <= nfds -> (length (waits w) < fuel)%nat ->
  wp (wait_ready fuel nfds s) (fun r w' =>
        only [] (io w) (io w') /\ waits w' `suffix_of` waits w /\
        match r with
        | inl e => e <> 0 /\ exists e', WErr e' ∈ waits w /\ Zpos e' <> EINTR
        | inr s' => (Forall no_except (waits w) -> excepts s' = ∅) /\
                    ((length (waits w') < length (waits w))%nat \/
                     (seen (nfds + 1) (reads s) = reads s' /\ seen (nfds + 1) (writes s) = writes s'))
        end) E w.
Proof.
  intros Hfd Hn. revert w. induction fuel as [|fuel IH]; intros w Hf; [lia|].
  unfold wait_ready. apply wp_iter_S, wp_bind. unfold sys_select.
  rewrite decide_False.
  2: { intros He. assert (Hin : fd ∈ seen (nfds + 1) (reads s) ∪ seen (nfds + 1) (writes s)).
       { unfold seen. rewrite elem_of_union, !elem_of_filter. apply elem_of_union in Hfd. intuition lia. }
       set_solver. }
  wp_steps. destruct (waits w) as [|[e|r wr x] l] eqn:El; wp_steps.
  - rewrite of_nat_ltb_0.
    wp_steps. rewrite El. split_and!; [apply only_refl|done|done|by right].
  - change (-1 <? 0) with true. wp_steps. cbn [io with_errno errno].
    destruct (Z.eqb_spec (Zpos e) EINTR) as [Hei|Hei]; wp_steps.
    + eapply wp_mono; [|intros ? ? H; exact H|apply IH; simpl in *; lia].
      intros [e'|s'] w' (Ho & Hs & Hr); cbn [waits io] in *.
      all: split; [destruct Ho; by split|split; [by apply suffix_cons_r|]].
      * destruct Hr as (? & e2 & ? & ?). split; [done|]. exists e2. split; [by right|done].
      * destruct Hr as [Hx Hr]. split; [intros [? ?]%Forall_cons; by apply Hx|]. left.
        apply suffix_length in Hs. simpl. lia.
    + split_and!; [by split|by apply suffix_cons_r|lia|]. exists e. split; [left|done].
  - rewrite of_nat_ltb_0.
    wp_steps. split_and!; [apply only_refl|by apply suffix_cons_r| |left; simpl; lia].
    intros [Hx _]%Forall_cons. simpl in *. subst. set_solver.
Qed.











End proofs.

(** ** The program *)



(** ** A short write *)

(** A pipe that has reported a part of its buffer as written: descriptor [fd]
    of description [di], [n] bytes in the buffer; [k] rounds ago the target was
    [c0] bytes long at least. *)
Record stuck (fd di n : nat) (path : string) (k : nat) (ps : list pipe_st) (w : world) : Prop := {
  st_ps : exists p, ps = [p] /\ state p = STATE_WRITE /\ fits p /\ dst p = Z.of_nat fd /\
            len p = Z.of_nat n /\ 0 < off p /\ (0 < n <= length (buf p))%nat;
  st_fd : fdt (io w) !! fd = Some di;
  st_ofd : exists o, ofds (io w) !! di = Some (Ofd path o false true) /\ (k * n <= o)%nat;
  st_fs : exists c, fs (io w) !! path = Some c /\ (k * n <= length c)%nat;
  st_orc : orc (io w) = [];
  st_waits : waits w = [] }.

(** The next round writes the whole buffer again, and [off] passes [len]. *)
Lemma wp_stuck_round F fd di n path k ps E w :
  (0 < F)%nat -> stuck fd di n path k ps w ->
  wp (pipe_push F ps) (fun '(e, ps') w' => e = 0 /\ finished ps' = false /\
        stuck fd di n path (S k) ps' w') E w.
Proof.
  intros HF [(p & -> & Hst & Hfit & Hd & Hlen & Hoff & Hn) Hfd (o & Hofd & Ho) (c & Hc & Hl) Horc Hw].
  unfold pipe_push. apply wp_bind.
  eapply wp_mono; [|intros ? ? H; exact H|apply wp_register; by constructor].
  intros [nfds s] ? (-> & _ & _ & _ & [(Hr & _ & Hnf) _]%Forall_cons).
  unfold ready in Hr. rewrite Hst in Hr.
  apply wp_bind. eapply wp_mono; [|intros ? ? H; exact H|eapply (wp_wait_ready F nfds s (dst p));
    [set_solver|done|rewrite Hw; simpl; lia]].
  intros [e|s'] w1 (Honly & Hsuf & Hres).
  { destruct Hres as (_ & e' & Hin & _). by rewrite Hw in Hin; apply elem_of_nil in Hin. }
  rewrite Hw in *. apply suffix_nil_inv in Hsuf as Hw1.
  destruct Hres as [Hx [?|[Hrd Hwr]]]; [simpl in *; lia|]. specialize (Hx (Forall_nil_2 _)).
  destruct Honly as [Hf1 Ho1 Hd1 Hs1].
  assert (Hin : dst p ∈ writes s') by (rewrite <-Hwr; unfold seen; apply elem_of_filter; split; [lia|done]).
  cbn [mapM]. apply wp_bind, wp_bind. unfold push_one, FD_ISSET. rewrite Hst, Hx.
  rewrite bool_decide_false by set_solver. rewrite bool_decide_true by done. cbn [negb].
  unfold write_pipe, on_io. rewrite Hlen, of_nat_ltb_0, Nat2Z.id. apply wp_bind, wp_bind, wp_slice; [lia|].
  rewrite Hd. apply wp_on. eapply wp_write; [by rewrite Hf1|by rewrite Hd1; [|constructor]|done| |].
  { intros e1 o1. by rewrite Ho1, Horc. }
  cbn [of_path of_off]. intros m o1 Hso Hm _ Hfull. rewrite Ho1, Horc in *.
  apply suffix_nil_inv in Hso as ->. rewrite Hfull by constructor.
  rewrite drop_0, length_take, Nat.min_l by lia. cbn [off len with_io].
  destruct (Z.eqb_spec (off p + Z.of_nat n) (Z.of_nat n)); [lia|]. wp_steps.
  split_and!; [done|by cbn [finished forallb active state]; rewrite ?Hst|].
  split; cbn [io with_io set_off with_ofds with_fs with_orc fdt ofds fs orc]; try done.
  - eexists. split; [done|]. cbn [state dst len off buf src]. unfold fits in *. cbn [src dst]. split_and!; try done; lia.
  - by rewrite Hf1.
  - exists (o + n)%nat. split; [|lia]. apply list_lookup_insert_eq. rewrite <-Hd1 in Hofd by constructor.
    by eapply lookup_lt_Some.
  - eexists. split; [apply lookup_insert_eq|]. unfold splice.
    rewrite !length_app, !length_take, length_app, length_replicate. lia.
Qed.

(** A short write never recovers: [pipe_push] writes again from the start of
    the buffer and adds the whole length to [off], so once a pipe has reported
    part of its buffer as written, the test [off == len] is never met again even
    when every later call is complete: the copying loop runs for ever, and after
    [fuel] rounds the target is [fuel] times the buffer's length at least. *)
Theorem select_short_write_never_ends fuel fd di n path p w :
  stuck fd di n path 0 [p] w ->
  exists w' c, copy_loop fuel [p] w = OutOfFuel w' /\
    fs (io w') !! path = Some c /\ (fuel * n <= length c)%nat.
Proof.
  intros Hst. unfold copy_loop.
  destruct fuel as [|f].
  { destruct (st_fs _ _ _ _ _ _ _ Hst) as (c & ? & ?). by exists w, c. }
  edestruct (iter_forever (stuck fd di n path) (copy_round (S f))) as (ps' & w' & Hit & Hst'); [|exact Hst|].
  2: { rewrite Hit. destruct (st_fs _ _ _ _ _ _ _ Hst') as (c & ? & ?). by exists w', c. }
  intros k ps w1 H1. apply wp_bind. eapply wp_mono; [|intros ? ? H; exact H|apply (wp_stuck_round (S f)); [lia|done]].
  intros [e ps'] w2 (-> & Hfin & H2). cbn [Z.eqb negb]. rewrite Hfin. wp_steps. by exists ps'.
Qed.

(** ** Concrete runs *)

Definition fresh_pipe : pipe_st := Pipe 0 0 STATE_READ (replicate BUF_SIZE x00) 0 0 0.

Definition demo_os (answers : list sysans) : os :=
  {| fs := {[ "a"%string := bytes "hello"; "b"%string := bytes "wxyz" ]};
     ofds := [Ofd "tty" 0 false true]; fdt := {[ 1%nat := 0%nat ]}; errno := 0; orc := answers |}.




(** The state [main] reaches when the first write of "hello" accepts two bytes. *)
Definition short_pipe : pipe_st :=
  Pipe 0 2 STATE_WRITE (bytes "hello" ++ replicate 4091 x00) 2 5 0.

Definition short_world : world :=
  World {| fs := {[ "a"%string := bytes "hello"; "a1"%string := bytes "he" ]};
           ofds := [Ofd "tty" 0 false true; Ofd "a" 5 true false; Ofd "a1" 2 false true];
           fdt := {[ 0%nat := 1%nat; 1%nat := 0%nat; 2%nat := 2%nat ]}; errno := 0; orc := [] |} [].

Lemma select_short_write_never_ends_witness :
  exists w' c, copy_loop 1000 [short_pipe] short_world = OutOfFuel w' /\
    fs (io w') !! "a1"%string = Some c /\ (1000 * 5 <= length c)%nat.
Proof.
  apply (select_short_write_never_ends 1000 2 2 5 "a1"). split.
  - eexists. split; [reflexivity|]. split_and!; try done; vm_compute; lia.
  - reflexivity.
  - exists 2%nat. split; [reflexivity|lia].
  - exists (bytes "he"). split; [reflexivity|lia].
  - reflexivity.
  - reflexivity.
Defined.

(** That state is reached. *)
Example short_world_reached :
  (ps ← open_pipes DST_FLAGS fresh_pipe ["a"; "a1"]%string;
   '(_, ps) ← pipe_push 1 ps;
   '(_, ps) ← pipe_push 1 ps; mret ps)
    (World {| fs := {[ "a"%string := bytes "hello" ]}; ofds := [Ofd "tty" 0 false true];
              fdt := {[ 1%nat := 0%nat ]}; errno := 0; orc := [AFull; AFull; AFull; ALen 2] |} []) =
  Ok [short_pipe] short_world.
Proof. by vm_compute. Qed.

(** A failed [read] is not noticed: the length -1 is stored, and the next
    round asks [write] for [(size_t)-1] bytes of the buffer. *)
Theorem select_read_error_overruns :
  exists w', main 10 true fresh_pipe ["select"; "a"; "a1"]%string
    (World (demo_os [AFull; AFull; AErr 5]) []) = Fault OutOfBounds w'.
Proof. eexists. vm_compute. reflexivity. Qed.
