(* ===== verification/Poll.v ===== *)
(** * Poll: the file copier of src/adio/poll.c

    The program is the one of select.c with [poll] in the place of [select], and
    with at most twenty rounds. *)

From S2P Require Import Prelude Prog Posix Relay.

Definition POLLIN : Z := 1.
Definition POLLOUT : Z := 4.
Definition POLLERR : Z := 8.

Record pollfd := PollFd { fd : Z; events : Z; revents : Z }.

(** ** [poll] *)

(** What [poll] reports for an entry, with the readable, writable and failed
    descriptors. *)
Definition report (r w x : gset Z) (e : pollfd) : pollfd :=
  PollFd (fd e) (events e)
    (Z.lor (if bool_decide (fd e ∈ r) then Z.land (events e) POLLIN else 0)
    (Z.lor (if bool_decide (fd e ∈ w) then Z.land (events e) POLLOUT else 0)
           (if bool_decide (fd e ∈ x) then POLLERR else 0))).

(** [poll(polls, n, -1)] reads and writes the first [n] entries of the array. *)
Definition sys_poll (polls : list pollfd) (n : nat) : M world (Z * list pollfd) :=
  if decide (length polls < n)%nat then fail OutOfBounds else
  wd ← get;
  let all : gset Z := list_to_set (map fd polls) in
  let answer r w x := map (report r w x) (take n polls) ++ drop n polls in
  let count l := Z.of_nat (length (filter (fun e => revents e <> 0) (take n l))) in
  match waits wd with
  | [] => mret (count (answer all all ∅), answer all all ∅)
  | WErr e :: l => put (World (with_errno (Zpos e) (io wd)) l) ;; mret (-1, polls)
  | WReady r w x :: l => put (World (io wd) l) ;; mret (count (answer r w x), answer r w x)
  end.

(** ** The program *)

(** An element of the allocated array; [None] is a null pointer. *)
Definition poll_at (polls : option (list pollfd)) (i : nat) : M world pollfd :=
  a ← unwrap NullDeref polls; unwrap OutOfBounds (a !! i).

Definition set_poll (polls : option (list pollfd)) (i : nat) (f : pollfd -> pollfd)
    : M world (option (list pollfd)) :=
  a ← unwrap NullDeref polls; e ← unwrap OutOfBounds (a !! i); mret (Some (<[i := f e]> a)).

Definition with_fd (z : Z) (e : pollfd) : pollfd := PollFd z (events e) (revents e).
Definition with_events (z : Z) (e : pollfd) : pollfd := PollFd (fd e) z (revents e).

(** The loop that fills the array. *)
Fixpoint register (i : nat) (ps : list pipe_st) (polls : option (list pollfd))
    : M world (option (list pollfd)) :=
  match ps with
  | [] => mret polls
  | p :: ps' =>
      polls ← set_poll polls (i * 2) (with_fd (src p));
      polls ← set_poll polls (i * 2 + 1) (with_fd (dst p));
      polls ← (if decide (state p = STATE_READ)
               then set_poll polls (i * 2) (with_events POLLIN) else mret polls);
      polls ← (if decide (state p = STATE_WRITE)
               then set_poll polls (i * 2 + 1) (with_events POLLOUT) else mret polls);
      register (S i) ps' polls
  end.

(** The loop around [poll]; [inl] is the error the function returns. *)
Definition wait_ready (fuel : nat) (n : nat) (polls : option (list pollfd))
    : M world (Z + option (list pollfd)) :=
  iter fuel (fun polls : option (list pollfd) =>
    a ← unwrap NullDeref polls;
    '(fds, a) ← sys_poll a (n * 2);
    if fds <? 0 then
      w ← get;
      if negb (errno (io w) =? EINTR) then mret (inr (inl (- errno (io w)))) else mret (inl (Some a))
    else mret (inr (inr (Some a)))) polls.

(** One pipe after [poll]. *)
Definition push_one (polls : option (list pollfd)) (i : nat) (p : pipe_st) : M world pipe_st :=
  match state p with
  | STATE_READ =>
      e ← poll_at polls (i * 2);
      if negb (Z.land POLLERR (revents e) =? 0) then mret (with_state STATE_ERR p) else
      if Z.land POLLIN (revents e) =? 0 then mret p else
      '(sz, p) ← read_pipe p;
      if sz =? 0 then mret (with_state STATE_EOF p) else
      mret (Pipe (src p) (dst p) STATE_WRITE (buf p) 0 sz (err p))
  | STATE_WRITE =>
      e ← poll_at polls (i * 2 + 1);
      if negb (Z.land POLLERR (revents e) =? 0) then mret (with_state STATE_ERR p) else
      if Z.land POLLOUT (revents e) =? 0 then mret p else
      sz ← write_pipe p;
      let p := Pipe (src p) (dst p) (state p) (buf p) (off p + sz) (len p) (err p) in
      if off p =? len p then mret (with_state STATE_READ p) else mret p
  | _ => mret p
  end.

Fixpoint push_all (polls : option (list pollfd)) (i : nat) (ps : list pipe_st) : M world (list pipe_st) :=
  match ps with
  | [] => mret []
  | p :: ps' => q ← push_one polls i p; qs ← push_all polls (S i) ps'; mret (q :: qs)
  end.

(** [malloc(sizeof(struct pollfd) * n)] yields [n] entries with indeterminate
    contents, or a null pointer, after which the function goes on. *)
Definition pipe_push (fuel : nat) (malloc_ok : bool) (garbage : pollfd) (ps : list pipe_st)
    : M world (Z * list pipe_st) :=
  let n := length ps in
  let polls := if malloc_ok then Some (replicate n garbage) else None in
  polls ← register 0 ps polls;
  r ← wait_ready fuel n polls;
  match r with
  | inl e => mret (e, ps)
  | inr polls => ps' ← push_all polls 0 ps; mret (0, ps')
  end.

(** [while ((j++) < limits)]; [limits] is what is left of the twenty rounds. *)
Fixpoint copy_loop (fuel : nat) (malloc_ok : bool) (garbage : pollfd) (limits : nat) (ps : list pipe_st)
    : M world (list pipe_st) :=
  match limits with
  | O => mret ps
  | S limits' =>
      '(e, ps) ← pipe_push fuel malloc_ok garbage ps;
      if negb (e =? 0) then exit_ 1 else
      if finished ps then mret ps else copy_loop fuel malloc_ok garbage limits' ps
  end.

Definition main (fuel : nat) (malloc_ok polls_ok : bool) (garbage : pipe_st) (gpoll : pollfd)
    (argv : list string) : M world Z :=
  let argc := Z.of_nat (length argv) in
  if (argc <? 3) || negb ((argc - 1) mod 2 =? 0) then exit_ 1 else
  if negb malloc_ok then exit_ 1 else
  ps ← open_pipes DST_FLAGS garbage (tail argv);
  ps ← copy_loop fuel polls_ok gpoll 20 ps;
  close_pipes ps ;;
  exit_ 0.

(** ** The array is too short *)

Lemma set_poll_far a i f w :
  (length a <= i)%nat -> set_poll (Some a) i f w = Fault OutOfBounds w.
Proof.
  intros H. change (set_poll (Some a) i f w) with
    ((e ← unwrap OutOfBounds (a !! i); mret (Some (<[i := f e]> a))) w : res world (option (list pollfd))).
  by rewrite (proj2 (lookup_ge_None a i) H).
Qed.

Lemma set_poll_near a i f w :
  (i < length a)%nat -> exists a', set_poll (Some a) i f w = Ok (Some a') w /\ length a' = length a.
Proof.
  intros H. destruct (lookup_lt_is_Some_2 a i H) as [e He].
  change (set_poll (Some a) i f w) with
    ((e ← unwrap OutOfBounds (a !! i); mret (Some (<[i := f e]> a))) w : res world (option (list pollfd))).
  rewrite He. eexists. split; [reflexivity|]. apply length_insert.
Qed.

(** Filling the entries of more than half as many pipes as the array has
    elements runs over its end. *)
Lemma register_overruns i ps a w :
  ps <> [] -> (length a < 2 * (i + length ps))%nat -> register i ps (Some a) w = Fault OutOfBounds w.
Proof.
  revert i a. induction ps as [|p ps IH]; intros i a Hne Hlen; [done|]. cbn [register].
  assert (Hstep : forall j f (k : option (list pollfd) -> M world (option (list pollfd))),
    (forall a', length a' = length a -> (j < length a)%nat -> k (Some a') w = Fault OutOfBounds w) ->
    forall b, length b = length a -> (set_poll (Some b) j f ≫= k) w = Fault OutOfBounds w).
  { intros j f k Hk b Hb. unfold mbind, M_bind. destruct (decide (j < length b)%nat).
    - destruct (set_poll_near b j f w) as (b' & -> & ?); [done|]. apply Hk; lia.
    - by rewrite set_poll_far by lia. }
  apply Hstep; [|done]. intros a1 H1 _. apply Hstep; [|done]. intros a2 H2 Hin.
  assert (Hrest : forall b, length b = length a -> register (S i) ps (Some b) w = Fault OutOfBounds w).
  { intros b Hb. apply IH; [|simpl in *; lia]. intros ->. simpl in *. lia. }
  destruct (decide (state p = STATE_READ)), (decide (state p = STATE_WRITE)); try congruence.
  - apply Hstep; [|done]. intros. by apply Hrest.
  - unfold mret, M_ret, mbind at 1, M_bind at 1. apply Hstep; [|done]. intros. by apply Hrest.
  - by apply Hrest.
Qed.

(** C40: The [poll] copier never copies a byte: [pipe_push] allocates one entry
    per pipe but fills two, so for any pairs of files its first call writes past
    the end of the array, after the targets have been truncated and before
    anything was read. *)
Theorem poll_overruns_array fuel garbage gpoll prog js (w : world) :
  js <> [] -> length (buf garbage) = BUF_SIZE -> orc (io w) = [] -> jobs_ok js (io w) ->
  exists w', main fuel true true garbage gpoll (prog :: argv_of js) w = Fault OutOfBounds w' /\
    Forall (fun j => fs (io w') !! j_dst j = Some []) js.
Proof.
  intros Hjs Hg Horc Hok. unfold main. cbn [length tail]. rewrite argv_of_length.
  destruct (Z.ltb_spec (Z.of_nat (S (2 * length js))) 3).
  { destruct js; [done|simpl in *; lia]. }
  replace ((Z.of_nat (S (2 * length js)) - 1) mod 2) with 0
    by (replace (_ - 1) with (Z.of_nat (length js) * 2) by lia; by rewrite Z_mod_mult).
  cbn [orb negb Z.eqb].
  destruct (wp_Ok (open_pipes DST_FLAGS garbage (argv_of js)) _ w (wp_open_pipes garbage Hg js _ w Horc Hok))
    as (ps & w1 & Hrun & Hw1 & pls & Hoa & Hat & Hst).
  exists w1. unfold mbind at 1, M_bind at 1. rewrite Hrun. split.
  - assert (Hne : ps <> []).
    { intros ->. apply all_at_length in Hat. destruct pls; [|done]. by destruct (oa_jobs _ _ _ _ Hoa). }
    cbn [copy_loop]. unfold pipe_push. unfold mbind, M_bind. rewrite register_overruns; [done|done|].
    rewrite length_replicate. destruct ps; [done|simpl; lia].
  - rewrite <-(oa_jobs _ _ _ _ Hoa) in Hat |- *. by eapply all_at_fresh.
Qed.

Lemma poll_overruns_array_witness :
  exists w', main 10 true true (Pipe 0 0 STATE_READ (replicate BUF_SIZE x00) 0 0 0) (PollFd 0 0 0)
      ["poll"; "a"; "b"]%string
      (World {| fs := {[ "a"%string := bytes "hello" ]}; ofds := []; fdt := ∅; errno := 0; orc := [] |} []) =
    Fault OutOfBounds w' /\
    Forall (fun j => fs (io w') !! j_dst j = Some []) [Job "a" "b" (bytes "hello")].
Proof.
  apply (poll_overruns_array 10 _ _ "poll" [Job "a" "b" (bytes "hello")]); [done|reflexivity|done|].
  split_and!.
  - by repeat constructor.
  - apply NoDup_singleton.
  - intros d. simpl. rewrite !elem_of_cons, !elem_of_nil. intros [->|[]] [?|[]]. done.
Defined.
