(* ===== verification/Epoll.v ===== *)
(** * Epoll: the file copier of src/adio/epoll.c

    The program is the one of poll.c with [epoll] in the place of [poll], and it
    opens existing targets without truncating them.  The [epoll] instance is its
    list of registrations; the descriptor number it occupies is not modelled. *)

From S2P Require Import Prelude Prog Posix Relay.

Definition MAX_EVENTS : nat := 1024.
Definition EEXIST : Z := 17.
Definition EPOLLIN : Z := 1.
Definition EPOLLOUT : Z := 4.
Definition EPOLLERR : Z := 8.
Definition EPOLLHUP : Z := 16.

(** A registration, and an event: the mask and [data.ptr], which is the index of
    the pipe in the array. *)
Record interest := Interest { i_fd : Z; i_events : Z; i_ptr : nat }.
Record epoll_event := Event { events : Z; ptr : nat }.

(** ** The calls *)

(** [epoll_create]: -1 or the new instance. *)
Definition epoll_create : M world Z :=
  a ← on_io next_ans;
  match a with
  | AErr e => on_io (fail_with (Zpos e) (-1))
  | _ => mret 0
  end.

(** [epoll_ctl(ep, EPOLL_CTL_ADD, fd, &e)]. *)
Definition epoll_add (ep : list interest) (fd : Z) (mask : Z) (i : nat) : M world (Z * list interest) :=
  a ← on_io next_ans;
  match a with
  | AErr e => on_io (fail_with (Zpos e) (-1, ep))
  | _ =>
      if existsb (fun t => i_fd t =? fd) ep then on_io (fail_with EEXIST (-1, ep))
      else mret (0, ep ++ [Interest fd mask i])
  end.

(** The event of a registration, with the readable, writable and failed (or hung
    up) descriptors: only requested conditions are reported, apart from errors. *)
Definition event_of (r w x : gset Z) (t : interest) : epoll_event :=
  Event (Z.lor (if bool_decide (i_fd t ∈ r) then Z.land (i_events t) EPOLLIN else 0)
        (Z.lor (if bool_decide (i_fd t ∈ w) then Z.land (i_events t) EPOLLOUT else 0)
               (if bool_decide (i_fd t ∈ x) then EPOLLERR else 0))) (i_ptr t).

Definition events_of (r w x : gset Z) (ep : list interest) : list epoll_event :=
  take MAX_EVENTS (filter (fun e => events e <> 0) (map (event_of r w x) ep)).

(** [epoll_wait(ep, evs, MAX_EVENTS, -1)] blocks for ever when nothing is
    registered. *)
Definition epoll_wait (ep : list interest) : M world (Z * list epoll_event) :=
  if decide (ep = []) then (fun wd => OutOfFuel wd) else
  wd ← get;
  let all : gset Z := list_to_set (map i_fd ep) in
  match waits wd with
  | [] => let evs := events_of all all ∅ ep in mret (Z.of_nat (length evs), evs)
  | WErr e :: l => put (World (with_errno (Zpos e) (io wd)) l) ;; mret (-1, [])
  | WReady r w x :: l =>
      put (World (io wd) l) ;; let evs := events_of r w x ep in mret (Z.of_nat (length evs), evs)
  end.

(** ** The program *)

(** [int *ptr = malloc(sizeof(int)); *ptr = i; p[i].ptr = ptr;]: the result of
    [malloc] is not tested.  Within the same call the index is read for messages
    only, and freed at its end. *)
Definition store_index : M world unit :=
  a ← on_io next_ans;
  match a with AErr _ => fail NullDeref | _ => mret tt end.

(** The loop that registers the pipes. *)
Fixpoint register (i : nat) (ps : list pipe_st) (ep : list interest) : M world (list interest) :=
  match ps with
  | [] => mret ep
  | p :: ps' =>
      store_index ;;
      ep ← (if decide (state p = STATE_READ) then
              '(r, ep) ← epoll_add ep (src p) (Z.lor EPOLLIN EPOLLERR) i;
              if r <? 0 then exit_ 1 else mret ep
            else mret ep);
      ep ← (if decide (state p = STATE_WRITE) then
              '(r, ep) ← epoll_add ep (dst p) (Z.lor EPOLLOUT EPOLLERR) i;
              if r <? 0 then exit_ 1 else mret ep
            else mret ep);
      register (S i) ps' ep
  end.

(** The loop around [epoll_wait]; [inl] is the error the function returns. *)
Definition wait_ready (fuel : nat) (ep : list interest) : M world (Z + list epoll_event) :=
  iter fuel (fun _ : unit =>
    '(fds, evs) ← epoll_wait ep;
    if fds <? 0 then
      w ← get;
      if negb (errno (io w) =? EINTR) then mret (inr (inl (- errno (io w)))) else mret (inl tt)
    else mret (inr (inr evs))) tt.

(** [EPOLLERR & evs[i].events || evs[i].events & EPOLLHUP] *)
Definition failed (mask : Z) : bool :=
  negb (Z.land EPOLLERR mask =? 0) || negb (Z.land mask EPOLLHUP =? 0).

(** One event. *)
Definition push_one (mask : Z) (p : pipe_st) : M world pipe_st :=
  match state p with
  | STATE_READ =>
      if failed mask then mret (with_state STATE_ERR p) else
      if Z.land EPOLLIN mask =? 0 then mret p else
      '(sz, p) ← read_pipe p;
      if sz <? 0 then mret p else
      if sz =? 0 then mret (with_state STATE_EOF p) else
      mret (Pipe (src p) (dst p) STATE_WRITE (buf p) 0 sz (err p))
  | STATE_WRITE =>
      if failed mask then mret (with_state STATE_ERR p) else
      if Z.land EPOLLIN mask =? 0 then mret p else
      sz ← write_pipe p;
      if sz <? 0 then mret p else
      let p := Pipe (src p) (dst p) (state p) (buf p) (off p + sz) (len p) (err p) in
      if off p =? len p then mret (with_state STATE_READ p) else mret p
  | _ => mret p
  end.

Fixpoint push_events (evs : list epoll_event) (ps : list pipe_st) : M world (list pipe_st) :=
  match evs with
  | [] => mret ps
  | e :: evs' =>
      p ← unwrap OutOfBounds (ps !! ptr e);
      q ← push_one (events e) p;
      push_events evs' (<[ptr e := q]> ps)
  end.

Definition pipe_push (fuel : nat) (ps : list pipe_st) : M world (Z * list pipe_st) :=
  r ← epoll_create;
  if r <? 0 then w ← get; mret (- errno (io w), ps) else
  ep ← register 0 ps [];
  r ← wait_ready fuel ep;
  match r with
  | inl e => mret (e, ps)
  | inr evs => ps' ← push_events evs ps; mret (0, ps')
  end.

Fixpoint copy_loop (fuel : nat) (limits : nat) (ps : list pipe_st) : M world (list pipe_st) :=
  match limits with
  | O => mret ps
  | S limits' =>
      '(e, ps) ← pipe_push fuel ps;
      if negb (e =? 0) then exit_ 1 else
      if finished ps then mret ps else copy_loop fuel limits' ps
  end.

Definition EPOLL_DST_FLAGS : Z := Z.lor O_WRONLY O_NONBLOCK.

Definition main (fuel : nat) (malloc_ok : bool) (garbage : pipe_st) (argv : list string) : M world Z :=
  let argc := Z.of_nat (length argv) in
  if (argc <? 3) || negb ((argc - 1) mod 2 =? 0) then exit_ 1 else
  if negb malloc_ok then exit_ 1 else
  ps ← open_pipes EPOLL_DST_FLAGS garbage (tail argv);
  ps ← copy_loop fuel 20 ps;
  close_pipes ps ;;
  exit_ 0.

(** ** Nothing is ever written *)

Section never.
Context (f0 : gmap string (list byte)).

(** The files are as they were. *)
Definition same (w : world) : Prop := fs (io w) = f0.
Definition same_os (o : os) : Prop := fs o = f0.

Lemma safe_on_io {A} (m : M os A) Q : safe same_os m Q -> safe same (on_io m) Q.
Proof. apply safe_on; by unfold same, same_os. Qed.

Lemma safe_next_ans : safe same_os next_ans (fun _ => True).
Proof. intros [f d t e [|a o]] H; by split. Qed.

Lemma safe_fail_with {A} e (r : A) (Q : A -> Prop) : Q r -> safe same_os (fail_with e r) Q.
Proof. by intros ? w. Qed.

(** Opening an existing file without [O_CREAT] and [O_TRUNC] changes no file. *)
Lemma safe_open path flags :
  has_flag flags O_CREAT = false -> has_flag flags O_TRUNC = false ->
  safe same_os (sys_open path flags) (fun _ => True).
Proof.
  intros Hc Ht. unfold sys_open. eapply safe_bind; [apply safe_next_ans|]. intros a _.
  assert (Hok : safe same_os (w ← get;
      if decide (fs w !! path = None /\ has_flag flags O_CREAT = false)
      then fail_with ENOENT (-1)
      else put (opened path flags (lowest_free (fdt w)) w) ;; mret (Z.of_nat (lowest_free (fdt w))))
      (fun _ => True)).
  { intros w Hw. unfold mbind, M_bind, get. case_decide as Hd; [by split|].
    cbn. split; [|done]. unfold same_os in *. cbn [fs opened]. rewrite Ht.
    destruct (fs w !! path) as [c|] eqn:Ec; [|naive_solver]. by rewrite insert_id. }
  destruct a; [done|done|]. by apply safe_fail_with.
Qed.

Lemma safe_close fd : safe same_os (sys_close fd) (fun _ => True).
Proof.
  intros w Hw. unfold sys_close, mbind, M_bind, get. by destruct (lookup_fd fd w).
Qed.

Lemma safe_read fd b n : safe same_os (sys_read fd b n) (fun _ => True).
Proof.
  unfold sys_read. case_decide; [apply safe_fail|].
  eapply safe_bind; [apply safe_next_ans|]. intros a _. destruct a; [| |by apply safe_fail_with].
  all: intros w Hw; unfold mbind, M_bind, get; destruct (lookup_fd fd w) as [[i d]|]; [|by split];
    destruct (of_rd d); by split.
Qed.

Lemma safe_read_pipe p : safe same (read_pipe p) (fun _ => True).
Proof.
  unfold read_pipe. eapply safe_bind; [apply safe_on_io, safe_read|]. intros [sz b] _. by apply safe_ret.
Qed.

(** The events of a call fit the pipes: at most one for a pipe, and none reports
    readiness for reading to a pipe that waits to write. *)
Definition fits (ps : list pipe_st) (e : epoll_event) : Prop :=
  forall p, ps !! ptr e = Some p -> state p = STATE_WRITE -> Z.land EPOLLIN (events e) = 0.

Lemma safe_push_one mask p :
  (state p = STATE_WRITE -> Z.land EPOLLIN mask = 0) -> safe same (push_one mask p) (fun _ => True).
Proof.
  intros Hm. unfold push_one. destruct (state p); try by apply safe_ret.
  - destruct (failed mask); [by apply safe_ret|]. destruct (_ =? 0); [by apply safe_ret|].
    eapply safe_bind; [apply safe_read_pipe|]. intros [sz q] _.
    destruct (sz <? 0); [by apply safe_ret|]. destruct (sz =? 0); by apply safe_ret.
  - destruct (failed mask); [by apply safe_ret|]. rewrite Hm by done. by apply safe_ret.
Qed.

Lemma safe_push_events evs ps :
  NoDup (map ptr evs) -> Forall (fits ps) evs -> safe same (push_events evs ps) (fun _ => True).
Proof.
  revert ps. induction evs as [|e evs IH]; intros ps Hnd Hf; cbn [push_events]; [by apply safe_ret|].
  cbn [map] in Hnd. apply NoDup_cons in Hnd as [Hne Hnd]. apply Forall_cons in Hf as [He Hf].
  destruct (ps !! ptr e) as [p|] eqn:Ep; [|by apply (safe_bind _ _ _ (fun _ => False)); [apply safe_fail|intros ? []]].
  eapply (safe_bind _ _ _ (fun q => q = p)); [by apply safe_ret|]. intros ? ->.
  eapply safe_bind; [apply safe_push_one; by apply He|]. intros q _.
  apply IH; [done|]. apply Forall_forall. intros e' He' p' Hp'.
  rewrite list_lookup_insert_ne in Hp'; [by eapply Forall_forall in Hf; [apply Hf|]|].
  intros Heq. apply Hne. rewrite Heq. by apply list_elem_of_fmap_2.
Qed.

(** What the registrations of the first [i] pipes look like. *)
Record regs (PS : list pipe_st) (i : nat) (ep : list interest) : Prop := {
  rg_nodup : NoDup (map i_ptr ep);
  rg_lt : Forall (fun t => (i_ptr t < i)%nat) ep;
  rg_mask : Forall (fun t => forall p, PS !! i_ptr t = Some p -> state p = STATE_WRITE ->
                             Z.land (i_events t) EPOLLIN = 0) ep }.

Lemma safe_epoll_add ep fd mask i :
  safe same (epoll_add ep fd mask i)
    (fun '(r, ep') => 0 <= r -> ep' = ep ++ [Interest fd mask i]).
Proof.
  unfold epoll_add. eapply safe_bind; [apply safe_on_io, safe_next_ans|]. intros a _.
  assert (Hok : safe same (if existsb (fun t => i_fd t =? fd) ep then on_io (fail_with EEXIST (-1, ep))
      else mret (0, ep ++ [Interest fd mask i])) (fun '(r, ep') => 0 <= r -> ep' = ep ++ [Interest fd mask i])).
  { destruct (existsb _ _); [|by apply safe_ret]. apply safe_on_io, safe_fail_with. lia. }
  destruct a; [done|done|]. apply safe_on_io, safe_fail_with. lia.
Qed.

(** One registration adds at most one entry for its pipe. *)
Lemma safe_register_one PS i p fd mask ep :
  regs PS i ep -> PS !! i = Some p -> (state p = STATE_WRITE -> Z.land mask EPOLLIN = 0) ->
  safe same ('(r, ep) ← epoll_add ep fd mask i; if r <? 0 then exit_ 1 else mret ep) (regs PS (S i)).
Proof.
  intros [Hnd Hlt Hm] Hp Hmask. eapply safe_bind; [apply safe_epoll_add|]. intros [r ep'] Hr.
  destruct (Z.ltb_spec r 0); [apply safe_exit|]. apply safe_ret. rewrite Hr by done. split.
  - rewrite map_app. apply NoDup_app. split_and!; [done| |apply NoDup_singleton].
    intros j (t & -> & Ht)%list_elem_of_fmap Hj. apply list_elem_of_singleton in Hj. simpl in Hj.
    eapply Forall_forall in Hlt; [|exact Ht]. simpl in *. lia.
  - apply Forall_app. split; [eapply Forall_impl; [exact Hlt|simpl; lia]|]. apply Forall_singleton. simpl. lia.
  - apply Forall_app. split; [done|]. apply Forall_singleton. simpl. intros q Hq. by simplify_eq.
Qed.

Lemma regs_S PS i ep : regs PS i ep -> regs PS (S i) ep.
Proof. intros [? Hlt ?]. split; [done| |done]. eapply Forall_impl; [exact Hlt|]. simpl. lia. Qed.

Lemma safe_store_index : safe same store_index (fun _ => True).
Proof.
  unfold store_index. eapply safe_bind; [apply safe_on_io, safe_next_ans|]. intros a _.
  destruct a; [by apply safe_ret|by apply safe_ret|apply safe_fail].
Qed.

Lemma safe_register PS i ps ep :
  drop i PS = ps -> regs PS i ep -> safe same (register i ps ep) (fun ep' => exists n, regs PS n ep').
Proof.
  revert i ep. induction ps as [|p ps IH]; intros i ep Hps Hr; cbn [register].
  { apply safe_ret. by exists i. }
  assert (Hp : PS !! i = Some p) by (rewrite <-(Nat.add_0_r i), <-lookup_drop, Hps; done).
  assert (Hrest : drop (S i) PS = ps) by (replace (S i) with (i + 1)%nat by lia; by rewrite <-drop_drop, Hps).
  eapply safe_bind; [apply safe_store_index|]. intros _ _.
  destruct (decide (state p = STATE_READ)) as [Er|Er], (decide (state p = STATE_WRITE)) as [Ew|Ew];
    try congruence.
  - eapply safe_bind; [eapply safe_register_one; [done|done|congruence]|].
    intros ep1 H1. eapply safe_bind; [by apply (safe_ret _ _ (eq ep1))|]. intros ? <-. by apply IH.
  - eapply safe_bind; [by apply (safe_ret _ _ (eq ep))|]. intros ? <-.
    eapply safe_bind; [eapply safe_register_one; [done|done|by vm_compute]|].
    intros ep1 H1. by apply IH.
  - eapply safe_bind; [by apply (safe_ret _ _ (eq ep))|]. intros ? <-.
    eapply safe_bind; [by apply (safe_ret _ _ (eq ep))|]. intros ? <-. apply IH; [done|by apply regs_S].
Qed.

(** An event reports readiness for reading only where it was asked for. *)
Lemma event_mask r w x t :
  Z.land (i_events t) EPOLLIN = 0 -> Z.land EPOLLIN (events (event_of r w x t)) = 0.
Proof.
  intros H. cbn [event_of events]. rewrite !Z.land_lor_distr_r.
  rewrite (Z.land_comm (i_events t) EPOLLOUT).
  repeat case_bool_decide; rewrite ?H, ?(Z.land_assoc EPOLLIN EPOLLOUT); done.
Qed.

Lemma events_fit PS n r w x ep :
  regs PS n ep -> NoDup (map ptr (events_of r w x ep)) /\ Forall (fits PS) (events_of r w x ep).
Proof.
  intros [Hnd Hlt Hm]. unfold events_of. split.
  - apply (sublist_NoDup _ (map ptr (map (event_of r w x) ep))).
    + by rewrite map_map.
    + apply fmap_sublist. etrans; [apply sublist_take|apply sublist_filter].
  - apply Forall_take, Forall_forall. intros e (_ & (t & -> & Ht)%list_elem_of_fmap)%list_elem_of_filter.
    intros p Hp Hs. apply event_mask. eapply Forall_forall in Hm; [|exact Ht]. by eapply Hm.
Qed.

Lemma safe_epoll_wait PS n ep :
  regs PS n ep ->
  safe same (epoll_wait ep) (fun '(_, evs) => NoDup (map ptr evs) /\ Forall (fits PS) evs).
Proof.
  intros Hr w Hw. unfold epoll_wait. case_decide; [done|]. unfold mbind, M_bind, get.
  destruct (waits w) as [|[e|r wr x] l]; cbn; split; try done; try by eapply events_fit.
  split; [apply NoDup_nil_2|constructor].
Qed.

Lemma safe_wait_ready PS n fuel ep :
  regs PS n ep ->
  safe same (wait_ready fuel ep)
    (fun r => match r with inl _ => True | inr evs => NoDup (map ptr evs) /\ Forall (fits PS) evs end).
Proof.
  intros Hr. apply (safe_iter _ _ (fun _ => True)); [|done]. intros _ _.
  eapply safe_bind; [by eapply safe_epoll_wait|]. intros [fds evs] Hevs.
  destruct (fds <? 0); [|by apply safe_ret].
  eapply (safe_bind _ _ _ (fun _ => True)); [by apply safe_get|]. intros w _.
  destruct (negb _); by apply safe_ret.
Qed.

Lemma safe_pipe_push fuel ps : safe same (pipe_push fuel ps) (fun _ => True).
Proof.
  unfold pipe_push, epoll_create. eapply (safe_bind _ _ _ (fun _ => True)).
  { eapply safe_bind; [apply safe_on_io, safe_next_ans|]. intros a _.
    destruct a; [by apply safe_ret|by apply safe_ret|]. by apply safe_on_io, safe_fail_with. }
  intros r _. destruct (r <? 0).
  { eapply (safe_bind _ _ _ (fun _ => True)); [by apply safe_get|]. intros w _. by apply safe_ret. }
  eapply safe_bind; [apply (safe_register ps 0 ps []); [done|]|].
  { split; [apply NoDup_nil_2|constructor|constructor]. }
  intros ep [n Hep]. eapply safe_bind; [by eapply safe_wait_ready|]. intros [e|evs] Hr; [by apply safe_ret|].
  destruct Hr. eapply safe_bind; [by apply safe_push_events|]. intros ps' _. by apply safe_ret.
Qed.

Lemma safe_copy_loop fuel limits ps : safe same (copy_loop fuel limits ps) (fun _ => True).
Proof.
  revert ps. induction limits as [|l IH]; intros ps; cbn [copy_loop]; [by apply safe_ret|].
  eapply safe_bind; [apply safe_pipe_push|]. intros [e ps'] _.
  destruct (negb _); [apply safe_exit|]. destruct (finished ps'); [by apply safe_ret|apply IH].
Qed.

Lemma safe_open_pipes garbage n argv :
  (length argv <= n)%nat -> safe same (open_pipes EPOLL_DST_FLAGS garbage argv) (fun _ => True).
Proof.
  revert argv. induction n as [|n IH]; intros [|s [|d argv]] Hn; simpl in Hn; try lia; cbn [open_pipes];
    try by apply safe_ret.
  eapply safe_bind; [by apply safe_on_io, safe_open|]. intros fs _. destruct (fs <? 0); [apply safe_exit|].
  eapply safe_bind; [by apply safe_on_io, safe_open|]. intros fd _. destruct (fd <? 0); [apply safe_exit|].
  eapply safe_bind; [apply IH; lia|]. intros ps _. by apply safe_ret.
Qed.

Lemma safe_close_pipes ps : safe same (close_pipes ps) (fun _ => True).
Proof.
  induction ps as [|p ps IH]; cbn [close_pipes]; [by apply safe_ret|].
  eapply safe_bind; [apply IH|]. intros _ _.
  eapply safe_bind; [apply safe_on_io, safe_close|]. intros _ _.
  eapply safe_bind; [apply safe_on_io, safe_close|]. intros _ _. by apply safe_ret.
Qed.

Lemma safe_main fuel ok garbage argv : safe same (main fuel ok garbage argv) (fun _ => True).
Proof.
  unfold main. destruct (_ || _); [apply safe_exit|]. destruct (negb ok); [apply safe_exit|].
  eapply safe_bind; [by eapply safe_open_pipes|]. intros ps _.
  eapply safe_bind; [apply safe_copy_loop|]. intros ps' _.
  eapply safe_bind; [apply safe_close_pipes|]. intros _ _. apply safe_exit.
Qed.
End never.

(** C39: The [epoll] copier writes nothing: whatever its arguments and whatever
    the system answers, it leaves every file as it was.  The branch that should
    write tests [EPOLLIN], which is never reported for a target, since targets are
    registered for [EPOLLOUT]. *)
Theorem epoll_never_writes fuel malloc_ok garbage argv (w : world) :
  fs (io (final (main fuel malloc_ok garbage argv w))) = fs (io w).
Proof. apply (safe_final (same (fs (io w))) _ (fun _ => True)); [apply safe_main|done]. Qed.

(** All the same it reports success after its twenty rounds. *)
Example epoll_exits_with_success :
  exists w', main 2 true (Pipe 0 0 STATE_READ (replicate BUF_SIZE x00) 0 0 0) ["epoll"; "a"; "b"]%string
    (World {| fs := {[ "a"%string := bytes "hello"; "b"%string := [] ]}; ofds := []; fdt := ∅;
              errno := 0; orc := [] |} []) = Exit 0 w'.
Proof. eexists. vm_compute. reflexivity. Qed.
