(* ===== verification/ThreadPool.v ===== *)
(** * ThreadPool: the thread pool of src/thread/thread_pool.c

    A small-step model of the pool, its workers and the thread that uses it.
    Every step of a thread is one locked region or one call that can block, in
    the order of the source; a step is [None] where the thread blocks.  Mutexes
    are locked or not and any thread may unlock them, which is how the program
    uses [waits] (a worker unlocks what the client locked) and what its mutexes
    do on Linux.  A schedule chooses which thread moves next, and may wake a
    sleeping worker spuriously.

    A submitted task carries a number, its position among the submissions, which
    the program does not have; with it [log] records what was executed. *)

From S2P Require Import Prelude.

Definition MAX_TASKS : nat := 1024.

Section pool.
(** Task functions and their arguments. *)
Context {F A : Type}.

(** ** State *)

(** Where a worker is in [thread_pool_routine]. *)
Inductive wpc :=
| WLock                                   (* before pthread_mutex_lock(&p->mtx) *)
| WFindLock                               (* find_task_lock: before locking task_mtx *)
| WScan                                   (* find_task_lock: the scan *)
| WCondWait                               (* before pthread_cond_wait *)
| WSleep                                  (* inside pthread_cond_wait *)
| WReacq                                  (* woken, before mtx is locked again *)
| WRunLock (i : nat)                      (* run_task_lock: before locking task_mtx *)
| WPop (i : nat)                          (* run_task_lock: taking the task *)
| WUnlock (i : nat) (t : nat * F) (a : option A)   (* before unlocking mtx *)
| WExec (i : nat) (t : nat * F) (a : option A)     (* before task(args) *)
| WRelease (i : nat) (t : nat * F).       (* before unlocking waits[id] *)

(** What the client does: add a task, or wait for the [k]-th added one. *)
Inductive cmd := Add (f : F) (a : A) | Wait (k : nat).

(** Where the client is. *)
Inductive cpc :=
| CReady
| CAddLock (f : F) (a : A)                (* tp_add_task: before locking task_mtx *)
| CAddScan (f : F) (a : A)                (* the scan for a free slot *)
| CAddWaits (i : nat) (f : F) (a : A)     (* before locking waits[i] *)
| CAddStore (i : nat) (f : F) (a : A)     (* storing the task *)
| CBroadcast (i : nat)                    (* before pthread_cond_broadcast *)
| CWaitLock (k : nat)                     (* tp_wait_task: before locking waits[id] *)
| CWaitUnlock (id k : nat)                (* before unlocking it *)
| CExit (code : Z).

Record thread_pool_st := Pool {
  tasks : list (option (nat * F));
  args : list (option A);
  mtx : bool;                             (* locked? *)
  task_mtx : bool;
  waits : list bool;
  workers : list wpc;
  client : cpc;
  script : list cmd;                      (* what the client still does *)
  ids : list nat;                         (* what tp_add_task returned *)
  (* history *)
  subs : list (F * A);                    (* the tasks that were stored *)
  log : list (nat * F * option A);        (* the tasks that were executed *)
  waited : list nat }.                    (* the waits that returned *)

Definition set_tasks t x s := Pool t x (mtx s) (task_mtx s) (waits s) (workers s) (client s) (script s) (ids s) (subs s) (log s) (waited s).
Definition set_mtx b s := Pool (tasks s) (args s) b (task_mtx s) (waits s) (workers s) (client s) (script s) (ids s) (subs s) (log s) (waited s).
Definition set_task_mtx b s := Pool (tasks s) (args s) (mtx s) b (waits s) (workers s) (client s) (script s) (ids s) (subs s) (log s) (waited s).
Definition set_waits x s := Pool (tasks s) (args s) (mtx s) (task_mtx s) x (workers s) (client s) (script s) (ids s) (subs s) (log s) (waited s).
Definition set_workers x s := Pool (tasks s) (args s) (mtx s) (task_mtx s) (waits s) x (client s) (script s) (ids s) (subs s) (log s) (waited s).
Definition set_client c s := Pool (tasks s) (args s) (mtx s) (task_mtx s) (waits s) (workers s) c (script s) (ids s) (subs s) (log s) (waited s).
Definition set_script x s := Pool (tasks s) (args s) (mtx s) (task_mtx s) (waits s) (workers s) (client s) x (ids s) (subs s) (log s) (waited s).
Definition add_id i s := Pool (tasks s) (args s) (mtx s) (task_mtx s) (waits s) (workers s) (client s) (script s) (ids s ++ [i]) (subs s) (log s) (waited s).
Definition add_sub f s := Pool (tasks s) (args s) (mtx s) (task_mtx s) (waits s) (workers s) (client s) (script s) (ids s) (subs s ++ [f]) (log s) (waited s).
Definition add_log e s := Pool (tasks s) (args s) (mtx s) (task_mtx s) (waits s) (workers s) (client s) (script s) (ids s) (subs s) (log s ++ [e]) (waited s).
Definition add_waited k s := Pool (tasks s) (args s) (mtx s) (task_mtx s) (waits s) (workers s) (client s) (script s) (ids s) (subs s) (log s) (waited s ++ [k]).

Definition set_worker (j : nat) (pc : wpc) (s : thread_pool_st) : thread_pool_st :=
  set_workers (<[j := pc]> (workers s)) s.

(** [p->tasks[id]] and [p->args[id]]; the indices the program uses are in range. *)
Definition task_at (i : nat) (s : thread_pool_st) : option (nat * F) := default None (tasks s !! i).
Definition arg_at (i : nat) (s : thread_pool_st) : option A := default None (args s !! i).
Definition wait_at (i : nat) (s : thread_pool_st) : bool := default false (waits s !! i).

(** ** The workers *)

Definition is_some {B} (o : option B) : bool := match o with Some _ => true | None => false end.

(** The scan of [find_task_lock], under [task_mtx]. *)
Definition find_task_lock (s : thread_pool_st) : option nat := find_idx is_some (tasks s).

(** The locked region of [run_task_lock]: take the task and its argument, and
    clear the slot. *)
Definition pop_task (i : nat) (s : thread_pool_st) : option (nat * F) * option A * thread_pool_st :=
  (task_at i s, arg_at i s, set_tasks (<[i := None]> (tasks s)) (<[i := None]> (args s)) s).

(** One step of worker [j]; [None] when it blocks. *)
Definition thread_pool_routine (j : nat) (s : thread_pool_st) : option thread_pool_st :=
  pc ← workers s !! j;
  match pc with
  | WLock => if mtx s then None else Some (set_worker j WFindLock (set_mtx true s))
  | WFindLock => if task_mtx s then None else Some (set_worker j WScan (set_task_mtx true s))
  | WScan =>
      match find_task_lock s with
      | Some i => Some (set_worker j (WRunLock i) (set_task_mtx false s))
      | None => Some (set_worker j WCondWait (set_task_mtx false s))
      end
  | WCondWait => Some (set_worker j WSleep (set_mtx false s))
  | WSleep => None
  | WReacq => if mtx s then None else Some (set_worker j WFindLock (set_mtx true s))
  | WRunLock i => if task_mtx s then None else Some (set_worker j (WPop i) (set_task_mtx true s))
  | WPop i =>
      let '(t, a, s1) := pop_task i s in
      let s2 := set_task_mtx false s1 in
      match t with
      | None => Some (set_worker j WLock s2)      (* returns without unlocking mtx *)
      | Some t => Some (set_worker j (WUnlock i t a) s2)
      end
  | WUnlock i t a => Some (set_worker j (WExec i t a) (set_mtx false s))
  | WExec i t a => Some (set_worker j (WRelease i t) (add_log (t.1, t.2, a) s))
  | WRelease i t => Some (set_worker j WLock (set_waits (<[i := false]> (waits s)) s))
  end.

(** A worker that [pthread_cond_broadcast] (or nothing at all) wakes. *)
Definition wake (pc : wpc) : wpc := match pc with WSleep => WReacq | _ => pc end.

Definition spurious (j : nat) (s : thread_pool_st) : option thread_pool_st :=
  pc ← workers s !! j; Some (set_worker j (wake pc) s).

(** ** The client *)

(** The scan of [tp_add_task], under [task_mtx]. *)
Definition free_slot (s : thread_pool_st) : option nat := find_idx (fun t => negb (is_some t)) (tasks s).

(** The steps of [tp_add_task(pool, f, a)] after the test of [initialized]. *)
Definition tp_add_task (pc : cpc) (s : thread_pool_st) : option thread_pool_st :=
  match pc with
  | CAddLock f a =>
      if task_mtx s then None else Some (set_client (CAddScan f a) (set_task_mtx true s))
  | CAddScan f a =>
      match free_slot s with
      | Some i => Some (set_client (CAddWaits i f a) s)
      | None => Some (set_client (CExit 1) (set_task_mtx false s))
      end
  | CAddWaits i f a =>
      if wait_at i s then None
      else Some (set_client (CAddStore i f a) (set_waits (<[i := true]> (waits s)) s))
  | CAddStore i f a =>
      Some (set_client (CBroadcast i) (set_task_mtx false (add_sub (f, a)
             (set_tasks (<[i := Some (length (subs s), f)]> (tasks s)) (<[i := Some a]> (args s)) s))))
  | CBroadcast i => Some (set_client CReady (add_id i (set_workers (map wake (workers s)) s)))
  | _ => None
  end.

(** The steps of [tp_wait_task(pool, id)]. *)
Definition tp_wait_task (pc : cpc) (s : thread_pool_st) : option thread_pool_st :=
  match pc with
  | CWaitLock k =>
      id ← ids s !! k;
      if wait_at id s then None
      else Some (set_client (CWaitUnlock id k) (set_waits (<[id := true]> (waits s)) s))
  | CWaitUnlock id k =>
      Some (set_client CReady (add_waited k (set_waits (<[id := false]> (waits s)) s)))
  | _ => None
  end.

(** One step of the client; [None] when it blocks or has ended. *)
Definition client_step (s : thread_pool_st) : option thread_pool_st :=
  match client s with
  | CReady =>
      match script s with
      | Add f a :: r => Some (set_client (CAddLock f a) (set_script r s))
      | Wait k :: r => Some (set_client (CWaitLock k) (set_script r s))
      | [] => Some (set_client (CExit 0) s)
      end
  | (CWaitLock _ | CWaitUnlock _ _) as pc => tp_wait_task pc s
  | pc => tp_add_task pc s
  end.

(** ** Schedules *)

Inductive label := LClient | LWorker (j : nat) | LSpurious (j : nat).

Definition do_step (l : label) (s : thread_pool_st) : option thread_pool_st :=
  match l with
  | LClient => client_step s
  | LWorker j => thread_pool_routine j s
  | LSpurious j => spurious j s
  end.

Definition step (s s' : thread_pool_st) : Prop := exists l, do_step l s = Some s'.

Fixpoint run (ls : list label) (s : thread_pool_st) : option thread_pool_st :=
  match ls with
  | [] => Some s
  | l :: ls' => s' ← do_step l s; run ls' s'
  end.

(** The pool after [tp_init(pool, threads)] on a pool whose [initialized] is
    zero, with a client that then runs [sc]. *)
Definition tp_init (threads : nat) (sc : list cmd) : thread_pool_st :=
  {| tasks := replicate MAX_TASKS None; args := replicate MAX_TASKS None;
     mtx := false; task_mtx := false; waits := replicate MAX_TASKS false;
     workers := replicate threads WLock; client := CReady; script := sc;
     ids := []; subs := []; log := []; waited := [] |}.

(** ** Counting *)

Definition b2n (b : bool) : nat := if b then 1 else 0.

(** How many workers of a list count for [f]. *)
Definition total (f : wpc -> nat) (l : list wpc) : nat := sum_list (map f l).

Lemma total_insert f l j pc pc' :
  l !! j = Some pc -> (total f (<[j := pc']> l) + f pc = total f l + f pc')%nat.
Proof.
  unfold total. revert j. induction l as [|x l IH]; intros [|j] H; simplify_eq/=; [lia|].
  specialize (IH j H). lia.
Qed.

Lemma total_ge f l j pc : l !! j = Some pc -> (f pc <= total f l)%nat.
Proof.
  unfold total. revert j. induction l as [|x l IH]; intros [|j] H; simplify_eq/=; [lia|].
  specialize (IH j H). lia.
Qed.

Lemma total_ge_two f l j j' pc pc' :
  j <> j' -> l !! j = Some pc -> l !! j' = Some pc' -> (f pc + f pc' <= total f l)%nat.
Proof.
  unfold total. revert j j'. induction l as [|x l IH]; intros [|j] [|j'] Hne H H'; simplify_eq/=.
  - pose proof (total_ge f l j' pc' H'). unfold total in *. lia.
  - pose proof (total_ge f l j pc H). unfold total in *. lia.
  - specialize (IH j j'). assert (j <> j') by congruence. specialize (IH ltac:(done) H H'). lia.
Qed.

Lemma total_pos f l : (0 < total f l)%nat -> exists j pc, l !! j = Some pc /\ (0 < f pc)%nat.
Proof.
  unfold total. induction l as [|x l IH]; simpl; [lia|]. intros H.
  destruct (decide (0 < f x)%nat) as [Hx|Hx]; [by exists 0%nat, x|].
  destruct IH as (j & pc & ? & ?); [lia|]. by exists (S j), pc.
Qed.

Lemma total_wake f l : (forall pc, f (wake pc) = f pc) -> total f (map wake l) = total f l.
Proof. intros H. unfold total. rewrite map_map. f_equal. by apply map_ext. Qed.

Lemma total_replicate f n pc : f pc = 0%nat -> total f (replicate n pc) = 0%nat.
Proof. intros H. unfold total. induction n; simpl; lia. Qed.

(** Who holds [mtx], and who holds [task_mtx]. *)
Definition h_mtx (pc : wpc) : nat :=
  match pc with WFindLock | WScan | WCondWait | WRunLock _ | WPop _ | WUnlock _ _ _ => 1 | _ => 0 end.
Definition h_tm (pc : wpc) : nat := match pc with WScan | WPop _ => 1 | _ => 0 end.
Definition c_tm (pc : cpc) : nat :=
  match pc with CAddScan _ _ | CAddWaits _ _ _ | CAddStore _ _ _ => 1 | _ => 0 end.

(** Who answers for the lock [waits[i]]. *)
Definition h_slot (i : nat) (pc : wpc) : nat :=
  match pc with
  | WUnlock i' _ _ | WExec i' _ _ | WRelease i' _ => if decide (i' = i) then 1 else 0
  | _ => 0
  end.
Definition c_slot (i : nat) (pc : cpc) : nat :=
  match pc with CAddStore i' _ _ | CWaitUnlock i' _ => if decide (i' = i) then 1 else 0 | _ => 0 end.
Definition p_slot (i : nat) (s : thread_pool_st) : nat := b2n (is_some (task_at i s)).

(** Where submission [n] is: waiting in the table, taken by a worker, executed. *)
Definition t_sub (n : nat) (o : option (nat * F)) : nat :=
  match o with Some t => if decide (t.1 = n) then 1 else 0 | None => 0 end.
Definition p_sub (n : nat) (l : list (option (nat * F))) : nat := sum_list (map (t_sub n) l).
Definition h_sub (n : nat) (pc : wpc) : nat :=
  match pc with WUnlock _ t _ | WExec _ t _ => if decide (t.1 = n) then 1 else 0 | _ => 0 end.
Definition l_sub (n : nat) (l : list (nat * F * option A)) : nat :=
  length (filter (fun e => e.1.1 = n) l).

Lemma p_sub_insert n l i o o' :
  l !! i = Some o -> (p_sub n (<[i := o']> l) + t_sub n o = p_sub n l + t_sub n o')%nat.
Proof.
  unfold p_sub. revert i. induction l as [|x l IH]; intros [|i] H; simplify_eq/=; [lia|].
  specialize (IH i H). lia.
Qed.

Lemma p_sub_pos n l : (0 < p_sub n l)%nat -> exists i f, l !! i = Some (Some (n, f)).
Proof.
  unfold p_sub. induction l as [|x l IH]; simpl; [lia|]. intros H.
  destruct x as [[m f]|]; simpl in H.
  - case_decide as Hm; [subst; by exists 0%nat, f|]. destruct IH as (i & g & ?); [lia|]. by exists (S i), g.
  - destruct IH as (i & g & ?); [lia|]. by exists (S i), g.
Qed.

Lemma l_sub_snoc n l e : l_sub n (l ++ [e]) = (l_sub n l + (if decide (e.1.1 = n) then 1 else 0))%nat.
Proof.
  unfold l_sub. rewrite filter_app, length_app. f_equal. rewrite filter_cons, filter_nil.
  by case_decide.
Qed.

Lemma l_sub_pos n l : (0 < l_sub n l)%nat -> exists f a, (n, f, a) ∈ l.
Proof.
  unfold l_sub. destruct (filter _ l) as [|[[m f] a] k] eqn:E; simpl; [lia|]. intros _.
  assert (Hin : (m, f, a) ∈ filter (fun e => e.1.1 = n) l) by (rewrite E; left).
  apply list_elem_of_filter in Hin as [Hm Hin]. simpl in Hm. subst. by exists f, a.
Qed.

(** ** The invariant *)

(** The slots that were returned, or are about to be, by number. *)
Definition slot_of (s : thread_pool_st) : list nat :=
  ids s ++ match client s with CBroadcast i => [i] | _ => [] end.

(** What a worker knows. *)
Definition w_ok (s : thread_pool_st) (pc : wpc) : Prop :=
  match pc with
  | WRunLock i | WPop i => exists t, tasks s !! i = Some (Some t)
  | WUnlock i t a | WExec i t a =>
      slot_of s !! t.1 = Some i /\ exists a', a = Some a' /\ subs s !! t.1 = Some (t.2, a')
  | WRelease i t => slot_of s !! t.1 = Some i
  | _ => True
  end.

(** What the client knows. *)
Definition c_ok (s : thread_pool_st) : Prop :=
  match client s with
  | CAddWaits i _ _ | CAddStore i _ _ => tasks s !! i = Some None
  | CWaitUnlock id k => ids s !! k = Some id /\ (0 < l_sub k (log s))%nat
  | _ => True
  end.

Record inv (s : thread_pool_st) : Prop := {
  i_tasks : length (tasks s) = MAX_TASKS;
  i_args : length (args s) = MAX_TASKS;
  i_waits : length (waits s) = MAX_TASKS;
  i_mtx : total h_mtx (workers s) = b2n (mtx s);
  i_tm : (total h_tm (workers s) + c_tm (client s) = b2n (task_mtx s))%nat;
  i_slot : forall i, (i < MAX_TASKS)%nat ->
    (p_slot i s + total (h_slot i) (workers s) + c_slot i (client s) = b2n (wait_at i s))%nat;
  i_sub : forall n, (p_sub n (tasks s) + total (h_sub n) (workers s) + l_sub n (log s) =
                     if decide (n < length (subs s)) then 1 else 0)%nat;
  i_ids : length (slot_of s) = length (subs s);
  i_idlt : Forall (fun i => (i < MAX_TASKS)%nat) (slot_of s);
  i_pend : forall i n f, tasks s !! i = Some (Some (n, f)) ->
    slot_of s !! n = Some i /\ exists a, args s !! i = Some (Some a) /\ subs s !! n = Some (f, a);
  i_work : forall j pc, workers s !! j = Some pc -> w_ok s pc;
  i_client : c_ok s;
  i_log : forall n f a, (n, f, a) ∈ log s -> exists a', a = Some a' /\ subs s !! n = Some (f, a');
  i_waited : forall k, k ∈ waited s -> (0 < l_sub k (log s))%nat }.

Lemma p_sub_replicate n k : p_sub n (replicate k None) = 0%nat.
Proof. unfold p_sub. induction k; simpl; lia. Qed.

Lemma task_at_replicate i k (s : thread_pool_st) : tasks s = replicate k None -> task_at i s = None.
Proof.
  intros H. unfold task_at. rewrite H. destruct (replicate k None !! i) as [o|] eqn:E; [|done].
  by apply lookup_replicate in E as [-> _].
Qed.

Lemma inv_init threads sc : inv (tp_init threads sc).
Proof.
  split; cbn [tp_init tasks args waits mtx task_mtx workers client script ids subs log waited];
    try apply length_replicate; try done.
  - by apply total_replicate.
  - by rewrite total_replicate.
  - intros i Hi. unfold p_slot. rewrite (task_at_replicate i MAX_TASKS), total_replicate by done.
    unfold wait_at. cbn [waits tp_init]. rewrite lookup_replicate_2 by done. done.
  - intros n. rewrite p_sub_replicate, total_replicate by done. by rewrite decide_False by (simpl; lia).
  - intros i n f H. by apply lookup_replicate in H as [? _].
  - intros j pc H. by apply lookup_replicate in H as [-> _].
  - intros n f a H. by apply elem_of_nil in H.
  - intros k H. by apply elem_of_nil in H.
Qed.

(** ** The workers keep it *)

Lemma w_ok_same s s' pc :
  tasks s' = tasks s -> slot_of s' = slot_of s -> subs s' = subs s -> w_ok s pc -> w_ok s' pc.
Proof. intros H1 H2 H3. unfold w_ok. by rewrite H1, H2, H3. Qed.

(** A step of worker [j] that only takes or gives back [mtx] and [task_mtx]. *)
Lemma inv_lock_step s s' j pc pc' :
  inv s -> workers s !! j = Some pc -> workers s' = <[j := pc']> (workers s) ->
  tasks s' = tasks s /\ args s' = args s /\ waits s' = waits s /\ client s' = client s /\
  ids s' = ids s /\ subs s' = subs s /\ log s' = log s /\ waited s' = waited s ->
  (h_mtx pc' + b2n (mtx s) = h_mtx pc + b2n (mtx s'))%nat ->
  (h_tm pc' + b2n (task_mtx s) = h_tm pc + b2n (task_mtx s'))%nat ->
  (forall i, h_slot i pc' = h_slot i pc) -> (forall n, h_sub n pc' = h_sub n pc) ->
  w_ok s pc' -> inv s'.
Proof.
  intros [] Hj Hw (Ht & Ha & Hwt & Hc & Hi & Hs & Hl & Hwd) Hm Htm Hsl Hsb Hok.
  assert (Hso : slot_of s' = slot_of s) by (unfold slot_of; by rewrite Hi, Hc).
  split; rewrite ?Ht, ?Ha, ?Hwt, ?Hc, ?Hs, ?Hl, ?Hwd, ?Hso, ?Hw; try done.
  - pose proof (total_insert h_mtx _ j pc pc' Hj). lia.
  - pose proof (total_insert h_tm _ j pc pc' Hj). lia.
  - intros i Hi'. specialize (i_slot0 i Hi'). pose proof (total_insert (h_slot i) _ j pc pc' Hj).
    specialize (Hsl i). unfold p_slot, task_at, wait_at in *. rewrite Ht, Hwt. lia.
  - intros n. specialize (i_sub0 n). pose proof (total_insert (h_sub n) _ j pc pc' Hj).
    specialize (Hsb n). lia.
  - intros j' q Hq. eapply w_ok_same; [done..|]. destruct (decide (j' = j)) as [->|].
    + rewrite list_lookup_insert_eq in Hq by (by eapply lookup_lt_Some). by simplify_eq.
    + rewrite list_lookup_insert_ne in Hq by done. by eapply i_work0.
  - unfold c_ok in *. by rewrite Hc, Ht, Hi, Hl.
Qed.

(** A task that was found is still there when it is taken: nobody else holds
    [mtx]. *)
Lemma inv_pop s j i :
  inv s -> workers s !! j = Some (WPop i) ->
  exists t a, pop_task i s = (Some t, Some a, set_tasks (<[i := None]> (tasks s)) (<[i := None]> (args s)) s) /\
    inv (set_worker j (WUnlock i t (Some a)) (set_task_mtx false (set_tasks (<[i := None]> (tasks s)) (<[i := None]> (args s)) s))).
Proof.
  intros Hinv Hj. pose proof Hinv as []. destruct (i_work0 j _ Hj) as [[n f] Ht].
  destruct (i_pend0 i n f Ht) as (Hso & a & Ha & Hsub). exists (n, f), a. split.
  { unfold pop_task, task_at, arg_at. by rewrite Ht, Ha. }
  assert (Hi : (i < length (tasks s))%nat) by (by eapply lookup_lt_Some).
  assert (Htm : task_mtx s = true).
  { pose proof (total_ge h_tm _ j _ Hj). simpl in *. destruct (task_mtx s); simpl in *; [done|lia]. }
  split; cbn [set_worker set_workers set_task_mtx set_tasks tasks args mtx task_mtx waits workers client script ids subs log waited];
    rewrite ?length_insert; try done.
  - pose proof (total_insert h_mtx _ j _ (WUnlock i (n, f) (Some a)) Hj). simpl in *. lia.
  - pose proof (total_insert h_tm _ j _ (WUnlock i (n, f) (Some a)) Hj). rewrite Htm in *. simpl in *. lia.
  - intros k Hk. specialize (i_slot0 k Hk). pose proof (total_insert (h_slot k) _ j _ (WUnlock i (n, f) (Some a)) Hj) as Hx.
    unfold p_slot, task_at, wait_at in *. cbn [set_worker set_workers set_task_mtx set_tasks tasks waits] in *. cbn [h_slot] in Hx.
    destruct (decide (i = k)) as [<-|Hik].
    + rewrite list_lookup_insert_eq by done. rewrite Ht in i_slot0.
      cbn [default from_option id is_some b2n] in *. lia.
    + rewrite list_lookup_insert_ne by done. lia.
  - intros m. specialize (i_sub0 m). pose proof (total_insert (h_sub m) _ j _ (WUnlock i (n, f) (Some a)) Hj) as Hx.
    pose proof (p_sub_insert m (tasks s) i _ None Ht) as Hy. cbn [h_sub t_sub fst] in Hx, Hy. lia.
  - intros k m g Hk. rewrite list_lookup_insert in Hk. case_decide as Hd; [done|].
    destruct (i_pend0 k m g Hk) as (? & b & Hb & ?). split; [done|]. exists b. split; [|done].
    rewrite list_lookup_insert_ne; [done|]. intros ->. apply Hd. split; [done|]. by eapply lookup_lt_Some.
  - intros j' q Hq. destruct (decide (j' = j)) as [->|Hne].
    + rewrite list_lookup_insert_eq in Hq by (by eapply lookup_lt_Some). simplify_eq. split; [done|]. by exists a.
    + rewrite list_lookup_insert_ne in Hq by done. specialize (i_work0 j' q Hq).
      pose proof (total_ge_two h_mtx _ j j' _ q (not_eq_sym Hne) Hj Hq) as H2.
      assert (h_mtx q = 0)%nat by (destruct (mtx s); simpl in *; lia). by destruct q.
  - unfold c_ok in *. cbn [set_worker set_workers set_task_mtx set_tasks client tasks ids log].
    destruct (client s); try done; rewrite list_lookup_insert; by case_decide.
Qed.

(** Executing a task logs a submission that was not executed before. *)
Lemma inv_exec s j i t a :
  inv s -> workers s !! j = Some (WExec i t a) ->
  inv (set_worker j (WRelease i t) (add_log (t.1, t.2, a) s)).
Proof.
  intros Hinv Hj. pose proof Hinv as []. destruct (i_work0 j _ Hj) as (Hso & a' & Ha & Hsub).
  assert (Hle : forall k, (l_sub k (log s) <= l_sub k (log s ++ [(t.1, t.2, a)]))%nat)
    by (intros k; rewrite l_sub_snoc; lia).
  split; cbn [set_worker set_workers add_log tasks args mtx task_mtx waits workers client script ids subs log waited];
    try done.
  - pose proof (total_insert h_mtx _ j _ (WRelease i t) Hj). simpl in *. lia.
  - pose proof (total_insert h_tm _ j _ (WRelease i t) Hj). simpl in *. lia.
  - intros k Hk. specialize (i_slot0 k Hk). pose proof (total_insert (h_slot k) _ j _ (WRelease i t) Hj) as Hx.
    cbn [h_slot] in Hx. unfold p_slot, task_at, wait_at in *. simpl. lia.
  - intros m. specialize (i_sub0 m). pose proof (total_insert (h_sub m) _ j _ (WRelease i t) Hj) as Hx.
    rewrite l_sub_snoc. cbn [h_sub fst] in *. lia.
  - intros j' q Hq. destruct (decide (j' = j)) as [->|Hne].
    + rewrite list_lookup_insert_eq in Hq by (by eapply lookup_lt_Some). by simplify_eq.
    + rewrite list_lookup_insert_ne in Hq by done. by apply (i_work0 j').
  - unfold c_ok in *. cbn [set_worker set_workers add_log client tasks ids log].
    destruct (client s); try done. destruct i_client0. split; [done|]. specialize (Hle k). lia.
  - intros n f b. rewrite elem_of_app, list_elem_of_singleton. intros [Hin|Heq]; [by apply i_log0|].
    simplify_eq. by exists a'.
  - intros k Hk. specialize (i_waited0 k Hk). specialize (Hle k). lia.
Qed.

(** Releasing a slot's lock. *)
Lemma inv_release s j i t :
  inv s -> workers s !! j = Some (WRelease i t) ->
  inv (set_worker j WLock (set_waits (<[i := false]> (waits s)) s)).
Proof.
  intros Hinv Hj. pose proof Hinv as []. pose proof (i_work0 j _ Hj) as Hso. simpl in Hso.
  assert (Hi : (i < MAX_TASKS)%nat) by (eapply Forall_lookup_1 in i_idlt0; [|exact Hso]; done).
  split; cbn [set_worker set_workers set_waits tasks args mtx task_mtx waits workers client script ids subs log waited];
    rewrite ?length_insert; try done.
  - pose proof (total_insert h_mtx _ j _ WLock Hj). simpl in *. lia.
  - pose proof (total_insert h_tm _ j _ WLock Hj). simpl in *. lia.
  - intros k Hk. specialize (i_slot0 k Hk). pose proof (total_insert (h_slot k) _ j _ WLock Hj) as Hx.
    pose proof (total_ge (h_slot k) _ j _ Hj) as Hge. cbn [h_slot] in Hx, Hge.
    unfold p_slot, task_at, wait_at in *. cbn [set_worker set_workers set_waits tasks waits].
    destruct (decide (i = k)) as [<-|Hik].
    + rewrite list_lookup_insert_eq by lia. destruct (default false (waits s !! i)); cbn [default b2n from_option id] in *; lia.
    + rewrite list_lookup_insert_ne by done. lia.
  - intros m. specialize (i_sub0 m). pose proof (total_insert (h_sub m) _ j _ WLock Hj) as Hx.
    cbn [h_sub] in *. lia.
  - intros j' q Hq. destruct (decide (j' = j)) as [->|Hne].
    + rewrite list_lookup_insert_eq in Hq by (by eapply lookup_lt_Some). by simplify_eq.
    + rewrite list_lookup_insert_ne in Hq by done. by apply (i_work0 j').
Qed.

Lemma inv_worker s s' j : inv s -> thread_pool_routine j s = Some s' -> inv s'.
Proof.
  intros Hinv Hs. pose proof Hinv as []. unfold thread_pool_routine in Hs.
  apply bind_Some in Hs as (pc & Hj & Hs).
  pose proof (total_ge h_mtx _ j _ Hj) as Hm. pose proof (total_ge h_tm _ j _ Hj) as Htm.
  destruct pc as [ | | | | | |i|i|i t a|i t a|i t].
  - destruct (mtx s) eqn:Em; simplify_eq. eapply (inv_lock_step s); try done; simpl; rewrite ?Em; done.
  - destruct (task_mtx s) eqn:Em; simplify_eq. eapply (inv_lock_step s); try done; simpl; rewrite ?Em; done.
  - assert (task_mtx s = true) as Em by (destruct (task_mtx s); simpl in *; [done|lia]).
    unfold find_task_lock in Hs. destruct (find_idx is_some (tasks s)) as [i|] eqn:Ef; simplify_eq.
    + eapply (inv_lock_step s); try done; simpl; rewrite ?Em; try done.
      apply find_idx_Some in Ef as [(o & Ho & Hsome) _]. destruct o as [t|]; [|done]. by exists t.
    + eapply (inv_lock_step s); try done; simpl; rewrite ?Em; done.
  - assert (mtx s = true) as Em by (destruct (mtx s); simpl in *; [done|lia]). simplify_eq.
    eapply (inv_lock_step s); try done; simpl; rewrite ?Em; done.
  - done.
  - destruct (mtx s) eqn:Em; simplify_eq. eapply (inv_lock_step s); try done; simpl; rewrite ?Em; done.
  - destruct (task_mtx s) eqn:Em; simplify_eq. eapply (inv_lock_step s); try done; simpl; rewrite ?Em; try done.
    apply (i_work0 j _ Hj).
  - destruct (inv_pop s j i Hinv Hj) as (t & a & Hpop & Hinv'). rewrite Hpop in Hs. simpl in Hs.
    injection Hs as <-. exact Hinv'.
  - assert (mtx s = true) as Em by (destruct (mtx s); simpl in *; [done|lia]). simplify_eq.
    eapply (inv_lock_step s); try done; simpl; rewrite ?Em; try done. apply (i_work0 j _ Hj).
  - simplify_eq. by apply inv_exec.
  - simplify_eq. by eapply inv_release.
Qed.

Lemma inv_spurious s s' j : inv s -> spurious j s = Some s' -> inv s'.
Proof.
  intros Hinv (pc & Hj & Hs)%bind_Some. simplify_eq. pose proof (i_work s Hinv j pc Hj) as Hok.
  eapply (inv_lock_step s); try done; try (by destruct pc); by intros ?; destruct pc.
Qed.

(** ** The client keeps it *)

(** A step of the client that changes locks only. *)
Lemma inv_client_lock s s' :
  inv s ->
  tasks s' = tasks s /\ args s' = args s /\ mtx s' = mtx s /\ workers s' = workers s /\
  slot_of s' = slot_of s /\ subs s' = subs s /\ log s' = log s /\ length (waits s') = MAX_TASKS ->
  (c_tm (client s') + b2n (task_mtx s) = c_tm (client s) + b2n (task_mtx s'))%nat ->
  (forall i, (i < MAX_TASKS)%nat ->
     c_slot i (client s') + b2n (wait_at i s) = c_slot i (client s) + b2n (wait_at i s'))%nat ->
  c_ok s' -> (forall k, k ∈ waited s' -> (0 < l_sub k (log s))%nat) -> inv s'.
Proof.
  intros [] (Ht & Ha & Hm & Hw & Hso & Hs & Hl & Hwl) Htm Hsl Hok Hwd.
  split; rewrite ?Ht, ?Ha, ?Hm, ?Hw, ?Hs, ?Hl, ?Hso; try done.
  - lia.
  - intros i Hi. specialize (i_slot0 i Hi). specialize (Hsl i Hi). unfold p_slot, task_at in *. rewrite Ht. lia.
  - intros j pc Hj. eapply w_ok_same; [done..|]. by eapply i_work0.
Qed.

(** Changing one lock of [waits]. *)
Lemma wait_at_insert i k b s :
  (i < length (waits s))%nat ->
  wait_at k (set_waits (<[i := b]> (waits s)) s) = if decide (i = k) then b else wait_at k s.
Proof.
  intros Hi. unfold wait_at. cbn [set_waits waits]. case_decide; subst.
  - by rewrite list_lookup_insert_eq.
  - by rewrite list_lookup_insert_ne.
Qed.

(** When the lock of a returned slot is free, its task has been executed. *)
Lemma inv_done s k id :
  inv s -> ids s !! k = Some id -> client s = CWaitLock k -> wait_at id s = false ->
  (0 < l_sub k (log s))%nat.
Proof.
  intros [] Hid Hc Hw.
  assert (Hso : slot_of s !! k = Some id) by (unfold slot_of; by apply lookup_app_l_Some).
  assert (Hlt : (id < MAX_TASKS)%nat) by (by eapply Forall_lookup_1 in i_idlt0).
  specialize (i_slot0 id Hlt). rewrite Hw, Hc in i_slot0. cbn [b2n c_slot] in i_slot0.
  specialize (i_sub0 k).
  rewrite decide_True in i_sub0 by (rewrite <-i_ids0; by eapply lookup_lt_Some).
  assert (p_sub k (tasks s) = 0)%nat.
  { destruct (decide (0 < p_sub k (tasks s))%nat) as [Hp|]; [|lia].
    apply p_sub_pos in Hp as (i & f & Hi). destruct (i_pend0 i k f Hi) as [Hso' _].
    simplify_eq. unfold p_slot, task_at in i_slot0. rewrite Hi in i_slot0. simpl in i_slot0. lia. }
  assert (total (h_sub k) (workers s) = 0)%nat; [|lia].
  destruct (decide (0 < total (h_sub k) (workers s))%nat) as [Hp|]; [|lia].
  apply total_pos in Hp as (j & pc & Hj & Hpos). pose proof (i_work0 j pc Hj) as Hok.
  pose proof (total_ge (h_slot id) _ j pc Hj) as Hge.
  destruct pc as [ | | | | | | | |i t a|i t a|]; cbn [h_sub h_slot] in *; try lia;
    repeat case_decide; try lia; subst; destruct Hok as [Hso' _]; by simplify_eq.
Qed.

(** Storing a task in a free slot gives it the next number. *)
Lemma inv_store s i f a :
  inv s -> client s = CAddStore i f a ->
  inv (set_client (CBroadcast i) (set_task_mtx false (add_sub (f, a)
         (set_tasks (<[i := Some (length (subs s), f)]> (tasks s)) (<[i := Some a]> (args s)) s)))).
Proof.
  intros Hinv Hc. pose proof Hinv as []. unfold c_ok in i_client0. rewrite Hc in *.
  assert (Hi : (i < length (tasks s))%nat) by (by eapply lookup_lt_Some).
  assert (Hso : slot_of s = ids s) by (unfold slot_of; rewrite Hc; apply app_nil_r). rewrite Hso in *.
  assert (Htm : task_mtx s = true) by (destruct (task_mtx s); simpl in *; [done|lia]).
  split; unfold slot_of, c_ok; cbn [set_client set_task_mtx add_sub set_tasks tasks args mtx task_mtx waits workers client script ids subs log waited c_tm c_slot];
    rewrite ?length_insert, ?length_app; simpl length; try done.
  - rewrite Htm in *. simpl in *. lia.
  - intros k Hk. specialize (i_slot0 k Hk). unfold p_slot, task_at, wait_at in *. cbn [c_slot] in i_slot0.
    cbn [set_client set_task_mtx add_sub set_tasks tasks waits].
    destruct (decide (i = k)) as [<-|Hik].
    + rewrite list_lookup_insert_eq by done. rewrite i_client0 in i_slot0.
      cbn [default from_option id is_some b2n] in *. lia.
    + rewrite list_lookup_insert_ne by done. lia.
  - intros n. specialize (i_sub0 n). pose proof (p_sub_insert n _ i _ (Some (length (subs s), f)) i_client0) as Hx.
    cbn [t_sub fst] in Hx. repeat case_decide; lia.
  - lia.
  - apply Forall_app. split; [done|]. apply Forall_singleton. by rewrite <-i_tasks0.
  - intros k n g Hk. destruct (decide (k = i)) as [->|Hki].
    + rewrite list_lookup_insert_eq in Hk by done. simplify_eq. rewrite <-i_ids0 at 1.
      rewrite !lookup_app_r, !Nat.sub_diag by lia. split; [done|]. exists a.
      split; [|done]. apply list_lookup_insert_eq. by rewrite i_args0, <-i_tasks0.
    + rewrite list_lookup_insert_ne in Hk by done. destruct (i_pend0 k n g Hk) as (? & b & ? & ?).
      split; [by apply lookup_app_l_Some|]. exists b. rewrite list_lookup_insert_ne by done.
      split; [done|by apply lookup_app_l_Some].
  - intros j pc Hj. specialize (i_work0 j pc Hj). unfold w_ok in *. rewrite Hso in i_work0.
    unfold slot_of. cbn [set_client set_task_mtx add_sub set_tasks tasks ids client subs].
    destruct pc as [ | | | | | |k|k|k t b|k t b|k t]; try done.
    + destruct i_work0 as [t Ht]. exists t. rewrite list_lookup_insert_ne; [done|congruence].
    + destruct i_work0 as [t Ht]. exists t. rewrite list_lookup_insert_ne; [done|congruence].
    + destruct i_work0 as (? & b' & ? & ?). split; [by apply lookup_app_l_Some|].
      exists b'. split; [done|by apply lookup_app_l_Some].
    + destruct i_work0 as (? & b' & ? & ?). split; [by apply lookup_app_l_Some|].
      exists b'. split; [done|by apply lookup_app_l_Some].
    + by apply lookup_app_l_Some.
  - intros n g b Hin. destruct (i_log0 n g b Hin) as (b' & ? & ?). exists b'. split; [done|by apply lookup_app_l_Some].
Qed.

Lemma inv_broadcast s i :
  inv s -> client s = CBroadcast i ->
  inv (set_client CReady (add_id i (set_workers (map wake (workers s)) s))).
Proof.
  intros Hinv Hc. pose proof Hinv as []. rewrite Hc in *.
  assert (Hso : slot_of (set_client CReady (add_id i (set_workers (map wake (workers s)) s))) = slot_of s).
  { unfold slot_of. cbn [set_client add_id set_workers ids client]. rewrite Hc. apply app_nil_r. }
  split; rewrite ?Hso; cbn [set_client add_id set_workers tasks args mtx task_mtx waits workers client script ids subs log waited c_tm c_slot];
    try done.
  - by rewrite total_wake by (by intros []).
  - by rewrite total_wake by (by intros []).
  - intros k Hk. rewrite total_wake by (by intros []). by apply i_slot0.
  - intros n. rewrite total_wake by (by intros []). apply i_sub0.
  - intros j pc Hj. rewrite list_lookup_fmap in Hj. apply fmap_Some in Hj as (q & Hq & ->).
    apply (w_ok_same s); [done|done|done|]. specialize (i_work0 j q Hq). by destruct q.
Qed.

Lemma inv_client_step s s' : inv s -> client_step s = Some s' -> inv s'.
Proof.
  intros Hinv Hs. pose proof Hinv as []. unfold client_step in Hs.
  assert (Hn : forall pc, client s = pc -> match pc with CBroadcast _ => False | _ => True end ->
             slot_of s = ids s).
  { intros pc Hpc Hb. unfold slot_of. rewrite Hpc. destruct pc; try done; apply app_nil_r. }
  destruct (client s) as [ |f a|f a|i f a|i f a|i|k|id k|code] eqn:Hc; cbn [tp_add_task tp_wait_task] in Hs.
  - destruct (script s) as [|[f a|k] r]; simplify_eq; apply (inv_client_lock s); try done;
      try (intros; cbn [set_client client]; by rewrite Hc); cbn [set_client set_script client]; rewrite ?Hc; try done;
      split_and!; try done; unfold slot_of; simpl; by rewrite Hc.
  - destruct (task_mtx s) eqn:Em; simplify_eq. apply (inv_client_lock s); try done.
    + split_and!; try done. unfold slot_of. simpl. by rewrite Hc.
    + cbn [set_client client set_task_mtx task_mtx]. by rewrite Hc, Em.
    + intros. cbn [set_client client]. by rewrite Hc.
  - destruct (task_mtx s) eqn:Em; [|simpl in *; lia]. unfold free_slot in Hs.
    destruct (find_idx _ (tasks s)) as [i|] eqn:Ef; simplify_eq; apply (inv_client_lock s); try done;
      try (intros; cbn [set_client client set_task_mtx task_mtx]; by rewrite ?Hc, ?Em);
      try (split_and!; try done; unfold slot_of; simpl; by rewrite Hc).
    apply find_idx_Some in Ef as [(o & Ho & Hsome) _]. unfold c_ok. cbn [set_client client tasks].
    by destruct o.
  - unfold c_ok in i_client0. rewrite Hc in i_client0.
    assert (Hi : (i < length (waits s))%nat) by (rewrite i_waits0, <-i_tasks0; by eapply lookup_lt_Some).
    destruct (wait_at i s) eqn:Ew; simplify_eq. apply (inv_client_lock s); try done.
    + split_and!; try done; [|by simpl; rewrite length_insert]. unfold slot_of. simpl. by rewrite Hc.
    + cbn [set_client client]. by rewrite Hc.
    + intros k Hk. change (wait_at k (set_client ?c ?x)) with (wait_at k x).
      rewrite Hc. cbn [set_client client c_slot]. setoid_rewrite (wait_at_insert i k true s Hi).
      case_decide; subst; [by rewrite Ew|done].
  - simplify_eq. by apply inv_store.
  - simplify_eq. by apply inv_broadcast.
  - apply bind_Some in Hs as (id & Hid & Hs). destruct (wait_at id s) eqn:Ew; simplify_eq.
    assert (Hi : (id < length (waits s))%nat).
    { rewrite i_waits0. rewrite (Hn _ eq_refl I) in i_idlt0. by eapply Forall_lookup_1 in i_idlt0. }
    apply (inv_client_lock s); try done.
    + split_and!; try done; [|by simpl; rewrite length_insert]. unfold slot_of. simpl. by rewrite Hc.
    + cbn [set_client client]. by rewrite Hc.
    + intros k' Hk. rewrite Hc. cbn [set_client client c_slot].
      setoid_rewrite (wait_at_insert id k' true s Hi). case_decide; subst; [by rewrite Ew|done].
    + split; [done|]. by apply (inv_done s k id).
  - unfold c_ok in i_client0. rewrite Hc in i_client0. destruct i_client0 as [Hid Hlog]. simplify_eq.
    assert (Hi : (id < MAX_TASKS)%nat).
    { rewrite (Hn _ eq_refl I) in i_idlt0. by eapply Forall_lookup_1 in i_idlt0. }
    apply (inv_client_lock s); try done.
    + split_and!; try done; [|by simpl; rewrite length_insert]. unfold slot_of. simpl. by rewrite Hc.
    + cbn [set_client client]. by rewrite Hc.
    + intros k' Hk. specialize (i_slot0 k' Hk). cbn [c_slot] in i_slot0. rewrite Hc. cbn [set_client client c_slot].
      setoid_rewrite (wait_at_insert id k' false s); [|by rewrite i_waits0].
      case_decide; subst; [|done]. destruct (wait_at k' s); simpl in *; lia.
    + intros k'. cbn [set_client add_waited waited]. rewrite elem_of_app, list_elem_of_singleton.
      intros [?| ->]; [by apply i_waited0|done].
  - done.
Qed.

Lemma inv_step s s' : inv s -> step s s' -> inv s'.
Proof.
  intros Hinv [[ |j|j] Hs]; simpl in Hs.
  - by eapply inv_client_step.
  - by eapply inv_worker.
  - by eapply inv_spurious.
Qed.

Lemma inv_run ls s s' : inv s -> run ls s = Some s' -> inv s'.
Proof.
  revert s. induction ls as [|l ls IH]; intros s Hinv Hr; simplify_eq/=; [done|].
  apply bind_Some in Hr as (s1 & H1 & Hr). eapply IH; [|done]. eapply inv_step; [done|]. by exists l.
Qed.

(** ** The client's script *)

Definition adds_of (l : list cmd) : list (F * A) :=
  omap (fun c => match c with Add f a => Some (f, a) | Wait _ => None end) l.
Definition waits_of (l : list cmd) : list nat :=
  omap (fun c => match c with Add _ _ => None | Wait k => Some k end) l.

Definition cur_add (pc : cpc) : list (F * A) :=
  match pc with
  | CAddLock f a | CAddScan f a | CAddWaits _ f a | CAddStore _ f a => [(f, a)]
  | _ => []
  end.
Definition cur_wait (pc : cpc) : list nat :=
  match pc with CWaitLock k | CWaitUnlock _ k => [k] | _ => [] end.

(** What was done, is being done and is left to do is the script, unless the
    client gave up on a full table. *)
Definition progress (sc : list cmd) (s : thread_pool_st) : Prop :=
  client s = CExit 1 \/
  (subs s ++ cur_add (client s) ++ adds_of (script s) = adds_of sc /\
   waited s ++ cur_wait (client s) ++ waits_of (script s) = waits_of sc /\
   (client s = CExit 0 -> script s = [])).

Lemma progress_same sc s s' :
  subs s' = subs s -> client s' = client s -> script s' = script s -> waited s' = waited s ->
  progress sc s -> progress sc s'.
Proof. intros H1 H2 H3 H4. unfold progress. by rewrite H1, H2, H3, H4. Qed.

Lemma routine_frame j s s' :
  thread_pool_routine j s = Some s' ->
  subs s' = subs s /\ client s' = client s /\ script s' = script s /\ waited s' = waited s /\ ids s' = ids s.
Proof.
  intros (pc & Hj & Hs)%bind_Some. destruct pc; cbn [pop_task] in Hs; repeat case_match; by simplify_eq.
Qed.

Lemma progress_step sc s s' : progress sc s -> step s s' -> progress sc s'.
Proof.
  intros Hp [[ |j|j] Hs]; simpl in Hs.
  - unfold client_step in Hs. destruct Hp as [Hp|(H1 & H2 & H3)]; [by rewrite Hp in Hs|].
    destruct (client s) as [ |f a|f a|i f a|i f a|i|k|id k|code] eqn:Hc; cbn [tp_add_task tp_wait_task] in Hs;
      cbn [cur_add cur_wait app] in H1, H2.
    + destruct (script s) as [|[f a|k] r] eqn:Er; simplify_eq; right; simpl; rewrite ?Er in *; done.
    + destruct (task_mtx s); simplify_eq. by right.
    + destruct (free_slot s); simplify_eq; [by right|by left].
    + destruct (wait_at i s); simplify_eq. by right.
    + simplify_eq. right. simpl. by rewrite <-app_assoc.
    + simplify_eq. by right.
    + apply bind_Some in Hs as (id & _ & Hs). destruct (wait_at id s); simplify_eq. by right.
    + simplify_eq. right. simpl. by rewrite <-app_assoc.
    + done.
  - destruct (routine_frame j s s' Hs) as (? & ? & ? & ? & ?). by eapply progress_same.
  - apply bind_Some in Hs as (pc & _ & ?). simplify_eq. by eapply progress_same.
Qed.

(** ** What is executed *)

Lemma l_sub_nodup l : (forall n, l_sub n l <= 1)%nat -> NoDup (map (fun e : nat * F * option A => e.1.1) l).
Proof.
  induction l as [|e l IH]; intros H; simpl; [constructor|]. constructor.
  - intros (e' & Heq & Hin)%list_elem_of_fmap. specialize (H (e.1.1)). unfold l_sub in H.
    rewrite filter_cons_True in H by done. simpl in H.
    assert (e' ∈ filter (fun e0 => e0.1.1 = e.1.1) l) as Hin' by (apply list_elem_of_filter; done).
    destruct (filter _ l); [by apply elem_of_nil in Hin'|]. simpl in H. lia.
  - apply IH. intros n. specialize (H n). unfold l_sub in *. rewrite filter_cons in H.
    case_decide; simpl in H; lia.
Qed.

Lemma inv_l_sub s n : inv s -> (l_sub n (log s) <= 1)%nat.
Proof. intros []. specialize (i_sub0 n). case_decide; lia. Qed.

Lemma run_ok ls threads sc s :
  run ls (tp_init threads sc) = Some s -> inv s /\ progress sc s.
Proof.
  intros Hr. split; [eapply inv_run; [apply inv_init|done]|].
  assert (H0 : progress sc (tp_init threads sc)) by (by right).
  revert H0 Hr. generalize (tp_init threads sc). induction ls as [|l ls IH]; intros s0 H0 Hr; simplify_eq/=; [done|].
  apply bind_Some in Hr as (s1 & H1 & Hr). eapply IH; [|done]. eapply progress_step; [done|]. by exists l.
Qed.

(** C2: The pool is safe for every number of workers, every client and every
    schedule: a task is executed at most once; what is executed is a task that
    was added, with the argument it was added with; [tp_wait_task] returns only
    after the task it waits for was executed; and no two workers are inside a
    region guarded by [mtx], nor two threads inside one guarded by [task_mtx]. *)
Theorem tp_executes_once threads sc ls s :
  run ls (tp_init threads sc) = Some s ->
  NoDup (map (fun e => e.1.1) (log s)) /\
  (forall n f a, (n, f, a) ∈ log s -> exists a', a = Some a' /\ subs s !! n = Some (f, a')) /\
  (forall k, k ∈ waited s -> exists f a, (k, f, a) ∈ log s) /\
  (total h_mtx (workers s) <= 1)%nat /\ (total h_tm (workers s) + c_tm (client s) <= 1)%nat.
Proof.
  intros [Hinv _]%run_ok. pose proof Hinv as []. split_and!.
  - apply l_sub_nodup. intros n. by apply inv_l_sub.
  - done.
  - intros k Hk. by apply l_sub_pos, i_waited0.
  - rewrite i_mtx0. destruct (mtx s); simpl; lia.
  - rewrite i_tm0. destruct (task_mtx s); simpl; lia.
Qed.

(** All tasks of a script, numbered. *)
Definition numbered (l : list (F * A)) : list (nat * F * option A) :=
  imap (fun n t => (n, t.1, Some t.2)) l.

Lemma elem_of_numbered l n f a : (n, f, a) ∈ numbered l <-> exists a', a = Some a' /\ l !! n = Some (f, a').
Proof.
  unfold numbered. rewrite elem_of_lookup_imap. split.
  - intros (i & [g b] & Heq & Hi). simplify_eq/=. by exists b.
  - intros (a' & -> & Hl). by exists n, (f, a').
Qed.

Lemma NoDup_numbered l : NoDup (numbered l).
Proof.
  apply NoDup_alt. intros i j x Hi Hj. unfold numbered in *. rewrite list_lookup_imap in Hi, Hj.
  apply fmap_Some in Hi as (t & _ & ->), Hj as (t' & _ & ?). by simplify_eq.
Qed.

(** A client that waits for all its tasks and ends normally has had every one of
    them executed exactly once. *)
Lemma run_complete threads sc ls s :
  run ls (tp_init threads sc) = Some s -> client s = CExit 0 ->
  (forall n, (n < length (adds_of sc))%nat -> n ∈ waits_of sc) ->
  log s ≡ₚ numbered (adds_of sc).
Proof.
  intros [Hinv Hp]%run_ok Hc Hall. pose proof Hinv as [].
  destruct Hp as [?|(H1 & H2 & H3)]; [congruence|]. rewrite (H3 Hc), Hc in H1, H2. simpl in H1, H2.
  rewrite app_nil_r in H1, H2. apply NoDup_Permutation.
  - eapply NoDup_fmap_1. apply l_sub_nodup. intros n. by apply inv_l_sub.
  - apply NoDup_numbered.
  - intros [[n f] a]. rewrite elem_of_numbered, <-H1. split; [by apply i_log0|].
    intros (a' & -> & Hs). assert (Hn : n ∈ waited s).
    { rewrite H2. apply Hall. rewrite <-H1. by eapply lookup_lt_Some. }
    apply i_waited0, l_sub_pos in Hn as (g & b & Hin).
    destruct (i_log0 n g b Hin) as (b' & -> & ?). by simplify_eq.
Qed.

(** ** Deadlocks *)

(** Every wait of a script is for a task that was added before; [n] tasks are
    there already. *)
Fixpoint valid (n : nat) (l : list cmd) : Prop :=
  match l with
  | [] => True
  | Add _ _ :: l' => valid (S n) l'
  | Wait k :: l' => (k < n)%nat /\ valid n l'
  end.

Definition client_valid (s : thread_pool_st) : Prop :=
  match client s with
  | CReady | CWaitUnlock _ _ => valid (length (ids s)) (script s)
  | CWaitLock k => (k < length (ids s))%nat /\ valid (length (ids s)) (script s)
  | CExit _ => True
  | _ => valid (S (length (ids s))) (script s)
  end.

(** A worker that will look at the table before it sleeps. *)
Definition alert (pc : wpc) : bool := match pc with WSleep | WCondWait => false | _ => true end.

(** No wake-up is lost: while a task is pending and its broadcast is over, some
    worker is alert. *)
Definition woken (s : thread_pool_st) : Prop :=
  match client s with
  | CBroadcast _ => True
  | _ => (exists i t, tasks s !! i = Some (Some t)) ->
         exists j pc, workers s !! j = Some pc /\ alert pc = true
  end.

Record live (s : thread_pool_st) : Prop := {
  v_inv : inv s;
  v_two : (2 <= length (workers s))%nat;
  v_valid : client_valid s;
  v_woken : woken s }.

(** A worker that stays alert, or was not, keeps the promise. *)
Lemma woken_worker s s' j pc pc' :
  woken s -> workers s !! j = Some pc -> workers s' = <[j := pc']> (workers s) ->
  client s' = client s ->
  (forall i t, tasks s' !! i = Some (Some t) -> tasks s !! i = Some (Some t)) ->
  (alert pc = true -> alert pc' = true \/ forall i t, tasks s !! i <> Some (Some t)) -> woken s'.
Proof.
  intros Hw Hj Hws Hc Ht Ha.
  set (P := fun x : thread_pool_st => (exists i t, tasks x !! i = Some (Some t)) ->
              exists j pc, workers x !! j = Some pc /\ alert pc = true).
  assert (HP : P s -> P s').
  { intros HP (i & t & Hi). destruct HP as (j' & q & Hq & Hal); [by exists i, t; apply Ht|].
    rewrite Hws. destruct (decide (j' = j)) as [->|]; [|exists j', q; by rewrite list_lookup_insert_ne].
    simplify_eq. destruct (Ha Hal) as [?|Hno]; [|by destruct (Hno i t); apply Ht].
    exists j, pc'. rewrite list_lookup_insert_eq; [done|by eapply lookup_lt_Some]. }
  unfold woken in *. rewrite Hc. destruct (client s); try done; by apply HP.
Qed.

Lemma routine_workers j s s' :
  thread_pool_routine j s = Some s' ->
  exists pc pc', workers s !! j = Some pc /\ workers s' = <[j := pc']> (workers s) /\
    (forall i t, tasks s' !! i = Some (Some t) -> tasks s !! i = Some (Some t)) /\
    (alert pc = true -> alert pc' = true \/ forall i t, tasks s !! i <> Some (Some t)).
Proof.
  intros (pc & Hj & Hs)%bind_Some. exists pc.
  assert (Hpop : forall k i t, <[k := None]> (tasks s) !! i = Some (Some t) -> tasks s !! i = Some (Some t)).
  { intros k i t. rewrite list_lookup_insert. by case_decide. }
  destruct pc; cbn [pop_task] in Hs; repeat case_match; simplify_eq/=;
    eexists; (split; [done|split; [reflexivity|split]]); try done; try (by left); try (by apply Hpop).
  intros _. right. unfold find_task_lock in *. intros i t Hi.
  match goal with H : find_idx _ _ = None |- _ => by pose proof (proj1 (find_idx_None _ _) H i _ Hi) end.
Qed.

(** The broadcast leaves a second worker alert. *)
Lemma woken_broadcast s i :
  inv s -> (2 <= length (workers s))%nat -> client s = CBroadcast i ->
  exists j pc, map wake (workers s) !! j = Some pc /\ alert pc = true.
Proof.
  intros [] Hlen Hc.
  destruct (lookup_lt_is_Some_2 (workers s) 0) as [p0 H0]; [lia|].
  destruct (lookup_lt_is_Some_2 (workers s) 1) as [p1 H1]; [lia|].
  pose proof (total_ge_two h_mtx _ 0 1 p0 p1 ltac:(lia) H0 H1) as H2. rewrite i_mtx0 in H2.
  assert (Hal : forall p, h_mtx p = 0%nat -> alert (wake p) = true) by (by intros []).
  assert (Hw : forall j p, workers s !! j = Some p -> map wake (workers s) !! j = Some (wake p))
    by (intros j p Hj; by rewrite list_lookup_fmap, Hj).
  destruct (decide (h_mtx p0 = 0)%nat); [exists 0%nat, (wake p0); auto|].
  assert (h_mtx p1 = 0)%nat by (destruct (mtx s); simpl in *; lia). exists 1%nat, (wake p1). auto.
Qed.

Lemma live_client s s' : live s -> client_step s = Some s' -> live s'.
Proof.
  intros [Hinv Htwo Hv Hw] Hs. pose proof (inv_client_step s s' Hinv Hs) as Hinv'.
  unfold client_step in Hs. unfold client_valid in Hv. unfold woken in Hw.
  destruct (client s) as [ |f a|f a|i f a|i f a|i|k|id k|code] eqn:Hc; cbn [tp_add_task tp_wait_task] in Hs.
  - destruct (script s) as [|[f a|k] r]; simplify_eq; split; done.
  - destruct (task_mtx s); simplify_eq; split; done.
  - destruct (free_slot s); simplify_eq; split; done.
  - destruct (wait_at i s); simplify_eq; split; done.
  - simplify_eq. split; done.
  - simplify_eq. split; [done| | |].
    + simpl. by rewrite length_map.
    + unfold client_valid. simpl. by rewrite length_app, Nat.add_1_r.
    + intros _. by eapply woken_broadcast.
  - apply bind_Some in Hs as (id & _ & Hs). destruct (wait_at id s); simplify_eq. destruct Hv. split; done.
  - simplify_eq. split; done.
  - done.
Qed.

Lemma live_step s s' : live s -> step s s' -> live s'.
Proof.
  intros Hl [[ |j|j] Hs]; simpl in Hs; [by eapply live_client|..]; destruct Hl as [Hinv Htwo Hv Hw].
  - destruct (routine_frame j s s' Hs) as (? & Hc & Hsc & ? & Hid).
    destruct (routine_workers j s s' Hs) as (pc & pc' & Hj & Hws & Ht & Ha).
    split; [by eapply inv_worker|by rewrite Hws, length_insert| |by eapply woken_worker].
    unfold client_valid in *. by rewrite Hc, Hsc, Hid.
  - pose proof (inv_spurious s s' j Hinv Hs) as Hinv'. apply bind_Some in Hs as (pc & Hj & ?). simplify_eq.
    split; [done|by simpl; rewrite length_insert|done|].
    eapply (woken_worker s _ j pc (wake pc)); try done. intros. left. by destruct pc.
Qed.

Lemma live_init threads sc : (2 <= threads)%nat -> valid 0 sc -> live (tp_init threads sc).
Proof.
  intros Ht Hv. split; [apply inv_init|by simpl; rewrite length_replicate|done|].
  intros (i & t & Hi). by apply lookup_replicate in Hi as [? _].
Qed.

Lemma live_run ls s s' : live s -> run ls s = Some s' -> live s'.
Proof.
  revert s. induction ls as [|l ls IH]; intros s Hl Hr; simplify_eq/=; [done|].
  apply bind_Some in Hr as (s1 & H1 & Hr). eapply IH; [|done]. eapply live_step; [done|]. by exists l.
Qed.

(** A thread that can move. *)
Definition can_move (s : thread_pool_st) : Prop :=
  is_Some (client_step s) \/ exists j, is_Some (thread_pool_routine j s).

Lemma routine_enabled s j pc :
  workers s !! j = Some pc ->
  match pc with
  | WSleep => False
  | WLock | WReacq => mtx s = false
  | WFindLock | WRunLock _ => task_mtx s = false
  | _ => True
  end -> can_move s.
Proof.
  intros Hj H. right. exists j. unfold thread_pool_routine. rewrite Hj. simpl.
  destruct pc; cbn [pop_task]; try rewrite H; repeat case_match; by eauto.
Qed.

(** Whoever holds [task_mtx], somebody can move. *)
Lemma task_mtx_moves s : inv s -> task_mtx s = true -> can_move s.
Proof.
  intros Hinv Htm. pose proof Hinv as []. rewrite Htm in i_tm0. simpl in i_tm0.
  destruct (decide (0 < total h_tm (workers s))%nat) as [Hp|Hp].
  { apply total_pos in Hp as (j & pc & Hj & Hpos). eapply routine_enabled; [done|]. destruct pc; simpl in Hpos; by try lia. }
  unfold c_ok in i_client0.
  destruct (client s) as [ |f a|f a|i f a|i f a|i|k|id k|code] eqn:Hc; simpl in i_tm0; try lia.
  - left. unfold client_step. rewrite Hc. simpl. case_match; by eauto.
  - destruct (wait_at i s) eqn:Hw; [|left; unfold client_step; rewrite Hc; simpl; rewrite Hw; by eauto].
    assert (Hi : (i < MAX_TASKS)%nat) by (rewrite <-i_tasks0; by eapply lookup_lt_Some).
    specialize (i_slot0 i Hi). unfold p_slot, task_at in i_slot0. rewrite Hw, i_client0 in i_slot0.
    cbn [default from_option id is_some b2n c_slot] in i_slot0.
    destruct (total_pos (h_slot i) (workers s)) as (j & pc & Hj & Hpos); [lia|].
    eapply routine_enabled; [done|]. destruct pc; simpl in Hpos; by try lia.
  - left. unfold client_step. rewrite Hc. simpl. by eauto.
Qed.

(** When [task_mtx] is free, whoever holds [mtx] can move. *)
Lemma mtx_moves s : inv s -> task_mtx s = false -> mtx s = true -> can_move s.
Proof.
  intros Hinv Htm Hm. pose proof Hinv as []. rewrite Hm in i_mtx0.
  destruct (total_pos h_mtx (workers s)) as (j & pc & Hj & Hpos); [by rewrite i_mtx0; simpl; lia|].
  eapply routine_enabled; [done|]. destruct pc; simpl in Hpos; by try lia.
Qed.

(** C3: With at least two workers the pool cannot deadlock: for every client that
    waits only for tasks it has added and every schedule, as long as the client
    has not ended some thread can move (without a spurious wake-up). *)
Theorem tp_deadlock_free threads sc ls s :
  (2 <= threads)%nat -> valid 0 sc -> run ls (tp_init threads sc) = Some s ->
  (exists code, client s = CExit code) \/ can_move s.
Proof.
  intros Hth Hval Hr. pose proof (live_run ls _ _ (live_init threads sc Hth Hval) Hr) as [Hinv Htwo Hv Hw].
  destruct (task_mtx s) eqn:Htm; [right; by apply task_mtx_moves|].
  destruct (mtx s) eqn:Hm; [right; by apply mtx_moves|].
  pose proof Hinv as []. unfold client_valid, woken in *.
  assert (Hone : forall j pc, workers s !! j = Some pc -> alert pc = true -> can_move s).
  { intros j pc Hj Hal. eapply routine_enabled; [done|]. by destruct pc. }
  destruct (client s) as [ |f a|f a|i f a|i f a|i|k|id k|code] eqn:Hc.
  - right. left. unfold client_step. rewrite Hc. repeat case_match; by eauto.
  - right. left. unfold client_step. rewrite Hc. simpl. rewrite Htm. by eauto.
  - rewrite Htm in i_tm0. simpl in i_tm0. lia.
  - rewrite Htm in i_tm0. simpl in i_tm0. lia.
  - rewrite Htm in i_tm0. simpl in i_tm0. lia.
  - right. left. unfold client_step. rewrite Hc. simpl. by eauto.
  - right. destruct Hv as [Hk _]. destruct (lookup_lt_is_Some_2 (ids s) k Hk) as [id Hid].
    destruct (wait_at id s) eqn:Ew.
    + assert (Hlt : (id < MAX_TASKS)%nat).
      { eapply Forall_lookup_1 in i_idlt0; [done|]. unfold slot_of. by apply lookup_app_l_Some. }
      specialize (i_slot0 id Hlt). rewrite Ew in i_slot0. cbn [b2n c_slot] in i_slot0.
      destruct (decide (0 < total (h_slot id) (workers s))%nat) as [Hp|Hp].
      { apply total_pos in Hp as (j & pc & Hj & Hpos). apply (Hone j pc Hj). destruct pc; simpl in Hpos; by try lia. }
      unfold p_slot, task_at in i_slot0. destruct (tasks s !! id) as [[t|]|] eqn:Et; simpl in i_slot0; try lia.
      destruct Hw as (j & pc & Hj & Hal); [by exists id, t|]. by apply (Hone j pc).
    + left. unfold client_step. rewrite Hc. simpl. rewrite Hid. simpl. rewrite Ew. by eauto.
  - right. left. unfold client_step. rewrite Hc. simpl. by eauto.
  - left. by exists code.
Qed.
End pool.

(** ** The program of main *)

Definition LEFT : Z := 30000.
Definition RIGHT : Z := 30200.
Definition TASKS : nat := Z.to_nat (RIGHT - LEFT + 1).
Definition THREADS : nat := 8.

(** [main] adds [routine] for every number from [LEFT] to [RIGHT], then waits
    for each of the tasks. *)
Inductive fn := routine.

Definition main_script : list (cmd (F := fn) (A := Z)) :=
  map (fun i => Add routine (LEFT + Z.of_nat i)) (seq 0 TASKS) ++ map Wait (seq 0 TASKS).

(** When [main] ends normally (status 0), [routine] has been executed exactly
    once for each number from [LEFT] to [RIGHT], whatever the schedule. *)
Theorem tp_main_runs_all ls s :
  run ls (tp_init THREADS main_script) = Some s -> client s = CExit 0 ->
  map (fun e => e.2) (log s) ≡ₚ map (fun i => Some (LEFT + Z.of_nat i)) (seq 0 TASKS).
Proof.
  intros Hr Hc.
  assert (Hadds : adds_of main_script = map (fun i => (routine, LEFT + Z.of_nat i)) (seq 0 TASKS)) by (by vm_compute).
  assert (Hwaits : waits_of main_script = seq 0 TASKS) by (by vm_compute).
  pose proof (run_complete THREADS main_script ls s Hr Hc) as Hperm. rewrite Hadds, Hwaits, length_map, length_seq in Hperm.
  rewrite Hperm; [by vm_compute|]. intros n Hn. apply elem_of_seq. lia.
Qed.

(** With a single worker a wake-up can be lost: the worker has found nothing
    to do and is about to wait, the client adds a task and broadcasts (without
    holding [mtx], so nobody is waiting yet), then the worker falls asleep.  The
    task stays in the table, the client waits for it for ever, and no thread can
    move again. *)
Theorem tp_lost_wakeup {F A} (f : F) (a : A) :
  exists ls s, run ls (tp_init 1 [Add f a; Wait 0]) = Some s /\
    workers s = [WSleep] /\ task_at 0 s = Some (0%nat, f) /\ client s = CWaitLock 0 /\ ~ can_move s.
Proof.
  exists ([LWorker 0; LWorker 0; LWorker 0] ++ replicate 6 LClient ++ [LWorker 0; LClient]).
  eexists. split; [vm_compute; reflexivity|]. split_and!; try done.
  intros [[x Hx]|[j [x Hx]]]; [by vm_compute in Hx|]. destruct j as [|[|j]]; by vm_compute in Hx.
Qed.

(** ** Witnesses *)

(** A schedule that lets every thread that can move do so, in turn. *)
Fixpoint round {F A} (ls : list label) (s : thread_pool_st (F := F) (A := A))
    : list label * thread_pool_st (F := F) (A := A) :=
  match ls with
  | [] => ([], s)
  | l :: ls' =>
      match do_step l s with
      | Some s' => let '(tr, s2) := round ls' s' in (l :: tr, s2)
      | None => round ls' s
      end
  end.

Fixpoint rounds {F A} (n : nat) (ls : list label) (s : thread_pool_st (F := F) (A := A)) : list label :=
  match n with
  | O => []
  | S n' => let '(tr, s') := round ls s in tr ++ rounds n' ls s'
  end.

Definition fair (threads n : nat) (sc : list (cmd (F := fn) (A := Z))) : list label :=
  rounds n (LClient :: map LWorker (seq 0 threads)) (tp_init threads sc).

(** Where a schedule ends. *)
Definition ended (threads : nat) (sc : list (cmd (F := fn) (A := Z))) (ls : list label) :=
  default (tp_init threads sc) (run ls (tp_init threads sc)).

Definition main_schedule : list label := fair THREADS 3000 main_script.

Lemma tp_main_runs_all_witness :
  run main_schedule (tp_init THREADS main_script) = Some (ended THREADS main_script main_schedule) /\
  map (fun e => e.2) (log (ended THREADS main_script main_schedule)) ≡ₚ
    map (fun i => Some (LEFT + Z.of_nat i)) (seq 0 TASKS).
Proof.
  assert (Hr : run main_schedule (tp_init THREADS main_script) =
               Some (ended THREADS main_script main_schedule)) by (vm_compute; reflexivity).
  split; [exact Hr|]. apply (tp_main_runs_all main_schedule); [exact Hr|vm_compute; reflexivity].
Defined.

Definition demo_script : list (cmd (F := fn) (A := Z)) := [Add routine 7; Add routine 9; Wait 1; Wait 0].

(** Halfway through: some tasks are pending or running. *)
Definition demo_schedule : list label := fair 2 14 demo_script.
Definition demo_pool := ended 2 demo_script demo_schedule.

Lemma tp_executes_once_witness :
  NoDup (map (fun e => e.1.1) (log demo_pool)) /\
  (forall n f a, (n, f, a) ∈ log demo_pool -> exists a', a = Some a' /\ subs demo_pool !! n = Some (f, a')) /\
  (forall k, k ∈ waited demo_pool -> exists f a, (k, f, a) ∈ log demo_pool) /\
  (total h_mtx (workers demo_pool) <= 1)%nat /\
  (total h_tm (workers demo_pool) + c_tm (client demo_pool) <= 1)%nat.
Proof. apply (tp_executes_once 2 demo_script demo_schedule). vm_compute. reflexivity. Defined.

Lemma tp_deadlock_free_witness : (exists code, client demo_pool = CExit code) \/ can_move demo_pool.
Proof.
  apply (tp_deadlock_free 2 demo_script demo_schedule); [lia|simpl; lia|]. vm_compute. reflexivity.
Defined.
