(* ===== verification/Threads.v ===== *)
(** * Threads: src/thread/cancel.c, clean.c, create.c

    Three programs with one thread.  [Cancel] is a step relation, since its two
    threads run at the same time; in the other two the main thread only waits. *)

From S2P Require Import Prelude Prog Posix Stdio Dup.

(** ** cancel.c *)
Module Cancel.

(** Where the thread is: before [pthread_setcancelstate], at the three calls of
    its loop, or ended, with or without having been cancelled. *)
Inductive tpc := TStart | TLoop | TTest | TPrint | TSleep | TEnded (cancelled : bool).

(** Where the main thread is: in its sleep, at [pthread_join], or behind it. *)
Inductive mpc := MSleep | MJoin | MJoined (cancelled : bool).

Record st := St { i : Z; tp : tpc; enabled : bool; pending : bool; mp : mpc; printed : list Z }.

Definition start : st := St 0 TStart true false MSleep [].

(** A thread that is cancelled ends at its next cancellation point, if its cancel
    state is enabled: these are [pthread_testcancel], [printf] (allowed to be
    one) and [select]. *)
Definition cancel_point (p : tpc) : Prop := p = TTest \/ p = TPrint \/ p = TSleep.

Inductive step : st -> st -> Prop :=
| s_disable s : tp s = TStart ->
    step s (St (i s) TLoop false (pending s) (mp s) (printed s))
| s_incr s : tp s = TLoop -> in_int (i s + 1) = true ->
    step s (St (i s + 1) TTest (enabled s) (pending s) (mp s) (printed s))
| s_test s : tp s = TTest -> step s (St (i s) TPrint (enabled s) (pending s) (mp s) (printed s))
| s_print s : tp s = TPrint -> step s (St (i s) TSleep (enabled s) (pending s) (mp s) (printed s ++ [i s]))
| s_sleep s : tp s = TSleep -> step s (St (i s) TLoop (enabled s) (pending s) (mp s) (printed s))
| s_cancelled s : cancel_point (tp s) -> enabled s = true -> pending s = true ->
    step s (St (i s) (TEnded true) (enabled s) (pending s) (mp s) (printed s))
| s_cancel s : mp s = MSleep ->
    step s (St (i s) (tp s) (enabled s) true MJoin (printed s))
| s_join s c : mp s = MJoin -> tp s = TEnded c ->
    step s (St (i s) (tp s) (enabled s) (pending s) (MJoined c) (printed s)).

(** The numbers 1, 2, ..., n. *)
Definition upto (n : nat) : list Z := Z.of_nat <$> seq 1 n.

Lemma upto_S n : upto (S n) = upto n ++ [Z.of_nat (S n)].
Proof. unfold upto. by rewrite seq_S, fmap_app. Qed.

(** From its first step on the thread cannot be cancelled, and it prints every
    number once. *)
Record inv (s : st) : Prop := {
  i_alive : (tp s = TStart /\ i s = 0) \/ (tp s = TLoop \/ tp s = TTest \/ tp s = TPrint \/ tp s = TSleep) /\ enabled s = false;
  i_main : mp s = MSleep \/ mp s = MJoin;
  i_range : 0 <= i s <= INT_MAX;
  i_printed : printed s = upto (Z.to_nat (match tp s with TTest | TPrint => i s - 1 | _ => i s end));
  i_pos : tp s = TTest \/ tp s = TPrint -> 0 < i s }.

Lemma cancel_inv_step s s' : inv s -> step s s' -> inv s'.
Proof.
  intros [Ha Hm Hr Hp Hpos] Hstep.
  destruct Hstep as [s Ht|s Ht Hi|s Ht|s Ht|s Ht|s Hc He Hpe|s Hmp|s c Hmp Ht]; try rewrite Ht in *.
  - split; cbn; [by right; auto|done|done|done|naive_solver].
  - apply in_int_spec in Hi. split; cbn; [right; naive_solver|done|lia| |lia].
    by replace (i s + 1 - 1) with (i s) by lia.
  - split; cbn; [right; naive_solver|done|done|done|naive_solver].
  - specialize (Hpos (or_intror eq_refl)).
    split; cbn; [right; naive_solver|done|done| |naive_solver].
    rewrite Hp. replace (Z.to_nat (i s)) with (S (Z.to_nat (i s - 1))) by lia. rewrite upto_S.
    by replace (Z.of_nat (S (Z.to_nat (i s - 1)))) with (i s) by lia.
  - split; cbn; [right; naive_solver|done|done|done|naive_solver].
  - exfalso. destruct Ha as [[Ht _]|[_ ?]]; [|congruence]. unfold cancel_point in Hc. rewrite Ht in Hc. naive_solver.
  - split; cbn; [done|by right|done|done|done].
  - exfalso. naive_solver.
Qed.

Lemma cancel_inv_reachable s : rtc step start s -> inv s.
Proof.
  intros Hr. assert (H0 : inv start).
  { split; cbn; [by left|by left|unfold INT_MAX; lia|done|naive_solver]. }
  induction Hr as [|s1 s2 s3 H12 _ IH]; [done|]. apply IH. by eapply cancel_inv_step.
Qed.

(** C38: cancel.c never ends by itself: whatever the interleaving, the thread has
    disabled its cancellation before it reaches a cancellation point, so the
    main thread stays in [pthread_join] for ever, the thread prints 1, 2, 3, ...
    without a gap, and it can always go on until its counter overflows. *)
Theorem cancel_never_joins s :
  rtc step start s ->
  (forall c, mp s <> MJoined c) /\ (forall c, tp s <> TEnded c) /\
  (exists n, printed s = upto n) /\
  (i s < INT_MAX -> exists s', step s s' /\ mp s' = mp s /\ tp s' <> tp s).
Proof.
  intros Hr. destruct (cancel_inv_reachable s Hr) as [Ha Hm Hrg Hp _]. split_and!.
  - intros c. destruct Hm; congruence.
  - intros c. destruct Ha as [[? _]|[[?|[?|[?|?]]] _]]; congruence.
  - by eexists.
  - intros Hlt. assert (in_int (i s + 1) = true) by (apply in_int_spec; unfold INT_MIN, INT_MAX in *; lia).
    destruct Ha as [[Ht _]|[[Ht|[Ht|[Ht|Ht]]] _]]; rewrite Ht; eexists;
      (split; [eauto using step|by cbn]).
Qed.

Lemma cancel_never_joins_witness :
  rtc step start (St 0 TLoop false true MJoin []) /\ forall c, mp (St 0 TLoop false true MJoin []) <> MJoined c.
Proof.
  assert (Hr : rtc step start (St 0 TLoop false true MJoin [])).
  { eapply rtc_l; [by apply (s_cancel start)|]. eapply rtc_l; [by apply s_disable|]. apply rtc_refl. }
  split; [exact Hr|]. destruct (cancel_never_joins _ Hr) as [H _]. exact H.
Defined.

End Cancel.

(** ** clean.c *)
Module Clean.

(** The lines printed, and the clean-up handlers of the thread, the last one
    first. *)
Record st := St { lines : list string; handlers : list string }.

Definition puts (s : string) : M st unit := modify (fun w => St (lines w ++ [s]) (handlers w)).

Definition cleanup_func (s : string) : M st unit := puts s.

Definition pthread_cleanup_push (arg : string) : M st unit :=
  modify (fun w => St (lines w) (arg :: handlers w)).

(** The end of a thread runs its handlers in the reverse of the order in which
    they were pushed. *)
Definition pthread_exit : M st unit :=
  w ← get;
  modify (fun w => St (lines w) []) ;;
  (fix go (l : list string) : M st unit :=
     match l with [] => mret tt | h :: l' => cleanup_func h ;; go l' end) (handlers w).

Definition my_echo : M st unit :=
  puts "hello pthread" ;;
  pthread_cleanup_push "clean:1" ;;
  pthread_cleanup_push "clean:2" ;;
  pthread_exit.

(** [create] and [join] are the results of the two thread calls. *)
Definition main (create join : Z) : M st unit :=
  puts "Begin!" ;;
  if negb (create =? 0) then exit_ 1 else
  my_echo ;;
  if negb (join =? 0) then exit_ 1 else
  puts "End" ;;
  exit_ 0.

(** The handlers run in reverse order; an error of either call ends the program
    with status 1. *)
Lemma clean_prints create join :
  main create join (St [] []) =
  if create =? 0 then
    if join =? 0 then Exit 0 (St ["Begin!"; "hello pthread"; "clean:2"; "clean:1"; "End"]%string [])
    else Exit 1 (St ["Begin!"; "hello pthread"; "clean:2"; "clean:1"]%string [])
  else Exit 1 (St ["Begin!"]%string []).
Proof. unfold main. destruct (create =? 0); [|done]. by destruct (join =? 0). Qed.

End Clean.

(** ** create.c *)
Module Create.

Definition MSG : list byte := bytes "hello pthread" ++ [x0a].

Definition func : M Dup.st unit := on_io (sys_write 1 MSG) ;; mret tt.

Definition main (create join : Z) : M Dup.st unit :=
  puts (bytes "Begin!") ;;
  if negb (create =? 0) then finish 1 else
  func ;;
  if negb (join =? 0) then finish 1 else
  puts (bytes "End!") ;;
  finish 0.

(** When the standard output is a file, the thread's message comes first: what
    the main thread printed before it is still in the buffer of [stdout]. *)
Lemma create_prints p c w :
  out_at p c (io w) -> buffer w = [] -> Forall whole (orc (io w)) ->
  wp (main 0 0) (fun _ _ => False)
     (fun code w' => code = 0 /\
        fs (io w') = <[p := c ++ MSG ++ bytes "Begin!" ++ [x0a] ++ bytes "End!" ++ [x0a]]> (fs (io w))) w.
Proof.
  intros Ho Hb Hw. unfold main. unfold puts at 1, put_bytes at 1. wp_steps. change (negb (0 =? 0)) with false. cbn iota.
  apply wp_bind. unfold func, on_io. wp_steps. cbn [io].
  apply (wp_append_whole p c MSG); [done|done|]. intros w1 Ho1 Hf1. wp_steps. unfold puts, put_bytes. wp_steps.
  apply (wp_finish p (c ++ MSG)); [done|]. intros w' ->. split; [done|]. cbn [io buffer]. rewrite Hb, Hf1, insert_insert_eq.
  by rewrite <-!(assoc_L (++)).
Qed.

End Create.
