(* ===== verification/Counter.v ===== *)
(** * Counter: threads that increment a counter under a lock

    src/ipc/sem_arr.c (a System V semaphore) and src/thread/mutex.c (a mutex)
    start some threads that each increment a shared counter once, join them and
    print the counter.  The increment is a load and a store, so it is the lock
    that makes the result right.  The two programs share one machine: what a lock
    does is the interface [LockOps], what it promises the class [Lock], against
    which the machine is proved correct. *)

From S2P Require Import Prelude Posix.

(** ** The interface of a lock *)

(** What a call on a lock leads the calling thread to do. *)
Inductive outcome :=
| Entered        (* go on *)
| Retry          (* call again *)
| Die.           (* [exit(1)] *)

(** A call with the answer of the system ([Some e]: it fails with error [e]);
    [None] is a call that blocks. *)
Class LockOps (L : Type) := {
  acquire : option positive -> L -> option (L * outcome);
  release : option positive -> L -> option (L * outcome) }.

(** [ok] says for which answers the lock keeps its promises. *)
Class Lock (L : Type) `{LockOps L} (ok : option positive -> Prop) := {
  free : L -> Prop;
  held : L -> Prop;
  ok_none : ok None;
  free_held l : free l -> held l -> False;
  acquire_entered a l l' : ok a -> free l \/ held l -> acquire a l = Some (l', Entered) -> free l /\ held l';
  release_entered a l l' : ok a -> held l -> release a l = Some (l', Entered) -> free l';
  acquire_other a l l' r : ok a -> r <> Entered -> acquire a l = Some (l', r) -> l' = l /\ is_Some a;
  release_other a l l' r : ok a -> r <> Entered -> release a l = Some (l', r) -> l' = l /\ is_Some a;
  acquire_can l : free l -> exists l', acquire None l = Some (l', Entered);
  release_can l : held l -> exists l', release None l = Some (l', Entered) }.

(** ** The machine *)

Section machine.
Context {L : Type} `{LockOps L} (THREADS : nat).
(** Which results of [pthread_create] the program takes for a failure. *)
Context (failed : Z -> bool).

(** Where a thread is. *)
Inductive tpc := TAcquire | TLoad | TStore (v : Z) | TRelease | TDone.

#[local] Instance tpc_eq_dec : EqDecision tpc.
Proof. solve_decision. Defined.

(** Where [main] is; [MFault] is undefined behaviour. *)
Inductive mpc := MCreate (i : nat) | MJoin (i : nat) | MPrint | MExit (code : Z) | MFault.

(** A thread is [None] when it could not be created and its entry of [threads] was
    not set. *)
Record st := St { lck : L; count : Z; threads : list (option tpc); mainpc : mpc; out : list Z }.

Definition set_lock l (s : st) : st := St l (count s) (threads s) (mainpc s) (out s).
Definition set_count c (s : st) : st := St (lck s) c (threads s) (mainpc s) (out s).
Definition set_thread i pc (s : st) : st :=
  St (lck s) (count s) (<[i := Some pc]> (threads s)) (mainpc s) (out s).
Definition set_main pc (s : st) : st := St (lck s) (count s) (threads s) pc (out s).
Definition add_thread t (s : st) : st := St (lck s) (count s) (threads s ++ [t]) (mainpc s) (out s).
Definition add_out z (s : st) : st := St (lck s) (count s) (threads s) (mainpc s) (out s ++ [z]).

(** A call on the lock by thread [i], which goes on at [pc]. *)
Definition lock_call (r : option (L * outcome)) (i : nat) (pc : tpc) (s : st) : option st :=
  match r with
  | None => None
  | Some (l, Entered) => Some (set_thread i pc (set_lock l s))
  | Some (l, Retry) => Some (set_lock l s)
  | Some (l, Die) => Some (set_main (MExit 1) (set_lock l s))
  end.

(** The routine of thread [i]: lock, [count++], unlock. *)
Definition thread_step (a : option positive) (i : nat) (s : st) : option st :=
  match threads s !! i with
  | Some (Some TAcquire) => lock_call (acquire a (lck s)) i TLoad s
  | Some (Some TLoad) => Some (set_thread i (TStore (count s)) s)
  | Some (Some (TStore v)) =>
      if in_int (v + 1) then Some (set_thread i TRelease (set_count (v + 1) s)) else Some (set_main MFault s)
  | Some (Some TRelease) => lock_call (release a (lck s)) i TDone s
  | _ => None
  end.

(** [main]: create the threads, join them, print. *)
Definition main_step (a : option positive) (s : st) : option st :=
  match mainpc s with
  | MCreate i =>
      if decide (i < THREADS)%nat then
        let err := from_option Zpos 0 a in
        if failed err then Some (set_main (MExit 1) s)
        else Some (set_main (MCreate (S i)) (add_thread (match a with None => Some TAcquire | Some _ => None end) s))
      else Some (set_main (MJoin 0) s)
  | MJoin i =>
      if decide (i < THREADS)%nat then
        match a, threads s !! i with
        | Some e, Some (Some _) => Some (set_main (if failed (Zpos e) then MExit 1 else MJoin (S i)) s)
        | None, Some (Some TDone) => Some (set_main (MJoin (S i)) s)
        | None, Some (Some _) => None
        | _, _ => Some (set_main MFault s)
        end
      else Some (set_main MPrint s)
  | MPrint => Some (set_main (MExit 0) (add_out (count s) s))
  | _ => None
  end.

(** A step of the thread [who] ([None] is [main]); after [exit] there is none. *)
Definition step (x : option nat * option positive) (s : st) : option st :=
  match mainpc s with
  | MExit _ | MFault => None
  | _ => match x.1 with None => main_step x.2 s | Some i => thread_step x.2 i s end
  end.

(** A schedule; a thread that blocks stays where it is. *)
Definition run (sched : list (option nat * option positive)) (s : st) : st :=
  foldl (fun s x => default s (step x s)) s sched.

Definition init (l : L) : st := St l 0 [] (MCreate 0) [].

(** ** Invariant *)

Definition crit (t : option tpc) : bool :=
  match t with Some TLoad | Some (TStore _) | Some TRelease => true | _ => false end.
Definition past (t : option tpc) : bool :=
  match t with Some TRelease | Some TDone => true | _ => false end.

Definition crit_at (s : st) (i : nat) : Prop := exists t, threads s !! i = Some t /\ crit t = true.

Context (ok : option positive -> Prop) `{!Lock L ok}.
Hypothesis failed_ok : forall e, ok (Some e) -> failed (Zpos e) = true.
Hypothesis failed_0 : failed 0 = false.
Hypothesis threads_int : Z.of_nat THREADS <= INT_MAX.

Definition main_inv (s : st) : Prop :=
  match mainpc s with
  | MCreate i => length (threads s) = i /\ (i <= THREADS)%nat /\ out s = []
  | MJoin i => length (threads s) = THREADS /\ (forall j, (j < i)%nat -> (j < THREADS)%nat -> threads s !! j = Some (Some TDone)) /\ (i <= THREADS)%nat /\ out s = []
  | MPrint => (forall t, t ∈ threads s -> t = Some TDone) /\ length (threads s) = THREADS /\ out s = []
  | MExit 0 => out s = [Z.of_nat THREADS]
  | MExit c => c = 1 /\ out s = []
  | MFault => False
  end.

Record inv (s : st) : Prop := {
  inv_lock : (free (lck s) /\ forall i, ~ crit_at s i) \/
             (held (lck s) /\ exists i, crit_at s i /\ forall j, crit_at s j -> j = i);
  inv_count : count s = Z.of_nat (length (filter (fun t => past t = true) (threads s)));
  inv_len : (length (threads s) <= THREADS)%nat;
  inv_store : forall i v, threads s !! i = Some (Some (TStore v)) -> v = count s;
  inv_started : forall i, threads s !! i <> Some None;
  inv_main : main_inv s }.

(** ** The invariant is kept *)

Lemma crit_at_set i pc s j : (i < length (threads s))%nat ->
  crit_at (set_thread i pc s) j <-> (if decide (i = j) then crit (Some pc) = true else crit_at s j).
Proof.
  intros Hi. unfold crit_at. cbn [threads set_thread]. case_decide as Hd; [subst j|].
  - rewrite list_lookup_insert_eq by done. naive_solver.
  - by rewrite list_lookup_insert_ne.
Qed.

(** What a thread does leaves what [main] relies on. *)
Lemma main_inv_thread i old pc l c s :
  mainpc s <> MFault -> threads s !! i = Some (Some old) -> old <> TDone ->
  main_inv s -> main_inv (set_thread i pc (set_lock l (set_count c s))).
Proof.
  intros Hm Hi Hold. unfold main_inv. cbn. rewrite length_insert.
  destruct (mainpc s) as [k|k| |[]|]; try done.
  - intros (? & Hj & ? & ?). split_and!; try done. intros j Hlt Ht.
    rewrite list_lookup_insert_ne; [by apply Hj|]. intros ->. rewrite Hj in Hi by done. by simplify_eq.
  - intros [Hall ?]. apply list_elem_of_lookup_2, Hall in Hi. by simplify_eq.
Qed.

(** A move of thread [i] inside its routine. *)
Lemma inv_move i old pc l c s :
  inv s -> threads s !! i = Some (Some old) -> old <> TDone -> mainpc s <> MFault ->
  let s' := set_thread i pc (set_lock l (set_count c s)) in
  (free l /\ (forall j, ~ crit_at s' j)) \/ (held l /\ exists j, crit_at s' j /\ forall k, crit_at s' k -> k = j) ->
  c + Z.b2z (past (Some old)) = count s + Z.b2z (past (Some pc)) ->
  (c <> count s -> forall j v, i <> j -> threads s !! j <> Some (Some (TStore v))) ->
  (forall v, pc = TStore v -> v = c) -> inv s'.
Proof.
  intros Hinv Hi Hold Hm s' Hl Hc Hst Hpc. destruct Hinv as [_ Hcount Hlen Hstore Hstart Hmain].
  assert (Hlt : (i < length (threads s))%nat) by (by eapply lookup_lt_Some).
  split; subst s'; cbn [lck count threads set_thread set_lock set_count] in *; [done| |by rewrite length_insert| | |].
  - pose proof (count_insert past _ _ _ (Some pc) Hi) as Hins. rewrite Hcount in Hc.
    destruct (past (Some old)), (past (Some pc)); cbn [Nat.b2n Z.b2z] in *; lia.
  - intros j v Hj. destruct (decide (i = j)) as [<-|Hne].
    + rewrite list_lookup_insert_eq in Hj by done. simplify_eq. by apply Hpc.
    + rewrite list_lookup_insert_ne in Hj by done. destruct (decide (c = count s)) as [->|Hcne].
      * by apply (Hstore j).
      * exfalso. by apply (Hst Hcne j v).
  - intros j. destruct (decide (i = j)) as [<-|Hne].
    + by rewrite list_lookup_insert_eq.
    + by rewrite list_lookup_insert_ne.
  - by apply (main_inv_thread i old).
Qed.

Lemma set_lock_id s : set_lock (lck s) s = s.
Proof. by destruct s. Qed.
Lemma set_count_id s : set_count (count s) s = s.
Proof. by destruct s. Qed.

(** The thread in the critical section is the only one. *)
Lemma inv_crit s i t : inv s -> threads s !! i = Some t -> crit t = true ->
  held (lck s) /\ forall j, crit_at s j -> j = i.
Proof.
  intros Hinv Hi Ht. assert (Hc : crit_at s i) by (by exists t).
  destruct (inv_lock _ Hinv) as [[_ Hno]|[Hh (k & _ & Hu)]]; [by destruct (Hno i)|].
  split; [done|]. intros j Hj. by rewrite (Hu j Hj), (Hu i Hc).
Qed.

(** A call that fails changes nothing, or ends the program. *)
Lemma inv_exit s : inv s -> (forall c, mainpc s <> MExit c) -> inv (set_main (MExit 1) s).
Proof.
  intros [] Hne. split; try done. split; [done|]. unfold main_inv in inv_main0.
  cbn [out set_main]. destruct (mainpc s) as [| | |c|]; try naive_solver.
Qed.

Lemma inv_thread_step a i s s' :
  inv s -> ok a -> (forall c, mainpc s <> MExit c) -> mainpc s <> MFault ->
  thread_step a i s = Some s' -> inv s'.
Proof.
  intros Hinv Ha Hx Hm. unfold thread_step. destruct (threads s !! i) as [[t|]|] eqn:Hi; try done.
  assert (Hlt : (i < length (threads s))%nat) by (by eapply lookup_lt_Some).
  assert (Hsame : forall pc, t <> TDone -> crit (Some t) = true -> crit (Some pc) = true ->
    forall c, (free (lck s) /\ (forall j, ~ crit_at (set_thread i pc (set_lock (lck s) (set_count c s))) j)) \/
    (held (lck s) /\ exists j, crit_at (set_thread i pc (set_lock (lck s) (set_count c s))) j /\
       forall k, crit_at (set_thread i pc (set_lock (lck s) (set_count c s))) k -> k = j)).
  { intros pc _ Ht Hpc c. destruct (inv_crit s i _ Hinv Hi Ht) as [Hh Hu]. right. split; [done|].
    exists i. split; [apply crit_at_set; [done|by rewrite decide_True]|].
    intros k. rewrite crit_at_set by done. case_decide; [done|]. intros Hk. by apply Hu. }
  destruct t as [| |v| |]; try done; cbn [lock_call].
  - destruct (acquire a (lck s)) as [[l []]|] eqn:Eacq; intros [= <-].
    + apply acquire_entered in Eacq as [Hf Hh]; [|done|destruct (inv_lock _ Hinv) as [[]|[]]; auto].
      rewrite <-(set_count_id s) at 1. apply (inv_move i TAcquire); try done.
      right. split; [done|]. exists i. split; [apply crit_at_set; [done|by rewrite decide_True]|].
      intros k. rewrite crit_at_set by done. case_decide; [done|]. intros Hk.
      destruct (inv_lock _ Hinv) as [[_ Hno]|[Hheld _]]; [by destruct (Hno k)|].
      destruct (free_held _ Hf Hheld).
    + apply acquire_other in Eacq as [-> _]; [|done..]. by rewrite set_lock_id.
    + apply acquire_other in Eacq as [-> _]; [|done..]. rewrite set_lock_id. by apply inv_exit.
  - intros [= <-]. rewrite <-(set_count_id s) at 1. rewrite <-(set_lock_id (set_count (count s) s)).
    apply (inv_move i TLoad); try done; [by apply Hsame|naive_solver].
  - assert (v = count s) as -> by (by apply (inv_store _ Hinv i)).
    assert (Hb : Z.of_nat (length (filter (fun t => past t = true) (threads s))) <= Z.of_nat THREADS).
    { pose proof (length_filter (fun t => past t = true) (threads s)). pose proof (inv_len _ Hinv). lia. }
    rewrite (proj2 (in_int_spec _)).
    2: { rewrite (inv_count _ Hinv). destruct (inv_crit s i _ Hinv Hi eq_refl) as [_ Hu].
         pose proof (count_insert past _ _ _ (Some TDone) Hi) as Hins.
         pose proof (length_filter (fun t => past t = true) (<[i := Some TDone]> (threads s))) as Hle.
         rewrite length_insert in Hle. pose proof (inv_len _ Hinv). unfold INT_MIN. cbn [past Nat.b2n] in Hins. lia. }
    intros [= <-]. rewrite <-(set_lock_id (set_count (count s + 1) s)).
    apply (inv_move i (TStore (count s))); try done; [by apply (Hsame TRelease)|cbn [past Z.b2z]; lia|].
    intros _ j v Hne Hj. apply Hne. symmetry.
    destruct (inv_crit s i _ Hinv Hi eq_refl) as [_ Hu]. apply Hu. by exists (Some (TStore v)).
  - destruct (inv_crit s i _ Hinv Hi eq_refl) as [Hh Hu].
    destruct (release a (lck s)) as [[l []]|] eqn:Erel; intros [= <-].
    + apply release_entered in Erel; [|done..].
      rewrite <-(set_count_id s) at 1. apply (inv_move i TRelease); try done.
      left. split; [done|]. intros k. rewrite crit_at_set by done. case_decide; [done|].
      intros Hk. by apply Hu in Hk.
    + apply release_other in Erel as [-> _]; [|done..]. by rewrite set_lock_id.
    + apply release_other in Erel as [-> _]; [|done..]. rewrite set_lock_id. by apply inv_exit.
Qed.

Lemma crit_at_add s j : crit_at (add_thread (Some TAcquire) s) j <-> crit_at s j.
Proof.
  unfold crit_at. cbn [threads add_thread]. split; intros (t & Ht & Hc).
  - apply lookup_app_Some in Ht as [Ht|[_ Ht]]; [by exists t|]. apply list_lookup_singleton_Some in Ht as [_ <-]. done.
  - exists t. split; [|done]. by apply lookup_app_l_Some.
Qed.

Lemma inv_create s i : inv s -> mainpc s = MCreate i -> (i < THREADS)%nat ->
  inv (set_main (MCreate (S i)) (add_thread (Some TAcquire) s)).
Proof.
  intros [Hl Hc Hlen Hs Hst Hm] Hpc Hi. unfold main_inv in Hm. rewrite Hpc in Hm. destruct Hm as (Hn & _ & Hout).
  split; cbn [lck count threads set_main add_thread out].
  - destruct Hl as [[Hf Hno]|[Hh (k & Hk & Hu)]]; [left|right]; (split; [done|]).
    + intros j Hj. by apply (Hno j), crit_at_add.
    + exists k. split; [by apply crit_at_add|]. intros j Hj. by apply Hu, crit_at_add.
  - by rewrite filter_app, length_app, Nat.add_0_r.
  - rewrite length_app. simpl. lia.
  - intros j v [Hj|[_ Hj]]%lookup_app_Some; [by apply (Hs j)|]. by apply list_lookup_singleton_Some in Hj as [_ ?].
  - intros j [Hj|[_ Hj]]%lookup_app_Some; [by apply (Hst j)|]. by apply list_lookup_singleton_Some in Hj as [_ ?].
  - unfold main_inv. cbn. rewrite length_app. simpl. split_and!; [lia|lia|done].
Qed.

Lemma inv_set_main pc s : inv s -> main_inv (set_main pc s) -> inv (set_main pc s).
Proof. intros [] ?. by split. Qed.

Lemma all_done_count (ts : list (option tpc)) : (forall t, t ∈ ts -> t = Some TDone) ->
  length (filter (fun t => past t = true) ts) = length ts.
Proof.
  induction ts as [|t ts IH]; intros Hall; [done|]. rewrite filter_cons, (Hall t) by left. simpl.
  rewrite IH; [done|]. intros x Hx. apply Hall. by right.
Qed.

Lemma inv_main_step a s s' : inv s -> ok a -> main_step a s = Some s' -> inv s'.
Proof.
  intros Hinv Ha. unfold main_step. pose proof (inv_main _ Hinv) as Hm. unfold main_inv in Hm.
  destruct (mainpc s) as [i|i| |c|] eqn:Hpc; try done.
  - case_decide as Hi.
    + destruct a as [e|]; cbn [from_option].
      * rewrite (failed_ok e Ha). intros [= <-]. apply inv_exit; [done|]. by rewrite Hpc.
      * rewrite failed_0. intros [= <-]. by apply inv_create.
    + intros [= <-]. apply inv_set_main; [done|]. destruct Hm as (? & ? & ?). unfold main_inv. cbn.
      split_and!; [lia|lia|lia|done].
  - destruct Hm as (Hlen & Hdone & Hi & Hout). case_decide as Hlt.
    + destruct (threads s !! i) as [[t|]|] eqn:Et;
        [|by destruct (inv_started _ Hinv i)|apply lookup_ge_None in Et; lia].
      destruct a as [e|].
      * rewrite (failed_ok e Ha). intros [= <-]. apply inv_exit; [done|]. by rewrite Hpc.
      * destruct t; try done. intros [= <-]. apply inv_set_main; [done|]. unfold main_inv. cbn.
        split_and!; [done| |lia|done].
        intros j Hj ?. destruct (decide (j = i)) as [->|]; [done|]. apply Hdone; lia.
    + intros [= <-]. apply inv_set_main; [done|]. unfold main_inv. cbn. split_and!; [|done|done].
      intros t (j & Hj)%list_elem_of_lookup. apply lookup_lt_Some in Hj as Hjl.
      rewrite Hdone in Hj by lia. by simplify_eq.
  - intros [= <-]. destruct Hm as (Hall & Hlen & Hout). destruct Hinv. split; try done.
    unfold main_inv. cbn. rewrite Hout, inv_count0, all_done_count by done. by rewrite Hlen.
Qed.

Lemma cinv_step x s s' : inv s -> ok x.2 -> step x s = Some s' -> inv s'.
Proof.
  intros Hinv Ha. unfold step. destruct x as [[i|] a]; cbn [fst snd] in *;
    destruct (mainpc s) eqn:Hpc; try done; eauto using inv_main_step;
    (apply (inv_thread_step a i); [done|done|by rewrite Hpc|by rewrite Hpc]).
Qed.

(** Only a failing call ends the program early. *)
Lemma step_exit x s s' : inv s -> ok x.2 -> step x s = Some s' -> mainpc s' = MExit 1 -> is_Some x.2.
Proof.
  intros Hinv Ha. unfold step. destruct x as [[i|] a]; cbn [fst snd] in *; intros Hstep Hx.
  - destruct (mainpc s) eqn:Hpc; try done; unfold thread_step, lock_call in Hstep;
      destruct (threads s !! i) as [[[]|]|]; simplify_eq; cbn in *; try congruence;
      try (by destruct (in_int _); simplify_eq; cbn in *; congruence);
      destruct (acquire a (lck s)) as [[? []]|] eqn:Eacq, (release a (lck s)) as [[? []]|] eqn:Erel;
      simplify_eq; cbn in *; try congruence;
      first [by apply acquire_other in Eacq as [_ ?]|by apply release_other in Erel as [_ ?]].
  - unfold main_step in Hstep. destruct (mainpc s) as [k|k| | |]; try done.
    + case_decide; [|by simplify_eq]. destruct a as [e|]; [done|]. cbn in Hstep. rewrite failed_0 in Hstep. by simplify_eq.
    + case_decide; [|by simplify_eq]. destruct a as [e|]; [done|]. destruct (threads s !! k) as [[[]|]|]; by simplify_eq.
    + by simplify_eq.
Qed.

Lemma run_snoc sched x s : run (sched ++ [x]) s = default (run sched s) (step x (run sched s)).
Proof. unfold run. by rewrite foldl_app. Qed.

Lemma cinv_run sched s : inv s -> (forall c, mainpc s <> MExit c) -> Forall (fun x => ok x.2) sched ->
  inv (run sched s) /\ (mainpc (run sched s) = MExit 1 -> exists x, x ∈ sched /\ is_Some x.2).
Proof.
  intros Hinv Hx. induction sched as [|x sched IH] using rev_ind; intros Hok; [by split; [|intros ?%Hx]|].
  apply Forall_app in Hok as [Hok Hok1]. rewrite Forall_singleton in Hok1. destruct (IH Hok) as [Hi Hex].
  rewrite run_snoc. destruct (step x (run sched s)) as [s'|] eqn:Es; cbn [default from_option id].
  - split; [by apply (cinv_step x (run sched s))|]. intros H1. exists x. split; [set_solver|]. by apply (step_exit x (run sched s) s').
  - split; [done|]. intros (y & ? & ?)%Hex. exists y. split; [set_solver|done].
Qed.

Lemma cinv_init l : free l -> inv (init l).
Proof.
  intros Hf. split; cbn; try done; [|lia|].
  - left. split; [done|]. by intros i (t & Ht & _).
  - unfold main_inv. cbn. split_and!; [done|lia|done].
Qed.

(** ** Progress *)

Definition left_to_do (t : option tpc) : nat :=
  match t with
  | Some TAcquire => 4 | Some TLoad => 3 | Some (TStore _) => 2 | Some TRelease => 1 | _ => 0
  end.

(** The steps without failures that remain; a thread counts 4, its creation 5. *)
Definition measure (s : st) : nat :=
  sum_list (map left_to_do (threads s)) +
  match mainpc s with
  | MCreate i => (THREADS - i) * 5 + THREADS + 3
  | MJoin i => THREADS - i + 2
  | MPrint => 1
  | _ => 0
  end.

Lemma sum_list_append (l k : list nat) : (sum_list (l ++ k) = sum_list l + sum_list k)%nat.
Proof. induction l; simpl; lia. Qed.

Lemma sum_insert (f : option tpc -> nat) ts i x y : ts !! i = Some x ->
  (sum_list (map f (<[i := y]> ts)) + f x = sum_list (map f ts) + f y)%nat.
Proof.
  revert i. induction ts as [|t ts IH]; intros [|i] Hi; simplify_eq/=; [lia|]. specialize (IH i Hi). lia.
Qed.

Definition ended (s : st) : Prop := match mainpc s with MExit _ | MFault => True | _ => False end.

(** Moving a thread forward. *)
Lemma measure_move i old pc l c s :
  threads s !! i = Some (Some old) -> (left_to_do (Some pc) < left_to_do (Some old))%nat ->
  (measure (set_thread i pc (set_lock l (set_count c s))) < measure s)%nat.
Proof. intros Hi Hlt. unfold measure. cbn. pose proof (sum_insert left_to_do _ _ _ (Some pc) Hi). lia. Qed.

Lemma thread_progress i t s : inv s -> ~ ended s -> threads s !! i = Some (Some t) -> t <> TDone ->
  (t = TAcquire -> free (lck s)) ->
  exists s', step (Some i, None) s = Some s' /\ (measure s' < measure s)%nat.
Proof.
  intros Hinv He Hi Ht Hf.
  assert (Hstep : step (Some i, None) s = thread_step None i s).
  { unfold step, ended in *. cbn [fst snd]. by destruct (mainpc s). }
  rewrite Hstep. unfold thread_step. rewrite Hi. destruct t as [| |v| |]; try done.
  - destruct (acquire_can (lck s) (Hf eq_refl)) as [l ->]. cbn [lock_call]. eexists. split; [done|].
    rewrite <-(set_count_id s) at 1. eapply measure_move; [done|simpl; lia].
  - eexists. split; [done|]. rewrite <-(set_count_id s) at 1. rewrite <-(set_lock_id (set_count (count s) s)).
    eapply measure_move; [done|simpl; lia].
  - destruct (in_int (v + 1)).
    + eexists. split; [done|]. rewrite <-(set_lock_id (set_count (v + 1) s)). eapply measure_move; [done|simpl; lia].
    + eexists. split; [done|]. unfold measure, ended in *. cbn. destruct (mainpc s); try done; lia.
  - destruct (inv_crit s i _ Hinv Hi eq_refl) as [Hh _].
    destruct (release_can (lck s) Hh) as [l ->]. cbn [lock_call]. eexists. split; [done|].
    rewrite <-(set_count_id s) at 1. eapply measure_move; [done|simpl; lia].
Qed.

Lemma progress s : inv s -> ~ ended s ->
  exists x s', x.2 = None /\ step x s = Some s' /\ (measure s' < measure s)%nat.
Proof.
  intros Hinv He. destruct (inv_lock _ Hinv) as [[Hf Hno]|[_ (i & (t & Hi & Ht) & _)]].
  2: { destruct t as [t|]; [|done]. destruct (thread_progress i t s) as (s' & ? & ?); [done|done|done|by intros ->|by intros ->|].
       by exists (Some i, None), s'. }
  assert (Hmain : forall s', main_step None s = Some s' -> (measure s' < measure s)%nat ->
                  exists x s', x.2 = None /\ step x s = Some s' /\ (measure s' < measure s)%nat).
  { intros s' Hs Hm. exists (None, None), s'. split_and!; [done| |done].
    unfold step, ended in *. cbn [fst snd]. by destruct (mainpc s). }
  unfold main_step in Hmain. pose proof (inv_main _ Hinv) as Hm. unfold main_inv in Hm.
  unfold ended in He. destruct (mainpc s) as [k|k| |c|] eqn:Hpc; [..|by destruct He|by destruct He].
  - destruct Hm as (Hk & Hle & _). case_decide as Hlt; cbn [from_option] in Hmain; [rewrite failed_0 in Hmain|];
      (eapply Hmain; [reflexivity|]); unfold measure; cbn; rewrite Hpc; [|lia].
    rewrite map_app, sum_list_append. simpl. lia.
  - destruct Hm as (Hlen & Hdone & Hle & _). case_decide as Hlt.
    + destruct (lookup_lt_is_Some_2 (threads s) k) as [[t|] Ht]; [lia| |by destruct (inv_started _ Hinv k)].
      destruct (decide (t = TDone)) as [->|Htd].
      * rewrite Ht in Hmain. eapply Hmain; [reflexivity|]. unfold measure. cbn. rewrite Hpc. lia.
      * destruct (thread_progress k t s) as (s' & ? & ?); try done; [unfold ended; by rewrite Hpc|].
        by exists (Some k, None), s'.
    + eapply Hmain; [reflexivity|]. unfold measure. cbn. rewrite Hpc. lia.
  - eapply Hmain; [reflexivity|]. unfold measure. cbn. rewrite Hpc. lia.
Qed.

(** From every reachable state the program can still end properly. *)
Lemma can_finish s : inv s -> ~ ended s ->
  exists sched, mainpc (run sched s) = MExit 0 /\ out (run sched s) = [Z.of_nat THREADS].
Proof.
  remember (measure s) as n eqn:Hn. revert s Hn.
  induction n as [n IH] using lt_wf_ind. intros s -> Hinv He.
  destruct (progress s Hinv He) as (x & s' & Hx & Hs & Hlt).
  assert (Hok : ok x.2) by (rewrite Hx; apply ok_none).
  assert (Hinv' : inv s') by (by apply (cinv_step x s)).
  assert (Hgo : forall sched, run (x :: sched) s = run sched s') by (intros; unfold run; simpl; by rewrite Hs).
  destruct (mainpc s') as [| | |c|] eqn:Hpc.
  4: { exists [x]. rewrite Hgo. cbn. pose proof (inv_main _ Hinv') as Hm. unfold main_inv in Hm. rewrite Hpc in Hm.
       destruct c; [by split|..]; destruct Hm as [Hc _]; try done. rewrite Hc in Hpc.
       destruct (step_exit x s s' Hinv Hok Hs Hpc) as [e He']. congruence. }
  4: { pose proof (inv_main _ Hinv') as Hm. unfold main_inv in Hm. by rewrite Hpc in Hm. }
  all: destruct (IH _ Hlt s' eq_refl Hinv') as (sched & Hrun); [unfold ended; rewrite Hpc; tauto|];
    exists (x :: sched); by rewrite Hgo.
Qed.

(** The counter is right under every schedule. *)
Lemma counter_correct l sched : free l -> Forall (fun x => ok x.2) sched ->
  let s := run sched (init l) in
  match mainpc s with
  | MFault => False
  | MExit c => (c = 0 /\ out s = [Z.of_nat THREADS]) \/
               (c = 1 /\ out s = [] /\ exists x, x ∈ sched /\ is_Some x.2)
  | _ => exists rest, mainpc (run (sched ++ rest) (init l)) = MExit 0 /\
                      out (run (sched ++ rest) (init l)) = [Z.of_nat THREADS]
  end.
Proof.
  intros Hf Hok s. destruct (cinv_run sched (init l)) as [Hinv Hex]; [by apply cinv_init|done|done|].
  fold s in Hinv, Hex. pose proof (inv_main _ Hinv) as Hm. unfold main_inv in Hm.
  assert (Hgo : ~ ended s -> exists rest, mainpc (run (sched ++ rest) (init l)) = MExit 0 /\
                      out (run (sched ++ rest) (init l)) = [Z.of_nat THREADS]).
  { intros He. destruct (can_finish s Hinv He) as (rest & Hr). exists rest.
    assert (Happ : run (sched ++ rest) (init l) = run rest s) by (unfold s, run; by rewrite foldl_app).
    by rewrite Happ. }
  unfold ended in Hgo. destruct (mainpc s) as [| | |c|]; [apply Hgo; tauto..| |done].
  destruct c; [by left|..]; destruct Hm as [Hc ?]; try done. right. rewrite Hc in *. auto.
Qed.
End machine.

(** ** src/ipc/sem_arr.c *)

Module SemArr.
Definition THREADS : nat := 32.

(** [p_v] calls [semop] until it succeeds, fails for another reason than
    [EINTR] or [EAGAIN] and ends the program, or blocks.  The lock is the value
    of the semaphore. *)
Definition p_v (p : bool) (a : option positive) (v : Z) : option (Z * outcome) :=
  match a with
  | Some e => if (Zpos e =? EINTR) || (Zpos e =? EAGAIN) then Some (v, Retry) else Some (v, Die)
  | None =>
      let op := if p then -1 else 1 in
      if v + op <? 0 then None else Some (v + op, Entered)
  end.

#[export] Instance sem_ops : LockOps Z := {| acquire := p_v true; release := p_v false |}.

#[export] Program Instance sem_lock : Lock Z (fun _ => True) :=
  {| free := fun v => v = 1; held := fun v => v = 0 |}.
Next Obligation. done. Qed.
Next Obligation. intros l ->. done. Qed.
Next Obligation.
  intros [e|] l l' _ Hl; simpl; [by destruct (_ || _)|].
  destruct (Z.ltb_spec (l + -1) 0); [done|]. intros [= <-]. lia.
Qed.
Next Obligation.
  intros [e|] l l' _ ->; simpl; [by destruct (_ || _)|]. by intros [= <-].
Qed.
Next Obligation.
  intros [e|] l l' r _ Hr; simpl; [destruct (_ || _); intros [= <- <-]; eauto|].
  destruct (l + -1 <? 0); [done|]. intros [= _ <-]. done.
Qed.
Next Obligation.
  intros [e|] l l' r _ Hr; simpl; [destruct (_ || _); intros [= <- <-]; eauto|].
  destruct (l + 1 <? 0); [done|]. intros [= _ <-]. done.
Qed.
Next Obligation. intros l ->. by eexists. Qed.
Next Obligation. intros l ->. by eexists. Qed.

(** [if (err)] *)
Definition failed (err : Z) : bool := negb (err =? 0).

(** The semaphore after [semctl(semid, 0, SETVAL, 1)], and no thread yet. *)
Definition start : st := init 1.

(** [main]: a failure of [semget] or of [semctl(SETVAL)] ends the program before
    the threads are created; that of [semctl(IPC_RMID)] at the end is ignored. *)
Definition main (semget setval : option positive) (sched : list (option nat * option positive)) : st :=
  match semget, setval with
  | None, None => run THREADS failed sched start
  | _, _ => set_main (MExit 1) start
  end.

(** C11: sem_arr counts right: under every schedule and every sequence of failures
    the program has no undefined behaviour, prints nothing but the number of its
    threads, and ends early (with status 1) only after a call failed; interrupted
    calls are repeated, and as long as it has not ended it can still end with
    status 0. *)
Theorem sem_arr_counts semget setval sched :
  let s := main semget setval sched in
  match mainpc s with
  | MFault => False
  | MExit c => (c = 0 /\ out s = [32]) \/
      (c = 1 /\ out s = [] /\ (is_Some semget \/ is_Some setval \/ exists x, x ∈ sched /\ is_Some x.2))
  | _ => exists rest, mainpc (main semget setval (sched ++ rest)) = MExit 0 /\
                      out (main semget setval (sched ++ rest)) = [32]
  end.
Proof.
  destruct semget as [e|]; [right; naive_solver|]. destruct setval as [e|]; [right; naive_solver|]. cbv zeta. cbn [main].
  opose proof (counter_correct THREADS failed (fun _ => True) _ _ _ 1 sched _ _) as Hc; [done..|by apply Forall_forall|].
  fold start in Hc. cbv zeta in Hc. destruct (mainpc (run THREADS failed sched start)); naive_solver.
Qed.
End SemArr.

(** ** src/thread/mutex.c *)

Module Mutex.
Definition THREADS : nat := 256.

(** The macro [assert(a, b)] takes a result below zero for a failure; the calls
    of the thread library return zero or a positive error number. *)
Definition failed (err : Z) : bool := err <? 0.

(** [assert(pthread_mutex_lock(&mtx), ...)]: locked or not; after an error the
    thread goes on. *)
Definition lock_ (a : option positive) (locked : bool) : option (bool * outcome) :=
  match a with
  | Some e => Some (locked, if failed (Zpos e) then Die else Entered)
  | None => if locked then None else Some (true, Entered)
  end.

Definition unlock_ (a : option positive) (locked : bool) : option (bool * outcome) :=
  match a with
  | Some e => Some (locked, if failed (Zpos e) then Die else Entered)
  | None => Some (false, Entered)
  end.

#[export] Instance mutex_ops : LockOps bool := {| acquire := lock_; release := unlock_ |}.

(** A mutex keeps its promises when no call on it fails. *)
#[export] Program Instance mutex_lock : Lock bool (fun a => a = None) :=
  {| free := fun b => b = false; held := fun b => b = true |}.
Next Obligation. done. Qed.
Next Obligation. intros l -> ?. done. Qed.
Next Obligation. intros a [] l' -> _; simpl; [done|]. by intros [= <-]. Qed.
Next Obligation. intros a l l' -> ->. by intros [= <-]. Qed.
Next Obligation. intros a [] l' r -> ?; simpl; [done|]. by intros [= <- <-]. Qed.
Next Obligation. intros a l l' r -> ? [= <- <-]. done. Qed.
Next Obligation. intros l ->. by eexists. Qed.
Next Obligation. intros l ->. by eexists. Qed.

(** [PTHREAD_MUTEX_INITIALIZER] *)
Definition start : st := init false.

(** Mutex counts right if no call fails: under every schedule the program has
    no undefined behaviour, if it ends it has printed exactly the number of its
    threads, and as long as it has not ended it can still end. *)
Theorem mutex_counts sched :
  Forall (fun x => x.2 = None) sched ->
  let s := run THREADS failed sched start in
  match mainpc s with
  | MFault => False
  | MExit c => c = 0 /\ out s = [256]
  | _ => exists rest, mainpc (run THREADS failed (sched ++ rest) start) = MExit 0 /\
                      out (run THREADS failed (sched ++ rest) start) = [256]
  end.
Proof.
  intros Hok s.
  pose proof (counter_correct THREADS failed (fun a => a = None) ltac:(done) ltac:(done) ltac:(done) false sched eq_refl Hok) as Hc.
  cbv zeta in Hc. fold start in Hc. fold s in Hc. destruct (mainpc s); try done.
  destruct Hc as [Hc|(_ & _ & x & Hx & [e He])]; [done|].
  rewrite Forall_forall in Hok. by rewrite (Hok x Hx) in He.
Qed.

(** The checks of mutex.c see no error: when the system refuses to create the
    first thread, whatever it is refused for, [main] creates the others and then
    joins a thread that does not exist, which is undefined. *)
Theorem mutex_create_unchecked e :
  mainpc (run THREADS failed ((None, Some e) :: replicate 257 (None, None)) start) = MFault.
Proof. by vm_compute. Qed.

Lemma mutex_counts_witness :
  let sched := concat (replicate 300 [(None, None); (Some 3%nat, None)]) in
  Forall (fun x : option nat * option positive => x.2 = None) sched /\
  let s := run THREADS failed sched start in
  match mainpc s with
  | MFault => False
  | MExit c => c = 0 /\ out s = [256]
  | _ => exists rest, mainpc (run THREADS failed (sched ++ rest) start) = MExit 0 /\
                      out (run THREADS failed (sched ++ rest) start) = [256]
  end.
Proof.
  intros sched. assert (Hok : Forall (fun x : option nat * option positive => x.2 = None) sched).
  { apply Forall_concat, Forall_replicate. by repeat constructor. }
  split; [exact Hok|]. exact (mutex_counts sched Hok).
Defined.
End Mutex.
