(* ===== verification/SharedMem.v ===== *)
(** * SharedMem: the loops of src/ipc/shm.c, and src/adio/mmap_share.c

    A process that prints numbered messages into shared memory with [snprintf]
    and one that prints the memory with [printf("%s")], without any lock.  Both
    programs are the machine below, with their own template, size, and order of
    counting.  A step of the writer stores one byte, a step of the reader loads
    one, and the steps alternate in any order.  The memory is the segment that
    [shmget] or [mmap] provides: zero, or (for a segment of System V, which
    outlives the program) what an earlier run has left. *)

From S2P Require Import Prelude Prog Cstd.

(** Where the writer is: between two messages, or before the next byte. *)
Inductive wpos := WIdle | WCopy (pos : nat) (rest : list byte).

(** Where the reader is: between two lines, or at a position of the string, with
    what it has read so far. *)
Inductive rpos := RIdle | RScan (pos : nat) (acc : list byte).

Record sm := Sm { mem : list byte; count : Z; writer : wpos; reader : rpos; printed : list (list byte) }.

Inductive who := Writer | Reader.

Section machine.
(** The text before the number, the size of the memory, and whether the number
    is incremented before it is printed ([count++;] in a statement of its own)
    or after ([count++] as the argument). *)
Context (tmpl : list byte) (size : nat) (before : bool).

(** The string that is printed when the counter has become [c]. *)
Definition message (c : Z) : list byte := tmpl ++ dec (if before then c else c - 1).

(** [snprintf(mem, size, ...)]: at most [size - 1] bytes and the final zero. *)
Definition written (c : Z) : list byte := take (size - 1) (message c) ++ [x00].

Definition writer_step (s : sm) : fault + sm :=
  match writer s with
  | WIdle =>
      let c := count s + 1 in
      if in_int c then inr (Sm (mem s) c (WCopy 0 (written c)) (reader s) (printed s))
      else inl SignedOverflow
  | WCopy pos [] => inr (Sm (mem s) (count s) WIdle (reader s) (printed s))
  | WCopy pos (b :: bs) =>
      if decide (pos < length (mem s))%nat
      then inr (Sm (<[pos := b]> (mem s)) (count s) (WCopy (S pos) bs) (reader s) (printed s))
      else inl OutOfBounds
  end.

Definition reader_step (s : sm) : fault + sm :=
  match reader s with
  | RIdle => inr (Sm (mem s) (count s) (writer s) (RScan 0 []) (printed s))
  | RScan pos acc =>
      match mem s !! pos with
      | None => inl OutOfBounds
      | Some b =>
          if decide (b = x00)
          then inr (Sm (mem s) (count s) (writer s) RIdle (printed s ++ [acc]))
          else inr (Sm (mem s) (count s) (writer s) (RScan (S pos) (acc ++ [b])) (printed s))
      end
  end.

Definition step (x : who) : sm -> fault + sm :=
  match x with Writer => writer_step | Reader => reader_step end.

(** A schedule is a list of the processes that take the next step. *)
Fixpoint run (l : list who) (s : sm) : fault + sm :=
  match l with
  | [] => inr s
  | x :: l' => match step x s with inl f => inl f | inr s' => run l' s' end
  end.

(** ** What the reader can see *)

Definition is_digit (b : byte) : Prop := exists d, 0 <= d <= 9 /\ b = digit d.

(** A byte that position [j] of the memory can hold. *)
Definition cell (j : nat) (b : byte) : Prop :=
  b = x00 \/
  match tmpl !! j with
  | Some t => b = t
  | None => is_digit b /\ (j < length tmpl + 10)%nat
  end.

(** A string that can be printed: a part of the template, or all of it and at
    most ten digits. *)
Definition line_ok (l : list byte) : Prop :=
  l `prefix_of` tmpl \/
  exists ds, l = tmpl ++ ds /\ (length ds <= 10)%nat /\ Forall is_digit ds.

Hypothesis Hsize : (length tmpl + 11 < size)%nat.
Hypothesis Htmpl : x00 ∉ tmpl.

Lemma digits_are_digits fuel n acc :
  0 <= n -> Forall is_digit acc -> Forall is_digit (digits fuel n acc).
Proof.
  revert n acc. induction fuel as [|f IH]; intros n acc Hn Hacc; cbn [digits]; [done|].
  destruct (Z.ltb_spec n 10).
  - constructor; [|done]. exists n. split; [lia|done].
  - apply IH; [apply Z.div_pos; lia|]. constructor; [|done]. exists (n mod 10). pose proof (Z.mod_pos_bound n 10).
    split; [lia|done].
Qed.

Lemma dec_digits n : 0 <= n -> Forall is_digit (dec n) /\ (length (dec n) <= 10)%nat.
Proof.
  intros Hn. unfold dec. destruct (Z.ltb_spec n 0); [lia|]. split; [by apply digits_are_digits; [|constructor]|].
  apply (digits_length 10 n []).
Qed.

Lemma written_eq c : 0 < c -> written c = message c ++ [x00].
Proof.
  intros Hc. unfold written. rewrite take_ge; [done|]. unfold message. rewrite length_app.
  destruct (dec_digits (if before then c else c - 1)) as [_ ?]; [destruct before; lia|]. lia.
Qed.

Lemma written_cell c j b : 0 < c -> written c !! j = Some b -> cell j b /\ (j < size)%nat.
Proof.
  intros Hc Hj. rewrite written_eq in Hj by done. unfold message in Hj. unfold cell.
  destruct (dec_digits (if before then c else c - 1)) as [Hd Hl]; [destruct before; lia|].
  pose proof (lookup_lt_Some _ _ _ Hj) as Hlt. rewrite !length_app in Hlt. simpl in Hlt. split; [|lia].
  rewrite <-(assoc_L (++)) in Hj. apply lookup_app_Some in Hj as [Hj|[Hge Hj]]; [right; by rewrite Hj|].
  rewrite lookup_ge_None_2 by done. apply lookup_app_Some in Hj as [Hj|[_ Hj]].
  - right. split; [by apply (Forall_lookup_1 _ _ _ _ Hd Hj)|]. apply lookup_lt_Some in Hj. lia.
  - left. by apply list_elem_of_lookup_2, list_elem_of_singleton in Hj.
Qed.

(** ** The invariant *)

Record inv (s : sm) : Prop := {
  i_len : length (mem s) = size;
  i_cell : forall j b, mem s !! j = Some b -> cell j b;
  i_count : 0 <= count s <= INT_MAX;
  i_writer : match writer s with
             | WIdle => count s = 0 \/ take (length (written (count s))) (mem s) = written (count s)
             | WCopy pos rest => 0 < count s /\ exists done, written (count s) = done ++ rest /\
                 pos = length done /\ take pos (mem s) = done
             end;
  i_reader : match reader s with
             | RIdle => True
             | RScan pos acc => length acc = pos /\ (pos <= length tmpl + 10)%nat /\ line_ok acc
             end;
  i_printed : Forall line_ok (printed s) }.

Lemma line_ok_snoc acc b :
  line_ok acc -> cell (length acc) b -> b <> x00 -> line_ok (acc ++ [b]) /\ (length acc < length tmpl + 10)%nat.
Proof.
  intros Hacc [?|Hc] Hb; [done|]. destruct (tmpl !! length acc) as [t|] eqn:Et.
  - subst t. pose proof (lookup_lt_Some _ _ _ Et). split; [|lia]. left.
    assert (acc = take (length acc) tmpl) as Ha.
    { destruct Hacc as [[k Hk]|(ds & -> & _)]; [by rewrite Hk, take_app_length|].
      rewrite length_app in *. rewrite take_ge by lia. by destruct ds; [rewrite app_nil_r|simpl in *; lia]. }
    rewrite Ha at 1. rewrite <-take_S_r by done. exists (drop (S (length acc)) tmpl). by rewrite take_drop.
  - destruct Hc as [Hd Hlt]. split; [|done]. apply lookup_ge_None in Et. right.
    destruct Hacc as [[k Hk]|(ds & -> & Hl & Hds)].
    + assert (k = []) as -> by (apply (f_equal length) in Hk; rewrite length_app in Hk; destruct k; [done|simpl in Hk; lia]).
      rewrite app_nil_r in Hk. subst acc. exists [b]. by split_and!; [|simpl; lia|repeat constructor].
    + exists (ds ++ [b]). rewrite length_app in *. split_and!; [by rewrite (assoc_L (++))|simpl; lia|].
      apply Forall_app. by split; [|repeat constructor].
Qed.

Lemma inv_writer s : inv s ->
  match writer_step s with
  | inl f => f = SignedOverflow /\ count s = INT_MAX
  | inr s' => inv s'
  end.
Proof.
  intros []. unfold writer_step. destruct (writer s) as [|pos [|b bs]] eqn:Ew.
  - destruct (in_int (count s + 1)) eqn:Ei.
    + apply in_int_spec in Ei. split; cbn; try done; [lia|]. split; [lia|]. by exists [].
    + split; [done|]. destruct (decide (count s = INT_MAX)); [done|].
      assert (in_int (count s + 1) = true) by (apply in_int_spec; unfold INT_MIN, INT_MAX in *; lia). congruence.
  - destruct i_writer0 as (Hc & dn & Hw & -> & Ht). rewrite app_nil_r in Hw. split; cbn; try done. right. by rewrite Hw.
  - destruct i_writer0 as (Hc & dn & Hw & -> & Ht).
    assert (Hb : written (count s) !! length dn = Some b) by (by rewrite Hw, list_lookup_middle).
    apply written_cell in Hb as [Hcell Hlt]; [|done]. rewrite decide_True by lia. split; cbn; try done.
    + by rewrite length_insert.
    + intros j c. rewrite list_lookup_insert_Some. intros [(<- & <- & _)|[_ Hj]]; [done|by apply i_cell0].
    + split; [done|]. exists (dn ++ [b]). split_and!; [by rewrite <-(assoc_L (++))|rewrite length_app; simpl; lia|].
      rewrite (take_S_r _ _ b) by (apply list_lookup_insert_eq; lia). by rewrite take_insert_ge, Ht.
Qed.

Lemma inv_reader s : inv s -> exists s', reader_step s = inr s' /\ inv s'.
Proof.
  intros []. unfold reader_step. destruct (reader s) as [|pos acc] eqn:Er.
  - eexists. split; [done|]. split; cbn; try done. split_and!; [done|lia|]. left. apply prefix_nil.
  - destruct i_reader0 as (Hp & Hle & Hok). destruct (lookup_lt_is_Some_2 (mem s) pos) as [b Hb]; [lia|]. rewrite Hb.
    case_decide as Hb0; (eexists; split; [done|]); split; cbn; try done.
    + apply Forall_app. split; [done|]. by apply Forall_singleton.
    + apply i_cell0 in Hb. rewrite <-Hp in Hb. apply line_ok_snoc in Hb as [? ?]; [|done|done].
      rewrite length_app. split_and!; [simpl; lia|lia|done].
Qed.

Lemma sm_inv_run l s : inv s ->
  match run l s with
  | inl f => f = SignedOverflow
  | inr s' => inv s'
  end.
Proof.
  revert s. induction l as [|[] l IH]; intros s Hs; cbn [run step]; [done| |].
  - pose proof (inv_writer s Hs) as Hw. destruct (writer_step s); [by destruct Hw|by apply IH].
  - destruct (inv_reader s Hs) as (s' & -> & Hs'). by apply IH.
Qed.

(** A memory of the right size with possible contents. *)
Definition fit (m : list byte) : Prop := length m = size /\ forall j b, m !! j = Some b -> cell j b.

Definition init (m : list byte) : sm := Sm m 0 WIdle RIdle [].

Lemma sm_inv_init m : fit m -> inv (init m).
Proof. intros [? ?]. split; cbn; try done. by left. Qed.

(** Fresh memory is zero. *)
Lemma fit_zero : fit (replicate size x00).
Proof. split; [apply length_replicate|]. intros j b [-> _]%lookup_replicate. by left. Qed.

(** ** A reader that is not disturbed *)

Lemma scan_rest s l pos acc rest :
  take (length l) (mem s) = l -> l = acc ++ rest ++ [x00] -> pos = length acc -> x00 ∉ rest ->
  run (replicate (S (length rest)) Reader) (Sm (mem s) (count s) (writer s) (RScan pos acc) (printed s)) =
  inr (Sm (mem s) (count s) (writer s) RIdle (printed s ++ [acc ++ rest])).
Proof.
  intros Hl. revert pos acc. induction rest as [|b rest IH]; intros pos acc Hacc -> Hn.
  - assert (Hb : mem s !! length acc = Some x00).
    { rewrite <-(lookup_take_lt (mem s) (length l)), Hl, Hacc by (rewrite Hacc, length_app; simpl; lia).
      by rewrite lookup_app_r, Nat.sub_diag by lia. }
    cbn. rewrite Hb, app_nil_r. by rewrite decide_True.
  - apply not_elem_of_cons in Hn as [Hb0 Hn].
    assert (Hb : mem s !! length acc = Some b).
    { rewrite <-(lookup_take_lt (mem s) (length l)), Hl, Hacc by (rewrite Hacc, !length_app; simpl; lia).
      by rewrite lookup_app_r, Nat.sub_diag by lia. }
    change (replicate (S (length (b :: rest))) Reader) with (Reader :: replicate (S (length rest)) Reader).
    cbn [run step]. unfold reader_step at 1. cbn [reader mem]. rewrite Hb, decide_False by done. cbn [mem count writer printed].
    rewrite (IH (S (length acc)) (acc ++ [b])); [by rewrite <-(assoc_L (++))|by rewrite <-(assoc_L (++))|rewrite length_app; simpl; lia|done].
Qed.

Lemma message_no_zero c : 0 < c -> x00 ∉ message c.
Proof.
  intros Hc. unfold message. rewrite elem_of_app. intros [?|Hx]; [done|].
  destruct (dec_digits (if before then c else c - 1)) as [Hd _]; [destruct before; lia|].
  rewrite Forall_forall in Hd. destruct (Hd _ Hx) as (d & Hr & He). pose proof (digit_uchar d Hr) as Hu.
  rewrite <-He in Hu. change (uchar x00) with 0 in Hu. lia.
Qed.

Lemma quiet_read s :
  inv s -> writer s = WIdle -> 0 < count s -> reader s = RIdle ->
  run (replicate (length (message (count s)) + 2) Reader) s =
  inr (Sm (mem s) (count s) WIdle RIdle (printed s ++ [message (count s)])).
Proof.
  intros [] Hw Hc Hr. rewrite Hw in i_writer0. destruct i_writer0 as [?|Hm]; [lia|].
  rewrite Nat.add_comm. cbn [Nat.add]. cbn [replicate run step]. unfold reader_step at 1. rewrite Hr.
  rewrite <-Hw. apply (scan_rest s (written (count s)) 0 []); [done| |done|by apply message_no_zero].
  by apply written_eq.
Qed.
End machine.

(** ** The two programs *)

Module Shm.
Definition BUF_SIZE : nat := 1024.
Definition MSG_TPL : list byte := bytes "hello mq ".
Definition prog_run := run MSG_TPL BUF_SIZE true.
End Shm.

Module MmapShare.
Definition BUF_SIZE : nat := Z.to_nat 4096.
Definition TPL : list byte := bytes "hello world, count = ".
Definition prog_run := run TPL BUF_SIZE false.

(** [main], with the results of [mmap] and [fork]: an exit status, or the run of
    the two processes on memory that is zero. *)
Definition main (mapped forked : bool) (l : list who) : Z + (fault + sm) :=
  if negb mapped then inl 1 else
  if negb forked then inl 1 else
  inr (prog_run l (init (replicate BUF_SIZE x00))).
End MmapShare.

(** C20: shm.c and mmap_share.c, under every interleaving of single loads and
    stores, on fresh memory (shm.c also on memory an earlier run has left; a
    mmap_share.c without memory or child ends with status 1): the
    reader never runs past the memory, what it prints is always a part of the
    text or the text with one to ten digits (or none), and the only undefined
    behaviour is the overflow of the counter; whenever the writer rests, a
    reader that is not disturbed prints exactly the last message. *)
Theorem shared_memory_safe l :
  (forall m, fit Shm.MSG_TPL Shm.BUF_SIZE m ->
   match Shm.prog_run l (init m) with
   | inl f => f = SignedOverflow
   | inr s => Forall (line_ok Shm.MSG_TPL) (printed s) /\
       (writer s = WIdle -> 0 < count s -> reader s = RIdle ->
        Shm.prog_run (replicate (length (message Shm.MSG_TPL true (count s)) + 2) Reader) s =
        inr (Sm (mem s) (count s) WIdle RIdle (printed s ++ [message Shm.MSG_TPL true (count s)])))
   end) /\
  forall mapped forked,
  match MmapShare.main mapped forked l with
  | inl c => c = 1 /\ mapped && forked = false
  | inr (inl f) => f = SignedOverflow
  | inr (inr s) => Forall (line_ok MmapShare.TPL) (printed s) /\
      (writer s = WIdle -> 0 < count s -> reader s = RIdle ->
       MmapShare.prog_run (replicate (length (message MmapShare.TPL false (count s)) + 2) Reader) s =
       inr (Sm (mem s) (count s) WIdle RIdle (printed s ++ [message MmapShare.TPL false (count s)])))
  end.
Proof.
  assert (Hall : forall tmpl size before m, (length tmpl + 11 < size)%nat -> x00 ∉ tmpl -> fit tmpl size m ->
    match run tmpl size before l (init m) with
    | inl f => f = SignedOverflow
    | inr s => Forall (line_ok tmpl) (printed s) /\
       (writer s = WIdle -> 0 < count s -> reader s = RIdle ->
        run tmpl size before (replicate (length (message tmpl before (count s)) + 2) Reader) s =
        inr (Sm (mem s) (count s) WIdle RIdle (printed s ++ [message tmpl before (count s)])))
    end).
  { intros tmpl size before m Hs Ht Hf. pose proof (sm_inv_run tmpl size before Hs l (init m) (sm_inv_init _ _ _ _ Hf)) as Hr.
    destruct (run tmpl size before l (init m)) as [f|s]; [done|]. split; [by destruct Hr|].
    intros. by apply quiet_read. }
  split.
  - intros m Hf. apply Hall; [unfold Shm.BUF_SIZE; vm_compute; lia| |done]. by vm_compute; set_solver.
  - intros [] []; try done. unfold MmapShare.main. cbn [negb].
    apply Hall; [vm_compute; lia| |apply fit_zero]. by vm_compute; set_solver.
Qed.

(** Without a lock the reader can print a number that is not the writer's:
    after 9 it can print 1, when it comes between the two digits of 10. *)
Theorem shm_torn_read :
  exists l s, Shm.prog_run l (init (replicate Shm.BUF_SIZE x00)) = inr s /\
    printed s = [bytes "hello mq 9"; bytes "hello mq 1"] /\ count s = 10.
Proof.
  exists (replicate (9 * 13) Writer ++ replicate 12 Reader ++ replicate 11 Writer ++ replicate 12 Reader).
  eexists. split; [vm_compute; reflexivity|]. done.
Qed.
