(* ===== verification/Ipc.v ===== *)
(** * Ipc: src/ipc/pipe.c, src/ipc/msg.c

    Two programs in which one process sends a fixed message again
    and again and another prints what it receives.  For msg.c these are the single
    rounds; its processes and queues are in [SysV]. *)

From S2P Require Import Prelude Prog Posix.

(** ** pipe.c *)
Module Pipe.

Definition BUF_SIZE : nat := 1024.
Definition MESSAGE : list byte := bytes "hello pipe" ++ [x0a].

(** How much a pipe holds, on Linux. *)
Definition PIPE_CAP : nat := Z.to_nat 65536.

(** The parent: before [close(pd[0])], in its loop, ended with a status, or ended
    by a signal.  The child: before [close(pd[1])], in its loop, before
    [close(pd[0])], ended, ended by a signal, or never made. *)
Inductive pproc := PClose | PLoop | PExited (code : Z) | PKilled.
Inductive cproc := CClose | CLoop | CLeft | CExited (code : Z) | CKilled | CAbsent.

(** The pipe, who has which end open, what the child has written, and where the
    two processes are. *)
Record st := St {
  pipe : list byte;
  par_rd : bool; par_wr : bool; chi_rd : bool; chi_wr : bool;
  out : list byte;
  parent : pproc;
  child : cproc }.

(** What happens next: the parent or the child makes its next call, with the
    answers of the system, or a signal ends one of them. *)
Inductive event := Parent (served : bool) | Child (rd wr : sysans) | KillParent | KillChild.

(** [write(pd[1], MESSAGE, strlen(MESSAGE))]: without a reader the process gets
    SIGPIPE; without room for the message it waits.  The result is not looked at. *)
Definition parent_step (served : bool) (s : st) : st :=
  match parent s with
  | PClose => St (pipe s) false (par_wr s) (chi_rd s) (chi_wr s) (out s) PLoop (child s)
  | PLoop =>
      if negb served then s else
      if negb (par_rd s || chi_rd s) then St (pipe s) false false (chi_rd s) (chi_wr s) (out s) PKilled (child s) else
      if decide (length (pipe s) + length MESSAGE <= PIPE_CAP)%nat
      then St (pipe s ++ MESSAGE) (par_rd s) (par_wr s) (chi_rd s) (chi_wr s) (out s) PLoop (child s) else s
  | PExited _ | PKilled => s
  end.

(** [len = read(pd[0], buf, BUF_SIZE)]: an empty pipe that is open for writing
    blocks, a failure leaves the loop.  The result of [write] is not looked at.
    After the loop the child closes its end and calls [exit(0)]. *)
Definition child_step (rd wr : sysans) (s : st) : st :=
  match child s with
  | CClose => St (pipe s) (par_rd s) (par_wr s) (chi_rd s) false (out s) (parent s) CLoop
  | CLoop =>
      match rd with
      | AErr _ => St (pipe s) (par_rd s) (par_wr s) (chi_rd s) (chi_wr s) (out s) (parent s) CLeft
      | _ =>
          if decide (pipe s = [] /\ par_wr s || chi_wr s = true) then s else
          let n := transfer rd (Nat.min BUF_SIZE (length (pipe s))) in
          let buf := take n (pipe s) in
          let m := match wr with AErr _ => O | _ => transfer wr n end in
          St (drop n (pipe s)) (par_rd s) (par_wr s) (chi_rd s) (chi_wr s) (out s ++ take m buf) (parent s) CLoop
      end
  | CLeft => St (pipe s) (par_rd s) (par_wr s) false false (out s) (parent s) (CExited 0)
  | CExited _ | CKilled | CAbsent => s
  end.

Definition step (e : event) (s : st) : st :=
  match e with
  | Parent served => parent_step served s
  | Child rd wr => child_step rd wr s
  | KillParent =>
      match parent s with
      | PExited _ => s
      | _ => St (pipe s) false false (chi_rd s) (chi_wr s) (out s) PKilled (child s)
      end
  | KillChild =>
      match child s with
      | CExited _ | CAbsent => s
      | _ => St (pipe s) (par_rd s) (par_wr s) false false (out s) (parent s) CKilled
      end
  end.

Definition run (l : list event) (s : st) : st := foldl (fun s e => step e s) s l.

(** [main], with the results of [pipe] and [fork]. *)
Definition main (piped forked : bool) : st :=
  if piped && forked then St [] true true true true [] PClose CClose
  else St [] false false false false [] (PExited 1) CAbsent.

(** The child's output accepts all it is given. *)
Definition whole_writes (e : event) : Prop :=
  match e with Child _ wr => wr = AFull | _ => True end.

Lemma pipe_step e s k :
  whole_writes e -> out s ++ pipe s = concat (replicate k MESSAGE) ->
  exists k', out (step e s) ++ pipe (step e s) = concat (replicate k' MESSAGE).
Proof.
  intros Hw Hs. assert (Hsame : exists k', out s ++ pipe s = concat (replicate k' MESSAGE)) by (exists k; exact Hs).
  destruct e as [b|rd wr| |]; cbn [step].
  - unfold parent_step. destruct (parent s), b; cbn [negb]; try exact Hsame. case_match; [exact Hsame|].
    case_decide; [|exact Hsame]. exists (S k). cbn [out pipe].
    rewrite replicate_S_end, concat_app, concat_cons, app_nil_r, (assoc_L (++)), Hs. reflexivity.
  - simpl in Hw. subst wr. unfold child_step. destruct (child s); try exact Hsame.
    destruct rd; try exact Hsame; (case_decide; [exact Hsame|]); cbn [out pipe].
    all: rewrite transfer_full, firstn_firstn, Nat.min_id, <-(assoc_L (++)), take_drop; exact Hsame.
  - destruct (parent s); exact Hsame.
  - destruct (child s); exact Hsame.
Qed.

(** In its loop, and when it has ended, a process has closed what it must. *)
Definition closed (s : st) : Prop :=
  match parent s with PClose => True | PLoop => par_rd s = false | _ => par_rd s = false /\ par_wr s = false end /\
  match child s with CClose => True | CLoop | CLeft => chi_wr s = false | _ => chi_rd s = false /\ chi_wr s = false end.

Lemma closed_step e s : closed s -> closed (step e s).
Proof.
  destruct s as [p a b c d o pr ch]. unfold closed. cbn [parent par_rd par_wr child chi_rd chi_wr]. intros [Hp Hc].
  destruct e as [served|rd wr| |]; cbn [step parent child].
  - unfold parent_step. cbn [parent]. destruct pr; try done. destruct served; [|done]. cbn [negb].
    repeat case_match; done.
  - unfold child_step. cbn [child]. destruct ch; try done. destruct rd; try done; by case_decide.
  - by destruct pr.
  - by destruct ch.
Qed.

Lemma closed_run l s : closed s -> closed (run l s).
Proof. revert s. induction l as [|e l IH]; intros s Hs; [done|]. by apply IH, closed_step. Qed.

Lemma closed_main piped forked : closed (main piped forked).
Proof. by destruct piped, forked. Qed.

(** An event that is no failure of the child's [read] and does not end it. *)
Definition child_goes_on (e : event) : Prop :=
  match e with Child (AErr _) _ | KillChild => False | _ => True end.

(** The parent is gone and the child has read all. *)
Definition at_eof (s : st) : Prop := child s = CLoop /\ parent s = PKilled /\ pipe s = [] /\ closed s.

Lemma eof_step e s : at_eof s -> child_goes_on e -> at_eof (step e s) /\ out (step e s) = out s.
Proof.
  intros (Hch & Hpa & Hpi & Hcl) He. pose proof (closed_step e s Hcl) as Hcl'. unfold at_eof.
  destruct s as [p a b c d o pr ch]. cbn in Hch, Hpa, Hpi. subst. destruct Hcl as [[? ?] ?]. cbn in *. subst.
  destruct e as [served|rd wr| |]; [done| |done|done]. cbn [step child_step child pipe par_wr chi_wr] in *.
  destruct rd as [| |]; [| |done]; rewrite decide_False in * by (by intros [_ ?]); cbn [child parent pipe out] in *.
  all: rewrite drop_nil, !take_nil, app_nil_r; by split_and!.
Qed.

(** The end of the file is not distinguished from a message. *)
Lemma eof_spins l s : at_eof s -> Forall child_goes_on l -> child (run l s) = CLoop /\ out (run l s) = out s.
Proof.
  intros Hs Hall. revert s Hs. induction Hall as [|e l He _ IH]; intros s Hs; [by destruct Hs|].
  destruct (eof_step e s Hs He) as [Hs' Ho]. destruct (IH _ Hs') as [? Ho']. split; [done|]. by rewrite <-Ho.
Qed.

(** C29: pipe.c as a whole, whether or not its pipe and its child can be made,
    under every interleaving, with short and failing reads, failing writes of the
    parent, and signals that may end either process at any time: the child's
    output followed by what is still in the pipe is a repetition of the message
    (if the child's own writes are not cut short): bytes are neither lost, repeated
    nor reordered.  A parent whose child is gone is ended by its next [write]; a
    child whose parent is gone and whose pipe is empty never ends by itself: it
    reads nothing for ever. *)
Theorem pipe_fifo piped forked l :
  Forall whole_writes l ->
  let s := run l (main piped forked) in
  (exists k, out s ++ pipe s = concat (replicate k MESSAGE)) /\
  (piped && forked = false -> parent s = PExited 1 /\ child s = CAbsent /\ out s = []) /\
  (parent s = PLoop -> chi_rd s = false -> parent (step (Parent true) s) = PKilled) /\
  (forall l', child s = CLoop -> parent s = PKilled -> pipe s = [] -> Forall child_goes_on l' ->
     child (run l' s) = CLoop /\ out (run l' s) = out s).
Proof.
  intros Hl s. pose proof (closed_run l _ (closed_main piped forked)) as Hc. fold s in Hc. split_and!.
  - assert (H0 : exists k, out (main piped forked) ++ pipe (main piped forked) = concat (replicate k MESSAGE))
      by (exists 0%nat; by destruct piped, forked).
    revert H0. unfold s. clear s Hc. generalize (main piped forked) as s0. induction Hl as [|e l He _ IH]; intros s0 [k Hk]; [by exists k|].
    cbn. apply IH. by apply (pipe_step e s0 k).
  - intros Hf. unfold s, main. rewrite Hf. clear. induction l as [|[] l IH]; done.
  - intros Hp Hr. destruct Hc as [Hc _]. rewrite Hp in Hc. cbn [step]. unfold parent_step. rewrite Hp, Hc, Hr. done.
  - intros l' Hch Hpa Hpi Hall. by apply eof_spins.
Qed.

Lemma pipe_fifo_witness :
  exists k, out (run [Parent true; Child AFull AFull; Parent true; Parent true; Child (ALen 5) AFull; KillParent] (main true true)) ++
            pipe (run [Parent true; Child AFull AFull; Parent true; Parent true; Child (ALen 5) AFull; KillParent] (main true true)) =
            concat (replicate k MESSAGE).
Proof.
  apply (pipe_fifo true true [Parent true; Child AFull AFull; Parent true; Parent true; Child (ALen 5) AFull; KillParent]).
  by repeat constructor.
Defined.

End Pipe.

(** ** msg.c *)
Module Msg.

Definition BUF_SIZE : nat := 1024.
Definition MESSAGE : list byte := bytes "hello mq".

(** The number of bytes of the [long] in front of a message's text. *)
Definition LONG : nat := 8.

(** A message in the queue: its type, as the bytes of a [long], and its text. *)
Record msg := Msg { mtype : list byte; mtext : list byte }.

(** The value of the bytes, little end first, as a [long]. *)
Definition long_of (l : list byte) : Z :=
  let v := foldr (fun b v => uchar b + 256 * v) 0 l in if v <? 2 ^ 63 then v else v - 2 ^ 64.

(** [msgsnd(mq, p, sz, 0)]: the type is read at [p] and the text behind it; a type
    below one is refused.  The result is -1 or the new queue. *)
Definition msgsnd (mem : list byte) (sz : nat) (q : list msg) : fault + option (list msg) :=
  if decide (length mem < LONG + sz)%nat then inl OutOfBounds else
  let m := Msg (take LONG mem) (take sz (drop LONG mem)) in
  inr (if long_of (mtype m) <? 1 then None else Some (q ++ [m])).

(** [msgrcv(mq, buf, sz, 0, 0)] of the first message: the type is stored at [buf]
    and the text behind it; a longer text is an error (E2BIG). *)
Definition msgrcv (buf : list byte) (sz : nat) (m : msg) : fault + option (list byte) :=
  if decide (sz < length (mtext m))%nat then inr None else
  if decide (length buf < LONG + length (mtext m))%nat then inl OutOfBounds else
  inr (Some (mtype m ++ mtext m ++ drop (LONG + length (mtext m)) buf)).

(** One round of the parent: the literal with its zero, and [rest], what follows
    it in memory. *)
Definition send (rest : list byte) (q : list msg) : fault + option (list msg) :=
  msgsnd (MESSAGE ++ [x00] ++ rest) (length MESSAGE) q.

(** One round of the child: what it prints, and its buffer. *)
Definition receive (buf : list byte) (m : msg) : M unit (option (list byte * list byte)) :=
  match msgrcv buf BUF_SIZE m with
  | inl f => fail f
  | inr None => mret None
  | inr (Some buf) => s ← mem_string buf; mret (Some (s, buf))
  end.

(** msg.c sends its string where the type of the message belongs.  The text it
    sends is the string's terminating zero and seven bytes behind the literal, a
    read past the end of the array; the child still prints "hello mq", since the
    type is stored in front of the text and the zero follows it, whatever the
    other seven bytes are. *)
Theorem msg_prints_by_accident rest q buf :
  length buf = BUF_SIZE ->
  (length rest < 7)%nat /\ send rest q = inl OutOfBounds \/
  exists m buf', send rest q = inr (Some (q ++ [m])) /\ mtype m = MESSAGE /\ mtext m = x00 :: take 7 rest /\
    receive buf m tt = Ok (Some (MESSAGE, buf')) tt /\ length buf' = BUF_SIZE.
Proof.
  intros Hbuf. unfold send, msgsnd. change (length MESSAGE) with 8%nat. unfold LONG.
  rewrite length_app, length_app. change (length MESSAGE) with 8%nat. cbn [length].
  destruct (decide (8 + (1 + length rest) < 8 + 8)%nat) as [Hd|Hd]; [left; split; [lia|done]|right].
  exists (Msg MESSAGE (x00 :: take 7 rest)), (MESSAGE ++ (x00 :: take 7 rest) ++ drop 16 buf).
  split_and!; [done|done|done| |].
  2: { rewrite !length_app. change (length MESSAGE) with 8%nat. cbn [length].
       rewrite length_take, length_drop, Hbuf. unfold BUF_SIZE. lia. }
  unfold receive, msgrcv. cbn [mtext mtype]. cbn [length]. rewrite length_take, Nat.min_l by lia.
  rewrite !decide_False by (unfold BUF_SIZE, LONG in *; lia). rewrite <-!app_comm_cons.
  unfold mbind, M_bind. rewrite mem_string_ok; [done|]. by vm_compute; set_solver.
Qed.

Lemma msg_prints_by_accident_witness :
  exists m buf', send (replicate 7 x41) [] = inr (Some ([] ++ [m])) /\ mtype m = MESSAGE /\ mtext m = x00 :: take 7 (replicate 7 x41) /\
    receive (replicate BUF_SIZE x00) m tt = Ok (Some (MESSAGE, buf')) tt /\ length buf' = BUF_SIZE.
Proof.
  destruct (msg_prints_by_accident (replicate 7 x41) [] (replicate BUF_SIZE x00)) as [[H _]|H]; [reflexivity| |exact H].
  vm_compute in H. lia.
Defined.

(** The buffer of msg.c is too short for the length it gives to [msgrcv]: a
    text of more than 1016 bytes, which the call accepts, is stored past its end. *)
Theorem msgrcv_overflows_buffer m buf :
  length buf = BUF_SIZE -> (1016 < length (mtext m) <= BUF_SIZE)%nat ->
  receive buf m tt = Fault OutOfBounds tt.
Proof.
  intros Hb Hm. unfold receive, msgrcv. rewrite decide_False by lia.
  rewrite decide_True by (unfold BUF_SIZE, LONG in *; lia). done.
Qed.

Lemma msgrcv_overflows_buffer_witness :
  receive (replicate BUF_SIZE x00) (Msg (replicate 8 x01) (replicate 1017 x41)) tt = Fault OutOfBounds tt.
Proof. apply msgrcv_overflows_buffer; [reflexivity|]. cbn [mtext]. rewrite length_replicate. unfold BUF_SIZE. lia. Defined.

End Msg.
