(* ===== verification/SysV.v ===== *)
(** * SysV: src/ipc/shm.c and src/ipc/msg.c from their first call on

    [SharedMem] and Module [Msg] of [Ipc] model the loops of the two programs.
    Here the processes first find the object they share: each one on its own
    computes the key with [ftok] and asks for the object of that key, which is
    made when there is none.  The calls of the two processes interleave in every
    order, each may fail, and the objects outlive the program. *)

From S2P Require Import Prelude Prog Cstd SharedMem Ipc.

(** ** Keys and objects *)

(** [ftok]: the low bits of the inode, the device and the project id, as an [int]. *)
Definition ftok (st_dev st_ino proj_id : Z) : Z :=
  let k := Z.lor (Z.land st_ino 65535)
                 (Z.lor (Z.shiftl (Z.land st_dev 255) 16) (Z.shiftl (Z.land proj_id 255) 24)) in
  if k <? 2 ^ 31 then k else k - 2 ^ 32.

Definition PROJECT_ID : Z := 1330.

(** The objects of one kind: an identifier is a position, a removed object keeps
    its place. *)
Abbreviation table A := (list (option (Z * A))).

Definition has_key {A} (k : Z) (o : option (Z * A)) : bool :=
  match o with Some (k', _) => k =? k' | None => false end.

Definition find_key {A} (k : Z) (t : table A) : option nat := find_idx (has_key k) t.

(** [shmget] and [msgget] with [IPC_CREAT]: the object of the key, if it is big
    enough, or a new one. *)
Definition ipcget {A} (fits : A -> bool) (fresh : A) (k : Z) (t : table A) : option nat * table A :=
  match find_key k t with
  | None => (Some (length t), t ++ [Some (k, fresh)])
  | Some id =>
      match t !! id with
      | Some (Some (_, a)) => (if fits a then Some id else None, t)
      | _ => (None, t)
      end
  end.

(** Where a process is in [create_shm] or [create_mq]. *)
Inductive cpos := CFtok | CGet (k : Z).

Section create.
Context {A : Type} (fits : A -> bool) (fresh : A) (st_dev st_ino : Z).

(** The next call of the function, which the system serves or not: it is still
    inside, has ended the process ([exit(1)]), or returns an identifier. *)
Definition create_step (served : bool) (c : cpos) (t : table A) : (cpos + option nat) * table A :=
  match c with
  | CFtok =>
      let k := if served then ftok st_dev st_ino PROJECT_ID else -1 in
      (if k <? 0 then inr None else inl (CGet k), t)
  | CGet k => if served then let '(r, t) := ipcget fits fresh k t in (inr r, t) else (inr None, t)
  end.

(** The key of the two programs. *)
Definition KEY : Z := ftok st_dev st_ino PROJECT_ID.

(** The function is inside, with the key of the file. *)
Definition cpos_ok (c : cpos) : Prop := match c with CFtok => True | CGet k => k = KEY end.

Lemma KEY_range : 0 <= KEY < 2 ^ 31.
Proof.
  unfold KEY, ftok. change (Z.shiftl (Z.land PROJECT_ID 255) 24) with 838860800.
  set (k := Z.lor _ _). assert (0 <= k < 2 ^ 31); [|by destruct (Z.ltb_spec k (2 ^ 31)); lia].
  assert (Hi : 0 <= Z.land st_ino 65535 < 2 ^ 31).
  { change 65535 with (Z.ones 16). rewrite Z.land_ones by lia. pose proof (Z.mod_pos_bound st_ino (2 ^ 16)). lia. }
  assert (Hd : 0 <= Z.shiftl (Z.land st_dev 255) 16 < 2 ^ 31).
  { change 255 with (Z.ones 8). rewrite Z.land_ones, Z.shiftl_mul_pow2 by lia.
    pose proof (Z.mod_pos_bound st_dev (2 ^ 8)). lia. }
  assert (Hk : 0 <= k) by (unfold k; rewrite !Z.lor_nonneg; lia). split; [done|].
  destruct (decide (k = 0)) as [->|]; [done|]. apply Z.log2_lt_pow2; [lia|].
  unfold k. rewrite !Z.log2_lor by (rewrite ?Z.lor_nonneg; lia).
  assert (Hlog : forall x, 0 <= x < 2 ^ 31 -> Z.log2 x < 31).
  { intros x Hx. destruct (decide (x = 0)) as [->|]; [done|]. apply Z.log2_lt_pow2; lia. }
  by repeat apply Z.max_lub_lt; apply Hlog.
Qed.

Lemma find_key_Some {B} k (t : table B) id : find_key k t = Some id -> exists a, t !! id = Some (Some (k, a)).
Proof.
  intros [(o & Ho & Hp) _]%find_idx_Some. destruct o as [[k' a]|]; [|done]. cbn in Hp. apply Z.eqb_eq in Hp as ->.
  by exists a.
Qed.

Lemma find_idx_app_None {B} p (l l' : list B) :
  find_idx p l = None -> find_idx p (l ++ l') = Nat.add (length l) <$> find_idx p l'.
Proof.
  induction l as [|x l IH]; cbn; [by destruct (find_idx p l')|]. destruct (p x); [done|].
  intros E. rewrite IH; [|by destruct (find_idx p l)]. by destruct (find_idx p l').
Qed.

(** A change of one object leaves the keys of the objects. *)
Lemma find_key_insert {B} k (t : table B) id k' a a' :
  t !! id = Some (Some (k', a)) -> find_key k (<[id := Some (k', a')]> t) = find_key k t.
Proof.
  intros Hid. apply find_idx_ext; [apply length_insert|]. intros i x y. rewrite list_lookup_insert_Some.
  intros [(-> & <- & _)|[_ Hx]] Hy; by simplify_eq.
Qed.

(** The object of the key, or the one that is made when there is none. *)
Definition content (t : table A) : A :=
  match find_key KEY t with
  | Some id => match t !! id with Some (Some (_, a)) => a | _ => fresh end
  | None => fresh
  end.

Lemma content_lookup t id : find_key KEY t = Some id -> exists a, t !! id = Some (Some (KEY, a)) /\ content t = a.
Proof. intros E. destruct (find_key_Some _ _ _ E) as [a Ha]. exists a. unfold content. by rewrite E, Ha. Qed.

Lemma content_insert t id a a' :
  find_key KEY t = Some id -> t !! id = Some (Some (KEY, a)) -> content (<[id := Some (KEY, a')]> t) = a'.
Proof.
  intros E Ha. unfold content. rewrite (find_key_insert _ _ _ _ _ _ Ha), E, list_lookup_insert_eq; [done|].
  by eapply lookup_lt_Some.
Qed.

(** At most one object has the key: the system sees to that. *)
Definition keyed (t : table A) : Prop :=
  forall i a, t !! i = Some (Some (KEY, a)) -> find_key KEY t = Some i.

Lemma keyed_None (t : table A) : find_key KEY t = None -> forall i (a : A), t !! i <> Some (Some (KEY, a)).
Proof.
  intros Hn i a Hi. unfold find_key in Hn. rewrite find_idx_None in Hn. specialize (Hn _ _ Hi). cbn in Hn.
  by rewrite Z.eqb_refl in Hn.
Qed.

(** The function does not change the object of the key, makes it when there is
    none, and returns it. *)
Lemma create_ok served c t :
  cpos_ok c ->
  let '(r, t') := create_step served c t in
  content t' = content t /\ (forall id, find_key KEY t = Some id -> find_key KEY t' = Some id) /\
  (keyed t -> keyed t') /\ (forall i o, t !! i = Some o -> t' !! i = Some o) /\
  match r with
  | inl c => cpos_ok c
  | inr None => True
  | inr (Some id) => find_key KEY t' = Some id
  end.
Proof.
  intros Hc. destruct c as [|k]; cbn in Hc; cbn [create_step].
  - split_and!; try done. destruct served; [by destruct (_ <? 0)|done].
  - subst k. destruct served; [|done]. unfold ipcget. destruct (find_key KEY t) as [id|] eqn:E.
    + destruct (find_key_Some _ _ _ E) as [a Ha]. rewrite Ha, E. split_and!; try done. by destruct (fits a).
    + assert (E' : find_key KEY (t ++ [Some (KEY, fresh)]) = Some (length t)).
      { unfold find_key in *. rewrite find_idx_app_None by done. cbn. rewrite Z.eqb_refl. cbn. f_equal. lia. }
      split_and!; [|done| | |done].
      * unfold content. by rewrite E, E', list_lookup_middle.
      * intros Hk i a. rewrite E'. rewrite lookup_app_Some. intros [Hi|[Hge Hi]]; [by destruct (keyed_None _ E _ _ Hi)|].
        apply lookup_lt_Some in Hi. cbn in Hi. f_equal. lia.
      * intros i o Hi. by apply lookup_app_l_Some.
Qed.
End create.

(** For other project ids a good key may be negative, and the test [k < 0] would
    take it for a failure. *)
Lemma ftok_negative : ftok 0 1 128 < 0.
Proof. vm_compute. done. Qed.

(** ** shm.c *)
Module ShmProg.

(** A process: in [create_shm], before [shmat], in its loop on the segment it
    has attached, ended, or never made (a [fork] that fails goes unnoticed: the
    parent takes -1 for the process id of a child). *)
Inductive proc (A : Type) :=
| Create (c : cpos)
| Attach (id : nat)
| Loop (id : nat) (a : A)
| Exited (code : Z)
| Absent.
Arguments Create {A}. Arguments Attach {A}. Arguments Loop {A}. Arguments Exited {A}. Arguments Absent {A}.

Record st := St {
  segs : table (list byte);
  cnt : Z;
  wproc : proc wpos;
  rproc : proc rpos;
  shown : list (list byte) }.

Section prog.
Context (st_dev st_ino : Z).

(** A segment serves a request that is not longer than it is; a new one is zero. *)
Definition create_shm : bool -> cpos -> table (list byte) -> (cpos + option nat) * table (list byte) :=
  create_step (fun m => Shm.BUF_SIZE <=? length m)%nat (replicate Shm.BUF_SIZE x00) st_dev st_ino.

(** A call before the loop, which begins at [a]. *)
Definition setup {A} (a : A) (served : bool) (p : proc A) (t : table (list byte)) : proc A * table (list byte) :=
  match p with
  | Create c =>
      match create_shm served c t with
      | (inl c, t) => (Create c, t)
      | (inr None, t) => (Exited 1, t)
      | (inr (Some id), t) => (Attach id, t)
      end
  | Attach id => (if served then Loop id a else Exited 1, t)
  | p => (p, t)
  end.

Definition parent_step (served : bool) (s : st) : fault + st :=
  match wproc s with
  | Loop id w =>
      match segs s !! id with
      | Some (Some (k, m)) =>
          match writer_step Shm.MSG_TPL Shm.BUF_SIZE true (Sm m (cnt s) w RIdle []) with
          | inl f => inl f
          | inr v => inr (St (<[id := Some (k, mem v)]> (segs s)) (count v) (Loop id (writer v)) (rproc s) (shown s))
          end
      | _ => inl OutOfBounds
      end
  | p => let '(p, t) := setup WIdle served p (segs s) in inr (St t (cnt s) p (rproc s) (shown s))
  end.

Definition child_step (served : bool) (s : st) : fault + st :=
  match rproc s with
  | Loop id r =>
      match segs s !! id with
      | Some (Some (k, m)) =>
          match reader_step (Sm m (cnt s) WIdle r (shown s)) with
          | inl f => inl f
          | inr v => inr (St (segs s) (cnt s) (wproc s) (Loop id (reader v)) (printed v))
          end
      | _ => inl OutOfBounds
      end
  | p => let '(p, t) := setup RIdle served p (segs s) in inr (St t (cnt s) (wproc s) p (shown s))
  end.

Definition step (e : who * bool) : st -> fault + st :=
  match e with (Writer, served) => parent_step served | (Reader, served) => child_step served end.

Fixpoint run (l : list (who * bool)) (s : st) : fault + st :=
  match l with
  | [] => inr s
  | e :: l' => match step e s with inl f => inl f | inr s' => run l' s' end
  end.

(** After [fork], on the segments the system has. *)
Definition main (t : table (list byte)) (forked : bool) : st :=
  St t 0 (Create CFtok) (if forked then Create CFtok else Absent) [].

(** ** What the two processes see of each other *)

Abbreviation K := (KEY st_dev st_ino).

(** The memory of the program: the segment of its key, or the one it will get. *)
Definition seg (t : table (list byte)) : list byte := content (replicate Shm.BUF_SIZE x00) st_dev st_ino t.

(** The state of the machine of [SharedMem] that a state of the program is. *)
Definition view (s : st) : sm :=
  Sm (seg (segs s)) (cnt s)
     (match wproc s with Loop _ w => w | _ => WIdle end)
     (match rproc s with Loop _ r => r | _ => RIdle end) (shown s).

Definition proc_ok {A} (t : table (list byte)) (p : proc A) : Prop :=
  match p with
  | Create c => cpos_ok st_dev st_ino c
  | Attach id | Loop id _ => find_key K t = Some id
  | Exited code => code = 1
  | Absent => True
  end.

Definition ok (s : st) : Prop := proc_ok (segs s) (wproc s) /\ proc_ok (segs s) (rproc s).

Lemma proc_ok_keys {A} t t' (p : proc A) :
  (forall id, find_key K t = Some id -> find_key K t' = Some id) -> proc_ok t p -> proc_ok t' p.
Proof. destruct p; cbn; auto. Qed.

Lemma setup_ok {A} (a : A) served p t :
  proc_ok t p ->
  let '(p', t') := setup a served p t in
  seg t' = seg t /\ (forall id, find_key K t = Some id -> find_key K t' = Some id) /\ proc_ok t' p' /\
  (match p' with Loop _ x => x | _ => a end = match p with Loop _ x => x | _ => a end).
Proof.
  intros Hp. destruct p as [c|id|id x|code|]; cbn [setup]; cbn in Hp; try done.
  - pose proof (create_ok (fun m => Shm.BUF_SIZE <=? length m)%nat (replicate Shm.BUF_SIZE x00) _ _ served c t Hp) as Hc.
    fold create_shm in Hc. destruct (create_shm served c t) as [[c'|[id|]] t']; by destruct Hc as (? & ? & _ & _ & ?).
  - by destruct served.
Qed.

(** The writer's step does not look at the reader, and the other way round. *)
Lemma writer_step_frame m c w r p :
  writer_step Shm.MSG_TPL Shm.BUF_SIZE true (Sm m c w r p) =
  match writer_step Shm.MSG_TPL Shm.BUF_SIZE true (Sm m c w RIdle []) with
  | inl f => inl f
  | inr v => inr (Sm (mem v) (count v) (writer v) r p)
  end.
Proof. unfold writer_step. cbn. by repeat case_match. Qed.

Lemma reader_step_frame m c w r p :
  reader_step (Sm m c w r p) =
  match reader_step (Sm m c WIdle r p) with
  | inl f => inl f
  | inr v => inr (Sm m c w (reader v) (printed v))
  end.
Proof. unfold reader_step. cbn. by repeat case_match. Qed.

(** The position of a process in its loop, or where the loop begins. *)
Definition loop_at {A} (a : A) (p : proc A) : A := match p with Loop _ x => x | _ => a end.

Definition looping {A} (p : proc A) : bool := match p with Loop _ _ => true | _ => false end.

(** A call before the loop changes nothing the machine sees. *)
Lemma parent_setup served s :
  ok s -> looping (wproc s) = false -> exists s', parent_step served s = inr s' /\ ok s' /\ view s' = view s.
Proof.
  intros [Hw Hr] Hl. destruct s as [t c w r sh]. cbn in *. pose proof (setup_ok WIdle served w t Hw) as Hs.
  destruct (setup WIdle served w t) as [p t'] eqn:E. destruct Hs as (Hseg & Hk & Hp & Hx).
  exists (St t' c p r sh). split_and!.
  - unfold parent_step. cbn [wproc segs]. by destruct w; rewrite ?E.
  - split; [done|]. by apply (proc_ok_keys t).
  - unfold view. cbn. by rewrite Hseg, Hx.
Qed.

Lemma child_setup served s :
  ok s -> looping (rproc s) = false -> exists s', child_step served s = inr s' /\ ok s' /\ view s' = view s.
Proof.
  intros [Hw Hr] Hl. destruct s as [t c w r sh]. cbn in *. pose proof (setup_ok RIdle served r t Hr) as Hs.
  destruct (setup RIdle served r t) as [p t'] eqn:E. destruct Hs as (Hseg & Hk & Hp & Hx).
  exists (St t' c w p sh). split_and!.
  - unfold child_step. cbn [rproc segs]. by destruct r; rewrite ?E.
  - split; [|done]. by apply (proc_ok_keys t).
  - unfold view. cbn. by rewrite Hseg, Hx.
Qed.

(** A step of a loop is a step of the machine. *)
Lemma parent_loop served s :
  ok s -> looping (wproc s) = true ->
  match parent_step served s with
  | inl f => writer_step Shm.MSG_TPL Shm.BUF_SIZE true (view s) = inl f
  | inr s' => ok s' /\ writer_step Shm.MSG_TPL Shm.BUF_SIZE true (view s) = inr (view s')
  end.
Proof.
  intros [Hw Hr] Hl. destruct s as [t c [| |id x| |] r sh]; try done. cbn [segs wproc rproc proc_ok] in *.
  destruct (content_lookup (replicate Shm.BUF_SIZE x00) _ _ _ _ Hw) as (m & Hm & Hseg).
  assert (view (St t c (Loop id x) r sh) = Sm m c x (loop_at RIdle r) sh) as -> by (unfold view, seg; cbn [segs]; by rewrite Hseg).
  rewrite writer_step_frame. unfold parent_step. cbn [wproc segs cnt]. rewrite Hm.
  destruct (writer_step _ _ _ _) as [f|v]; [done|].
  assert (Hk : forall i, find_key K t = Some i -> find_key K (<[id := Some (K, mem v)]> t) = Some i).
  { intros i Hi. by rewrite (find_key_insert _ _ _ _ _ _ Hm). }
  split; [split; [by apply Hk|by apply (proc_ok_keys t)]|]. unfold view, seg. cbn [segs cnt wproc rproc shown].
  by rewrite (content_insert _ _ _ _ _ m).
Qed.

Lemma child_loop served s :
  ok s -> looping (rproc s) = true ->
  match child_step served s with
  | inl f => reader_step (view s) = inl f
  | inr s' => ok s' /\ reader_step (view s) = inr (view s')
  end.
Proof.
  intros [Hw Hr] Hl. destruct s as [t c w [| |id x| |] sh]; try done. cbn [segs wproc rproc proc_ok] in *.
  destruct (content_lookup (replicate Shm.BUF_SIZE x00) _ _ _ _ Hr) as (m & Hm & Hseg).
  assert (view (St t c w (Loop id x) sh) = Sm m c (loop_at WIdle w) x sh) as -> by (unfold view, seg; cbn [segs]; by rewrite Hseg).
  rewrite reader_step_frame. unfold child_step. cbn [rproc segs cnt shown]. rewrite Hm.
  destruct (reader_step _) as [f|v]; [done|]. split; [done|]. unfold view, seg. cbn [segs]. by rewrite Hseg.
Qed.

(** Every step of the program is a step of the machine, or none of it. *)
Lemma step_simulates e s :
  ok s ->
  match step e s with
  | inl f => SharedMem.step Shm.MSG_TPL Shm.BUF_SIZE true e.1 (view s) = inl f
  | inr s' => ok s' /\
      (view s' = view s \/ SharedMem.step Shm.MSG_TPL Shm.BUF_SIZE true e.1 (view s) = inr (view s'))
  end.
Proof.
  intros Hs. destruct e as [[] served]; cbn [step fst SharedMem.step].
  - destruct (looping (wproc s)) eqn:El.
    + pose proof (parent_loop served s Hs El). case_match; naive_solver.
    + destruct (parent_setup served s Hs El) as (s' & -> & ? & ?). by split; [|left].
  - destruct (looping (rproc s)) eqn:El.
    + pose proof (child_loop served s Hs El). case_match; naive_solver.
    + destruct (child_setup served s Hs El) as (s' & -> & ? & ?). by split; [|left].
Qed.

Lemma run_simulates l s :
  ok s ->
  exists l', l' `sublist_of` map fst l /\
    match run l s with
    | inl f => Shm.prog_run l' (view s) = inl f
    | inr s' => ok s' /\ Shm.prog_run l' (view s) = inr (view s')
    end.
Proof.
  revert s. induction l as [|e l IH]; intros s Hs; cbn [run map]; [by exists []|].
  pose proof (step_simulates e s Hs) as He. destruct (step e s) as [f|s'].
  - exists [e.1]. split; [by apply sublist_skip, sublist_nil_l|]. unfold Shm.prog_run. cbn [SharedMem.run]. by rewrite He.
  - destruct He as [Hs' Hv]. destruct (IH s' Hs') as (l' & Hl & Hrun). destruct Hv as [Hv|Hv].
    + exists l'. split; [by apply sublist_cons|]. by rewrite Hv in Hrun.
    + exists (e.1 :: l'). split; [by apply sublist_skip|]. unfold Shm.prog_run in *. cbn [SharedMem.run]. by rewrite Hv.
Qed.

(** The system has no segment of the key, or one of a run before. *)
Definition ready (t : table (list byte)) : Prop := fit Shm.MSG_TPL Shm.BUF_SIZE (seg t).

Lemma tpl_size : (length Shm.MSG_TPL + 11 < Shm.BUF_SIZE)%nat.
Proof. unfold Shm.BUF_SIZE. vm_compute. lia. Qed.

Lemma view_main t forked : view (main t forked) = init (seg t).
Proof. unfold view. cbn. by destruct forked. Qed.

Lemma ok_main t forked : ok (main t forked).
Proof. split; cbn; [done|]. by destruct forked. Qed.

(** C16: shm.c as a whole: whatever the order in which the two processes create
    and attach the segment, which of their calls fail, and what the segment holds
    from earlier runs, the program is the machine of [SharedMem] on one memory
    (its steps are a subsequence of the processes' steps): both are attached to
    the same segment, every line printed is well-formed, the only undefined
    behaviour is the overflow of the counter, a process that ends has status 1,
    and the segment, which the program never removes, is one the next run can
    start from. *)
Theorem shm_refines t forked l :
  ready t ->
  exists l', l' `sublist_of` map fst l /\
  match run l (main t forked) with
  | inl f => f = SignedOverflow /\ Shm.prog_run l' (init (seg t)) = inl f
  | inr s => Shm.prog_run l' (init (seg t)) = inr (view s) /\ Forall (line_ok Shm.MSG_TPL) (shown s) /\
      ready (segs s) /\
      (forall i j w r, wproc s = Loop i w -> rproc s = Loop j r -> i = j) /\
      (forall c, wproc s = Exited c \/ rproc s = Exited c -> c = 1)
  end.
Proof.
  intros Ht. destruct (run_simulates l _ (ok_main t forked)) as (l' & Hl & Hrun). exists l'. split; [done|].
  rewrite view_main in Hrun.
  pose proof (sm_inv_run Shm.MSG_TPL Shm.BUF_SIZE true tpl_size l' _ (sm_inv_init _ _ true _ Ht)) as Hinv.
  fold Shm.prog_run in Hinv. destruct (run l (main t forked)) as [f|s].
  - rewrite Hrun in *. done.
  - destruct Hrun as [[Hw Hr] Hrun]. rewrite Hrun in Hinv. split_and!; [done|by destruct Hinv|by destruct Hinv|..].
    + intros i j w r Ew Er. rewrite Ew in Hw. rewrite Er in Hr. cbn in *. congruence.
    + intros c [E|E]; [by rewrite E in Hw|by rewrite E in Hr].
Qed.
End prog.

(** Nothing in the system, and a schedule in which both start before one writes. *)
Definition demo_sched : list (who * bool) :=
  concat (replicate 3 [(Writer, true); (Reader, true)]) ++ replicate 13 (Writer, true) ++ replicate 12 (Reader, true).

Lemma shm_refines_witness :
  exists l', l' `sublist_of` map fst demo_sched /\
  match run 1 2 demo_sched (main [] true) with
  | inl f => f = SignedOverflow /\ Shm.prog_run l' (init (seg 1 2 [])) = inl f
  | inr s => Shm.prog_run l' (init (seg 1 2 [])) = inr (view 1 2 s) /\ Forall (line_ok Shm.MSG_TPL) (shown s) /\
      ready 1 2 (segs s) /\
      (forall i j w r, wproc s = Loop i w -> rproc s = Loop j r -> i = j) /\
      (forall c, wproc s = Exited c \/ rproc s = Exited c -> c = 1)
  end.
Proof. apply (shm_refines 1 2 [] true demo_sched). apply fit_zero. Defined.

(** In that schedule the message arrives. *)
Example shm_demo : shown <$> match run 1 2 demo_sched (main [] true) with inl _ => None | inr s => Some s end =
  Some [bytes "hello mq 1"].
Proof. vm_compute. done. Qed.
End ShmProg.

(** ** msg.c *)
Module MsgProg.
Export Msg.

(** The bytes a queue may hold, on Linux. *)
Definition MSGMNB : nat := Z.to_nat 16384.

(** The parent: in [create_mq], in its loop, before [msgctl], ended. *)
Inductive sproc := SCreate (c : cpos) | SLoop (id : nat) | SRemove (id : nat) | SExited (code : Z).

(** The child, with its buffer. *)
Inductive rproc := RCreate (c : cpos) | RLoop (id : nat) (buf : list byte) | RRemove (id : nat) | RExited (code : Z) | RAbsent.

Record st := St {
  queues : table (list msg);
  sender : sproc;
  receiver : rproc;
  sent : nat;
  shown : list (list byte) }.

Inductive who := Sender | Receiver.

Section prog.
(** The file of the key, what follows the literal in memory, and what the
    buffer holds before the first message. *)
Context (st_dev st_ino : Z) (rest buf0 : list byte).

Definition create_mq : bool -> cpos -> table (list msg) -> (cpos + option nat) * table (list msg) :=
  create_step (fun _ => true) [] st_dev st_ino.

(** The bytes in a queue. *)
Definition cbytes (q : list msg) : nat := sum_list (map (length ∘ mtext) q).

(** [msgctl(mq, IPC_RMID, NULL)] *)
Definition remove (id : nat) (t : table (list msg)) : table (list msg) := <[id := None]> t.

(** A call that is not [served] fails; [msgsnd] on a queue that has no room
    waits, on a queue that is gone it fails. *)
Definition parent_step (served : bool) (s : st) : fault + st :=
  match sender s with
  | SCreate c =>
      let '(r, t) := create_mq served c (queues s) in
      let p := match r with inl c => SCreate c | inr None => SExited 1 | inr (Some id) => SLoop id end in
      inr (St t p (receiver s) (sent s) (shown s))
  | SLoop id =>
      match queues s !! id, served with
      | Some (Some (k, q)), true =>
          if decide (MSGMNB < cbytes q + length MESSAGE)%nat then inr s else
          match send rest q with
          | inl f => inl f
          | inr None => inr (St (queues s) (SRemove id) (receiver s) (sent s) (shown s))
          | inr (Some q) => inr (St (<[id := Some (k, q)]> (queues s)) (SLoop id) (receiver s) (S (sent s)) (shown s))
          end
      | _, _ => inr (St (queues s) (SRemove id) (receiver s) (sent s) (shown s))
      end
  | SRemove id => inr (St (remove id (queues s)) (SExited 0) (receiver s) (sent s) (shown s))
  | SExited _ => inr s
  end.

Definition child_step (served : bool) (s : st) : fault + st :=
  match receiver s with
  | RCreate c =>
      let '(r, t) := create_mq served c (queues s) in
      let p := match r with inl c => RCreate c | inr None => RExited 1 | inr (Some id) => RLoop id buf0 end in
      inr (St t (sender s) p (sent s) (shown s))
  | RLoop id buf =>
      match queues s !! id, served with
      | Some (Some (k, [])), true => inr s
      | Some (Some (k, m :: q)), true =>
          match receive buf m tt with
          | Ok (Some (txt, buf)) _ =>
              inr (St (<[id := Some (k, q)]> (queues s)) (sender s) (RLoop id buf) (sent s) (shown s ++ [txt]))
          | Ok None _ => inr (St (queues s) (sender s) (RRemove id) (sent s) (shown s))
          | Fault f _ => inl f
          | _ => inr s
          end
      | _, _ => inr (St (queues s) (sender s) (RRemove id) (sent s) (shown s))
      end
  | RRemove id => inr (St (remove id (queues s)) (sender s) (RExited 0) (sent s) (shown s))
  | RExited _ | RAbsent => inr s
  end.

Definition step (e : who * bool) : st -> fault + st :=
  match e with (Sender, served) => parent_step served | (Receiver, served) => child_step served end.

Fixpoint run (l : list (who * bool)) (s : st) : fault + st :=
  match l with
  | [] => inr s
  | e :: l' => match step e s with inl f => inl f | inr s' => run l' s' end
  end.

(** [main]: without a child the program ends with status 1. *)
Definition main (t : table (list msg)) (forked : bool) : st :=
  if forked then St t (SCreate CFtok) (RCreate CFtok) 0 [] else St t (SExited 1) RAbsent 0 [].

Abbreviation K := (KEY st_dev st_ino).

(** A message of this program, whatever followed the literal when it was sent. *)
Definition own (m : msg) : Prop := mtype m = MESSAGE /\ exists r, length r = 7%nat /\ mtext m = x00 :: r.

(** The messages that wait under the key. *)
Definition waiting (t : table (list msg)) : list msg := content [] st_dev st_ino t.

(** An object of the key, or one that is gone. *)
Definition ours (t : table (list msg)) (id : nat) : Prop :=
  t !! id = Some None \/ exists q, t !! id = Some (Some (K, q)).

Definition sender_ok (t : table (list msg)) (p : sproc) : Prop :=
  match p with
  | SCreate c => cpos_ok st_dev st_ino c
  | SLoop id | SRemove id => ours t id
  | SExited _ => True
  end.

Definition receiver_ok (t : table (list msg)) (p : rproc) : Prop :=
  match p with
  | RCreate c => cpos_ok st_dev st_ino c
  | RLoop id buf => ours t id /\ length buf = BUF_SIZE
  | RRemove id => ours t id
  | RExited _ | RAbsent => True
  end.

(** No process has removed the queue. *)
Definition untouched (s : st) : Prop := sender s <> SExited 0 /\ receiver s <> RExited 0.

(** [n]: the messages that waited before the program started. *)
Record inv (n : nat) (s : st) : Prop := {
  i_keyed : keyed st_dev st_ino (queues s);
  i_own : Forall own (waiting (queues s));
  i_sender : sender_ok (queues s) (sender s);
  i_receiver : receiver_ok (queues s) (receiver s);
  i_shown : Forall (fun l => l = MESSAGE) (shown s);
  i_count : (length (shown s) + length (waiting (queues s)) <= n + sent s)%nat;
  i_all : untouched s -> (length (shown s) + length (waiting (queues s)) = n + sent s)%nat }.

Hypothesis Hbuf : length buf0 = BUF_SIZE.

(** A change of the table under which the processes stay well-formed. *)
Definition evolves (t t' : table (list msg)) : Prop := forall id, ours t id -> ours t' id.

Lemma sender_ok_evolves t t' p : evolves t t' -> sender_ok t p -> sender_ok t' p.
Proof. intros H. destruct p; cbn; auto. Qed.

Lemma receiver_ok_evolves t t' p : evolves t t' -> receiver_ok t p -> receiver_ok t' p.
Proof. intros H. destruct p; cbn; naive_solver. Qed.

Lemma evolves_keep t t' : (forall i o, t !! i = Some o -> t' !! i = Some o) -> evolves t t'.
Proof. unfold evolves, ours. naive_solver. Qed.

Lemma evolves_insert t id o : o = None \/ (exists q, o = Some (K, q)) -> evolves t (<[id := o]> t).
Proof.
  intros Ho i Hi. unfold ours in *. assert (Hlt : (i < length t)%nat).
  { destruct Hi as [Hi|[q Hi]]; by eapply lookup_lt_Some. }
  destruct (decide (i = id)) as [->|]; [|by rewrite list_lookup_insert_ne].
  rewrite list_lookup_insert_eq by done. naive_solver.
Qed.

Lemma ours_insert t id o k :
  ours t id -> o = None \/ (exists q, o = Some (K, q)) -> k = id -> ours (<[id := o]> t) k.
Proof. intros Hi Ho ->. by apply evolves_insert. Qed.

(** A queue of the key that is there is the queue of the key. *)
Lemma keyed_insert t id q q' :
  keyed st_dev st_ino t -> t !! id = Some (Some (K, q)) ->
  keyed st_dev st_ino (<[id := Some (K, q')]> t) /\ waiting t = q /\ waiting (<[id := Some (K, q')]> t) = q'.
Proof.
  intros Hk Hq. pose proof (Hk _ _ Hq) as Hf. destruct (content_lookup [] _ _ _ _ Hf) as (a & Ha & Hw).
  split_and!; [|unfold waiting; congruence|by apply (content_insert [] _ _ _ _ q)].
  intros i b Hi. rewrite (find_key_insert _ _ _ _ _ _ Hq). apply list_lookup_insert_Some in Hi as [(-> & _)|[_ Hi]]; [done|].
  by apply Hk in Hi.
Qed.

Lemma keyed_remove t id :
  keyed st_dev st_ino t -> ours t id ->
  keyed st_dev st_ino (remove id t) /\ (waiting (remove id t) = waiting t \/ waiting (remove id t) = []).
Proof.
  intros Hk [Hq|[q Hq]]; unfold remove.
  - rewrite list_insert_id by done. by split; [|left].
  - assert (Hno : forall i a, <[id := None]> t !! i <> Some (Some (K, a))).
    { intros i a Hi. apply list_lookup_insert_Some in Hi as [(_ & ? & _)|[Hne Hi]]; [done|].
      apply Hk in Hi. apply Hk in Hq. congruence. }
    split; [intros i a Hi; by destruct (Hno i a)|]. right. unfold waiting, content.
    destruct (find_key K (<[id := None]> t)) as [i|] eqn:E; [|done].
    destruct (find_key_Some _ _ _ E) as [a Ha]. by destruct (Hno i a).
Qed.

(** One round of each process, from Module [Msg]: [msgsnd] reads past the memory
    behind the literal, or appends a message; a message of the program is printed
    as "hello mq". *)
Lemma own_send q :
  (length rest < 7)%nat /\ send rest q = inl OutOfBounds \/
  exists m, own m /\ send rest q = inr (Some (q ++ [m])).
Proof.
  destruct (msg_prints_by_accident rest q buf0 Hbuf) as [?|(m & buf' & Hs & Ht & Hx & _)]; [by left|].
  destruct (decide (length rest < 7)%nat) as [Hlt|Hge].
  - exfalso. unfold send, msgsnd in Hs. rewrite decide_True in Hs; [done|].
    rewrite !length_app. cbn [length]. unfold LONG. change (length MESSAGE) with 8%nat. lia.
  - right. exists m. split; [|done]. split; [done|]. exists (take 7 rest). rewrite length_take. split; [lia|done].
Qed.

Lemma own_receive m buf :
  length buf = BUF_SIZE -> own m ->
  exists buf', receive buf m tt = Ok (Some (MESSAGE, buf')) tt /\ length buf' = BUF_SIZE.
Proof.
  intros Hb [Ht (r & Hr & Hx)].
  destruct (msg_prints_by_accident r [] buf Hb) as [[? _]|(m' & buf' & _ & Ht' & Hx' & Hrcv & Hl)]; [lia|].
  assert (m = m') as ->; [|by exists buf'].
  destruct m, m'. cbn in *. subst. f_equal. rewrite firstn_all2; [done|lia].
Qed.

(** A step that neither sends nor receives. *)
Lemma inv_same n s t' p r :
  inv n s -> keyed st_dev st_ino t' -> waiting t' = waiting (queues s) -> sender_ok t' p -> receiver_ok t' r ->
  (p <> SExited 0 -> sender s <> SExited 0) -> (r <> RExited 0 -> receiver s <> RExited 0) ->
  inv n (St t' p r (sent s) (shown s)).
Proof.
  intros [] Hk Hw Hp Hr Hu1 Hu2. split; cbn; rewrite ?Hw; try done. intros [? ?]. apply i_all0. by split; auto.
Qed.

(** A process removes the queue. *)
Lemma inv_remove n s id p r :
  inv n s -> ours (queues s) id -> sender_ok (queues s) p -> receiver_ok (queues s) r ->
  p = SExited 0 \/ r = RExited 0 -> inv n (St (remove id (queues s)) p r (sent s) (shown s)).
Proof.
  intros [] Hid Hp Hr Hu. destruct (keyed_remove _ _ i_keyed0 Hid) as [Hk Hw].
  assert (He : evolves (queues s) (remove id (queues s))) by (by apply evolves_insert; left).
  split; cbn; try done; try (by eauto using sender_ok_evolves, receiver_ok_evolves).
  - by destruct Hw as [->| ->].
  - destruct Hw as [->| ->]; [done|]. cbn. lia.
  - unfold untouched. cbn. naive_solver.
Qed.

Lemma create_mq_inv n served c s :
  inv n s -> cpos_ok st_dev st_ino c ->
  let '(r, t') := create_mq served c (queues s) in
  keyed st_dev st_ino t' /\ waiting t' = waiting (queues s) /\ evolves (queues s) t' /\
  match r with inl c => cpos_ok st_dev st_ino c | inr None => True | inr (Some id) => ours t' id end.
Proof.
  intros [] Hc. pose proof (create_ok (fun _ => true) [] _ _ served c (queues s) Hc) as H.
  fold create_mq in H. destruct (create_mq served c (queues s)) as [r t']. destruct H as (Hw & Hf & Hk & Ht & Hx).
  split_and!; [by auto|done|by apply evolves_keep|]. destruct r as [|[id|]]; [done| |done].
  right. destruct (content_lookup [] _ _ _ _ Hx) as (a & Ha & _). by exists a.
Qed.

(** What a step leads to: a well-formed state, or the read past the memory. *)
Definition fine (n : nat) (r : fault + st) : Prop :=
  match r with inl f => f = OutOfBounds /\ (length rest < 7)%nat | inr s => inv n s end.

Lemma msg_parent_inv n served s : inv n s -> fine n (parent_step served s).
Proof.
  intros Hi. pose proof Hi as []. unfold parent_step. destruct (sender s) as [c|id|id|code] eqn:Es; cbn in i_sender0.
  - pose proof (create_mq_inv n served c s Hi i_sender0) as Hc.
    destruct (create_mq served c (queues s)) as [r t']. destruct Hc as (Hk & Hw & He & Hx).
    by apply inv_same; rewrite ?Es; eauto using receiver_ok_evolves; destruct r as [|[]].
  - assert (Hleave : inv n (St (queues s) (SRemove id) (receiver s) (sent s) (shown s))) by (apply inv_same; rewrite ?Es; done).
    destruct served; [|by repeat case_match; eauto]. destruct i_sender0 as [Hq|[q Hq]]; rewrite Hq; [by eauto|].
    case_decide; [by eauto|]. destruct (own_send q) as [[? ->]|(m & Hm & ->)]; [done|].
    destruct (keyed_insert _ _ _ (q ++ [m]) i_keyed0 Hq) as (Hk & Hwq & Hwq').
    assert (He : evolves (queues s) (<[id:=Some (K, q ++ [m])]> (queues s))) by (apply evolves_insert; eauto).
    split; cbn; rewrite ?Hwq', ?Hwq in *; try done.
    + apply Forall_app. by split; [|apply Forall_singleton].
    + apply He. right. eauto.
    + by eauto using receiver_ok_evolves.
    + rewrite length_app. cbn. lia.
    + intros [Hu1 Hu2]. rewrite length_app. cbn. rewrite Nat.add_assoc, i_all0; [lia|]. by split; [rewrite Es|].
  - apply inv_remove; auto; done.
  - by eauto.
Qed.

Lemma msg_child_inv n served s : inv n s -> fine n (child_step served s).
Proof.
  intros Hi. pose proof Hi as []. unfold child_step. destruct (receiver s) as [c|id buf|id|code|] eqn:Er; cbn in i_receiver0.
  - pose proof (create_mq_inv n served c s Hi i_receiver0) as Hc.
    destruct (create_mq served c (queues s)) as [r t']. destruct Hc as (Hk & Hw & He & Hx).
    by apply inv_same; rewrite ?Er; eauto using sender_ok_evolves; destruct r as [|[]].
  - destruct i_receiver0 as [Hid Hb].
    assert (Hleave : inv n (St (queues s) (sender s) (RRemove id) (sent s) (shown s))) by (apply inv_same; rewrite ?Er; done).
    destruct served; [|by repeat case_match; eauto]. destruct Hid as [Hq|[q Hq]]; rewrite Hq; [by eauto|].
    destruct q as [|m q]; [by eauto|]. destruct (keyed_insert _ _ _ q i_keyed0 Hq) as (Hk & Hwq & Hwq').
    rewrite Hwq in *. apply Forall_cons in i_own0 as [Hm Hown].
    destruct (own_receive m buf Hb Hm) as (buf' & -> & Hl).
    assert (He : evolves (queues s) (<[id:=Some (K, q)]> (queues s))) by (apply evolves_insert; eauto).
    split; cbn; rewrite ?Hwq'; try done.
    + by eauto using sender_ok_evolves.
    + split; [|done]. apply He. right. eauto.
    + apply Forall_app. by split; [|apply Forall_singleton].
    + rewrite length_app. cbn in *. lia.
    + intros [Hu1 Hu2]. rewrite length_app. cbn in *. rewrite <-i_all0; [lia|]. by split; [|rewrite Er].
  - apply inv_remove; auto; done.
  - by eauto.
  - by eauto.
Qed.

Lemma msg_run_inv n l s : inv n s -> fine n (run l s).
Proof.
  revert s. induction l as [|[[] b] l IH]; intros s Hs; cbn [run step]; [done| |].
  - pose proof (msg_parent_inv n b s Hs) as H. destruct (parent_step b s); [done|]. by apply IH.
  - pose proof (msg_child_inv n b s Hs) as H. destruct (child_step b s); [done|]. by apply IH.
Qed.

Lemma inv_main t forked : keyed st_dev st_ino t -> Forall own (waiting t) -> inv (length (waiting t)) (main t forked).
Proof. intros Hk Ho. unfold main. destruct forked; split; cbn; try done; lia. Qed.

(** A process that is in the loop when the queue goes ends, with status 0. *)
Lemma sender_ends id s b b' :
  sender s = SLoop id -> queues s !! id = Some None ->
  exists s', run [(Sender, b); (Sender, b')] s = inr s' /\ sender s' = SExited 0 /\ receiver s' = receiver s.
Proof. intros Es Hq. cbn. unfold parent_step at 1. rewrite Es, Hq. cbn. by eexists. Qed.

Lemma receiver_ends id buf s b b' :
  receiver s = RLoop id buf -> queues s !! id = Some None ->
  exists s', run [(Receiver, b); (Receiver, b')] s = inr s' /\ receiver s' = RExited 0 /\ sender s' = sender s.
Proof. intros Es Hq. cbn. unfold child_step at 1. rewrite Es, Hq. cbn. by eexists. Qed.

Lemma remove_gone id t : ours t id -> remove id t !! id = Some None.
Proof. intros [H|[q H]]; apply list_lookup_insert_eq; by eapply lookup_lt_Some. Qed.

(** C17: msg.c as a whole, from any system in which only messages of this
    program (of any run) wait under the key: whatever the order of the two
    processes and whichever calls fail, the only undefined behaviour is that
    [msgsnd] reads seven bytes behind the literal, which ends the run where fewer
    can be read.  Otherwise every line printed is "hello mq", and as long as no
    process has removed the queue every message that was sent has been printed or
    waits (never more than that afterwards).  When one process removes the queue
    the other has joined, that one ends too, with status 0. *)
Theorem msg_delivers t forked l :
  keyed st_dev st_ino t -> Forall own (waiting t) ->
  match run l (main t forked) with
  | inl f => f = OutOfBounds /\ (length rest < 7)%nat
  | inr s =>
    Forall (fun x => x = MESSAGE) (shown s) /\
    (length (shown s) + length (waiting (queues s)) <= length (waiting t) + sent s)%nat /\
    (sender s <> SExited 0 -> receiver s <> RExited 0 ->
     (length (shown s) + length (waiting (queues s)) = length (waiting t) + sent s)%nat) /\
    (forall id buf b1 b2 b3, sender s = SRemove id -> receiver s = RLoop id buf ->
     exists s', run [(Sender, b1); (Receiver, b2); (Receiver, b3)] s = inr s' /\
       sender s' = SExited 0 /\ receiver s' = RExited 0) /\
    (forall id b1 b2 b3, receiver s = RRemove id -> sender s = SLoop id ->
     exists s', run [(Receiver, b1); (Sender, b2); (Sender, b3)] s = inr s' /\
       sender s' = SExited 0 /\ receiver s' = RExited 0)
  end.
Proof.
  intros Hk Ho. pose proof (msg_run_inv _ l _ (inv_main t forked Hk Ho)) as Hrun.
  destruct (run l (main t forked)) as [f|s]; [done|]. destruct Hrun.
  split_and!; try done; [by intros; apply i_all0|..].
  - intros id buf b1 b2 b3 Es Er. rewrite Es in i_sender0. cbn in i_sender0. cbn [run step]. unfold parent_step. rewrite Es.
    destruct (receiver_ends id buf (St (remove id (queues s)) (SExited 0) (receiver s) (sent s) (shown s)) b2 b3)
      as (s' & Hs' & ? & ?); [done|by apply remove_gone|]. by exists s'.
  - intros id b1 b2 b3 Er Es. rewrite Er in i_receiver0. cbn in i_receiver0. cbn [run step]. unfold child_step. rewrite Er.
    destruct (sender_ends id (St (remove id (queues s)) (sender s) (RExited 0) (sent s) (shown s)) b2 b3)
      as (s' & Hs' & ? & ?); [done|by apply remove_gone|]. by exists s'.
Qed.
End prog.

Definition demo_sched : list (who * bool) :=
  concat (replicate 4 [(Sender, true); (Receiver, true)]) ++ [(Receiver, false); (Receiver, true)].

(** Fewer than seven bytes behind the literal, and as many. *)
Lemma msg_delivers_witness :
  match run 1 2 (replicate 7 x41) (replicate BUF_SIZE x00) demo_sched (main [] true) with
  | inl f => f = OutOfBounds /\ (length (replicate 7 x41) < 7)%nat
  | inr s => Forall (fun x => x = MESSAGE) (shown s)
  end.
Proof.
  pose proof (msg_delivers 1 2 (replicate 7 x41) (replicate BUF_SIZE x00) ltac:(reflexivity) [] true demo_sched
    ltac:(intros i a Hi; by rewrite lookup_nil in Hi) ltac:(by constructor)) as H.
  destruct (run 1 2 _ _ demo_sched (main [] true)); [exact H|exact (proj1 H)].
Defined.

Example msg_reads_past_literal :
  run 1 2 [] (replicate BUF_SIZE x00) demo_sched (main [] true) = inl OutOfBounds.
Proof. vm_compute. done. Qed.

(** The two messages of that run arrive, and the sender notices the removal. *)
Example msg_demo :
  match run 1 2 (replicate 7 x41) (replicate BUF_SIZE x00) (demo_sched ++ [(Sender, true); (Sender, true)]) (main [] true) with
  | inr s => (shown s, sender s, receiver s) | inl _ => ([], SExited 1, RAbsent)
  end = ([MESSAGE; MESSAGE], SExited 0, RExited 0).
Proof. vm_compute. done. Qed.
End MsgProg.
