(* ===== verification/Inet.v ===== *)
(** * Inet: internet addresses as the socket programs write them

    [inet_pton] and [inet_ntop] of the C library for [AF_INET], and the byte
    order of port numbers.  An address is its four bytes, in network order. *)

From S2P Require Import Prelude Cstd.

Definition DOT : byte := x2e.

(** The parts of a string between the dots. *)
Fixpoint parts (l : list byte) : list (list byte) :=
  match l with
  | [] => [[]]
  | c :: l' =>
      if decide (c = DOT) then [] :: parts l'
      else match parts l' with p :: ps => (c :: p) :: ps | [] => [[c]] end
  end.

(** A part: one to three digits, no zero in front of another digit, at most 255. *)
Definition octet (p : list byte) : option byte :=
  if decide (Forall (fun c => digit_val c <> None) p /\ (1 <= length p <= 3)%nat /\
             (head p = Some x30 -> length p = 1%nat) /\ num 0 p <= 255)
  then Some (byte_of_Z (num 0 p)) else None.

(** [inet_pton(AF_INET, l, &addr)]: the address, if the result is 1. *)
Definition inet_pton (l : list byte) : option (list byte) :=
  match parts l with
  | [a; b; c; d] =>
      match octet a, octet b, octet c, octet d with
      | Some a, Some b, Some c, Some d => Some [a; b; c; d]
      | _, _, _, _ => None
      end
  | _ => None
  end.

(** The address as a number, most significant byte first. *)
Definition pton_num (l : list byte) : option Z := of_be32 <$> inet_pton l.

(** [inet_ntop(AF_INET, &addr, ...)] *)
Definition inet_ntop (a : list byte) : list byte :=
  match map (fun b => dec (uchar b)) a with
  | [a; b; c; d] => a ++ [DOT] ++ b ++ [DOT] ++ c ++ [DOT] ++ d
  | _ => []
  end.

(** [htons] and [ntohs] on a little-endian machine: the two bytes change places. *)
Definition htons (p : Z) : Z := Z.lor (Z.shiftl (Z.land p 255) 8) (Z.land (Z.shiftr p 8) 255).
Definition ntohs : Z -> Z := htons.

(** ** Round trips *)

(** Every byte is printed as one to three digits that are read back. *)
Lemma octet_dec b : octet (dec (uchar b)) = Some b /\ DOT ∉ dec (uchar b) /\ (length (dec (uchar b)) <= 3)%nat.
Proof. destruct b; vm_compute; (split; [reflexivity|]); (split; [|lia]); by apply (bool_decide_unpack (_ ∉ _)). Qed.

Lemma parts_no_dot p : DOT ∉ p -> parts p = [p].
Proof.
  induction p as [|c p IH]; intros Hn; [done|]. apply not_elem_of_cons in Hn as [Hc Hp]. cbn.
  by rewrite decide_False, IH by done.
Qed.

Lemma parts_app p l : DOT ∉ p -> parts (p ++ DOT :: l) = p :: parts l.
Proof.
  induction p as [|c p IH]; intros Hn; [done|]. apply not_elem_of_cons in Hn as [Hc Hp]. cbn.
  by rewrite decide_False, IH by done.
Qed.

(** An address that is printed is read back. *)
Lemma inet_pton_ntop a b c d : inet_pton (inet_ntop [a; b; c; d]) = Some [a; b; c; d].
Proof.
  unfold inet_pton, inet_ntop. cbn [map app].
  rewrite !parts_app, parts_no_dot by apply octet_dec. by rewrite !(proj1 (octet_dec _)).
Qed.

(** It fits into [INET_ADDRSTRLEN] bytes. *)
Lemma inet_ntop_length a : (length (inet_ntop a) < 16)%nat.
Proof.
  unfold inet_ntop. destruct a as [|a [|b [|c [|d [|]]]]]; cbn [map length]; try lia. rewrite !length_app. cbn.
  destruct (octet_dec a) as (_ & _ & ?), (octet_dec b) as (_ & _ & ?), (octet_dec c) as (_ & _ & ?), (octet_dec d) as (_ & _ & ?).
  lia.
Qed.

Lemma htons_eq p : htons p = 256 * (p mod 256) + p / 256 mod 256.
Proof.
  unfold htons. change 255 with (Z.ones 8). rewrite !Z.land_ones, Z.shiftr_div_pow2 by lia.
  set (x := p mod 2 ^ 8). set (y := p / 2 ^ 8 mod 2 ^ 8). change (Z.lor (Z.shiftl x 8) y = 256 * x + y).
  assert (Hl : Z.land (Z.shiftl x 8) y = 0).
  { apply Z.bits_inj'. intros n Hn. rewrite Z.land_spec, Z.bits_0. destruct (Z.ltb_spec n 8).
    - by rewrite Z.shiftl_spec_low.
    - unfold y. by rewrite Z.mod_pow2_bits_high, andb_false_r by lia. }
  pose proof (Z.add_lor_land (Z.shiftl x 8) y) as Ha. rewrite Z.shiftl_mul_pow2 in * by lia. lia.
Qed.

Lemma ntohs_htons p : 0 <= p < 65536 -> ntohs (htons p) = p.
Proof. intros Hp. unfold ntohs. rewrite !htons_eq. Z.div_mod_to_equations. lia. Qed.
