(* ===== verification/UdpEcho.v ===== *)
(** * UdpEcho: src/socket/udp_echo.c

    A program that sends datagrams to its own port from one thread and prints
    what it receives in the other.  The steps of the two threads, datagrams of
    other programs, lost datagrams and failing calls come in any order. *)

From S2P Require Import Prelude Prog Posix Cstd Inet.

Definition BIND_PORT : Z := 7077.
Definition MESSAGE : list byte := bytes "hello socket" ++ [x0a].

Record sockaddr_in := Addr { sin_port : Z; sin_addr : list byte }.

Record dgram := Dgram { data : list byte; from : sockaddr_in }.

(** The bound address, the datagrams that wait at the socket, whether the thread
    was made, what [malloc] returned, the address of the last sender ([None]: not
    yet written), and the lines that were printed. *)
Record st := St {
  server : sockaddr_in;
  queue : list dgram;
  thread : bool;
  buf : option (list byte);
  r_addr : option sockaddr_in;
  lines : list (list byte) }.

Definition ANY : list byte := [x00; x00; x00; x00].

(** A socket receives what is sent to its port at its address, or at any. *)
Definition reaches (dst srv : sockaddr_in) : bool :=
  (sin_port dst =? sin_port srv) && (bool_decide (sin_addr srv = ANY) || bool_decide (sin_addr dst = sin_addr srv)).

(** The address of [try_echo]: that of the server with another [sin_addr]. *)
Definition s_addr (srv : sockaddr_in) : sockaddr_in :=
  Addr (sin_port srv) (match inet_pton (bytes "127.0.0.1") with Some a => a | None => sin_addr srv end).

(** One [sendto] of [try_echo]; the sender of a datagram on the loopback is the
    address it is sent to, with the port of the socket. *)
Definition own (srv : sockaddr_in) : dgram := Dgram MESSAGE (Addr (sin_port srv) (sin_addr (s_addr srv))).

Definition try_echo (served : bool) (s : st) : st :=
  if thread s && served && reaches (s_addr (server s)) (server s)
  then St (server s) (queue s ++ [own (server s)]) (thread s) (buf s) (r_addr s) (lines s) else s.

(** [recvfrom(sd, buf, strlen(MESSAGE), ...)]: a longer datagram is cut, a
    shorter one leaves the bytes behind it. *)
Definition recv (b : list byte) (d : list byte) : list byte :=
  let d := take (length MESSAGE) d in d ++ drop (length d) b.

(** ["receive udp packet %s from %s:%d\n"] *)
Definition render (s : list byte) (a : sockaddr_in) : list byte :=
  bytes "receive udp packet " ++ s ++ bytes " from " ++ inet_ntop (sin_addr a) ++ bytes ":" ++
  dec (ntohs (sin_port a)) ++ [x0a].

(** The [inet_ntop] and [printf] of a round. *)
Definition show (s : st) : fault + st :=
  match buf s, r_addr s with
  | None, _ => inl NullDeref
  | _, None => inl UninitRead
  | Some b, Some a =>
      match mem_string b tt with
      | Ok str _ => inr (St (server s) (queue s) (thread s) (buf s) (r_addr s) (lines s ++ [render str a]))
      | _ => inl OutOfBounds
      end
  end.

(** One round of [main]: the result of [recvfrom] is not looked at. *)
Definition main_step (served : bool) (s : st) : fault + st :=
  if served then
    match queue s with
    | [] => inr s
    | d :: q => show (St (server s) q (thread s) (flip recv (data d) <$> buf s) (Some (from d)) (lines s))
    end
  else show s.

Inductive event := Send (served : bool) | Receive (served : bool) | Foreign (d : dgram).

Definition step (e : event) (s : st) : fault + st :=
  match e with
  | Send served => inr (try_echo served s)
  | Receive served => main_step served s
  | Foreign d => inr (St (server s) (queue s ++ [d]) (thread s) (buf s) (r_addr s) (lines s))
  end.

Fixpoint run (l : list event) (s : st) : fault + st :=
  match l with
  | [] => inr s
  | e :: l' => match step e s with inl f => inl f | inr s' => run l' s' end
  end.

(** [main] up to its loop, with the results of [socket], [bind],
    [pthread_create] (which is not looked at) and [malloc]: an exit status or the
    state of the program. *)
Definition main (socket bind created : bool) (mem : option (list byte)) : Z + st :=
  if negb socket then inl 1 else
  match inet_pton (bytes "0.0.0.0") with
  | None => inl 1
  | Some a => if negb bind then inl 1 else inr (St (Addr (htons BIND_PORT) a) [] created mem None [])
  end.

(** ** What is printed *)

(** A string ends at its first zero. *)
Fixpoint until0 (l : list byte) : list byte :=
  match l with [] => [] | b :: l' => if decide (b = x00) then [] else b :: until0 l' end.

Lemma mem_string_until0 l : mem_string (l ++ [x00]) tt = Ok (until0 l) tt.
Proof.
  induction l as [|b l IH]; cbn; [done|]. destruct (decide (b = x00)); [done|]. unfold mbind, M_bind. by rewrite IH.
Qed.

(** The datagrams that reach the socket during [l], in order. *)
Definition arrivals (srv : sockaddr_in) (created : bool) (l : list event) : list dgram :=
  concat (map (fun e => match e with
    | Send true => if created && reaches (s_addr srv) srv then [own srv] else []
    | Foreign d => [d]
    | _ => []
    end) l).

(** The byte at [i] of the buffer after the datagrams [ds], the latest first: that
    of the latest datagram which is longer than [i], or else of the memory that
    [malloc] returned. *)
Fixpoint byte_at (mem : list byte) (ds : list dgram) (i : nat) : byte :=
  match ds with
  | [] => default x00 (mem !! i)
  | d :: ds' => match data d !! i with Some b => b | None => byte_at mem ds' i end
  end.

(** The thirteen bytes that are received into, after the datagrams [ds]. *)
Definition content (mem : list byte) (ds : list dgram) : list byte :=
  map (byte_at mem (rev ds)) (seq 0 (length MESSAGE)).

(** The line for the datagram [d] after the datagrams [ds], and those for all. *)
Definition line_of (mem : list byte) (ds : list dgram) (d : dgram) : list byte :=
  render (until0 (content mem (ds ++ [d]))) (from d).

Fixpoint lines_of (mem : list byte) (before ds : list dgram) : list (list byte) :=
  match ds with
  | [] => []
  | d :: ds' => line_of mem before d :: lines_of mem (before ++ [d]) ds'
  end.

Lemma content_byte_at mem ds i :
  content mem ds !! i = if decide (i < length MESSAGE)%nat then Some (byte_at mem (rev ds) i) else None.
Proof.
  unfold content. rewrite list_lookup_fmap. case_decide as Hi.
  - by rewrite lookup_seq_lt.
  - by rewrite lookup_seq_ge by lia.
Qed.

Lemma content_length mem ds : length (content mem ds) = length MESSAGE.
Proof. unfold content. by rewrite length_map, length_seq. Qed.

Lemma content_nil mem :
  length mem = S (length MESSAGE) -> last mem = Some x00 -> mem = content mem [] ++ [x00].
Proof.
  intros Hl Hx. destruct mem as [|x l _] using rev_ind; [done|]. rewrite last_snoc in Hx. injection Hx as ->.
  rewrite length_app in Hl. cbn [length] in Hl. f_equal. apply list_eq. intros i. rewrite content_byte_at. cbn [rev byte_at].
  case_decide as Hi; [|by rewrite lookup_ge_None_2 by lia].
  destruct (lookup_lt_is_Some_2 l i) as [x Hlx]; [lia|]. by rewrite (lookup_app_l_Some l [x00] i x Hlx), Hlx.
Qed.

(** A datagram is received over what the earlier ones left. *)
Lemma recv_content mem ds d :
  recv (content mem ds ++ [x00]) (data d) = content mem (ds ++ [d]) ++ [x00].
Proof.
  unfold recv. set (p := take (length MESSAGE) (data d)).
  assert (Hp : (length p <= length MESSAGE)%nat) by (unfold p; rewrite length_take; lia).
  rewrite drop_app_le, (assoc_L (++)) by (by rewrite content_length). f_equal.
  apply list_eq. intros i. rewrite content_byte_at, rev_app_distr. cbn [rev app byte_at].
  destruct (decide (i < length p)%nat) as [Hi|Hi].
  - rewrite lookup_app_l by done. rewrite decide_True by lia. unfold p. rewrite lookup_take_lt by lia.
    destruct (lookup_lt_is_Some_2 (data d) i) as [x ->]; [|done]. unfold p in Hi. rewrite length_take in Hi. lia.
  - rewrite lookup_app_r by lia. rewrite lookup_drop. replace (length p + (i - length p))%nat with i by lia.
    rewrite content_byte_at. case_decide as Hlt; [|done]. rewrite (lookup_ge_None_2 (data d)); [done|].
    unfold p in Hi. rewrite length_take in Hi. lia.
Qed.

Lemma receive_line mem ds s d q :
  queue s = d :: q -> buf s = Some (content mem ds ++ [x00]) ->
  main_step true s = inr (St (server s) q (thread s) (Some (content mem (ds ++ [d]) ++ [x00])) (Some (from d))
                             (lines s ++ [line_of mem ds d])).
Proof.
  intros Hq Hb. unfold main_step, show. rewrite Hq, Hb.
  cbn [fmap option_fmap option_map flip buf r_addr server queue thread lines]. unfold flip. rewrite recv_content.
  by rewrite mem_string_until0.
Qed.

Definition receives (e : event) : Prop := match e with Receive served => served = true | _ => True end.

Lemma run_lines mem l ds s :
  Forall receives l -> buf s = Some (content mem ds ++ [x00]) ->
  exists s' rcvd, run l s = inr s' /\ lines s' = lines s ++ lines_of mem ds rcvd /\
    queue s ++ arrivals (server s) (thread s) l = rcvd ++ queue s'.
Proof.
  intros Hl. revert ds s. induction Hl as [|e l He Hl IH]; intros ds s Hb.
  - exists s, []. cbn. by rewrite !app_nil_r.
  - cbn [run]. destruct e as [served|served|d]; cbn [step].
    + destruct (IH ds (try_echo served s)) as (s' & rcvd & Hr & Hn & Hq); [unfold try_echo; by case_match|].
      exists s', rcvd. split_and!; [done|by rewrite Hn; unfold try_echo; case_match|].
      rewrite <-Hq. unfold try_echo, arrivals. cbn [map concat].
      destruct (thread s) eqn:Et, served, (reaches (s_addr (server s)) (server s)) eqn:E;
        cbn [andb queue server thread]; rewrite ?Et, ?E; try done.
      cbn [andb]. by rewrite <-(assoc_L (++)).
    + cbn in He. subst served. destruct (queue s) as [|d q] eqn:Eq.
      { unfold main_step. rewrite Eq. destruct (IH ds s Hb) as (s' & rcvd & Hr & Hn & Hq).
        rewrite Eq in Hq. by exists s', rcvd. }
      rewrite (receive_line mem ds s d q Eq Hb).
      set (s1 := St _ _ _ _ _ _). destruct (IH (ds ++ [d]) s1 eq_refl) as (s' & rcvd & Hr & Hn & Hq).
      exists s', (d :: rcvd). split_and!; [exact Hr| |exact (f_equal (cons d) Hq)].
      rewrite Hn. cbn [s1 lines lines_of]. by rewrite <-(assoc_L (++)).
    + destruct (IH ds (St (server s) (queue s ++ [d]) (thread s) (buf s) (r_addr s) (lines s)) Hb)
        as (s' & rcvd & Hr & Hn & Hq).
      exists s', rcvd. split_and!; [done|done|]. rewrite <-Hq. cbn. by rewrite <-(assoc_L (++)).
Qed.

(** The line of the program's own message. *)
Definition OWN_LINE : list byte :=
  bytes "receive udp packet hello socket" ++ [x0a] ++ bytes " from 127.0.0.1:7077" ++ [x0a].

Definition bound : sockaddr_in := Addr (htons BIND_PORT) ANY.

Lemma main_bound created mem : main true true created mem = inr (St bound [] created mem None []).
Proof. reflexivity. Qed.

(** A full datagram covers the buffer. *)
Lemma content_own mem ds : content mem (ds ++ [own bound]) = MESSAGE.
Proof. unfold content. rewrite rev_app_distr. reflexivity. Qed.

Lemma own_lines mem ds rcvd i :
  rcvd !! i = Some (own bound) -> lines_of mem ds rcvd !! i = Some OWN_LINE.
Proof.
  revert ds i. induction rcvd as [|d rcvd IH]; intros ds [|i] Hi; simplify_eq/=; [|by apply IH].
  unfold line_of. rewrite content_own. reflexivity.
Qed.

(** C25: udp_echo.c, under every interleaving of its two threads and with any
    datagrams of other programs: if [malloc] succeeds, the byte behind the
    received ones, which it leaves as it is and the program never sets, happens
    to be zero, and no [recvfrom] fails, one line is printed for each datagram
    received, in the order in which they arrive, none lost and none twice.  The
    line names the sender, and shows thirteen bytes up to a zero: the first
    thirteen of the datagram and, behind a shorter one, what is left in the
    buffer, at each position the byte of the latest earlier datagram that is long
    enough, or else of the memory.  The line of the program's own message is
    always the same. *)
Theorem udp_echo_prints created mem l :
  length mem = S (length MESSAGE) -> last mem = Some x00 -> Forall receives l ->
  exists s0 s rcvd, main true true created (Some mem) = inr s0 /\ run l s0 = inr s /\
    rcvd ++ queue s = arrivals bound created l /\ lines s = lines_of mem [] rcvd /\
    (forall i, rcvd !! i = Some (own bound) -> lines s !! i = Some OWN_LINE).
Proof.
  intros Hm Hx Hl. rewrite main_bound. eexists.
  destruct (run_lines mem l [] (St bound [] created (Some mem) None []) Hl) as (s & rcvd & Hr & Hn & Hq).
  { cbn [buf]. f_equal. by apply content_nil. }
  exists s, rcvd. split_and!; [done|done|done|done|]. intros i Hi. rewrite Hn. by apply own_lines.
Qed.

Lemma udp_echo_prints_witness :
  let l := [Send true; Foreign (Dgram (bytes "hi") bound); Send true; Receive true; Receive true] in
  exists s0 s rcvd, main true true true (Some (replicate 14 x00)) = inr s0 /\ run l s0 = inr s /\
    rcvd ++ queue s = arrivals bound true l /\ lines s = lines_of (replicate 14 x00) [] rcvd /\
    (forall i, rcvd !! i = Some (own bound) -> lines s !! i = Some OWN_LINE).
Proof.
  apply (udp_echo_prints true (replicate 14 x00)
    [Send true; Foreign (Dgram (bytes "hi") bound); Send true; Receive true; Receive true]);
    [reflexivity|reflexivity|by repeat constructor].
Defined.

(** Two lines of that run: the second datagram, of two bytes, is printed with
    the rest of the first. *)
Example udp_echo_demo :
  match main true true true (Some (replicate 14 x00)) with
  | inr s0 => match run [Send true; Foreign (Dgram (bytes "hi") bound); Receive true; Receive true] s0 with
              | inr s => lines s | inl _ => [] end
  | inl _ => []
  end = [OWN_LINE; bytes "receive udp packet hillo socket" ++ [x0a] ++ bytes " from 0.0.0.0:7077" ++ [x0a]].
Proof. vm_compute. done. Qed.

(** If the byte is not zero, the first message is printed past the buffer; if
    the first [recvfrom] fails, an address that was never written is printed; and
    the program ends, with status 1, only before its loop. *)
Theorem udp_echo_faults b l :
  length l = length MESSAGE -> b <> x00 ->
  (forall s0, main true true true (Some (l ++ [b])) = inr s0 ->
     run [Send true; Receive true] s0 = inl OutOfBounds /\ run [Receive false] s0 = inl UninitRead) /\
  (forall socket bind created mem c, main socket bind created mem = inl c -> c = 1).
Proof.
  intros Hl Hb. split.
  - intros s0. rewrite main_bound. intros [= <-]. split; [|done]. cbn [run step try_echo]. unfold try_echo, main_step.
    cbn [thread server queue buf andb]. change (reaches (s_addr bound) bound) with true. cbn [app data own fmap option_fmap option_map queue buf].
    unfold flip, recv. change (take (length MESSAGE) MESSAGE) with MESSAGE. rewrite drop_app_length' by done. unfold show. cbn [buf r_addr].
    rewrite mem_string_unterminated; [done|]. rewrite elem_of_app, list_elem_of_singleton. intros [Hx|Hx]; [|done].
    revert Hx. by apply (bool_decide_unpack (_ ∉ _)).
  - intros [] [] created mem c; vm_compute; congruence.
Qed.

Lemma udp_echo_faults_witness :
  forall s0, main true true true (Some (replicate 13 x00 ++ [x41])) = inr s0 ->
    run [Send true; Receive true] s0 = inl OutOfBounds /\ run [Receive false] s0 = inl UninitRead.
Proof. apply (udp_echo_faults x41 (replicate 13 x00)); [reflexivity|done]. Defined.
