(* ===== verification/Calendar.v ===== *)
(** * Calendar: src/fs/time.c and src/fs/print_100day.c

    Two programs that print the clock.  [localtime], [mktime] and [strftime] of
    the C library are modelled on the Gregorian calendar; the time zone is an
    argument: at every instant, its offset from UTC and whether summer time is in
    force. *)

From S2P Require Import Prelude Prog Cstd.

(** ** Days and dates *)

Record date := Date { year : Z; month : Z; day : Z }.

Definition leap (y : Z) : bool := (y mod 4 =? 0) && (negb (y mod 100 =? 0) || (y mod 400 =? 0)).

(** The days of a month, 1 to 12. *)
Definition days_in (y m : Z) : Z :=
  match m with 2 => if leap y then 29 else 28 | 4 | 6 | 9 | 11 => 30 | _ => 31 end.

Definition valid (d : date) : bool :=
  (1 <=? month d) && (month d <=? 12) && (1 <=? day d) && (day d <=? days_in (year d) (month d)).

(** The days of a year before a month. *)
Definition before_month (y m : Z) : Z :=
  match m with
  | 1 => 0 | 2 => 31 | 3 => 59 | 4 => 90 | 5 => 120 | 6 => 151
  | 7 => 181 | 8 => 212 | 9 => 243 | 10 => 273 | 11 => 304 | _ => 334
  end + (if leap y && (2 <? m) then 1 else 0).

(** The days from 1970-01-01; a day outside its month counts on. *)
Definition days_of (d : date) : Z :=
  let y := year d - 1 in
  365 * y + y / 4 - y / 100 + y / 400 + before_month (year d) (month d) + day d - 1 - 719162.

(** The date of a day within a period of 400 years that begins on a 1 March:
    the century, the four years and the year it is in, each but the last of equal
    length. *)
Definition date_of_era (doe : Z) : date :=
  let c := Z.min (doe / 36524) 3 in
  let doc := doe - 36524 * c in
  let q := doc / 1461 in
  let doq := doc - 1461 * q in
  let yy := Z.min (doq / 365) 3 in
  let doy := doq - 365 * yy in
  let mp := (5 * doy + 2) / 153 in
  let m := if mp <? 10 then mp + 3 else mp - 9 in
  Date (100 * c + 4 * q + yy + (if m <=? 2 then 1 else 0)) m (doy - (153 * mp + 2) / 5 + 1).

Definition date_of (days : Z) : date :=
  let z := days + 719468 in
  let d := date_of_era (z mod 146097) in
  Date (year d + 400 * (z / 146097)) (month d) (day d).

(** ** The C library *)

(** [struct tm], with the year and month as people write them. *)
Record tm := Tm { tm_date : date; tm_hour : Z; tm_min : Z; tm_sec : Z; tm_isdst : bool }.

Section zone.
(** Seconds east of UTC, and whether summer time is in force, at an instant. *)
Context (off : Z -> Z) (dst : Z -> bool).

(** [tm_year] is an [int], the year less 1900. *)
Definition year_ok (y : Z) : bool := in_int (y - 1900).

Definition broken_down (t : Z) : tm :=
  let s := t + off t in
  Tm (date_of (s / 86400)) (s mod 86400 / 3600) (s mod 3600 / 60) (s mod 60) (dst t).

(** [NULL] if the year does not fit. *)
Definition localtime (t : Z) : option tm :=
  let r := broken_down t in if year_ok (year (tm_date r)) then Some r else None.

(** The seconds that the fields count, as if in UTC. *)
Definition secs (x : tm) : Z :=
  86400 * days_of (tm_date x) + 3600 * tm_hour x + 60 * tm_min x + tm_sec x.


(** [mktime]: the seconds of the fields less the offset that the zone has at an
    instant [u] the library chooses; the fields become those of the resulting
    instant, or stay if there is no such year. *)
Definition mktime (u : Z) (x : tm) : option Z * tm :=
  let t := secs x - off u in
  match localtime t with Some x' => (Some t, x') | None => (None, x) end.

End zone.

(** [%m], [%d], [%H], [%M], [%S]: two digits at least. *)
Definition pad2 (n : Z) : list byte := if n <? 10 then digit 0 :: dec n else dec n.

(** [strftime(buf, size, "%Y-%m-%d %H:%M:%S\n", x)]: the text, or nothing if it
    does not fit with its zero. *)
Definition stamp (x : tm) : list byte :=
  dec (year (tm_date x)) ++ bytes "-" ++ pad2 (month (tm_date x)) ++ bytes "-" ++ pad2 (day (tm_date x)) ++
  bytes " " ++ pad2 (tm_hour x) ++ bytes ":" ++ pad2 (tm_min x) ++ bytes ":" ++ pad2 (tm_sec x) ++ [x0a].

Definition strftime (size : nat) (x : tm) : option (list byte) :=
  if decide (length (stamp x) < size)%nat then Some (stamp x) else None.

(** ** The programs *)

Definition TIME_BUF_SIZE : nat := 32.

Section programs.
Context (off : Z -> Z) (dst : Z -> bool).

(** [t->tm_mday += n], which may leave the month. *)
Definition add_days (n : Z) (x : tm) : tm :=
  Tm (Date (year (tm_date x)) (month (tm_date x)) (day (tm_date x) + n)) (tm_hour x) (tm_min x) (tm_sec x) (tm_isdst x).

(** What both do last. *)
Definition print_stamp (label : list byte) (t : tm) : M (list byte) Z :=
  match strftime TIME_BUF_SIZE t with
  | None => exit_ 1
  | Some buf => modify (fun out => out ++ label ++ buf ++ [x0a]) ;; mret 0
  end.

(** time.c, with the result of [time] *)
Definition time_main (now : Z) : M (list byte) Z :=
  if now <? 0 then exit_ 1 else
  t ← unwrap NullDeref (localtime off dst now);
  print_stamp (bytes "now = ") t.

(** print_100day.c, with the choice of [mktime] *)
Definition print_100day_main (u now : Z) : M (list byte) Z :=
  if now <? 0 then exit_ 1 else
  t ← unwrap NullDeref (localtime off dst now);
  let t := snd (mktime off dst u (add_days 100 t)) in
  print_stamp (bytes "100 day = ") t.
End programs.

Example time_demo : time_main (fun _ => 28800) (fun _ => false) 1709164800 [] =
  Ok 0 (bytes "now = 2024-02-29 08:00:00" ++ [x0a; x0a]).
Proof. vm_compute. done. Qed.

(** ** The calendar is right *)

(** A year has as many days as its Januaries are apart. *)
Lemma leap_days y :
  y / 4 - y / 100 + y / 400 = (y - 1) / 4 - (y - 1) / 100 + (y - 1) / 400 + (if leap y then 1 else 0).
Proof.
  unfold leap. destruct (Z.eqb_spec (y mod 4) 0), (Z.eqb_spec (y mod 100) 0), (Z.eqb_spec (y mod 400) 0); cbn [andb orb negb].
  all: Z.div_mod_to_equations; lia.
Qed.

(** Months counted from March, as in [date_of_era]. *)
Definition of_march (y mp d : Z) : date :=
  let m := if mp <? 10 then mp + 3 else mp - 9 in Date (y + (if m <=? 2 then 1 else 0)) m d.

(** The twelve cases of a month. *)
Ltac month_cases m :=
  assert (m = 0 \/ m = 1 \/ m = 2 \/ m = 3 \/ m = 4 \/ m = 5 \/ m = 6 \/ m = 7 \/ m = 8 \/ m = 9 \/ m = 10 \/ m = 11)
    as month_case by lia;
  destruct_or! month_case; subst m.

Lemma before_month_march y mp :
  0 <= mp <= 11 ->
  if mp <? 10 then before_month y (mp + 3) = (153 * mp + 2) / 5 + 59 + (if leap y then 1 else 0)
  else before_month y (mp - 9) = (153 * mp + 2) / 5 - 306.
Proof.
  intros Hm. unfold before_month. by destruct (leap y); month_cases mp.
Qed.

Lemma days_of_march y mp d :
  0 <= mp <= 11 ->
  days_of (of_march y mp d) = 365 * y + y / 4 - y / 100 + y / 400 + (153 * mp + 2) / 5 + d - 1 - 719468.
Proof.
  intros Hm. unfold days_of, of_march. cbn [year month day]. destruct (Z.ltb_spec mp 10) as [Hlt|Hge].
  - pose proof (leap_days y). pose proof (before_month_march y mp Hm) as Hb. destruct (Z.ltb_spec mp 10); [|lia].
    destruct (Z.leb_spec (mp + 3) 2); [lia|]. rewrite Z.add_0_r, Hb. lia.
  - pose proof (before_month_march (y + 1) mp Hm) as Hb. destruct (Z.ltb_spec mp 10); [lia|].
    destruct (Z.leb_spec (mp - 9) 2); [|lia]. rewrite Hb, Z.add_simpl_r. lia.
Qed.

Lemma days_in_march y mp d :
  0 <= mp <= 11 ->
  1 <= month (of_march y mp d) <= 12 /\
  days_in (year (of_march y mp d)) (month (of_march y mp d)) =
  if mp =? 11 then (if leap (y + 1) then 29 else 28) else (153 * (mp + 1) + 2) / 5 - (153 * mp + 2) / 5.
Proof.
  intros Hm. month_cases mp; (split; [cbn; lia|reflexivity]).
Qed.

(** The month of a day of the year, and that the day is in it; the last day of
    February needs a leap year. *)
Lemma month_of_day y doy :
  0 <= doy <= 365 -> (doy = 365 -> leap (y + 1) = true) ->
  let mp := (5 * doy + 2) / 153 in
  0 <= mp <= 11 /\ valid (of_march y mp (doy - (153 * mp + 2) / 5 + 1)) = true.
Proof.
  intros Hd Hl mp. assert (Hm : 0 <= mp <= 11) by (unfold mp; Z.div_mod_to_equations; lia). split; [done|].
  set (d := doy - _ + 1). destruct (days_in_march y mp d Hm) as [Hr Hi]. unfold valid. rewrite Hi.
  change (day (of_march y mp d)) with d. rewrite !andb_true_iff, !Z.leb_le. split_and!; try lia.
  - unfold d, mp. Z.div_mod_to_equations. lia.
  - destruct (Z.eqb_spec mp 11) as [E|]; [|unfold d, mp; Z.div_mod_to_equations; lia].
    unfold d. rewrite E. change ((153 * 11 + 2) / 5) with 337. destruct (decide (doy = 365)) as [E'|].
    + rewrite Hl by done. lia.
    + destruct (leap (y + 1)); lia.
Qed.

(** Every day of the 400 years has a date that counts back to it, *)
Lemma date_of_era_ok doe :
  0 <= doe < 146097 -> valid (date_of_era doe) = true /\ days_of (date_of_era doe) = doe - 719468.
Proof.
  intros Hd. unfold date_of_era. set (c := Z.min (doe / 36524) 3). set (doc := doe - 36524 * c). set (q := doc / 1461).
  set (doq := doc - 1461 * q). set (yy := Z.min (doq / 365) 3). set (doy := doq - 365 * yy).
  assert (Hc : 0 <= c <= 3 /\ 0 <= doc <= 36524 /\ (c < 3 -> doc < 36524)) by (unfold doc, c; Z.div_mod_to_equations; lia).
  assert (Hq : 0 <= q <= 24 /\ 0 <= doq <= 1460) by (unfold doq, q; Z.div_mod_to_equations; lia).
  assert (Hy : 0 <= yy <= 3 /\ 0 <= doy <= 365 /\ (doy = 365 -> yy = 3 /\ doq = 1460)) by (unfold doy, yy; Z.div_mod_to_equations; lia).
  set (y := 100 * c + 4 * q + yy). fold (of_march y ((5 * doy + 2) / 153) (doy - (153 * ((5 * doy + 2) / 153) + 2) / 5 + 1)).
  destruct (month_of_day y doy) as [Hm Hv]; [lia| |].
  { intros E. destruct Hy as (_ & _ & Hy). specialize (Hy E) as [Ey Eq]. unfold y. rewrite Ey.
    unfold leap. rewrite andb_true_iff, orb_true_iff, negb_true_iff, Z.eqb_eq, Z.eqb_neq, Z.eqb_eq.
    assert (q = 24 -> c = 3) by (unfold doq in Eq; lia). Z.div_mod_to_equations. lia. }
  split; [done|]. rewrite days_of_march by done.
  assert (y / 4 = 25 * c + q /\ y / 100 = c /\ y / 400 = 0) as (-> & -> & ->) by (unfold y; Z.div_mod_to_equations; lia).
  unfold doy, doq, doc, y. lia.
Qed.

(** The calendar repeats itself every 400 years. *)
Definition add_eras (k : Z) (d : date) : date := Date (year d + 400 * k) (month d) (day d).

Lemma leap_era y k : leap (y + 400 * k) = leap y.
Proof.
  unfold leap. replace (y + 400 * k) with (y + (100 * k) * 4) at 1 by lia.
  replace (y + 400 * k) with (y + (4 * k) * 100) at 1 by lia. replace (y + 400 * k) with (y + k * 400) by lia.
  by rewrite !Z_mod_plus_full.
Qed.

Lemma valid_era k d : valid (add_eras k d) = valid d.
Proof. unfold valid, days_in. cbn [year month day add_eras]. by rewrite leap_era. Qed.

Lemma days_of_era k d : days_of (add_eras k d) = days_of d + 146097 * k.
Proof.
  unfold days_of. cbn [year month day add_eras].
  assert (before_month (year d + 400 * k) (month d) = before_month (year d) (month d)) as -> by (unfold before_month; by rewrite leap_era).
  generalize (before_month (year d) (month d)). intros a. Z.div_mod_to_equations. lia.
Qed.

(** and so has every day at all. *)
Lemma date_of_valid days : valid (date_of days) = true /\ days_of (date_of days) = days.
Proof.
  unfold date_of. set (z := days + 719468). destruct (date_of_era_ok (z mod 146097)) as [Hv Hd]; [apply Z.mod_pos_bound; lia|].
  fold (add_eras (z / 146097) (date_of_era (z mod 146097))). rewrite valid_era, days_of_era, Hd.
  split; [done|]. pose proof (Z.div_mod z 146097). lia.
Qed.

(** Different dates are different days: the day grows with the year, in a year
    with the month, in a month with the day. *)
Lemma before_month_next y m :
  1 <= m <= 12 -> before_month y m + days_in y m = if m =? 12 then 365 + (if leap y then 1 else 0) else before_month y (m + 1).
Proof.
  intros Hm. unfold before_month, days_in. replace m with (m - 1 + 1) by lia. assert (Hm' : 0 <= m - 1 <= 11) by lia.
  revert Hm'. generalize (m - 1). clear. intros m Hm. by destruct (leap y); month_cases m.
Qed.

Lemma before_month_mono y m n : 1 <= m -> m < n -> n <= 12 -> before_month y m + days_in y m <= before_month y n.
Proof.
  intros H1 Hlt H2. rewrite before_month_next by lia. destruct (Z.eqb_spec m 12); [lia|].
  assert (Hn : exists k, n = m + 1 + Z.of_nat k) by (exists (Z.to_nat (n - (m + 1))); lia). destruct Hn as [k ->].
  clear Hlt. induction k as [|k IH]; [by rewrite Z.add_0_r|]. etrans; [apply IH; lia|].
  replace (m + 1 + Z.of_nat (S k)) with (m + 1 + Z.of_nat k + 1) by lia.
  pose proof (before_month_next y (m + 1 + Z.of_nat k) ltac:(lia)) as Hn. destruct (Z.eqb_spec (m + 1 + Z.of_nat k) 12); [lia|].
  rewrite <-Hn. assert (0 <= days_in y (m + 1 + Z.of_nat k)) by (unfold days_in; repeat case_match; lia). lia.
Qed.

Lemma before_month_bounds y m d :
  1 <= m <= 12 -> 1 <= d <= days_in y m -> 1 <= before_month y m + d <= 365 + (if leap y then 1 else 0).
Proof.
  intros Hm Hd. split.
  - assert (0 <= before_month y m) by (unfold before_month; repeat case_match; lia). lia.
  - pose proof (before_month_next y m Hm) as Hn. destruct (Z.eqb_spec m 12); [lia|].
    assert (before_month y 12 <= 335) by (unfold before_month; by destruct (leap y)).
    destruct (decide (m + 1 = 12)) as [E|]; [rewrite E in Hn; destruct (leap y); lia|].
    pose proof (before_month_mono y (m + 1) 12 ltac:(lia) ltac:(lia) ltac:(lia)).
    assert (0 <= days_in y (m + 1)) by (unfold days_in; repeat case_match; lia). destruct (leap y); lia.
Qed.

Lemma valid_spec d : valid d = true <-> 1 <= month d <= 12 /\ 1 <= day d <= days_in (year d) (month d).
Proof. unfold valid. rewrite !andb_true_iff, !Z.leb_le. tauto. Qed.

Lemma days_of_mono_year a b : valid a = true -> valid b = true -> year a < year b -> days_of a < days_of b.
Proof.
  rewrite !valid_spec. intros [Ha1 Ha2] [Hb1 Hb2] Hy.
  pose proof (before_month_bounds _ _ _ Ha1 Ha2). pose proof (before_month_bounds _ _ _ Hb1 Hb2).
  unfold days_of. pose proof (leap_days (year a)) as Hl.
  assert (year a / 4 - year a / 100 + year a / 400 + 365 * year a <=
          (year b - 1) / 4 - (year b - 1) / 100 + (year b - 1) / 400 + 365 * (year b - 1)); [|lia].
  clear Hl. generalize (year a) (year b) Hy. clear. intros x y Hy. Z.div_mod_to_equations. lia.
Qed.

Lemma days_of_inj a b : valid a = true -> valid b = true -> days_of a = days_of b -> a = b.
Proof.
  intros Ha Hb E. destruct (Z.lt_trichotomy (year a) (year b)) as [Hy|[Hy|Hy]].
  - pose proof (days_of_mono_year a b Ha Hb Hy). lia.
  - apply valid_spec in Ha as [Ha1 Ha2], Hb as [Hb1 Hb2]. unfold days_of in E. rewrite Hy in *.
    destruct (Z.lt_trichotomy (month a) (month b)) as [Hm|[Hm|Hm]].
    + pose proof (before_month_mono (year b) (month a) (month b) ltac:(lia) Hm ltac:(lia)). lia.
    + rewrite Hm in E. destruct a, b. cbn in *. f_equal; lia.
    + pose proof (before_month_mono (year b) (month b) (month a) ltac:(lia) Hm ltac:(lia)). lia.
  - pose proof (days_of_mono_year b a Hb Ha Hy). lia.
Qed.

(** ** The clock *)

(** Fields in their ranges. *)
Definition valid_tm (x : tm) : Prop :=
  valid (tm_date x) = true /\ 0 <= tm_hour x <= 23 /\ 0 <= tm_min x <= 59 /\ 0 <= tm_sec x <= 59.

Lemma secs_inj x y : valid_tm x -> valid_tm y -> secs x = secs y -> tm_isdst x = tm_isdst y -> x = y.
Proof.
  intros (Hx & ?) (Hy & ?) E Ed. unfold secs in E.
  assert (days_of (tm_date x) = days_of (tm_date y)) as Hd by lia.
  apply days_of_inj in Hd; [|done|done]. destruct x, y. cbn in *. subst. f_equal; lia.
Qed.

(** The year of a day. *)
Lemma year_arith y b days :
  365 * (y - 1) + (y - 1) / 4 - (y - 1) / 100 + (y - 1) / 400 + b - 1 - 719162 = days -> 1 <= b <= 366 ->
  -2 <= days <= 549755813888 -> 1969 <= y <= 2147483648.
Proof. intros. Z.div_mod_to_equations. lia. Qed.

Lemma year_bounds d :
  valid d = true -> -2 <= days_of d <= 549755813888 -> 1969 <= year d <= 2147483648.
Proof.
  rewrite valid_spec. intros [Hm Hx] Hd. pose proof (before_month_bounds _ _ _ Hm Hx) as Hb.
  apply (year_arith (year d) (before_month (year d) (month d) + day d) (days_of d)); [unfold days_of; lia| |done].
  destruct (leap (year d)); lia.
Qed.

(** The instants considered: up to a year around 10^9 (2^55 seconds). *)
Definition MAX : Z := 36028797018963968.

Section zone_facts.
Context (off : Z -> Z) (dst : Z -> bool).
(** No zone is a day away from UTC. *)
Hypothesis Hoff : forall t, -86400 < off t < 86400.

Lemma broken_down_ok t :
  valid_tm (broken_down off dst t) /\ secs (broken_down off dst t) = t + off t.
Proof.
  unfold broken_down. set (s := t + off t). destruct (date_of_valid (s / 86400)) as [Hv Hd]. split.
  - split; [done|]. cbn [tm_hour tm_min tm_sec]. Z.div_mod_to_equations. lia.
  - unfold secs. cbn [tm_date tm_hour tm_min tm_sec]. rewrite Hd. Z.div_mod_to_equations. lia.
Qed.

(** Far beyond any clock, the year fits into an [int]. *)
Lemma localtime_ok t : 0 <= t <= MAX -> localtime off dst t = Some (broken_down off dst t) /\
  1969 <= year (tm_date (broken_down off dst t)) <= 2147483648.
Proof.
  intros Ht. set (s := t + off t).
  assert (Hy : 1969 <= year (date_of (s / 86400)) <= 2147483648).
  { destruct (date_of_valid (s / 86400)) as [Hv Hd]. apply year_bounds; [done|]. rewrite Hd. unfold s.
    unfold MAX in Ht. specialize (Hoff t). Z.div_mod_to_equations; lia. }
  split; [|exact Hy]. unfold localtime. assert (year_ok (year (tm_date (broken_down off dst t))) = true) as ->; [|done].
  apply in_int_spec. unfold INT_MIN, INT_MAX. cbn [tm_date broken_down]. fold s. lia.
Qed.

Lemma pad2_length n : 0 <= n < 100 -> length (pad2 n) = 2%nat.
Proof.
  intros Hn. unfold pad2, dec. destruct (Z.ltb_spec n 0); [lia|]. cbn [digits]. destruct (Z.ltb_spec n 10); [done|].
  destruct (Z.ltb_spec (n / 10) 10); [done|]. Z.div_mod_to_equations. lia.
Qed.

(** The text of a clock always fits into the buffer. *)
Lemma strftime_fits x : valid_tm x -> 0 <= year (tm_date x) -> strftime TIME_BUF_SIZE x = Some (stamp x).
Proof.
  intros (Hv & Hh & Hm & Hs) Hy. unfold strftime. rewrite decide_True; [done|]. apply valid_spec in Hv as [Hmo Hd].
  assert (days_in (year (tm_date x)) (month (tm_date x)) <= 31) by (unfold days_in; repeat case_match; lia).
  unfold stamp, TIME_BUF_SIZE. rewrite !length_app, !pad2_length by lia. cbn. pose proof (dec_length _ Hy). lia.
Qed.

(** time.c prints the right time: for every instant up to the year 10^9 and in
    every time zone, the output is the text of a valid date and time, the only
    one whose seconds are those of the instant shifted by the zone's offset; the
    32 bytes of the buffer always suffice.  A clock before 1970 is an error. *)
Theorem time_prints now out :
  now <= MAX ->
  if now <? 0 then time_main off dst now out = Exit 1 out else
  exists x, time_main off dst now out = Ok 0 (out ++ bytes "now = " ++ stamp x ++ [x0a]) /\
    valid_tm x /\ secs x = now + off now /\
    forall y, valid_tm y -> secs y = now + off now -> tm_isdst y = dst now -> y = x.
Proof.
  intros Hnow. unfold time_main. destruct (Z.ltb_spec now 0); [done|].
  destruct (localtime_ok now) as [Hl Hy]; [lia|]. destruct (broken_down_ok now) as [Hv Hs].
  exists (broken_down off dst now). rewrite Hl. split_and!; [|done|done|].
  - unfold print_stamp. cbn [unwrap mret M_ret]. unfold mbind, M_bind, mret, M_ret. rewrite strftime_fits by (done || lia). done.
  - intros y Hyv Hys Hyd. apply secs_inj; [done|done|by rewrite Hys, Hs|done].
Qed.





End zone_facts.

(** Hong Kong; a zone whose standard offset moves from four hours to three; and
    one with summer time from day 91 to day 300 of 1970. *)
Lemma time_prints_witness :
  exists x, time_main (fun _ => 28800) (fun _ => false) 1709164800 [] = Ok 0 ([] ++ bytes "now = " ++ stamp x ++ [x0a]) /\
    valid_tm x /\ secs x = 1709164800 + 28800 /\
    forall y, valid_tm y -> secs y = 1709164800 + 28800 -> tm_isdst y = false -> y = x.
Proof. apply (time_prints (fun _ => 28800) (fun _ => false) ltac:(lia) 1709164800 []). unfold MAX. lia. Defined.

Definition moscow (t : Z) : Z := if t <? 1414274400 then 14400 else 10800.


Example print_100day_moscow :
  print_100day_main moscow (fun _ => false) 1414486800 1405843200 [] =
  Ok 0 (bytes "100 day = 2014-10-28 12:00:00" ++ [x0a; x0a]).
Proof. vm_compute. done. Qed.

(** With summer time at one end only, the clock moves by an hour. *)
Example print_100day_summer :
  let dst := fun t => (91 * 86400 <=? t) && (t <? 300 * 86400) in
  print_100day_main (fun t => if dst t then 7200 else 3600) dst 0 86400 [] =
  Ok 0 (bytes "100 day = 1970-04-12 02:00:00" ++ [x0a; x0a]).
Proof. vm_compute. done. Qed.
