(* ===== verification/Listing.v ===== *)
(** * Listing: programs that print what the system tells them

    src/fs/print_args.c, src/ps/env.c, src/fs/readdir.c and src/fs/glob.c print a
    list, one entry a line; src/fs/username.c and groupname.c look up one name;
    src/fs/stat.c prints the fields of a file's status.  The state is the standard
    output; what the system answers ([opendir], [glob], the user and group
    databases, [stat]) are arguments. *)

From S2P Require Import Prelude Prog Cstd Posix Stdio StdioTools.

Definition out : Type := list byte.

Definition puts (s : list byte) : M out unit := modify (fun o => o ++ s).

(** [fprintf(stdout, "%s\n", s)] *)
Definition putline (s : list byte) : M out unit := puts (s ++ [LF]).

(** [argv[1]], after a test of [argc] that ends the program. *)
Definition arg1 (code : Z) (argv : list (list byte)) : M out (list byte) :=
  if decide (length argv < 2)%nat then exit_ code else unwrap OutOfBounds (argv !! 1%nat).

(** ** Lists *)

Definition HEADER : list byte := bytes "Your command line arguments is:".

Definition print_args (argv : list (list byte)) : M out Z :=
  putline HEADER ;;
  for_ (length argv) 0 (fun i => s ← unwrap OutOfBounds (argv !! i); putline s) ;;
  mret 0.

(** [environ] is an array of pointers, the last of which is [NULL]. *)
Definition env (fuel : nat) (environ : list (option (list byte))) : M out Z :=
  iter fuel (fun i =>
    p ← unwrap OutOfBounds (environ !! i);
    match p with
    | None => mret (inr tt)
    | Some s => puts s ;; puts [LF] ;; mret (inl (S i))
    end) 0%nat ;;
  mret 0.

(** [opendir] fails or gives the names that [readdir] then returns one by one
    before it returns [NULL]. *)
Definition readdir (opendir : list byte -> option (list (list byte))) (fuel : nat) (argv : list (list byte)) : M out Z :=
  name ← arg1 1 argv;
  match opendir name with
  | None => exit_ 1
  | Some dir =>
      iter fuel (fun dir =>
        match dir with
        | [] => mret (inr tt)
        | cur :: dir => putline cur ;; mret (inl dir)
        end) dir ;;
      mret 0
  end.

(** The handler of [glob]: go on. *)
Definition err_handler (err_path : list byte) (errno : Z) : Z := 0.

(** [glob] gets the pattern and the handler; it returns its status and the paths. *)
Definition glob_main (glob : list byte -> (list byte -> Z -> Z) -> Z * list (list byte)) (argv : list (list byte)) : M out Z :=
  pattern ← arg1 1 argv;
  let '(r, gl_pathv) := glob pattern err_handler in
  if negb (r =? 0) then exit_ 1 else
  for_ (length gl_pathv) 0 (fun i => s ← unwrap OutOfBounds (gl_pathv !! i); putline s) ;;
  mret 0.

(** ** Names *)

(** [getpwuid] and [getgrgid] take an unsigned number of 32 bits. *)
Definition username (getpwuid : Z -> option (list byte)) (argv : list (list byte)) : M out Z :=
  a ← arg1 1 argv;
  let uid := atoi a in
  match getpwuid (wrap_u32 uid) with
  | None => exit_ 1
  | Some pw_name => putline (bytes "user name = " ++ pw_name ++ bytes " for uid " ++ dec uid) ;; mret 0
  end.

Definition groupname (getgrgid : Z -> option (list byte)) (argv : list (list byte)) : M out Z :=
  a ← arg1 1 argv;
  let gid := atoi a in
  match getgrgid (wrap_u32 gid) with
  | None => exit_ 1
  | Some gr_name => putline (bytes "group name = " ++ gr_name ++ bytes " for gid " ++ dec gid) ;; mret 0
  end.

(** ** stat.c *)

Record stat_st := Stat {
  st_dev : Z; st_ino : Z; st_mode : Z; st_nlink : Z; st_uid : Z; st_gid : Z;
  st_rdev : Z; st_size : Z; st_blksize : Z; st_blocks : Z }.

(** An unsigned number of [n] bits read as a signed one. *)
Definition to_signed (n z : Z) : Z := let r := z mod 2 ^ n in if r <? 2 ^ (n - 1) then r else r - 2 ^ n.

(** [%ld] and [%lld]: at most nineteen digits. *)
Definition dec64 (z : Z) : list byte := if z <? 0 then x2d :: digits 19 (- z) [] else digits 19 z [].

Definition field (label : list byte) (v : Z) : M out unit := putline (label ++ bytes " = " ++ dec64 v).

(** The fields with [%d] are unsigned numbers of 32 bits that are printed as
    [int], the others are converted to [long] or [long long]. *)
Definition fprint_stat (data : stat_st) : M out unit :=
  field (bytes "dev") (to_signed 64 (st_dev data)) ;;
  field (bytes "inode") (to_signed 64 (st_ino data)) ;;
  field (bytes "mode") (to_signed 32 (st_mode data)) ;;
  field (bytes "hard links") (to_signed 64 (st_nlink data)) ;;
  field (bytes "userid") (to_signed 32 (st_uid data)) ;;
  field (bytes "groupid") (to_signed 32 (st_gid data)) ;;
  field (bytes "rdev") (to_signed 64 (st_rdev data)) ;;
  field (bytes "total size") (to_signed 64 (st_size data)) ;;
  field (bytes "block size") (to_signed 64 (st_blksize data)) ;;
  field (bytes "block count") (to_signed 64 (st_blocks data)).

Definition stat_main (stat : list byte -> option stat_st) (argv : list (list byte)) : M out Z :=
  name ← arg1 0 argv;
  match stat name with
  | None => exit_ 0
  | Some st => fprint_stat st ;; mret 0
  end.

(** ** What they print *)

Lemma bind_Ok {St A B} (m : M St A) (k : A -> M St B) w a w' : m w = Ok a w' -> (m ≫= k) w = k a w'.
Proof. intros H. unfold mbind, M_bind. by rewrite H. Qed.

(** Some entries, one a line. *)
Definition unlines (ns : list (list byte)) : list byte := concat (map (fun s => s ++ [LF]) ns).

Lemma unlines_cons n ns : unlines (n :: ns) = (n ++ [LF]) ++ unlines ns.
Proof. done. Qed.

(** Entries without a newline can be told apart. *)
Lemma lines_unlines ns : Forall (fun n => LF ∉ n) ns -> lines (unlines ns) = map (fun s => s ++ [LF]) ns.
Proof.
  induction 1 as [|n ns Hn _ IH]; [done|]. rewrite unlines_cons. cbn [map]. rewrite <-IH. clear IH.
  generalize (unlines ns). intros r. induction n as [|b n IH]; cbn.
  - done.
  - apply not_elem_of_cons in Hn as [Hb Hn]. rewrite decide_False by done. by rewrite (IH Hn).
Qed.

(** The loop over an array, from the entry [i] on. *)
Lemma for_prints (l : list (list byte)) k i o :
  (i + k = length l)%nat ->
  for_ k i (fun i => s ← unwrap OutOfBounds (l !! i); putline s) o = Ok tt (o ++ unlines (drop i l)).
Proof.
  revert i o. induction k as [|k IH]; intros i o Hk; cbn [for_].
  - rewrite drop_ge by lia. by rewrite app_nil_r.
  - destruct (lookup_lt_is_Some_2 l i) as [s Hs]; [lia|]. unfold mbind, M_bind. rewrite Hs. cbn.
    rewrite IH by lia. rewrite (drop_S l s i Hs), unlines_cons. by rewrite <-!(assoc_L (++)).
Qed.

Lemma env_prints es i fuel o :
  (i <= length es)%nat -> (length es - i < fuel)%nat ->
  iter fuel (fun i =>
    p ← unwrap OutOfBounds ((map Some es ++ [None]) !! i);
    match p with
    | None => mret (inr tt)
    | Some s => puts s ;; puts [LF] ;; mret (inl (S i))
    end) i o = Ok tt (o ++ unlines (drop i es)).
Proof.
  revert i o. induction fuel as [|fuel IH]; intros i o Hi Hf; [lia|]. cbn [iter]. unfold mbind, M_bind.
  destruct (decide (i < length es)%nat) as [Hlt|Hge].
  - destruct (lookup_lt_is_Some_2 es i Hlt) as [s Hs].
    rewrite lookup_app_l by (by rewrite length_map). rewrite list_lookup_fmap, Hs. cbn. unfold mbind, M_bind in IH.
    rewrite IH by lia. rewrite (drop_S es s i Hs), unlines_cons. by rewrite <-!(assoc_L (++)).
  - assert (i = length es) as -> by lia. rewrite lookup_app_r by (by rewrite length_map).
    rewrite length_map, Nat.sub_diag, drop_all, app_nil_r. done.
Qed.

Lemma readdir_prints es fuel o :
  (length es < fuel)%nat ->
  iter fuel (fun dir =>
    match dir with
    | [] => mret (inr tt)
    | cur :: dir => putline cur ;; mret (inl dir)
    end) es o = Ok tt (o ++ unlines es).
Proof.
  revert es o. induction fuel as [|fuel IH]; intros es o Hf; [lia|]. destruct es as [|e es]; cbn [iter].
  - by rewrite app_nil_r.
  - cbn [length] in Hf. rewrite unlines_cons. unfold mbind, M_bind, putline, puts, modify. cbn [mret M_ret].
    unfold mbind, M_bind, putline, puts, modify in IH. rewrite IH by lia. by rewrite <-!(assoc_L (++)).
Qed.

(** Printing entries without a newline, and reading the lines of the output. *)
Lemma reads_back (m : M out Z) es :
  Forall (fun n => LF ∉ n) es -> m [] = Ok 0 ([] ++ unlines es) ->
  exists t, m [] = Ok 0 t /\ lines t = map (fun s => s ++ [LF]) es.
Proof. intros Hes Hm. exists (unlines es). split; [done|]. by apply lines_unlines. Qed.

(** C34: print_args.c, env.c, readdir.c and glob.c print every entry exactly once, in
    the order in which the system gives them, and end with status 0; if no entry
    has a newline in it (names and values may), the lines of what they print are
    the entries again, behind the heading of print_args.c.  Without an argument,
    or when the directory or the pattern cannot be read, the two programs that
    take one end with status 1 and print nothing. *)
Theorem listings_print fuel opendir glob prog arg rest es (o : out) :
  (length es < fuel)%nat ->
  print_args es o = Ok 0 (o ++ unlines (HEADER :: es)) /\
  env fuel (map Some es ++ [None]) o = Ok 0 (o ++ unlines es) /\
  (opendir arg = Some es -> readdir opendir fuel (prog :: arg :: rest) o = Ok 0 (o ++ unlines es)) /\
  (opendir arg = None -> readdir opendir fuel (prog :: arg :: rest) o = Exit 1 o) /\
  readdir opendir fuel [prog] o = Exit 1 o /\
  glob_main glob (prog :: arg :: rest) o =
    (let '(r, ns) := glob arg err_handler in if r =? 0 then Ok 0 (o ++ unlines ns) else Exit 1 o) /\
  glob_main glob [prog] o = Exit 1 o /\
  (Forall (fun n => LF ∉ n) es ->
     let back (m : M out Z) ns := exists t, m [] = Ok 0 t /\ lines t = map (fun s => s ++ [LF]) ns in
     back (print_args es) (HEADER :: es) /\
     back (env fuel (map Some es ++ [None])) es /\
     (opendir arg = Some es -> back (readdir opendir fuel (prog :: arg :: rest)) es) /\
     (glob arg err_handler = (0, es) -> back (glob_main glob (prog :: arg :: rest)) es)).
Proof.
  intros Hf.
  assert (Hargs : forall o, print_args es o = Ok 0 (o ++ unlines (HEADER :: es))).
  { intros o1. unfold print_args. erewrite bind_Ok by done. erewrite bind_Ok by (by apply for_prints).
    rewrite drop_0, (unlines_cons HEADER). by rewrite <-!(assoc_L (++)). }
  assert (Henv : forall o, env fuel (map Some es ++ [None]) o = Ok 0 (o ++ unlines es)).
  { intros o1. unfold env. by erewrite bind_Ok by (apply env_prints; lia). }
  assert (Hdir : forall o, opendir arg = Some es ->
            readdir opendir fuel (prog :: arg :: rest) o = Ok 0 (o ++ unlines es)).
  { intros o1 Hd. unfold readdir. erewrite bind_Ok by done. rewrite Hd. by erewrite bind_Ok by (by apply readdir_prints). }
  assert (Hglob : forall o, glob_main glob (prog :: arg :: rest) o =
            (let '(r, ns) := glob arg err_handler in if r =? 0 then Ok 0 (o ++ unlines ns) else Exit 1 o)).
  { intros o1. unfold glob_main. erewrite bind_Ok by done. destruct (glob arg err_handler) as [r ns]. destruct (r =? 0); [|done].
    cbn [negb]. by erewrite bind_Ok by (by apply for_prints). }
  split_and!; [done|done|by apply Hdir| |done|done|done|].
  - intros Hd. unfold readdir. erewrite bind_Ok by done. by rewrite Hd.
  - intros Hes back. split_and!.
    + apply reads_back; [|done]. constructor; [|done]. by apply (bool_decide_unpack (_ ∉ _)).
    + by apply reads_back.
    + intros Hd. apply reads_back; [done|by apply Hdir].
    + intros Hg. apply reads_back; [done|]. by rewrite Hglob, Hg.
Qed.

Definition demo_entries : list (list byte) := [bytes "a.c"; bytes "b.c"].

Lemma listings_print_witness :
  print_args demo_entries [] = Ok 0 ([] ++ unlines (HEADER :: demo_entries)) /\
  readdir (fun _ => Some demo_entries) 5 [bytes "readdir"; bytes "."] [] = Ok 0 ([] ++ unlines demo_entries).
Proof.
  destruct (listings_print 5 (fun _ => Some demo_entries) (fun _ _ => (0, [])) (bytes "readdir") (bytes ".") [] demo_entries [])
    as (H1 & _ & H2 & _); [cbn; lia|]. split; [exact H1|exact (H2 eq_refl)].
Defined.

(** username.c and groupname.c print the name of the number they are given; an
    argument without digits, such as a name, is taken for the number 0. *)
Theorem names_print (db : Z -> option (list byte)) prog n name arg (o : out) :
  0 <= n <= INT_MAX -> db n = Some name -> Forall (fun c => digit_val c = None) arg ->
  username db [prog; dec n] o = Ok 0 (o ++ (bytes "user name = " ++ name ++ bytes " for uid " ++ dec n) ++ [LF]) /\
  groupname db [prog; dec n] o = Ok 0 (o ++ (bytes "group name = " ++ name ++ bytes " for gid " ++ dec n) ++ [LF]) /\
  username db [prog; arg] o = username db [prog; dec 0] o /\
  groupname db [prog; arg] o = groupname db [prog; dec 0] o.
Proof.
  intros Hn Hdb Harg. assert (Ha : atoi (dec n) = n) by (rewrite <-(app_nil_r (dec n)); by apply atoi_dec).
  assert (Hw : wrap_u32 n = n) by (unfold wrap_u32; apply Z.mod_small; unfold INT_MAX in *; lia).
  assert (H0 : atoi arg = atoi (dec 0)) by (by rewrite atoi_no_digits).
  unfold username, groupname. split_and!; erewrite !bind_Ok by done; rewrite ?Ha, ?Hw, ?Hdb, ?H0; done.
Qed.

Lemma names_print_witness :
  username (fun u => if u =? 1000 then Some (bytes "sal") else None) [bytes "username"; dec 1000] [] =
  Ok 0 ([] ++ (bytes "user name = " ++ bytes "sal" ++ bytes " for uid " ++ dec 1000) ++ [LF]).
Proof.
  apply (names_print (fun u => if u =? 1000 then Some (bytes "sal") else None) (bytes "username") 1000 (bytes "sal") (bytes "root"));
    [unfold INT_MAX; lia|reflexivity|by repeat constructor].
Defined.

(** Reading a report: the number behind the ["= "] of each line. *)
Fixpoint after_eq (l : list byte) : list byte :=
  match l with [] => [] | c :: l' => if decide (c = x3d) then drop 1 l' else after_eq l' end.

Definition signed_num (l : list byte) : Z := match l with x2d :: l' => - num 0 l' | _ => num 0 l end.

Definition read_report (l : list byte) : list Z := map (fun ln => signed_num (after_eq ln)) (lines l).

Definition values (d : stat_st) : list Z :=
  [st_dev d; st_ino d; st_mode d; st_nlink d; st_uid d; st_gid d; st_rdev d; st_size d; st_blksize d; st_blocks d].

(** The unsigned fields: their line, their width, their value. *)
Definition unsigned_fields (d : stat_st) : list (nat * Z * Z) :=
  [(0%nat, 64, st_dev d); (1%nat, 64, st_ino d); (2%nat, 32, st_mode d); (3%nat, 64, st_nlink d);
   (4%nat, 32, st_uid d); (5%nat, 32, st_gid d); (6%nat, 64, st_rdev d)].

(** The numbers a [struct stat] can hold: all values of the fields' types. *)
Definition stat_ok (d : stat_st) : Prop :=
  Forall (fun '(_, n, z) => 0 <= z < 2 ^ n) (unsigned_fields d) /\
  Forall (fun z => - 2 ^ 63 <= z < 2 ^ 63) [st_size d; st_blksize d; st_blocks d].

Lemma signed_num_dec64 z r : - 2 ^ 63 <= z < 2 ^ 63 -> stops r -> signed_num (dec64 z ++ r) = z.
Proof.
  intros Hz Hr. unfold dec64.
  assert (Hnum : forall n, 0 <= n <= 2 ^ 63 -> num 0 (digits 19 n [] ++ r) = n).
  { intros n Hn. destruct (num_digits 19 n [] 0 r) as (k & Hk & _); [simpl in *; lia|lia|]. rewrite Hk. simpl.
    by apply num_stops. }
  destruct (Z.ltb_spec z 0).
  - cbn [app signed_num]. rewrite Hnum; lia.
  - destruct (digits_head 19 z []) as (d & s & Hd & Hr'); [lia|lia|]. pose proof (digit_uchar d Hr') as Hu.
    assert (digit d <> x2d) by (intros E; rewrite E in Hu; change (uchar x2d) with 45 in Hu; lia).
    assert (Hs : signed_num (digits 19 z [] ++ r) = num 0 (digits 19 z [] ++ r)).
    { rewrite Hd. cbn [app]. unfold signed_num. by destruct (digit d). }
    rewrite Hs. apply Hnum. lia.
Qed.

Lemma pow2_half n : 0 < n -> 2 ^ n = 2 * 2 ^ (n - 1) /\ 0 < 2 ^ (n - 1).
Proof.
  intros Hn. split; [rewrite <-Z.pow_succ_r by lia; f_equal; lia|]. apply Z.pow_pos_nonneg; lia.
Qed.

Lemma to_signed_small n z : 0 < n -> - 2 ^ (n - 1) <= z < 2 ^ (n - 1) -> to_signed n z = z.
Proof.
  intros Hn Hz. destruct (pow2_half n Hn) as [E Hp]. unfold to_signed. rewrite E.
  clear E. generalize dependent (2 ^ (n - 1)). intros p Hz Hp.
  destruct (decide (0 <= z)).
  - rewrite Z.mod_small by lia. destruct (Z.ltb_spec z p); lia.
  - rewrite <-(Z.mod_unique_pos z (2 * p) (-1) (z + 2 * p)) by lia. destruct (Z.ltb_spec (z + 2 * p) p); lia.
Qed.

Lemma to_signed_big n z : 0 < n -> 2 ^ (n - 1) <= z < 2 ^ n -> to_signed n z = z - 2 ^ n.
Proof.
  intros Hn Hz. destruct (pow2_half n Hn) as [_ Hp]. unfold to_signed. rewrite Z.mod_small by lia.
  destruct (Z.ltb_spec z (2 ^ (n - 1))); lia.
Qed.

(** An unsigned field is printed as it is exactly if its highest bit is not set. *)
Lemma to_signed_id n z : 0 < n -> 0 <= z < 2 ^ n -> to_signed n z = z <-> z < 2 ^ (n - 1).
Proof.
  intros Hn Hz. destruct (pow2_half n Hn) as [E Hp]. destruct (decide (z < 2 ^ (n - 1))).
  - rewrite to_signed_small by lia. done.
  - rewrite to_signed_big by lia. lia.
Qed.

Lemma to_signed_range n z : 0 < n <= 64 -> - 2 ^ 63 <= to_signed n z < 2 ^ 63.
Proof.
  intros Hn. destruct (pow2_half n) as [E Hp]; [lia|].
  pose proof (Z.pow_le_mono_r 2 (n - 1) 63) as H63. unfold to_signed. pose proof (Z.mod_pos_bound z (2 ^ n)).
  destruct (Z.ltb_spec (z mod 2 ^ n) (2 ^ (n - 1))); lia.
Qed.

(** A report of labelled numbers. *)
Definition report (l : list (list byte * Z)) : list byte :=
  unlines (map (fun f => f.1 ++ bytes " = " ++ dec64 f.2) l).

Lemma digits_no_lf fuel n acc : 0 <= n -> LF ∉ acc -> LF ∉ digits fuel n acc.
Proof.
  assert (Hd : forall d, 0 <= d <= 9 -> LF <> digit d).
  { intros d Hd E. pose proof (digit_uchar d Hd) as Hu. rewrite <-E in Hu. change (uchar LF) with 10 in Hu. lia. }
  revert n acc. induction fuel as [|f IH]; intros n acc Hn Hacc; cbn [digits]; [done|].
  destruct (Z.ltb_spec n 10); [apply not_elem_of_cons; split; [apply Hd; lia|done]|].
  apply IH; [apply Z.div_pos; lia|]. apply not_elem_of_cons. split; [apply Hd|done]. pose proof (Z.mod_pos_bound n 10). lia.
Qed.

Lemma dec64_no_lf z : LF ∉ dec64 z.
Proof.
  unfold dec64. destruct (Z.ltb_spec z 0).
  - apply not_elem_of_cons. split; [done|]. apply digits_no_lf; [lia|apply not_elem_of_nil].
  - apply digits_no_lf; [lia|apply not_elem_of_nil].
Qed.

Lemma after_eq_label lb r : x3d ∉ lb -> after_eq (lb ++ bytes " = " ++ r) = r.
Proof.
  induction lb as [|c lb IH]; intros Hn; [done|]. apply not_elem_of_cons in Hn as [Hc Hn]. cbn [app after_eq].
  rewrite decide_False by done. by apply IH.
Qed.

Lemma read_report_report l :
  Forall (fun f => x3d ∉ (f.1) /\ LF ∉ (f.1) /\ - 2 ^ 63 <= (f.2) < 2 ^ 63) l -> read_report (report l) = map snd l.
Proof.
  intros Hl. unfold read_report, report. rewrite lines_unlines.
  - rewrite !map_map. induction Hl as [|[lb v] l (He & _ & Hv) Hl IH]; [done|]. cbn [map fst snd] in *. f_equal; [|exact IH].
    rewrite <-!(assoc_L (++)), after_eq_label by done.
    by apply signed_num_dec64.
  - apply Forall_fmap. eapply Forall_impl; [exact Hl|]. intros [lb v] (_ & Hf & _). cbn [compose fst snd] in *.
    rewrite !elem_of_app. intros [?|[Hin|Hin]]; [done|by revert Hin; apply (bool_decide_unpack (_ ∉ _))|by apply (dec64_no_lf v)].
Qed.

(** What [fprint_stat] prints. *)
Definition stat_report (d : stat_st) : list (list byte * Z) :=
  zip [bytes "dev"; bytes "inode"; bytes "mode"; bytes "hard links"; bytes "userid"; bytes "groupid"; bytes "rdev";
       bytes "total size"; bytes "block size"; bytes "block count"]
      [to_signed 64 (st_dev d); to_signed 64 (st_ino d); to_signed 32 (st_mode d); to_signed 64 (st_nlink d);
       to_signed 32 (st_uid d); to_signed 32 (st_gid d); to_signed 64 (st_rdev d); to_signed 64 (st_size d);
       to_signed 64 (st_blksize d); to_signed 64 (st_blocks d)].

Lemma fprint_stat_report d (o : out) : fprint_stat d o = Ok tt (o ++ report (stat_report d)).
Proof.
  unfold fprint_stat, field, putline, puts. repeat erewrite bind_Ok by done. unfold modify. f_equal.
  unfold report, stat_report. cbn [zip zip_with map fst snd]. rewrite !unlines_cons. unfold unlines. cbn [map concat].
  rewrite app_nil_r. by rewrite <-!(assoc_L (++)).
Qed.

(** C26: stat.c prints the status of its file so that it can be read back, for all
    values the fields can hold: the report has one number for each of the ten
    fields, and they are the fields exactly if the mode, the owner and the group
    (32 bits) are below 2^31 and the two devices, the inode and the number of
    links (64 bits) are below 2^63; each of these that is not is printed as the
    negative number that is 2^32 or 2^64 less.  A missing argument and a file
    without status end the program with status 0 all the same. *)
Theorem stat_reads_back stat prog arg rest d (o : out) :
  stat arg = Some d -> stat_ok d ->
  exists text, stat_main stat (prog :: arg :: rest) o = Ok 0 (o ++ text) /\
    (read_report text = values d <-> Forall (fun '(_, n, z) => z < 2 ^ (n - 1)) (unsigned_fields d)) /\
    Forall (fun '(i, n, z) => 2 ^ (n - 1) <= z -> read_report text !! i = Some (z - 2 ^ n)) (unsigned_fields d) /\
    stat_main (fun _ => None) (prog :: arg :: rest) o = Exit 0 o /\ stat_main stat [prog] o = Exit 0 o.
Proof.
  intros Hs [Hun H64]. unfold unsigned_fields in *. rewrite !Forall_cons in Hun. rewrite !Forall_cons in H64.
  exists (report (stat_report d)).
  assert (Hrd : read_report (report (stat_report d)) = map snd (stat_report d)).
  { apply read_report_report. unfold stat_report. cbn [zip zip_with].
    repeat (apply Forall_cons; split); [..|by constructor]; cbn [fst snd];
      (split; [by apply (bool_decide_unpack (_ ∉ _)); vm_compute|]); (split; [by apply (bool_decide_unpack (_ ∉ _)); vm_compute|]).
    all: apply to_signed_range; lia. }
  split.
  { unfold stat_main. erewrite bind_Ok by done. rewrite Hs. by erewrite bind_Ok by apply fprint_stat_report. }
  rewrite Hrd. unfold stat_report. cbn [zip zip_with map snd].
  rewrite (to_signed_small 64 (st_size d)), (to_signed_small 64 (st_blksize d)),
    (to_signed_small 64 (st_blocks d)) by first [lia|tauto].
  split_and!; [| |done|done].
  - rewrite !Forall_cons. rewrite <-(to_signed_id 64 (st_dev d)), <-(to_signed_id 64 (st_ino d)), <-(to_signed_id 32 (st_mode d)),
      <-(to_signed_id 64 (st_nlink d)), <-(to_signed_id 32 (st_uid d)), <-(to_signed_id 32 (st_gid d)),
      <-(to_signed_id 64 (st_rdev d)) by first [lia|tauto].
    unfold values. split.
    + intros [= E1 E2 E3 E4 E5 E6 E7]. by rewrite E1, E2, E3, E4, E5, E6, E7.
    + by intros (-> & -> & -> & -> & -> & -> & -> & _).
  - repeat (apply Forall_cons; split); [..|by constructor]; intros Hz; cbn [lookup list_lookup]; f_equal;
      apply to_signed_big; first [lia|split; [done|tauto]].
Qed.

(** The owner 4294967294, the user nobody of some systems, is printed as -2. *)
Lemma stat_reads_back_witness :
  exists text, stat_main (fun _ => Some (Stat 2049 12 33188 1 4294967294 100 0 10 4096 8)) [bytes "stat"; bytes "f"] [] = Ok 0 ([] ++ text) /\
    (2 ^ (32 - 1) <= 4294967294 -> read_report text !! 4%nat = Some (4294967294 - 2 ^ 32)).
Proof.
  destruct (stat_reads_back (fun _ => Some (Stat 2049 12 33188 1 4294967294 100 0 10 4096 8)) (bytes "stat") (bytes "f") []
    (Stat 2049 12 33188 1 4294967294 100 0 10 4096 8) []) as (text & H1 & _ & H2 & _); [reflexivity| |].
  - split; repeat constructor; cbn; lia.
  - exists text. split; [exact H1|]. do 4 apply Forall_cons in H2 as [_ H2]. apply Forall_cons in H2 as [H2 _]. exact H2.
Defined.
