(* ===== verification/StdioMisc.v ===== *)
(** * StdioMisc: src/stdio/fgets.c and src/stdio/errno.c

    A program that counts how often [fgets] with a small buffer has to be called,
    and one that opens a file to see why it cannot. *)

From S2P Require Import Prelude Prog Posix Cstd Stdio StdioTools.

Module Fgets.
Definition BUF_SIZE : nat := 5.

Definition FILE : string := "abcd.txt".

(** A stream that could not be opened is used all the same. *)
Definition step (s : Z * option stream) : M (os * list (list byte)) ((Z * option stream) + Z) :=
  let '(n, f) := s in
  n ← int_ (n + 1);
  f ← unwrap NullDeref f;
  '(buf, f) ← sys (fgets BUF_SIZE f);
  match buf with
  | None => mret (inr n)
  | Some buf => print (cstr buf ++ [LF]) ;; mret (inl (n, Some f))
  end.

Definition main (fuel : nat) : M (os * list (list byte)) Z :=
  f ← sys (fopen_r FILE);
  n ← iter fuel step (0, f);
  print (bytes "n = " ++ dec n ++ [LF]) ;;
  mret 0.

(** The pieces in which [fgets] reads a text. *)
Fixpoint pieces (fuel : nat) (l : list byte) : list (list byte) :=
  match fuel with
  | O => []
  | S fuel' => match take_line (BUF_SIZE - 1) l with [] => [] | p => p :: pieces fuel' (drop (length p) l) end
  end.

Lemma pieces_spec fuel l :
  (length l < fuel)%nat ->
  concat (pieces fuel l) = l /\ Forall (fun p => (1 <= length p <= 4)%nat) (pieces fuel l) /\
  (length (pieces fuel l) <= length l)%nat.
Proof.
  revert l. induction fuel as [|fuel IH]; intros l Hf; [lia|]. cbn [pieces].
  pose proof (take_line_split (BUF_SIZE - 1) l) as Hs. pose proof (take_line_length (BUF_SIZE - 1) l) as Hl.
  pose proof (take_line_nil (BUF_SIZE - 1) l ltac:(cbn; lia)) as Hn.
  destruct (take_line (BUF_SIZE - 1) l) as [|b p] eqn:E.
  - rewrite (Hn eq_refl). by split_and!.
  - assert (Hlen : length l = (length (b :: p) + length (drop (length (b :: p)) l))%nat) by (by rewrite <-length_app, Hs).
    destruct (IH (drop (length (b :: p)) l)) as (H1 & H2 & H3); [cbn [length] in *; lia|].
    split_and!; [cbn [concat]; by rewrite H1|constructor; [unfold BUF_SIZE in Hl; cbn [length Nat.sub] in *; lia|done]|cbn [length] in *; lia].
Qed.

Lemma loop_reads fuel c k n w o :
  no_err (orc w) -> fs w !! FILE = Some c -> x00 ∉ c -> (k <= length c)%nat -> (length c - k < fuel)%nat ->
  0 <= n -> n + Z.of_nat (length c - k) + 1 <= INT_MAX ->
  exists w', fs w' = fs w /\
    iter fuel step (n, Some (Stream FILE k)) (w, o) =
    Ok (n + Z.of_nat (length (pieces fuel (drop k c))) + 1) (w', o ++ map (fun p => p ++ [LF]) (pieces fuel (drop k c))).
Proof.
  revert k n w o. induction fuel as [|fuel IH]; intros k n w o Hn Hc Hz Hk Hf Hn0 Hmax; [lia|].
  destruct (wp_Ok (fgets BUF_SIZE (Stream FILE k))
      (fun x w1 => exists o, o `suffix_of` orc w /\ w1 = with_orc o w /\
         let l := take_line (BUF_SIZE - 1) (drop k c) in
         x = (match l with [] => None | _ => Some l end, Stream FILE (k + length l))) w) as (x & w1 & Hx & q & Hq & -> & ->).
  { apply (wp_fgets _ FILE k c); [done..|]. intros q Hq. by exists q. }
  cbn [iter pieces]. unfold step at 1. unfold int_. rewrite (proj2 (in_int_spec _)) by (unfold INT_MIN; lia).
  unfold sys, on, mbind, M_bind, mret, M_ret. cbn [unwrap mret M_ret fst snd]. rewrite Hx.
  set (l := take_line (BUF_SIZE - 1) (drop k c)). assert (El : l = take_line (BUF_SIZE - 1) (drop k c)) by done. clearbody l.
  destruct l as [|b l].
  - exists (with_orc q w). split; [done|]. cbn. rewrite app_nil_r. do 2 f_equal. lia.
  - pose proof (take_line_split (BUF_SIZE - 1) (drop k c)) as Hs. rewrite <-El in Hs.
    assert (Hlen : (length (b :: l) <= length c - k)%nat) by (rewrite <-length_drop, <-Hs, length_app; lia).
    assert (Hcs : cstr (b :: l) = b :: l).
    { apply cstr_id. intros Hin. apply Hz. rewrite <-(take_drop k c), <-Hs, !elem_of_app. auto. }
    destruct (IH (k + length (b :: l))%nat (n + 1) (with_orc q w) (o ++ [cstr (b :: l) ++ [LF]])) as (w' & Hw' & Hrun);
      [by eapply no_err_suffix|done|done|lia|cbn [length] in *; lia|lia|cbn [length] in *; lia|].
    exists w'. split; [done|]. rewrite drop_drop. cbn [print modify fst snd mbind M_bind]. rewrite Hrun, Hcs.
    cbn [map length]. rewrite <-(assoc_L (++)). cbn [app]. f_equal. lia.
Qed.

(** fgets.c: for every text without zero bytes the pieces that are printed are
    the text, each has one to four bytes, and the number printed last is one more
    than the number of pieces, the last call being the one that finds the end.  If
    the file cannot be opened the program says so and reads from it all the same. *)
Theorem fgets_counts fuel w c :
  no_err (orc w) -> x00 ∉ c -> (length c < fuel)%nat -> Z.of_nat (length c) < INT_MAX ->
  (fs w !! FILE = Some c ->
   exists w' ps, fs w' = fs w /\ concat ps = c /\ Forall (fun p => (1 <= length p <= 4)%nat) ps /\
     main fuel (w, []) =
     Ok 0 (w', map (fun p => p ++ [LF]) ps ++ [bytes "n = " ++ dec (Z.of_nat (length ps) + 1) ++ [LF]])) /\
  (fs w !! FILE = None -> exists w', main fuel (w, []) = Fault NullDeref (w', [])).
Proof.
  intros Hn Hz Hf Hmax. destruct fuel as [|fuel]; [lia|]. split; intros Hc.
  - destruct (wp_Ok (fopen_r FILE) (fun f w1 => exists o, o `suffix_of` orc w /\ f = Some (Stream FILE 0) /\ w1 = with_orc o w) w)
      as (f & w1 & Hx & q & Hq & -> & ->).
    { apply (wp_fopen_ok FILE c); [done..|]. intros q Hq. by exists q. }
    destruct (loop_reads (S fuel) c 0 0 (with_orc q w) []) as (w' & Hw' & Hrun);
      [by eapply no_err_suffix|done|done|lia|lia|lia|lia|].
    destruct (pieces_spec (S fuel) c Hf) as (H1 & H2 & _). exists w', (pieces (S fuel) c). split_and!; [done|done|done|].
    unfold main, sys, on. unfold mbind at 1, M_bind at 1. cbn [fst snd]. rewrite Hx. unfold mbind at 1, M_bind at 1. rewrite Hrun.
    rewrite drop_0. cbn [app]. rewrite Z.add_0_l. done.
  - destruct (wp_Ok (fopen_r FILE) (fun f w1 => f = None) w) as (f & w1 & Hx & ->).
    { apply wp_fopen_r; [done|done|]. rewrite Hc. by intros o _ [? ?]. }
    exists w1. unfold main, sys, on. unfold mbind at 1, M_bind at 1. cbn [fst snd]. rewrite Hx. done.
Qed.

(** The file of the repository. *)
Definition abcd_os : os :=
  {| fs := {[ FILE := bytes "abcd" ++ [LF] ]}; ofds := []; fdt := ∅; errno := 0; orc := [] |}.

Lemma fgets_counts_witness :
  exists w' ps, fs w' = fs abcd_os /\ concat ps = bytes "abcd" ++ [LF] /\ Forall (fun p => (1 <= length p <= 4)%nat) ps /\
    main 10 (abcd_os, []) =
    Ok 0 (w', map (fun p => p ++ [LF]) ps ++ [bytes "n = " ++ dec (Z.of_nat (length ps) + 1) ++ [LF]]).
Proof.
  apply (fgets_counts 10 abcd_os (bytes "abcd" ++ [LF]));
    [by constructor|by apply (bool_decide_unpack (_ ∉ _)); vm_compute|cbn; lia|unfold INT_MAX; cbn; lia|reflexivity].
Defined.

(** Two pieces, three calls. *)
Example fgets_demo : pieces 10 (bytes "abcd" ++ [LF]) = [bytes "abcd"; [LF]].
Proof. vm_compute. done. Qed.
End Fgets.

Module Errno.
(** The number [fopen] left in [errno] is printed; the status is 0 in any case. *)
Definition main : M (os * list Z) Z :=
  fp ← sys (fopen_r "stdio.c");
  match fp with
  | None => t ← get; print (errno t.1) ;; mret 0
  | Some _ => mret 0
  end.

(** errno.c prints an error number exactly if the file cannot be opened, ENOENT
    if there is none, and leaves the files alone. *)
Theorem errno_prints w :
  wp main (fun r t => r = 0 /\ fs t.1 = fs w /\
    (t.2 = [] /\ is_Some (fs w !! "stdio.c"%string) \/
     t.2 = [ENOENT] /\ fs w !! "stdio.c"%string = None \/ exists e, t.2 = [Zpos e] /\ head (orc w) = Some (AErr e)))
    (fun _ _ => False) (w, []).
Proof.
  unfold main, sys. wp_steps. cbn [fst snd]. apply wp_fopen_r.
  - intros e o Ho. wp_steps. cbn [fst snd]. unfold print. wp_steps. cbn. split_and!; [done|done|]. right. right. exists e. by rewrite Ho.
  - intros o _ Hn. wp_steps. unfold print. wp_steps. cbn. split_and!; [done|done|]. right. left. done.
  - intros o _ Hs. wp_steps. cbn. split_and!; [done|done|]. by left.
Qed.
End Errno.
