(* ===== verification/Procs.v ===== *)
(** * Procs: src/ps/exec_test.c, src/ps/zombie.c, src/terminal/pgid.c and sid.c

    Programs whose processes run at the same time.  A step is a call of one
    process; the steps come in any order.  A child that has ended is a zombie
    until its parent waits for it. *)

From S2P Require Import Prelude.

(** ** exec_test.c *)
Module ExecTest.

(** An [exec]: the file, whether it is searched for in PATH, the arguments, and
    the environment ([None]: that of the caller).  What the program it starts
    prints and whether it ends are not known: they are events. *)
Record exec_call := ExecCall {
  e_file : string; e_search : bool; e_argv : list string; e_env : option (list string) }.

Definition call_of (i : nat) : exec_call :=
  match i with
  | 0%nat => ExecCall "/usr/bin/echo" false ["echo"; "*"] None
  | 1%nat => ExecCall "echo" true ["echo"; "*"] None
  | _ => ExecCall "/usr/bin/env" false ["env"] (Some ["X_VAR=helloworld"])
  end%string.

(** The line behind an [exec] that failed. *)
Definition line_of (i : nat) : list byte :=
  match i with
  | 0%nat => bytes "execl: this line shoudn't printed"
  | 1%nat => bytes "execlp: this line shoudn't printed"
  | _ => bytes "execle: this line shoudn't printed"
  end ++ [x0a].

Inductive cstate := Running | Zombie (status : Z) | Reaped (status : Z).

(** A child: which of the three it is, the program it has become, its state. *)
Record child := Child { kind : nat; image : option exec_call; cst : cstate }.

(** The parent: before the [fork] number [i], in the [wait] loop, or ended. *)
Inductive ppos := PFork (i cnt : nat) | PWait (i cnt : nat) | PDone.

(** [out]: who wrote what on the standard output, in order. *)
Record st := St { parent : ppos; kids : list child; out : list (nat * list byte) }.

Definition running (c : child) : bool := match cst c with Running => true | _ => false end.
Definition zombie (c : child) : bool := match cst c with Zombie _ => true | _ => false end.
Definition reaped (c : child) : bool := match cst c with Reaped _ => true | _ => false end.

Definition reap (c : child) : child :=
  Child (kind c) (image c) match cst c with Zombie x => Reaped x | y => y end.

(** [fork] makes a child or not; [wait] takes a zombie, blocks while there is none
    but a child is running, and fails at once when there is no child. *)
Definition parent_step (forked : bool) (s : st) : st :=
  match parent s with
  | PFork i cnt =>
      let cnt := S cnt in
      St (if decide (i = 2)%nat then PWait 0 cnt else PFork (S i) cnt)
         (if forked then kids s ++ [Child i None Running] else kids s) (out s)
  | PWait i cnt =>
      if decide (i < cnt)%nat then
        match find_idx zombie (kids s) with
        | Some k => St (PWait (S i) cnt) (alter reap k (kids s)) (out s)
        | None => if existsb running (kids s) then s else St (PWait (S i) cnt) (kids s) (out s)
        end
      else St PDone (kids s) (out s)
  | PDone => s
  end.

(** The child's [exec] succeeds, or its line is printed and it exits with 0. *)
Definition child_step (k : nat) (execed : bool) (s : st) : st :=
  match kids s !! k with
  | Some (Child i None Running) =>
      if execed then St (parent s) (<[k := Child i (Some (call_of i)) Running]> (kids s)) (out s)
      else St (parent s) (<[k := Child i None (Zombie 0)]> (kids s)) (out s ++ [(k, line_of i)])
  | _ => s
  end.

(** The program a child has become prints something, or ends. *)
Definition prog_step (k : nat) (x : list byte + Z) (s : st) : st :=
  match kids s !! k with
  | Some (Child i (Some e) Running) =>
      match x with
      | inl o => St (parent s) (kids s) (out s ++ [(k, o)])
      | inr status => St (parent s) (<[k := Child i (Some e) (Zombie status)]> (kids s)) (out s)
      end
  | _ => s
  end.

Inductive event := Parent (forked : bool) | Kid (k : nat) (execed : bool) | Prog (k : nat) (x : list byte + Z).

Definition step (e : event) (s : st) : st :=
  match e with Parent f => parent_step f s | Kid k x => child_step k x s | Prog k x => prog_step k x s end.

Definition run (l : list event) (s : st) : st := foldl (fun s e => step e s) s l.

Definition start : st := St (PFork 0 0) [] [].

(** ** The parent waits for all *)

(** What the child number [k] has written. *)
Definition wrote (k : nat) (s : st) : list (list byte) :=
  map snd (filter (fun x => x.1 = k) (out s)).

Definition count (f : child -> bool) (l : list child) : nat := length (filter (fun c => f c = true) l).

(** What is known of the child number [k] and its output. *)
Definition child_ok (s : st) (k : nat) (c : child) : Prop :=
  match image c with
  | Some e => e = call_of (kind c)
  | None => match cst c with
            | Running => wrote k s = []
            | Zombie x | Reaped x => x = 0 /\ wrote k s = [line_of (kind c)]
            end
  end.

Record inv (s : st) : Prop := {
  i_kids : map kind (kids s) `sublist_of` match parent s with PFork i _ => seq 0 i | _ => seq 0 3 end;
  i_pos : match parent s with
          | PFork i cnt => (i <= 2)%nat /\ cnt = i /\ count reaped (kids s) = 0%nat
          | PWait i cnt => cnt = 3%nat /\ (i <= 3)%nat /\
              (count reaped (kids s) = i \/ Forall (fun c => reaped c = true) (kids s))
          | PDone => Forall (fun c => reaped c = true) (kids s)
          end;
  i_child : forall k c, kids s !! k = Some c -> child_ok s k c;
  i_out : Forall (fun x => (x.1 < length (kids s))%nat) (out s) }.

Lemma kind_insert (l : list child) k c c' :
  l !! k = Some c -> kind c' = kind c -> map kind (<[k := c']> l) = map kind l.
Proof.
  intros Hk Hc. apply list_eq. intros j. rewrite !list_lookup_fmap. destruct (decide (j = k)) as [->|].
  - rewrite Hk, list_lookup_insert_eq by (by eapply lookup_lt_Some). simpl. by rewrite Hc.
  - by rewrite list_lookup_insert_ne.
Qed.

Lemma alter_insert {A} (f : A -> A) (l : list A) k x : l !! k = Some x -> alter f k l = <[k := f x]> l.
Proof.
  intros Hk. apply list_eq. intros n. destruct (decide (n = k)) as [->|].
  - rewrite list_lookup_alter_eq, Hk, list_lookup_insert_eq by (by eapply lookup_lt_Some). done.
  - by rewrite list_lookup_alter_ne, list_lookup_insert_ne by done.
Qed.

(** A line written by one child is not one of another. *)
Lemma wrote_app j k o s p ks :
  wrote j (St p ks (out s ++ [(k, o)])) = wrote j s ++ (if decide (j = k) then [o] else []).
Proof.
  unfold wrote. cbn [out]. rewrite filter_app, map_app. f_equal. rewrite filter_cons, filter_nil. cbn [fst].
  by repeat case_decide; subst.
Qed.

Lemma count_app f l l' : count f (l ++ l') = (count f l + count f l')%nat.
Proof. unfold count. by rewrite filter_app, length_app. Qed.

(** A child changes its state; it writes, or does not. *)
Lemma inv_set_child k c c' o s :
  inv s -> kids s !! k = Some c -> running c = true -> kind c' = kind c -> reaped c' = false ->
  child_ok (St (parent s) (<[k := c']> (kids s)) (out s ++ o)) k c' ->
  Forall (fun x => x.1 = k) o -> (length o <= 1)%nat ->
  inv (St (parent s) (<[k := c']> (kids s)) (out s ++ o)).
Proof.
  intros [Hk Hp Hc Ho] Hkc Hrun Hkind Hr Hok Hall Hlen.
  assert (Hrc : reaped c = false) by (destruct c as [? ? []]; done).
  assert (Hcnt : count reaped (<[k := c']> (kids s)) = count reaped (kids s)).
  { pose proof (count_insert reaped (kids s) k c c' Hkc) as H. rewrite Hr, Hrc in H. unfold count. cbn in H. lia. }
  assert (Hnot : ~ Forall (fun c => reaped c = true) (kids s)).
  { rewrite Forall_lookup. intros Hf. apply Hf in Hkc. congruence. }
  split; cbn [parent kids out].
  - by rewrite (kind_insert _ _ _ _ Hkc Hkind).
  - rewrite Hcnt. destruct (parent s); [done| |done]. naive_solver.
  - intros j cj. rewrite list_lookup_insert. case_decide as Hj; [destruct Hj as [<- _]; intros [= <-]; done|].
    assert (j <> k) by (intros ->; apply Hj; split; [done|by eapply lookup_lt_Some]).
    intros Hcj. specialize (Hc j cj Hcj). unfold child_ok in *.
    assert (Hw : wrote j (St (parent s) (<[k:=c']> (kids s)) (out s ++ o)) = wrote j s).
    { destruct o as [|[k' x] [|]]; [by rewrite app_nil_r| |simpl in Hlen; lia].
      rewrite Forall_singleton in Hall. cbn in Hall. subst k'. rewrite wrote_app, decide_False by done. by rewrite app_nil_r. }
    by rewrite Hw.
  - rewrite length_insert. apply Forall_app_2; [done|]. eapply Forall_impl; [exact Hall|]. cbn. intros x ->.
    by eapply lookup_lt_Some.
Qed.

Lemma exec_child_inv k x s : inv s -> inv (child_step k x s).
Proof.
  intros Hs. unfold child_step. destruct (kids s !! k) as [[i [e|] []]|] eqn:E; try done.
  pose proof (i_child s Hs k _ E) as Hw. unfold child_ok in Hw. cbn [image cst] in Hw. destruct x.
  - rewrite <-(app_nil_r (out s)). eapply inv_set_child; [done|exact E|done..| |simpl; lia]. constructor.
  - eapply inv_set_child; [done|exact E|done..| | |simpl; lia].
    + unfold child_ok. cbn [image cst kind]. rewrite wrote_app, Hw, decide_True by done. done.
    + by apply Forall_singleton.
Qed.

Lemma exec_prog_inv k x s : inv s -> inv (prog_step k x s).
Proof.
  intros Hs. unfold prog_step. destruct (kids s !! k) as [[i [e|] []]|] eqn:E; try done.
  pose proof (i_child s Hs k _ E) as Hw. unfold child_ok in Hw. cbn [image kind] in Hw. destruct x as [o|z].
  - rewrite <-(list_insert_id (kids s) k (Child i (Some e) Running)) by done.
    eapply inv_set_child; [done|exact E|done..| |simpl; lia]. by apply Forall_singleton.
  - rewrite <-(app_nil_r (out s)). eapply inv_set_child; [done|exact E|done..| |simpl; lia]. constructor.
Qed.

(** A zombie is waited for. *)
Lemma inv_reap k c p s :
  inv s -> kids s !! k = Some c -> zombie c = true ->
  match p with
  | PWait (S i) cnt => cnt = 3%nat /\ (i < 3)%nat /\ count reaped (kids s) = i /\ exists j, parent s = PWait j 3
  | _ => False
  end -> inv (St p (alter reap k (kids s)) (out s)).
Proof.
  intros [Hk Hp Hc Ho] Hkc Hz Hpos. destruct p as [|[|i] cnt|]; [done|done| |done].
  destruct Hpos as (-> & Hi & Hcnt & j & Hj). rewrite Hj in Hk.
  rewrite (alter_insert _ _ _ _ Hkc). destruct c as [n im cs]. destruct cs as [|z|]; try done.
  pose proof (count_insert reaped (kids s) k _ (reap (Child n im (Zombie z))) Hkc) as H. cbn in H.
  split; cbn [parent kids out].
  - by rewrite (kind_insert _ _ _ _ Hkc).
  - split_and!; [done|lia|]. left. unfold count in *. lia.
  - intros m cm. rewrite list_lookup_insert. case_decide as Hm; [|apply Hc].
    destruct Hm as [<- _]. intros [= <-]. apply (Hc k _ Hkc).
  - by rewrite length_insert.
Qed.

Lemma exec_parent_inv forked s : inv s -> inv (parent_step forked s).
Proof.
  intros Hs. pose proof Hs as [Hk Hp Hc Ho]. unfold parent_step.
  destruct (parent s) as [i cnt|i cnt|] eqn:Ep.
  - destruct Hp as (Hi & -> & Hr). split; cbn [parent kids out].
    + assert (Hseq : map kind (if forked then kids s ++ [Child i None Running] else kids s) `sublist_of` seq 0 (S i)).
      { rewrite seq_S. destruct forked; [rewrite map_app; by apply sublist_app|]. by apply sublist_inserts_r. }
      case_decide; [by subst i|done].
    + assert (Hcnt : count reaped (if forked then kids s ++ [Child i None Running] else kids s) = 0%nat)
        by (destruct forked; [rewrite count_app, Hr|]; done).
      case_decide; [split_and!; [lia|lia|by left]|split_and!; [lia|lia|done]].
    + intros k c. destruct forked; [|apply Hc]. rewrite lookup_app_Some. intros [Hl|[Hge Hl]]; [by apply Hc|].
      apply list_lookup_singleton_Some in Hl as [Hl <-]. unfold child_ok. cbn [image cst]. unfold wrote. cbn [out].
      assert (Hnil : filter (fun x => x.1 = k) (out s) = []); [|by rewrite Hnil].
      clear -Ho Hge. induction Ho as [|x xs Hx _ IH]; [done|]. rewrite filter_cons, decide_False by lia. apply IH.
    + eapply Forall_impl; [exact Ho|]. cbn. intros x ?. destruct forked; [rewrite length_app|]; lia.
  - destruct Hp as (-> & Hi & Hr). case_decide as Hlt.
    + destruct (find_idx zombie (kids s)) as [k|] eqn:E.
      * apply find_idx_Some in E as [(c & Hj & Hz) _]. apply (inv_reap k c); [done..|]. split_and!; [done|lia| |by exists i].
        destruct Hr as [Hr|Hr]; [done|]. rewrite Forall_lookup in Hr. apply Hr in Hj. by destruct c as [? ? []].
      * destruct (existsb running (kids s)) eqn:Er; [done|]. split; cbn [parent kids out]; [done| |done|done].
        split_and!; [done|lia|]. right. apply Forall_lookup. intros k c Hj. destruct (cst c) eqn:Ec.
        -- apply not_true_iff_false in Er. destruct Er. apply existsb_exists. exists c.
           split; [|unfold running; by rewrite Ec]. by apply list_elem_of_In, (list_elem_of_lookup_2 _ k).
        -- rewrite find_idx_None in E. specialize (E _ _ Hj). unfold zombie in E. by rewrite Ec in E.
        -- unfold reaped. by rewrite Ec.
    + split; cbn [parent kids out]; [done| |done|done]. destruct Hr as [Hr|Hr]; [|done].
      apply count_full. apply sublist_length in Hk. rewrite length_map, length_seq in Hk. unfold count in *. lia.
  - done.
Qed.

Lemma exec_run_inv l s : inv s -> inv (run l s).
Proof.
  revert s. induction l as [|e l IH]; intros s Hs; [done|]. apply IH.
  destruct e; [by apply exec_parent_inv|by apply exec_child_inv|by apply exec_prog_inv].
Qed.

(** ** The end comes nearer *)

(** The steps left to a child, its program's writes apart, and to all. *)
Definition weight (c : child) : nat :=
  match cst c, image c with Running, None => 2 | Running, Some _ => 1 | _, _ => 0 end.

Definition measure (s : st) : nat :=
  match parent s with PFork i _ => 24 - 4 * i | PWait i _ => 10 - i | PDone => 0 end +
  sum_list_with weight (kids s).

Lemma cost_insert l k c c' :
  l !! k = Some c ->
  (sum_list_with weight (<[k := c']> l) + weight c = sum_list_with weight l + weight c')%nat.
Proof.
  revert k. induction l as [|x l IH]; intros [|k] Hk; simplify_eq/=; [lia|]. specialize (IH k Hk). lia.
Qed.

Lemma child_measure k x s : child_step k x s = s \/ (measure (child_step k x s) < measure s)%nat.
Proof.
  unfold child_step. destruct (kids s !! k) as [[i [e|] []]|] eqn:E; try (by left). right. destruct x.
  - pose proof (cost_insert _ _ _ (Child i (Some (call_of i)) Running) E) as H. unfold measure. cbn in *. lia.
  - pose proof (cost_insert _ _ _ (Child i None (Zombie 0)) E) as H. unfold measure. cbn in *. lia.
Qed.

Lemma prog_measure k x s :
  prog_step k x s = s \/ (exists o, x = inl o /\ measure (prog_step k x s) = measure s) \/
  (measure (prog_step k x s) < measure s)%nat.
Proof.
  unfold prog_step. destruct (kids s !! k) as [[i [e|] []]|] eqn:E; try (by left). right.
  destruct x as [o|z]; [left; by exists o|right].
  pose proof (cost_insert _ _ _ (Child i (Some e) (Zombie z)) E) as H. unfold measure. cbn in *. lia.
Qed.

Lemma parent_measure f s :
  inv s ->
  parent_step f s = s /\ (parent s = PDone \/ exists k c, kids s !! k = Some c /\ running c = true) \/
  (measure (parent_step f s) < measure s)%nat.
Proof.
  intros [Hk Hp _ _]. unfold parent_step. destruct s as [p ks o]. cbn [parent kids out] in *. destruct p as [i cnt|i cnt|].
  - right. destruct Hp as (Hi & _). unfold measure. cbn [parent kids].
    assert (sum_list_with weight (if f then ks ++ [Child i None Running] else ks) <= sum_list_with weight ks + 2)%nat
      by (destruct f; [rewrite sum_list_with_app; simpl|]; lia).
    case_decide; lia.
  - destruct Hp as (-> & Hi & Hr). case_decide.
    + destruct (find_idx zombie ks) as [k|] eqn:E.
      * right. apply find_idx_Some in E as [(c & Hj & Hz) _].
        pose proof (cost_insert _ _ _ (reap c) Hj) as H1. rewrite (alter_insert _ _ _ _ Hj).
        assert (weight (reap c) = 0%nat) by (destruct c as [? ? []]; done).
        unfold measure. cbn [parent kids]. lia.
      * destruct (existsb running ks) eqn:Er.
        -- left. split; [done|]. right. apply existsb_exists in Er as (c & Hin & Hx).
           apply list_elem_of_In, list_elem_of_lookup in Hin as [k Hk']. by exists k, c.
        -- right. unfold measure. cbn [parent kids]. lia.
    + right. unfold measure. cbn [parent kids]. lia.
  - left. split; [done|by left].
Qed.

(** C18: exec_test.c ends when the programs it starts end, and not before its
    children: under every interleaving, whichever of its forks and [exec]s fail
    and whatever the executed programs print, each child was replaced by the
    program of its [exec] call, or has (once it has ended) printed exactly the
    line behind the call and exited with 0; when the parent has ended, every
    child that was made has ended and been waited for; nothing is written by
    anyone else.  Every step brings the end nearer, except a process that is
    blocked or an executed program that prints; and while the parent has not
    ended, it or a child has a step that does, or an executed program is still
    running: the program never waits for a child that does not exist. *)
Theorem exec_test_waits l :
  let s := run l start in
  map kind (kids s) `sublist_of` [0; 1; 2]%nat /\
  (forall k c, kids s !! k = Some c -> child_ok s k c) /\
  Forall (fun x => (x.1 < length (kids s))%nat) (out s) /\
  (parent s = PDone -> Forall (fun c => reaped c = true) (kids s)) /\
  (forall e, step e s = s \/ (exists k o, e = Prog k (inl o)) \/ (measure (step e s) < measure s)%nat) /\
  (parent s <> PDone ->
     (exists e, (forall k x, e <> Prog k x) /\ (measure (step e s) < measure s)%nat) \/
     exists k c e, kids s !! k = Some c /\ running c = true /\ image c = Some e).
Proof.
  intros s. assert (Hs : inv s) by (apply exec_run_inv; split; cbn; [done|split_and!; [lia|done|done]|done|constructor]).
  pose proof Hs as [Hk Hp Hc Ho]. split_and!.
  - destruct (parent s) as [i cnt| |]; [|done|done]. destruct Hp as (Hi & _). etrans; [exact Hk|].
    destruct i as [|[|[|]]]; [apply sublist_nil_l| | |lia]; repeat constructor.
  - done.
  - done.
  - intros Hd. by rewrite Hd in Hp.
  - intros [f|k x|k x]; cbn [step].
    + destruct (parent_measure f s Hs) as [[? _]|?]; auto.
    + destruct (child_measure k x s); auto.
    + destruct (prog_measure k x s) as [?|[(o & -> & _)|?]]; [by left| |by do 2 right]. right; left. by exists k, o.
  - intros Hd. destruct (parent_measure true s Hs) as [[_ [?|(k & c & Hkc & Hr)]]|?]; [done| |left; by exists (Parent true)].
    destruct (image c) as [e|] eqn:Ei; [right; by exists k, c, e|left]. exists (Kid k false). split; [done|].
    destruct (child_measure k false s) as [He|?]; [exfalso|done].
    destruct c as [i im cs]. cbn in Ei, Hr. subst im. destruct cs; try done.
    unfold child_step in He. rewrite Hkc in He. apply (f_equal (length ∘ out)) in He. cbn in He.
    rewrite length_app in He. cbn in He. lia.
Qed.

(** Two programs that print a line, one [exec] that fails. *)
Definition demo : list event :=
  [Parent true; Kid 0 true; Parent true; Prog 0 (inl (bytes "*")); Parent true; Kid 1 false; Kid 2 true;
   Prog 2 (inl (bytes "X_VAR=helloworld")); Prog 0 (inr 0); Prog 2 (inr 0);
   Parent true; Parent true; Parent true; Parent true].

Example exec_test_demo :
  parent (run demo start) = PDone /\
  out (run demo start) = [(0%nat, bytes "*"); (1%nat, line_of 1); (2%nat, bytes "X_VAR=helloworld")].
Proof. by vm_compute. Qed.
End ExecTest.

(** ** zombie.c *)
Module Zombie.
Definition ZOMBINE : nat := Z.to_nat 1000.

(** The parent: before the round [i], asleep, or ended.  A child is [true] when it
    has ended; it stays until its parent ends, since nobody waits for it. *)
Inductive ppos := Loop (i : nat) | Sleeping | Exited.

Record st := St { parent : ppos; kids : list bool }.

Definition parent_step (forked : bool) (s : st) : st :=
  match parent s with
  | Loop i =>
      if decide (i < ZOMBINE)%nat then
        if forked then St (Loop (S i)) (kids s ++ [false]) else St Exited []
      else St Sleeping (kids s)
  | Sleeping | Exited => s
  end.

(** A child does nothing but end. *)
Definition child_step (k : nat) (s : st) : st := St (parent s) (alter (fun _ => true) k (kids s)).

(** [sleep] returns: the program ends and its children become those of init,
    which waits for them. *)
Definition wake (s : st) : st := match parent s with Sleeping => St Exited [] | _ => s end.

Inductive event := Parent (forked : bool) | Kid (k : nat) | Wake.

Definition step (e : event) (s : st) : st :=
  match e with Parent f => parent_step f s | Kid k => child_step k s | Wake => wake s end.

Definition run (l : list event) (s : st) : st := foldl (fun s e => step e s) s l.

Definition start : st := St (Loop 0) [].

Definition zombies (s : st) : nat := length (filter (fun b : bool => b = true) (kids s)).

Definition inv (s : st) : Prop :=
  match parent s with
  | Loop i => (i <= ZOMBINE)%nat /\ length (kids s) = i
  | Sleeping => length (kids s) = ZOMBINE
  | Exited => kids s = []
  end.

Lemma zombie_step_inv e s : inv s -> inv (step e s).
Proof.
  unfold inv. destruct s as [p ks]. destruct e as [f|k|]; cbn [step].
  - unfold parent_step. cbn [parent kids]. destruct p as [i| |]; [|done|done]. intros [Hi Hl].
    case_decide; [|cbn [parent kids]; lia]. destruct f; cbn [parent kids]; [|done]. rewrite length_app. cbn [length]. lia.
  - unfold child_step. cbn [parent kids]. destruct p; rewrite ?length_alter; [done|done|]. by intros ->.
  - unfold wake. cbn [parent]. by destruct p.
Qed.

Lemma zombie_run_inv l : inv (run l start).
Proof.
  assert (H : inv start) by (split; cbn; lia). revert H. generalize start. induction l as [|e l IH]; intros s Hs; [done|].
  by apply IH, zombie_step_inv.
Qed.

Lemma filter_alter_grows k (l : list bool) :
  (length (filter (fun b : bool => b = true) l) <= length (filter (fun b : bool => b = true) (alter (fun _ => true) k l)))%nat.
Proof.
  revert k. induction l as [|b l IH]; intros [|k]; cbn [alter list_alter]; [done|done| |].
  - rewrite !filter_cons. rewrite (decide_True (P := true = true)) by done. case_decide; cbn [length]; lia.
  - rewrite !filter_cons. specialize (IH k). case_decide; cbn [length]; unfold alter in *; lia.
Qed.

Lemma zombies_grow e s : inv s -> parent (step e s) <> Exited -> (zombies s <= zombies (step e s))%nat.
Proof.
  intros Hs Hp. destruct e as [f|k|]; cbn [step] in *.
  - unfold parent_step, zombies in *. destruct (parent s); [|done|done]. case_decide; [|done]. destruct f; [|done].
    cbn [kids]. rewrite filter_app, length_app. lia.
  - apply filter_alter_grows.
  - unfold wake in *. by destruct (parent s).
Qed.

Lemma end_all ks p k : (k <= length ks)%nat ->
  run (map Kid (seq 0 k)) (St p ks) = St p (replicate k true ++ drop k ks).
Proof.
  revert ks. induction k as [|k IH]; intros ks Hk; [done|]. rewrite seq_S, map_app. unfold run in *. rewrite foldl_app, IH by lia.
  cbn [map foldl step]. unfold child_step. cbn [parent kids]. f_equal. destruct (lookup_lt_is_Some_2 ks k) as [b Hb]; [lia|].
  rewrite (drop_S ks b k Hb). rewrite alter_app_r_alt by (rewrite length_replicate; lia). rewrite length_replicate, Nat.sub_diag. cbn [alter list_alter].
  rewrite replicate_S_end, <-(assoc_L (++)). done.
Qed.

(** zombie.c makes its zombies: when it goes to sleep it has a thousand children,
    which all become zombies once each of them has run, and their number never
    falls before the program ends.  If a [fork] fails it ends at once. *)
Theorem zombie_makes l :
  let s := run l start in
  (parent s = Sleeping -> length (kids s) = ZOMBINE /\
     zombies (run (map Kid (seq 0 ZOMBINE)) s) = ZOMBINE) /\
  (forall e, parent (step e s) <> Exited -> (zombies s <= zombies (step e s))%nat) /\
  (forall i, parent s = Loop i -> (i < ZOMBINE)%nat -> parent (step (Parent false) s) = Exited).
Proof.
  intros s. pose proof (zombie_run_inv l) as Hs. fold s in Hs. split_and!.
  - intros Hp. unfold inv in Hs. rewrite Hp in Hs. split; [done|]. destruct s as [p ks]. cbn [kids] in Hs.
    rewrite end_all by lia. unfold zombies. cbn [kids]. rewrite drop_ge, app_nil_r by lia. generalize ZOMBINE. intros n.
    clear. induction n as [|n IH]; [done|]. cbn [replicate]. rewrite filter_cons, decide_True by done. cbn [length]. by rewrite IH.
  - intros e. by apply zombies_grow.
  - intros i Hp Hi. cbn [step]. unfold parent_step. by rewrite Hp, decide_True.
Qed.
End Zombie.

(** ** pgid.c and sid.c *)
Module Groups.

(** The numbers of a process. *)
Record proc := Proc { pid : Z; pgid : Z; sid : Z }.

(** [setpgid(0, 0)]: a leader of a session may not. *)
Definition setpgid00 (p : proc) : proc := if pid p =? sid p then p else Proc (pid p) (pid p) (sid p).

(** [setsid()]: a leader of a process group may not. *)
Definition setsid (p : proc) : proc := if pid p =? pgid p then p else Proc (pid p) (pid p) (pid p).

Inductive line := ChildId (pid id : Z) | ParentId (pid id : Z) | Waited (pid status p : Z).

(** How far the processes are: the parent has printed, waited with a result,
    printed again; the child has printed, moved, printed again. *)
Inductive ppos := P0 | P1 | P2 (status p : Z) | PEnd.
Inductive cpos := C0 | C1 | C2 | C3 | CZombie | CNone.

Record st := St { parent : proc; ppc : ppos; child : proc; cpc : cpos; out : list line }.

Section prog.
(** What is printed ([getpgrp()] or [getsid(0)]) and how the child moves. *)
Context (getid : proc -> Z) (move : proc -> proc).

Definition child_step (s : st) : st :=
  match cpc s with
  | C0 => St (parent s) (ppc s) (child s) C1 (out s ++ [ChildId (pid (child s)) (getid (child s))])
  | C1 => St (parent s) (ppc s) (move (child s)) C2 (out s)
  | C2 => St (parent s) (ppc s) (child s) C3 (out s ++ [ChildId (pid (child s)) (getid (child s))])
  | C3 => St (parent s) (ppc s) (child s) CZombie (out s)
  | CZombie | CNone => s
  end.

(** [wait(&status)] blocks while the child is running; without a child it fails
    and leaves the variable at 0. *)
Definition parent_step (s : st) : st :=
  match ppc s with
  | P0 => St (parent s) P1 (child s) (cpc s) (out s ++ [ParentId (pid (parent s)) (getid (parent s))])
  | P1 =>
      match cpc s with
      | CZombie => St (parent s) (P2 0 (pid (child s))) (child s) CNone (out s)
      | CNone => St (parent s) (P2 0 (-1)) (child s) CNone (out s)
      | _ => s
      end
  | P2 status p => St (parent s) PEnd (child s) (cpc s) (out s ++ [Waited (pid (parent s)) status p])
  | PEnd => s
  end.

(** A schedule: [true] is a step of the parent. *)
Definition run (l : list bool) (s : st) : st :=
  foldl (fun s b => if (b : bool) then parent_step s else child_step s) s l.

(** After [fork]: the child has the numbers of its parent and a new [pid]; if it
    fails the parent goes on as if it had a child. *)
Definition main (p : proc) (fork : option Z) : st :=
  match fork with
  | Some c => St p P0 (Proc c (pgid p) (sid p)) C0 []
  | None => St p P0 p CNone []
  end.

Context (p : proc) (c : Z).

(** The lines of the two. *)
Definition L1 : line := ChildId c (getid p).
Definition L2 : line := ChildId c c.
Definition LP : line := ParentId (pid p) (getid p).
Definition LW : line := Waited (pid p) 0 c.

(** The three orders of the first lines. *)
Definition orders : list (list line) := [[LP; L1; L2]; [L1; LP; L2]; [L1; L2; LP]].

(** What can have been printed at each point. *)
Definition outs (a : ppos) (b : cpos) : list (list line) :=
  match a, b with
  | P0, C0 => [[]]
  | P0, (C1 | C2) => [[L1]]
  | P0, (C3 | CZombie) => [[L1; L2]]
  | P1, C0 => [[LP]]
  | P1, (C1 | C2) => [[LP; L1]; [L1; LP]]
  | P1, (C3 | CZombie) | P2 _ _, CNone => orders
  | PEnd, CNone => map (fun l => l ++ [LW]) orders
  | _, _ => []
  end.

Hypothesis Hfirst : getid (Proc c (pgid p) (sid p)) = getid p.
Hypothesis Hmove : getid (move (Proc c (pgid p) (sid p))) = c /\ pid (move (Proc c (pgid p) (sid p))) = c.

Definition inv (s : st) : Prop :=
  parent s = p /\
  child s = match cpc s with C0 | C1 => Proc c (pgid p) (sid p) | _ => move (Proc c (pgid p) (sid p)) end /\
  match ppc s with P2 st x => st = 0 /\ x = c | _ => True end /\
  out s ∈ outs (ppc s) (cpc s).

Lemma groups_step_inv (b : bool) s : inv s -> inv (if b then parent_step s else child_step s).
Proof.
  destruct Hmove as [Hm1 Hm2]. destruct s as [pr a ch k o]. unfold inv. cbn [parent child ppc cpc out]. intros (-> & -> & Hw & Ho).
  destruct b; [unfold parent_step|unfold child_step]; cbn [parent child ppc cpc out];
    destruct a as [| |x y|], k; cbn [outs orders map] in Ho; cbn [parent child ppc cpc out];
    try (by apply not_elem_of_nil in Ho); cbn [pid]; rewrite ?Hfirst, ?Hm1, ?Hm2; try (by split_and!).
  all: split_and!; try done; try (by destruct Hw as [-> ->]).
  all: repeat (apply elem_of_cons in Ho as [->|Ho]); try (by apply not_elem_of_nil in Ho).
  all: try (destruct Hw as [-> ->]); cbn [outs orders map app]; unfold L1, L2, LP, LW; set_solver.
Qed.

Lemma groups_run_inv l s : inv s -> inv (run l s).
Proof. revert s. induction l as [|b l IH]; intros s Hs; [done|]. by apply IH, groups_step_inv. Qed.

Lemma main_inv : inv (main p (Some c)).
Proof. split_and!; try done. by apply list_elem_of_singleton. Qed.

(** Nothing is left waiting: four steps of the child and three of the parent are
    enough from anywhere. *)
Lemma run_ends s : inv s -> ppc (run (replicate 4 false ++ replicate 3 true) s) = PEnd.
Proof.
  destruct s as [pr a ch k o]. intros (_ & _ & _ & Ho). cbn [ppc cpc out] in Ho.
  destruct a as [| |x y|], k; cbn [outs] in Ho; try (by apply not_elem_of_nil in Ho); reflexivity.
Qed.

(** Without a child. *)
Lemma alone l :
  let s := run l (main p None) in
  cpc s = CNone /\ parent s = p /\
  match ppc s with
  | P0 => out s = []
  | P1 => out s = [LP]
  | P2 st x => out s = [LP] /\ st = 0 /\ x = -1
  | PEnd => out s = [LP; Waited (pid p) 0 (-1)]
  end.
Proof.
  cbv zeta. induction l as [|b l IH] using rev_ind; [done|]. unfold run in *. rewrite foldl_app. cbn [foldl].
  destruct (foldl _ _ l) as [pr a ch k o]. cbn [cpc ppc out parent] in IH. destruct IH as (-> & -> & IH).
  destruct b, a; cbn; try done; [by rewrite IH|by destruct IH as (-> & -> & ->)].
Qed.
End prog.

(** C33: pgid.c and sid.c: the child first prints the group (the session) it has from
    its parent and, after it has moved to one of its own, its own process id; the
    parent prints the one it had before, whenever it does, and [wait] succeeds with
    status 0 and the child's id although the child has left.  These lines come in
    one of three orders, the parent's last line at the end; the program always
    ends.  When [fork] fails the parent prints -1 for the child.  (The system
    gives no new process an id that is one of a group or session in use.) *)
Theorem groups_move p c l :
  c <> pgid p -> c <> sid p ->
  let ends getid move :=
    let s := run getid move l (main p (Some c)) in
    (ppc s = PEnd -> out s ∈ map (fun l => l ++ [LW p c]) (orders getid p c)) /\
    ppc (run getid move (replicate 4 false ++ replicate 3 true) s) = PEnd /\
    (ppc (run getid move l (main p None)) = PEnd ->
     out (run getid move l (main p None)) = [ParentId (pid p) (getid p); Waited (pid p) 0 (-1)]) in
  ends pgid setpgid00 /\ ends sid setsid.
Proof.
  intros Hg Hs ends.
  assert (Hall : forall getid move, getid (Proc c (pgid p) (sid p)) = getid p ->
    getid (move (Proc c (pgid p) (sid p))) = c /\ pid (move (Proc c (pgid p) (sid p))) = c -> ends getid move).
  { intros getid move H1 H2. pose proof (groups_run_inv getid move p c H1 H2 l _ (main_inv getid move p c)) as Hinv.
    unfold ends. split_and!.
    - intros Hp. destruct Hinv as (_ & _ & _ & Ho). rewrite Hp in Ho. cbn [outs] in Ho.
      destruct (cpc _); try (by apply not_elem_of_nil in Ho). done.
    - by apply (run_ends getid move p c).
    - intros Hp. destruct (alone getid move p l) as (_ & _ & Ho). rewrite Hp in Ho. exact Ho. }
  split; apply Hall; try done.
  - unfold setpgid00. cbn [pid sid pgid]. by rewrite (proj2 (Z.eqb_neq c (sid p))).
  - unfold setsid. cbn [pid sid pgid]. by rewrite (proj2 (Z.eqb_neq c (pgid p))).
Qed.

Lemma groups_move_witness :
  let p := Proc 500 500 400 in
  out (run pgid setpgid00 [false; true; false; false; true; false; true; true] (main p (Some 501))) ∈
  map (fun l => l ++ [LW p 501]) (orders pgid p 501).
Proof.
  intros p. apply (groups_move p 501 [false; true; false; false; true; false; true; true]); [done|done|reflexivity].
Defined.
End Groups.
