(* ===== verification/Daemon.v ===== *)
(** * Daemon: src/ps/daemonize.c

    A program that leaves its terminal and then logs a number every second. *)

From S2P Require Import Prelude Prog Posix Stdio Dup Procs.

(** The system, the numbers of the process, its directory, and what it has logged. *)
Record st := St { io : os; self : Groups.proc; cwd : string; log : list Z }.

Definition on_io {A} : M os A -> M st A := on io (fun s w => St s (self w) (cwd w) (log w)).

Definition NULL_FLAGS : Z := Z.lor O_WRONLY O_APPEND.

(** The results of the calls are not looked at. *)
Definition detach : M st unit :=
  null_fd ← on_io (sys_open "/dev/null" NULL_FLAGS);
  on_io (sys_dup2 null_fd 1) ;;
  on_io (sys_dup2 null_fd 2) ;;
  on_io (sys_dup2 null_fd 0) ;;
  modify (fun w => St (io w) (Groups.setsid (self w)) (cwd w) (log w)) ;;
  modify (fun w => St (io w) (self w) "/" (log w)).

(** One round of the [for] loop. *)
Definition round (i : Z) : M st (Z + Z) :=
  modify (fun w => St (io w) (self w) (cwd w) (log w ++ [i])) ;;
  i ← int_ (i + 1);
  mret (inl i).

(** [pid]: the result of [fork]; only the parent of a child ends. *)
Definition main (fuel : nat) (pid : Z) : M st Z :=
  if 0 <? pid then exit_ 0 else
  detach ;;
  iter fuel round 0.

(** The descriptors 0, 1 and 2 refer to [/dev/null], open for writing only. *)
Definition detached (w : os) : Prop :=
  exists i, fdt w !! 0%nat = Some i /\ fdt w !! 1%nat = Some i /\ fdt w !! 2%nat = Some i /\
    ofds w !! i = Some (Ofd "/dev/null" 0 false true).

Lemma wp_dup2 (fd n i : nat) d (Q : Z -> os -> Prop) E w :
  fdt w !! fd = Some i -> ofds w !! i = Some d ->
  Q (Z.of_nat n) (with_fdt (<[n := i]> (fdt w)) w) -> wp (sys_dup2 (Z.of_nat fd) n) Q E w.
Proof. intros H1 H2 HQ. unfold sys_dup2. wp_steps. rewrite (lookup_fd_Some fd i d) by done. by wp_steps. Qed.

Lemma wp_dup2_bad n (Q : Z -> os -> Prop) E w :
  Q (-1) (with_errno EBADF w) -> wp (sys_dup2 (-1) n) Q E w.
Proof. intros HQ. unfold sys_dup2. wp_steps. by apply wp_fail_with. Qed.

Lemma detach_ok w :
  wp detach (fun _ w' =>
      cwd w' = "/"%string /\ self w' = Groups.setsid (self w) /\ log w' = log w /\
      (detached (io w') /\ (forall n, (3 <= n)%nat -> is_Some (fdt (io w) !! n) -> fdt (io w') !! n = fdt (io w) !! n) \/
       fdt (io w') = fdt (io w) /\ ofds (io w') = ofds (io w) /\
         (fs (io w) !! "/dev/null"%string = None \/ exists e, head (orc (io w)) = Some (AErr e))))
    (fun _ _ => False) w.
Proof.
  unfold detach, on_io. wp_steps. apply wp_open.
  - intros e o Ho. wp_steps. cbn [io]. do 3 (apply wp_dup2_bad; wp_steps; cbn [io]). cbn. split_and!; try done.
    right. split_and!; [done|done|]. right. exists e. by rewrite Ho.
  - intros o Ho Hn _. wp_steps. cbn [io]. do 3 (apply wp_dup2_bad; wp_steps; cbn [io]). cbn. split_and!; try done.
    right. split_and!; [done|done|by left].
  - intros o fd Ho Hfd _.
    set (w1 := opened "/dev/null" NULL_FLAGS fd (with_orc o (io w))). set (i := length (ofds (io w))).
    assert (Hi : ofds w1 !! i = Some (Ofd "/dev/null" 0 false true)) by (unfold w1; cbn; by rewrite list_lookup_middle).
    assert (H0 : fdt w1 !! fd = Some i) by (unfold w1; cbn; by rewrite lookup_insert_eq).
    assert (Hold : forall n, is_Some (fdt (io w) !! n) -> fdt w1 !! n = fdt (io w) !! n).
    { intros n [x Hx]. unfold w1. cbn. rewrite lookup_insert_ne; [done|]. intros ->. congruence. }
    assert (Hins : forall (t : gmap nat nat) n, t !! fd = Some i -> <[n := i]> t !! fd = Some i).
    { intros t n Ht. rewrite lookup_insert. by case_decide. }
    clearbody w1. wp_steps. cbn [io]. apply (wp_dup2 fd 1 i (Ofd "/dev/null" 0 false true)); [done|done|]. wp_steps. cbn [io].
    apply (wp_dup2 fd 2 i (Ofd "/dev/null" 0 false true)); [by apply Hins|done|]. wp_steps. cbn [io].
    apply (wp_dup2 fd 0 i (Ofd "/dev/null" 0 false true)); [by do 2 apply Hins|done|]. wp_steps.
    cbn [io cwd self log fdt ofds with_fdt]. split_and!; try done. left. split.
    + exists i. cbn. split_and!; [by rewrite lookup_insert_eq|by rewrite lookup_insert_ne, lookup_insert_ne, lookup_insert_eq|
        by rewrite lookup_insert_ne, lookup_insert_eq|done].
    + intros n Hn Hs. rewrite !lookup_insert_ne by lia. by apply Hold.
Qed.

(** C32: daemonize.c: the parent of a child ends with status 0.  The other process
    never ends by itself: it logs 0, 1, 2 and so on, and by then works in the root
    directory.  If [/dev/null] could be opened, its descriptors 0 to 2 all refer to
    it, whichever were open before, and the others are as they were; since it is
    open for writing only, reading from descriptor 0 fails instead of giving the
    end of a file.  Otherwise it keeps the descriptors of its terminal and goes on.
    A process that leads no group is in a session of its own; the process itself,
    if its [fork] failed, may not be. *)
Theorem daemonize_detaches fuel pid w :
  Z.of_nat fuel <= INT_MAX -> log w = [] ->
  if 0 <? pid then main fuel pid w = Exit 0 w else
  exists w', main fuel pid w = OutOfFuel w' /\
    log w' = seqZ 0 (Z.of_nat fuel) /\ cwd w' = "/"%string /\
    (Groups.pid (self w) <> Groups.pgid (self w) -> Groups.sid (self w') = Groups.pid (self w)) /\
    (detached (io w') /\ (forall n, (3 <= n)%nat -> is_Some (fdt (io w) !! n) -> fdt (io w') !! n = fdt (io w) !! n) /\
       (forall buf, orc (io w') = [] -> exists w2, sys_read 0 buf (length buf) (io w') = Ok (-1, buf) w2) \/
     fdt (io w') = fdt (io w) /\ ofds (io w') = ofds (io w) /\
       (fs (io w) !! "/dev/null"%string = None \/ exists e, head (orc (io w)) = Some (AErr e))).
Proof.
  intros Hf Hlog. unfold main. destruct (0 <? pid); [done|].
  destruct (wp_Ok _ _ _ (detach_ok w)) as ([] & w1 & Hd & Hcwd & Hself & Hl & Hio).
  assert (Hloop : forall n i w2, log w2 = seqZ 0 i -> 0 <= i -> i + Z.of_nat n <= INT_MAX ->
    iter n round i w2 = OutOfFuel (St (io w2) (self w2) (cwd w2) (seqZ 0 (i + Z.of_nat n)))).
  { induction n as [|n IH]; intros i w2 H1 H2 H3.
    - cbn [iter]. rewrite Z.add_0_r, <-H1. by destruct w2.
    - cbn [iter]. unfold round at 1, int_. unfold mbind, M_bind, modify, mret, M_ret.
      rewrite (proj2 (in_int_spec (i + 1))) by (unfold INT_MIN; lia). cbv beta iota.
      rewrite IH; [cbn [io self cwd]; do 2 f_equal; f_equal; lia| |lia|lia].
      cbn [log]. rewrite H1, seqZ_app by lia. by rewrite Z.add_0_l. }
  exists (St (io w1) (self w1) (cwd w1) (seqZ 0 (Z.of_nat fuel))). cbn [log cwd io self]. split_and!.
  - unfold mbind, M_bind. rewrite Hd. by rewrite Hloop by (rewrite ?Hl, ?Hlog; done || lia).
  - done.
  - done.
  - intros Hn. rewrite Hself. unfold Groups.setsid. by rewrite (proj2 (Z.eqb_neq _ _) Hn).
  - destruct Hio as [(Hdet & Hkeep)|Hio]; [left|by right]. split_and!; [done|done|]. intros buf Ho.
    destruct Hdet as (i & H0 & _ & _ & Hi). unfold sys_read. rewrite decide_False by lia.
    unfold mbind, M_bind, next_ans, get. rewrite Ho. cbv beta iota.
    change (lookup_fd 0 (io w1)) with (lookup_fd (Z.of_nat 0) (io w1)). rewrite (lookup_fd_Some 0 i _ _ H0 Hi). by eexists.
Qed.

Definition demo_os : os :=
  {| fs := {[ "/dev/null"%string := []; "tty"%string := [] ]}; ofds := [Ofd "tty" 0 true true];
     fdt := {[ 0%nat := 0%nat; 1%nat := 0%nat; 2%nat := 0%nat ]}; errno := 0; orc := [] |}.

Lemma daemonize_detaches_witness :
  exists w', main 3 0 (St demo_os (Groups.Proc 7 5 5) "home" []) = OutOfFuel w' /\ log w' = [0; 1; 2] /\ cwd w' = "/"%string.
Proof.
  destruct (daemonize_detaches 3 0 (St demo_os (Groups.Proc 7 5 5) "home" [])) as (w' & H1 & H2 & H3 & _);
    [unfold INT_MAX; lia|reflexivity|]. exists w'. split_and!; [exact H1|exact H2|exact H3].
Defined.
