(* ===== verification/SigExit.v ===== *)
(** * SigExit: src/signal/sigaction.c and src/signal/timeout.c

    Two programs that run until a signal comes. *)

From S2P Require Import Prelude Prog Cstd SigMask.

(** ** sigaction.c *)
Module Sigaction.

Inductive handlers := my_on_exit.

(** [exit(0)] *)
Definition code (h : handlers) : M (proc handlers) unit := exit_ 0.

Definition RUN : list byte := bytes "running.." ++ newline.

(** [printf("pid = %d\n", getpid())] *)
Definition pid_line (pid : Z) : list byte := bytes "pid = " ++ dec pid ++ newline.

Definition round (_ : unit) : M (proc handlers) (unit + unit) :=
  sig_write code RUN ;; sleep code ;; mret (inl tt).

(** The mask of the action holds SIGINT, which is blocked in its handler anyway. *)
Definition main (fuel : nat) (argc pid : Z) : M (proc handlers) unit :=
  if argc <? 2 then exit_ 0 else
  signal code SIGINT (A_call my_on_exit) ;;
  sig_write code (pid_line pid) ;;
  iter fuel round tt.

Section proofs.
Context (d : gmap Z (action handlers)).

(** A signal that does nothing: ignored, or by default without an effect. *)
Definition harmless (s : Z) : Prop :=
  s <> SIGINT /\
  match default A_default (d !! s) with A_ignore => True | A_default => terminates s = false | A_call _ => False end.

(** The handler is in place, [a] are the signals to come, [o] was printed. *)
Record ready (a : list (list Z)) (o : list byte) (w : proc handlers) : Prop := {
  r_mask : SIGINT ∉ mask w;
  r_disp : disp w = <[SIGINT := A_call my_on_exit]> d;
  r_arr : arr w = a;
  r_out : out w = o }.

Lemma gen_harmless s a o w : ready a o w -> harmless s -> exists w', generate code s w = Ok false w' /\ ready a o w'.
Proof.
  intros [] [Hs Hd]. unfold generate, log, modify, get, set_pend, act, gets, mbind, M_bind. cbn [mask disp].
  case_decide; [eexists; split; [done|by split]|]. cbn [disp]. rewrite r_disp0, lookup_insert_ne by done.
  destruct (default A_default (d !! s)); [|by eexists; split; [|split]|done]. rewrite Hd. eexists. split; [done|by split].
Qed.

Lemma gen_int a o w : ready a o w -> exists w', generate code SIGINT w = Exit 0 w' /\ out w' = o.
Proof.
  intros []. unfold generate, log, modify, get, act, gets, mbind, M_bind. cbn [mask disp].
  rewrite decide_False by done. cbn [disp]. rewrite r_disp0, lookup_insert_eq. cbn. by eexists.
Qed.

Lemma each_harmless l a o w :
  ready a o w -> Forall harmless l -> exists w', each (generate code) l w = Ok false w' /\ ready a o w'.
Proof.
  intros Hw Hl. revert w Hw. induction Hl as [|s l Hs _ IH]; intros w Hw; [by eexists|].
  destruct (gen_harmless s a o w Hw Hs) as (w1 & H1 & Hw1). destruct (IH w1 Hw1) as (w2 & H2 & Hw2).
  exists w2. split; [|done]. cbn [each]. unfold mbind, M_bind. by rewrite H1, H2.
Qed.

Lemma each_int pre post a o w :
  ready a o w -> Forall harmless pre -> exists w', each (generate code) (pre ++ SIGINT :: post) w = Exit 0 w' /\ out w' = o.
Proof.
  intros Hw Hl. revert w Hw. induction Hl as [|s l Hs _ IH]; intros w Hw.
  - destruct (gen_int a o w Hw) as (w1 & H1 & Ho). exists w1. split; [|done]. cbn [app each]. unfold mbind, M_bind. by rewrite H1.
  - destruct (gen_harmless s a o w Hw Hs) as (w1 & H1 & Hw1). destruct (IH w1 Hw1) as (w2 & H2 & Ho).
    exists w2. split; [|done]. cbn [app each]. unfold mbind, M_bind. by rewrite H1, H2.
Qed.

(** A call before which harmless signals, or none, arrive; and one that is hit. *)
Lemma call_harmless {A} (m : M (proc handlers) A) l a o w :
  ready (l :: a) o w -> Forall harmless l -> exists w', call code m w = m w' /\ ready a o w'.
Proof.
  intros [] Hl. destruct (each_harmless l a o (Proc (mask w) (pend w) (disp w) a (out w) (trace w))) as (w1 & H1 & Hw1); [by split|done|].
  exists w1. split; [|done]. unfold call, interrupt, get, set_arr, modify, mbind, M_bind. rewrite r_arr0. cbn [hd tl]. by rewrite H1.
Qed.

Lemma call_none {A} (m : M (proc handlers) A) o w : ready [] o w -> exists w', call code m w = m w' /\ ready [] o w'.
Proof.
  intros []. exists (Proc (mask w) (pend w) (disp w) [] (out w) (trace w)). split; [|by split].
  unfold call, interrupt, get, set_arr, modify, mbind, M_bind. by rewrite r_arr0.
Qed.

Lemma call_int {A} (m : M (proc handlers) A) pre post a o w :
  ready ((pre ++ SIGINT :: post) :: a) o w -> Forall harmless pre -> exists w', call code m w = Exit 0 w' /\ out w' = o.
Proof.
  intros [] Hl. destruct (each_int pre post a o (Proc (mask w) (pend w) (disp w) a (out w) (trace w))) as (w1 & H1 & Ho); [by split|done|].
  exists w1. split; [|done]. unfold call, interrupt, get, set_arr, modify, mbind, M_bind. rewrite r_arr0. cbn [hd tl]. by rewrite H1.
Qed.

Lemma emit_ready data a o w : ready a o w -> exists w', emit data w = Ok tt w' /\ ready a (o ++ data) w'.
Proof. intros []. eexists. split; [done|]. split; cbn; [done..|by rewrite r_out0]. Qed.

(** One batch of a list that may be used up. *)
Lemma call_quiet {A} (m : M (proc handlers) A) q a o w :
  ready (q ++ a) o w -> Forall (Forall harmless) q -> (q <> [] \/ a = []) ->
  exists w', call code m w = m w' /\ ready (tail q ++ a) o w'.
Proof.
  intros Hw Hq Hne. destruct q as [|l q].
  - destruct Hne as [|Ha]; [done|]. subst a. by apply call_none.
  - apply Forall_cons in Hq as [Hl _]. by apply (call_harmless m l).
Qed.

(** A round in which nothing happens. *)
Lemma round_quiet q a o w :
  ready (q ++ a) o w -> Forall (Forall harmless) q -> ((2 <= length q)%nat \/ a = []) ->
  exists w', round tt w = Ok (inl tt) w' /\ ready (tail (tail q) ++ a) (o ++ RUN) w'.
Proof.
  intros Hw Hq Hne. destruct (call_quiet (emit RUN) q a o w) as (w1 & H1 & Hw1);
    [done|done|destruct q; [by destruct Hne; [cbn in *; lia|right]|by left]|].
  destruct (emit_ready RUN _ _ _ Hw1) as (w2 & H2 & Hw2).
  destruct (call_quiet (mret tt) (tail q) a (o ++ RUN) w2) as (w3 & H3 & Hw3);
    [done|by destruct Hq|destruct q as [|? [|]]; [by destruct Hne; [cbn in *; lia|right]..|by left]|].
  exists w3. split; [|done]. unfold round, sig_write, sleep, mbind, M_bind. by rewrite H1, H2, H3.
Qed.

(** The loop without a SIGINT, *)
Lemma loop_forever n q o w :
  ready q o w -> Forall (Forall harmless) q ->
  exists w', iter n round tt w = OutOfFuel w' /\ out w' = o ++ msgs RUN n.
Proof.
  revert q o w. induction n as [|n IH]; intros q o w Hw Hq.
  - exists w. split; [done|]. destruct Hw. by rewrite app_nil_r.
  - destruct (round_quiet q [] o w) as (w1 & H1 & Hw1); [by rewrite app_nil_r|done|by right|].
    rewrite app_nil_r in Hw1.
    destruct (IH _ _ w1 Hw1) as (w2 & H2 & Ho); [by destruct Hq as [|? ? ? []]|].
    exists w2. cbn [iter]. rewrite H1, H2, Ho. by rewrite <-(assoc_L (++)).
Qed.

(** and with one after [length q] batches: it ends there. *)
Lemma loop_ends fuel q pre post a o w :
  ready (q ++ (pre ++ SIGINT :: post) :: a) o w -> Forall (Forall harmless) q -> Forall harmless pre ->
  (length q / 2 < fuel)%nat ->
  exists w', iter fuel round tt w = Exit 0 w' /\ out w' = o ++ msgs RUN ((length q + 1) / 2).
Proof.
  revert q o w. induction fuel as [|fuel IH]; intros q o w Hw Hq Hpre Hf; [lia|]. destruct q as [|l1 [|l2 q]].
  - destruct (call_int (emit RUN) pre post a o w Hw Hpre) as (w1 & H1 & Ho). exists w1. split; [|by rewrite app_nil_r].
    cbn [iter]. unfold round, sig_write, mbind, M_bind. by rewrite H1.
  - apply Forall_cons in Hq as [Hl _]. destruct (call_harmless (emit RUN) l1 _ o w Hw Hl) as (w1 & H1 & Hw1).
    destruct (emit_ready RUN _ _ _ Hw1) as (w2 & H2 & Hw2).
    destruct (call_int (mret tt) pre post a (o ++ RUN) w2 Hw2 Hpre) as (w3 & H3 & Ho). exists w3. split; [|done].
    cbn [iter]. unfold round, sig_write, sleep, mbind, M_bind. by rewrite H1, H2, H3.
  - destruct (round_quiet (l1 :: l2 :: q) ((pre ++ SIGINT :: post) :: a) o w) as (w1 & H1 & Hw1); [done|done|left; cbn; lia|].
    assert (Hlen : (length (l1 :: l2 :: q) = length q + 1 * 2)%nat) by (cbn [length]; lia).
    rewrite Hlen in *. rewrite Nat.div_add in Hf by lia. apply Forall_cons in Hq as [_ Hq]. apply Forall_cons in Hq as [_ Hq].
    destruct (IH q _ w1 Hw1 Hq Hpre ltac:(lia)) as (w2 & H2 & Ho). exists w2. cbn [iter]. rewrite H1, H2, Ho. split; [done|].
    replace (length q + 1 * 2 + 1)%nat with (length q + 1 + 1 * 2)%nat by lia. rewrite Nat.div_add by lia.
    rewrite (Nat.add_comm (_ / 2) 1), msgs_add. change (msgs RUN 1) with (RUN ++ []). by rewrite app_nil_r, (assoc_L (++)).
Qed.
End proofs.

(** C27: sigaction.c, with no signals before its handler is in place: it says that it
    is running, for ever, as long as only harmless signals come (ignored, or
    without an effect by default); at the first SIGINT it ends with status 0,
    having printed a line for every two calls before which none came. *)
Theorem sigaction_ends_on_int fuel argc pid m d q o :
  SIGINT ∉ m -> 2 <= argc -> Forall (Forall (harmless d)) q ->
  (exists w', main fuel argc pid (Proc m ∅ d ([] :: q) o []) = OutOfFuel w' /\ out w' = o ++ pid_line pid ++ msgs RUN fuel) /\
  (forall pre post a, Forall (harmless d) pre -> (length q / 2 < fuel)%nat ->
   exists w', main fuel argc pid (Proc m ∅ d ([] :: q ++ (pre ++ SIGINT :: post) :: a) o []) = Exit 0 w' /\
     out w' = o ++ if decide (q = []) then [] else pid_line pid ++ msgs RUN (length q / 2)).
Proof.
  intros Hm Hargc Hq. unfold main. destruct (Z.ltb_spec argc 2); [lia|].
  assert (Hsig : forall b, exists w', signal code SIGINT (A_call my_on_exit) (Proc m ∅ d ([] :: b) o []) = Ok (default A_default (d !! SIGINT)) w' /\ ready d b o w').
  { intros b. eexists. split; [done|]. by split. }
  split.
  - destruct (Hsig q) as (w1 & H1 & Hw1). rewrite <-(app_nil_r q) in Hw1.
    destruct (call_quiet d (emit (pid_line pid)) q [] o w1 Hw1 Hq (or_intror eq_refl)) as (w2 & H2 & Hw2).
    destruct (emit_ready d (pid_line pid) _ _ _ Hw2) as (w3 & H3 & Hw3). rewrite app_nil_r in Hw3.
    destruct (loop_forever d fuel (tail q) _ w3 Hw3) as (w4 & H4 & Ho); [by destruct Hq|].
    exists w4. unfold sig_write, mbind, M_bind. rewrite H1, H2, H3, H4, Ho. by rewrite <-(assoc_L (++)).
  - intros pre post a Hpre Hf. destruct (Hsig (q ++ (pre ++ SIGINT :: post) :: a)) as (w1 & H1 & Hw1).
    destruct q as [|l q].
    + destruct (call_int d (emit (pid_line pid)) pre post a o w1 Hw1 Hpre) as (w2 & H2 & Ho). exists w2.
      rewrite decide_True by done. rewrite app_nil_r. split; [|done]. unfold sig_write, mbind, M_bind. by rewrite H1, H2.
    + rewrite decide_False by done. apply Forall_cons in Hq as [Hl Hq].
      destruct (call_harmless d (emit (pid_line pid)) l _ o w1 Hw1 Hl) as (w2 & H2 & Hw2).
      destruct (emit_ready d (pid_line pid) _ _ _ Hw2) as (w3 & H3 & Hw3).
      destruct (loop_ends d fuel q pre post a _ w3 Hw3 Hq Hpre) as (w4 & H4 & Ho).
      { eapply Nat.le_lt_trans; [|exact Hf]. apply Nat.Div0.div_le_mono. cbn [length]. lia. }
      exists w4. unfold sig_write, mbind, M_bind. rewrite H1, H2, H3, H4, Ho. split; [done|].
      rewrite <-(assoc_L (++)). cbn [length]. by rewrite Nat.add_1_r.
Qed.

Lemma sigaction_ends_on_int_witness :
  exists w', main 10 2 77 (Proc ∅ ∅ ∅ ([] :: [[]; []; []] ++ ([] ++ SIGINT :: []) :: []) [] []) = Exit 0 w' /\
    out w' = [] ++ if decide ([[]; []; []] = @nil (list Z)) then [] else pid_line 77 ++ msgs RUN (3 / 2).
Proof.
  destruct (sigaction_ends_on_int 10 2 77 ∅ ∅ [[]; []; []] []) as [_ H]; [set_solver|lia|by repeat constructor|].
  apply (H [] [] []); [constructor|cbn; lia].
Defined.
End Sigaction.

(** ** timeout.c *)
Module Timeout.

Record st := St { RUNNING : Z; count : Z; out : list Z }.

Definition alarm_handler : M st unit := modify (fun w => St 0 (count w) (out w)).

Definition in_int64 (z : Z) : bool := (- 2 ^ 63 <=? z) && (z <? 2 ^ 63).

(** One round of the loop.  The variable is not volatile: the compiler may read it
    at every test ([reload]) or once before the loop, into [seen].  [rest] counts
    the rounds until the alarm. *)
Definition round (reload : bool) (s : Z * nat) : M st (Z * nat + unit) :=
  let '(seen, rest) := s in
  (if decide (rest = 0)%nat then alarm_handler else mret tt) ;;
  w ← get;
  let seen := if reload then RUNNING w else seen in
  if negb (seen =? 1) then mret (inr tt) else
  if in_int64 (count w + 1) then put (St (RUNNING w) (count w + 1) (out w)) ;; mret (inl (seen, Nat.pred rest))
  else fail SignedOverflow.

(** [alarm_at]: the round at which the five seconds are over. *)
Definition main (fuel : nat) (reload : bool) (alarm_at : nat) : M st Z :=
  w ← get;
  put (St (RUNNING w) (count w) (out w ++ [RUNNING w])) ;;
  iter fuel (round reload) (RUNNING w, alarm_at) ;;
  w ← get;
  put (St (RUNNING w) (count w) (out w ++ [count w])) ;;
  mret 0.

Definition start : st := St 1 0 [].

Lemma loop_counts fuel rest c o :
  (rest < fuel)%nat -> 0 <= c -> c + Z.of_nat rest < 2 ^ 63 ->
  iter fuel (round true) (1, rest) (St 1 c o) = Ok tt (St 0 (c + Z.of_nat rest) o).
Proof.
  revert rest c. induction fuel as [|fuel IH]; intros rest c Hf Hc Hmax; [lia|]. cbn [iter]. unfold round at 1.
  destruct rest as [|rest]; [cbn -[Z.add]; by rewrite Z.add_0_r|]. rewrite decide_False by lia.
  unfold mbind, M_bind, mret, M_ret, get, put. cbn [RUNNING count out Z.eqb Pos.eqb negb].
  assert (in_int64 (c + 1) = true) as -> by (unfold in_int64; apply andb_true_iff; rewrite Z.leb_le, Z.ltb_lt; lia).
  cbn [Nat.pred]. rewrite IH by lia. do 2 f_equal. lia.
Qed.

Lemma loop_blind fuel rest r c o :
  0 <= c -> c + Z.of_nat fuel < 2 ^ 63 ->
  exists w', iter fuel (round false) (1, rest) (St r c o) = OutOfFuel w' /\ out w' = o.
Proof.
  revert rest r c. induction fuel as [|fuel IH]; intros rest r c Hc Hmax; [by eexists|]. cbn [iter]. unfold round at 1.
  assert (Hin : in_int64 (c + 1) = true) by (unfold in_int64; apply andb_true_iff; rewrite Z.leb_le, Z.ltb_lt; lia).
  destruct (IH (Nat.pred rest) (if decide (rest = 0)%nat then 0 else r) (c + 1)) as (w' & Hw' & Ho); [lia|lia|].
  exists w'. split; [|done]. rewrite <-Hw'. unfold mbind, M_bind, mret, M_ret, get, put, alarm_handler, modify.
  case_decide; cbn [RUNNING count out Z.eqb Pos.eqb negb]; by rewrite Hin.
Qed.

(** timeout.c prints 1 and then how often it counted before the alarm, if its
    variable is read at every test; if the compiler reads it once, which the
    missing [volatile] allows, the program never ends (nor prints again), whenever
    the alarm comes. *)
Theorem timeout_counts fuel k :
  (k < fuel)%nat -> Z.of_nat fuel < 2 ^ 63 ->
  main fuel true k start = Ok 0 (St 0 (Z.of_nat k) [1; Z.of_nat k]) /\
  exists w', main fuel false k start = OutOfFuel w' /\ out w' = [1].
Proof.
  intros Hk Hf. unfold main, start. split.
  - unfold mbind, M_bind, get, put. cbn [RUNNING count out app].
    rewrite loop_counts by lia. by rewrite Z.add_0_l.
  - destruct (loop_blind fuel k 1 0 [1]) as (w' & Hw & Ho); [lia|lia|]. exists w'. split; [|done].
    unfold mbind, M_bind, get, put. cbn [RUNNING count out app]. by rewrite Hw.
Qed.

Lemma timeout_counts_witness :
  main 100 true 42 start = Ok 0 (St 0 (Z.of_nat 42) [1; Z.of_nat 42]) /\
  exists w', main 100 false 42 start = OutOfFuel w' /\ out w' = [1].
Proof. apply (timeout_counts 100 42); lia. Defined.
End Timeout.
