(* ===== verification/FileCounter.v ===== *)
(** * FileCounter: src/adio/flock.c

    Sixty-four processes increment a number that is kept in a file as text, each
    under a lock of the file.  A child takes one step for each access to the file
    or to the lock, and the children move in any order.

    [lockf(fd, F_LOCK, 0)] locks from the offset of the descriptor on, here the
    whole file; at [F_ULOCK] the offset is behind what was written, so that call
    leaves the beginning of the file locked: the lock is given back by [close],
    and by the end of a process. *)

From S2P Require Import Prelude Posix Cstd.

Definition COUNT : nat := 64.
Definition BUF_SIZE : nat := 4096.

(** ** The machine *)

Inductive cpc := COpen | CLock | CRead | CWrite (data : list byte) | CUnlock | CClose | CDone (code : Z).

Inductive mpc := MFork (i : nat) | MWait (k : nat) | MEnded (code : Z) | MFault.

Record st := St { file : option (list byte); lock : option nat; children : list cpc; mainpc : mpc }.

Definition set_file f (s : st) : st := St f (lock s) (children s) (mainpc s).
Definition set_lock l (s : st) : st := St (file s) l (children s) (mainpc s).
Definition set_child k pc (s : st) : st := St (file s) (lock s) (<[k := pc]> (children s)) (mainpc s).
Definition set_main pc (s : st) : st := St (file s) (lock s) (children s) pc.

Section program.
(** What the array [buf] of the parent holds, and so that of every child. *)
Context (buf0 : list byte).

(** [read(fd, buf, BUF_SIZE)] into [buf]. *)
Definition buf_after (c : list byte) : list byte :=
  let n := Nat.min BUF_SIZE (length c) in take n c ++ drop n buf0.

(** [int i = atoi(buf); i++; snprintf(buf, BUF_SIZE, "%d", i)]: undefined if
    there is no zero byte in the array, or if the number overflows. *)
Definition next_text (c : list byte) : option (list byte) :=
  let buf := buf_after c in
  if bool_decide (x00 ∈ buf) then
    let i := atoi buf in
    if in_int i && in_int (i + 1) then Some (dec (i + 1)) else None
  else None.

(** Child [k]; [a] is the error of its call, if it fails. *)
Definition child_step (a : option positive) (k : nat) (s : st) : option st :=
  match children s !! k with
  | Some COpen =>
      match a with
      | Some _ => Some (set_child k (CDone 1) s)
      | None => Some (set_child k CLock (set_file (Some (default [] (file s))) s))
      end
  | Some CLock =>
      match a, lock s with
      | Some _, _ => Some (set_child k (CDone 1) s)
      | None, Some _ => None
      | None, None => Some (set_child k CRead (set_lock (Some k) s))
      end
  | Some CRead =>
      match a with
      | Some _ => Some (set_child k (CDone 1) (set_lock None s))
      | None => match next_text (default [] (file s)) with
                | Some data => Some (set_child k (CWrite data) s)
                | None => Some (set_main MFault s)
                end
      end
  | Some (CWrite data) =>
      match a with
      | Some _ => Some (set_child k CUnlock s)
      | None => Some (set_child k CUnlock (set_file (Some (splice (default [] (file s)) 0 data)) s))
      end
  | Some CUnlock =>
      match a with
      | Some _ => Some (set_child k (CDone 1) (set_lock None s))
      | None => Some (set_child k CClose s)
      end
  | Some CClose => Some (set_child k (CDone 0) (set_lock None s))
  | _ => None
  end.

Definition is_done (pc : cpc) : bool := match pc with CDone _ => true | _ => false end.
Definition done_count (s : st) : nat := length (filter (fun pc => is_done pc = true) (children s)).

(** [main]: [fork] the children, [wait] as many times. *)
Definition main_step (a : option positive) (s : st) : option st :=
  match mainpc s with
  | MFork i =>
      if decide (i < COUNT)%nat then
        match a with
        | Some _ => Some (set_main (MEnded 1) s)
        | None => Some (St (file s) (lock s) (children s ++ [COpen]) (MFork (S i)))
        end
      else Some (set_main (MWait 0) s)
  | MWait k =>
      if decide (k < COUNT)%nat then
        if bool_decide (k < done_count s)%nat then Some (set_main (MWait (S k)) s) else None
      else Some (set_main (MEnded 0) s)
  | _ => None
  end.

Definition step (x : option nat * option positive) (s : st) : option st :=
  match mainpc s, x.1 with
  | MFault, _ => None
  | _, None => main_step x.2 s
  | _, Some k => child_step x.2 k s
  end.

Definition run (sched : list (option nat * option positive)) (s : st) : st :=
  foldl (fun s x => default s (step x s)) s sched.

Definition start (f : option (list byte)) : st := St f None [] (MFork 0).

(** ** The text *)

Hypothesis buf_len : length buf0 = BUF_SIZE.
Hypothesis buf_digits : Forall (fun c => digit_val c = None) buf0.
Hypothesis buf_zero : x00 ∈ drop 10 buf0.

Lemma next_text_dec v : 0 <= v < INT_MAX -> next_text (dec v) = Some (dec (v + 1)).
Proof.
  intros Hv. pose proof (dec_length v ltac:(lia)) as Hlen. unfold next_text, buf_after.
  rewrite Nat.min_r, firstn_all by (unfold BUF_SIZE; lia). rewrite bool_decide_true.
  - rewrite atoi_dec; [|lia|].
    + rewrite (proj2 (in_int_spec v)), (proj2 (in_int_spec (v + 1))) by (unfold INT_MIN; lia). done.
    + assert (Hd : Forall (fun c => digit_val c = None) (drop (length (dec v)) buf0)) by (by apply Forall_drop).
      destruct (drop (length (dec v)) buf0) as [|c l]; [exact I|]. by apply Forall_cons in Hd as [? _].
  - rewrite elem_of_app. right.
    replace 10%nat with (length (dec v) + (10 - length (dec v)))%nat in buf_zero by lia.
    rewrite <-drop_drop in buf_zero. rewrite <-(take_drop (10 - length (dec v)) (drop (length (dec v)) buf0)).
    rewrite elem_of_app. by right.
Qed.

Lemma next_text_nil : next_text [] = Some (dec 1).
Proof.
  unfold next_text. change (buf_after []) with buf0. rewrite bool_decide_true.
  - by rewrite atoi_no_digits.
  - rewrite <-(take_drop 10 buf0), elem_of_app. by right.
Qed.

Lemma splice_over (c d : list byte) : (length c <= length d)%nat -> splice c 0 d = d.
Proof. intros Hl. unfold splice. rewrite drop_ge by done. simpl. by rewrite app_nil_r. Qed.

(** The file holds the number [v]; an empty or missing file counts as zero. *)
Definition holds (v : Z) (f : option (list byte)) : Prop :=
  f = Some (dec v) \/ (v = 0 /\ (f = None \/ f = Some [])).

Lemma holds_next v f : 0 <= v < INT_MAX -> holds v f -> next_text (default [] f) = Some (dec (v + 1)).
Proof.
  intros Hv [->|[-> [->| ->]]]; [by apply next_text_dec|apply next_text_nil|apply next_text_nil].
Qed.

Lemma holds_write v f : 0 <= v -> holds v f -> splice (default [] f) 0 (dec (v + 1)) = dec (v + 1).
Proof.
  intros Hv Hf. apply splice_over. destruct Hf as [->|[_ [->| ->]]]; [|simpl; lia|simpl; lia].
  apply dec_mono. lia.
Qed.

(** ** Invariant *)

Definition crit (pc : cpc) : bool :=
  match pc with CRead | CWrite _ | CUnlock | CClose => true | _ => false end.
Definition past (pc : cpc) : bool :=
  match pc with CUnlock | CClose | CDone _ => true | _ => false end.
Definition past_count (s : st) : nat := length (filter (fun pc => past pc = true) (children s)).

Context (n : Z).
Hypothesis n_range : 0 <= n /\ n + Z.of_nat COUNT <= INT_MAX.

Definition main_inv (s : st) : Prop :=
  match mainpc s with
  | MFork i => length (children s) = i /\ (i <= COUNT)%nat
  | MWait k => length (children s) = COUNT /\ (k <= done_count s)%nat
  | MEnded c => c = 0 /\ length (children s) = COUNT /\ (COUNT <= done_count s)%nat
  | MFault => False
  end.

Record inv (s : st) : Prop := {
  inv_lock : forall k pc, children s !! k = Some pc -> crit pc = true <-> lock s = Some k;
  inv_held : forall k, lock s = Some k -> is_Some (children s !! k);
  inv_file : holds (n + Z.of_nat (past_count s)) (file s);
  inv_data : forall k d, children s !! k = Some (CWrite d) -> d = dec (n + Z.of_nat (past_count s) + 1);
  inv_len : (length (children s) <= COUNT)%nat;
  inv_main : main_inv s }.

(** A child that has not written yet is not counted. *)
Lemma past_lt s k pc : inv s -> children s !! k = Some pc -> past pc = false -> (past_count s < COUNT)%nat.
Proof.
  intros Hi Hk Hp. pose proof (count_insert past _ _ _ (CDone 0) Hk) as Hc. rewrite Hp in Hc. cbn in Hc.
  pose proof (length_filter (fun pc => past pc = true) (<[k := CDone 0]> (children s))) as Hl.
  rewrite length_insert in Hl. pose proof (inv_len _ Hi). unfold past_count. lia.
Qed.

(** A move of child [k]. *)
Lemma inv_child k old pc f l s :
  inv s -> children s !! k = Some old -> is_done old = false ->
  let s' := set_child k pc (set_lock l (set_file f s)) in
  (forall j pc', children s' !! j = Some pc' -> crit pc' = true <-> l = Some j) ->
  (forall j, l = Some j -> j = k \/ lock s = Some j) ->
  holds (n + Z.of_nat (past_count s')) f ->
  (forall d, pc = CWrite d -> d = dec (n + Z.of_nat (past_count s') + 1)) ->
  (forall j d, j <> k -> children s !! j = Some (CWrite d) -> d = dec (n + Z.of_nat (past_count s') + 1)) ->
  inv s'.
Proof.
  intros [_ Hheld _ _ Hlen Hm] Hk Hold s' Hl Hlk Hf Hd Hd'.
  assert (Hlt : (k < length (children s))%nat) by (by eapply lookup_lt_Some).
  split; try done; subst s'; cbn [children lock file set_child set_lock set_file] in *.
  - intros j Hj. apply lookup_lt_is_Some. rewrite length_insert.
    destruct (Hlk j Hj) as [->|Hj']; [done|]. by apply lookup_lt_is_Some, Hheld.
  - intros j d Hj. destruct (decide (k = j)) as [<-|Hne].
    + rewrite list_lookup_insert_eq in Hj by done. simplify_eq. by apply Hd.
    + rewrite list_lookup_insert_ne in Hj by done. apply (Hd' j); [congruence|done].
  - by rewrite length_insert.
  - unfold main_inv, done_count in *. cbn [mainpc children set_child set_lock set_file]. rewrite length_insert.
    pose proof (count_insert is_done _ _ _ pc Hk) as Hc. rewrite Hold in Hc. cbn [Nat.b2n] in Hc.
    destruct (mainpc s); try done; (split_and!; try done; try (by apply Hm)).
    + destruct Hm as [_ Hm]. lia.
    + destruct Hm as (_ & _ & Hm). lia.
Qed.

Lemma set_file_id s : set_file (file s) s = s.
Proof. by destruct s. Qed.
Lemma set_lock_file_id f s : set_lock (lock s) (set_file f s) = set_file f s.
Proof. by destruct s. Qed.

Lemma past_count_set k old pc f l s : children s !! k = Some old ->
  (past_count (set_child k pc (set_lock l (set_file f s))) + Nat.b2n (past old) = past_count s + Nat.b2n (past pc))%nat.
Proof. intros Hk. exact (count_insert past _ _ _ pc Hk). Qed.

(** Who is in the critical section after child [k] has moved to [pc]. *)
Lemma crit_insert k old pc (l : option nat) s : inv s -> children s !! k = Some old ->
  (crit pc = true <-> l = Some k) -> (forall j, j <> k -> lock s = Some j <-> l = Some j) ->
  forall j pc', <[k := pc]> (children s) !! j = Some pc' -> crit pc' = true <-> l = Some j.
Proof.
  intros Hi Hk Hpc Hl j pc' Hj. destruct (decide (k = j)) as [<-|Hne].
  - rewrite list_lookup_insert_eq in Hj by (by eapply lookup_lt_Some). by simplify_eq.
  - rewrite list_lookup_insert_ne in Hj by done. rewrite (inv_lock _ Hi j pc' Hj). by apply Hl.
Qed.

Lemma holds_open v f : holds v f -> holds v (Some (default [] f)).
Proof. intros [->|[-> [->| ->]]]; [by left|right; auto..]. Qed.

Lemma finv_child_step k s s' : inv s -> child_step None k s = Some s' -> inv s'.
Proof.
  intros Hi. unfold child_step. destruct (children s !! k) as [pc|] eqn:Hk; [|done].
  pose proof (inv_file _ Hi) as Hf. pose proof (inv_lock _ Hi k pc Hk) as Hc.
  assert (Hothers : lock s = Some k -> forall j d, j <> k -> children s !! j <> Some (CWrite d)).
  { intros Hl j d Hne Hj. apply Hne. apply (inv_lock _ Hi) in Hj. destruct Hj as [Hj _].
    specialize (Hj eq_refl). congruence. }
  assert (Hsame : forall pc', past pc' = past pc -> forall f l, past_count (set_child k pc' (set_lock l (set_file f s))) = past_count s).
  { intros pc' Hp f l. pose proof (past_count_set k pc pc' f l s Hk) as E. rewrite Hp in E. lia. }
  destruct pc as [| | |d| | |c]; try done.
  - intros [= <-]. rewrite <-(set_lock_file_id (Some (default [] (file s))) s).
    apply (inv_child k COpen); try done; rewrite ?Hsame by done; [|by auto|by apply holds_open|].
    + by apply (crit_insert k COpen _ _ s).
    + intros j d _ Hj. by apply (inv_data _ Hi j).
  - destruct (lock s) eqn:El; [done|]. intros [= <-]. rewrite <-(set_file_id s).
    apply (inv_child k CLock); try done; rewrite ?Hsame by done; [|intros j; naive_solver|done|].
    + apply (crit_insert k CLock _ _ s); [done..|]. rewrite El. naive_solver.
    + intros j d _ Hj. by apply (inv_data _ Hi j).
  - pose proof (past_lt s k CRead Hi Hk eq_refl) as Hlt.
    rewrite (holds_next (n + Z.of_nat (past_count s)) (file s) ltac:(lia) Hf). intros [= <-]. rewrite <-(set_file_id s) at 2.
    rewrite <-(set_lock_file_id (file s) s).
    apply (inv_child k CRead); try done; rewrite ?Hsame by done; [|by auto|done|by intros d [= <-]|].
    + by apply (crit_insert k CRead _ _ s).
    + intros j d _ Hj. by apply (inv_data _ Hi j).
  - assert (Hl : lock s = Some k) by (by apply Hc). rewrite (inv_data _ Hi k d Hk).
    rewrite (holds_write (n + Z.of_nat (past_count s)) (file s) ltac:(lia) Hf). intros [= <-]. rewrite <-(set_lock_file_id _ s).
    assert (Hcnt : forall f l, past_count (set_child k CUnlock (set_lock l (set_file f s))) = S (past_count s)).
    { intros f l. pose proof (past_count_set k _ CUnlock f l s Hk) as E. cbn [past Nat.b2n] in E. lia. }
    apply (inv_child k (CWrite d)); try done; rewrite ?Hcnt; [|by auto| |].
    + by apply (crit_insert k (CWrite d) _ _ s).
    + left. do 2 f_equal. lia.
    + intros j d' Hne Hj. by destruct (Hothers Hl j d').
  - intros [= <-]. rewrite <-(set_file_id s) at 1. rewrite <-(set_lock_file_id (file s) s).
    apply (inv_child k CUnlock); try done; rewrite ?Hsame by done; [|by auto|done|].
    + by apply (crit_insert k CUnlock _ _ s).
    + intros j d _ Hj. by apply (inv_data _ Hi j).
  - assert (Hl : lock s = Some k) by (by apply Hc). intros [= <-]. rewrite <-(set_file_id s).
    apply (inv_child k CClose); try done; rewrite ?Hsame by done; [|done|].
    + apply (crit_insert k CClose _ _ s); [done..|]. rewrite Hl. naive_solver.
    + intros j d _ Hj. by apply (inv_data _ Hi j).
Qed.

Lemma finv_main_step s s' : inv s -> main_step None s = Some s' -> inv s'.
Proof.
  intros Hi. pose proof (inv_main _ Hi) as Hm. unfold main_step, main_inv in *.
  destruct (mainpc s) as [i|k| |] eqn:Hpc; try done; case_decide as Hlt.
  - intros [= <-]. destruct Hm as [Hlen Hle]. destruct Hi as [Hl Hh Hf Hd Hn Hm].
    assert (Hpast : past_count (St (file s) (lock s) (children s ++ [COpen]) (MFork (S i))) = past_count s).
    { unfold past_count. cbn [children]. by rewrite filter_app, length_app, Nat.add_0_r. }
    split; rewrite ?Hpast; cbn [children lock file]; try done.
    + intros k pc [Hk|[Hge Hk]]%lookup_app_Some; [by apply Hl|].
      apply list_lookup_singleton_Some in Hk as [Hk0 <-]. split; [done|].
      intros Hlk. destruct (Hh k Hlk) as [? ?%lookup_lt_Some]. lia.
    + intros k Hk. apply lookup_lt_is_Some. rewrite length_app. apply Hh, lookup_lt_is_Some in Hk. lia.
    + intros k d [Hk|[_ Hk]]%lookup_app_Some; [by apply (Hd k)|].
      by apply list_lookup_singleton_Some in Hk as [_ ?].
    + rewrite length_app. simpl. lia.
    + unfold main_inv. cbn. rewrite length_app. simpl. lia.
  - intros [= <-]. destruct Hi. split; try done. unfold main_inv. cbn. lia.
  - case_bool_decide; [|done]. intros [= <-]. destruct Hi. split; try done. unfold main_inv, done_count in *. cbn. lia.
  - intros [= <-]. destruct Hi. split; try done. unfold main_inv, done_count in *. cbn. split_and!; [done|apply Hm|lia].
Qed.

Lemma finv_step x s s' : inv s -> x.2 = None -> step x s = Some s' -> inv s'.
Proof.
  intros Hi Hx. unfold step. rewrite Hx.
  destruct (mainpc s); try done; destruct x.1; eauto using finv_child_step, finv_main_step.
Qed.

Lemma finv_run sched s : inv s -> Forall (fun x => x.2 = None) sched -> inv (run sched s).
Proof.
  revert s. induction sched as [|x sched IH]; intros s Hi Hs; [done|]. apply Forall_cons in Hs as [Hx Hs].
  cbn [run foldl]. apply IH; [|done]. destruct (step x s) eqn:E; [by eapply finv_step|done].
Qed.

Lemma finv_start f : holds n f -> inv (start f).
Proof.
  intros Hf. split; cbn; try done; [by rewrite Z.add_0_r|unfold COUNT; lia|].
  unfold main_inv. cbn. unfold COUNT. lia.
Qed.

(** ** Progress *)

Definition weight (pc : cpc) : nat :=
  match pc with
  | COpen => 6 | CLock => 5 | CRead => 4 | CWrite _ => 3 | CUnlock => 2 | CClose => 1 | CDone _ => 0
  end.

Definition todo (s : st) : nat :=
  sum_list_with weight (children s) +
  match mainpc s with
  | MFork i => (COUNT - i) * 7 + COUNT + 2
  | MWait k => COUNT - k + 1
  | _ => 0
  end.

Lemma weight_insert cs k x y : cs !! k = Some x ->
  (sum_list_with weight (<[k := y]> cs) + weight x = sum_list_with weight cs + weight y)%nat.
Proof.
  revert k. induction cs as [|c cs IH]; intros [|k] Hk; simplify_eq/=; [lia|]. specialize (IH k Hk). lia.
Qed.

Definition running (s : st) : Prop := match mainpc s with MFork _ | MWait _ => True | _ => False end.

Lemma todo_child k old pc l f s : children s !! k = Some old -> (weight pc < weight old)%nat ->
  (todo (set_child k pc (set_lock l (set_file f s))) < todo s)%nat.
Proof. intros Hk Hw. unfold todo. cbn. pose proof (weight_insert _ _ _ pc Hk). lia. Qed.

(** A child that has not ended can move if it has the lock, or if nobody has. *)
Lemma child_progress k pc s : inv s -> children s !! k = Some pc -> is_done pc = false ->
  (lock s = None \/ lock s = Some k) ->
  exists s', child_step None k s = Some s' /\ (todo s' < todo s)%nat.
Proof.
  intros Hi Hk Hd Hl. unfold child_step. rewrite Hk. pose proof (inv_lock _ Hi k pc Hk) as Hc.
  assert (Hgo : forall pc' l f, (weight pc' < weight pc)%nat ->
            exists s', Some (set_child k pc' (set_lock l (set_file f s))) = Some s' /\ (todo s' < todo s)%nat).
  { intros pc' l f Hw. eexists. split; [done|]. by eapply todo_child. }
  destruct pc as [| | |d| | |c]; try done.
  - apply (Hgo CLock (lock s) (Some (default [] (file s)))). simpl. lia.
  - destruct (lock s) eqn:El; [exfalso; destruct Hl as [|[= ->]]; [done|]; by destruct Hc as [_ Hc]; specialize (Hc eq_refl)|].
    apply (Hgo CRead (Some k) (file s)). simpl. lia.
  - pose proof (past_lt s k CRead Hi Hk eq_refl).
    rewrite (holds_next (n + Z.of_nat (past_count s)) (file s) ltac:(lia) (inv_file _ Hi)).
    apply (Hgo (CWrite _) (lock s) (file s)). simpl. lia.
  - apply (Hgo CUnlock (lock s)). simpl. lia.
  - apply (Hgo CClose (lock s) (file s)). simpl. lia.
  - apply (Hgo (CDone 0) None (file s)). simpl. lia.
Qed.

Lemma flock_progress s : inv s -> running s ->
  exists x s', x.2 = None /\ step x s = Some s' /\ (todo s' < todo s)%nat.
Proof.
  intros Hi Hr.
  assert (Hchild : forall k pc, children s !! k = Some pc -> is_done pc = false -> (lock s = None \/ lock s = Some k) ->
            exists x s', x.2 = None /\ step x s = Some s' /\ (todo s' < todo s)%nat).
  { intros k pc Hk Hd Hl. destruct (child_progress k pc s Hi Hk Hd Hl) as (s' & Hs & Hlt).
    exists (Some k, None), s'. split_and!; [done| |done]. unfold step, running in *. cbn. by destruct (mainpc s). }
  destruct (lock s) as [k|] eqn:El.
  { destruct (inv_held _ Hi k El) as [pc Hk]. pose proof (proj2 (inv_lock _ Hi k pc Hk) El) as Hc.
    apply (Hchild k pc Hk); [by destruct pc|by right]. }
  destruct (decide (Forall (fun pc => is_done pc = true) (children s))) as [Hall|Hnot].
  2: { apply not_Forall_Exists, Exists_exists in Hnot as (pc & (k & Hk)%list_elem_of_lookup & Hd); [|intros x; apply _].
       apply (Hchild k pc Hk); [by apply not_true_is_false|by left]. }
  exists (None, None). pose proof (inv_main _ Hi) as Hm. apply count_full in Hall.
  unfold step, main_step, running, main_inv in *. cbn [fst snd].
  destruct (mainpc s) as [i|k| |] eqn:Hpc; try done; case_decide; unfold todo; rewrite Hpc.
  - eexists. split_and!; [done|reflexivity|]. cbn [mainpc children]. rewrite sum_list_with_app. cbn [sum_list_with weight]. lia.
  - eexists. split_and!; [done|reflexivity|]. cbn [mainpc children set_main]. lia.
  - rewrite bool_decide_true by (unfold done_count; lia). eexists. split_and!; [done|reflexivity|].
    cbn [mainpc children set_main]. lia.
  - eexists. split_and!; [done|reflexivity|]. cbn [mainpc children set_main]. lia.
Qed.

Lemma flock_can_end s : inv s -> running s ->
  exists rest, Forall (fun x => x.2 = None) rest /\ mainpc (run rest s) = MEnded 0.
Proof.
  remember (todo s) as m eqn:Hm. revert s Hm. induction m as [m IH] using lt_wf_ind. intros s -> Hinv Hr.
  destruct (flock_progress s Hinv Hr) as (x & s' & Hx & Hs & Hlt).
  assert (Hinv' : inv s') by (by apply (finv_step x s)).
  assert (Hgo : forall rest, run (x :: rest) s = run rest s') by (intros; unfold run; simpl; by rewrite Hs).
  pose proof (inv_main _ Hinv') as Hmi. unfold main_inv in Hmi. destruct (mainpc s') as [i|k|c|] eqn:Hpc; [..|done].
  3: { exists [x]. rewrite Hgo. cbn. destruct Hmi as [-> _]. split; [by repeat constructor|done]. }
  all: destruct (IH _ Hlt s' eq_refl Hinv') as (rest & Hf & Hrun); [unfold running; by rewrite Hpc|];
    exists (x :: rest); rewrite Hgo; (split; [by constructor|done]).
Qed.

Lemma flock_correct f sched : holds n f -> Forall (fun x => x.2 = None) sched ->
  let s := run sched (start f) in
  match mainpc s with
  | MFault => False
  | MEnded c => c = 0 /\ file s = Some (dec (n + 64))
  | _ => exists rest, Forall (fun x => x.2 = None) rest /\ mainpc (run (sched ++ rest) (start f)) = MEnded 0
  end.
Proof.
  intros Hf Hs s. assert (Hinv : inv s) by (by apply finv_run; [apply finv_start|]).
  assert (Hgo : running s -> exists rest, Forall (fun x => x.2 = None) rest /\ mainpc (run (sched ++ rest) (start f)) = MEnded 0).
  { intros Hr. destruct (flock_can_end s Hinv Hr) as (rest & Hfr & Hrun). exists rest. split; [done|].
    unfold run. rewrite foldl_app. exact Hrun. }
  pose proof (inv_main _ Hinv) as Hm. unfold main_inv in Hm. unfold running in Hgo.
  destruct (mainpc s) as [i|k|c|]; [by apply Hgo|by apply Hgo| |done].
  destruct Hm as (-> & Hlen & Hdone). split; [done|]. unfold done_count in Hdone.
  assert (Hall : Forall (fun pc => is_done pc = true) (children s)) by (apply count_full; lia).
  assert (Hpast : past_count s = COUNT).
  { assert (Hp : Forall (fun pc => past pc = true) (children s)) by (eapply Forall_impl; [exact Hall|]; by intros []).
    apply count_full in Hp. pose proof (length_filter (fun pc => past pc = true) (children s)). unfold past_count. lia. }
  destruct (inv_file _ Hinv) as [Hfile|[Hz _]]; rewrite Hpast in *; [done|unfold COUNT in *; lia].
Qed.
End program.

(** C12: The file counter counts: if the file holds a number that is not negative
    and at most INT_MAX - 64 (or nothing, for 0), no call fails and the
    uninitialised array holds no digit and a zero byte, then whatever the order in
    which the children run, when the program ends the file holds that number plus
    64 and nothing else, and until then it can still end.  (For negative numbers
    see [flock_negative].) *)
Theorem flock_counts buf0 n f sched :
  length buf0 = BUF_SIZE -> Forall (fun c => digit_val c = None) buf0 -> x00 ∈ drop 10 buf0 ->
  0 <= n /\ n + Z.of_nat COUNT <= INT_MAX -> holds n f -> Forall (fun x => x.2 = None) sched ->
  let s := run buf0 sched (start f) in
  match mainpc s with
  | MFault => False
  | MEnded c => c = 0 /\ file s = Some (dec (n + 64))
  | _ => exists rest, Forall (fun x => x.2 = None) rest /\ mainpc (run buf0 (sched ++ rest) (start f)) = MEnded 0
  end.
Proof. intros Hl Hd Hz Hn Hf Hs. by apply flock_correct. Qed.

Lemma flock_counts_witness :
  let sched := concat (replicate 300 [(None, None); (Some 3%nat, None)]) in
  let s := run (replicate BUF_SIZE x00) sched (start (Some (bytes "41"))) in
  match mainpc s with
  | MFault => False
  | MEnded c => c = 0 /\ file s = Some (dec (41 + 64))
  | _ => exists rest, Forall (fun x => x.2 = None) rest /\
           mainpc (run (replicate BUF_SIZE x00) (sched ++ rest) (start (Some (bytes "41")))) = MEnded 0
  end.
Proof.
  apply (flock_counts (replicate BUF_SIZE x00) 41 (Some (bytes "41"))
           (concat (replicate 300 [(None, None); (Some 3%nat, None)]))).
  - apply length_replicate.
  - by apply Forall_replicate.
  - rewrite drop_replicate. apply list_elem_of_lookup. exists 0%nat. apply lookup_replicate_2. unfold BUF_SIZE. lia.
  - unfold COUNT, INT_MAX. lia.
  - left. reflexivity.
  - apply Forall_concat, Forall_replicate. by repeat constructor.
Defined.

(** What the array held decides what is read behind a short file. *)
Example flock_garbage :
  next_text (x78 :: x37 :: replicate 4094 x00) (bytes "1") = Some (bytes "18").
Proof. by vm_compute. Qed.

(** A negative number may become shorter, and the rest of the old text stays. *)
Example flock_negative :
  next_text (replicate BUF_SIZE x00) (bytes "-10") = Some (bytes "-9") /\
  splice (bytes "-10") 0 (bytes "-9") = bytes "-90".
Proof. by vm_compute. Qed.
