(* ===== verification/Options.v ===== *)
(** * Options: src/ps/opt.c and src/ps/opt_long.c

    Two programs that print the options they are given.  [getopt] of [Cstd] and
    [getopt_long] below are the functions of the C library, as the list of what
    they return until they return -1; the leading '-' in the option string of
    opt.c only makes other arguments options of code 1, which the program
    ignores. *)

From S2P Require Import Prelude Cstd.

(** ** Long options *)

(** What one call finds: a short option, or the index of a long one. *)
Inductive found := Short (c : byte) (arg : list byte) | Long (index : nat) (arg : list byte).

(** The name and the value of [name=value]. *)
Fixpoint split_eq (s : list byte) : list byte * option (list byte) :=
  match s with
  | [] => ([], None)
  | c :: s' => if decide (c = x3d) then ([], Some s')
               else let '(n, v) := split_eq s' in (c :: n, v)
  end.

(** A name is found exactly, or as the beginning of only one name. *)
Definition find_long (opts : list (list byte * bool)) (name : list byte) : option nat :=
  match find_idx (fun o => bool_decide (o.1 = name)) opts with
  | Some i => Some i
  | None =>
      match List.filter (fun i => match opts !! i with Some o => bool_decide (name `prefix_of` o.1) | None => false end)
                        (seq 0 (length opts)) with
      | [i] => Some i
      | _ => None
      end
  end.

(** A long option: its result, and whether the next argument was used up.  A
    missing or superfluous value gives '?'. *)
Definition long_option (opts : list (list byte * bool)) (s : list byte) (rest : list (list byte)) : found * bool :=
  let '(name, v) := split_eq s in
  match find_long opts name with
  | None => (Short x3f [], false)
  | Some i =>
      match opts !! i, v, rest with
      | Some (_, true), Some a, _ => (Long i a, false)
      | Some (_, true), None, a :: _ => (Long i a, true)
      | Some (_, false), None, _ => (Long i [], false)
      | _, _, _ => (Short x3f [], false)
      end
  end.

Fixpoint getopt_long_from (optstring : list byte) (opts : list (list byte * bool)) (fuel : nat)
    (args : list (list byte)) : list found :=
  match fuel, args with
  | S f, a :: args' =>
      match a with
      | [x2d; x2d] => []
      | x2d :: x2d :: s =>
          let '(r, used) := long_option opts s args' in
          r :: getopt_long_from optstring opts f (if (used : bool) then tail args' else args')
      | x2d :: c :: l =>
          let '(r, used) := opt_letters optstring (c :: l) args' in
          map (fun x => Short x.1 x.2) r ++
          getopt_long_from optstring opts f (if (used : bool) then tail args' else args')
      | _ => getopt_long_from optstring opts f args'
      end
  | _, _ => []
  end.

Definition getopt_long (optstring : list byte) (opts : list (list byte * bool)) (argv : list (list byte)) : list found :=
  getopt_long_from optstring opts (length argv) (tail argv).

(** ** The programs *)

(** A printed line: the option and its value, if it has one. *)
Definition line : Type := list byte * option (list byte).

Module Opt.

Definition show (x : byte * list byte) : list line :=
  if decide (x.1 = x61) then [(bytes "-a", Some x.2)]
  else if decide (x.1 = x62) then [(bytes "-b", None)]
  else [].

Definition main (argv : list (list byte)) : list line :=
  concat (map show (getopt (bytes "a:b") argv)).

End Opt.

Module OptLong.

Definition long_options : list (list byte * bool) := [(bytes "argument", true); (bytes "bool", false)].

Definition show (x : found) : list line :=
  match x with
  | Long i arg =>
      match long_options !! i with
      | Some (name, true) => [(name, Some arg)]
      | Some (name, false) => [(name, None)]
      | None => []
      end
  | Short c arg =>
      if decide (c = x61) then [(bytes "a", Some arg)]
      else if decide (c = x62) then [(bytes "b", None)]
      else []
  end.

Definition main (argv : list (list byte)) : list line :=
  concat (map show (getopt_long (bytes "a:b") long_options argv)).

End OptLong.

(** ** Round trips *)

(** How a user writes an option: [-a v], [-av], [-b], and an argument that is no
    option. *)
Inductive setting := SetA (v : list byte) | SetAv (c : byte) (v : list byte) | SetB | Word (c : byte) (w : list byte).

Definition setting_ok (s : setting) : Prop := match s with Word c _ => c <> x2d | _ => True end.

Definition render (s : setting) : list (list byte) :=
  match s with
  | SetA v => [bytes "-a"; v]
  | SetAv c v => [bytes "-a" ++ c :: v]
  | SetB => [bytes "-b"]
  | Word c w => [c :: w]
  end.

(** What should be printed, with the names of the program. *)
Definition meaning (a b : list byte) (s : setting) : list line :=
  match s with
  | SetA v => [(a, Some v)]
  | SetAv c v => [(a, Some (c :: v))]
  | SetB => [(b, None)]
  | Word _ _ => []
  end.

(** The arguments behind the options: none, or "--" and anything. *)
Definition ends (l : list (list byte)) : Prop := l = [] \/ exists r, l = bytes "--" :: r.

Lemma getopt_from_ends fuel o l : ends l -> getopt_from o fuel l = [].
Proof. by destruct fuel; [done|]; intros [->|[r ->]]. Qed.

Lemma getopt_word o fuel c w args : c <> x2d ->
  getopt_from o (S fuel) ((c :: w) :: args) = getopt_from o fuel args.
Proof. intros Hc. cbn. by destruct c. Qed.

Lemma opt_shows fuel l rest :
  Forall setting_ok l -> ends rest -> (length (concat (map render l)) <= fuel)%nat ->
  concat (map Opt.show (getopt_from (bytes "a:b") fuel (concat (map render l) ++ rest))) =
  concat (map (meaning (bytes "-a") (bytes "-b")) l).
Proof.
  intros Hl Hr. revert fuel. induction Hl as [|s l Hs _ IH]; intros fuel Hf; [by rewrite getopt_from_ends|].
  set (args := concat (map render l) ++ rest) in *.
  destruct fuel as [|fuel]; [destruct s; simpl in Hf; lia|].
  assert (Hle : (length (concat (map render l)) <= fuel)%nat) by (destruct s; simpl in Hf; lia).
  specialize (IH fuel Hle). cbn [map concat]. rewrite <-IH, <-(assoc_L (++)). fold args.
  destruct s as [v|c v| |c w]; [done|done|done|]. cbn [render app]. by rewrite getopt_word.
Qed.

(** opt.c prints exactly the options it is given, in order, with their values:
    for every sequence of [-a v], [-av], [-b] and other words, followed by nothing
    or by "--" and any arguments. *)
Theorem opt_roundtrip prog l rest :
  Forall setting_ok l -> ends rest ->
  Opt.main (prog :: concat (map render l) ++ rest) = concat (map (meaning (bytes "-a") (bytes "-b")) l).
Proof.
  intros Hl Hr. unfold Opt.main, getopt. cbn [tail]. apply opt_shows; [done|done|]. cbn [length]. rewrite length_app. lia.
Qed.

(** The long forms: [--argument v], [--argument=v], [--bool], and the short ones. *)
Inductive lsetting := LArg (v : list byte) | LArgEq (v : list byte) | LBool | LShort (s : setting).

Definition lsetting_ok (s : lsetting) : Prop := match s with LShort s => setting_ok s | _ => True end.

Definition lrender (s : lsetting) : list (list byte) :=
  match s with
  | LArg v => [bytes "--argument"; v]
  | LArgEq v => [bytes "--argument=" ++ v]
  | LBool => [bytes "--bool"]
  | LShort s => render s
  end.

Definition lmeaning (s : lsetting) : list line :=
  match s with
  | LArg v | LArgEq v => [(bytes "argument", Some v)]
  | LBool => [(bytes "bool", None)]
  | LShort s => meaning (bytes "a") (bytes "b") s
  end.

Lemma getopt_long_word o opts fuel c w args : c <> x2d ->
  getopt_long_from o opts (S fuel) ((c :: w) :: args) = getopt_long_from o opts fuel args.
Proof. intros Hc. cbn. by destruct c. Qed.

Lemma opt_long_shows fuel l rest :
  Forall lsetting_ok l -> ends rest -> (length (concat (map lrender l)) <= fuel)%nat ->
  concat (map OptLong.show (getopt_long_from (bytes "a:b") OptLong.long_options fuel (concat (map lrender l) ++ rest))) =
  concat (map lmeaning l).
Proof.
  intros Hl Hr. revert fuel. induction Hl as [|s l Hs _ IH]; intros fuel Hf.
  { cbn. by destruct fuel; [done|]; destruct Hr as [->|[r ->]]. }
  set (args := concat (map lrender l) ++ rest) in *.
  destruct fuel as [|fuel]; [destruct s as [| | |[]]; simpl in Hf; lia|].
  assert (Hle : (length (concat (map lrender l)) <= fuel)%nat) by (destruct s as [| | |[]]; simpl in Hf; lia).
  specialize (IH fuel Hle). cbn [map concat]. rewrite <-IH, <-(assoc_L (++)). fold args.
  destruct s as [v|v| |[v|c v| |c w]]; [done..|]. cbn [lrender render app]. by rewrite getopt_long_word.
Qed.

(** C24: opt_long.c prints exactly the options it is given, long and short, in
    order, with their values. *)
Theorem opt_long_roundtrip prog l rest :
  Forall lsetting_ok l -> ends rest ->
  OptLong.main (prog :: concat (map lrender l) ++ rest) = concat (map lmeaning l).
Proof.
  intros Hl Hr. unfold OptLong.main, getopt_long. cbn [tail]. apply opt_long_shows; [done|done|].
  cbn [length]. rewrite length_app. lia.
Qed.

Lemma opt_roundtrip_witness :
  Opt.main (bytes "opt" :: concat (map render [SetB; SetA (bytes "x y"); Word x41 []; SetAv x2d []]) ++ [bytes "--"; bytes "-b"]) =
  concat (map (meaning (bytes "-a") (bytes "-b")) [SetB; SetA (bytes "x y"); Word x41 []; SetAv x2d []]).
Proof.
  apply (opt_roundtrip (bytes "opt") [SetB; SetA (bytes "x y"); Word x41 []; SetAv x2d []] [bytes "--"; bytes "-b"]).
  - by repeat constructor.
  - right. by eexists.
Defined.

Lemma opt_long_roundtrip_witness :
  OptLong.main (bytes "opt" :: concat (map lrender [LBool; LArgEq (bytes "1=2"); LArg (bytes "--bool"); LShort SetB]) ++ []) =
  concat (map lmeaning [LBool; LArgEq (bytes "1=2"); LArg (bytes "--bool"); LShort SetB]).
Proof.
  apply (opt_long_roundtrip (bytes "opt") [LBool; LArgEq (bytes "1=2"); LArg (bytes "--bool"); LShort SetB] []).
  - by repeat constructor.
  - by left.
Defined.
