(* ===== verification/Ps.v ===== *)
(** * Ps: src/ps/fork.c, fork_exec.c, exec.c, test_fd.c, hook.c, setjmp.c

    Small programs on processes.  In the first three a process has a buffer for
    its standard output, a file, which is written at [fflush] and [exit] only,
    and which [fork] copies. *)

From S2P Require Import Prelude Prog Posix Stdio.

(** ** Processes with buffers *)

Inductive who := Parent | Child | Date.
Definition line : Type := who * string.

(** The file, and the buffer of the process that runs. *)
Record st := St { out : list line; buf : list line }.

Definition printf (x : who) (s : string) : M st unit := modify (fun w => St (out w) (buf w ++ [(x, s)])).
Definition fflush : M st unit := modify (fun w => St (out w ++ buf w) []).
Definition finish (code : Z) : M st unit := fflush ;; exit_ code.

(** [fork], when the parent's next write to the file is behind [wait]: the child
    runs on a copy of the buffer, and the parent goes on with its own. *)
Definition fork_child (child : M st unit) : M st unit := fun w =>
  Ok tt (St (out (final (child w))) (buf w)).

(** [execl] of date: the buffer of the old program is lost. *)
Definition exec_date : M st unit := modify (fun w => St (out w ++ [(Date, "seconds"%string)]) []) ;; exit_ 0.

(** [forked] and [execed] say whether the calls succeed. *)
Module Fork.
Definition child : M st unit :=
  printf Child "Child is working!" ;;
  printf Child "End" ;;
  finish 0.

Definition main (forked : bool) : M st unit :=
  printf Parent "Begin!" ;;
  fflush ;;
  if negb forked then finish 0 else
  fork_child child ;;
  printf Parent "Parent is working" ;;
  printf Parent "wait for child" ;;
  printf Parent "child exited" ;;
  finish 0.
End Fork.

Module ForkExec.
(** The end of [main], which a child whose [execl] has failed reaches too. *)
Definition rest (x : who) : M st unit := printf x "end!" ;; finish 0.

Definition child (execed : bool) : M st unit :=
  printf Child "child!" ;;
  fflush ;;
  if execed then exec_date else rest Child.

Definition main (forked execed : bool) : M st unit :=
  printf Parent "begin!" ;;
  fflush ;;
  if negb forked then finish 0 else
  fork_child (child execed) ;;
  rest Parent.
End ForkExec.

Module Exec.
Definition main (execed : bool) : M st unit :=
  printf Parent "Begin!" ;;
  fflush ;;
  if execed then exec_date else finish 0.
End Exec.

(** The programs that fork flush first, so nothing is printed twice by a copied
    buffer: fork.c prints its six lines, each once, the child's before the
    parent's; fork_exec.c prints "end!" once if [execl] succeeds, but if it fails
    the child goes on into the parent's code and "end!" is printed twice. *)
Theorem fork_prints o :
  Fork.main true (St o []) =
    Exit 0 (St (o ++ [(Parent, "Begin!"); (Child, "Child is working!"); (Child, "End");
                      (Parent, "Parent is working"); (Parent, "wait for child"); (Parent, "child exited")]%string) []) /\
  ForkExec.main true true (St o []) =
    Exit 0 (St (o ++ [(Parent, "begin!"); (Child, "child!"); (Date, "seconds"); (Parent, "end!")]%string) []) /\
  ForkExec.main true false (St o []) =
    Exit 0 (St (o ++ [(Parent, "begin!"); (Child, "child!"); (Child, "end!"); (Parent, "end!")]%string) []).
Proof. split_and!; cbv -[app]; by rewrite <-!(assoc_L (++)). Qed.

(** ** test_fd.c *)
Module TestFd.

Definition HELLO : list byte := bytes "hello" ++ [x0a].
Definition WORLD : list byte := bytes "world" ++ [x0a].

(** The child writes to descriptor 3 before the parent goes on; parent and child
    share the open file and its offset. *)
Definition main (forked : bool) (argv : list string) : M os Z :=
  if negb (Nat.eqb (length argv) 2) then exit_ 1 else
  fd ← sys_open (nth 1 argv EmptyString) (Z.lor O_CREAT (Z.lor O_TRUNC O_WRONLY));
  if fd <? 0 then exit_ 1 else
  sys_write fd HELLO ;;
  (if forked then sys_write 3 WORLD else mret 0) ;;
  mret 0.

(** test_fd.c, called with descriptors 0 to [n - 1] in use and no others,
    leaves "hello" and "world" in its file exactly if [n] is 3, since the child
    writes to descriptor 3 instead of the one that [open] has returned; for a
    smaller [n] the file holds only "hello". *)
Theorem test_fd_writes prog name n w :
  (n <= 3)%nat -> (forall j, (j < n)%nat <-> is_Some (fdt w !! j)) ->
  no_err (orc w) -> Forall whole (orc w) ->
  wp (main true [prog; name])
     (fun r w' => r = 0 /\ fs w' = <[name := if decide (n = 3)%nat then HELLO ++ WORLD else HELLO]> (fs w))
     (fun _ _ => False) w.
Proof.
  intros Hn Hocc Hno Hwh. unfold main. cbn [length Nat.eqb negb nth]. apply wp_bind, wp_open.
  - intros e o Ho. exfalso. rewrite Ho in Hno. by eapply (no_err_head e o), Hno.
  - intros o _ _. by vm_compute.
  - intros o fd Ho Hnew Hlow. rewrite of_nat_ltb_0.
    assert (Hfd : fd = n).
    { rewrite Hlow. apply lowest_free_eq; [by intros j ?%Hocc|]. apply eq_None_not_Some. intros ?%Hocc. lia. }
    clear Hlow. subst fd. set (i := length (ofds w)). set (flags := Z.lor _ _).
    apply (no_err_suffix _ _ Ho) in Hno. apply (whole_suffix _ _ Ho) in Hwh.
    apply wp_bind. eapply (wp_write n i (Ofd name 0 false true)); [cbn; by rewrite lookup_insert_eq| |done| |].
    { cbn. by rewrite lookup_app_r, Nat.sub_diag. }
    { intros e o' Ho'. exfalso. cbn in Ho'. rewrite Ho' in Hno. by eapply (no_err_head e o'), Hno. }
    intros m o1. cbv zeta. cbn [of_path of_off]. intros Ho1 _ _ Hm. specialize (Hm Hwh). subst m.
    cbn [fs opened with_orc]. rewrite lookup_insert_eq. change (has_flag flags O_TRUNC) with true.
    cbn [default from_option id]. rewrite (splice_end []), insert_insert_eq. cbn [app]. rewrite firstn_all. rewrite Nat.add_0_l.
    cbn [orc opened with_orc] in Ho1. apply (no_err_suffix _ _ Ho1) in Hno. apply (whole_suffix _ _ Ho1) in Hwh.
    apply wp_bind. destruct (decide (n = 3)%nat) as [->|H3].
    + eapply (wp_write 3 i (Ofd name (length HELLO) false true)); [cbn; by rewrite lookup_insert_eq| |done| |].
      * cbn. rewrite list_lookup_insert_eq; [done|]. rewrite length_app. cbn. unfold i. lia.
      * intros e o' Ho'. exfalso. cbn in Ho'. rewrite Ho' in Hno. by eapply (no_err_head e o'), Hno.
      * intros m o2. cbv zeta. cbn [of_path of_off]. intros _ _ _ Hm. specialize (Hm Hwh). subst m. wp_steps. split; [done|].
        cbn [fs set_off with_ofds with_fs with_orc]. rewrite lookup_insert_eq. cbn [default from_option id].
        rewrite splice_end, insert_insert_eq, firstn_all. done.
    + unfold sys_write at 1. wp_steps. apply wp_next_ans. intros a o2 _ Ha _.
      set (w1 := with_orc o2 _). assert (Hcl : lookup_fd 3 w1 = None).
      { apply (lookup_fd_closed _ 3). cbn [fdt w1 with_orc with_fs with_ofds set_off opened]. rewrite lookup_insert_ne by done.
        apply eq_None_not_Some. intros ?%Hocc. lia. }
      destruct a; wp_steps; rewrite ?Hcl; apply wp_fail_with; wp_steps; done.
Qed.

Lemma test_fd_writes_witness :
  wp (main true ["t"; "f"]%string)
     (fun r w' => r = 0 /\ fs w' = <["f"%string := if decide (0 = 3)%nat then HELLO ++ WORLD else HELLO]> ∅)
     (fun _ _ => False) (Os ∅ [] ∅ 0 []).
Proof.
  apply (test_fd_writes "t" "f" 0 (Os ∅ [] ∅ 0 [])); [lia| |constructor|constructor].
  intros j. split; [lia|]. cbn. rewrite lookup_empty. by intros [? ?].
Defined.

End TestFd.

(** ** hook.c *)
Module Hook.

Definition puts (s : string) : M (list string) unit := modify (fun l => l ++ [s]).

Definition hook : M (list string) unit := puts "Hook!".

(** The end of [main] runs the functions registered with [atexit]. *)
Definition run_hooks (l : list (M (list string) unit)) : M (list string) unit :=
  foldr (fun h k => h ;; k) (mret tt) l.

Definition main : M (list string) Z :=
  let hooks := [hook] in
  puts "Begin!" ;;
  puts "End!" ;;
  run_hooks hooks ;;
  mret 0.

Lemma hook_prints : main [] = Ok 0 ["Begin!"; "End!"; "Hook!"]%string.
Proof. done. Qed.

End Hook.

(** ** setjmp.c *)
Module Setjmp.

(** A call returns, or jumps ([longjmp], with a value) to the point where [buf] was set. *)
Inductive flow := Returns | Jumps (v : Z).

Definition puts (s : string) : M (list string) unit := modify (fun l => l ++ [s]).

(** The rest of a function runs only if the call returns. *)
Definition call (m : M (list string) flow) (k : M (list string) flow) : M (list string) flow :=
  f ← m; match f with Returns => k | Jumps v => mret (Jumps v) end.

Definition longjmp (v : Z) : M (list string) flow := mret (Jumps v).

Definition c : M (list string) flow :=
  puts "c():Begin." ;;
  puts "jump now" ;;
  call (longjmp 1) (
  puts "c():End." ;;
  mret Returns).

Definition b : M (list string) flow :=
  puts "b():Begin." ;;
  puts "b():Call c()." ;;
  call c (
  puts "b():c() returned." ;;
  puts "b():End." ;;
  mret Returns).

(** [setjmp(buf) == 0]: the first branch runs, and a jump enters the second. *)
Definition a : M (list string) flow :=
  puts "a():Begin." ;;
  puts "a():Call b()." ;;
  f ← call b (
    puts "a():b() returned." ;;
    puts "a():End." ;;
    mret Returns);
  match f with
  | Returns => mret Returns
  | Jumps _ => puts "jumped from other function" ;; mret Returns
  end.

Definition main : M (list string) Z := a ;; mret 0.

Lemma setjmp_prints :
  main [] = Ok 0 ["a():Begin."; "a():Call b()."; "b():Begin."; "b():Call c()."; "c():Begin."; "jump now";
                  "jumped from other function"]%string.
Proof. done. Qed.

End Setjmp.
