(* ===== verification/Primes.v ===== *)
(** * Primes: src/ps/prime.c and src/thread/prime.c

    Two programs that print the primes of a range, one with a process for every
    number ([Ps]), one with a thread ([Thr]).  The trial division of each is
    proved to decide primality on its range; the rest, a loop that starts a worker
    per number and a loop that waits for all of them, is one machine, whose
    workers move in any order. *)

From Stdlib Require Import Znumtheory.
From S2P Require Import Prelude.

(** ** Trial division *)

(** [for (int j = 2; j < lim; j++) if (i % j == 0) ...]: [Some false] when a
    divisor is found, [None] when the fuel is used up. *)
Fixpoint trial (fuel : nat) (i j lim : Z) : option bool :=
  match fuel with
  | O => None
  | S f => if j <? lim then if Z.rem i j =? 0 then Some false else trial f i (j + 1) lim else Some true
  end.

(** The loop ends, and decides whether there is a divisor from [j] on below the
    limit. *)
Lemma trial_spec fuel i j lim : 0 < j -> 0 <= i -> (Z.to_nat (lim - j) < fuel)%nat ->
  exists b, trial fuel i j lim = Some b /\ (b = true <-> forall d, j <= d < lim -> ~ (d | i)).
Proof.
  revert j. induction fuel as [|fuel IH]; intros j Hj Hi Hf; [lia|]. simpl.
  destruct (Z.ltb_spec j lim) as [Hlt|Hge].
  - rewrite Z.rem_mod_nonneg by lia. destruct (Z.eqb_spec (i mod j) 0) as [H0|H0].
    + exists false. split; [done|]. split; [done|]. intros H. exfalso.
      apply (H j); [lia|]. by apply Z.mod_divide; [lia|].
    + destruct (IH (j + 1)) as (b & Hb & Hspec); [lia|lia|lia|]. exists b. split; [done|].
      rewrite Hspec. split; intros H d Hd; [|apply H; lia].
      destruct (decide (d = j)) as [->|]; [|apply H; lia].
      intros Hdiv. apply H0. by apply Z.mod_divide; [lia|].
  - exists true. split; [done|]. split; [|done]. intros _ d. lia.
Qed.

(** A number has a proper divisor if and only if it has one below half of it; the
    half itself is another one only for 4. *)
Lemma prime_half i : 4 < i -> (forall d, 2 <= d < i / 2 -> ~ (d | i)) <-> prime i.
Proof.
  intros Hi. rewrite <-prime_alt. split.
  - intros H. split; [lia|]. intros d Hd Hdiv. assert (Hq : (i / d | i)).
    { exists d. destruct Hdiv as [q ->]. rewrite Z.div_mul by lia. lia. }
    destruct Hdiv as [q Hq']. assert (Hiq : i / d = q) by (rewrite Hq'; apply Z.div_mul; lia). rewrite Hiq in Hq.
    assert (2 <= q) by nia.
    destruct (decide (d < i / 2)) as [|Hge]; [apply (H d); [lia|by exists q]|].
    destruct (decide (q < i / 2)) as [|Hge']; [by apply (H q); [lia|]|].
    assert (i < 2 * (i / 2) + 2) by (Z.div_mod_to_equations; lia).
    destruct (decide (q = 2)) as [->|]; [|destruct (decide (d = 2)) as [->|]; nia].
    assert (2 < i / 2 \/ i / 2 = 2) as [?|?] by nia; [nia|]. Z.div_mod_to_equations. nia.
  - intros [_ H] d Hd. apply H. assert (i / 2 <= i) by (apply Z.div_le_upper_bound; lia). lia.
Qed.

Lemma prime_all i : 2 <= i -> (forall d, 2 <= d < i -> ~ (d | i)) <-> prime i.
Proof.
  intros Hi. rewrite <-prime_alt. split.
  - intros H. split; [lia|]. intros d Hd. apply H. lia.
  - intros [_ H] d Hd. apply H. lia.
Qed.

(** ** Workers *)

Section spawn.
Context (LEFT RIGHT : Z).
(** Whether a worker prints its number. *)
Context (prints : Z -> bool).
(** Whether [main] sees that a worker could not be started, and ends. *)
Context (checked : bool).
(** Whether the [k]-th call of [wait] or [pthread_join] returns. *)
Context (can_reap : nat -> list (option (Z * bool)) -> bool).
(** Whether workers outlive [main]. *)
Context (outlive : bool).

Inductive mpc := Spawn (i : Z) | Reap (k : nat) | Ended (code : Z) | MFault.

(** A worker has a number, and has ended or not; [None]: it was never started. *)
Record st := St { workers : list (option (Z * bool)); mainpc : mpc; out : list Z }.

Definition is_done (w : option (Z * bool)) : bool := match w with Some (_, b) => b | None => false end.

Definition COUNT : nat := Z.to_nat (RIGHT - LEFT + 1).

(** [main]; [fail] says whether the system refuses to start a worker. *)
Definition main_step (fail : bool) (s : st) : option st :=
  match mainpc s with
  | Spawn i =>
      if i <=? RIGHT then
        if fail && checked then Some (St (workers s) (Ended 0) (out s))
        else Some (St (workers s ++ [if fail then None else Some (i, false)]) (Spawn (i + 1)) (out s))
      else Some (St (workers s) (Reap 0) (out s))
  | Reap k =>
      if decide (k < COUNT)%nat then
        match workers s !! k with
        | Some (Some _) => if can_reap k (workers s) then Some (St (workers s) (Reap (S k)) (out s)) else None
        | _ => Some (St (workers s) MFault (out s))
        end
      else Some (St (workers s) (Ended 0) (out s))
  | _ => None
  end.

(** Worker [k] tests its number and ends. *)
Definition worker_step (k : nat) (s : st) : option st :=
  match workers s !! k with
  | Some (Some (i, false)) =>
      Some (St (<[k := Some (i, true)]> (workers s)) (mainpc s) (out s ++ if prints i then [i] else []))
  | _ => None
  end.

Definition step (x : option nat * bool) (s : st) : option st :=
  match x.1 with
  | None => main_step x.2 s
  | Some k =>
      match mainpc s with
      | Ended _ => if outlive then worker_step k s else None
      | MFault => None
      | _ => worker_step k s
      end
  end.

Definition run (sched : list (option nat * bool)) (s : st) : st :=
  foldl (fun s x => default s (step x s)) s sched.

Definition start : st := St [] (Spawn LEFT) [].

(** ** Invariant *)

Context (reaped : nat -> list (option (Z * bool)) -> Prop).
Hypothesis reaped_0 : forall ws, reaped 0 ws.
Hypothesis reaped_S : forall k ws, reaped k ws -> can_reap k ws = true -> reaped (S k) ws.
Hypothesis reaped_mono : forall k ws j i, reaped k ws -> ws !! j = Some (Some (i, false)) ->
  reaped k (<[j := Some (i, true)]> ws).
Hypothesis reaped_all : forall ws, reaped (length ws) ws -> Forall (fun w => is_done w = true) ws.
Hypothesis can_reap_done : forall k ws, (k < length ws)%nat -> Forall (fun w => is_done w = true) ws ->
  can_reap k ws = true.
Hypothesis range : LEFT <= RIGHT.

(** The numbers of the workers. *)
Definition numbers (ws : list (option (Z * bool))) : list Z := omap (fmap fst) ws.
Definition finished (ws : list (option (Z * bool))) : list Z :=
  omap (fun w => match w with Some (i, true) => Some i | _ => None end) ws.

Definition main_inv (s : st) : Prop :=
  match mainpc s with
  | Spawn i => i = LEFT + Z.of_nat (length (workers s)) /\ i <= RIGHT + 1
  | Reap k => length (workers s) = COUNT /\ reaped k (workers s) /\ (k <= COUNT)%nat
  | Ended c => c = 0 /\ length (workers s) = COUNT /\ Forall (fun w => is_done w = true) (workers s)
  | MFault => False
  end.

Record inv (s : st) : Prop := {
  inv_numbers : forall k w, workers s !! k = Some w -> exists b, w = Some (LEFT + Z.of_nat k, b);
  inv_out : out s ≡ₚ filter (fun i => prints i = true) (finished (workers s));
  inv_main : main_inv s }.

Lemma finished_insert ws k i : ws !! k = Some (Some (i, false)) ->
  finished (<[k := Some (i, true)]> ws) ≡ₚ i :: finished ws.
Proof.
  revert k. induction ws as [|w ws IH]; intros [|k] Hk; simplify_eq/=; [done|].
  destruct w as [[j []]|]; simpl; rewrite (IH k Hk); [by constructor|done|done].
Qed.

Lemma pinv_worker k s s' : inv s -> worker_step k s = Some s' -> inv s'.
Proof.
  intros [Hn Ho Hm]. unfold worker_step. destruct (workers s !! k) as [[[i []]|]|] eqn:Hk; try done. intros [= <-].
  assert (Hlt : (k < length (workers s))%nat) by (by eapply lookup_lt_Some).
  split; cbn [workers out mainpc].
  - intros j w Hj. destruct (decide (k = j)) as [<-|Hne].
    + rewrite list_lookup_insert_eq in Hj by done. simplify_eq. destruct (Hn _ _ Hk) as [b Hb]. simplify_eq. by exists true.
    + rewrite list_lookup_insert_ne in Hj by done. by apply Hn.
  - rewrite (finished_insert _ _ _ Hk), filter_cons, Ho. destruct (prints i) eqn:Ei; case_decide; try congruence.
    + by rewrite (comm (++)).
    + by rewrite app_nil_r.
  - unfold main_inv in *. cbn [mainpc workers]. rewrite length_insert. destruct (mainpc s) as [|j|c|]; try done.
    + destruct Hm as (? & ? & ?). split_and!; [done|by apply reaped_mono|done].
    + destruct Hm as (? & ? & Hall). rewrite Forall_forall in Hall.
      apply list_elem_of_lookup_2, Hall in Hk. done.
Qed.

Lemma pinv_main_move s s' : inv s -> main_step false s = Some s' -> inv s'.
Proof.
  intros [Hn Ho Hm]. unfold main_step, main_inv in *. destruct (mainpc s) as [i|k| |] eqn:Hpc; try done; cbn [andb].
  - destruct Hm as [-> Hle]. destruct (Z.leb_spec (LEFT + Z.of_nat (length (workers s))) RIGHT).
    + intros [= <-]. split; cbn [workers out mainpc].
      * intros k w [Hk|[Hge Hk]]%lookup_app_Some; [by apply Hn|].
        apply list_lookup_singleton_Some in Hk as [Hk0 <-]. exists false. do 3 f_equal. lia.
      * unfold finished. rewrite omap_app. cbn. by rewrite app_nil_r.
      * unfold main_inv. cbn. rewrite length_app. simpl. lia.
    + intros [= <-]. split; [done|done|]. unfold main_inv. cbn. split_and!; [unfold COUNT; lia|apply reaped_0|lia].
  - destruct Hm as (Hlen & Hr & Hle). case_decide as Hlt.
    + destruct (lookup_lt_is_Some_2 (workers s) k) as [w Hw]; [lia|]. rewrite Hw.
      destruct (Hn k w Hw) as [b ->]. destruct (can_reap k (workers s)) eqn:Ec; [|done]. intros [= <-].
      split; [done|done|]. unfold main_inv. cbn. split_and!; [done|by apply reaped_S|lia].
    + intros [= <-]. split; [done|done|]. unfold main_inv. cbn. split_and!; [done|done|].
      apply reaped_all. by replace (length (workers s)) with k by lia.
Qed.

Lemma pinv_step x s s' : inv s -> x.2 = false -> step x s = Some s' -> inv s'.
Proof.
  intros Hi Hx. unfold step. rewrite Hx. destruct x as [[k|] f]; cbn [fst] in *; [|by apply pinv_main_move].
  destruct (mainpc s); try destruct outlive; try done; by apply pinv_worker.
Qed.

Lemma pinv_run sched s : inv s -> Forall (fun x => x.2 = false) sched -> inv (run sched s).
Proof.
  revert s. induction sched as [|x sched IH]; intros s Hi Hs; [done|]. apply Forall_cons in Hs as [Hx Hs].
  cbn [run foldl]. apply IH; [|done]. destruct (step x s) eqn:E; [by eapply pinv_step|done].
Qed.

Lemma pinv_start : inv start.
Proof. split; [by intros k w ?|done|]. unfold main_inv. cbn. lia. Qed.

(** The numbers of all workers when all have been started. *)
Lemma finished_all ws : length ws = COUNT -> Forall (fun w => is_done w = true) ws ->
  (forall k w, ws !! k = Some w -> exists b, w = Some (LEFT + Z.of_nat k, b)) ->
  finished ws = seqZ LEFT (Z.of_nat COUNT).
Proof.
  intros Hlen Hd Hn. unfold seqZ. rewrite Nat2Z.id, <-Hlen. clear Hlen.
  assert (Hgo : forall o, (forall k w, ws !! k = Some w -> exists b, w = Some (LEFT + Z.of_nat (o + k), b)) ->
            finished ws = (fun i : nat => Z.of_nat i + LEFT) <$> seq o (length ws)).
  { clear Hn. induction ws as [|w ws IH]; intros o Hn; [done|]. apply Forall_cons in Hd as [Hw Hd].
    destruct (Hn 0%nat w eq_refl) as [b ->]. cbn in Hw. subst b. cbn. rewrite Nat.add_0_r. f_equal; [lia|].
    apply (IH Hd (S o)). intros k w Hk. destruct (Hn (S k) w Hk) as [b Hb]. exists b. by rewrite Nat.add_succ_r in Hb. }
  apply (Hgo 0%nat). done.
Qed.

(** ** Progress *)

Definition unfinished (ws : list (option (Z * bool))) : nat :=
  length (filter (fun w => is_done w = false) ws).

Definition todo (s : st) : nat :=
  unfinished (workers s) +
  match mainpc s with
  | Spawn i => Z.to_nat (RIGHT + 1 - i) * 2 + COUNT + 2
  | Reap k => COUNT - k + 1
  | _ => 0
  end.

Lemma unfinished_insert ws k i : ws !! k = Some (Some (i, false)) ->
  S (unfinished (<[k := Some (i, true)]> ws)) = unfinished ws.
Proof.
  unfold unfinished. revert k. induction ws as [|w ws IH]; intros [|k] Hk; simplify_eq/=; [done|].
  rewrite !filter_cons. specialize (IH k Hk). case_decide; simpl; lia.
Qed.

Definition running (s : st) : Prop := match mainpc s with Spawn _ | Reap _ => True | _ => False end.

Lemma spawn_progress s : inv s -> running s ->
  exists x s', x.2 = false /\ step x s = Some s' /\ (todo s' < todo s)%nat.
Proof.
  intros [Hn Ho Hm] Hr. unfold running in Hr.
  destruct (decide (Forall (fun w => is_done w = true) (workers s))) as [Hall|Hnot].
  - exists (None, false). unfold step, main_step, main_inv in *. cbn [fst snd andb].
    destruct (mainpc s) as [i|k| |] eqn:Hpc; try done.
    + destruct Hm as [-> Hle]. destruct (Z.leb_spec (LEFT + Z.of_nat (length (workers s))) RIGHT);
        eexists; (split_and!; [done|reflexivity|]); unfold todo; cbn [workers mainpc]; rewrite Hpc; [|lia].
      unfold unfinished. rewrite filter_app, length_app. simpl. lia.
    + destruct Hm as (Hlen & _ & Hle). case_decide as Hlt.
      * destruct (lookup_lt_is_Some_2 (workers s) k) as [w Hw]; [lia|]. rewrite Hw. destruct (Hn k w Hw) as [b ->].
        rewrite can_reap_done by (done || lia). eexists. split_and!; [done|reflexivity|]. unfold todo. cbn [workers mainpc]. rewrite Hpc. lia.
      * eexists. split_and!; [done|reflexivity|]. unfold todo. cbn [workers mainpc]. rewrite Hpc. lia.
  - apply not_Forall_Exists, Exists_exists in Hnot as (w & (k & Hk)%list_elem_of_lookup & Hd); [|intros x; apply _].
    destruct (Hn k w Hk) as [b ->]. destruct b; [by destruct Hd|].
    exists (Some k, false). unfold step, worker_step. cbn [fst snd]. rewrite Hk.
    assert (Hx : forall o : option st, match mainpc s with Ended _ => if outlive then o else None | MFault => None | _ => o end = o).
    { intros o. destruct (mainpc s); done. }
    rewrite Hx. eexists. split_and!; [done|reflexivity|]. unfold todo. cbn [workers mainpc]. pose proof (unfinished_insert _ _ _ Hk). lia.
Qed.

Lemma can_end s : inv s -> running s ->
  exists rest, Forall (fun x => x.2 = false) rest /\ mainpc (run rest s) = Ended 0.
Proof.
  remember (todo s) as n eqn:Hn. revert s Hn. induction n as [n IH] using lt_wf_ind. intros s -> Hinv Hr.
  destruct (spawn_progress s Hinv Hr) as (x & s' & Hx & Hs & Hlt).
  assert (Hinv' : inv s') by (by apply (pinv_step x s)).
  assert (Hgo : forall rest, run (x :: rest) s = run rest s') by (intros; unfold run; simpl; by rewrite Hs).
  destruct (mainpc s') as [i|k|c|] eqn:Hpc.
  3: { exists [x]. rewrite Hgo. cbn. pose proof (inv_main _ Hinv') as Hm. unfold main_inv in Hm. rewrite Hpc in Hm.
       destruct Hm as [-> _]. split; [by repeat constructor|done]. }
  3: { pose proof (inv_main _ Hinv') as Hm. unfold main_inv in Hm. by rewrite Hpc in Hm. }
  all: destruct (IH _ Hlt s' eq_refl Hinv') as (rest & Hf & Hrun); [unfold running; by rewrite Hpc|];
    exists (x :: rest); rewrite Hgo; (split; [by constructor|done]).
Qed.

(** What is printed in any order of the workers. *)
Lemma spawn_correct sched : Forall (fun x => x.2 = false) sched ->
  let s := run sched start in
  match mainpc s with
  | MFault => False
  | Ended c => c = 0 /\ NoDup (out s) /\ forall i, i ∈ out s <-> LEFT <= i <= RIGHT /\ prints i = true
  | _ => exists rest, Forall (fun x => x.2 = false) rest /\ mainpc (run (sched ++ rest) start) = Ended 0
  end.
Proof.
  intros Hs s. assert (Hinv : inv s) by (by apply pinv_run; [apply pinv_start|]).
  assert (Hgo : running s -> exists rest, Forall (fun x => x.2 = false) rest /\ mainpc (run (sched ++ rest) start) = Ended 0).
  { intros Hr. destruct (can_end s Hinv Hr) as (rest & Hf & Hrun). exists rest. split; [done|].
    unfold run. rewrite foldl_app. exact Hrun. }
  pose proof (inv_main _ Hinv) as Hm. unfold main_inv in Hm. unfold running in Hgo.
  destruct (mainpc s) as [i|k|c|]; [by apply Hgo|by apply Hgo| |done].
  destruct Hm as (-> & Hlen & Hall). split; [done|].
  pose proof (inv_out _ Hinv) as Ho. rewrite (finished_all _ Hlen Hall (inv_numbers _ Hinv)) in Ho. split.
  - rewrite Ho. apply NoDup_filter, NoDup_seqZ.
  - intros i. rewrite Ho, list_elem_of_filter, elem_of_seqZ. unfold COUNT. split; intros [? ?]; split; try done; lia.
Qed.
End spawn.

(** The number of workers that have ended. *)
Definition done_count (ws : list (option (Z * bool))) : nat := length (filter (fun w => is_done w = true) ws).

Lemma done_count_insert ws k i : ws !! k = Some (Some (i, false)) ->
  done_count (<[k := Some (i, true)]> ws) = S (done_count ws).
Proof. intros Hk. pose proof (count_insert is_done ws k _ (Some (i, true)) Hk). unfold done_count. simpl in *. lia. Qed.

(** ** src/ps/prime.c *)

Module Ps.
Definition LEFT : Z := 30000000.
Definition RIGHT : Z := 30000200.

(** The child: [mark] after the loop up to [i / 2]. *)
Definition mark (i : Z) : bool := default false (trial (Z.to_nat i) i 2 (i / 2)).

(** [wait(NULL)] returns once for every child that has ended. *)
Definition can_wait (k : nat) (ws : list (option (Z * bool))) : bool := bool_decide (k < done_count ws)%nat.

Definition prog_run := run LEFT RIGHT mark true can_wait true.

Lemma mark_prime i : 4 < i -> mark i = true <-> prime i.
Proof.
  intros Hi. unfold mark. destruct (trial_spec (Z.to_nat i) i 2 (i / 2)) as (b & -> & Hb); [lia|lia| |].
  - assert (i / 2 <= i) by (apply Z.div_le_upper_bound; lia). lia.
  - simpl. by rewrite Hb, prime_half.
Qed.

(** C22: src/ps/prime.c prints the primes of its range: whatever the order in which
    its children run, when the program ends exactly the primes between 30000000
    and 30000200 have been printed, each once, and until then it can still end;
    if no [fork] fails. *)
Theorem ps_prime_prints sched :
  Forall (fun x => x.2 = false) sched ->
  let s := prog_run sched (start LEFT) in
  match mainpc s with
  | MFault => False
  | Ended c => c = 0 /\ NoDup (out s) /\ forall i, i ∈ out s <-> LEFT <= i <= RIGHT /\ prime i
  | _ => exists rest, Forall (fun x => x.2 = false) rest /\ mainpc (prog_run (sched ++ rest) (start LEFT)) = Ended 0
  end.
Proof.
  intros Hs s.
  opose proof (spawn_correct LEFT RIGHT mark true can_wait true (fun k ws => (k <= done_count ws)%nat)
                 _ _ _ _ _ _ sched Hs) as H; unfold can_wait.
  { intros; lia. }
  { by intros k ws ? ?%bool_decide_eq_true_1. }
  { intros k ws j i ? ?%(done_count_insert ws j i). lia. }
  { by intros ws ?%count_full. }
  { intros k ws ? ?%count_full. apply bool_decide_eq_true. unfold done_count. lia. }
  { unfold LEFT, RIGHT. lia. }
  cbv zeta in H. fold prog_run in H. fold s in H.
  destruct (mainpc s); try done. destruct H as (-> & Hnd & Hin). split_and!; [done|done|]. intros i. rewrite Hin.
  split; intros [Hr Hp]; (split; [done|]); apply (mark_prime i); try done; unfold LEFT in *; lia.
Qed.

(** The limit of the loop is one too small: 4 would be taken for a prime. *)
Example mark_4 : mark 4 = true.
Proof. done. Qed.

Lemma ps_prime_prints_witness :
  let sched := replicate 300 (None, false) in
  let s := prog_run sched (start LEFT) in
  match mainpc s with
  | MFault => False
  | Ended c => c = 0 /\ NoDup (out s) /\ forall i, i ∈ out s <-> LEFT <= i <= RIGHT /\ prime i
  | _ => exists rest, Forall (fun x => x.2 = false) rest /\ mainpc (prog_run (sched ++ rest) (start LEFT)) = Ended 0
  end.
Proof. apply (ps_prime_prints (replicate 300 (None, false))). by apply Forall_replicate. Defined.
End Ps.

(** ** src/thread/prime.c *)

Module Thr.
Definition LEFT : Z := 30000.
Definition RIGHT : Z := 30200.

(** The thread, on its own entry of [args]. *)
Definition routine (i : Z) : bool := default false (trial (Z.to_nat i) i 2 i).

(** [pthread_join(threads[k], NULL)] *)
Definition can_join (k : nat) (ws : list (option (Z * bool))) : bool := default false (is_done <$> ws !! k).

Definition prog_run := run LEFT RIGHT routine false can_join false.

Lemma routine_prime i : 2 <= i -> routine i = true <-> prime i.
Proof.
  intros Hi. unfold routine. destruct (trial_spec (Z.to_nat i) i 2 i) as (b & -> & Hb); [lia..|].
  simpl. by rewrite Hb, prime_all.
Qed.

Definition joined (k : nat) (ws : list (option (Z * bool))) : Prop :=
  forall j, (j < k)%nat -> default true (is_done <$> ws !! j) = true.

(** src/thread/prime.c prints the primes of its range: whatever the order in
    which its threads run, when the program ends exactly the primes between 30000
    and 30200 have been printed, each once, and until then it can still end; if
    every thread can be created. *)
Theorem thread_prime_prints sched :
  Forall (fun x => x.2 = false) sched ->
  let s := prog_run sched (start LEFT) in
  match mainpc s with
  | MFault => False
  | Ended c => c = 0 /\ NoDup (out s) /\ forall i, i ∈ out s <-> LEFT <= i <= RIGHT /\ prime i
  | _ => exists rest, Forall (fun x => x.2 = false) rest /\ mainpc (prog_run (sched ++ rest) (start LEFT)) = Ended 0
  end.
Proof.
  intros Hs s. opose proof (spawn_correct LEFT RIGHT routine false can_join false joined _ _ _ _ _ _ sched Hs) as H.
  { intros ws j. lia. }
  { intros k ws Hj Hk j Hlt. destruct (decide (j = k)) as [->|]; [|apply Hj; lia].
    unfold can_join in Hk. by destruct (ws !! k). }
  { intros k ws j i Hj Hk m Hm. destruct (decide (j = m)) as [->|]; [|rewrite list_lookup_insert_ne by done; by apply Hj].
    by rewrite list_lookup_insert_eq by (by eapply lookup_lt_Some). }
  { intros ws Hj. apply Forall_lookup. intros k w Hk. specialize (Hj k ltac:(by eapply lookup_lt_Some)). by rewrite Hk in Hj. }
  { intros k ws Hk Hall. unfold can_join. destruct (lookup_lt_is_Some_2 ws k Hk) as [w Hw]. rewrite Hw. simpl.
    rewrite Forall_lookup in Hall. by eapply Hall. }
  { unfold LEFT, RIGHT. lia. }
  cbv zeta in H. fold prog_run in H. fold s in H.
  destruct (mainpc s); try done. destruct H as (-> & Hnd & Hin). split_and!; [done|done|]. intros i. rewrite Hin.
  split; intros [Hr Hp]; (split; [done|]); apply (routine_prime i); try done; unfold LEFT in *; lia.
Qed.

Lemma thread_prime_prints_witness :
  let sched := replicate 300 (None, false) in
  let s := prog_run sched (start LEFT) in
  match mainpc s with
  | MFault => False
  | Ended c => c = 0 /\ NoDup (out s) /\ forall i, i ∈ out s <-> LEFT <= i <= RIGHT /\ prime i
  | _ => exists rest, Forall (fun x => x.2 = false) rest /\ mainpc (prog_run (sched ++ rest) (start LEFT)) = Ended 0
  end.
Proof. apply (thread_prime_prints (replicate 300 (None, false))). by apply Forall_replicate. Defined.

(** A thread that could not be created is joined all the same. *)
Example thread_prime_create_unchecked :
  mainpc (prog_run ((None, true) :: replicate 202 (None, false)) (start LEFT)) = MFault.
Proof. by vm_compute. Qed.
End Thr.
