(* ===== verification/PoolClose.v ===== *)
(** * PoolClose: the end of src/thread/thread_pool.c

    [tp_close], which cancels the workers of the pool of [ThreadPool] and then
    destroys its mutexes, up to the first of these calls, and [routine], the task
    that [main] submits.  When the first [pthread_mutex_destroy] is called, the
    mutex is locked for ever or a worker has still to use it ([tp_close_in_use]),
    so the calls from there on have no defined effect to model. *)

From S2P Require Import Prelude Prog ThreadPool.

(** ** tp_close *)
Section close.
Context {F A : Type}.
Notation pool_st := (@thread_pool_st F A).

(** The pool after [pthread_cancel] has been called for every worker, and the
    workers that have ended since. *)
Record closing := Closing { pool : pool_st; dead : list nat }.

(** A step of a cancelled worker.  It acts on the cancellation (if [act]) where it
    can: in [pthread_cond_wait], which takes [mtx] again before the thread ends,
    and in the output of a task.  No clean-up handler gives [mtx] back. *)
Definition cancelled_step (j : nat) (act : bool) (c : closing) : option closing :=
  if decide (j ∈ dead c) then None else
  pc ← workers (pool c) !! j;
  match pc, act with
  | WCondWait, true => Some (Closing (pool c) (j :: dead c))
  | WSleep, true => Some (Closing (set_worker j WReacq (pool c)) (dead c))
  | WReacq, true => if mtx (pool c) then None else Some (Closing (set_mtx true (pool c)) (j :: dead c))
  | WExec _ _ _, true => Some (Closing (pool c) (j :: dead c))
  | _, _ => s' ← thread_pool_routine j (pool c); Some (Closing s' (dead c))
  end.

(** The workers go on, in any order, while [tp_close] frees its memory. *)
Fixpoint close_run (l : list (nat * bool)) (c : closing) : option closing :=
  match l with
  | [] => Some c
  | (j, act) :: l' => c' ← cancelled_step j act c; close_run l' c'
  end.

(** The pool when [tp_close] is about to destroy [mtx]: every worker has been
    cancelled, and [l] lists the steps the workers made meanwhile. *)
Definition tp_close (l : list (nat * bool)) (s : pool_st) : option closing := close_run l (Closing s []).

(** [pthread_mutex_destroy(&pool->mtx)] is defined: the mutex is free and no
    thread is left that uses it. *)
Definition destroyable (c : closing) : Prop :=
  mtx (pool c) = false /\ forall j pc, workers (pool c) !! j = Some pc -> j ∈ dead c.

(** Nothing is left to execute. *)
Definition quiet (s : pool_st) : Prop :=
  (forall i t, tasks s !! i <> Some (Some t)) /\
  forall j pc, workers s !! j = Some pc -> match pc with WUnlock _ _ _ | WExec _ _ _ => False | _ => True end.

(** As long as no worker has ended the pool is quiet; one that has ended holds
    [mtx], and no other worker does. *)
Definition close_inv (c : closing) : Prop :=
  (dead c = [] /\ inv (pool c) /\ quiet (pool c)) \/
  (dead c <> [] /\ mtx (pool c) = true /\
   forall j pc, workers (pool c) !! j = Some pc -> j ∉ dead c -> h_mtx pc = 0%nat).

Lemma quiet_routine j s s' : inv s -> quiet s -> thread_pool_routine j s = Some s' -> quiet s'.
Proof.
  intros Hinv [Ht Hw] (pc & Hj & Hs)%bind_Some. pose proof (i_work _ Hinv j pc Hj) as Hok. specialize (Hw j pc Hj) as Hpc.
  assert (Hfind : find_task_lock s = None).
  { apply find_idx_None. intros i [t|] Hi; [by destruct (Ht i t)|done]. }
  assert (Hins : forall pc', match pc' with WUnlock _ _ _ | WExec _ _ _ => False | _ => True end ->
    forall j' q, <[j := pc']> (workers s) !! j' = Some q -> match q with WUnlock _ _ _ | WExec _ _ _ => False | _ => True end).
  { intros pc' Hp j' q. rewrite list_lookup_insert_Some. intros [(_ & <- & _)|[_ Hq]]; [done|by apply (Hw j')]. }
  destruct pc as [ | | | | | |i|i|i t a|i t a|i t]; simpl in Hok, Hpc; try done.
  - destruct (mtx s); simplify_eq. split; [done|]. by apply Hins.
  - destruct (task_mtx s); simplify_eq. split; [done|]. by apply Hins.
  - rewrite Hfind in Hs. simplify_eq. split; [done|]. by apply Hins.
  - simplify_eq. split; [done|]. by apply Hins.
  - destruct (mtx s); simplify_eq. split; [done|]. by apply Hins.
  - destruct Hok as [t Hi]. by destruct (Ht i t).
  - destruct Hok as [t Hi]. by destruct (Ht i t).
  - simplify_eq. split; [done|]. by apply Hins.
Qed.

(** Once [mtx] is never given back, a worker that does not hold it cannot get it. *)
Lemma routine_no_mtx j (s s' : pool_st) pc :
  mtx s = true -> workers s !! j = Some pc -> h_mtx pc = 0%nat -> thread_pool_routine j s = Some s' ->
  mtx s' = true /\ exists pc', h_mtx pc' = 0%nat /\ workers s' = <[j := pc']> (workers s).
Proof.
  intros Hm Hj H0 Hs. unfold thread_pool_routine in Hs. rewrite Hj in Hs. simpl in Hs.
  destruct pc; simpl in H0; try done; rewrite ?Hm in Hs; simplify_eq; (split; [done|]); eexists; (split; [|done]); done.
Qed.

Lemma only_holder (s : pool_st) j pc :
  inv s -> workers s !! j = Some pc -> h_mtx pc = 1%nat ->
  mtx s = true /\ forall j' pc', workers s !! j' = Some pc' -> j' <> j -> h_mtx pc' = 0%nat.
Proof.
  intros [] Hj H1. pose proof (total_ge h_mtx _ j pc Hj) as Hge. destruct (mtx s); simpl in i_mtx; [|lia]. split; [done|].
  intros j' pc' Hj' Hne. pose proof (total_ge_two h_mtx _ j j' pc pc' (not_eq_sym Hne) Hj Hj'). lia.
Qed.

Lemma no_holder (s : pool_st) j pc : inv s -> mtx s = false -> workers s !! j = Some pc -> h_mtx pc = 0%nat.
Proof. intros [] Hm Hj. pose proof (total_ge h_mtx _ j pc Hj). rewrite Hm in i_mtx. simpl in i_mtx. lia. Qed.

(** A step that only changes the worker, or one of [thread_pool_routine]. *)
Lemma close_inv_step j act c c' : close_inv c -> cancelled_step j act c = Some c' -> close_inv c'.
Proof.
  intros Hc. unfold cancelled_step. case_decide as Hd; [done|]. intros (pc & Hj & Hs)%bind_Some.
  assert (Hroutine : (s' ← thread_pool_routine j (pool c); Some (Closing s' (dead c))) = Some c' -> close_inv c').
  { intros (s' & Hr & ?)%bind_Some. simplify_eq. destruct Hc as [(H0 & Hinv & Hq)|(Hne & Hm & Hh)].
    - left. split_and!; [done|by eapply inv_worker|by eapply quiet_routine].
    - right. destruct (routine_no_mtx j _ s' pc Hm Hj (Hh j pc Hj Hd) Hr) as (Hm' & pc' & H0 & Hw).
      split_and!; [done|done|]. cbn [pool]. rewrite Hw. intros j' q. rewrite list_lookup_insert_Some.
      intros [(_ & <- & _)|[_ Hq]]; [done|by apply Hh]. }
  destruct pc, act; try (by apply Hroutine).
  - simplify_eq. right. destruct Hc as [(H0 & Hinv & _)|(Hne & Hm & Hh)]; [|by specialize (Hh j _ Hj Hd)].
    destruct (only_holder _ j _ Hinv Hj eq_refl) as [Hm Ho]. split_and!; [done|done|]. cbn [pool dead].
    intros j' q Hq Hn. apply (Ho j' q Hq). intros ->. apply Hn. left.
  - simplify_eq. destruct Hc as [(H0 & Hinv & [Ht Hw])|(Hne & Hm & Hh)].
    + left. split_and!; [done| |split; [done|]].
      * apply (inv_spurious (pool c) _ j Hinv). unfold spurious. by rewrite Hj.
      * cbn. intros j' q. rewrite list_lookup_insert_Some. intros [(_ & <- & _)|[_ Hq]]; [done|by apply (Hw j')].
    + right. split_and!; [done|done|]. cbn. intros j' q. rewrite list_lookup_insert_Some.
      intros [(_ & <- & _)|[_ Hq]]; [done|by apply Hh].
  - destruct (mtx (pool c)) eqn:Em; [done|]. simplify_eq. right.
    destruct Hc as [(H0 & Hinv & _)|(_ & Hm & _)]; [|congruence]. split_and!; [done|done|]. cbn.
    intros j' q Hq _. by eapply no_holder.
  - simplify_eq. destruct Hc as [(_ & _ & [_ Hw])|(Hne & Hm & Hh)]; [by specialize (Hw j _ Hj)|].
    right. split_and!; [done|done|]. cbn. intros j' q Hq Hn. apply (Hh j' q Hq). set_solver.
Qed.

Lemma close_inv_run l c c' : close_inv c -> close_run l c = Some c' -> close_inv c'.
Proof.
  revert c. induction l as [|[j act] l IH]; intros c Hc Hr; simplify_eq/=; [done|].
  apply bind_Some in Hr as (c1 & H1 & Hr). eapply IH; [|done]. by eapply close_inv_step.
Qed.

(** The number of workers does not change. *)
Lemma routine_length j (s s' : pool_st) :
  thread_pool_routine j s = Some s' -> length (workers s') = length (workers s).
Proof. intros (q & _ & Hq)%bind_Some. destruct q; cbn [pop_task] in Hq; repeat case_match; simplify_eq; apply length_insert. Qed.

Lemma run_length ls (s s' : pool_st) : run ls s = Some s' -> length (workers s') = length (workers s).
Proof.
  revert s. induction ls as [|x ls IH]; intros s Hr; simplify_eq/=; [done|]. apply bind_Some in Hr as (s2 & H2 & Hr).
  rewrite (IH _ Hr). clear IH Hr. destruct x as [ |j|j]; cbn [do_step] in H2.
  - unfold client_step, tp_wait_task, tp_add_task in H2. repeat case_match; simplify_eq; try done.
    all: try (apply length_map). all: apply bind_Some in H2 as (id & _ & H2); case_match; by simplify_eq.
  - by eapply routine_length.
  - apply bind_Some in H2 as (pc & _ & ?). simplify_eq. apply length_insert.
Qed.

Lemma close_run_workers l c c' : close_run l c = Some c' -> length (workers (pool c')) = length (workers (pool c)).
Proof.
  revert c. induction l as [|[j act] l IH]; intros c Hr; simplify_eq/=; [done|].
  apply bind_Some in Hr as (c1 & H1 & Hr). rewrite (IH c1 Hr). clear IH Hr. unfold cancelled_step in H1.
  case_decide; [done|]. apply bind_Some in H1 as (pc & Hj & Hs).
  destruct pc, act; try (apply bind_Some in Hs as (s' & Hr & ?); simplify_eq; by eapply routine_length);
    simplify_eq; try done; [apply length_insert|]. destruct (mtx (pool c)); by simplify_eq.
Qed.

(** All tasks of the pool have been waited for: it is quiet. *)
Lemma complete_quiet threads sc ls s :
  run ls (tp_init threads sc) = Some s -> client s = CExit 0 ->
  (forall n, (n < length (adds_of sc))%nat -> n ∈ waits_of sc) -> inv s /\ quiet s.
Proof.
  intros [Hinv Hp]%run_ok Hc Hall. split; [done|]. pose proof Hinv as [].
  destruct Hp as [?|(H1 & H2 & H3)]; [congruence|]. rewrite (H3 Hc), Hc in H1, H2. simpl in H1, H2.
  rewrite app_nil_r in H1, H2.
  assert (Hdone : forall n, (n < length (subs s))%nat -> (0 < l_sub n (log s))%nat).
  { intros n Hn. apply i_waited. rewrite H2. apply Hall. by rewrite <-H1. }
  split.
  - intros i [n f] Hi. destruct (i_pend i n f Hi) as (_ & a & _ & Hs). apply lookup_lt_Some in Hs as Hn.
    specialize (i_sub n). specialize (Hdone n Hn). rewrite decide_True in i_sub by done.
    assert (0 < p_sub n (tasks s))%nat; [|lia]. unfold p_sub.
    clear -Hi. revert i Hi. induction (tasks s) as [|x l IH]; intros [|i] Hi; simplify_eq/=; [rewrite decide_True by done; lia|].
    specialize (IH i Hi). lia.
  - intros j pc Hj. specialize (i_work j pc Hj).
    assert (Hno : forall t : nat * F, (t.1 < length (subs s))%nat -> (0 < h_sub t.1 pc)%nat -> False).
    { intros t Hn Hpos. specialize (i_sub t.1). specialize (Hdone _ Hn). rewrite decide_True in i_sub by done.
      pose proof (total_ge (h_sub t.1) _ j pc Hj). lia. }
    destruct pc as [ | | | | | |i|i|i t a|i t a|i t]; try done; simpl in i_work;
      destruct i_work as (_ & a' & _ & Hs); apply lookup_lt_Some in Hs; apply (Hno t); try done;
      simpl; rewrite decide_True by done; lia.
Qed.
End close.

(** C35: [tp_close] destroys a mutex that is locked or in use: after [main] has waited
    for all its tasks, in whatever order the cancelled workers act, either a
    worker is left that is still going to use [mtx], or a worker that was
    cancelled inside [pthread_cond_wait] has ended with [mtx] locked. *)
Theorem tp_close_in_use ls s l c :
  run ls (tp_init THREADS main_script) = Some s -> client s = CExit 0 -> tp_close l s = Some c -> ~ destroyable c.
Proof.
  intros Hr Hc Hl [Hm Hall].
  assert (Hq : inv s /\ quiet s).
  { eapply complete_quiet; [done|done|]. intros n Hn.
    assert (Hadds : length (adds_of main_script) = TASKS) by (by vm_compute).
    assert (Hwaits : waits_of main_script = seq 0 TASKS) by (by vm_compute).
    rewrite Hwaits, elem_of_seq. lia. }
  assert (Hci : close_inv (Closing s [])) by (left; done).
  apply (close_inv_run l _ c) in Hci; [|done].
  assert (Hlen : length (workers (pool c)) = THREADS).
  { rewrite (close_run_workers l _ _ Hl). cbn [pool]. by rewrite (run_length _ _ _ Hr). }
  destruct (lookup_lt_is_Some_2 (workers (pool c)) 0) as [pc Hpc]; [rewrite Hlen; unfold THREADS; lia|].
  destruct Hci as [(H0 & _)|(_ & Hmt & _)]; [|congruence].
  specialize (Hall 0%nat pc Hpc). rewrite H0 in Hall. by apply elem_of_nil in Hall.
Qed.

(** ** routine *)

(** [for (int j = 2; j < i; j++) if (i % j == 0) return;]: the loop's last [j]. *)
Definition routine_loop (fuel : nat) (i : Z) : M unit Z :=
  iter fuel (fun j =>
    if j <? i then
      if Z.rem i j =? 0 then mret (inr j) else
      j' ← int_ (j + 1); mret (inl j')
    else mret (inr j)) 2.

(** The task [routine] terminates for every [int]: the loop ends after at most
    [i] rounds, without overflow and without a division by zero, at the smallest
    divisor of [i] above 1, or at once if [i] is at most 2. *)
Theorem routine_terminates fuel i :
  INT_MIN <= i <= INT_MAX -> (Z.to_nat i < fuel)%nat ->
  wp (routine_loop fuel i)
     (fun j _ => j = Z.max 2 i /\ (forall d, 2 <= d < i -> ~ (d | i)) \/
                 2 <= j < i /\ (j | i) /\ forall d, 2 <= d < j -> ~ (d | i)) (fun _ _ => False) tt.
Proof.
  intros Hi Hf. unfold routine_loop.
  apply (wp_iter (fun j _ => 2 <= j <= Z.max 2 i /\ forall d, 2 <= d < j -> ~ (d | i)) (fun j _ => Z.to_nat (i - j))); [|split; lia|lia].
  intros j [] [Hj Hd]. destruct (Z.ltb_spec j i); wp_steps.
  2: { left. split; [lia|]. intros d Hdi. apply Hd. lia. }
  rewrite Z.rem_mod_nonneg by lia. destruct (Z.eqb_spec (i mod j) 0) as [H0|H0]; wp_steps.
  - right. split_and!; [lia|lia|by apply Z.mod_divide; [lia|]|done].
  - apply wp_int; [unfold INT_MIN in *; lia|]. wp_steps. split; [|lia]. split; [lia|]. intros d Hdj.
    destruct (decide (d = j)) as [->|]; [|apply Hd; lia]. intros Hx. apply H0. by apply Z.mod_divide; [lia|].
Qed.

Lemma routine_terminates_witness :
  wp (routine_loop 100 91)
     (fun j _ => j = Z.max 2 91 /\ (forall d, 2 <= d < 91 -> ~ (d | 91)) \/
                 2 <= j < 91 /\ (j | 91) /\ forall d, 2 <= d < j -> ~ (d | 91)) (fun _ _ => False) tt.
Proof. apply (routine_terminates 100 91); [unfold INT_MIN, INT_MAX; lia|vm_compute; lia]. Defined.

Lemma tp_close_in_use_witness :
  tp_close [] (ended THREADS main_script main_schedule) = Some (Closing (ended THREADS main_script main_schedule) []) /\
  ~ destroyable (Closing (ended THREADS main_script main_schedule) []).
Proof.
  split; [reflexivity|].
  apply (tp_close_in_use main_schedule (ended THREADS main_script main_schedule) []); [vm_compute; reflexivity..|reflexivity].
Defined.
