(* ===== verification/FsTools.v ===== *)
(** * FsTools: src/fs/ftype.c, src/fs/validate_passwd.c, src/fs/hole.c, src/adio/mmap.c

    Four small programs on files.  What they call of the system beyond [Posix]
    is an argument: [stat], the password database, [getpass] and [crypt]. *)

From S2P Require Import Prelude Prog Posix Stdio.

(** ** ftype.c *)
Module Ftype.

(** What is printed: the file and the letter of its type. *)
Definition out := list (string * byte).

Definition S_IFMT : Z := 61440.

Definition types : list byte := bytes "*pc*d*b*-*l*s***".

(** [stat] gives the mode of a file, a number of 32 bits, or fails. *)
Definition main (stat : string -> option Z) (argv : list string) : M out Z :=
  if decide (length argv < 2)%nat then exit_ 1 else
  let name := nth 1 argv EmptyString in
  match stat name with
  | None => exit_ 1
  | Some st_mode =>
      let mask := Z.land (wrap_u32 st_mode) S_IFMT in
      let mask := Z.shiftr mask 12 in
      if Z.of_nat (length types) <=? mask then exit_ 1 else
      c ← unwrap OutOfBounds (types !! Z.to_nat mask);
      modify (fun o => o ++ [(name, c)]) ;;
      mret 0
  end.

(** *** Files and links *)

(** The types of files other than links, with their numbers in [st_mode] on Linux
    and the letters that [ls] prints for them. *)
Inductive ftype := FIFO | CHR | DIR | BLK | REG | SOCK.

Definition mode_of (t : ftype) : Z :=
  match t with
  | FIFO => 4096 | CHR => 8192 | DIR => 16384 | BLK => 24576 | REG => 32768 | SOCK => 49152
  end.

Definition letter (t : ftype) : byte :=
  match t with
  | FIFO => x70 | CHR => x63 | DIR => x64 | BLK => x62 | REG => x2d | SOCK => x73
  end.

(** What a name stands for: a file with its type and twelve permission bits, or a
    symbolic link to a name. *)
Inductive node := File (t : ftype) (perm : Z) | Link (target : string).

(** [stat(2)] follows links, forty at most. *)
Definition MAXSYMLINKS : nat := 40.

Fixpoint follow (fs : string -> option node) (links : nat) (name : string) : option Z :=
  match fs name with
  | None => None
  | Some (File t perm) => Some (mode_of t + perm mod 4096)
  | Some (Link target) => match links with O => None | S n => follow fs n target end
  end.

Definition sys_stat (fs : string -> option node) (name : string) : option Z := follow fs MAXSYMLINKS name.

(** The name leads to a file of type [t] over [k] links. *)
Inductive leads (fs : string -> option node) (t : ftype) : nat -> string -> Prop :=
| leads_file name perm : fs name = Some (File t perm) -> leads fs t 0 name
| leads_link k name target : fs name = Some (Link target) -> leads fs t k target -> leads fs t (S k) name.

(** The index: four bits of the mode. *)
Lemma mask_mod m : Z.shiftr (Z.land (wrap_u32 m) S_IFMT) 12 = m / 4096 mod 16.
Proof.
  rewrite Z.shiftr_land. change (Z.shiftr S_IFMT 12) with (Z.ones 4). rewrite Z.land_ones by lia.
  rewrite Z.shiftr_div_pow2 by lia. unfold wrap_u32. change (2 ^ 12) with 4096. change (2 ^ 32) with (4096 * (16 * 65536)).
  change (2 ^ 4) with 16. rewrite Z.rem_mul_r by lia. rewrite Z.mul_comm, Z.div_add by lia.
  rewrite (Z.div_small (m mod 4096)) by (apply Z.mod_pos_bound; lia). rewrite Z.add_0_l.
  rewrite Z.rem_mul_r by lia. rewrite (Z.mul_comm 16), Z_mod_plus_full. by apply Z.mod_mod.
Qed.

(** The test for an overflow of the table never succeeds. *)
Lemma main_prints (stat : string -> option Z) prog name rest m (o : out) :
  stat name = Some m ->
  exists c, types !! Z.to_nat (m / 4096 mod 16) = Some c /\
    main stat (prog :: name :: rest) o = Ok 0 (o ++ [(name, c)]).
Proof.
  intros Hm. unfold main. rewrite decide_False by (simpl; lia). cbn [nth]. rewrite Hm, mask_mod.
  pose proof (Z.mod_pos_bound (m / 4096) 16 eq_refl) as Hb. change (Z.of_nat (length types)) with 16.
  destruct (Z.leb_spec 16 (m / 4096 mod 16)); [lia|].
  destruct (lookup_lt_is_Some_2 types (Z.to_nat (m / 4096 mod 16))) as [c Hc]; [change (length types) with 16%nat; lia|].
  exists c. split; [done|]. rewrite Hc. done.
Qed.

Lemma follow_leads fs n name m :
  follow fs n name = Some m ->
  exists k t perm, (k <= n)%nat /\ leads fs t k name /\ m = mode_of t + perm mod 4096.
Proof.
  revert name. induction n as [|n IH]; intros name Hf; cbn [follow] in Hf;
    destruct (fs name) as [[t perm|target]|] eqn:E; simplify_eq.
  - exists 0%nat, t, perm. split_and!; [lia|by eapply leads_file|done].
  - exists 0%nat, t, perm. split_and!; [lia|by eapply leads_file|done].
  - destruct (IH target Hf) as (k & t & perm & Hk & Hl & Hm).
    exists (S k), t, perm. split_and!; [lia|by eapply leads_link|done].
Qed.

Lemma leads_follow fs t k n name :
  leads fs t k name -> (k <= n)%nat -> exists perm, follow fs n name = Some (mode_of t + perm mod 4096).
Proof.
  intros Hl. revert n. induction Hl as [name perm Hf|k name target Hf Hl IH]; intros n Hk.
  - exists perm. destruct n; cbn [follow]; by rewrite Hf.
  - destruct n as [|n]; [lia|]. destruct (IH n) as [perm Hp]; [lia|]. exists perm. cbn [follow]. by rewrite Hf.
Qed.

(** The entry of the table for a file's mode. *)
Lemma types_letter t perm : types !! Z.to_nat ((mode_of t + perm mod 4096) / 4096 mod 16) = Some (letter t).
Proof.
  pose proof (Z.mod_pos_bound perm 4096 eq_refl).
  assert (Hq : (mode_of t + perm mod 4096) / 4096 = mode_of t / 4096).
  { assert (mode_of t = mode_of t / 4096 * 4096) as Ht by (by destruct t). rewrite Ht at 1.
    rewrite Z.add_comm, Z.div_add by lia. rewrite Z.div_small by lia. lia. }
  rewrite Hq. by destruct t.
Qed.

(** C36: ftype.c prints the letter of the type of the file its argument leads to.
    It calls [stat], which follows symbolic links: over at most forty of them, a
    name that leads to a file of one of the six other types of POSIX makes it
    print the letter of that type, whatever the permission bits are, and return
    0; a name that leads nowhere, or over more links, makes it exit with 1 and
    print nothing.  So the letter of a link, which its table has, is never printed.
    For every mode [stat] could return at all it prints some letter of the table:
    its own overflow message is never printed. *)
Theorem ftype_letter fs prog name rest (o : out) :
  (forall t k, leads fs t k name -> (k <= MAXSYMLINKS)%nat ->
     main (sys_stat fs) (prog :: name :: rest) o = Ok 0 (o ++ [(name, letter t)])) /\
  ((forall t k, leads fs t k name -> (MAXSYMLINKS < k)%nat) ->
     main (sys_stat fs) (prog :: name :: rest) o = Exit 1 o) /\
  (forall c, main (sys_stat fs) (prog :: name :: rest) o = Ok 0 (o ++ [(name, c)]) -> c <> x6c) /\
  (forall stat m, stat name = Some m ->
     exists c, c ∈ types /\ main stat (prog :: name :: rest) o = Ok 0 (o ++ [(name, c)])).
Proof.
  assert (Hfile : forall t perm, sys_stat fs name = Some (mode_of t + perm mod 4096) ->
            main (sys_stat fs) (prog :: name :: rest) o = Ok 0 (o ++ [(name, letter t)])).
  { intros t perm Hs. destruct (main_prints (sys_stat fs) prog name rest _ o Hs) as (c & Hc & ->).
    rewrite types_letter in Hc. by simplify_eq. }
  assert (Hnone : sys_stat fs name = None -> main (sys_stat fs) (prog :: name :: rest) o = Exit 1 o).
  { intros Hs. unfold main. rewrite decide_False by (simpl; lia). cbn [nth]. by rewrite Hs. }
  split_and!.
  - intros t k Hl Hk. destruct (leads_follow fs t k _ name Hl Hk) as [perm Hp]. by eapply Hfile.
  - intros Hfar. apply Hnone. destruct (sys_stat fs name) as [m|] eqn:E; [|done].
    apply follow_leads in E as (k & t & perm & Hk & Hl & _). specialize (Hfar t k Hl). lia.
  - intros c Hc. destruct (sys_stat fs name) as [m|] eqn:E; [|by rewrite (Hnone eq_refl) in Hc].
    pose proof E as (k & t & perm & _ & _ & ->)%follow_leads. rewrite (Hfile t perm eq_refl) in Hc.
    injection Hc as Hc. apply app_inv_head in Hc. injection Hc as <-. by destruct t.
  - intros stat m Hm. destruct (main_prints stat prog name rest m o Hm) as (c & Hc & Hmain).
    exists c. split; [by eapply list_elem_of_lookup_2|done].
Qed.

(** A link to a directory, and a link to itself. *)
Definition demo_fs (name : string) : option node :=
  if decide (name = "/tmp")%string then Some (File DIR 511) else
  if decide (name = "t")%string then Some (Link "/tmp") else
  if decide (name = "self")%string then Some (Link "self") else None.

Example ftype_demo :
  main (sys_stat demo_fs) ["ftype"; "t"]%string [] = Ok 0 [("t"%string, x64)] /\
  main (sys_stat demo_fs) ["ftype"; "self"]%string [] = Exit 1 [].
Proof. by vm_compute. Qed.

End Ftype.

(** ** validate_passwd.c *)
Module ValidatePasswd.

(** The loop of [get_salt] from position [i] of [s], after [cnt] dollar signs:
    the position at which the third one is found. *)
Fixpoint scan (s : list byte) (i cnt : nat) : option nat :=
  match s with
  | [] => None
  | c :: s' =>
      let cnt := if decide (c = x24) then S cnt else cnt in
      if decide (cnt = 3)%nat then Some i else scan s' (S i) cnt
  end.

(** [malloc(i + 2)], of which [i + 1] bytes are stored; the last byte keeps the
    value [junk] it happens to have. *)
Definition get_salt (junk : byte) (s : list byte) : option (list byte) :=
  match scan s 0 0 with
  | None => None
  | Some i => Some (take (i + 1) s ++ [junk])
  end.

(** The messages: [true] for success. *)
Definition main (getspnam : string -> option (list byte)) (getpass : option (list byte))
    (crypt : list byte -> list byte -> option (list byte)) (junk : byte) (argv : list string) : M (list bool) Z :=
  if decide (length argv < 2)%nat then exit_ 1 else
  match getspnam (nth 1 argv EmptyString) with
  | None => exit_ 1
  | Some sp_pwdp =>
      match getpass with
      | None => exit_ 1
      | Some passwd =>
          salt ← unwrap NullDeref (get_salt junk sp_pwdp);
          setting ← mem_string salt;
          crypted ← unwrap NullDeref (crypt passwd setting);
          modify (fun o => o ++ [bool_decide (crypted = sp_pwdp)]) ;;
          mret 0
      end
  end.

(** The part of a stored password up to its third dollar sign. *)
Definition salt_of (s salt : list byte) : Prop :=
  exists rest, s = salt ++ rest /\ count_occ byte_eq_dec salt x24 = 3%nat /\ last salt = Some x24.

Lemma scan_Some s i cnt j :
  (cnt < 3)%nat -> scan s i cnt = Some j ->
  exists k, j = (i + k)%nat /\ (k < length s)%nat /\
    (cnt + count_occ byte_eq_dec (take (k + 1) s) x24 = 3)%nat /\ s !! k = Some x24.
Proof.
  revert i cnt. induction s as [|c s IH]; intros i cnt Hc; [done|]. cbn [scan].
  destruct (decide (c = x24)) as [->|Hne].
  - destruct (decide (S cnt = 3)%nat) as [H3|H3].
    + intros [= <-]. exists 0%nat. simpl. split_and!; [lia|lia|lia|done].
    + intros (k & -> & Hk & Hn & Hl)%IH; [|lia]. exists (S k). simpl. split_and!; [lia|lia| |done].
      rewrite Nat.add_comm in Hn. simpl in Hn. rewrite Nat.add_comm. simpl. lia.
  - destruct (decide (cnt = 3)%nat) as [H3|H3]; [lia|]. intros (k & -> & Hk & Hn & Hl)%IH; [|lia].
    exists (S k). split_and!; [lia|simpl; lia| |done]. cbn [Nat.add take]. rewrite count_occ_cons_neq by done. done.
Qed.

Lemma scan_None s i cnt :
  (cnt < 3)%nat -> scan s i cnt = None -> (cnt + count_occ byte_eq_dec s x24 < 3)%nat.
Proof.
  revert i cnt. induction s as [|c s IH]; intros i cnt Hc; cbn [scan]; [simpl; lia|].
  destruct (decide (c = x24)) as [->|Hne].
  - destruct (decide (S cnt = 3)%nat); [done|]. intros Hn%IH; [|lia]. rewrite count_occ_cons_eq by done. lia.
  - destruct (decide (cnt = 3)%nat); [lia|]. intros Hn%IH; [|lia]. by rewrite count_occ_cons_neq.
Qed.

(** validate_passwd.c works only by luck, because [get_salt] does not
    terminate the copy it returns.  If the uninitialised byte behind the copy
    happens to be zero, it says "success" exactly if the password, encrypted
    with the stored password's part up to the third dollar sign, gives the stored
    password; if it is not zero the salt is read past the end of its block; and
    a stored password with fewer than three dollar signs, such as that of a
    locked account, makes it use a null pointer. *)
Theorem validate_passwd_cases getspnam crypt junk prog user rest pw stored o :
  getspnam user = Some stored -> x00 ∉ stored ->
  match main getspnam (Some pw) crypt junk (prog :: user :: rest) o with
  | Ok r o' => r = 0 /\ junk = x00 /\
      exists salt e, salt_of stored salt /\ crypt pw salt = Some e /\ o' = o ++ [bool_decide (e = stored)]
  | Fault OutOfBounds o' => junk <> x00 /\ o' = o
  | Fault NullDeref o' => o' = o /\
      ((count_occ byte_eq_dec stored x24 < 3)%nat \/ exists salt, salt_of stored salt /\ crypt pw salt = None)
  | _ => False
  end.
Proof.
  intros Hs Hz. unfold main. rewrite decide_False by (simpl; lia). cbn [nth]. rewrite Hs. unfold get_salt.
  destruct (scan stored 0 0) as [j|] eqn:Ej; cbn [unwrap].
  2: { cbn. split; [done|left]. apply scan_None in Ej; [done|lia]. }
  apply scan_Some in Ej as (k & -> & Hk & Hn & Hl); [|lia]. cbn [Nat.add] in *.
  set (salt := take (k + 1) stored) in *.
  assert (Hsalt : salt_of stored salt).
  { exists (drop (k + 1) stored). split_and!; [unfold salt; by rewrite take_drop|done|].
    rewrite last_lookup. unfold salt. rewrite length_take, Nat.min_l by lia.
    rewrite lookup_take_lt by lia. by replace (Nat.pred (k + 1)) with k by lia. }
  assert (Hnz : x00 ∉ salt) by (rewrite <-(take_drop (k + 1) stored), elem_of_app in Hz; naive_solver).
  unfold mbind at 1, M_bind at 1. cbn [mret M_ret]. unfold mret, M_ret. unfold mbind at 1, M_bind at 1.
  destruct (decide (junk = x00)) as [->|Hj].
  - rewrite mem_string_ok by done. destruct (crypt pw salt) as [e|] eqn:Ec; cbn.
    + split_and!; [done|done|]. by exists salt, e.
    + split; [done|right]. by exists salt.
  - rewrite mem_string_unterminated; [done|]. rewrite elem_of_app, list_elem_of_singleton. naive_solver.
Qed.

Lemma validate_passwd_cases_witness :
  x00 ∉ bytes "$6$ab$xyz" /\
  match main (fun _ => Some (bytes "$6$ab$xyz")) (Some (bytes "pw")) (fun _ s => Some (s ++ bytes "xyz")) x00
          ["v"; "root"]%string [] with
  | Ok r o' => r = 0 /\ x00 = x00 /\
      exists salt e, salt_of (bytes "$6$ab$xyz") salt /\ Some (salt ++ bytes "xyz") = Some e /\
        o' = [] ++ [bool_decide (e = bytes "$6$ab$xyz")]
  | _ => False
  end.
Proof.
  assert (Hz : x00 ∉ bytes "$6$ab$xyz") by (by vm_compute; set_solver).
  split; [exact Hz|].
  exact (validate_passwd_cases (fun _ => Some (bytes "$6$ab$xyz")) (fun _ s => Some (s ++ bytes "xyz")) x00
           "v" "root" [] (bytes "pw") (bytes "$6$ab$xyz") [] eq_refl Hz).
Defined.

End ValidatePasswd.

(** ** hole.c *)
Module Hole.

(** [lseek(fd, off, SEEK_SET)] *)
Definition sys_lseek (fd : Z) (off : Z) : M os Z :=
  w ← get;
  match lookup_fd fd w with
  | None => fail_with EBADF (-1)
  | Some (i, d) => put (set_off i d (Z.to_nat off) w) ;; mret off
  end.

(** [k * k * k] in a [long long] *)
Definition file_size : Z := 1024 * 1024 * 1024.

Definition main (argv : list string) : M os Z :=
  if decide (length argv < 2)%nat then exit_ 1 else
  fd ← sys_open (nth 1 argv EmptyString) (Z.lor O_WRONLY (Z.lor O_CREAT O_TRUNC));
  if fd <? 0 then exit_ 1 else
  sys_lseek fd (file_size - 1) ;;
  sys_write fd [x00] ;;
  sys_close fd ;;
  mret 0.

(** A byte written behind the end of an empty file. *)
Lemma splice_gap n b : splice [] n [b] = replicate n x00 ++ [b].
Proof. unfold splice. rewrite drop_nil, app_nil_r. simpl. by rewrite Nat.sub_0_r, firstn_all2 by (rewrite length_replicate; lia). Qed.

(** hole.c makes the file consist of 2^30 zero bytes, whatever it held before,
    and touches no other file; its calls can fail without that being noticed, and
    then the file is empty. *)
Theorem hole_makes_zeros prog name rest w :
  wp (main (prog :: name :: rest))
     (fun r w' => r = 0 /\ exists z, fs w' = <[name := z]> (fs w) /\
        (no_err (orc w) -> z = replicate (Z.to_nat (2 ^ 30)) x00) /\
        (z = [] \/ z = replicate (Z.to_nat (2 ^ 30)) x00))
     (fun c w' => c = 1 /\ fs w' = fs w) w.
Proof.
  unfold main. rewrite decide_False by (simpl; lia). cbn [nth]. apply wp_bind, wp_open.
  - intros e o Ho. cbn iota. by wp_steps.
  - intros o _ _. by vm_compute.
  - intros o fd Ho Hnew _. rewrite of_nat_ltb_0. apply wp_bind.
    set (flags := Z.lor _ _). set (i := length (ofds w)).
    unfold sys_lseek. wp_steps. rewrite (lookup_fd_Some fd i (Ofd name 0 false true)).
    2: { cbn. by rewrite lookup_insert_eq. }
    2: { cbn. by rewrite lookup_app_r, Nat.sub_diag. }
    wp_steps. assert (Hz : exists n, Z.to_nat (file_size - 1) = n /\ replicate n x00 ++ [x00] = replicate (Z.to_nat (2 ^ 30)) x00).
    { eexists. split; [done|]. rewrite <-replicate_S_end. apply (f_equal (fun k => replicate k x00)).
      rewrite <-Z2Nat.inj_succ by (unfold file_size; lia). apply (f_equal Z.to_nat). reflexivity. }
    destruct Hz as (n & -> & Hz). revert Hz. generalize (Z.to_nat (2 ^ 30)) as N. intros N Hz. set (D := Ofd name n false true).
    assert (HD : <[i := D]> (ofds w ++ [Ofd name 0 false true]) !! i = Some D).
    { apply list_lookup_insert_eq. rewrite length_app. unfold i. simpl. lia. }
    eapply (wp_write fd i D); [cbn; by rewrite lookup_insert_eq| |done| |].
    + done.
    + intros e o' Ho'. wp_steps. apply wp_close_any. intros r w' Hfs _. wp_steps. split; [done|]. exists [].
      rewrite Hfs. cbn. split_and!; [done| |by left]. intros Hno.
      cbn in Ho'. rewrite Ho' in Ho. exfalso. by eapply no_err_head.
    + intros m o'. cbv zeta. cbn [of_path of_off D]. intros _ Hm Hm0 _. simpl in Hm, Hm0. assert (m = 1)%nat as -> by lia.
      wp_steps. apply wp_close_any. intros r w' Hfs _. wp_steps. split; [done|].
      exists (replicate N x00). rewrite Hfs. cbn [fs set_off with_fs with_orc with_ofds opened].
      split_and!; [|done|by right]. rewrite lookup_insert_eq. cbn [default from_option id].
      change (has_flag flags O_TRUNC) with true. cbn iota. cbn [take]. rewrite splice_gap, Hz, insert_insert_eq. done.
Qed.

End Hole.

(** ** mmap.c *)
Module Mmap.

(** The system and what [stdout] was given. *)
Record st := St { io : os; printed : list byte }.

Definition on_io {A} : M os A -> M st A := on io (fun s w => St s (printed w)).

(** [fstat]: the size of an open file. *)
Definition sys_fstat (fd : Z) : M os (option nat) :=
  a ← next_ans;
  w ← get;
  match a, lookup_fd fd w with
  | AErr e, _ => fail_with (Zpos e) None
  | _, None => fail_with EBADF None
  | _, Some (_, d) => mret (Some (length (default [] (fs w !! of_path d))))
  end.

(** [mmap] of [len] bytes from the start of a file, to be read; a length of zero
    is an error (EINVAL). *)
Definition sys_mmap (len : nat) (fd : Z) : M os (option (list byte)) :=
  a ← next_ans;
  w ← get;
  match a, lookup_fd fd w with
  | AErr e, _ => fail_with (Zpos e) None
  | _, None => fail_with EBADF None
  | _, Some (_, d) =>
      if decide (len = 0)%nat then fail_with 22 None
      else mret (Some (take len (default [] (fs w !! of_path d))))
  end.

(** Without an argument [open] is given a null pointer and fails. *)
Definition main (argv : list string) : M st Z :=
  match argv !! 1%nat with
  | None => exit_ 1
  | Some name =>
      fd ← on_io (sys_open name O_RDONLY);
      if fd <? 0 then exit_ 1 else
      size ← on_io (sys_fstat fd);
      match size with
      | None => exit_ 1
      | Some st_size =>
          s ← on_io (sys_mmap st_size fd);
          match s with
          | None => exit_ 1
          | Some s =>
              for_ st_size 0 (fun i =>
                c ← unwrap OutOfBounds (s !! i);
                modify (fun w => St (io w) (printed w ++ [c]))) ;;
              on_io (sys_close fd) ;;
              mret 0
          end
      end
  end.

Lemma wp_put_mapped (s : list byte) (Q : unit -> st -> Prop) E w :
  Q tt (St (io w) (printed w ++ s)) ->
  wp (for_ (length s) 0 (fun i => c ← unwrap OutOfBounds (s !! i); modify (fun w => St (io w) (printed w ++ [c])))) Q E w.
Proof.
  intros HQ. eapply wp_mono; [|done|apply (wp_for (fun i w1 => w1 = St (io w) (printed w ++ take i s)))].
  - intros [] w' ->. by rewrite Nat.add_0_l, firstn_all.
  - intros j w' Hj ->. destruct (lookup_lt_is_Some_2 s j) as [b Hb]; [lia|].
    apply wp_bind, (wp_unwrap _ _ b); [done|]. apply wp_modify. cbn. by rewrite (take_S_r _ _ b), (assoc_L (++)).
  - rewrite app_nil_r. by destruct w.
Qed.

(** mmap.c prints a file exactly, unless the file is empty: a mapping of no bytes
    is refused. *)
Lemma mmap_prints prog name rest c w :
  fs (io w) !! name = Some c -> no_err (orc (io w)) ->
  wp (main (prog :: name :: rest))
     (fun r w' => r = 0 /\ c <> [] /\ printed w' = printed w ++ c)
     (fun code w' => code = 1 /\ c = [] /\ printed w' = printed w) w.
Proof.
  intros Hc Hno. unfold main. cbn [lookup list_lookup]. apply wp_bind. unfold on_io. apply wp_on, wp_open; [|congruence|].
  { intros e o Ho. exfalso. rewrite Ho in Hno. by eapply (no_err_head e o), Hno. }
  intros o fd Ho Hnew _. rewrite of_nat_ltb_0. set (i := length (ofds (io w))).
  set (w1 := opened name O_RDONLY fd (with_orc o (io w))).
  assert (Hl : forall w', fdt w' = fdt w1 -> ofds w' = ofds w1 ->
    lookup_fd (Z.of_nat fd) w' = Some (i, Ofd name 0 true false)).
  { intros w' H1 H2. apply lookup_fd_Some; rewrite ?H1, ?H2; cbn;
      [by rewrite lookup_insert_eq|by rewrite lookup_app_r, Nat.sub_diag]. }
  assert (Hna : forall (Q : sysans -> os -> Prop) E w', no_err (orc w') ->
    (forall a o', (forall e, a <> AErr e) -> no_err o' -> Q a (with_orc o' w')) -> wp next_ans Q E w').
  { intros Q E w' Hn HQ. apply wp_next_ans. intros a o' Ho' Ha _. apply HQ; [|by eapply no_err_suffix].
    intros e ->. rewrite (Ha e eq_refl) in Hn. by eapply (no_err_head e o'), Hn. }
  apply wp_bind, wp_on. unfold sys_fstat. wp_steps. cbn [io]. apply Hna; [by eapply no_err_suffix|].
  intros a o1 Ha Ho1. wp_steps. rewrite Hl by done. destruct a as [| |e]; [| |by destruct (Ha e)]; wp_steps.
  all: cbn [io]; unfold sys_mmap; wp_steps; apply Hna; [done|]; intros a2 o2 Ha2 Ho2; wp_steps; rewrite Hl by done.
  all: destruct a2 as [| |e2]; [| |by destruct (Ha2 e2)].
  all: cbn [of_path fs w1 opened with_orc]; rewrite lookup_insert_eq;
    change (has_flag O_RDONLY O_TRUNC) with false; cbn iota; rewrite Hc; cbn [default from_option id].
  all: destruct (decide (length c = 0)%nat) as [Hz|Hz]; [apply wp_fail_with; wp_steps; by apply nil_length_inv in Hz|].
  all: wp_steps; rewrite firstn_all; apply wp_put_mapped; wp_steps; apply wp_close_any; intros r w' _ _; wp_steps;
    split_and!; [done| |done]; by intros ->.
Qed.

End Mmap.
