(* ===== verification/Du.v ===== *)
(** * Du: disk usage, src/fs/du.c

    The file system is a tree; a path is resolved component by component from
    the current directory ([..] and symbolic links are not modelled; [lstat]
    does not follow links).  The program computes the usage of a tree in two
    ways, with [readdir] and with [glob]; both are shown to be the sum over the
    tree, so they agree. *)

From S2P Require Import Prelude Prog.

Notation name := (list byte) (only parsing).

(** Allocated blocks of 512 bytes; whether the directory can be read; entries. *)
Inductive node :=
| File (blocks : Z)
| Dir (blocks : Z) (readable : bool) (entries : list (name * node)).

Definition st_blocks (t : node) : Z := match t with File b | Dir b _ _ => b end.

Definition slash : byte := x2f.
Definition dot : byte := x2e.

(** ** Paths *)

(** The components of a path. *)
Fixpoint split_path (cur : name) (p : name) : list name :=
  match p with
  | [] => [cur]
  | c :: p' => if decide (c = slash) then cur :: split_path [] p' else split_path (cur ++ [c]) p'
  end.

Fixpoint child (n : name) (es : list (name * node)) : option node :=
  match es with
  | [] => None
  | (m, c) :: es' => if decide (m = n) then Some c else child n es'
  end.

Fixpoint walk (t : node) (cs : list name) : option node :=
  match cs with
  | [] => Some t
  | c :: cs' =>
      match t with
      | File _ => None
      | Dir _ _ es => if decide (c = [] \/ c = [dot]) then walk t cs' else c ← child c es; walk c cs'
      end
  end.

Definition resolve (root : node) (p : name) : option node := walk root (split_path [] p).

(** ** C strings *)

(** [str_ends_with]: compare the last [length suffix] characters, from the end. *)
Definition str_ends_with (src suffix : name) : bool :=
  if decide (length src < length suffix)%nat then false else
  forallb (fun i => bool_decide (src !! (length src - 1 - i)%nat = suffix !! (length suffix - 1 - i)%nat))
          (seq 0 (length suffix)).

(** [strcmp(n, ".") == 0 || strcmp(n, "..") == 0] *)
Definition is_special (n : name) : bool := bool_decide (n = [dot]) || bool_decide (n = [dot; dot]).

Definition join (path sub : name) : name := path ++ slash :: sub.

(** ** System calls *)

Definition lstat (p : name) : M node (option node) := gets (fun root => resolve root p).

(** What [readdir] yields: the special entries, then the others.  [None]: the
    directory cannot be opened. *)
Definition list_dir (p : name) : M node (option (list name)) :=
  gets (fun root => match resolve root p with
                    | Some (Dir _ true es) => Some ([dot] :: [dot; dot] :: map fst es)
                    | _ => None
                    end).

Definition hidden (n : name) : bool := match n with c :: _ => bool_decide (c = dot) | [] => false end.

(** Characters with a meaning to [glob]. *)
Definition meta : list byte := [x2a; x3f; x5b; x5c].
Definition no_meta (p : name) : bool := forallb (fun c => negb (bool_decide (c ∈ meta))) p.

Section du.
(** [glob] sorts what it finds; for a directory whose path has characters with a
    special meaning it finds [other]. *)
Context (sorted : list name -> list name) (other : name -> list name).

(** [glob(path ^ "/*")] and [glob(path ^ "/.*")]: the children of [path] that are
    not hidden, and the hidden ones with the special entries; nothing when the
    directory cannot be read. *)
Definition glob_children (dots : bool) (p : name) : M node (list name) :=
  if no_meta p then
    es ← list_dir p;
    match es with
    | None => mret []
    | Some ns => mret (sorted (map (join p) (filter (fun n => hidden n = dots) ns)))
    end
  else mret (other (p ++ (if dots then [slash; dot; x2a] else [slash; x2a]))).

(** ** The program *)

(** [r += st.st_blocks * 512]: the product is a signed [long], the sum a
    [uint64_t]. *)
Definition add_blocks (r : Z) (t : node) : M node Z :=
  if st_blocks t * 512 <? 2 ^ 63 then mret (wrap_u64 (r + st_blocks t * 512)) else fail SignedOverflow.

Fixpoint du_by_glob (fuel : nat) (path : name) : M node Z :=
  match fuel with
  | O => fun w => OutOfFuel w
  | S fuel' =>
      st ← lstat path;
      match st with
      | None => exit_ 1
      | Some t =>
          r ← add_blocks 0 t;
          match t with
          | File _ => mret r
          | Dir _ _ _ =>
              g1 ← glob_children false path;
              g2 ← glob_children true path;
              (fix loop (ps : list name) (r : Z) : M node Z :=
                 match ps with
                 | [] => mret r
                 | p :: ps' =>
                     if str_ends_with p [slash; dot] || str_ends_with p [slash; dot; dot]
                     then loop ps' r
                     else x ← du_by_glob fuel' p; loop ps' (wrap_u64 (r + x))
                 end) (g1 ++ g2) r
          end
      end
  end.

Fixpoint du (fuel : nat) (path : name) : M node Z :=
  match fuel with
  | O => fun w => OutOfFuel w
  | S fuel' =>
      st ← lstat path;
      match st with
      | None => exit_ 1
      | Some t =>
          r ← add_blocks 0 t;
          match t with
          | File _ => mret r
          | Dir _ _ _ =>
              dir ← list_dir path;
              match dir with
              | None => exit_ 1
              | Some ns =>
                  (fix loop (ns : list name) (r : Z) : M node Z :=
                     match ns with
                     | [] => mret r
                     | n :: ns' =>
                         if is_special n then loop ns' r
                         else x ← du fuel' (join path n); loop ns' (wrap_u64 (r + x))
                     end) ns r
              end
          end
      end
  end.

(** [getenv("DU_BY_GLOB") != NULL && strcmp(getenv("DU_BY_GLOB"), "1")] *)
Definition by_glob (env : option name) : bool :=
  match env with None => false | Some v => bool_decide (v <> bytes "1") end.

(** The nearest [double] to an integer, an integer again: 53 significant bits,
    ties to even. *)
Definition double_of (n : Z) : Z :=
  if n <? 2 ^ 53 then n else
  let e := Z.log2 n - 52 in
  let q := Z.shiftr n e in
  let r := n - Z.shiftl q e in
  let h := 2 ^ (e - 1) in
  Z.shiftl (if (h <? r) || ((r =? h) && Z.odd q) then q + 1 else q) e.

(** [while(d > 1000) { d = d / 1024.0; unit++; }]: dividing by a power of two is
    exact, so [d] is [n / 1024^unit]. *)
Fixpoint unit_loop (fuel : nat) (n : Z) (unit : nat) : option nat :=
  match fuel with
  | O => None
  | S f => if n >? 1000 * 1024 ^ Z.of_nat unit then unit_loop f n (S unit) else Some unit
  end.

Definition units : list byte := bytes "bkmg" ++ [x00].

(** What [main] prints: the number [n], to be divided by [1024^unit], and the
    unit's letter, [units[unit]]. *)
Record output := Output { o_num : Z; o_unit : nat; o_char : byte }.

Definition main (fuel : nat) (env : option name) (argv : list name) : M node output :=
  if decide (length argv < 2)%nat then exit_ 1 else
  let path := nth 1 argv [] in
  n ← (if by_glob env then du_by_glob fuel path else du fuel path);
  let d := double_of n in
  u ← (fun w => match unit_loop 10 d 0 with Some u => Ok u w | None => OutOfFuel w end);
  c ← unwrap OutOfBounds (units !! u);
  mret (Output d u c).
End du.

(** ** The sum over a tree *)

Fixpoint total (t : node) : Z :=
  match t with
  | File b => b * 512
  | Dir b _ es => b * 512 + foldr (fun e acc => total e.2 + acc) 0 es
  end.

Fixpoint depth (t : node) : nat :=
  match t with
  | File _ => 0
  | Dir _ _ es => S (foldr (fun e acc => Nat.max (depth e.2) acc) 0%nat es)
  end.

(** A name a directory entry may have. *)
Definition name_ok (n : name) : Prop := n <> [] /\ slash ∉ n /\ n <> [dot] /\ n <> [dot; dot].

(** Every directory can be read, its entries have proper and distinct names, and
    the sizes fit. *)
Fixpoint good (t : node) : Prop :=
  0 <= st_blocks t < 2 ^ 54 /\
  match t with
  | File _ => True
  | Dir _ r es => r = true /\ NoDup (map fst es) /\ Forall name_ok (map fst es) /\
                  foldr (fun e acc => good e.2 /\ acc) True es
  end.

(** No name has a character with a meaning to [glob]. *)
Fixpoint plain (t : node) : Prop :=
  match t with
  | File _ => True
  | Dir _ _ es => foldr (fun e acc => no_meta e.1 = true /\ plain e.2 /\ acc) True es
  end.

Section paths.
Implicit Types (p n : name) (t c : node).

Lemma split_path_noslash cur n : slash ∉ n -> split_path cur n = [cur ++ n].
Proof.
  revert cur. induction n as [|c n IH]; intros cur Hn; simpl; [by rewrite app_nil_r|].
  apply not_elem_of_cons in Hn as [Hc Hn]. rewrite decide_False by congruence.
  rewrite IH by done. by rewrite <-app_assoc.
Qed.

Lemma split_path_join cur p n : slash ∉ n -> split_path cur (join p n) = split_path cur p ++ [n].
Proof.
  intros Hn. unfold join. revert cur. induction p as [|c p IH]; intros cur; simpl.
  - by rewrite split_path_noslash.
  - case_decide; [simpl; f_equal; apply IH|apply IH].
Qed.

Lemma walk_app t cs cs' : walk t (cs ++ cs') = c ← walk t cs; walk c cs'.
Proof.
  revert t. induction cs as [|n cs IH]; intros t; [done|]. simpl. destruct t as [b|b r es]; [done|].
  case_decide; [apply IH|]. destruct (child n es) as [c|]; [|done]. simpl. apply IH.
Qed.

Lemma child_In n c es : NoDup (map fst es) -> (n, c) ∈ es -> child n es = Some c.
Proof.
  induction es as [|[m d] es IH]; intros Hnd Hin; [by apply elem_of_nil in Hin|].
  cbn [map] in Hnd. apply NoDup_cons in Hnd as [Hm Hnd]. simpl.
  apply elem_of_cons in Hin as [[= -> ->]|Hin]; [by rewrite decide_True|].
  rewrite decide_False; [by apply IH|]. intros ->. apply Hm. simpl.
  change n with (fst (n, c)). by apply list_elem_of_fmap_2.
Qed.

(** The path built for an entry names that entry. *)
Lemma resolve_join root p b r es n c :
  resolve root p = Some (Dir b r es) -> NoDup (map fst es) -> name_ok n -> (n, c) ∈ es ->
  resolve root (join p n) = Some c.
Proof.
  intros Hp Hnd (Hne & Hsl & Hd & _) Hin. unfold resolve in *.
  rewrite split_path_join, walk_app, Hp by done. simpl.
  rewrite decide_False by (intros [?|?]; done). by rewrite (child_In n c).
Qed.

(** [str_ends_with] decides whether a string is a suffix. *)
Lemma str_ends_with_spec (s suf : name) : str_ends_with s suf = bool_decide (suf `suffix_of` s).
Proof.
  unfold str_ends_with. case_decide as Hlen.
  { symmetry. apply bool_decide_false. intros H%suffix_length. lia. }
  destruct (forallb _ _) eqn:E; symmetry; [apply bool_decide_true|apply bool_decide_false].
  - rewrite forallb_forall in E. exists (take (length s - length suf) s).
    rewrite <-(take_drop (length s - length suf) s) at 1. f_equal. apply list_eq_same_length with (length suf).
    + done.
    + rewrite length_drop. lia.
    + intros i x y Hi Hx Hy. rewrite lookup_drop in Hx.
      specialize (E (length suf - 1 - i)%nat). rewrite bool_decide_eq_true in E.
      replace (length s - 1 - (length suf - 1 - i))%nat with (length s - length suf + i)%nat in E by lia.
      replace (length suf - 1 - (length suf - 1 - i))%nat with i in E by lia.
      assert (Some x = Some y); [|congruence]. rewrite <-Hx, <-Hy. apply E, in_seq. lia.
  - intros [pre ->]. apply not_true_iff_false in E. apply E, forallb_forall. intros i Hi%in_seq.
    apply bool_decide_eq_true. rewrite length_app, lookup_app_r by lia. f_equal. lia.
Qed.

(** The special entries are recognised by the end of their path. *)
Lemma ends_special p n :
  slash ∉ n -> n <> [] ->
  str_ends_with (join p n) [slash; dot] || str_ends_with (join p n) [slash; dot; dot] =
  is_special n.
Proof.
  intros Hn Hne. unfold is_special. rewrite !str_ends_with_spec, <-!bool_decide_or. apply bool_decide_ext.
  assert (H : forall m, slash ∉ m -> (slash :: m) `suffix_of` join p n <-> n = m).
  { intros m Hm. unfold join. split; [|intros ->; by exists p]. intros [pre Heq].
    revert p Heq. induction pre as [|c pre IH]; intros [|d p] Heq; simplify_eq/=.
    - done.
    - exfalso. apply Hm. rewrite elem_of_app. right. left.
    - exfalso. apply Hn. rewrite elem_of_app. right. left.
    - by eapply IH. }
  rewrite (H [dot]), (H [dot; dot]); [done|..]; intros Hs; set_solver.
Qed.
End paths.

(** ** Both programs compute the sum *)

Section sums.
Implicit Types (t c : node) (es : list (name * node)).

Lemma good_blocks t : good t -> 0 <= st_blocks t < 2 ^ 54.
Proof. by destruct t; intros [? ?]. Qed.

Lemma good_child es n c : foldr (fun e acc => good e.2 /\ acc) True es -> (n, c) ∈ es -> good c.
Proof.
  induction es as [|e es IH]; intros Hg Hin; [by apply elem_of_nil in Hin|]. destruct Hg as [? ?].
  apply elem_of_cons in Hin as [<-|Hin]; [done|by apply IH].
Qed.

Lemma plain_child es n c :
  foldr (fun e acc => no_meta e.1 = true /\ plain e.2 /\ acc) True es -> (n, c) ∈ es ->
  no_meta n = true /\ plain c.
Proof.
  induction es as [|e es IH]; intros Hg Hin; [by apply elem_of_nil in Hin|]. destruct Hg as (? & ? & ?).
  apply elem_of_cons in Hin as [<-|Hin]; [done|by apply IH].
Qed.

Lemma depth_child es n c :
  (n, c) ∈ es -> (depth c <= foldr (fun e acc => Nat.max (depth e.2) acc) 0%nat es)%nat.
Proof.
  induction es as [|e es IH]; intros Hin; [by apply elem_of_nil in Hin|]. simpl.
  apply elem_of_cons in Hin as [<-|Hin]; [simpl; lia|]. specialize (IH Hin). lia.
Qed.

Lemma add_blocks_ok t root : good t -> add_blocks 0 t root = Ok (wrap_u64 (st_blocks t * 512)) root.
Proof.
  intros Hb%good_blocks. unfold add_blocks. destruct (Z.ltb_spec (st_blocks t * 512) (2 ^ 63)); [done|lia].
Qed.

Lemma wrap_u64_add a b : wrap_u64 (wrap_u64 a + wrap_u64 b) = wrap_u64 (a + b).
Proof. unfold wrap_u64. by rewrite <-Zplus_mod. Qed.

(** The accumulating loop of both programs, over anything: [skip] says which
    items are left out, [val] what the recursive call yields. *)
Lemma sum_loop {B} (body : B -> M node Z) (skip : B -> bool) (val : B -> Z) root l r :
  (forall x, x ∈ l -> skip x = false -> body x root = Ok (wrap_u64 (val x)) root) ->
  (fix loop (ps : list B) (r : Z) : M node Z :=
     match ps with
     | [] => mret r
     | p :: ps' => if skip p then loop ps' r else x ← body p; loop ps' (wrap_u64 (r + x))
     end) l (wrap_u64 r) root =
  Ok (wrap_u64 (r + foldr (fun x acc => (if skip x then 0 else val x) + acc) 0 l)) root.
Proof.
  revert r. induction l as [|x l IH]; intros r Hb; simpl; [by rewrite Z.add_0_r|].
  assert (Hl : forall y, y ∈ l -> skip y = false -> body y root = Ok (wrap_u64 (val y)) root)
    by (intros y Hy; apply Hb; by right).
  destruct (skip x) eqn:Ex; [by rewrite IH|].
  unfold mbind, M_bind. rewrite (Hb x); [|left|done]. rewrite wrap_u64_add, IH by done.
  do 2 f_equal. lia.
Qed.

Lemma name_ok_special (n : name) : name_ok n -> is_special n = false.
Proof. intros (_ & _ & ? & ?). unfold is_special. by rewrite !bool_decide_false. Qed.

(** What an entry adds to the sum: nothing for the special ones. *)
Definition entry_val (root : node) (p : name) : Z :=
  match resolve root p with Some c => total c | None => 0 end.

Lemma foldr_entries root path b r es :
  resolve root path = Some (Dir b r es) -> NoDup (map fst es) -> Forall name_ok (map fst es) ->
  forall es', (forall e, e ∈ es' -> e ∈ es) ->
  foldr (fun n acc => (if is_special n then 0
                       else entry_val root (join path n)) + acc) 0 (map fst es') =
  foldr (fun e acc => total e.2 + acc) 0 es'.
Proof.
  intros Hp Hnd Hok. induction es' as [|[n c] es' IH]; intros Hsub; [done|]. simpl.
  assert (Hin : (n, c) ∈ es) by (apply Hsub; left).
  assert (Hn : name_ok n) by (eapply Forall_forall in Hok; [done|]; change n with (fst (n, c)); by apply list_elem_of_fmap_2).
  rewrite (name_ok_special n Hn).
  unfold entry_val at 1. erewrite resolve_join by done. simpl. f_equal. apply IH. intros e He. apply Hsub. by right.
Qed.

(** [du] of a good tree is the sum of its blocks. *)
Lemma du_ok root fuel path t :
  resolve root path = Some t -> good t -> (depth t < fuel)%nat ->
  du fuel path root = Ok (wrap_u64 (total t)) root.
Proof.
  revert path t. induction fuel as [|fuel IH]; intros path t Hp Hg Hd; [lia|].
  cbn [du]. unfold lstat, gets. unfold mbind at 1, M_bind at 1. rewrite Hp.
  unfold mbind at 1, M_bind at 1. rewrite add_blocks_ok by done.
  destruct t as [b|b rd es]; [done|]. destruct Hg as (Hb & -> & Hnd & Hok & Hg).
  unfold mbind at 1, M_bind at 1, list_dir at 1, gets at 1. rewrite Hp.
  change (is_special [dot]) with true. change (is_special [dot; dot]) with true. cbn iota.
  rewrite (sum_loop (fun n => du fuel (join path n)) is_special (fun n => entry_val root (join path n))).
  - by rewrite (foldr_entries root path b true es Hp Hnd Hok es).
  - intros n Hn _.
    apply list_elem_of_fmap in Hn as ([m c] & -> & Hin). simpl.
    assert (Hm : name_ok m) by (eapply Forall_forall in Hok; [done|]; change m with (fst (m, c)); by apply list_elem_of_fmap_2).
    pose proof (resolve_join root path b true es m c Hp Hnd Hm Hin) as Hr.
    unfold entry_val. rewrite Hr. apply IH; [done|by eapply good_child|].
    pose proof (depth_child es m c Hin). simpl in Hd. lia.
Qed.
End sums.

Section glob.
Context (sorted : list name -> list name) (other : name -> list name).
(** Sorting loses and adds nothing. *)
Hypothesis sorted_perm : forall l, sorted l ≡ₚ l.

Lemma foldr_sum_perm {B} (f : B -> Z) l k :
  l ≡ₚ k -> foldr (fun x acc => f x + acc) 0 l = foldr (fun x acc => f x + acc) 0 k.
Proof. induction 1; simpl; lia. Qed.

Lemma filter_split {B} (q : B -> bool) l :
  filter (fun x => q x = false) l ++ filter (fun x => q x = true) l ≡ₚ l.
Proof.
  induction l as [|x l IH]; [done|]. rewrite !filter_cons. destruct (q x); simpl.
  - rewrite <-Permutation_middle. by constructor.
  - by constructor.
Qed.

Lemma no_meta_join path n : no_meta path = true -> no_meta n = true -> no_meta (join path n) = true.
Proof.
  intros Hp Hn. unfold no_meta, join in *. rewrite forallb_app. cbn [forallb]. by rewrite Hp, Hn.
Qed.

Lemma foldr_map {B C} (f : B -> C) (v : C -> Z) l :
  foldr (fun x acc => v x + acc) 0 (map f l) = foldr (fun x acc => v (f x) + acc) 0 l.
Proof. induction l; simpl; congruence. Qed.

Lemma foldr_ext_in {B} (f g : B -> Z) l :
  (forall x, x ∈ l -> f x = g x) ->
  foldr (fun x acc => f x + acc) 0 l = foldr (fun x acc => g x + acc) 0 l.
Proof.
  induction l as [|x l IH]; intros H; simpl; [done|]. rewrite (H x) by left. f_equal. apply IH.
  intros y ?. apply H. by right.
Qed.

(** The two calls of [glob] find the entries, the special ones included. *)
Lemma glob_both root path b es :
  resolve root path = Some (Dir b true es) -> no_meta path = true ->
  exists g1 g2, glob_children sorted other false path root = Ok g1 root /\
    glob_children sorted other true path root = Ok g2 root /\
    g1 ++ g2 ≡ₚ map (join path) ([dot] :: [dot; dot] :: map fst es).
Proof.
  intros Hp Hm. unfold glob_children. rewrite Hm. unfold mbind, M_bind, list_dir, gets. rewrite Hp.
  do 2 eexists. split; [reflexivity|]. split; [reflexivity|].
  rewrite !sorted_perm, <-map_app. apply Permutation_map. apply (filter_split hidden).
Qed.

Lemma du_by_glob_ok root fuel path t :
  resolve root path = Some t -> good t -> plain t -> no_meta path = true -> (depth t < fuel)%nat ->
  du_by_glob sorted other fuel path root = Ok (wrap_u64 (total t)) root.
Proof.
  revert path t. induction fuel as [|fuel IH]; intros path t Hp Hg Hpl Hm Hd; [lia|].
  cbn [du_by_glob]. unfold lstat, gets. unfold mbind at 1, M_bind at 1. rewrite Hp.
  unfold mbind at 1, M_bind at 1. rewrite add_blocks_ok by done.
  destruct t as [b|b rd es]; [done|]. destruct Hg as (Hb & -> & Hnd & Hok & Hg).
  destruct (glob_both root path b es Hp Hm) as (g1 & g2 & E1 & E2 & Hperm).
  unfold mbind at 1, M_bind at 1. rewrite E1. unfold mbind at 1, M_bind at 1. rewrite E2.
  assert (Hskip : forall n, n ∈ [dot] :: [dot; dot] :: map fst es ->
    str_ends_with (join path n) [slash; dot] || str_ends_with (join path n) [slash; dot; dot] = is_special n).
  { intros n Hn. apply ends_special; repeat (apply elem_of_cons in Hn as [->|Hn]; [set_solver|]);
      eapply Forall_forall in Hok; try done; by destruct Hok as (? & ? & ?). }
  rewrite (sum_loop (du_by_glob sorted other fuel)
    (fun p => str_ends_with p [slash; dot] || str_ends_with p [slash; dot; dot]) (entry_val root)).
  - rewrite (foldr_sum_perm _ _ _ Hperm), foldr_map.
    rewrite (foldr_ext_in _ (fun n => if is_special n then 0 else entry_val root (join path n)))
      by (intros n Hn; by rewrite Hskip).
    cbn [foldr]. change (is_special [dot]) with true. change (is_special [dot; dot]) with true.
    rewrite !Z.add_0_l. by rewrite (foldr_entries root path b true es Hp Hnd Hok es).
  - intros p Hin Hs. rewrite Hperm in Hin. apply list_elem_of_fmap in Hin as (n & -> & Hn).
    rewrite (Hskip n Hn) in Hs.
    do 2 (apply elem_of_cons in Hn as [->|Hn]; [done|]).
    apply list_elem_of_fmap in Hn as ([m c] & -> & Hin). simpl in *.
    assert (Hok' : name_ok m) by (eapply Forall_forall in Hok; [done|]; change m with (fst (m, c)); by apply list_elem_of_fmap_2).
    pose proof (resolve_join root path b true es m c Hp Hnd Hok' Hin) as Hr.
    destruct (plain_child es m c Hpl Hin). unfold entry_val. rewrite Hr.
    apply IH; [done|by eapply good_child|done|by apply no_meta_join|].
    pose proof (depth_child es m c Hin). lia.
Qed.

(** C9: The two ways of computing the usage.  For every tree whose directories can
    be read, [du] returns the sum of the blocks of all its nodes, each counted
    once, in bytes modulo 2^64; recursion deeper than the tree is never needed.
    [du_by_glob] returns the same if no name in the tree and no part of its path
    has one of the characters [*], [?], [[] and backslash, which mean something to
    [glob]; for a directory whose path has one, so that the patterns made of it
    find nothing (such as [a[b]], which stands for [ab]), it returns the blocks of
    the directory alone. *)
Theorem du_both_sum root fuel path t :
  resolve root path = Some t -> good t -> (depth t < fuel)%nat ->
  du fuel path root = Ok (wrap_u64 (total t)) root /\
  (plain t -> no_meta path = true -> du_by_glob sorted other fuel path root = Ok (wrap_u64 (total t)) root) /\
  (no_meta path = false -> other (path ++ [slash; x2a]) = [] -> other (path ++ [slash; dot; x2a]) = [] ->
   du_by_glob sorted other fuel path root = Ok (wrap_u64 (st_blocks t * 512)) root).
Proof.
  intros Hp Hg Hd. split_and!; [by apply du_ok|intros; by apply du_by_glob_ok|].
  intros Hm H1 H2. destruct fuel as [|fuel]; [lia|]. cbn [du_by_glob]. unfold lstat, gets.
  unfold mbind at 1, M_bind at 1. rewrite Hp. unfold mbind at 1, M_bind at 1. rewrite add_blocks_ok by done.
  destruct t as [b|b rd es]; [done|]. unfold glob_children. rewrite Hm, H1, H2. done.
Qed.
End glob.

(** ** The unit *)

(** The loop stops at the first unit in which the number is at most 1000. *)
Lemma unit_loop_spec f d u :
  (forall v, (v < u)%nat -> 1000 * 1024 ^ Z.of_nat v < d) ->
  d <= 1000 * 1024 ^ Z.of_nat (u + f) ->
  exists r, unit_loop (S f) d u = Some r /\ (r <= u + f)%nat /\ d <= 1000 * 1024 ^ Z.of_nat r /\
    forall v, (v < r)%nat -> 1000 * 1024 ^ Z.of_nat v < d.
Proof.
  revert u. induction f as [|f IH]; intros u Hlo Hhi; cbn [unit_loop];
    rewrite Z.gtb_ltb; destruct (Z.ltb_spec (1000 * 1024 ^ Z.of_nat u) d).
  - rewrite Nat.add_0_r in Hhi. lia.
  - exists u. split_and!; [done|lia|done|done].
  - destruct (IH (S u)) as (r & Hr & ? & ? & ?).
    + intros v Hv. destruct (decide (v = u)) as [->|]; [done|]. apply Hlo. lia.
    + by replace (S u + f)%nat with (u + S f)%nat by lia.
    + exists r. split_and!; [done|lia|done|done].
  - exists u. split_and!; [done|lia|done|done].
Qed.

Lemma double_of_le n : 0 <= n < 2 ^ 64 -> 0 <= double_of n <= 2 ^ 64.
Proof.
  intros Hn. unfold double_of. destruct (Z.ltb_spec n (2 ^ 53)); [lia|]. cbv zeta.
  assert (Hlog : 53 <= Z.log2 n < 64).
  { split; [apply Z.log2_le_pow2; lia|apply Z.log2_lt_pow2; lia]. }
  set (e := Z.log2 n - 52). set (q := Z.shiftr n e).
  assert (Hq : 0 <= q < 2 ^ 53).
  { unfold q. rewrite Z.shiftr_div_pow2 by lia. split; [apply Z.div_pos; lia|].
    apply Z.div_lt_upper_bound; [lia|]. rewrite <-Z.pow_add_r by lia.
    replace (e + 53) with (Z.succ (Z.log2 n)) by lia. apply Z.log2_spec. lia. }
  assert (Hpow : 2 ^ 53 * 2 ^ e <= 2 ^ 64).
  { rewrite <-Z.pow_add_r by lia. apply Z.pow_le_mono_r; lia. }
  rewrite Z.shiftl_mul_pow2 by lia. assert (0 < 2 ^ e) by (apply Z.pow_pos_nonneg; lia).
  destruct (_ || _); nia.
Qed.

Lemma pow1024_mono a b : (a <= b)%nat -> 1024 ^ Z.of_nat a <= 1024 ^ Z.of_nat b.
Proof. intros. apply Z.pow_le_mono_r; lia. Qed.

Section output.
Context (sorted : list name -> list name) (other : name -> list name).
Hypothesis sorted_perm : forall l, sorted l ≡ₚ l.

(** [main] up to the choice of the letter. *)
Lemma main_ok root fuel env prog path t :
  resolve root path = Some t -> good t -> plain t -> no_meta path = true -> (depth t < fuel)%nat ->
  let d := double_of (wrap_u64 (total t)) in
  exists u, main sorted other fuel env [prog; path] root =
      match units !! u with Some c => Ok (Output d u c) root | None => Fault OutOfBounds root end /\
    d <= 1000 * 1024 ^ Z.of_nat u /\ forall v, (v < u)%nat -> 1000 * 1024 ^ Z.of_nat v < d.
Proof.
  intros Hp Hg Hpl Hm Hd d.
  assert (Hbnd : 0 <= d <= 2 ^ 64) by (apply double_of_le; apply Z.mod_pos_bound; lia).
  destruct (unit_loop_spec 9 d 0) as (u & Hu & _ & Hle & Hlt); [intros; lia|simpl; lia|].
  exists u. split_and!; [|done|done]. unfold main. rewrite decide_False by (simpl; lia). cbn [nth].
  unfold mbind at 1, M_bind at 1.
  assert ((if by_glob env then du_by_glob sorted other fuel path else du fuel path) root =
          Ok (wrap_u64 (total t)) root) as ->.
  { destruct (by_glob env); [by apply du_by_glob_ok|by apply du_ok]. }
  cbv zeta. fold d. unfold mbind at 1, M_bind at 1. rewrite Hu. unfold mbind, M_bind.
  by destruct (units !! u).
Qed.

(** Whatever way it is computed, a usage of at most 1000 g (as a [double]) is
    printed with the smallest of the units b, k, m and g in which it is at most
    1000; above 1000 * 1024^4 bytes [units[unit]] is outside the array of units. *)
Theorem du_unit_bounds root fuel env prog path t :
  resolve root path = Some t -> good t -> plain t -> no_meta path = true -> (depth t < fuel)%nat ->
  let d := double_of (wrap_u64 (total t)) in
  (d <= 1000 * 1024 ^ 3 ->
     exists u c, main sorted other fuel env [prog; path] root = Ok (Output d u c) root /\
       bytes "bkmg" !! u = Some c /\ d <= 1000 * 1024 ^ Z.of_nat u /\
       forall v, (v < u)%nat -> 1000 * 1024 ^ Z.of_nat v < d) /\
  (1000 * 1024 ^ 4 < d -> main sorted other fuel env [prog; path] root = Fault OutOfBounds root).
Proof.
  intros Hp Hg Hpl Hm Hd d.
  destruct (main_ok root fuel env prog path t Hp Hg Hpl Hm Hd) as (u & Hrun & Hle & Hlt). fold d in Hrun, Hle, Hlt.
  split; intros Hb.
  - assert (u <= 3)%nat.
    { destruct (decide (u <= 3)%nat); [done|]. specialize (Hlt 3%nat ltac:(lia)). simpl in *. lia. }
    destruct (lookup_lt_is_Some_2 (bytes "bkmg") u) as [c Hc]; [simpl; lia|].
    exists u, c. split_and!; [|done..]. rewrite Hrun. unfold units. by rewrite (lookup_app_l_Some _ _ _ _ Hc).
  - assert (5 <= u)%nat.
    { destruct (decide (5 <= u)%nat); [done|]. pose proof (pow1024_mono u 4 ltac:(lia)). simpl in *. lia. }
    rewrite Hrun, lookup_ge_None_2; [done|]. simpl. lia.
Qed.
End output.

(** Setting [DU_BY_GLOB] to 1 selects [readdir]; anything else selects [glob]. *)
Example by_glob_inverted : by_glob (Some (bytes "1")) = false /\ by_glob (Some (bytes "0")) = true.
Proof. by vm_compute. Qed.

(** ** Witnesses *)

Definition demo_tree : node :=
  Dir 8 true [(bytes "a.txt", File 16); (bytes ".git", Dir 8 true [(bytes "config", File 8)]);
              (bytes "empty", Dir 8 true [])].

Definition demo_root : node := Dir 8 true [(bytes "d", demo_tree)].

Lemma demo_good : good demo_tree /\ plain demo_tree.
Proof.
  split; [|by vm_compute]. cbn. repeat split; try lia; repeat (apply NoDup_cons_2 || apply NoDup_nil_2);
    repeat constructor; try (intros Hx; set_solver); by vm_compute.
Qed.

Lemma du_both_sum_witness :
  du 5 (bytes "./d") demo_root = Ok 24576 demo_root /\
  du_by_glob (fun l => l) (fun _ => []) 5 (bytes "./d") demo_root = Ok 24576 demo_root.
Proof.
  destruct (du_both_sum (fun l => l) (fun _ => []) (fun l => Permutation_refl l) demo_root 5 (bytes "./d") demo_tree)
    as (H1 & H2 & _); [reflexivity|apply demo_good|vm_compute; lia|].
  split; [exact H1|apply H2; [apply demo_good|reflexivity]].
Defined.

(** A directory with brackets in its name: its file is not counted. *)
Example du_glob_brackets :
  let root := Dir 8 true [(bytes "a[b]", Dir 8 true [(bytes "big", File 1000)])] in
  du 5 (bytes "./a[b]") root = Ok 516096 root /\
  du_by_glob (fun l => l) (fun _ => []) 5 (bytes "./a[b]") root = Ok 4096 root.
Proof. by vm_compute. Qed.

Lemma du_unit_bounds_witness :
  let d := double_of (wrap_u64 (total demo_tree)) in
  (d <= 1000 * 1024 ^ 3 ->
     exists u c, main (fun l => l) (fun _ => []) 5 None [bytes "du"; bytes "d"] demo_root = Ok (Output d u c) demo_root /\
       bytes "bkmg" !! u = Some c /\ d <= 1000 * 1024 ^ Z.of_nat u /\
       forall v, (v < u)%nat -> 1000 * 1024 ^ Z.of_nat v < d) /\
  (1000 * 1024 ^ 4 < d ->
     main (fun l => l) (fun _ => []) 5 None [bytes "du"; bytes "d"] demo_root = Fault OutOfBounds demo_root).
Proof.
  apply (du_unit_bounds (fun l => l) (fun _ => []) (fun l => Permutation_refl l) demo_root 5 None
           (bytes "du") (bytes "d") demo_tree);
    [reflexivity|apply demo_good|apply demo_good|reflexivity|vm_compute; lia].
Defined.

(** A tree of more than 1000 t. *)
Example du_unit_overruns :
  main (fun l => l) (fun _ => []) 5 None [bytes "du"; bytes "d"] (Dir 0 true [(bytes "d", File (2 ^ 42))]) =
  Fault OutOfBounds (Dir 0 true [(bytes "d", File (2 ^ 42))]).
Proof. by vm_compute. Qed.
