(* ===== verification/HttpClient.v ===== *)
(** * HttpClient: the HTTP 1.0 client of src/socket/http_client.c

    [download] sends a GET request and saves what follows the header of the
    reply; [main] reads its options.  The network is a parameter: which calls
    succeed, and what the peer answers to a request before it closes the
    connection. *)

From S2P Require Import Prelude Prog Cstd Inet.

Definition CR : byte := x0d.
Definition LF : byte := x0a.

(** ** The state machine of [download] *)

Record dl := Dl { status : Z; body : bool; out : list byte }.

(** One round of the [fgetc] loop. *)
Definition dl_step (s : dl) (c : byte) : dl :=
  let st := status s in
  let st := if bool_decide (c = CR) && (st =? 0) then 1 else st in
  let st := if bool_decide (c = LF) && (st =? 1) then 2 else st in
  let st := if bool_decide (c = CR) && (st =? 2) then 3 else st in
  if bool_decide (c = LF) && (st =? 3) then Dl st true (out s) else
  let st := if negb (bool_decide (c = CR)) && negb (bool_decide (c = LF)) then 0 else st in
  Dl st (body s) (if body s then out s ++ [c] else out s).

Definition dl_run (s : dl) (l : list byte) : dl := foldl dl_step s l.

(** What is saved of a reply. *)
Definition saved (reply : list byte) : list byte := out (dl_run (Dl 0 false []) reply).

(** ** [download] *)

(** The system and the peer: which calls succeed, and the peer's answer to a request on a port. *)
Record network := Network {
  socket_ok : bool; connect_ok : bool; fdopen_ok : bool; fopen_ok : bool;
  reply : Z -> Z -> list byte -> list byte }.

(** The requests that were sent, with address and port, and the files. *)
Record cli := Cli { sent : list (Z * Z * list byte); files : gmap (list byte) (list byte) }.

Definition request (uri : list byte) : list byte :=
  bytes "GET " ++ uri ++ bytes " HTTP/1.0" ++ [CR; LF; CR; LF].

Section client.
Context (nw : network).

Definition download (host : list byte) (port : Z) (uri out_path : list byte) : M cli unit :=
  if negb (socket_ok nw) then exit_ 1 else
  let sin_port := wrap_u16 port in
  match pton_num host with
  | None => exit_ 1
  | Some addr =>
      if negb (connect_ok nw) then exit_ 1 else
      if negb (fdopen_ok nw) then exit_ 1 else
      modify (fun w => Cli (sent w ++ [(addr, sin_port, request uri)]) (files w)) ;;
      if negb (fopen_ok nw) then exit_ 1 else
      modify (fun w => Cli (sent w) (<[out_path := []]> (files w))) ;;
      modify (fun w => Cli (sent w)
                (<[out_path := saved (reply nw addr sin_port (request uri))]> (files w))) ;;
      exit_ 0
  end.

(** ** [main] *)

Record opts := Opts { host : option (list byte); port : option (list byte);
                      uri : option (list byte); file : option (list byte) }.

(** The [switch] of the option loop; [load_opt] copies the argument. *)
Definition set_opt (o : opts) (x : byte * list byte) : opts :=
  let '(ch, arg) := x in
  if bool_decide (ch = x68) then Opts (Some arg) (port o) (uri o) (file o) else
  if bool_decide (ch = x70) then Opts (host o) (Some arg) (uri o) (file o) else
  if bool_decide (ch = x75) then Opts (host o) (port o) (Some arg) (file o) else
  if bool_decide (ch = x6f) then Opts (host o) (port o) (uri o) (Some arg) else o.

Definition main (argv : list (list byte)) : M cli unit :=
  if decide (length argv = 1%nat) then exit_ 0 else
  let o := foldl set_opt (Opts None None None None) (getopt (bytes "h:p:u:o:") argv) in
  match host o, port o, uri o, file o with
  | Some h, Some p, Some u, Some f => download h (atoi p) u f ;; exit_ 0
  | _, _, _, _ => exit_ 1
  end.
End client.

(** ** Replies *)

(** A line of a header: not empty, without line ends. *)
Definition line_ok (l : list byte) : Prop := l <> [] /\ (CR ∉ l) /\ (LF ∉ l).

(** The header of some lines, with the empty line that ends it. *)
Definition header (ls : list (list byte)) : list byte :=
  concat (map (fun l => (l ++ [CR; LF])) ls) ++ [CR; LF].

(** A text byte, and a text that can follow a header unharmed: it starts with a
    byte that is no line end, and no line feed in it is followed by a carriage
    return. *)
Definition text (c : byte) : bool := negb (bool_decide (c = CR)) && negb (bool_decide (c = LF)).

Fixpoint no_lfcr (l : list byte) : bool :=
  match l with
  | [] => true
  | c :: l' => negb (bool_decide (c = LF) && bool_decide (head l' = Some CR)) && no_lfcr l'
  end.

(** ** What is saved *)

Lemma dl_run_app s l k : dl_run s (l ++ k) = dl_run (dl_run s l) k.
Proof. apply foldl_app. Qed.

(** A byte that is no line end. *)
Lemma dl_step_text s c :
  text c = true -> dl_step s c = Dl 0 (body s) (if body s then out s ++ [c] else out s).
Proof.
  unfold text, dl_step. intros [H1 H2]%andb_true_iff.
  apply negb_true_iff in H1, H2. rewrite H1, H2. done.
Qed.

Lemma text_not c (l : list byte) : CR ∉ l -> LF ∉ l -> c ∈ l -> text c = true.
Proof.
  intros H1 H2 Hc. unfold text. rewrite !bool_decide_false; [done|..]; by intros ->.
Qed.

(** A header line leaves the machine where two bytes of a line end lead. *)
Lemma dl_run_line st l : line_ok l -> dl_run (Dl st false []) (l ++ [CR; LF]) = Dl 2 false [].
Proof.
  intros (Hne & Hcr & Hlf). rewrite dl_run_app.
  assert (Hl : dl_run (Dl st false []) l = Dl 0 false []).
  { destruct l as [|c l]; [done|].
    assert (Hall : forall x, x ∈ c :: l -> text x = true) by (intros x Hx; by eapply text_not).
    cbn [dl_run foldl]. rewrite dl_step_text by (apply Hall; left). cbn [body out].
    assert (Hl' : forall x, x ∈ l -> text x = true) by (intros x Hx; apply Hall; by right).
    clear -Hl'. induction l as [|x l IH]; [done|]. cbn [foldl].
    rewrite dl_step_text by (apply Hl'; left). apply IH. intros y Hy. apply Hl'. by right. }
  by rewrite Hl.
Qed.

Lemma dl_run_header ls st : Forall line_ok ls -> ls <> [] ->
  dl_run (Dl st false []) (header ls) = Dl 3 true [].
Proof.
  intros Hok Hne. unfold header. rewrite dl_run_app.
  assert (H : dl_run (Dl st false []) (concat (map (fun l => (l ++ [CR; LF])) ls)) = Dl 2 false []).
  { destruct ls as [|l ls]; [done|]. apply Forall_cons in Hok as [Hl Hls].
    cbn [map concat]. rewrite dl_run_app, dl_run_line by done. clear -Hls.
    induction Hls as [|l ls Hl Hls IH]; [done|]. cbn [map concat]. by rewrite dl_run_app, dl_run_line. }
  by rewrite H.
Qed.

(** In the body a line end is dropped only in state 3, which is not reached
    without a line feed that is followed by a carriage return. *)
Lemma dl_run_body l st o :
  st = 0 \/ st = 1 \/ st = 2 -> no_lfcr l = true -> (st = 2 -> head l <> Some CR) ->
  out (dl_run (Dl st true o) l) = o ++ l.
Proof.
  revert st o. induction l as [|c l IH]; intros st o Hst Hno Hhd; cbn [dl_run foldl]; [by rewrite app_nil_r|].
  cbn [no_lfcr] in Hno. apply andb_true_iff in Hno as [Hc Hno].
  change (out (dl_run (dl_step (Dl st true o) c) l) = o ++ c :: l).
  assert (Hgo : forall st', st' = 0 \/ st' = 1 \/ st' = 2 -> (st' = 2 -> head l <> Some CR) ->
    dl_step (Dl st true o) c = Dl st' true (o ++ [c]) -> out (dl_run (dl_step (Dl st true o) c) l) = o ++ c :: l).
  { intros st' Hst' Hhd' ->. rewrite IH by done. by rewrite <-app_assoc. }
  destruct (decide (c = CR)) as [->|Hcr]; [|destruct (decide (c = LF)) as [->|Hlf]].
  - destruct Hst as [->|[->| ->]]; [apply (Hgo 1)|apply (Hgo 1)|by destruct (Hhd eq_refl)]; try done; lia.
  - assert (Hh : head l <> Some CR).
    { rewrite bool_decide_true in Hc by done. simpl in Hc. intros E. by rewrite bool_decide_true in Hc. }
    destruct Hst as [->|[->| ->]]; [apply (Hgo 0)|apply (Hgo 2)|apply (Hgo 2)]; try done; try lia; auto.
  - apply (Hgo 0); [lia|lia|]. apply dl_step_text. unfold text. by rewrite !bool_decide_false.
Qed.

Lemma saved_body ls b :
  Forall line_ok ls -> ls <> [] -> (forall c, head b = Some c -> text c = true) -> no_lfcr b = true ->
  saved (header ls ++ b) = b.
Proof.
  intros Hls Hne Hhd Hno. unfold saved. rewrite dl_run_app, dl_run_header by done.
  destruct b as [|c b]; [done|]. cbn [dl_run foldl]. rewrite dl_step_text by (by apply Hhd).
  cbn [no_lfcr] in Hno. apply andb_true_iff in Hno as [_ Hno].
  change (out (dl_run (Dl 0 true [c]) b) = [c] ++ b). apply dl_run_body; [lia|done|lia].
Qed.

(** ** Damage *)

Definition status_ok (s : dl) : Prop := status s = 0 \/ status s = 1 \/ status s = 2 \/ status s = 3.

Lemma dl_step_ok s c : status_ok s -> status_ok (dl_step s c).
Proof.
  unfold status_ok, dl_step. intros H. repeat case_bool_decide; simpl;
    destruct H as [H|[H|[H|H]]]; rewrite ?H; simpl; tauto.
Qed.

Lemma dl_run_ok s l : status_ok s -> status_ok (dl_run s l).
Proof. revert s. induction l as [|c l IH]; intros s H; [done|]. by apply IH, dl_step_ok. Qed.

Lemma dl_step_len s c : (length (out (dl_step s c)) <= length (out s) + 1)%nat.
Proof.
  unfold dl_step. repeat case_match; cbn [out]; rewrite ?length_app; simpl; lia.
Qed.

Lemma dl_run_len s l : (length (out (dl_run s l)) <= length (out s) + length l)%nat.
Proof.
  revert s. induction l as [|c l IH]; intros s; cbn [dl_run foldl]; [lia|].
  specialize (IH (dl_step s c)). pose proof (dl_step_len s c). unfold dl_run in *. simpl. lia.
Qed.

(** An empty line loses a byte. *)
Lemma dl_run_blank s :
  status_ok s -> (length (out (dl_run s [CR; LF; CR; LF])) <= length (out s) + 3)%nat.
Proof.
  destruct s as [st bd o]. unfold status_ok. cbn [status].
  intros [->|[->|[->| ->]]]; destruct bd; simpl; rewrite ?length_app; simpl; lia.
Qed.

(** A body that contains an empty line (CR LF CR LF) is damaged: whatever
    stands before and after it, the saved file is shorter than the body, since
    the test for the end of the header is made on the body too and drops a line
    feed. *)
Theorem http_blank_line_loses_byte ls pre post :
  Forall line_ok ls -> ls <> [] ->
  (length (saved (header ls ++ pre ++ [CR; LF; CR; LF] ++ post)) <
   length (pre ++ [CR; LF; CR; LF] ++ post))%nat.
Proof.
  intros Hls Hne. unfold saved. rewrite dl_run_app, dl_run_header, !dl_run_app by done.
  assert (H0 : status_ok (Dl 3 true [])) by (unfold status_ok; simpl; tauto).
  pose proof (dl_run_len (Dl 3 true []) pre) as H1. pose proof (dl_run_ok _ pre H0) as Hok.
  pose proof (dl_run_blank _ Hok) as H2.
  pose proof (dl_run_len (dl_run (dl_run (Dl 3 true []) pre) [CR; LF; CR; LF]) post) as H3.
  rewrite !length_app. simpl in *. lia.
Qed.

(** ** The whole program *)

(** C10: Called with a host, a port, a path and a file, the client sends exactly one
    GET request to that host and port and saves exactly the body of the reply,
    when every call succeeds, the reply has a proper header, and the body starts
    with no line end and contains no line feed followed by a carriage return. *)
Theorem http_saves_body nw prog h p u f addr ls b w :
  socket_ok nw = true -> connect_ok nw = true -> fdopen_ok nw = true -> fopen_ok nw = true ->
  pton_num h = Some addr -> 0 <= p < 2 ^ 16 ->
  reply nw addr p (request u) = header ls ++ b ->
  Forall line_ok ls -> ls <> [] -> (forall c, head b = Some c -> text c = true) -> no_lfcr b = true ->
  main nw [prog; bytes "-h"; h; bytes "-p"; dec p; bytes "-u"; u; bytes "-o"; f] w =
  Exit 0 (Cli (sent w ++ [(addr, p, request u)]) (<[f := b]> (files w))).
Proof.
  intros Hs Hc Hfd Hfo Hpton Hp Hrep Hls Hne Hhd Hno. unfold main. rewrite decide_False by done.
  change (foldl set_opt _ _) with (Opts (Some h) (Some (dec p)) (Some u) (Some f)).
  cbn [host port uri file]. rewrite <-(app_nil_r (dec p)), atoi_dec by (unfold INT_MAX; simpl; lia || done).
  unfold download. rewrite Hs, Hc, Hfd, Hfo, Hpton. cbn [negb].
  assert (wrap_u16 p = p) as Hwrap by (apply Z.mod_small; lia).
  unfold mbind, M_bind, modify, exit_. cbn [sent files]. rewrite Hwrap, Hrep, saved_body by done.
  by rewrite insert_insert_eq.
Qed.

(** ** Witnesses *)

Definition demo_lines : list (list byte) := [bytes "HTTP/1.0 200 OK"; bytes "Content-type: text/plain"].

Definition demo_network (b : list byte) : network :=
  {| socket_ok := true; connect_ok := true; fdopen_ok := true; fopen_ok := true;
     reply := fun _ _ _ => header demo_lines ++ b |}.

Lemma demo_lines_ok : Forall line_ok demo_lines.
Proof.
  assert (H : forall l : list byte, bool_decide (l <> []) && forallb text l = true -> line_ok l).
  { intros l [H1%bool_decide_eq_true H2]%andb_true_iff. rewrite forallb_forall in H2.
    split_and!; [done|..]; intros Hin; apply list_elem_of_In, H2 in Hin; done. }
  repeat constructor; apply H; reflexivity.
Qed.

Lemma http_saves_body_witness :
  main (demo_network (bytes "hello")) [bytes "http"; bytes "-h"; bytes "127.0.0.1"; bytes "-p"; dec 8080;
      bytes "-u"; bytes "/a.txt"; bytes "-o"; bytes "a.txt"] (Cli [] ∅) =
  Exit 0 (Cli ([] ++ [(2130706433, 8080, request (bytes "/a.txt"))]) (<[bytes "a.txt" := bytes "hello"]> ∅)).
Proof.
  apply (http_saves_body (demo_network (bytes "hello")) (bytes "http") (bytes "127.0.0.1") 8080 (bytes "/a.txt")
           (bytes "a.txt") 2130706433 demo_lines (bytes "hello") (Cli [] ∅));
    try reflexivity; try done; [apply demo_lines_ok|]. intros c [= <-]. reflexivity.
Defined.

Lemma http_blank_line_loses_byte_witness :
  (length (saved (header demo_lines ++ bytes "a" ++ [CR; LF; CR; LF] ++ bytes "b")) <
   length (bytes "a" ++ [CR; LF; CR; LF] ++ bytes "b"))%nat.
Proof. apply http_blank_line_loses_byte; [apply demo_lines_ok|done]. Defined.

(** A body that starts with a line feed loses it. *)
Example http_first_newline_lost : saved (header demo_lines ++ [LF; x61]) = [x61].
Proof. by vm_compute. Qed.
