(* ===== verification/SocketMsg.v ===== *)
(** * SocketMsg: the message programs of src/socket/socket_tcp.c and socket_udp.c

    A client sends the same message over and over, a server prints the messages
    it receives.  A message is a packed structure of a name of 16 bytes and two
    numbers in network byte order.  The memory of the structure is a list of
    bytes that may not have been written yet; reading such a byte is a fault.
    The two programs share the messages and differ in what they receive: a
    stream of bytes ([Tcp]) or datagrams ([Udp]). *)

From S2P Require Import Prelude Prog Posix Cstd Inet.

Definition NAME_SIZE : nat := 16.
Definition RECV_PORT : Z := 7077.

(** [sizeof(struct msg_st)] *)
Definition MSG_SIZE : nat := 24.

(** ** Messages *)

Record msg_st := Msg { name : list byte; math : Z; chinese : Z }.

(** The structure a client fills: [htonl] of both numbers, and a name with its
    zero byte; [junk] is what the rest of the array happened to hold. *)
Definition encode (junk : list byte) (m : msg_st) : list byte :=
  take NAME_SIZE (name m ++ x00 :: junk) ++ be32 (math m) ++ be32 (chinese m).

(** [%d] prints a 32-bit number as a signed one. *)
Definition to_int32 (z : Z) : Z := if z <? 2 ^ 31 then z else z - 2 ^ 32.

(** [%s] of [msg.name]: up to the zero byte, which must be in the array. *)
Fixpoint c_string {St} (l : list (option byte)) : M St (list byte) :=
  match l with
  | [] => fail OutOfBounds
  | None :: _ => fail UninitRead
  | Some b :: l' => if decide (b = x00) then mret [] else s ← c_string l'; mret (b :: s)
  end.

(** [ntohl] of the four bytes at [off]. *)
Definition field {St} (off : nat) (buf : list (option byte)) : M St Z :=
  l ← unwrap UninitRead (mapM id (take 4 (drop off buf)));
  mret (to_int32 (of_be32 l)).

(** What is printed of the structure [buf]. *)
Definition show {St} (buf : list (option byte)) : M St msg_st :=
  s ← c_string (take NAME_SIZE buf);
  m ← field 16 buf;
  c ← field 20 buf;
  mret (Msg s m c).

(** The new contents of a buffer of which the first bytes were overwritten. *)
Definition overwrite (buf : list (option byte)) (data : list byte) : list (option byte) :=
  map Some data ++ drop (length data) buf.

(** A structure that was never written. *)
Definition uninit : list (option byte) := replicate MSG_SIZE None.

(** ** The state of a program *)

(** A host is an address and a port; [strings] are in the text of a program. *)
Inductive ev :=
| EvUsage | EvServer | EvClient_ | EvTry
| EvPeer (ip port : Z)
| EvGroup (host iface : list byte)
| EvMsg (m : msg_st)
| EvClosed.

Record sock := Sock {
  s_orc : list sysans;                   (* the answers to the calls *)
  s_peer : Z * Z;                        (* who connects *)
  s_in : list byte;                      (* what the peer sends before it closes *)
  s_dgrams : list (Z * Z * list byte);   (* the datagrams that arrive, with sender *)
  s_sent : list byte;                    (* the stream that was sent *)
  s_out : list (Z * Z * list byte);      (* the datagrams that were sent *)
  s_log : list ev }.                     (* what was printed *)

Definition with_sorc o (w : sock) := Sock o (s_peer w) (s_in w) (s_dgrams w) (s_sent w) (s_out w) (s_log w).
Definition with_in i (w : sock) := Sock (s_orc w) (s_peer w) i (s_dgrams w) (s_sent w) (s_out w) (s_log w).
Definition with_dgrams d (w : sock) := Sock (s_orc w) (s_peer w) (s_in w) d (s_sent w) (s_out w) (s_log w).
Definition with_sent d (w : sock) := Sock (s_orc w) (s_peer w) (s_in w) (s_dgrams w) d (s_out w) (s_log w).
Definition with_out d (w : sock) := Sock (s_orc w) (s_peer w) (s_in w) (s_dgrams w) (s_sent w) d (s_log w).
Definition with_log d (w : sock) := Sock (s_orc w) (s_peer w) (s_in w) (s_dgrams w) (s_sent w) (s_out w) d.

Definition emit (e : ev) : M sock unit := modify (fun w => with_log (s_log w ++ [e]) w).

Definition ans : M sock sysans := fun w =>
  match s_orc w with
  | [] => Ok AFull w
  | a :: o => Ok a (with_sorc o w)
  end.

(** A call that only succeeds or fails: [true] is a result below zero. *)
Definition call : M sock bool :=
  a ← ans; mret (match a with AErr _ => true | _ => false end).

(** A call whose failure ends the program. *)
Definition must : M sock unit := e ← call; if (e : bool) then exit_ 1 else mret tt.

(** A call that never returns. *)
Definition block {A} : M sock A := fun w => OutOfFuel w.

Definition ANY : list byte := bytes "0.0.0.0".

Lemma ANY_ok : pton_num ANY <> None.
Proof. by vm_compute. Qed.

Definition is_none {A} (o : option A) : bool := match o with None => true | _ => false end.

(** What the clients send. *)
Definition sal : msg_st := Msg (bytes "sal") 100 100.

(** ** Messages survive the journey *)

(** A message that fits: the name with its zero byte, and the numbers. *)
Definition msg_ok (p : list byte * msg_st) : Prop :=
  length p.1 = NAME_SIZE /\ (x00 ∉ name p.2) /\ (length (name p.2) < NAME_SIZE)%nat /\
  0 <= math p.2 < 2 ^ 32 /\ 0 <= chinese p.2 < 2 ^ 32.

Definition enc (p : list byte * msg_st) : list byte := encode p.1 p.2.

(** What the receiver prints of a message. *)
Definition shown (p : list byte * msg_st) : msg_st :=
  Msg (name p.2) (to_int32 (math p.2)) (to_int32 (chinese p.2)).

Lemma sal_ok junk : length junk = NAME_SIZE -> msg_ok (junk, sal).
Proof.
  intros Hj. split_and!; cbn [fst snd sal math chinese]; [done| |unfold NAME_SIZE; simpl; lia|lia..].
  apply (bool_decide_unpack (x00 ∉ bytes "sal")). by vm_compute.
Qed.

Lemma length_be32 z : length (be32 z) = 4%nat.
Proof. done. Qed.

Lemma length_name p : msg_ok p -> length (take NAME_SIZE (name p.2 ++ x00 :: p.1)) = NAME_SIZE.
Proof. intros (Hj & _ & Hn & _). rewrite length_take, length_app. cbn [length]. unfold NAME_SIZE in *. lia. Qed.

Lemma length_enc p : msg_ok p -> length (enc p) = MSG_SIZE.
Proof. intros Hp. unfold enc, encode. by rewrite !length_app, length_name, !length_be32. Qed.

Lemma c_string_name {St} (s j : list byte) k rest (w : St) : x00 ∉ s -> (length s < k)%nat ->
  c_string (map Some (take k (s ++ x00 :: j)) ++ rest) w = Ok s w.
Proof.
  revert k. induction s as [|b s IH]; intros k Hz Hk; (destruct k as [|k]; [simpl in Hk; lia|]); [done|].
  apply not_elem_of_cons in Hz as [Hb Hz]. cbn [app take map c_string]. rewrite decide_False by congruence.
  unfold mbind, M_bind. rewrite IH; [done|done|simpl in Hk; lia].
Qed.

Lemma c_string_none {St} (l : list (option byte)) (w : St) : None ∈ l ->
  c_string l w = Fault UninitRead w \/ exists s, c_string l w = Ok s w.
Proof.
  induction l as [|[b|] l IH]; [by intros ?%not_elem_of_nil| |by left].
  intros [?|Hin]%elem_of_cons; [done|]. simpl. case_decide; [right; by eexists|].
  unfold mbind, M_bind. destruct (IH Hin) as [->|[s ->]]; [by left|right; by eexists].
Qed.

Lemma mapM_Some (l : list byte) : mapM id (map Some l) = Some l.
Proof. induction l as [|b l IH]; [done|]. simpl. by rewrite IH. Qed.

Lemma mapM_None (l : list (option byte)) : None ∈ l -> mapM id l = None.
Proof.
  induction l as [|x l IH]; [by intros ?%not_elem_of_nil|]. intros [<-|Hin]%elem_of_cons; [done|].
  simpl. destruct x; [|done]. simpl. by rewrite (IH Hin).
Qed.

Lemma field_be32 {St} off pre z post (w : St) : length pre = off -> 0 <= z < 2 ^ 32 ->
  field off (map Some (pre ++ be32 z ++ post)) w = Ok (to_int32 z) w.
Proof.
  intros Hpre Hz. unfold field. rewrite map_app, drop_app_length' by (by rewrite length_map).
  rewrite map_app, take_app_length' by (by rewrite length_map, length_be32).
  rewrite mapM_Some. cbn [unwrap]. unfold mbind, M_bind, mret, M_ret. rewrite of_be32_be32. unfold wrap_u32.
  by rewrite Z.mod_small.
Qed.

(** The round trip: a structure that holds a message prints as that message. *)
Lemma show_enc {St} p (w : St) : msg_ok p -> show (map Some (enc p)) w = Ok (shown p) w.
Proof.
  intros Hp. pose proof (length_name p Hp) as Hlen. destruct Hp as (Hj & Hz & Hn & Hm & Hc).
  set (n16 := take NAME_SIZE (name p.2 ++ x00 :: p.1)) in *.
  assert (Hs : c_string (St := St) (take NAME_SIZE (map Some (enc p))) w = Ok (name p.2) w).
  { unfold enc, encode. fold n16. rewrite map_app, take_app_length' by (by rewrite length_map).
    rewrite <-(app_nil_r (map Some n16)). by apply c_string_name. }
  assert (H16 : field (St := St) 16 (map Some (enc p)) w = Ok (to_int32 (math p.2)) w) by (by apply field_be32).
  assert (H20 : field (St := St) 20 (map Some (enc p)) w = Ok (to_int32 (chinese p.2)) w).
  { unfold enc, encode. fold n16. rewrite (assoc_L (++)), <-(app_nil_r (be32 (chinese p.2))).
    rewrite (assoc_L (++)), <-(assoc_L (++)). apply field_be32; [|done]. by rewrite length_app, Hlen. }
  unfold show, mbind, M_bind. by rewrite Hs, H16, H20.
Qed.

Lemma wp_show {St} p (Q : msg_st -> St -> Prop) E w :
  msg_ok p -> Q (shown p) w -> wp (show (map Some (enc p))) Q E w.
Proof. intros Hp HQ. unfold wp. by rewrite show_enc. Qed.

Lemma map_replicate {A B} (f : A -> B) n x : map f (replicate n x) = replicate n (f x).
Proof. exact (fmap_replicate f n x). Qed.

Lemma last_replicate_or {A} n (x : A) : default x (last (replicate n x)) = x.
Proof. destruct n as [|n]; [done|]. rewrite replicate_S_end, last_snoc. done. Qed.

Lemma overwrite_all buf data : length data = length buf -> overwrite buf data = map Some data.
Proof. intros Hlen. unfold overwrite. rewrite drop_ge by lia. apply app_nil_r. Qed.

(** The structure after the first [k] bytes of a message arrived in fresh memory. *)
Lemma show_partial {St} p k (w : St) : msg_ok p -> (k < MSG_SIZE)%nat ->
  show (overwrite uninit (take k (enc p))) w = Fault UninitRead w.
Proof.
  intros Hp Hk. pose proof (length_enc p Hp) as Hle.
  assert (Hbuf : overwrite uninit (take k (enc p)) = map Some (take k (enc p)) ++ replicate (MSG_SIZE - k) None).
  { unfold overwrite, uninit. rewrite drop_replicate, length_take, Hle. do 2 f_equal. lia. }
  assert (Hf : field (St := St) 20 (overwrite uninit (take k (enc p))) w = Fault UninitRead w).
  { unfold field. rewrite mapM_None; [done|]. rewrite Hbuf. apply list_elem_of_lookup. exists 3%nat.
    rewrite lookup_take_lt, lookup_drop by lia. rewrite lookup_app_r; rewrite length_map, length_take, Hle; [|unfold MSG_SIZE in *; lia].
    apply lookup_replicate_2. unfold MSG_SIZE in *. lia. }
  assert (Hf' : field (St := St) 16 (overwrite uninit (take k (enc p))) w = Fault UninitRead w \/
                exists m, field (St := St) 16 (overwrite uninit (take k (enc p))) w = Ok m w).
  { unfold field. destruct (mapM id _) as [l|]; [right; by eexists|by left]. }
  assert (Hs : c_string (St := St) (take NAME_SIZE (overwrite uninit (take k (enc p)))) w = Fault UninitRead w \/
               exists s, c_string (St := St) (take NAME_SIZE (overwrite uninit (take k (enc p)))) w = Ok s w).
  { destruct Hp as (Hj & Hz & Hn & _). rewrite Hbuf. destruct (decide (k < NAME_SIZE)%nat) as [Hlt|Hge].
    - assert (Hnone : None ∈ take NAME_SIZE (map Some (take k (enc p)) ++ replicate (MSG_SIZE - k) None)).
      { apply list_elem_of_lookup. exists k. rewrite lookup_take_lt by done.
        rewrite lookup_app_r; rewrite length_map, length_take, Hle; [|lia]. apply lookup_replicate_2. unfold MSG_SIZE, NAME_SIZE in *. lia. }
      by apply c_string_none.
    - right. exists (name p.2).
      rewrite take_app_le by (rewrite length_map, length_take, Hle; unfold MSG_SIZE, NAME_SIZE in *; lia).
      rewrite firstn_map, firstn_firstn, Nat.min_l by lia. unfold enc, encode.
      rewrite take_app_length' by (rewrite length_take, length_app; cbn [length]; unfold NAME_SIZE in *; lia).
      rewrite <-(app_nil_r (map Some _)). by apply c_string_name. }
  unfold show, mbind, M_bind. destruct Hs as [->|[s ->]]; [done|]. destruct Hf' as [->|[m ->]]; [done|]. by rewrite Hf.
Qed.

(** Every call succeeds in full. *)
Definition prompt (w : sock) : Prop := Forall (fun a => a = AFull) (s_orc w).

Lemma wp_ans (Q : sysans -> sock -> Prop) E w :
  prompt w -> (forall o, prompt (with_sorc o w) -> Q AFull (with_sorc o w)) -> wp ans Q E w.
Proof.
  intros Hp HQ. unfold wp, ans, prompt in *. destruct w as [o ? ? ? ? ? ?]. cbn [s_orc] in *. destruct o as [|a o].
  - by apply (HQ []).
  - apply Forall_cons in Hp as [-> Hp]. by apply HQ.
Qed.

Lemma wp_sock_call (Q : bool -> sock -> Prop) E w :
  prompt w -> (forall o, prompt (with_sorc o w) -> Q false (with_sorc o w)) -> wp call Q E w.
Proof. intros Hp HQ. apply wp_bind, wp_ans; [done|]. intros o Ho. wp_steps. by apply HQ. Qed.

Lemma wp_emit e (Q : unit -> sock -> Prop) E w :
  Q tt (with_log (s_log w ++ [e]) w) -> wp (emit e) Q E w.
Proof. done. Qed.

Lemma wp_must (Q : unit -> sock -> Prop) E w :
  prompt w -> (forall o, prompt (with_sorc o w) -> Q tt (with_sorc o w)) -> wp must Q E w.
Proof. intros Hp HQ. apply wp_bind, wp_sock_call; [done|]. intros o Ho. wp_steps. by apply HQ. Qed.

(** ** src/socket/socket_tcp.c *)

Module Tcp.
Section tcp.

(** [read(fd, &msg, sizeof(msg))] on the connection; 0 when the peer closed it. *)
Definition read_msg (buf : list (option byte)) : M sock (Z * list (option byte)) :=
  a ← ans;
  match a with
  | AErr _ => mret (-1, buf)
  | _ =>
      w ← get;
      let n := transfer a (Nat.min MSG_SIZE (length (s_in w))) in
      put (with_in (drop n (s_in w)) w) ;;
      mret (Z.of_nat n, overwrite buf (take n (s_in w)))
  end.

(** One round of the [while] loop of [server]. *)
Definition serve_step (msg : list (option byte)) : M sock (list (option byte) + unit) :=
  '(r, msg) ← read_msg msg;
  m ← show msg;
  emit (EvMsg m) ;;
  if r =? 0 then emit EvClosed ;; mret (inr tt) else mret (inl msg).

(** After a failed [accept] the address of the peer is printed all the same. *)
Definition server (fuel : nat) : M sock unit :=
  must ;;                                      (* socket *)
  if is_none (pton_num ANY) then exit_ 1 else
  must ;;                                      (* bind *)
  must ;;                                      (* listen *)
  fd ← call;                                   (* accept *)
  r_addr ← (if (fd : bool) then fail UninitRead else gets s_peer);
  emit (EvPeer r_addr.1 r_addr.2) ;;
  if (fd : bool) then exit_ 1 else
  iter fuel serve_step uninit ;;
  exit_ 0.

(** [write(sd, &msg, sizeof(msg)) < 0] *)
Definition write_msg (data : list byte) : M sock bool :=
  a ← ans;
  match a with
  | AErr _ => mret true
  | _ => modify (fun w => with_sent (s_sent w ++ take (transfer a (length data)) data) w) ;; mret false
  end.

(** One round of the [while] loop of [client]. *)
Definition send_step (junk : list byte) (_ : unit) : M sock (unit + unit) :=
  emit EvTry ;;
  e ← write_msg (encode junk sal);
  if (e : bool) then exit_ 1 else mret (inl tt).

Definition client (fuel : nat) (junk : list byte) (host : option (list byte)) : M sock unit :=
  must ;;                                      (* socket *)
  h ← unwrap NullDeref host;
  if is_none (pton_num h) then exit_ 1 else
  must ;;                                      (* connect *)
  iter fuel (send_step junk) tt ;;
  exit_ 0.

Record opts := Opts { o_s : bool; o_c : bool; o_host : option (list byte) }.

(** The [switch] of the option loop. *)
Definition set_opt (o : opts) (x : byte * list byte) : M sock opts :=
  let '(ch, arg) := x in
  if bool_decide (ch = x73) then emit EvServer ;; mret (Opts true (o_c o) (o_host o)) else
  if bool_decide (ch = x63) then emit EvClient_ ;; mret (Opts (o_s o) true (o_host o)) else
  if bool_decide (ch = x68) then mret (Opts (o_s o) (o_c o) (Some arg)) else mret o.

Fixpoint set_opts (l : list (byte * list byte)) (o : opts) : M sock opts :=
  match l with
  | [] => mret o
  | x :: l' => o ← set_opt o x; set_opts l' o
  end.

Definition main (fuel : nat) (junk : list byte) (argv : list (list byte)) : M sock unit :=
  if decide (length argv = 1%nat) then emit EvUsage ;; exit_ 0 else
  o ← set_opts (getopt (bytes "sch:") argv) (Opts false false None);
  (if o_s o then server fuel else client fuel junk (o_host o)) ;;
  exit_ 0.

(** *** The server *)

(** Reading a message that is there in full. *)
Lemma wp_read_msg p rest buf (Q : Z * list (option byte) -> sock -> Prop) E w :
  prompt w -> msg_ok p -> length buf = MSG_SIZE -> s_in w = enc p ++ rest ->
  (forall o, prompt (with_sorc o w) ->
     Q (24, map Some (enc p)) (with_in rest (with_sorc o w))) ->
  wp (read_msg buf) Q E w.
Proof.
  intros Hp Hm Hb Hin HQ. unfold read_msg. apply wp_bind, wp_ans; [done|]. intros o Ho. wp_steps.
  cbn [s_in with_sorc transfer]. rewrite Hin. pose proof (length_enc p Hm) as Hl.
  replace (Nat.min MSG_SIZE (length (enc p ++ rest))) with (length (enc p))
    by (rewrite length_app, Hl; lia).
  rewrite take_app_length, drop_app_length, overwrite_all by lia. rewrite Hl. by apply HQ.
Qed.

(** The loop, after message [m0] was received: every message is printed, and the
    last one again when the peer has closed the connection. *)
Lemma wp_serve ms m0 fuel w (E : Z -> sock -> Prop) :
  prompt w -> Forall msg_ok ms -> msg_ok m0 -> s_in w = concat (map enc ms) -> (length ms < fuel)%nat ->
  wp (iter fuel serve_step (map Some (enc m0)))
     (fun _ w' => s_log w' = s_log w ++ map (fun p => EvMsg (shown p)) (ms ++ [default m0 (last ms)]) ++ [EvClosed]) E w.
Proof.
  revert m0 fuel w. induction ms as [|m ms IH]; intros m0 fuel w Hp Hms Hm0 Hin Hf;
    (destruct fuel as [|fuel]; [simpl in Hf; lia|]); apply wp_iter_S; unfold serve_step at 1; apply wp_bind.
  - unfold read_msg. apply wp_bind, wp_ans; [done|]. intros o Ho. wp_steps. cbn [s_in with_sorc]. rewrite Hin.
    change (overwrite (map Some (enc m0)) (take _ _)) with (map Some (enc m0)).
    apply wp_show; [done|]. apply wp_bind, wp_emit. change (Z.of_nat _ =? 0) with true. cbn beta iota.
    apply wp_bind, wp_emit, wp_ret. cbn [s_log with_log with_in with_sorc]. by rewrite <-(assoc_L (++)).
  - apply Forall_cons in Hms as [Hm Hms]. cbn [map concat] in Hin.
    apply (wp_read_msg m (concat (map enc ms))); [done|done|by rewrite length_map, length_enc|done|].
    intros o Ho. cbn beta iota. apply wp_bind, wp_show; [done|]. apply wp_bind, wp_emit.
    change (24 =? 0) with false. cbn beta iota. apply wp_ret.
    eapply wp_mono; [|intros ? ? HE; exact HE|apply IH]; try done; [|simpl in Hf; lia].
    intros [] w' ->. cbn [s_log with_log with_in with_sorc map app]. rewrite <-!(assoc_L (++)). do 2 f_equal.
    cbn [app]. rewrite last_cons. by destruct (last ms).
Qed.

Lemma wp_server fuel w p ms :
  prompt w -> Forall msg_ok (p :: ms) -> s_in w = concat (map enc (p :: ms)) ->
  (S (length ms) < fuel)%nat ->
  wp (server fuel) (fun _ _ => False)
     (fun c w' => c = 0 /\ s_log w' = s_log w ++ EvPeer (s_peer w).1 (s_peer w).2 ::
        map (fun p => EvMsg (shown p)) ((p :: ms) ++ [default p (last ms)]) ++ [EvClosed]) w.
Proof.
  pose proof ANY_ok as Hany. intros Hp Hms Hin Hf. apply Forall_cons in Hms as [Hm Hms]. unfold server.
  apply wp_bind, wp_must; [done|]. intros o1 H1. cbn beta iota. destruct (pton_num ANY); [|done]. cbn [is_none].
  do 2 (apply wp_bind, wp_must; [done|]; intros ? ?; cbn beta iota).
  apply wp_bind, wp_sock_call; [done|]. intros o3 H3. cbn beta iota. apply wp_bind, wp_gets, wp_bind, wp_emit.
  cbn beta iota. apply wp_bind. destruct fuel as [|fuel]; [lia|]. apply wp_iter_S. unfold serve_step at 1.
  apply wp_bind, (wp_read_msg p (concat (map enc ms))); [done|done|done|done|].
  intros o2 H2. cbn beta iota. apply wp_bind, wp_show; [done|]. apply wp_bind, wp_emit.
  change (24 =? 0) with false. cbn beta iota. apply wp_ret.
  eapply wp_mono; [|intros ? ? HE; exact HE|apply (wp_serve ms p)]; try done; [|lia].
  intros [] w' Hlog. apply wp_exit. split; [done|]. rewrite Hlog.
  cbn [s_log s_peer with_log with_in with_sorc map app]. rewrite <-!(assoc_L (++)). done.
Qed.

(** *** The client *)

Lemma send_rounds fuel junk w :
  prompt w -> exists w', iter fuel (send_step junk) tt w = OutOfFuel w' /\
    s_sent w' = s_sent w ++ concat (replicate fuel (encode junk sal)) /\
    s_log w' = s_log w ++ replicate fuel EvTry.
Proof.
  revert w. induction fuel as [|fuel IH]; intros w Hp; cbn [iter].
  { exists w. cbn. by rewrite !app_nil_r. }
  destruct (wp_Ok (send_step junk tt) (fun x w' => x = inl tt /\ prompt w' /\
      s_sent w' = s_sent w ++ encode junk sal /\ s_log w' = s_log w ++ [EvTry]) w) as (x & w1 & -> & -> & Hp1 & Hs & Hl).
  { unfold send_step. apply wp_bind, wp_emit. unfold write_msg. apply wp_bind, wp_bind, wp_ans; [done|].
    intros o Ho. wp_steps. cbn [transfer s_sent with_sent with_log with_sorc s_log]. by rewrite firstn_all. }
  destruct (IH w1 Hp1) as (w' & Hrun & Hs' & Hl'). exists w'. split; [done|].
  rewrite Hs', Hl', Hs, Hl, <-!(assoc_L (++)). done.
Qed.

Lemma client_sends fuel junk h w :
  pton_num h <> None -> prompt w ->
  exists w', client fuel junk (Some h) w = OutOfFuel w' /\
    s_sent w' = s_sent w ++ concat (replicate fuel (encode junk sal)).
Proof.
  intros Hh Hp. unfold client.
  destruct (wp_Ok must (fun _ w' => prompt w' /\ s_sent w' = s_sent w) w) as ([] & w1 & H1 & Hp1 & Hs1).
  { apply wp_must; [done|]. intros o Ho. by split. }
  destruct (wp_Ok must (fun _ w' => prompt w' /\ s_sent w' = s_sent w1) w1) as ([] & w2 & H2 & Hp2 & Hs2).
  { apply wp_must; [done|]. intros o Ho. by split. }
  destruct (send_rounds fuel junk w2 Hp2) as (w' & Hrun & Hs & _). exists w'.
  unfold mbind, M_bind. rewrite H1. cbn [unwrap mret M_ret]. destruct (pton_num h); [|done]. cbn [is_none].
  rewrite H2, Hrun. split; [done|]. by rewrite Hs, Hs2, Hs1.
Qed.

(** *** The program *)

Lemma wp_main_server fuel junk prog w p ms :
  prompt w -> Forall msg_ok (p :: ms) -> s_in w = concat (map enc (p :: ms)) ->
  (S (length ms) < fuel)%nat ->
  wp (main fuel junk [prog; bytes "-s"]) (fun _ _ => False)
     (fun c w' => c = 0 /\ s_log w' = s_log w ++ EvServer :: EvPeer (s_peer w).1 (s_peer w).2 ::
        map (fun p => EvMsg (shown p)) ((p :: ms) ++ [default p (last ms)]) ++ [EvClosed]) w.
Proof.
  intros Hp Hms Hin Hf. unfold main. rewrite decide_False by done.
  change (getopt _ _) with [(x73, []) : byte * list byte]. cbn [set_opts]. apply wp_bind, wp_bind.
  unfold set_opt. rewrite bool_decide_true by done. apply wp_bind, wp_emit, wp_ret, wp_ret. cbn [o_s]. apply wp_bind.
  eapply wp_mono; [| |by apply (wp_server fuel _ p ms)]; [done|].
  intros c w' [-> Hlog]. split; [done|]. rewrite Hlog. cbn [s_log s_peer with_log]. by rewrite <-(assoc_L (++)).
Qed.

(** The TCP server prints what it is sent: if every call succeeds in full and
    the peer sends whole messages before it closes, the server prints who
    connected and then every message in order, numbers as signed 32-bit ones, and
    ends with status 0; but when the connection is closed it prints the last
    message a second time. *)
Theorem tcp_server_prints fuel junk prog w p ms :
  prompt w -> Forall msg_ok (p :: ms) -> s_in w = concat (map enc (p :: ms)) ->
  (S (length ms) < fuel)%nat ->
  exists w', main fuel junk [prog; bytes "-s"] w = Exit 0 w' /\
    s_log w' = s_log w ++ EvServer :: EvPeer (s_peer w).1 (s_peer w).2 ::
      map (fun p => EvMsg (shown p)) ((p :: ms) ++ [default p (last ms)]) ++ [EvClosed].
Proof.
  intros Hp Hms Hin Hf. pose proof (wp_main_server fuel junk prog w p ms Hp Hms Hin Hf) as Hwp.
  unfold wp in Hwp. destruct (main _ _ _ _) as [|c w'| |]; try done. destruct Hwp as [-> Hlog]. by exists w'.
Qed.

Lemma serve_partial p rest k o w :
  s_orc w = ALen k :: o -> msg_ok p -> s_in w = enc p ++ rest -> (k < MSG_SIZE)%nat ->
  exists w', serve_step uninit w = Fault UninitRead w'.
Proof.
  intros Ho Hp Hin Hk. unfold serve_step, read_msg, ans, get, put, mbind, M_bind, mret, M_ret. rewrite Ho. cbn beta iota.
  cbn [s_in with_sorc]. rewrite Hin. set (n := transfer _ _).
  assert (Hn : (n < MSG_SIZE)%nat).
  { unfold n, transfer. rewrite length_app, (length_enc p Hp). case_decide; unfold MSG_SIZE in *; lia. }
  rewrite take_app_le by (rewrite (length_enc p Hp); lia). rewrite show_partial by done. by eexists.
Qed.

(** The TCP server needs whole messages: if the first [read] returns only
    part of a message, which a stream allows, the server prints a structure of
    which a part was never written. *)
Theorem tcp_short_read_uninit fuel junk prog w p rest k o :
  s_orc w = [AFull; AFull; AFull; AFull; ALen k] ++ o ->
  msg_ok p -> s_in w = enc p ++ rest -> (k < MSG_SIZE)%nat -> (0 < fuel)%nat ->
  exists w', main fuel junk [prog; bytes "-s"] w = Fault UninitRead w'.
Proof.
  pose proof ANY_ok as Hany. intros Ho Hp Hin Hk Hf. destruct w as [orc peer inp dg sent outd log]. cbn [s_orc s_in] in *. subst orc inp.
  destruct fuel as [|fuel]; [lia|]. unfold main. rewrite decide_False by done.
  change (getopt _ _) with [(x73, []) : byte * list byte].
  unfold set_opts, set_opt. rewrite bool_decide_true by done. unfold server, must, call, ans, emit, modify, gets.
  destruct (pton_num ANY); [|done]. unfold mbind, M_bind, mret, M_ret. cbn -[uninit enc].
  match goal with |- context [serve_step uninit ?w] =>
    destruct (serve_partial p rest k o w) as [w' Hw']; [done..|rewrite Hw'] end.
  by eexists.
Qed.

(** C13: TCP end to end, when every call succeeds and every [read] and [write]
    transfers what it is asked to ([prompt]; a stream need not: see
    [tcp_short_read_uninit]): the client goes on sending until it is stopped, and
    what it has sent after [n] rounds, [n] at least 1, makes the server print the
    client's message [n + 1] times. *)
Theorem tcp_end_to_end n junk prog h wc ws fuel :
  pton_num h <> None -> length junk = NAME_SIZE -> (0 < n)%nat -> (n < fuel)%nat ->
  prompt wc -> s_sent wc = [] -> prompt ws ->
  exists wc', main n junk [prog; bytes "-c"; bytes "-h"; h] wc = OutOfFuel wc' /\
    (s_in ws = s_sent wc' ->
     wp (main fuel junk [prog; bytes "-s"]) (fun _ _ => False)
       (fun c w' => c = 0 /\ s_log w' = s_log ws ++ EvServer :: EvPeer (s_peer ws).1 (s_peer ws).2 ::
          replicate (S n) (EvMsg sal) ++ [EvClosed]) ws).
Proof.
  intros Hh Hj Hn Hf Hpc Hs0 Hps.
  destruct (client_sends n junk h (with_log (s_log wc ++ [EvClient_]) wc) Hh Hpc) as (wc' & Hrun & Hsent).
  exists wc'. split.
  - unfold main. rewrite decide_False by done.
    assert (Hopts : set_opts (getopt (bytes "sch:") [prog; bytes "-c"; bytes "-h"; h]) (Opts false false None) wc =
                    Ok (Opts false true (Some h)) (with_log (s_log wc ++ [EvClient_]) wc)) by reflexivity.
    unfold mbind at 1, M_bind at 1. rewrite Hopts. unfold mbind, M_bind. cbn [o_s o_host]. by rewrite Hrun.
  - intros Hin. cbn [s_sent with_log] in Hsent. rewrite Hs0 in Hsent.
    assert (Hok : msg_ok (junk, sal)) by (by apply sal_ok).
    destruct n as [|n]; [lia|].
    eapply wp_mono; [| |apply (wp_main_server fuel junk prog ws (junk, sal) (replicate n (junk, sal)))]; try done.
    + intros c w' [-> Hlog]. split; [done|]. rewrite Hlog. do 3 f_equal. f_equal.
      rewrite last_replicate_or. change ((junk, sal) :: replicate n (junk, sal)) with (replicate (S n) (junk, sal)).
      rewrite <-replicate_S_end, map_replicate. done.
    + change ((junk, sal) :: replicate n (junk, sal)) with (replicate (S n) (junk, sal)). by apply Forall_replicate.
    + change ((junk, sal) :: replicate n (junk, sal)) with (replicate (S n) (junk, sal)).
      rewrite Hin, Hsent, map_replicate. done.
    + rewrite length_replicate. lia.
Qed.
End tcp.
End Tcp.

(** ** src/socket/socket_udp.c *)

Module Udp.
Section udp.

(** [strncmp(host, "224", 3) == 0] *)
Definition multicast (host : list byte) : bool := bool_decide (take 3 host = bytes "224").

(** Socket, broadcast option and, for a group, its interface: the first half of
    both roles.  A descriptor below zero makes [setsockopt] fail. *)
Definition open_socket (host : list byte) (iface : option (list byte)) : M sock unit :=
  sd ← call;                                              (* socket *)
  e ← call;                                               (* setsockopt *)
  if (sd : bool) || (e : bool) then exit_ 1 else
  (if multicast host then
     match iface with
     | None => exit_ 1
     | Some i => emit (EvGroup host i) ;; must            (* setsockopt *)
     end
   else mret tt) ;;
  if (sd : bool) then exit_ 1 else mret tt.

(** [recvfrom(sd, &msg, sizeof(msg), ...)]: a datagram, cut to the size of the
    buffer, and its sender; a failed call leaves both as they were. *)
Definition recv_msg (msg : list (option byte)) (r_addr : option (Z * Z)) :
    M sock (list (option byte) * option (Z * Z)) :=
  a ← ans;
  match a with
  | AErr _ => mret (msg, r_addr)
  | _ =>
      w ← get;
      match s_dgrams w with
      | [] => block
      | (ip, port, d) :: ds =>
          put (with_dgrams ds w) ;; mret (overwrite msg (take MSG_SIZE d), Some (ip, port))
      end
  end.

Definition recv_step (s : list (option byte) * option (Z * Z)) :
    M sock (list (option byte) * option (Z * Z) + unit) :=
  let '(msg, r_addr) := s in
  '(msg, r_addr) ← recv_msg msg r_addr;
  from ← unwrap UninitRead r_addr;
  emit (EvPeer from.1 from.2) ;;
  m ← show msg;
  emit (EvMsg m) ;;
  mret (inl (msg, r_addr)).

Definition server (fuel : nat) (host iface : option (list byte)) : M sock unit :=
  open_socket (default ANY host) iface ;;
  if is_none (pton_num ANY) then exit_ 1 else
  must ;;                                                 (* bind *)
  iter fuel recv_step (uninit, None) ;;
  exit_ 0.

(** [sendto(sd, &msg, sizeof(msg), 0, &r_addr, ...)] *)
Definition send_step (junk : list byte) (addr : Z) (_ : unit) : M sock (unit + unit) :=
  e ← call;
  if (e : bool) then exit_ 1 else
  modify (fun w => with_out (s_out w ++ [(addr, RECV_PORT, encode junk sal)]) w) ;;
  mret (inl tt).

Definition client (fuel : nat) (junk : list byte) (host iface : option (list byte)) : M sock unit :=
  match host with
  | None =>                                  (* [strncmp(NULL, ...)] *)
      sd ← call; e ← call; if (sd : bool) || (e : bool) then exit_ 1 else fail NullDeref
  | Some h =>
      open_socket h iface ;;
      match pton_num h with
      | None => exit_ 1
      | Some addr => iter fuel (send_step junk addr) tt ;; exit_ 0
      end
  end.

Record opts := Opts { o_s : bool; o_c : bool; o_host : option (list byte); o_i : option (list byte) }.

(** The [switch] of the option loop. *)
Definition set_opt (o : opts) (x : byte * list byte) : M sock opts :=
  let '(ch, arg) := x in
  if bool_decide (ch = x73) then emit EvServer ;; mret (Opts true (o_c o) (o_host o) (o_i o)) else
  if bool_decide (ch = x63) then emit EvClient_ ;; mret (Opts (o_s o) true (o_host o) (o_i o)) else
  if bool_decide (ch = x68) then mret (Opts (o_s o) (o_c o) (Some arg) (o_i o)) else
  if bool_decide (ch = x69) then mret (Opts (o_s o) (o_c o) (o_host o) (Some arg)) else mret o.

Fixpoint set_opts (l : list (byte * list byte)) (o : opts) : M sock opts :=
  match l with
  | [] => mret o
  | x :: l' => o ← set_opt o x; set_opts l' o
  end.

Definition main (fuel : nat) (junk : list byte) (argv : list (list byte)) : M sock unit :=
  if decide (length argv = 1%nat) then emit EvUsage ;; exit_ 0 else
  o ← set_opts (getopt (bytes "sch:i:") argv) (Opts false false None None);
  (if o_s o then server fuel (o_host o) (o_i o) else client fuel junk (o_host o) (o_i o)) ;;
  exit_ 0.

(** *** The server *)

(** Without a group, both roles get their socket. *)
Lemma open_socket_ok host iface w : prompt w -> multicast host = false ->
  exists w', open_socket host iface w = Ok tt w' /\ prompt w' /\ s_dgrams w' = s_dgrams w /\
    s_out w' = s_out w /\ s_log w' = s_log w.
Proof.
  intros Hp Hm. destruct (wp_Ok (open_socket host iface) (fun _ w' => prompt w' /\ s_dgrams w' = s_dgrams w /\
    s_out w' = s_out w /\ s_log w' = s_log w) w) as ([] & w' & Hr & Hw'); [|by exists w'].
  unfold open_socket. do 2 (apply wp_bind, wp_sock_call; [done|]; intros ? ?; cbn beta iota).
  rewrite Hm. cbn [orb]. wp_steps. done.
Qed.

Definition printed (d : Z * Z * (list byte * msg_st)) : list ev :=
  [EvPeer d.1.1 d.1.2; EvMsg (shown d.2)].

Definition dgram (d : Z * Z * (list byte * msg_st)) : Z * Z * list byte := (d.1, enc d.2).

Lemma recv_rounds ds fuel msg r_addr w :
  prompt w -> Forall (fun d => msg_ok d.2) ds -> s_dgrams w = map dgram ds -> length msg = MSG_SIZE ->
  (length ds < fuel)%nat ->
  exists w', iter fuel recv_step (msg, r_addr) w = OutOfFuel w' /\
    s_log w' = s_log w ++ concat (map printed ds) /\ s_dgrams w' = [].
Proof.
  revert fuel msg r_addr w. induction ds as [|d ds IH]; intros fuel msg r_addr w Hp Hds Hin Hlen Hf;
    (destruct fuel as [|fuel]; [simpl in Hf; lia|]); cbn [iter].
  - destruct (wp_Ok ans (fun a w' => a = AFull /\ s_dgrams w' = [] /\ s_log w' = s_log w) w) as (a & w' & Ha & -> & Hd & Hl).
    { apply wp_ans; [done|]. intros o Ho. split_and!; [done|exact Hin|done]. }
    exists w'. unfold recv_step, recv_msg, mbind, M_bind. rewrite Ha. unfold get. rewrite Hd. cbn. by rewrite app_nil_r.
  - apply Forall_cons in Hds as [Hd Hds]. destruct d as [[ip port] p]. cbn [map snd] in Hin, Hd.
    change (dgram (ip, port, p)) with (ip, port, enc p) in Hin.
    destruct (wp_Ok (recv_step (msg, r_addr)) (fun x w' => x = inl (map Some (enc p), Some (ip, port)) /\ prompt w' /\
        s_dgrams w' = map dgram ds /\ s_log w' = s_log w ++ printed (ip, port, p)) w)
      as (x & w1 & -> & -> & Hp1 & Hd1 & Hl1).
    { unfold recv_step, recv_msg. apply wp_bind, wp_bind, wp_ans; [done|]. intros o Ho. wp_steps.
      cbn [s_dgrams with_sorc]. rewrite Hin. wp_steps. apply (wp_unwrap _ _ (ip, port)); [done|].
      apply wp_bind, wp_emit, wp_bind. rewrite (firstn_all2 (enc p)) by (by rewrite length_enc).
      rewrite overwrite_all by (by rewrite length_enc). apply wp_show; [done|]. apply wp_bind, wp_emit, wp_ret.
      split_and!; [done|done|done|]. cbn [s_log with_log with_dgrams with_sorc]. by rewrite <-(assoc_L (++)). }
    destruct (IH fuel (map Some (enc p)) (Some (ip, port)) w1) as (w' & Hrun & Hl & Hd');
      [done|done|done|by rewrite length_map, length_enc|simpl in Hf; lia|].
    exists w'. split_and!; [done| |done]. rewrite Hl, Hl1. cbn [map concat]. by rewrite (assoc_L (++)).
Qed.

Lemma server_rounds fuel host iface w ds :
  prompt w -> multicast (default ANY host) = false ->
  Forall (fun d => msg_ok d.2) ds -> s_dgrams w = map dgram ds -> (length ds < fuel)%nat ->
  exists w', server fuel host iface w = OutOfFuel w' /\ s_log w' = s_log w ++ concat (map printed ds).
Proof.
  pose proof ANY_ok as Hany. intros Hp Hm Hds Hin Hf. unfold server, mbind, M_bind.
  destruct (open_socket_ok (default ANY host) iface w Hp Hm) as (w1 & -> & Hp1 & Hd1 & _ & Hl1).
  destruct (pton_num ANY); [|done]. cbn [is_none].
  destruct (wp_Ok must (fun _ w' => prompt w' /\ s_dgrams w' = s_dgrams w1 /\ s_log w' = s_log w1) w1)
    as ([] & w2 & -> & Hp2 & Hd2 & Hl2); [apply wp_must; [done|]; intros o Ho; done|].
  destruct (recv_rounds ds fuel uninit None w2) as (w' & -> & Hl & _); [done|done|congruence|done|done|].
  exists w'. split; [done|]. by rewrite Hl, Hl2, Hl1.
Qed.

Lemma main_server_rounds fuel junk prog w ds :
  prompt w -> Forall (fun d => msg_ok d.2) ds -> s_dgrams w = map dgram ds ->
  (length ds < fuel)%nat ->
  exists w', main fuel junk [prog; bytes "-s"] w = OutOfFuel w' /\
    s_log w' = s_log w ++ EvServer :: concat (map printed ds).
Proof.
  intros Hp Hds Hin Hf. unfold main. rewrite decide_False by done.
  assert (Hopts : set_opts (getopt (bytes "sch:i:") [prog; bytes "-s"]) (Opts false false None None) w =
                  Ok (Opts true false None None) (with_log (s_log w ++ [EvServer]) w)) by reflexivity.
  unfold mbind at 1, M_bind at 1. rewrite Hopts. cbn [o_s o_host o_i].
  destruct (server_rounds fuel None None (with_log (s_log w ++ [EvServer]) w) ds) as (w' & Hrun & Hl); try done.
  exists w'. unfold mbind, M_bind. rewrite Hrun. split; [done|]. rewrite Hl. cbn [s_log with_log]. by rewrite <-(assoc_L (++)).
Qed.

(** *** The client *)

Lemma send_dgram_rounds fuel junk addr w :
  prompt w -> exists w', iter fuel (send_step junk addr) tt w = OutOfFuel w' /\
    s_out w' = s_out w ++ replicate fuel (addr, RECV_PORT, encode junk sal).
Proof.
  revert w. induction fuel as [|fuel IH]; intros w Hp; cbn [iter].
  { exists w. cbn. by rewrite app_nil_r. }
  destruct (wp_Ok (send_step junk addr tt) (fun x w' => x = inl tt /\ prompt w' /\
      s_out w' = s_out w ++ [(addr, RECV_PORT, encode junk sal)]) w) as (x & w1 & -> & -> & Hp1 & Hs).
  { unfold send_step. apply wp_bind, wp_sock_call; [done|]. intros o Ho. by wp_steps. }
  destruct (IH w1 Hp1) as (w' & Hrun & Hs'). exists w'. split; [done|].
  by rewrite Hs', Hs, <-(assoc_L (++)).
Qed.

(** *** The program *)

(** The UDP server prints every datagram it receives, in order and once, with
    its sender, and then waits for the next one for ever, if every call succeeds
    and the datagrams are messages. *)
Theorem udp_server_prints fuel junk prog w ds :
  prompt w -> Forall (fun d => msg_ok d.2) ds -> s_dgrams w = map dgram ds ->
  (length ds < fuel)%nat ->
  exists w', main fuel junk [prog; bytes "-s"] w = OutOfFuel w' /\
    s_log w' = s_log w ++ EvServer :: concat (map printed ds).
Proof. apply main_server_rounds. Qed.

(** C14: UDP end to end: the datagrams the client has sent after [n] rounds, which
    all go to the port of the server, make the server print the client's message
    exactly [n] times. *)
Theorem udp_end_to_end n junk prog h addr from wc ws fuel :
  pton_num h = Some addr -> multicast h = false -> length junk = NAME_SIZE ->
  (n < fuel)%nat -> prompt wc -> s_out wc = [] -> prompt ws ->
  exists wc', main n junk [prog; bytes "-c"; bytes "-h"; h] wc = OutOfFuel wc' /\
    Forall (fun d => d.1 = (addr, RECV_PORT)) (s_out wc') /\
    (s_dgrams ws = map (fun d => (from, d.2)) (s_out wc') ->
     exists ws', main fuel junk [prog; bytes "-s"] ws = OutOfFuel ws' /\
       s_log ws' = s_log ws ++ EvServer :: concat (replicate n [EvPeer from.1 from.2; EvMsg sal])).
Proof.
  intros Hh Hm Hj Hf Hpc Hs0 Hps.
  destruct (open_socket_ok h None (with_log (s_log wc ++ [EvClient_]) wc) Hpc Hm) as (w1 & Ho & Hp1 & _ & Hs1 & _).
  destruct (send_dgram_rounds n junk addr w1 Hp1) as (wc' & Hrun & Hsent).
  rewrite Hs1 in Hsent. cbn [s_out with_log] in Hsent. rewrite Hs0 in Hsent. cbn [app] in Hsent.
  exists wc'. split_and!.
  - unfold main. rewrite decide_False by done.
    assert (Hopts : set_opts (getopt (bytes "sch:i:") [prog; bytes "-c"; bytes "-h"; h]) (Opts false false None None) wc =
                    Ok (Opts false true (Some h) None) (with_log (s_log wc ++ [EvClient_]) wc)) by reflexivity.
    unfold mbind at 1, M_bind at 1. rewrite Hopts. unfold client, mbind, M_bind. cbn [o_s o_host o_i].
    by rewrite Ho, Hh, Hrun.
  - rewrite Hsent. by apply Forall_replicate.
  - intros Hin. rewrite Hsent, map_replicate in Hin. cbn [fst snd] in Hin.
    destruct (main_server_rounds fuel junk prog ws (replicate n (from, (junk, sal)))) as (ws' & Hr & Hl);
      [done|by apply Forall_replicate, sal_ok|by rewrite Hin, map_replicate|by rewrite length_replicate|].
    exists ws'. split; [done|]. by rewrite Hl, map_replicate.
Qed.
End udp.
End Udp.

(** ** Witnesses *)

Definition demo_msgs : list (list byte * msg_st) :=
  [(replicate 16 x7f, Msg (bytes "ann") 90 4294967295); (replicate 16 x00, sal)].

Definition demo_sock (o : list sysans) (i : list byte) (d : list (Z * Z * list byte)) : sock :=
  {| s_orc := o; s_peer := (2130706433, 40000); s_in := i; s_dgrams := d; s_sent := []; s_out := []; s_log := [] |}.

Lemma demo_msgs_ok : Forall msg_ok demo_msgs.
Proof.
  repeat constructor; cbn; try lia; try (by apply (bool_decide_unpack (_ ∉ _)); vm_compute).
Qed.

Lemma tcp_server_prints_witness :
  exists w', Tcp.main 10 [] [bytes "tcp"; bytes "-s"] (demo_sock [AFull] (concat (map enc demo_msgs)) []) = Exit 0 w' /\
    s_log w' = [] ++ EvServer :: EvPeer 2130706433 40000 ::
      map (fun p => EvMsg (shown p)) (demo_msgs ++ [(replicate 16 x00, sal)]) ++ [EvClosed].
Proof.
  apply (Tcp.tcp_server_prints 10 [] (bytes "tcp") (demo_sock [AFull] (concat (map enc demo_msgs)) [])
           (replicate 16 x7f, Msg (bytes "ann") 90 4294967295) [(replicate 16 x00, sal)]);
    [by repeat constructor|exact demo_msgs_ok|reflexivity|simpl; lia].
Defined.

Lemma tcp_short_read_uninit_witness :
  exists w', Tcp.main 10 [] [bytes "tcp"; bytes "-s"]
    (demo_sock [AFull; AFull; AFull; AFull; ALen 20] (enc (replicate 16 x00, sal)) []) = Fault UninitRead w'.
Proof.
  apply (Tcp.tcp_short_read_uninit 10 [] (bytes "tcp") _ (replicate 16 x00, sal) [] 20 []);
    [reflexivity|apply sal_ok; reflexivity|cbn [s_in demo_sock]; by rewrite app_nil_r|unfold MSG_SIZE; lia|lia].
Defined.

Lemma tcp_end_to_end_witness :
  exists wc', Tcp.main 3 (replicate 16 x00) [bytes "tcp"; bytes "-c"; bytes "-h"; bytes "127.0.0.1"] (demo_sock [] [] []) = OutOfFuel wc' /\
    (concat (replicate 3 (encode (replicate 16 x00) sal)) = s_sent wc' ->
     wp (Tcp.main 10 (replicate 16 x00) [bytes "tcp"; bytes "-s"]) (fun _ _ => False)
       (fun c w' => c = 0 /\ s_log w' = [] ++ EvServer :: EvPeer 2130706433 40000 ::
          replicate 4 (EvMsg sal) ++ [EvClosed])
       (demo_sock [] (concat (replicate 3 (encode (replicate 16 x00) sal))) [])).
Proof.
  apply (Tcp.tcp_end_to_end 3 (replicate 16 x00) (bytes "tcp") (bytes "127.0.0.1") (demo_sock [] [] [])
           (demo_sock [] (concat (replicate 3 (encode (replicate 16 x00) sal))) []) 10);
    [done|reflexivity|lia|lia|constructor|reflexivity|constructor].
Defined.

Definition demo_dgrams : list (Z * Z * (list byte * msg_st)) :=
  map (fun p => (2130706433, 40000, p)) demo_msgs.

Lemma udp_server_prints_witness :
  exists w', Udp.main 10 [] [bytes "udp"; bytes "-s"] (demo_sock [AFull] [] (map Udp.dgram demo_dgrams)) = OutOfFuel w' /\
    s_log w' = [] ++ EvServer :: concat (map Udp.printed demo_dgrams).
Proof.
  apply (Udp.udp_server_prints 10 [] (bytes "udp") (demo_sock [AFull] [] (map Udp.dgram demo_dgrams)) demo_dgrams);
    [by repeat constructor| |reflexivity|simpl; lia].
  unfold demo_dgrams. apply Forall_map. exact demo_msgs_ok.
Defined.

Lemma udp_end_to_end_witness :
  exists wc', Udp.main 3 (replicate 16 x00) [bytes "udp"; bytes "-c"; bytes "-h"; bytes "127.0.0.1"] (demo_sock [] [] []) = OutOfFuel wc' /\
    Forall (fun d => d.1 = (2130706433, RECV_PORT)) (s_out wc') /\
    (replicate 3 (5, 6, encode (replicate 16 x00) sal) = map (fun d => ((5, 6), d.2)) (s_out wc') ->
     exists ws', Udp.main 10 (replicate 16 x00) [bytes "udp"; bytes "-s"]
         (demo_sock [] [] (replicate 3 (5, 6, encode (replicate 16 x00) sal))) = OutOfFuel ws' /\
       s_log ws' = [] ++ EvServer :: concat (replicate 3 [EvPeer 5 6; EvMsg sal])).
Proof.
  apply (Udp.udp_end_to_end 3 (replicate 16 x00) (bytes "udp") (bytes "127.0.0.1") 2130706433 (5, 6) (demo_sock [] [] [])
           (demo_sock [] [] (replicate 3 (5, 6, encode (replicate 16 x00) sal))) 10);
    [reflexivity|reflexivity|reflexivity|lia|constructor|reflexivity|constructor].
Defined.

(** A client started without [-h] passes a null pointer on, in both programs. *)
Example client_without_host :
  (exists w, Tcp.main 3 [] [bytes "tcp"; bytes "-c"] (demo_sock [] [] []) = Fault NullDeref w) /\
  (exists w, Udp.main 3 [] [bytes "udp"; bytes "-c"] (demo_sock [] [] []) = Fault NullDeref w).
Proof. split; eexists; vm_compute; reflexivity. Qed.

(** A read error sends the TCP server round its loop, printing the same message. *)
Example tcp_read_error_repeats :
  exists w, Tcp.main 4 [] [bytes "tcp"; bytes "-s"]
      (demo_sock ([AFull; AFull; AFull; AFull; AFull] ++ replicate 9 (AErr 104)) (enc (replicate 16 x00, sal)) []) = OutOfFuel w /\
    s_log w = [EvServer; EvPeer 2130706433 40000; EvMsg sal; EvMsg sal; EvMsg sal; EvMsg sal].
Proof. eexists. vm_compute. split; reflexivity. Qed.
